(* ===== verification/_CoqProject ===== *)
-Q . S2P
Prelude.v
Strconv.v
Bencode.v
TrackerState.v
UsageSync.v
Hex.v
Recognize.v
GoStrings.v
NetAddr.v
Wire.v
BencodeEnd.v
Sha.v
Database.v
Announce.v
Url.v
Codec.v
ClientTracker.v
Interop.v
Peer.v
Metadata.v
Downloader.v
Handshake.v
Paths.v
Merkle.v
Magnet.v
Metainfo.v
Create.v
TorrentFiles.v
TorrentDirs.v
Storage.v
Swarm.v
SwarmInv.v
SwarmRun.v
SwarmEnd.v
Download.v
Utf8.v
Flag.v
Base64.v
Json.v
Registry.v
Concurrent.v
Scrape.v
NetUrl.v
WlUrl.v
Float64.v
RateLimit.v
WlGet.v
WlCreate.v
Register.v
WlMain.v
Server.v
Takedown.v
Publish.v
AnnounceHttp.v
WlPeers.v
Process.v
Config.v
