(* ===== verification/Prelude.v ===== *)
(** * Weightless: a verification development

    Weightless is a BitTorrent tracker with a registry of torrents ([src/internal/tracker], [src/cmd/tracker]) and a command line client that creates,
    publishes and downloads hybrid v1/v2 torrents ([src/internal/torrent], [src/internal/client], [src/internal/bencode], [src/cmd/wl]).  This library
    translates the program into Rocq, file by file, and proves what makes its parts correct, alone and together.

    ** How the code is modelled

    A Go [string] or [[]byte] is a list of [Byte.byte]; an [int] or [int64] is a [Z] with its wrap-around written out ([wrap64]) where the code can
    reach it; a [float64] is the binary64 of the Standard Library.  A map is a [gmap], and where Go iterates over one the order is an argument.  A
    call that can fail returns [result]: a value, an error of an inductive type with one constructor per error of the source, [Panic] for a run-time
    panic, [NoFuel].  State is passed explicitly; the peer connection has a monad ([Peer.M]); what runs concurrently (the swarm's goroutines, the
    usage sync, the tracker's process) is a step relation whose steps are what one goroutine does between two points where another may run.  Clocks,
    random bytes, the success of each system or database call and the order in which the database yields rows are arguments.

    Loops that are not structural take fuel, and the definition that calls them gives enough: [Bencode.Validate] three units per byte and three more;
    the JSON reader two per byte ([read_value_fuel] shows that more changes nothing); [findBencodeEnd], the readers of numbers and runes and the
    Merkle levels one per byte or leaf that is left; the loops of the peer connection one per byte the connection can still deliver, [fetch_loop] one
    per metadata piece, as its source counts.  The theorems say that a result is returned ([validate_correct], [hashReaderHybrid_correct],
    [FetchMetadata_served], [downloadPiece_served]) and not only that it is right if there is one.  SHA-1, SHA-256 and HMAC are executable ([Sha]).

    ** The parts

    - Foundations: [Prelude] (results, integers, lists, automation), [GoStrings], [Strconv], [Hex], [Utf8], [Url], [NetUrl], [NetAddr], [Paths],
      [Flag], [Base64], [Json], [Float64], [Sha]: the parts of Go's standard library that the program calls; [Codec]: the third-party bencode library
      as a class [Bencoder] with its laws [BencoderLaws], and an instance [ref_codec] that meets them.
    - Bencode ([internal/bencode/validate.go]): [Bencode].  [Validate] accepts exactly the encodings of trees within the limits.
    - Tracker, [internal/tracker]: [TrackerState] ([state.go]: swarms and users, flush and reload), [UsageSync] ([state.go]: [FlushUsers],
      [DrainBacklog]), [Recognize] ([recognize.go]), [Database] (the tables of [db.go]), [Announce] ([auth.go], [announce.go]), [Concurrent]
      (announces that interleave), [Scrape], [Registry], [RateLimit], [Config] ([tracker.go]), [Server] (routes of [cmd/tracker/main.go]), [Takedown] (takedowns that interleave with announces and flushes), [Process] (goroutines of [cmd/tracker/main.go]).
    - Torrents, [internal/torrent]: [Merkle] and [Create] ([torrent.go]), [Metainfo] ([parse.go]), [Magnet] ([magnet.go]); [TorrentFiles] and
      [TorrentDirs] have the round trips between them.
    - Client, [internal/client]: [Wire] ([wire.go], [bitfield.go]), [Peer] and [Handshake] ([peer.go]), [BencodeEnd] and [Metadata] ([metadata.go]),
      [Downloader] and [Download] ([downloader.go]), [Storage] ([storage.go]), [Swarm], [SwarmInv], [SwarmRun], [SwarmEnd] ([swarm.go]),
      [ClientTracker] ([tracker.go]).
    - Commands, [cmd/wl/main.go]: [WlUrl] (addresses and passkeys), [WlGet], [WlPeers] (metadata from a peer), [WlCreate], [WlMain] (the command
      line).
    - Together: [Interop] (the client's announce against the tracker's handler), [Register] (the JSON body of a registration, at both ends), [Publish]
      (the two commands against the server), [AnnounceHttp] (an announce from end to end).

    The client speaks to the tracker through announces ([Interop]) and the registry's HTTP interface ([Publish]), to other peers through [Wire] and
    [Peer]; [Download] puts the swarm, the storage and the announces together, [WlGet] adds the metadata.  The server's handlers share one [World]
    (the swarm state and the database), which the process flushes and the usage sync reports from.

    ** What is proved

    - Recognizers accept exactly their grammar: bencode, announce parameters, passkeys, handshakes, message frames, relative paths, magnet links; and
      the command lines of [wl] that run a command are exactly those spelled from its flags, with the options they say ([command_line]).
    - Round trips: flush and reload; create and parse, from a stream and from a directory; magnet links; announce URLs; messages; the JSON of a
      registration ([registration_roundtrip]); and from end to end, what [wl create] publishes [wl get] acquires ([publish_then_get]), and an announce
      over HTTP gets the client the addresses the tracker selected ([announce_end_to_end]).
    - The tracker: an operation of the swarm state refines one of a finite map; usage is conserved between memory, backlog and Hub whatever
      interleaves and fails, up to what is reported again after a lost reply or a failed [DELETE] ([usage_conserved]), in the process with its two
      flushing goroutines too, where what is still in memory at the end is lost ([process_exact]); only requests that passed the limiter and
      their handler's checks change anything ([server_guarded]); a takedown blocks its hashes for good, and an hour later a pruning and a flush have
      removed what raced with it ([takedown_heals]), except for announces whose block list query fails, which the code lets through; concurrent
      announces of different peers are serializable ([announces_serialize]); the pages of a search are its results, up to the order of ties
      ([search_pages]); the limiter lets through what its rate and burst allow, in [float64] arithmetic ([rate_bound], [rate_available]); a
      graceful shutdown whose transaction succeeds saves the swarm ([shutdown_saves]).
    - Hashing: the streaming pass computes the piece hashes and the Merkle tree over the blocks ([hashReaderHybrid_correct]), which is that of BEP 52
      when the number of blocks is a power of two, and differs from it otherwise ([zero_padding_differs]).
    - The client: what it keeps is verified, at every level: a piece ([downloadPiece_verified]), the metadata ([FetchMetadata_verified]), the files
      while the swarm runs and when it ends ([swarm_verified], [download_to_disk]), the command ([get_verified]); it makes progress with a peer that
      serves ([handshake_mutual], [metadata_from_peers], [downloadPiece_served]) and never deadlocks ([swarm_progress]); the steps of the swarm are bounded
      but for the ticks of its clock and the addresses that peers report ([swarm_terminates]).
    - Errors: interrupted writes, partial takedowns, failed transactions, the results of the swarm; and a panic that a peer can cause
      ([FetchMetadata_crash]).

    ** Not modelled

    Deadlines and timeouts of connections, except where a state machine has them as a step; HTTP below one exchange (headers, chunking); what the
    commands print, but for the listing of [wl get]; Prometheus metrics and logging; opening SQLite and its pragmas (the engine is the meaning of its
    statements; [LIKE], row orders and the rows that fail to scan are parameters); the JSON text of replies and of the usage sync (that of registrations is in [Register]).  [Server]
    answers one request; announces that interleave are in [Concurrent], takedowns in [Takedown], the flushes of usage in [UsageSync] and
    [Process]. *)

From Stdlib Require Import Strings.Byte Strings.String ZArith Lia.
From Stdlib Require Ascii.
Export String.StringSyntax Ascii.AsciiSyntax.
From stdpp Require Export base gmap list numbers option sorting.
#[export] Set Default Goal Selector "!".
Local Open Scope Z_scope.

(** ** Bytes *)

Abbreviation byte := Byte.byte.
Abbreviation bytes := (list Byte.byte).

#[export] Instance byte_eq_decision : EqDecision byte := Byte.byte_eq_dec.
#[export] Instance byte_countable : Countable byte.
Proof.
  refine (inj_countable Byte.to_N Byte.of_N _).
  intros b. apply Byte.of_to_N.
Defined.

(** The unsigned value of a byte, and Go's truncating conversion [byte(x)]. *)
Definition bval (b : byte) : Z := Z.of_N (Byte.to_N b).
Definition zbyte (z : Z) : byte := default x00 (Byte.of_N (Z.to_N (z `mod` 256))).

(** String literals of the source, as byte lists (a Go [string] is a sequence of bytes). *)
Definition str (s : string) : bytes := String.list_byte_of_string s.
Arguments str _%_string_scope.
Definition chr (a : Ascii.ascii) : byte := Ascii.byte_of_ascii a.
Arguments chr _%_char_scope.

(** Go's [len]. *)
Definition zlen {A} (l : list A) : Z := Z.of_nat (length l).

(** ** Machine integers *)

(** Wrap-around of Go's [int64] (and of [int], 64 bits wide on the targets of the build). *)
Definition wrap64 (z : Z) : Z := (z + 2 ^ 63) `mod` 2 ^ 64 - 2 ^ 63.
(** Wrap-around of the unsigned types: Go's [uint32(x)], [uint16(x)]. *)
Definition uwrap (w z : Z) : Z := z `mod` 2 ^ w.

Definition in_int64 (z : Z) : Prop := - 2 ^ 63 ≤ z < 2 ^ 63.

(** ** Results: a value, an error, a run-time panic, or exhausted fuel *)

Inductive result (E A : Type) : Type :=
| Ok (a : A)
| Err (e : E)
| Panic
| NoFuel.
Arguments Ok {E A} _.
Arguments Err {E A} _.
Arguments Panic {E A}.
Arguments NoFuel {E A}.

#[export] Instance result_ret {E} : MRet (result E) := λ A a, Ok a.
#[export] Instance result_bind {E} : MBind (result E) := λ A B f m,
  match m with Ok a => f a | Err e => Err e | Panic => Panic | NoFuel => NoFuel end.
#[export] Instance result_fmap {E} : FMap (result E) := λ A B f m,
  match m with Ok a => Ok (f a) | Err e => Err e | Panic => Panic | NoFuel => NoFuel end.

#[export] Instance result_eq_decision {E A} `{EqDecision E} `{EqDecision A} : EqDecision (result E A).
Proof. solve_decision. Defined.

Definition is_ok {E A} (r : result E A) : bool :=
  match r with Ok _ => true | _ => false end.
(** The outcome is one the source can return: neither a panic nor an artefact of the fuel. *)
Definition returns {E A} (r : result E A) : Prop :=
  match r with Ok _ | Err _ => True | _ => False end.

(** [fmt.Errorf("...: %w", err)]: an error wrapped by its caller. *)
Definition map_err {E F A} (f : E → F) (r : result E A) : result F A :=
  match r with Ok a => Ok a | Err e => Err (f e) | Panic => Panic | NoFuel => NoFuel end.

Definition of_option {E A} (e : E) (o : option A) : result E A :=
  match o with Some a => Ok a | None => Err e end.

(** ** Big-endian integers *)

(** [binary.BigEndian.PutUintN]: the [n] low bytes of [z], most significant first. *)
Fixpoint be_put (n : nat) (z : Z) : bytes :=
  match n with
  | O => []
  | S n' => be_put n' (z / 256) ++ [zbyte z]
  end.
(** [binary.BigEndian.UintN]. *)
Definition be_get (l : bytes) : Z := foldl (λ acc b, acc * 256 + bval b) 0 l.

(** ** Slices *)

(** [make([]byte, n)] *)
Definition zeros (n : nat) : bytes := replicate n x00.
(** [copy(dst, src)]: the new contents of [dst]. *)
Definition go_copy (dst src : bytes) : bytes := take (length dst) src ++ drop (length src) dst.
(** [copy(buf[off:], src)] for [off <= len(buf)]: the new contents of [buf]. *)
Definition copy_at (off : nat) (buf src : bytes) : bytes := take off buf ++ go_copy (drop off buf) src.
(** [data[i:j]] for [i <= j <= len(data)] *)
Definition slice {A} (l : list A) (i j : nat) : list A := take (j - i) (drop i l).

(** ** Tactics *)

(** Reduce a monadic hypothesis or goal whose head call is known. *)
Ltac simpl_res :=
  cbn [mbind result_bind fmap result_fmap mret result_ret map_err of_option] in *.

(** Destruct the call a bind or a [match] in [H] waits for, and drop the impossible outcomes. *)
Ltac bind_inv H :=
  repeat (simpl_res;
    match type of H with
    | context [result_bind _ _ _ ?m] => destruct m eqn:?
    | Ok _ = Ok _ => inversion H; subst; clear H
    | Err _ = Err _ => inversion H; subst; clear H
    | _ = _ => discriminate H
    end); simpl_res.

(** Case analysis on every [match]/[if] scrutinee of the goal. *)
Ltac cases := repeat (case_match; simpl_res; simplify_eq/=); try done.

(** A closed decidable proposition, by evaluating its decision. *)
Ltac decide_now := apply (bool_decide_unpack _); vm_compute; exact I.

Create HintDb weightless.
Create Rewrite HintDb weightless.
Create Rewrite HintDb wrap64.

(** ** Lemmas: bytes *)

Lemma bval_range b : 0 ≤ bval b < 256.
Proof. unfold bval. pose proof (Byte.to_N_bounded b). lia. Qed.

Lemma bval_inj b c : bval b = bval c → b = c.
Proof.
  unfold bval. intros H%N2Z.inj.
  pose proof (Byte.of_to_N b). pose proof (Byte.of_to_N c). congruence.
Qed.

Lemma bval_zbyte z : bval (zbyte z) = z `mod` 256.
Proof.
  unfold bval, zbyte. pose proof (Z.mod_pos_bound z 256).
  destruct (Byte.of_N _) as [b|] eqn:E; simpl.
  - apply Byte.to_of_N in E. lia.
  - apply Byte.of_N_None_iff in E. lia.
Qed.

Lemma zbyte_bval b : zbyte (bval b) = b.
Proof. apply bval_inj. rewrite bval_zbyte. pose proof (bval_range b). apply Z.mod_small. lia. Qed.

#[export] Hint Resolve bval_range : weightless.
#[export] Hint Rewrite bval_zbyte zbyte_bval : weightless.

(** ** Lemmas: machine integers *)

Lemma wrap64_id z : in_int64 z → wrap64 z = z.
Proof. unfold in_int64, wrap64. intros. rewrite Z.mod_small; lia. Qed.

Lemma wrap64_over z : 2 ^ 63 ≤ z < 3 * 2 ^ 63 → wrap64 z = z - 2 ^ 64.
Proof.
  intros. unfold wrap64. replace (z + 2 ^ 63) with ((z - 2 ^ 63) + 1 * 2 ^ 64) by lia.
  rewrite Z_mod_plus_full, Z.mod_small; lia.
Qed.

Lemma wrap64_range z : in_int64 (wrap64 z).
Proof. unfold in_int64, wrap64. pose proof (Z.mod_pos_bound (z + 2^63) (2^64)). lia. Qed.

Lemma wrap64_idem z : wrap64 (wrap64 z) = wrap64 z.
Proof. apply wrap64_id, wrap64_range. Qed.

Lemma wrap64_eq_mod a b : wrap64 a = wrap64 b ↔ a `mod` 2 ^ 64 = b `mod` 2 ^ 64.
Proof.
  unfold wrap64. split; intros H.
  - replace a with ((a + 2^63) - 2^63) by lia. replace b with ((b + 2^63) - 2^63) by lia.
    assert (E : (a + 2^63) `mod` 2^64 = (b + 2^63) `mod` 2^64) by lia.
    rewrite (Zminus_mod (a + _)), (Zminus_mod (b + _)), E. done.
  - rewrite (Zplus_mod a), (Zplus_mod b), H. done.
Qed.

Lemma wrap64_mod z : wrap64 z `mod` 2 ^ 64 = z `mod` 2 ^ 64.
Proof. apply wrap64_eq_mod, wrap64_idem. Qed.

Lemma wrap64_add_l a b : wrap64 (wrap64 a + b) = wrap64 (a + b).
Proof. apply wrap64_eq_mod. rewrite Zplus_mod, wrap64_mod, <- Zplus_mod. done. Qed.

Lemma wrap64_add_r a b : wrap64 (a + wrap64 b) = wrap64 (a + b).
Proof. rewrite Z.add_comm, wrap64_add_l. f_equal. lia. Qed.

Lemma wrap64_sub_l a b : wrap64 (wrap64 a - b) = wrap64 (a - b).
Proof. apply wrap64_eq_mod. rewrite Zminus_mod, wrap64_mod, <- Zminus_mod. done. Qed.

Lemma wrap64_sub_r a b : wrap64 (a - wrap64 b) = wrap64 (a - b).
Proof. apply wrap64_eq_mod. rewrite Zminus_mod, wrap64_mod, <- Zminus_mod. done. Qed.

#[export] Hint Rewrite wrap64_add_l wrap64_add_r wrap64_sub_l wrap64_sub_r wrap64_idem : wrap64.
#[export] Hint Resolve wrap64_range : weightless.

(** ** Lemmas: lengths *)

Lemma zlen_app {A} (l k : list A) : zlen (l ++ k) = zlen l + zlen k.
Proof. unfold zlen. rewrite length_app. lia. Qed.
Lemma zlen_cons {A} (x : A) l : zlen (x :: l) = 1 + zlen l.
Proof. unfold zlen. simpl. lia. Qed.
Lemma zlen_nonneg {A} (l : list A) : 0 ≤ zlen l.
Proof. unfold zlen. lia. Qed.
#[export] Hint Rewrite @zlen_app @zlen_cons : weightless.
#[export] Hint Resolve zlen_nonneg : weightless.

(** ** Lemmas: big-endian integers *)

Lemma length_be_put n z : length (be_put n z) = n.
Proof. revert z. induction n as [|n IH]; intros z; simpl; [done|]. rewrite length_app, IH. simpl. lia. Qed.

Lemma be_get_app l b : be_get (l ++ [b]) = be_get l * 256 + bval b.
Proof. unfold be_get. by rewrite foldl_app. Qed.

Lemma be_get_put n z : be_get (be_put n z) = z `mod` 2 ^ (8 * Z.of_nat n).
Proof.
  revert z. induction n as [|n IH]; intros z; [by rewrite Z.mod_1_r|].
  cbn [be_put]. rewrite be_get_app, IH, bval_zbyte.
  replace (8 * Z.of_nat (S n)) with (8 + 8 * Z.of_nat n) by lia.
  rewrite Z.pow_add_r by lia. change (2 ^ 8) with 256.
  rewrite Z.rem_mul_r; lia.
Qed.

Lemma be_get_bound l : 0 ≤ be_get l < 2 ^ (8 * zlen l).
Proof.
  induction l as [|b l IH] using rev_ind; [done|].
  rewrite be_get_app, zlen_app. change (zlen [b]) with 1.
  replace (8 * (zlen l + 1)) with (8 + 8 * zlen l) by lia. pose proof (zlen_nonneg l).
  rewrite Z.pow_add_r by lia. pose proof (bval_range b). change (2 ^ 8) with 256.
  generalize dependent (2 ^ (8 * zlen l)). intros. lia.
Qed.

Lemma be_put_get l : be_put (length l) (be_get l) = l.
Proof.
  induction l as [|b l IH] using rev_ind; [done|].
  rewrite length_app, Nat.add_1_r. cbn [be_put]. rewrite be_get_app.
  pose proof (bval_range b). f_equal.
  - rewrite Z.div_add_l, Z.div_small, Z.add_0_r by lia. done.
  - f_equal. apply bval_inj.
    rewrite bval_zbyte, Z.add_comm, Z_mod_plus_full, Z.mod_small by lia. done.
Qed.

(** ** Lemmas: pairs *)

Lemma pair_of_fst {A B} (x : A * B) a : fst x = a → x = (a, snd x).
Proof. by destruct x as [? ?]; intros <-. Qed.

(** ** Lemmas: lists *)

Lemma length_zeros n : length (zeros n) = n.
Proof. apply length_replicate. Qed.

Lemma length_go_copy dst src : length (go_copy dst src) = length dst.
Proof. unfold go_copy. rewrite length_app, length_take, length_drop. lia. Qed.

Lemma length_copy_at off buf src : length (copy_at off buf src) = length buf.
Proof. unfold copy_at. rewrite length_app, length_go_copy, length_take, length_drop. lia. Qed.

Lemma go_copy_all n l : (length l ≤ n)%nat → go_copy (zeros n) l = l ++ zeros (n - length l).
Proof. intros H. unfold go_copy, zeros. by rewrite length_replicate, take_ge, drop_replicate. Qed.

(** Filling a fresh buffer front to back. *)
Lemma copy_at_fill off pre n src :
  length pre = off → (length src ≤ n)%nat → copy_at off (pre ++ zeros n) src = (pre ++ src) ++ zeros (n - length src).
Proof. intros <- H. unfold copy_at. by rewrite take_app_length, drop_app_length, go_copy_all, app_assoc. Qed.

(** A position is described by the suffix it points at. *)
Lemma lookup_of_drop {A} (l : list A) n x r : drop n l = x :: r → l !! n = Some x ∧ drop (S n) l = r.
Proof.
  intros H. split.
  - rewrite <- (Nat.add_0_r n), <- lookup_drop, H. done.
  - rewrite <- Nat.add_1_r, <- drop_drop, H. done.
Qed.

Lemma lookup_of_drop_nil {A} (l : list A) n : drop n l = [] → l !! n = None.
Proof. intros H. rewrite <- (Nat.add_0_r n), <- lookup_drop, H. done. Qed.

Lemma drop_of_app {A} (l : list A) n k r : drop n l = k ++ r → drop (n + length k) l = r.
Proof. intros H. rewrite <- drop_drop, H, drop_app_length. done. Qed.

Lemma take_of_app {A} (l : list A) n k r : drop n l = k ++ r → take (length k) (drop n l) = k.
Proof. intros H. rewrite H, take_app_length. done. Qed.

Lemma filter_all {A} (P : A → Prop) `{∀ x, Decision (P x)} (l : list A) : Forall P l → filter P l = l.
Proof. induction 1; [done|]. rewrite filter_cons_True by done. by f_equal. Qed.

Lemma elem_of_take {A} (x : A) n l : x ∈ take n l → x ∈ l.
Proof. intros H. eapply elem_of_sublist; [exact H|]. apply sublist_take. Qed.

Lemma NoDup_take {A} n (l : list A) : NoDup l → NoDup (take n l).
Proof. intros H. eapply sublist_NoDup; [exact H|]. apply sublist_take. Qed.

(** ** Equality of int64 quantities: congruence modulo 2^64 *)

Definition eqm (a b : Z) : Prop := a `mod` 2 ^ 64 = b `mod` 2 ^ 64.
Infix "≡₆₄" := eqm (at level 70).

#[export] Instance eqm_equivalence : Equivalence eqm.
Proof. split; red; unfold eqm; congruence. Qed.
#[export] Instance eqm_add : Proper (eqm ==> eqm ==> eqm) Z.add.
Proof. intros a a' Ha b b' Hb. unfold eqm in *. by rewrite Zplus_mod, Ha, Hb, <- Zplus_mod. Qed.
#[export] Instance eqm_sub : Proper (eqm ==> eqm ==> eqm) Z.sub.
Proof. intros a a' Ha b b' Hb. unfold eqm in *. by rewrite Zminus_mod, Ha, Hb, <- Zminus_mod. Qed.
#[export] Instance eqm_opp : Proper (eqm ==> eqm) Z.opp.
Proof. intros a b H. change (0 - a ≡₆₄ 0 - b). by rewrite H. Qed.

Lemma eqm_wrap a : wrap64 a ≡₆₄ a.
Proof. apply wrap64_mod. Qed.
Lemma eqm_of_eq a b : a = b → a ≡₆₄ b.
Proof. by intros ->. Qed.
Lemma wrap64_eqm a b : wrap64 a = wrap64 b ↔ a ≡₆₄ b.
Proof. apply wrap64_eq_mod. Qed.
(** Two int64 values congruent modulo 2^64 are equal. *)
Lemma eqm_int64 a b : in_int64 a → in_int64 b → a ≡₆₄ b → a = b.
Proof. intros Ha Hb H. rewrite <- (wrap64_id a), <- (wrap64_id b) by done. by apply wrap64_eqm. Qed.
