(* ===== verification/Strconv.v ===== *)
(** * Decimal text: the part of Go's [strconv] the program uses

    [is_digit], the value of a digit string, [itoa]/[FormatInt] (canonical decimal text) and
    [ParseUint], [ParseInt], [Atoi] in base 10.  Go reports a syntax and a range error; no caller in
    the program tells them apart, so parsing returns an [option].  The lemmas show that [dec] is a
    bijection between the naturals and the canonical digit strings (no leading zero). *)

From S2P Require Import Prelude.
From Stdlib Require Import ZArith Lia.
Local Open Scope Z_scope.

(** ** Definitions *)

(** [b >= '0' && b <= '9'] *)
Definition is_digit (b : byte) : bool := (48 <=? bval b) && (bval b <=? 57).
(** [int(d-'0')] *)
Definition digit_val (b : byte) : Z := bval b - 48.
Definition digit (n : Z) : byte := zbyte (48 + n).

Definition dval (ds : bytes) : Z := foldl (λ acc d, acc * 10 + digit_val d) 0 ds.

Fixpoint dec_aux (fuel : nat) (n : Z) : bytes :=
  match fuel with
  | O => []
  | S f => if n <? 10 then [digit n] else dec_aux f (n / 10) ++ [digit (n mod 10)]
  end.
(** One digit per bit is always enough. *)
Definition dec (n : Z) : bytes := dec_aux (S (Z.to_nat (Z.log2 n))) n.

(** [strconv.Itoa], [strconv.FormatInt(_, 10)] *)
Definition itoa (z : Z) : bytes := if z <? 0 then chr "-" :: dec (- z) else dec z.

(** A canonical numeral: digits only, at least one, no leading zero. *)
Definition canonical (ds : bytes) : Prop :=
  Forall (λ b, is_digit b = true) ds ∧ ds ≠ [] ∧ (head ds = Some (chr "0") → length ds = 1%nat).

(** [strconv.ParseUint(s, 10, bits)] *)
Definition parse_uint (bits : Z) (s : bytes) : option Z :=
  if bool_decide (s = []) then None
  else if forallb is_digit s
  then if dval s <? 2 ^ bits then Some (dval s) else None
  else None.

(** [strconv.ParseInt(s, 10, bits)] *)
Definition parse_int (bits : Z) (s : bytes) : option Z :=
  match s with
  | [] => None
  | c :: t =>
      let neg := bool_decide (c = chr "-") in
      let u := if bool_decide (c = chr "+") || neg then t else s in
      match parse_uint bits u with
      | None => None
      | Some n =>
          if negb neg && (2 ^ (bits - 1) <=? n) then None
          else if neg && (2 ^ (bits - 1) <? n) then None
          else Some (if neg then - n else n)
      end
  end.

(** [strconv.Atoi] *)
Definition atoi (s : bytes) : option Z := parse_int 64 s.

(** ** Digits *)

Lemma is_digit_spec b : is_digit b = true ↔ 48 ≤ bval b ≤ 57.
Proof. unfold is_digit. rewrite andb_true_iff, !Z.leb_le. done. Qed.

Lemma bval_digit n : 0 ≤ n < 10 → bval (digit n) = 48 + n.
Proof. intros. unfold digit. rewrite bval_zbyte, Z.mod_small; lia. Qed.

Lemma digit_is_digit n : 0 ≤ n < 10 → is_digit (digit n) = true.
Proof. intros. apply is_digit_spec. rewrite bval_digit; lia. Qed.

Lemma digit_val_digit n : 0 ≤ n < 10 → digit_val (digit n) = n.
Proof. intros. unfold digit_val. rewrite bval_digit; lia. Qed.

Lemma digit_digit_val b : is_digit b = true → digit (digit_val b) = b.
Proof.
  intros H%is_digit_spec. apply bval_inj. unfold digit_val. rewrite bval_digit; lia.
Qed.

Lemma digit_val_range b : is_digit b = true → 0 ≤ digit_val b < 10.
Proof. intros H%is_digit_spec. unfold digit_val. lia. Qed.

#[export] Hint Resolve digit_is_digit digit_val_range : weightless.
#[export] Hint Rewrite digit_val_digit using lia : weightless.

Lemma dval_app l d : dval (l ++ [d]) = dval l * 10 + digit_val d.
Proof. unfold dval. by rewrite foldl_app. Qed.

Lemma dval_nonneg l : Forall (λ b, is_digit b = true) l → 0 ≤ dval l.
Proof.
  induction l as [|d l IH] using rev_ind; [done|].
  rewrite Forall_app, Forall_singleton. intros [H1 H2]. rewrite dval_app.
  specialize (IH H1). apply digit_val_range in H2. lia.
Qed.

(** ** [dec] is canonical and [dval] inverts it *)

Lemma dec_aux_spec f n :
  0 ≤ n < 2 ^ Z.of_nat f → (0 < f)%nat →
  dval (dec_aux f n) = n ∧ canonical (dec_aux f n) ∧ (0 < n → head (dec_aux f n) ≠ Some (chr "0")).
Proof.
  revert n. induction f as [|f IH]; intros n Hn Hf; [lia|]. cbn [dec_aux].
  destruct (Z.ltb_spec n 10).
  - assert (0 ≤ n < 10) by (clear - Hn H; lia).
    assert (bval (digit n) = 48 + n) by (by apply bval_digit).
    repeat split; try done.
    + change (digit_val (digit n) = n). apply digit_val_digit. done.
    + apply Forall_singleton. by apply digit_is_digit.
    + simpl. intros Hp E. injection E as E. apply (f_equal bval) in E.
      rewrite H1 in E. change (48 + n = 48) in E. lia.
  - replace (Z.of_nat (S f)) with (1 + Z.of_nat f) in Hn by lia.
    rewrite Z.pow_add_r in Hn by lia. change (2 ^ 1) with 2 in Hn.
    pose proof (Z.div_mod n 10). pose proof (Z.mod_pos_bound n 10).
    assert (f ≠ 0%nat) by (intros ->; change (2 ^ Z.of_nat 0) with 1 in *; lia).
    destruct (IH (n / 10)) as (E & (D & N & C) & Z0); [|lia|].
    { split; [apply Z.div_pos; lia|]. apply Z.div_lt_upper_bound; lia. }
    assert (Hd : 0 < n / 10) by (apply Z.div_str_pos; lia). specialize (Z0 Hd).
    destruct (dec_aux f (n / 10)) as [|h t] eqn:Ed; [done|].
    split; [|split; [split; [|split]|]].
    + rewrite dval_app, E, digit_val_digit; lia.
    + apply Forall_app. split; [done|]. apply Forall_singleton, digit_is_digit. lia.
    + done.
    + done.
    + intros _. done.
Qed.

Lemma dec_fuel n : 0 ≤ n → n < 2 ^ Z.of_nat (S (Z.to_nat (Z.log2 n))).
Proof.
  intros Hn. rewrite Nat2Z.inj_succ, Z2Nat.id by apply Z.log2_nonneg.
  destruct (decide (n = 0)) as [->|]; [done|]. apply Z.log2_spec. lia.
Qed.

Lemma dval_dec n : 0 ≤ n → dval (dec n) = n.
Proof. intros Hn. apply dec_aux_spec; [|lia]. split; [done|]. by apply dec_fuel. Qed.

Lemma dec_canonical n : 0 ≤ n → canonical (dec n).
Proof. intros Hn. apply dec_aux_spec; [|lia]. split; [done|]. by apply dec_fuel. Qed.

Lemma dec_not_zero n : 0 < n → head (dec n) ≠ Some (chr "0").
Proof. intros Hn. apply dec_aux_spec; [|lia|done]. split; [lia|]. apply dec_fuel. lia. Qed.

(** A numeral with leading zeros stripped is determined by its value. *)
Lemma canonical_snoc l d : canonical (l ++ [d]) → l ≠ [] → canonical l.
Proof.
  intros (D & _ & C) Hl. apply Forall_app in D as [D _]. split; [done|]. split; [done|].
  destruct l as [|h l]; [done|]. intros H. specialize (C H).
  rewrite length_app in C. simpl in *. lia.
Qed.

Lemma canonical_pos l d : canonical (l ++ [d]) → l ≠ [] → 0 < dval l.
Proof.
  intros (D & _ & C) Hl. destruct l as [|h l]; [done|].
  assert (h ≠ chr "0") as Hh.
  { intros ->. specialize (C eq_refl). rewrite length_app in C. simpl in C. lia. }
  apply Forall_app in D as [D _]. clear C Hl.
  induction l as [|e l IH] using rev_ind.
  - rewrite Forall_singleton in D. unfold dval. simpl.
    apply is_digit_spec in D. unfold digit_val.
    assert (bval h ≠ 48) by (intros E; apply Hh, bval_inj; done). lia.
  - rewrite app_comm_cons in *. rewrite Forall_app, Forall_singleton in D. destruct D as [D D'].
    rewrite dval_app. specialize (IH D). apply digit_val_range in D'. lia.
Qed.

Lemma canonical_unique l k : canonical l → canonical k → dval l = dval k → l = k.
Proof.
  revert k. induction l as [|d l IH] using rev_ind; intros k Hl Hk E; [by destruct Hl as (_&?&_)|].
  destruct k as [|e k _] using rev_ind; [by destruct Hk as (_&?&_)|].
  assert (is_digit d = true ∧ is_digit e = true) as [Dd De].
  { destruct Hl as [D1 _]. destruct Hk as [D2 _].
    rewrite Forall_app, Forall_singleton in D1. rewrite Forall_app, Forall_singleton in D2. tauto. }
  rewrite !dval_app in E.
  pose proof (digit_val_range d Dd). pose proof (digit_val_range e De).
  assert (dval l = dval k) as E1 by lia. assert (digit_val d = digit_val e) as E2 by lia.
  assert (d = e) as ->.
  { rewrite <- (digit_digit_val d), <- (digit_digit_val e) by done. by rewrite E2. }
  f_equal. destruct (decide (l = [])) as [->|Nl], (decide (k = [])) as [->|Nk]; [done| | |].
  - apply canonical_pos in Hk; [|done]. change (dval []) with 0 in *. lia.
  - apply canonical_pos in Hl; [|done]. change (dval []) with 0 in *. lia.
  - eapply IH; eauto using canonical_snoc.
Qed.

Lemma dec_dval ds : canonical ds → dec (dval ds) = ds.
Proof.
  intros H. assert (0 ≤ dval ds) by (apply dval_nonneg, H).
  apply canonical_unique; [by apply dec_canonical|done|]. by apply dval_dec.
Qed.

Lemma dec_inj n m : 0 ≤ n → 0 ≤ m → dec n = dec m → n = m.
Proof. intros ?? E. rewrite <- (dval_dec n), <- (dval_dec m), E; done. Qed.

Lemma dec_digits n : 0 ≤ n → Forall (λ b, is_digit b = true) (dec n).
Proof. intros. by apply dec_canonical. Qed.

Lemma dec_nonempty n : 0 ≤ n → dec n ≠ [].
Proof. intros. by apply dec_canonical. Qed.

#[export] Hint Resolve dec_digits dec_canonical dec_nonempty : weightless.

(** ** Parsing *)

Lemma forallb_digits s : forallb is_digit s = true ↔ Forall (λ b, is_digit b = true) s.
Proof. induction s as [|b s IH]; simpl; [done|]. rewrite andb_true_iff, IH, Forall_cons. done. Qed.

Lemma parse_uint_dec bits n : 0 ≤ n < 2 ^ bits → parse_uint bits (dec n) = Some n.
Proof.
  intros Hn. unfold parse_uint. rewrite bool_decide_false by (apply dec_nonempty; lia).
  rewrite (proj2 (forallb_digits _)) by (apply dec_digits; lia).
  rewrite dval_dec by lia. by rewrite (proj2 (Z.ltb_lt _ _)) by lia.
Qed.

Lemma parse_uint_bound bits s n : parse_uint bits s = Some n → 0 ≤ n < 2 ^ bits.
Proof.
  unfold parse_uint. intros H. repeat case_match; simplify_eq.
  split; [apply dval_nonneg; by apply forallb_digits|]. by apply Z.ltb_lt.
Qed.

Lemma parse_int_bound bits s n : parse_int bits s = Some n → - 2 ^ (bits - 1) ≤ n < 2 ^ (bits - 1) ∨ n = 0.
Proof.
  unfold parse_int. destruct s as [|c t]; [done|].
  destruct (parse_uint _ _) as [m|] eqn:E; [|done]. apply parse_uint_bound in E.
  destruct (bool_decide (c = chr "-")); simpl; intros H; repeat case_match; simplify_eq;
    rewrite ?Z.leb_gt, ?Z.ltb_ge in *; lia.
Qed.

Lemma parse_int_dec n : 0 ≤ n < 2 ^ 63 → parse_int 64 (dec n) = Some n.
Proof.
  intros Hn. pose proof (dec_canonical n). pose proof (parse_uint_dec 64 n) as Hu.
  destruct (dec n) as [|c t] eqn:E; [by apply (dec_nonempty n) in E; lia|].
  assert (is_digit c = true) as Hc%is_digit_spec.
  { destruct H as (D&_&_); [lia|]. by apply Forall_cons in D as [??]. }
  unfold parse_int. cbv zeta.
  rewrite !bool_decide_false by (intros ->; destruct Hc as [Hc _]; by apply Hc). cbn [orb negb andb].
  rewrite Hu by lia.
  rewrite (proj2 (Z.leb_gt _ _)) by lia. done.
Qed.

Lemma atoi_itoa n : 0 ≤ n < 2 ^ 63 → atoi (itoa n) = Some n.
Proof.
  intros. unfold itoa. rewrite (proj2 (Z.ltb_ge _ _)) by lia. by apply parse_int_dec.
Qed.

Lemma canonical_nonzero ds : canonical ds → head ds ≠ Some (chr "0") → 0 < dval ds.
Proof.
  intros H Hh. pose proof (dval_nonneg ds (proj1 H)).
  destruct (decide (dval ds = 0)) as [E|]; [|lia].
  exfalso. apply Hh. rewrite <- (dec_dval ds H), E. done.
Qed.

Lemma canonical_zero_check ds :
  Forall (λ b, is_digit b = true) ds → ds ≠ [] →
  (1 <? length ds)%nat && bool_decide (head ds = Some (chr "0")) = false ↔ canonical ds.
Proof.
  intros D N. unfold canonical. rewrite andb_false_iff, Nat.ltb_ge, bool_decide_eq_false.
  destruct ds as [|d ds]; [done|]. simpl. split.
  - intros [H|H]; repeat split; try done. intros. lia.
  - intros (_&_&H). destruct (decide (Some d = Some (chr "0"))) as [E|E]; [|by right].
    left. specialize (H E). lia.
Qed.

Lemma itoa_neg n : 0 < n → itoa (- n) = chr "-" :: dec n.
Proof. intros. unfold itoa. rewrite (proj2 (Z.ltb_lt _ _)), Z.opp_involutive by lia. done. Qed.

Lemma itoa_nonneg n : 0 ≤ n → itoa n = dec n.
Proof. intros. unfold itoa. by rewrite (proj2 (Z.ltb_ge _ _)) by lia. Qed.

Lemma length_dec n : 0 ≤ n < 2 ^ 63 → zlen (dec n) ≤ 64.
Proof.
  intros Hn. unfold dec. assert (L : ∀ f m, (length (dec_aux f m) ≤ f)%nat).
  { induction f as [|f IH]; intros m; simpl; [lia|]. case_match; [simpl; lia|]. rewrite length_app. simpl.
    specialize (IH (m / 10)). lia. }
  specialize (L (S (Z.to_nat (Z.log2 n))) n). unfold zlen.
  assert (Z.log2 n < 63); [|lia]. destruct (Z.eq_dec n 0) as [->|]; [simpl; lia|]. apply Z.log2_lt_pow2; lia.
Qed.
