(* ===== verification/Bencode.v ===== *)
(** * Package [bencode]: the structural validator

    Models [internal/bencode/validate.go]: the limits, the error values and the recursive-descent
    recognizer [Validate]; [parser.pos] is a position in the fixed [data].  The specification is a
    tree type [tree] with its canonical encoding [encode] and the bounds [fits].  The theorems show
    that [Validate] accepts exactly the encodings of the trees within the bounds, that the tree is
    unique, and that the recognizer always returns.

    Recursion is on fuel; [validate_fuel] (three units per input byte) is proved sufficient. *)

From S2P Require Import Prelude Strconv.
From Stdlib Require Import ZArith Lia.
Local Open Scope Z_scope.

(** ** Limits and errors *)

Record Limits := mkLimits {
  MaxBytes : Z;
  MaxDepth : Z;
  MaxStrLen : Z;
  MaxListLen : Z;
  MaxKeysPerDict : Z;
}.

Definition TorrentLimits : Limits :=
  mkLimits (Z.shiftl 16 20) 64 (Z.shiftl 8 20) (Z.shiftl 1 17) (Z.shiftl 1 14).
Definition PeerMessageLimits : Limits :=
  mkLimits (Z.shiftl 1 20) 16 (Z.shiftl 256 10) 1024 256.
Definition TrackerResponseLimits : Limits :=
  mkLimits (Z.shiftl 2 20) 16 (Z.shiftl 1 20) 65536 256.

Inductive berr :=
| ErrTooLarge | ErrEOF | ErrTrailingData | ErrSyntax | ErrDepth | ErrStringTooLong
| ErrListTooLong | ErrDictTooLarge | ErrIntegerSyntax | ErrNegativeLength.

#[export] Instance berr_eq_decision : EqDecision berr.
Proof. solve_decision. Defined.

(** ** The recognizer *)

Section parser.
Context (data : bytes) (lim : Limits).

(** [for p.pos < len(p.data) && p.data[p.pos] >= '0' && p.data[p.pos] <= '9' { p.pos++ }] *)
Fixpoint skip_digits (fuel pos : nat) : nat :=
  match fuel with
  | O => pos
  | S f => match data !! pos with
           | Some b => if is_digit b then skip_digits f (S pos) else pos
           | None => pos
           end
  end.

Definition integer (start : nat) : result berr nat :=
  let digitStart := S start in
  match data !! digitStart with
  | None => Err ErrEOF
  | Some b =>
      first ← (if bool_decide (b = chr "-")
               then match data !! S digitStart with
                    | None => Err ErrEOF
                    | Some _ => Ok (S digitStart)
                    end
               else Ok digitStart);
      match data !! first with
      | None => Err ErrIntegerSyntax
      | Some c =>
          if negb (is_digit c) then Err ErrIntegerSyntax else
          let pos := skip_digits (length data) first in
          let digits := slice data first pos in
          if (1 <? length digits)%nat && bool_decide (head digits = Some (chr "0"))
          then Err ErrIntegerSyntax
          else if bool_decide (digitStart ≠ first) && bool_decide (head digits = Some (chr "0"))
          then Err ErrIntegerSyntax
          else match data !! pos with
               | Some e => if bool_decide (e = chr "e") then Ok (S pos) else Err ErrIntegerSyntax
               | None => Err ErrIntegerSyntax
               end
      end
  end.

(** [for _, d := range digits { ... length = length*10 + int(d-'0') }] *)
Fixpoint str_length (digits : bytes) (len : Z) : result berr Z :=
  match digits with
  | [] => Ok len
  | d :: ds => if 214748364 <? len then Err ErrStringTooLong
               else str_length ds (wrap64 (len * 10 + digit_val d))
  end.

(** Returns the content and the position after it. *)
Definition byteString (start : nat) : result berr (bytes * nat) :=
  let pos := skip_digits (length data) start in
  if bool_decide (pos = start) then Err ErrSyntax else
  let digits := slice data start pos in
  if (1 <? length digits)%nat && bool_decide (head digits = Some (chr "0")) then Err ErrSyntax else
  len ← str_length digits 0;
  if len <? 0 then Err ErrNegativeLength else
  if (0 <? MaxStrLen lim) && (MaxStrLen lim <? len) then Err ErrStringTooLong else
  match data !! pos with
  | Some c =>
      if negb (bool_decide (c = chr ":")) then Err ErrSyntax else
      let pos := S pos in
      if zlen data <? Z.of_nat pos + len then Err ErrEOF else
      Ok (slice data pos (pos + Z.to_nat len), (pos + Z.to_nat len)%nat)
  | None => Err ErrSyntax
  end.

Fixpoint value (fuel : nat) (depth : Z) (pos : nat) : result berr nat :=
  match fuel with
  | O => NoFuel
  | S f =>
      match data !! pos with
      | None => Err ErrEOF
      | Some b =>
          if bool_decide (b = chr "i") then integer pos
          else if bool_decide (b = chr "l") then plist f depth pos
          else if bool_decide (b = chr "d") then dict f depth pos
          else if is_digit b then snd <$> byteString pos
          else Err ErrSyntax
      end
  end
with plist (fuel : nat) (depth : Z) (pos : nat) : result berr nat :=
  match fuel with
  | O => NoFuel
  | S f => if MaxDepth lim <? depth + 1 then Err ErrDepth else list_loop f depth 0 (S pos)
  end
with list_loop (fuel : nat) (depth count : Z) (pos : nat) : result berr nat :=
  match fuel with
  | O => NoFuel
  | S f =>
      match data !! pos with
      | None => Err ErrEOF
      | Some b =>
          if bool_decide (b = chr "e") then Ok (S pos) else
          if (0 <? MaxListLen lim) && (MaxListLen lim <=? count) then Err ErrListTooLong else
          pos' ← value f (depth + 1) pos;
          list_loop f depth (count + 1) pos'
      end
  end
with dict (fuel : nat) (depth : Z) (pos : nat) : result berr nat :=
  match fuel with
  | O => NoFuel
  | S f => if MaxDepth lim <? depth + 1 then Err ErrDepth else dict_loop f depth 0 (S pos)
  end
with dict_loop (fuel : nat) (depth keys : Z) (pos : nat) : result berr nat :=
  match fuel with
  | O => NoFuel
  | S f =>
      match data !! pos with
      | None => Err ErrEOF
      | Some b =>
          if bool_decide (b = chr "e") then Ok (S pos) else
          if (0 <? MaxKeysPerDict lim) && (MaxKeysPerDict lim <=? keys) then Err ErrDictTooLarge else
          if negb (is_digit b) then Err ErrSyntax else
          '(_, pos1) ← byteString pos;
          pos2 ← value f (depth + 1) pos1;
          dict_loop f depth (keys + 1) pos2
      end
  end.

End parser.

Definition validate_fuel (data : bytes) : nat := 3 * length data + 3.

Definition Validate (data : bytes) (lim : Limits) : result berr unit :=
  if (0 <? MaxBytes lim) && (MaxBytes lim <? zlen data) then Err ErrTooLarge else
  pos ← value data lim (validate_fuel data) 0 0;
  if bool_decide (pos = length data) then Ok tt else Err ErrTrailingData.

(** ** Specification: trees, their encoding, their bounds *)

#[local] Unset Elimination Schemes.
Inductive tree :=
| BInt (z : Z)
| BStr (s : bytes)
| BList (l : list tree)
| BDict (l : list (bytes * tree)).
#[local] Set Elimination Schemes.

Definition enc_str (s : bytes) : bytes := dec (zlen s) ++ chr ":" :: s.

Fixpoint encode (v : tree) : bytes :=
  match v with
  | BInt z => chr "i" :: itoa z ++ [chr "e"]
  | BStr s => enc_str s
  | BList l => chr "l" :: flat_map encode l ++ [chr "e"]
  | BDict l => chr "d" :: flat_map (λ kv, enc_str kv.1 ++ encode kv.2) l ++ [chr "e"]
  end.

(** An upper bound that a non-positive value switches off. *)
Definition within (bound n : Z) : bool := (bound <=? 0) || (n <=? bound).

(** The largest string length whose decimal digits pass the overflow guard. *)
Definition maxDeclaredLen : Z := 2147483649.

Definition str_fits (lim : Limits) (s : bytes) : bool :=
  (zlen s <=? maxDeclaredLen) && within (MaxStrLen lim) (zlen s).

Fixpoint fits (lim : Limits) (depth : Z) (v : tree) : bool :=
  match v with
  | BInt _ => true
  | BStr s => str_fits lim s
  | BList l => (depth + 1 <=? MaxDepth lim) && within (MaxListLen lim) (zlen l)
               && forallb (fits lim (depth + 1)) l
  | BDict l => (depth + 1 <=? MaxDepth lim) && within (MaxKeysPerDict lim) (zlen l)
               && forallb (λ kv, str_fits lim kv.1 && fits lim (depth + 1) kv.2) l
  end.

(** ** Induction on trees *)

Fixpoint tree_ind (P : tree → Prop)
    (Hint : ∀ z, P (BInt z)) (Hstr : ∀ s, P (BStr s))
    (Hlist : ∀ l, Forall P l → P (BList l))
    (Hdict : ∀ l, Forall (λ kv, P kv.2) l → P (BDict l)) (v : tree) : P v :=
  let rec := tree_ind P Hint Hstr Hlist Hdict in
  match v with
  | BInt z => Hint z
  | BStr s => Hstr s
  | BList l => Hlist l ((fix go l : Forall P l :=
      match l with [] => Forall_nil_2 P | x :: l' => Forall_cons_2 P x l' (rec x) (go l') end) l)
  | BDict l => Hdict l ((fix go l : Forall (λ kv, P kv.2) l :=
      match l with
      | [] => Forall_nil_2 _
      | x :: l' => Forall_cons_2 (λ kv, P kv.2) x l' (rec x.2) (go l')
      end) l)
  end.

(** ** Scanning digits *)

Definition digits (ds : bytes) : Prop := Forall (λ b, is_digit b = true) ds.
Definition nodigit_head (r : bytes) : Prop :=
  match r with [] => True | b :: _ => is_digit b = false end.

Lemma skip_digits_sound data fuel pos :
  ∃ ds r, drop pos data = ds ++ r ∧ digits ds ∧ skip_digits data fuel pos = (pos + length ds)%nat
          ∧ ((length (drop pos data) ≤ fuel)%nat → nodigit_head r).
Proof.
  revert pos. induction fuel as [|f IH]; intros pos; simpl.
  - exists [], (drop pos data). repeat split; [constructor|simpl; lia|].
    intros H. destruct (drop pos data); simpl in *; [done|lia].
  - destruct (drop pos data) as [|b r] eqn:E.
    + rewrite (lookup_of_drop_nil _ _ E). exists [], []. repeat split; [constructor|simpl; lia].
    + destruct (lookup_of_drop _ _ _ _ E) as [-> E']. destruct (is_digit b) eqn:Db.
      * destruct (IH (S pos)) as (ds & r' & H1 & H2 & H3 & H4). rewrite E' in *.
        exists (b :: ds), r'. simpl. rewrite H3.
        split; [by rewrite H1|]. split; [by constructor|]. split; [lia|].
        intros. apply H4. lia.
      * exists [], (b :: r). repeat split; [constructor|simpl; lia|done].
Qed.

Lemma skip_digits_complete data pos ds r :
  drop pos data = ds ++ r → digits ds → nodigit_head r →
  skip_digits data (length data) pos = (pos + length ds)%nat.
Proof.
  intros E D N. assert (length ds ≤ length data)%nat as Hf.
  { apply (f_equal length) in E. rewrite length_drop, length_app in E. lia. }
  revert Hf. generalize (length data) as fuel. intros fuel. revert pos fuel E.
  induction D as [|b ds Db D IH]; intros pos fuel E Hf.
  - rewrite Nat.add_0_r. destruct fuel as [|f]; simpl; [done|].
    destruct r as [|b r]; [by rewrite (lookup_of_drop_nil _ _ E)|].
    destruct (lookup_of_drop _ _ _ _ E) as [-> _]. simpl in N. by rewrite N.
  - simpl in *. destruct fuel as [|f]; [lia|]. simpl.
    destruct (lookup_of_drop _ _ _ _ E) as [-> E']. rewrite Db, (IH (S pos) f E'); lia.
Qed.

Lemma slice_of_app (data : bytes) pos ds r :
  drop pos data = ds ++ r → slice data pos (pos + length ds) = ds.
Proof.
  intros E. unfold slice. rewrite E. replace (pos + length ds - pos)%nat with (length ds) by lia.
  apply take_app_length.
Qed.

Lemma digits_split ds1 ds2 c1 c2 r1 r2 :
  digits ds1 → digits ds2 → is_digit c1 = false → is_digit c2 = false →
  ds1 ++ c1 :: r1 = ds2 ++ c2 :: r2 → ds1 = ds2 ∧ c1 = c2 ∧ r1 = r2.
Proof.
  intros D1. revert ds2. induction D1 as [|d ds1 Hd D1 IH]; intros ds2 D2 H1 H2 E.
  - destruct D2 as [|e ds2 He D2]; simplify_eq/=; [done|congruence].
  - destruct D2 as [|e ds2 He D2]; simplify_eq/=; [congruence|].
    destruct (IH ds2) as (-> & -> & ->); try done.
Qed.

(** ** The length prefix of a string *)

Lemma str_length_sound ds n len :
  0 ≤ n ≤ maxDeclaredLen → digits ds → str_length ds n = Ok len →
  len = foldl (λ acc d, acc * 10 + digit_val d) n ds ∧ 0 ≤ len ≤ maxDeclaredLen.
Proof.
  unfold maxDeclaredLen. revert n. induction ds as [|d ds IH]; simpl; intros n Hn D H.
  - by simplify_eq.
  - apply Forall_cons in D as [Dd%digit_val_range D]. case_match eqn:E; [done|].
    apply Z.ltb_ge in E. rewrite wrap64_id in H by (unfold in_int64; lia).
    apply (IH (n * 10 + digit_val d)); [lia|done|done].
Qed.

Lemma foldl_dval_mono ds n : digits ds → 0 ≤ n → n ≤ foldl (λ acc d, acc * 10 + digit_val d) n ds.
Proof.
  intros D. revert n. induction D as [|d ds Dd%digit_val_range D IH]; simpl; intros n Hn; [lia|].
  specialize (IH (n * 10 + digit_val d)). lia.
Qed.

Lemma str_length_complete ds n :
  digits ds → 0 ≤ n → foldl (λ acc d, acc * 10 + digit_val d) n ds ≤ maxDeclaredLen →
  str_length ds n = Ok (foldl (λ acc d, acc * 10 + digit_val d) n ds).
Proof.
  unfold maxDeclaredLen. intros D. revert n.
  induction D as [|d ds Dd%digit_val_range D IH]; simpl; intros n Hn H; [done|].
  pose proof (foldl_dval_mono ds (n * 10 + digit_val d) D). case_match eqn:E.
  - apply Z.ltb_lt in E. lia.
  - apply Z.ltb_ge in E. rewrite wrap64_id by (unfold in_int64; lia). apply IH; lia.
Qed.

Lemma str_length_returns ds n : returns (str_length ds n).
Proof. revert n. induction ds as [|d ds IH]; intros n; simpl; [done|]. case_match; [done|apply IH]. Qed.

(** ** Integers *)

Lemma digit_run data first c :
  data !! first = Some c → is_digit c = true →
  let pos := skip_digits data (length data) first in
  let ds := slice data first pos in
  ∃ r, drop first data = ds ++ r ∧ digits ds ∧ ds ≠ [] ∧ pos = (first + length ds)%nat ∧ nodigit_head r.
Proof.
  intros Hc Dc. destruct (skip_digits_sound data (length data) first) as (ds & r & E & D & -> & N).
  cbv zeta. rewrite (slice_of_app _ _ _ _ E). exists r. repeat split; try done.
  - intros ->. apply drop_S in Hc. rewrite Hc in E. simpl in E. subst r.
    assert (is_digit c = false) as ?; [apply N; rewrite length_drop; lia|congruence].
  - apply N. rewrite length_drop. lia.
Qed.

(** The text of an integer after its sign, as [integer] checks it. *)
Lemma int_body data first c pos :
  data !! first = Some c → is_digit c = true →
  pos = skip_digits data (length data) first →
  let ds := slice data first pos in
  (1 <? length ds)%nat && bool_decide (head ds = Some (chr "0")) = false →
  data !! pos = Some (chr "e") →
  canonical ds ∧ drop first data = ds ++ chr "e" :: drop (S pos) data ∧ pos = (first + length ds)%nat.
Proof.
  intros Hc Dc -> ds Hz He. destruct (digit_run data first c Hc Dc) as (r & E & D & Ne & Ep & _).
  fold ds in E, D, Ne, Ep. split; [by apply canonical_zero_check|]. split; [|done].
  rewrite E. f_equal. apply drop_S in He. rewrite <- He, Ep. symmetry. eapply drop_of_app, E.
Qed.

Lemma integer_sound data start p :
  data !! start = Some (chr "i") → integer data start = Ok p →
  ∃ z, drop start data = encode (BInt z) ++ drop p data ∧ p = (start + length (encode (BInt z)))%nat.
Proof.
  intros Hi%drop_S H. unfold integer in H.
  destruct (data !! S start) as [b|] eqn:Hb; [|done].
  case_bool_decide as Hs.
  - subst b. destruct (data !! S (S start)) as [c|] eqn:Hc; [|done]. simpl_res. rewrite Hc in H.
    destruct (is_digit c) eqn:Dc; [|done]. cbn [negb] in H.
    repeat (case_match; try done). simplify_eq. apply drop_S in Hb.
    case_bool_decide; [|done]. case_bool_decide as Hne; simplify_eq; [|lia].
    rename select (true && _ = false) into Hz0. apply bool_decide_eq_false in Hz0.
    destruct (int_body data _ c _ Hc Dc eq_refl) as (C & E & Ep); [done|done|].
    set (ds := slice _ _ _) in *.
    assert (0 < dval ds) by (apply canonical_nonzero; [done|exact Hz0]).
    exists (- dval ds). cbn [encode]. rewrite itoa_neg, dec_dval by done.
    rewrite Hi, Hb, E. simpl. rewrite length_app, <- app_assoc. split; [done|]. simpl. lia.
  - simpl_res. rewrite Hb in H. destruct (is_digit b) eqn:Dc; [|done]. cbn [negb] in H.
    repeat (case_match; try done). case_bool_decide; simplify_eq.
    destruct (int_body data _ b _ Hb Dc eq_refl) as (C & E & Ep); [done|done|].
    set (ds := slice _ _ _) in *. pose proof (dval_nonneg ds (proj1 C)).
    exists (dval ds). cbn [encode]. rewrite itoa_nonneg, dec_dval by done.
    rewrite Hi, E. simpl. rewrite length_app, <- app_assoc. split; [done|]. simpl. lia.
Qed.

(** Running the checks of [integer] on a canonical numeral followed by ['e']. *)
Lemma int_body_complete data first ds r :
  drop first data = ds ++ chr "e" :: r → canonical ds →
  ∃ c, data !! first = Some c ∧ is_digit c = true ∧
    let pos := skip_digits data (length data) first in
    pos = (first + length ds)%nat ∧ slice data first pos = ds ∧ data !! pos = Some (chr "e").
Proof.
  intros E C. destruct C as (D & Ne & _). destruct ds as [|c ds]; [done|].
  exists c. cbv zeta. rewrite (skip_digits_complete _ _ _ _ E) by done.
  split; [by apply lookup_of_drop in E as [? _]|].
  split; [by apply Forall_cons in D as [? _]|]. split; [done|]. split; [by eapply slice_of_app|].
  apply drop_of_app in E. by apply lookup_of_drop in E as [? _].
Qed.

Lemma integer_complete data start z r :
  drop start data = encode (BInt z) ++ r →
  integer data start = Ok (start + length (encode (BInt z)))%nat.
Proof.
  cbn [encode]. simpl. rewrite <- app_assoc. intros E.
  destruct (lookup_of_drop _ _ _ _ E) as [_ E1]. unfold integer.
  destruct (decide (z < 0)) as [Hz|Hz].
  - assert (∃ n, z = - n ∧ 0 < n) as (n & -> & Hn) by (exists (- z); lia).
    rewrite itoa_neg in * by done. simpl in E1.
    destruct (lookup_of_drop _ _ _ _ E1) as [Hm E2]. rewrite Hm, bool_decide_true by done.
    assert (C : canonical (dec n)) by (apply dec_canonical; lia).
    destruct (int_body_complete data _ _ _ E2 C) as (c & Hc & Dc & Hp & Hs & He).
    rewrite Hc. simpl_res. rewrite Hc, Dc, He, Hs. cbn [negb].
    rewrite (proj2 (canonical_zero_check _ (proj1 C) (proj1 (proj2 C))) C).
    rewrite (bool_decide_false (head _ = _)) by (apply dec_not_zero; lia).
    rewrite andb_false_r, bool_decide_true by done. rewrite Hp. f_equal.
    simpl. rewrite length_app. simpl. lia.
  - rewrite itoa_nonneg in * by lia. assert (C : canonical (dec z)) by (apply dec_canonical; lia).
    simpl in E1. destruct (int_body_complete data _ _ _ E1 C) as (c & Hc & Dc & Hp & Hs & He).
    rewrite Hc, bool_decide_false by (intros ->; done). simpl_res. rewrite Hc, Dc, He, Hs. cbn [negb].
    rewrite (proj2 (canonical_zero_check _ (proj1 C) (proj1 (proj2 C))) C).
    rewrite (bool_decide_false (S start ≠ S start)) by auto. cbn [andb].
    rewrite bool_decide_true by done. rewrite Hp. f_equal. rewrite length_app. simpl. lia.
Qed.

Lemma integer_returns data start : returns (integer data start).
Proof. unfold integer. repeat (case_match; simpl_res; try done). Qed.

(** ** Strings *)

Lemma byteString_sound data lim start s p :
  byteString data lim start = Ok (s, p) →
  drop start data = enc_str s ++ drop p data ∧ p = (start + length (enc_str s))%nat
  ∧ str_fits lim s = true.
Proof.
  unfold byteString. destruct (skip_digits_sound data (length data) start) as (ds & r & E & D & -> & N).
  case_bool_decide as Hne; [done|]. rewrite (slice_of_app _ _ _ _ E). intros H.
  destruct (_ && _) eqn:Hz in H; [done|].
  destruct (str_length ds 0) as [len| | |] eqn:Hl; try done. simpl_res.
  apply str_length_sound in Hl as [El Hb]; [|unfold maxDeclaredLen; lia|done].
  change (foldl _ 0 ds) with (dval ds) in El.
  repeat (case_match; try done). simplify_eq.
  assert (C : canonical ds).
  { apply canonical_zero_check; [done| |done]. intros ->. simpl in Hne. lia. }
  rename select (data !! _ = Some _) into Hc. apply drop_S in Hc.
  rename select (negb _ = false) into Hcol. apply negb_false_iff, bool_decide_eq_true in Hcol as ->.
  rename select (_ && _ = false) into Hmax. rename select ((zlen data <? _) = false) into Hend.
  apply Z.ltb_ge in Hend. unfold zlen in Hend. set (q := S (start + length ds)) in *.
  unfold slice. change (S (start + length ds + Z.to_nat (dval ds))) with (q + Z.to_nat (dval ds))%nat.
  replace (q + Z.to_nat (dval ds) - q)%nat with (Z.to_nat (dval ds)) by lia.
  set (s := take (Z.to_nat (dval ds)) (drop q data)).
  assert (Ls : zlen s = dval ds).
  { unfold zlen, s. rewrite length_take, length_drop. lia. }
  unfold enc_str. rewrite Ls, dec_dval by done. split; [|split].
  - rewrite E, <- app_assoc. f_equal. rewrite <- (drop_of_app _ _ _ _ E), Hc. simpl. f_equal.
    change (S (start + length ds + Z.to_nat (dval ds))) with (q + Z.to_nat (dval ds))%nat.
    unfold s. by rewrite <- drop_drop, take_drop.
  - rewrite length_app. simpl. unfold zlen in Ls. lia.
  - unfold str_fits, within. rewrite Ls. apply andb_true_iff. split; [apply Z.leb_le; lia|].
    apply andb_false_iff in Hmax as [H|H]; apply Z.ltb_ge in H; apply orb_true_iff; rewrite !Z.leb_le; lia.
Qed.

Lemma byteString_complete data lim start s r :
  drop start data = enc_str s ++ r → str_fits lim s = true →
  byteString data lim start = Ok (s, (start + length (enc_str s))%nat).
Proof.
  unfold enc_str, str_fits, within. rewrite <- app_assoc. intros E [Hb Hm]%andb_true_iff.
  apply Z.leb_le in Hb. pose proof (zlen_nonneg s) as Hs.
  assert (C : canonical (dec (zlen s))) by (by apply dec_canonical). destruct C as (D & Ne & Z0).
  unfold byteString. rewrite (skip_digits_complete _ _ _ _ E) by done.
  rewrite bool_decide_false by (destruct (dec (zlen s)); simpl in *; [done|lia]).
  rewrite (slice_of_app _ _ _ _ E), (proj2 (canonical_zero_check _ D Ne)) by done.
  rewrite str_length_complete; [|done|lia|change (dval (dec (zlen s)) ≤ maxDeclaredLen); by rewrite dval_dec].
  change (foldl _ 0 (dec (zlen s))) with (dval (dec (zlen s))). rewrite dval_dec by done. simpl_res.
  rewrite (proj2 (Z.ltb_ge _ _)) by done.
  replace (_ && _) with false; cycle 1.
  { symmetry. apply orb_true_iff in Hm as [H|H]; apply Z.leb_le in H; apply andb_false_iff;
      rewrite !Z.ltb_ge; lia. }
  apply drop_of_app in E. simpl in E. destruct (lookup_of_drop _ _ _ _ E) as [Hc E1].
  pose proof (lookup_lt_Some _ _ _ Hc). rewrite Hc.
  rewrite bool_decide_true by done. cbn [negb].
  pose proof (f_equal length E1) as L. rewrite length_drop, length_app in L.
  rewrite length_app. set (n := length (dec (zlen s))) in *. clearbody n.
  unfold zlen. rewrite (proj2 (Z.ltb_ge _ _)) by lia. rewrite Nat2Z.id, (slice_of_app _ _ _ _ E1).
  do 2 f_equal. simpl. lia.
Qed.

Lemma byteString_returns data lim start : returns (byteString data lim start).
Proof.
  unfold byteString. case_match; [done|]. case_match; [done|].
  pose proof (str_length_returns (slice data start (skip_digits data (length data) start)) 0).
  destruct (str_length _ _); try done. simpl_res. repeat (case_match; try done).
Qed.

Lemma enc_str_head s : ∃ d t, enc_str s = d :: t ∧ is_digit d = true.
Proof.
  unfold enc_str. destruct (dec_canonical (zlen s)) as (D & Ne & _); [apply zlen_nonneg|].
  destruct (dec (zlen s)) as [|d t]; [done|]. apply Forall_cons in D as [? _]. eauto.
Qed.

(** ** The defining equations of the recognizer *)

Section equations.
Context (data : bytes) (lim : Limits) (f : nat) (d c : Z) (pos : nat).

Lemma value_S : value data lim (S f) d pos =
  match data !! pos with
  | None => Err ErrEOF
  | Some b => if bool_decide (b = chr "i") then integer data pos
              else if bool_decide (b = chr "l") then plist data lim f d pos
              else if bool_decide (b = chr "d") then dict data lim f d pos
              else if is_digit b then snd <$> byteString data lim pos
              else Err ErrSyntax
  end.
Proof. reflexivity. Qed.
Lemma plist_S : plist data lim (S f) d pos =
  if MaxDepth lim <? d + 1 then Err ErrDepth else list_loop data lim f d 0 (S pos).
Proof. reflexivity. Qed.
Lemma dict_S : dict data lim (S f) d pos =
  if MaxDepth lim <? d + 1 then Err ErrDepth else dict_loop data lim f d 0 (S pos).
Proof. reflexivity. Qed.
Lemma list_loop_S : list_loop data lim (S f) d c pos =
  match data !! pos with
  | None => Err ErrEOF
  | Some b => if bool_decide (b = chr "e") then Ok (S pos) else
              if (0 <? MaxListLen lim) && (MaxListLen lim <=? c) then Err ErrListTooLong else
              pos' ← value data lim f (d + 1) pos; list_loop data lim f d (c + 1) pos'
  end.
Proof. reflexivity. Qed.
Lemma dict_loop_S : dict_loop data lim (S f) d c pos =
  match data !! pos with
  | None => Err ErrEOF
  | Some b => if bool_decide (b = chr "e") then Ok (S pos) else
              if (0 <? MaxKeysPerDict lim) && (MaxKeysPerDict lim <=? c) then Err ErrDictTooLarge else
              if negb (is_digit b) then Err ErrSyntax else
              '(_, pos1) ← byteString data lim pos;
              pos2 ← value data lim f (d + 1) pos1; dict_loop data lim f d (c + 1) pos2
  end.
Proof. reflexivity. Qed.
End equations.

(** ** Soundness: an accepted value is an encoding within the bounds *)

Definition enc_list (l : list tree) : bytes := flat_map encode l.
Definition enc_dict (l : list (bytes * tree)) : bytes := flat_map (λ kv, enc_str kv.1 ++ encode kv.2) l.

(** [n] more elements are allowed after [count] of them. *)
Definition room (bound count n : Z) : Prop := bound ≤ 0 ∨ n = 0 ∨ count + n ≤ bound.

Section soundness.
Context (data : bytes) (lim : Limits).

Definition sound_value (d : Z) (pos pos' : nat) : Prop :=
  ∃ v, drop pos data = encode v ++ drop pos' data ∧ pos' = (pos + length (encode v))%nat
       ∧ fits lim d v = true.
Definition sound_list (d c : Z) (pos pos' : nat) : Prop :=
  ∃ l, drop pos data = enc_list l ++ chr "e" :: drop pos' data
       ∧ pos' = (pos + length (enc_list l) + 1)%nat
       ∧ forallb (fits lim (d + 1)) l = true ∧ room (MaxListLen lim) c (zlen l).
Definition sound_dict (d c : Z) (pos pos' : nat) : Prop :=
  ∃ l, drop pos data = enc_dict l ++ chr "e" :: drop pos' data
       ∧ pos' = (pos + length (enc_dict l) + 1)%nat
       ∧ forallb (λ kv, str_fits lim kv.1 && fits lim (d + 1) kv.2) l = true
       ∧ room (MaxKeysPerDict lim) c (zlen l).

Definition sound_at (fuel : nat) : Prop :=
  (∀ d pos pos', value data lim fuel d pos = Ok pos' → sound_value d pos pos') ∧
  (∀ d c pos pos', list_loop data lim fuel d c pos = Ok pos' → sound_list d c pos pos') ∧
  (∀ d c pos pos', dict_loop data lim fuel d c pos = Ok pos' → sound_dict d c pos pos').

Lemma room_step bound count n :
  (0 <? bound) && (bound <=? count) = false → room bound (count + 1) n → 0 ≤ n →
  room bound count (1 + n).
Proof. rewrite andb_false_iff, Z.ltb_ge, Z.leb_gt. unfold room. lia. Qed.

Lemma room_start bound n : 0 ≤ n → room bound 0 n → within bound n = true.
Proof. unfold room, within. rewrite orb_true_iff, !Z.leb_le. lia. Qed.

Lemma sound_value_step fuel :
  sound_at (pred (pred fuel)) → ∀ d pos pos', value data lim fuel d pos = Ok pos' → sound_value d pos pos'.
Proof.
  intros (_ & IHl & IHd) d pos pos' H. destruct fuel as [|f]; [done|]. rewrite value_S in H.
  destruct (data !! pos) as [b|] eqn:Hb; [|done].
  case_bool_decide as Hi.
  { subst b. destruct (integer_sound _ _ _ Hb H) as (z & E & L). exists (BInt z). done. }
  case_bool_decide as Hl.
  { subst b. destruct f as [|f]; [done|]. rewrite plist_S in H. case_match eqn:Hm; [done|].
    apply IHl in H as (l & E & L & F & R). exists (BList l). cbn [encode].
    rewrite (drop_S _ _ _ Hb), E. simpl. rewrite <- app_assoc. split; [done|].
    split; [unfold enc_list in L; rewrite length_app; simpl; lia|].
    cbn [fits]. rewrite F, (room_start _ _ (zlen_nonneg l) R), !andb_true_r.
    apply Z.leb_le. by apply Z.ltb_ge in Hm. }
  case_bool_decide as Hd.
  { subst b. destruct f as [|f]; [done|]. rewrite dict_S in H. case_match eqn:Hm; [done|].
    apply IHd in H as (l & E & L & F & R). exists (BDict l). cbn [encode].
    rewrite (drop_S _ _ _ Hb), E. simpl. rewrite <- app_assoc. split; [done|].
    split; [unfold enc_dict in L; rewrite length_app; simpl; lia|].
    cbn [fits]. rewrite F, (room_start _ _ (zlen_nonneg l) R), !andb_true_r.
    apply Z.leb_le. by apply Z.ltb_ge in Hm. }
  destruct (is_digit b); [|done]. destruct (byteString data lim pos) as [[s p]| | |] eqn:Hs; try done.
  simpl_res. injection H as <-. apply byteString_sound in Hs as (E & L & F). exists (BStr s). done.
Qed.

Lemma sound_list_step fuel :
  sound_at (pred fuel) → ∀ d c pos pos',
  list_loop data lim fuel d c pos = Ok pos' → sound_list d c pos pos'.
Proof.
  intros (IHv & IHl & _) d c pos pos' H. destruct fuel as [|f]; [done|]. rewrite list_loop_S in H. cbn [pred] in *.
  destruct (data !! pos) as [b|] eqn:Hb; [|done]. case_bool_decide as He.
  - simplify_eq. exists []. rewrite (drop_S _ _ _ Hb). unfold room. split; [done|].
    split; [simpl; lia|]. split; [done|]. right. by left.
  - case_match eqn:Hm; [done|]. destruct (value _ _ f _ _) as [p| | |] eqn:Hv; try done. simpl_res.
    apply IHv in Hv as (v & E & L & F). apply IHl in H as (l & E' & L' & F' & R').
    exists (v :: l). unfold enc_list in *. cbn [flat_map]. rewrite E, E', <- app_assoc. split; [done|].
    split; [rewrite length_app; lia|]. split; [cbn [forallb]; by rewrite F, F'|].
    rewrite zlen_cons. apply room_step; auto with weightless.
Qed.

Lemma sound_dict_step fuel :
  sound_at (pred fuel) → ∀ d c pos pos',
  dict_loop data lim fuel d c pos = Ok pos' → sound_dict d c pos pos'.
Proof.
  intros (IHv & _ & IHd) d c pos pos' H. destruct fuel as [|f]; [done|]. rewrite dict_loop_S in H. cbn [pred] in *.
  destruct (data !! pos) as [b|] eqn:Hb; [|done]. case_bool_decide as He.
  - simplify_eq. exists []. rewrite (drop_S _ _ _ Hb). unfold room. split; [done|].
    split; [simpl; lia|]. split; [done|]. right. by left.
  - case_match eqn:Hm; [done|]. case_match; [done|].
    destruct (byteString data lim pos) as [[s p]| | |] eqn:Hs; try done. simpl_res.
    destruct (value _ _ f _ _) as [q| | |] eqn:Hv; try done. simpl_res.
    apply byteString_sound in Hs as (E0 & L0 & F0).
    apply IHv in Hv as (v & E & L & F). apply IHd in H as (l & E' & L' & F' & R').
    exists ((s, v) :: l). unfold enc_dict in *. cbn [flat_map fst snd].
    rewrite E0, E, E', <- !app_assoc. split; [done|].
    split; [rewrite !length_app; lia|]. split; [cbn [forallb fst snd]; by rewrite F0, F, F'|].
    rewrite zlen_cons. apply room_step; auto with weightless.
Qed.

Lemma sound_all fuel : sound_at fuel.
Proof.
  induction fuel as [fuel IH] using lt_wf_ind. destruct fuel as [|fuel]; [done|].
  split; [|split].
  - apply sound_value_step. simpl. destruct fuel as [|fuel]; simpl; [|apply IH; lia].
    by split.
  - apply sound_list_step, IH. simpl. lia.
  - apply sound_dict_step, IH. simpl. lia.
Qed.

End soundness.

(** ** Completeness: every encoding within the bounds is accepted *)

Lemma encode_cons v : ∃ b t, encode v = b :: t.
Proof.
  destruct v as [z|s|l|l]; cbn [encode]; eauto. destruct (enc_str_head s) as (d & t & -> & _). eauto.
Qed.

Section completeness.
Context (data : bytes) (lim : Limits).

Definition complete_value (v : tree) : Prop := ∀ d pos r fuel,
  drop pos data = encode v ++ r → fits lim d v = true → (3 * length (encode v) ≤ fuel)%nat →
  value data lim fuel d pos = Ok (pos + length (encode v))%nat.

Lemma room_next bound count n :
  0 ≤ n → room bound count (1 + n) → (0 <? bound) && (bound <=? count) = false ∧ room bound (count + 1) n.
Proof. rewrite andb_false_iff, Z.ltb_ge, Z.leb_gt. unfold room. lia. Qed.

Lemma encode_not_e v r : ∃ b t, encode v ++ r = b :: t ∧ b ≠ chr "e".
Proof.
  destruct v as [z|s|l|l]; cbn [encode]; simpl; try (by eexists _, _).
  destruct (enc_str_head s) as (d & t & -> & Hd). eexists _, _. split; [done|]. by intros ->.
Qed.

Lemma list_loop_complete l : Forall complete_value l → ∀ d c pos r fuel,
  drop pos data = enc_list l ++ chr "e" :: r → forallb (fits lim (d + 1)) l = true →
  room (MaxListLen lim) c (zlen l) → (3 * length (enc_list l) + 1 ≤ fuel)%nat →
  list_loop data lim fuel d c pos = Ok (pos + length (enc_list l) + 1)%nat.
Proof.
  unfold enc_list. induction 1 as [|v l Hv Hl IH]; intros d c pos r fuel E F R Hf; destruct fuel as [|f]; try lia;
    rewrite list_loop_S; cbn [flat_map forallb] in *.
  - destruct (lookup_of_drop _ _ _ _ E) as [-> _]. rewrite bool_decide_true by done. f_equal. simpl. lia.
  - rewrite <- app_assoc in E. destruct (encode_not_e v (flat_map encode l ++ chr "e" :: r)) as (b & t & Eb & Nb).
    destruct (lookup_of_drop data pos b t) as [-> _]; [congruence|]. rewrite bool_decide_false by done.
    rewrite zlen_cons in R. apply room_next in R as [-> R]; [|apply zlen_nonneg].
    apply andb_true_iff in F as [Fv F]. rewrite length_app in *.
    destruct (encode_cons v) as (b' & t' & Ev). pose proof (f_equal length Ev) as Lv. simpl in Lv.
    rewrite (Hv (d + 1) pos _ f E Fv) by lia. simpl_res.
    rewrite (IH d (c + 1) _ r f) by (lia || (eapply drop_of_app; exact E) || done). f_equal. lia.
Qed.

Lemma dict_loop_complete l : Forall (λ kv, complete_value kv.2) l → ∀ d c pos r fuel,
  drop pos data = enc_dict l ++ chr "e" :: r →
  forallb (λ kv, str_fits lim kv.1 && fits lim (d + 1) kv.2) l = true →
  room (MaxKeysPerDict lim) c (zlen l) → (3 * length (enc_dict l) + 1 ≤ fuel)%nat →
  dict_loop data lim fuel d c pos = Ok (pos + length (enc_dict l) + 1)%nat.
Proof.
  unfold enc_dict. induction 1 as [|[k v] l Hv Hl IH]; intros d c pos r fuel E F R Hf; destruct fuel as [|f]; try lia;
    rewrite dict_loop_S; cbn [flat_map forallb fst snd] in *.
  - destruct (lookup_of_drop _ _ _ _ E) as [-> _]. rewrite bool_decide_true by done. f_equal. simpl. lia.
  - rewrite <- !app_assoc in E. destruct (enc_str_head k) as (b & t & Ek & Db).
    destruct (lookup_of_drop data pos b (t ++ encode v ++ enc_dict l ++ chr "e" :: r)) as [-> _];
      [unfold enc_dict; rewrite E, Ek; done|].
    rewrite bool_decide_false by (by intros ->).
    rewrite zlen_cons in R. apply room_next in R as [-> R]; [|apply zlen_nonneg].
    rewrite Db. cbn [negb]. apply andb_true_iff in F as [Fv F]. apply andb_true_iff in Fv as [Fk Fv].
    rewrite !length_app in *. pose proof (f_equal length Ek) as Lk. simpl in Lk.
    rewrite (byteString_complete _ _ _ _ _ E Fk). simpl_res. apply drop_of_app in E.
    rewrite (Hv (d + 1) _ _ f E Fv) by lia. simpl_res.
    rewrite (IH d (c + 1) _ r f) by (lia || (eapply drop_of_app; exact E) || done). f_equal. lia.
Qed.

Lemma room_zero bound n : 0 ≤ n → within bound n = true → room bound 0 n.
Proof. unfold room, within. rewrite orb_true_iff, !Z.leb_le. lia. Qed.

Lemma value_complete v : complete_value v.
Proof.
  induction v as [z|s|l IH|l IH] using tree_ind; intros d pos r fuel E F Hf;
    (destruct fuel as [|f];
      [match type of Hf with context [encode ?w] => destruct (encode_cons w) as (? & ? & Ec) end;
       rewrite Ec in Hf; simpl in Hf; lia|]);
    rewrite value_S.
  - destruct (lookup_of_drop _ _ _ _ E) as [-> _]. rewrite bool_decide_true by done.
    by apply integer_complete with r.
  - cbn [encode] in *. destruct (enc_str_head s) as (b & t & Es & Db).
    destruct (lookup_of_drop data pos b (t ++ r)) as [-> _]; [by rewrite E, Es|].
    rewrite !bool_decide_false by (by intros ->). rewrite Db.
    by rewrite (byteString_complete _ _ _ _ _ E F).
  - cbn [encode fits] in *. simpl in E. rewrite <- app_assoc in E.
    destruct (lookup_of_drop _ _ _ _ E) as [-> E1]. rewrite bool_decide_false, bool_decide_true by done.
    apply andb_true_iff in F as [[Fd%Z.leb_le Fw]%andb_true_iff F].
    simpl in Hf. rewrite length_app in Hf. simpl in Hf. destruct f as [|f]; [lia|]. rewrite plist_S.
    rewrite (proj2 (Z.ltb_ge _ _)) by lia.
    rewrite (list_loop_complete l IH d 0 _ r f); [|done|done|by apply room_zero; [apply zlen_nonneg|]|unfold enc_list; lia].
    f_equal. simpl. rewrite length_app. simpl. unfold enc_list. lia.
  - cbn [encode fits] in *. simpl in E. rewrite <- app_assoc in E.
    destruct (lookup_of_drop _ _ _ _ E) as [-> E1].
    rewrite bool_decide_false, bool_decide_false, bool_decide_true by done.
    apply andb_true_iff in F as [[Fd%Z.leb_le Fw]%andb_true_iff F].
    simpl in Hf. rewrite length_app in Hf. simpl in Hf. destruct f as [|f]; [lia|]. rewrite dict_S.
    rewrite (proj2 (Z.ltb_ge _ _)) by lia.
    rewrite (dict_loop_complete l IH d 0 _ r f); [|done|done|by apply room_zero; [apply zlen_nonneg|]|unfold enc_dict; lia].
    f_equal. simpl. rewrite length_app. simpl. unfold enc_dict. lia.
Qed.

End completeness.

(** ** Totality: the fuel of [Validate] is enough, and nothing panics *)

Section totality.
Context (data : bytes) (lim : Limits).

Lemma value_progress f d pos p : value data lim f d pos = Ok p → (pos < p)%nat.
Proof.
  intros H. destruct (sound_all data lim f) as (Hv & _). apply Hv in H as (v & _ & -> & _).
  destruct (encode_cons v) as (? & ? & ->). simpl. lia.
Qed.

Lemma byteString_progress pos s p : byteString data lim pos = Ok (s, p) → (pos < p)%nat.
Proof.
  intros (_ & -> & _)%byteString_sound. destruct (enc_str_head s) as (? & ? & -> & _). simpl. lia.
Qed.

Lemma returns_all fuel :
  (∀ d pos, (3 * (length data - pos) ≤ fuel)%nat → (0 < fuel)%nat → returns (value data lim fuel d pos)) ∧
  (∀ d c pos, (3 * (length data - pos) + 1 ≤ fuel)%nat → returns (list_loop data lim fuel d c pos)) ∧
  (∀ d c pos, (3 * (length data - pos) + 1 ≤ fuel)%nat → returns (dict_loop data lim fuel d c pos)).
Proof.
  induction fuel as [fuel IH] using lt_wf_ind. split; [|split].
  - intros d pos Hf H0. destruct fuel as [|f]; [lia|]. rewrite value_S.
    destruct (data !! pos) as [b|] eqn:Hb; [|done]. apply lookup_lt_Some in Hb.
    destruct f as [|f]; [lia|]. destruct (IH f) as (_ & Hl & Hd); [lia|].
    rewrite plist_S, dict_S. repeat case_match; simpl_res; try done.
    + apply integer_returns.
    + apply Hl. lia.
    + apply Hd. lia.
    + pose proof (byteString_returns data lim pos). by destruct (byteString _ _ _).
  - intros d c pos Hf. destruct fuel as [|f]; [lia|]. destruct (IH f) as (Hv & Hl & _); [lia|].
    rewrite list_loop_S. destruct (data !! pos) as [b|] eqn:Hb; [|done]. apply lookup_lt_Some in Hb.
    case_match; [done|]. case_match; [done|].
    specialize (Hv (d + 1) pos ltac:(lia) ltac:(lia)).
    destruct (value _ _ f _ _) as [p| | |] eqn:Ev; try done. simpl_res.
    apply value_progress in Ev. apply Hl. lia.
  - intros d c pos Hf. destruct fuel as [|f]; [lia|]. destruct (IH f) as (Hv & _ & Hd); [lia|].
    rewrite dict_loop_S. destruct (data !! pos) as [b|] eqn:Hb; [|done]. apply lookup_lt_Some in Hb.
    repeat (case_match; [done|]). pose proof (byteString_returns data lim pos).
    destruct (byteString _ _ _) as [[s p]| | |] eqn:Es; try done. simpl_res. apply byteString_progress in Es.
    specialize (Hv (d + 1) p ltac:(lia) ltac:(lia)).
    destruct (value _ _ f _ _) as [q| | |] eqn:Ev; try done. simpl_res.
    apply value_progress in Ev. apply Hd. lia.
Qed.

End totality.

(** ** Unique readability *)

Lemma itoa_split z : ∃ sg ds, itoa z = sg ++ ds ∧ digits ds ∧ (sg = [] ∨ sg = [chr "-"]) ∧ canonical ds
  ∧ z = (if bool_decide (sg = []) then dval ds else - dval ds).
Proof.
  destruct (decide (z < 0)).
  - exists [chr "-"], (dec (- z)). replace z with (- (- z)) at 1 by lia. rewrite itoa_neg by lia.
    rewrite bool_decide_false by done. rewrite dval_dec by lia.
    assert (canonical (dec (- z))) by (apply dec_canonical; lia).
    repeat split; try apply H; [by right|lia].
  - exists [], (dec z). rewrite itoa_nonneg by lia. rewrite bool_decide_true by done. rewrite dval_dec by lia.
    assert (canonical (dec z)) by (apply dec_canonical; lia). repeat split; try apply H. by left.
Qed.

Lemma zlen_enc_str s : zlen s < 2 ^ 63 → zlen (enc_str s) ≤ 65 + zlen s.
Proof. intros. unfold enc_str. rewrite zlen_app, zlen_cons. pose proof (length_dec (zlen s)). pose proof (zlen_nonneg s). lia. Qed.

(** The size of an encoded dictionary does not depend on the order of its entries. *)
Lemma enc_dict_perm l k : l ≡ₚ k → zlen (enc_dict l) = zlen (enc_dict k).
Proof.
  unfold enc_dict. induction 1 as [|x l k H IH|x y l|l k j H1 IH1 H2 IH2]; cbn [flat_map]; [done| | |congruence].
  - rewrite !zlen_app. lia.
  - rewrite !zlen_app. lia.
Qed.

Lemma itoa_not_e z : chr "e" ∉ itoa z.
Proof.
  destruct (itoa_split z) as (sg & ds & -> & D & Hs & _). intros [H|H]%elem_of_app.
  - destruct Hs as [-> | ->]; [by apply elem_of_nil in H|]. apply list_elem_of_singleton in H. done.
  - apply (proj1 (Forall_forall _ _) D) in H. done.
Qed.

Lemma itoa_unique z1 z2 r1 r2 :
  itoa z1 ++ chr "e" :: r1 = itoa z2 ++ chr "e" :: r2 → z1 = z2 ∧ r1 = r2.
Proof.
  destruct (itoa_split z1) as (s1 & d1 & -> & D1 & S1 & C1 & ->).
  destruct (itoa_split z2) as (s2 & d2 & -> & D2 & S2 & C2 & ->).
  rewrite <- !app_assoc. intros E.
  assert (s1 = s2 ∧ d1 ++ chr "e" :: r1 = d2 ++ chr "e" :: r2) as [-> E'].
  { destruct C1 as (_ & N1 & _), C2 as (_ & N2 & _).
    destruct S1 as [->| ->], S2 as [->| ->]; simpl in *; simplify_eq; try done.
    - destruct D1 as [|b ? Hb]; [done|]. by simplify_eq/=.
    - destruct D2 as [|b ? Hb]; [done|]. by simplify_eq/=. }
  apply digits_split in E' as (-> & _ & ->); done.
Qed.

Lemma enc_str_unique s1 s2 r1 r2 : enc_str s1 ++ r1 = enc_str s2 ++ r2 → s1 = s2 ∧ r1 = r2.
Proof.
  unfold enc_str. rewrite <- !app_assoc. simpl. intros E.
  apply digits_split in E as (E & _ & E'); try done; try (apply dec_digits, zlen_nonneg).
  apply dec_inj in E; try apply zlen_nonneg. unfold zlen in E. apply app_inj_1 in E'; [done|lia].
Qed.

Definition unique_at (v : tree) : Prop := ∀ w r1 r2, encode v ++ r1 = encode w ++ r2 → v = w ∧ r1 = r2.

Lemma enc_list_unique l : Forall unique_at l → ∀ k r1 r2,
  enc_list l ++ chr "e" :: r1 = enc_list k ++ chr "e" :: r2 → l = k ∧ r1 = r2.
Proof.
  unfold enc_list. induction 1 as [|v l Hv Hl IH]; intros [|w k] r1 r2 E; cbn [flat_map] in *.
  - by simplify_eq/=.
  - rewrite <- app_assoc in E. destruct (encode_not_e w (flat_map encode k ++ chr "e" :: r2)) as (b & t & Eb & N).
    rewrite Eb in E. by simplify_eq/=.
  - rewrite <- app_assoc in E. destruct (encode_not_e v (flat_map encode l ++ chr "e" :: r1)) as (b & t & Eb & N).
    rewrite Eb in E. by simplify_eq/=.
  - rewrite <- !app_assoc in E. apply Hv in E as [-> E]. by apply IH in E as [-> ->].
Qed.

Lemma enc_dict_unique l : Forall (λ kv, unique_at kv.2) l → ∀ k r1 r2,
  enc_dict l ++ chr "e" :: r1 = enc_dict k ++ chr "e" :: r2 → l = k ∧ r1 = r2.
Proof.
  unfold enc_dict. induction 1 as [|[s v] l Hv Hl IH]; intros [|[s' w] k] r1 r2 E; cbn [flat_map fst snd] in *.
  - by simplify_eq/=.
  - destruct (enc_str_head s') as (b & t & Es & Hb). rewrite Es in E. simpl in E. by simplify_eq/=.
  - destruct (enc_str_head s) as (b & t & Es & Hb). rewrite Es in E. simpl in E. by simplify_eq/=.
  - rewrite <- !app_assoc in E. apply enc_str_unique in E as [-> E].
    apply Hv in E as [-> E]. by apply IH in E as [-> ->].
Qed.

Lemma encode_unique v : unique_at v.
Proof.
  induction v as [z|s|l IH|l IH] using tree_ind; intros w r1 r2 E;
    destruct w as [z'|s'|l'|l']; cbn [encode] in E;
    try (destruct (enc_str_head s) as (b & t & Es & Hb));
    try (destruct (enc_str_head s') as (b' & t' & Es' & Hb'));
    try (rewrite ?Es, ?Es' in E; simpl in E; simplify_eq/=; done); simpl in E.
  - injection E as E. rewrite <- !app_assoc in E. by apply itoa_unique in E as [-> ->].
  - by apply enc_str_unique in E as [-> ->].
  - injection E as E. rewrite <- !app_assoc in E. by apply enc_list_unique in E as [-> ->].
  - injection E as E. rewrite <- !app_assoc in E. by apply enc_dict_unique in E as [-> ->].
Qed.

(** ** [Validate] *)

Lemma validate_accepts data lim :
  Validate data lim = Ok tt ↔
  within (MaxBytes lim) (zlen data) = true ∧ ∃ v, data = encode v ∧ fits lim 0 v = true.
Proof.
  unfold Validate, validate_fuel, within.
  destruct ((0 <? MaxBytes lim) && (MaxBytes lim <? zlen data)) eqn:Hm.
  { split; [done|]. intros [H _]. apply andb_true_iff in Hm. rewrite !Z.ltb_lt in Hm.
    apply orb_true_iff in H. rewrite !Z.leb_le in H. lia. }
  apply andb_false_iff in Hm. rewrite !Z.ltb_ge in Hm.
  split.
  - intros H. destruct (value _ _ _ _ _) as [p| | |] eqn:Hv; try done. simpl_res.
    case_bool_decide as Hp; [|done]. subst p.
    destruct (sound_all data lim (3 * length data + 3)) as (S & _). apply S in Hv as (v & E & L & F).
    rewrite drop_0, drop_all, app_nil_r in E. split; [|by eauto].
    apply orb_true_iff. rewrite !Z.leb_le. lia.
  - intros (_ & v & E & F).
    rewrite (value_complete data lim v 0 0%nat []); [|by rewrite drop_0, app_nil_r|done|rewrite E; lia].
    simpl_res. rewrite bool_decide_true; [done|]. by rewrite E.
Qed.

Lemma validate_returns data lim : returns (Validate data lim).
Proof.
  unfold Validate. case_match; [done|].
  destruct (returns_all data lim (validate_fuel data)) as (Hv & _). unfold validate_fuel in *.
  specialize (Hv 0 0%nat ltac:(lia) ltac:(lia)). destruct (value _ _ _ _ _); try done. simpl_res. by case_match.
Qed.

Lemma value_too_deep data lim n : ∀ r d pos fuel,
  drop pos data = replicate n (chr "l") ++ r → MaxDepth lim < d + Z.of_nat n → (0 < n)%nat →
  (3 * n ≤ fuel)%nat → value data lim fuel d pos = Err ErrDepth.
Proof.
  induction n as [|n IH]; intros r d pos fuel E Hd H0 Hf; [lia|].
  destruct fuel as [|[|[|f]]]; try lia. simpl in E. destruct (lookup_of_drop _ _ _ _ E) as [Hl E1].
  rewrite value_S, Hl, bool_decide_false, bool_decide_true, plist_S by done.
  destruct (Z.ltb_spec (MaxDepth lim) (d + 1)) as [|Hlt]; [done|].
  destruct n as [|n]; [lia|]. simpl in E1. destruct (lookup_of_drop _ _ _ _ E1) as [Hl1 _].
  rewrite list_loop_S, Hl1, bool_decide_false by done.
  replace (_ && _) with false by (symmetry; apply andb_false_iff; rewrite Z.ltb_ge, Z.leb_gt; lia).
  rewrite (IH r (d + 1) (S pos) f); [done|exact E1|lia|lia|lia].
Qed.

(** ** Properties *)

(** C1. Full recognition: [Validate] returns nil exactly on the canonical encodings of trees whose
    size, depth, string lengths and element counts are within the limits, and the accepted input
    determines its tree, so no later decoder can read it in two ways; on every other input it returns an
    error, without a panic, in a number of rounds linear in the input. *)
Theorem validate_correct data lim :
  returns (Validate data lim) ∧
  (Validate data lim = Ok tt ↔
   within (MaxBytes lim) (zlen data) = true ∧
   (∃ v, data = encode v ∧ fits lim 0 v = true ∧ ∀ w, data = encode w → w = v)).
Proof.
  split; [apply validate_returns|]. rewrite validate_accepts. split; intros (Hm & v & E).
  - destruct E as [E F]. split; [done|]. exists v. split; [done|]. split; [done|]. intros w E'.
    destruct (encode_unique w v [] []) as [-> _]; [|done]. by rewrite !app_nil_r, <- E, <- E'.
  - split; [done|]. exists v. tauto.
Qed.

(** Bytes after a complete, well-bounded value are reported as trailing data, never ignored. *)
Theorem validate_trailing v r lim :
  fits lim 0 v = true → r ≠ [] → within (MaxBytes lim) (zlen (encode v ++ r)) = true →
  Validate (encode v ++ r) lim = Err ErrTrailingData.
Proof.
  intros F N W. unfold Validate. unfold within in W. apply orb_true_iff in W. rewrite !Z.leb_le in W.
  replace (_ && _) with false by (symmetry; apply andb_false_iff; rewrite !Z.ltb_ge; lia).
  rewrite (value_complete _ lim v 0 0%nat r); [|by rewrite drop_0|done|unfold validate_fuel; rewrite length_app; lia].
  simpl_res. rewrite bool_decide_false; [done|]. rewrite length_app. destruct r; simpl; [done|lia].
Qed.

Lemma validate_trailing_witness :
  fits PeerMessageLimits 0 (BDict [(str "a", BInt 1)]) = true ∧
  Validate (str "d1:ai1eeX") PeerMessageLimits = Err ErrTrailingData.
Proof.
  split; [vm_compute; reflexivity|].
  apply (validate_trailing (BDict [(str "a", BInt 1)]) (str "X") PeerMessageLimits);
    [vm_compute; reflexivity|discriminate|vm_compute; reflexivity].
Defined.

(** Over-deep input is refused where the limit is crossed: more than [MaxDepth] opening brackets
    fail with [ErrDepth] whatever follows them, so recursion never goes deeper than [MaxDepth]. *)
Theorem validate_depth n r lim :
  MaxDepth lim < Z.of_nat n → within (MaxBytes lim) (zlen (replicate n (chr "l") ++ r)) = true →
  (0 < n)%nat → Validate (replicate n (chr "l") ++ r) lim = Err ErrDepth.
Proof.
  intros Hn W H0. unfold Validate. unfold within in W. apply orb_true_iff in W. rewrite !Z.leb_le in W.
  replace (_ && _) with false by (symmetry; apply andb_false_iff; rewrite !Z.ltb_ge; lia).
  rewrite (value_too_deep _ lim n r); [done|by rewrite drop_0|lia|done|].
  unfold validate_fuel. rewrite length_app, length_replicate. lia.
Qed.

Lemma validate_depth_witness :
  MaxDepth PeerMessageLimits < Z.of_nat 17 ∧
  Validate (replicate 17 (chr "l") ++ str "xyz") PeerMessageLimits = Err ErrDepth.
Proof.
  split; [vm_compute; reflexivity|].
  apply (validate_depth 17 (str "xyz") PeerMessageLimits); [vm_compute; reflexivity|vm_compute; reflexivity|lia].
Defined.
