(* ===== verification/TrackerState.v ===== *)
(** * Package [tracker]: the in-memory swarm state

    Models [internal/tracker/state.go]: the peer and user maps behind the state's lock, their
    operations, and the flush to and reload from the [peers] table.  Every operation runs under the
    lock, so it is a pure function of the state; what happens between two lock regions of one
    operation (the usage flush) is in [UsageSync].

    Go iterates over a map in an unspecified order.  Where the order can be seen ([GetPeers]) it is an
    argument, a permutation of the map's entries; elsewhere the map is folded and the lemmas show that
    the result does not depend on the order.  Prometheus counters and log lines are not modelled. *)

From S2P Require Import Prelude.
From Stdlib Require Import ZArith Lia.
Local Open Scope Z_scope.

(** ** Data *)

Record Peer := mkPeer {
  Addr : bytes;
  UpdatedAt : Z;
  Left : Z;
  Downloaded : Z;
  Uploaded : Z;
}.

Record UserUsage := mkUsage { UUploaded : Z; UDownloaded : Z }.

#[export] Instance peer_eq_decision : EqDecision Peer.
Proof. solve_decision. Defined.
#[export] Instance usage_eq_decision : EqDecision UserUsage.
Proof. solve_decision. Defined.

Record SwarmState := mkState {
  Peers : gmap bytes (gmap bytes Peer);   (* info_hash -> peer_id -> Peer *)
  Users : gmap bytes UserUsage;           (* user_id -> usage deltas *)
}.

Definition emptyState : SwarmState := mkState ∅ ∅.

(** ** Operations *)

(** [s.Users[userID].Uploaded += uploaded], on int64 *)
Definition addUsage (u : UserUsage) (up down : Z) : UserUsage :=
  mkUsage (wrap64 (UUploaded u + up)) (wrap64 (UDownloaded u + down)).

Definition TrackUsage (userID : bytes) (uploaded downloaded : Z) (s : SwarmState) : SwarmState :=
  let u := default (mkUsage 0 0) (Users s !! userID) in
  mkState (Peers s) (<[userID := addUsage u uploaded downloaded]> (Users s)).

Definition GetPeer (s : SwarmState) (hash peerID : bytes) : option Peer :=
  match Peers s !! hash with
  | Some swarm => swarm !! peerID
  | None => None
  end.

Definition UpdatePeer (hash id : bytes) (p : Peer) (s : SwarmState) : SwarmState :=
  let swarm := default ∅ (Peers s !! hash) in
  mkState (<[hash := <[id := p]> swarm]> (Peers s)) (Users s).

Definition RemovePeer (hash id : bytes) (s : SwarmState) : SwarmState :=
  match Peers s !! hash with
  | Some swarm => mkState (<[hash := delete id swarm]> (Peers s)) (Users s)
  | None => s
  end.

(** The loop of [GetPeers] over the entries in the order the iteration yields them. *)
Fixpoint getPeers_loop (order : list (bytes * Peer)) (excludeID : bytes) (limit : Z) (addrs : list bytes)
  : list bytes :=
  match order with
  | [] => addrs
  | (id, p) :: rest =>
      if bool_decide (id = excludeID) then getPeers_loop rest excludeID limit addrs
      else if limit <=? zlen addrs then addrs
      else getPeers_loop rest excludeID limit (addrs ++ [Addr p])
  end.

(** [order hash] is the order in which the runtime iterates over the swarm of [hash]. *)
Definition GetPeers (s : SwarmState) (order : bytes → list (bytes * Peer)) (hash excludeID : bytes)
    (limit : Z) : list bytes :=
  match Peers s !! hash with
  | None => []
  | Some _ => getPeers_loop (order hash) excludeID limit []
  end.

(** An order is admissible for a state when it lists each swarm's entries once each. *)
Definition iteration_of (s : SwarmState) (order : bytes → list (bytes * Peer)) : Prop :=
  ∀ hash swarm, Peers s !! hash = Some swarm → order hash ≡ₚ map_to_list swarm.

Definition count_peer (_ : bytes) (p : Peer) (acc : Z * Z) : Z * Z :=
  if bool_decide (Left p = 0) then (acc.1 + 1, acc.2) else (acc.1, acc.2 + 1).

(** (complete, incomplete) *)
Definition GetCounts (s : SwarmState) (hash : bytes) : Z * Z :=
  map_fold count_peer (0, 0) (default ∅ (Peers s !! hash)).

(** [PruneMemory], with [now] for [time.Now().Unix()]: stale peers go, then empty swarms. *)
Definition fresh (expiry : Z) (swarm : gmap bytes Peer) : gmap bytes Peer :=
  filter (λ kv, ¬ (UpdatedAt kv.2 < expiry)) swarm.

Definition PruneMemory (now : Z) (s : SwarmState) : SwarmState :=
  let expiry := now - 3600 in
  mkState (filter (λ kv, size kv.2 ≠ 0%nat) (fresh expiry <$> Peers s)) (Users s).

(** ** The [peers] table

    A row is keyed by its primary key [(info_hash, peer_id)]. *)

Abbreviation peer_table := (gmap (bytes * bytes) Peer).

(** What can go wrong in the transaction of [FlushToDB]: each call succeeds or returns an error. *)
Record TxOutcome := mkTx {
  tx_begin : bool;
  tx_delete : bool;
  tx_prepare : bool;
  tx_insert : bytes → bytes → bool;
  tx_commit : bool;
}.

(** The rows the two nested loops insert: every peer of every swarm of the snapshot. *)
Definition snapshot_rows (peers : gmap bytes (gmap bytes Peer)) : list (bytes * bytes * Peer) :=
  '(hash, swarm) ← map_to_list peers;
  '(id, p) ← map_to_list swarm;
  [(hash, id, p)].

(** [stmt.Exec] for each row in turn; [None] when one of them fails (a key already present violates
    the primary key, any other failure comes from the outcome). *)
Fixpoint insert_rows (tx : TxOutcome) (rows : list (bytes * bytes * Peer)) (t : peer_table)
  : option peer_table :=
  match rows with
  | [] => Some t
  | (hash, id, p) :: rest =>
      if negb (tx_insert tx hash id) || bool_decide (is_Some (t !! (hash, id))) then None
      else insert_rows tx rest (<[(hash, id) := p]> t)
  end.

(** The transaction works on a copy; an early return rolls it back. *)
Definition FlushToDB (tx : TxOutcome) (s : SwarmState) (db : peer_table) : peer_table :=
  if negb (tx_begin tx) then db else
  if negb (tx_delete tx) then db else
  let t : peer_table := ∅ in
  if negb (tx_prepare tx) then db else
  match insert_rows tx (snapshot_rows (Peers s)) t with
  | None => db
  | Some t' => if tx_commit tx then t' else db
  end.

(** One row of the result set, or a row [rows.Scan] fails on. *)
Definition load_row (s : SwarmState) (row : option (bytes * bytes * Peer)) : SwarmState :=
  match row with
  | None => s
  | Some (hash, id, p) =>
      mkState (<[hash := <[id := p]> (default ∅ (Peers s !! hash))]> (Peers s)) (Users s)
  end.

(** [LoadFromDB]: [rows] is the result set of the query, [None] if the query failed; the flag is
    [rows.Err() == nil].  The state keeps the rows read before an iteration error. *)
Definition LoadFromDB (rows : option (list (option (bytes * bytes * Peer)) * bool)) (s : SwarmState)
  : bool * SwarmState :=
  match rows with
  | None => (false, s)
  | Some (rs, ok) => (ok, foldl load_row s rs)
  end.

(** ** The abstract state: a finite map from (info_hash, peer_id) to peers *)

Definition view (s : SwarmState) : gmap (bytes * bytes) Peer :=
  map_uncurry (M1:=gmap bytes) (M2:=gmap bytes) (Peers s).

Lemma lookup_view s hash id : view s !! (hash, id) = GetPeer s hash id.
Proof. unfold view, GetPeer. rewrite lookup_map_uncurry. by destruct (Peers s !! hash). Qed.

(** The swarm the operations see: the empty one when the hash is absent. *)
Definition swarm_of (s : SwarmState) (hash : bytes) : gmap bytes Peer := default ∅ (Peers s !! hash).

Lemma lookup_swarm_of s hash id : swarm_of s hash !! id = GetPeer s hash id.
Proof. unfold swarm_of, GetPeer. by destruct (Peers s !! hash). Qed.

Lemma swarm_of_view s1 s2 hash : view s1 = view s2 → swarm_of s1 hash = swarm_of s2 hash.
Proof. intros E. apply map_eq. intros id. by rewrite !lookup_swarm_of, <- !lookup_view, E. Qed.

Lemma GetPeer_update hash id p s hash' id' :
  GetPeer (UpdatePeer hash id p s) hash' id'
  = if bool_decide (hash = hash' ∧ id = id') then Some p else GetPeer s hash' id'.
Proof.
  unfold GetPeer, UpdatePeer. simpl. destruct (decide (hash = hash')) as [->|Hh].
  - rewrite lookup_insert_eq. destruct (decide (id = id')) as [->|Hi].
    + rewrite bool_decide_true by done. by rewrite lookup_insert_eq.
    + rewrite bool_decide_false by tauto. rewrite lookup_insert_ne by done. by destruct (Peers s !! hash').
  - rewrite bool_decide_false by tauto. by rewrite lookup_insert_ne.
Qed.

Lemma GetPeer_remove hash id s hash' id' :
  GetPeer (RemovePeer hash id s) hash' id'
  = if bool_decide (hash = hash' ∧ id = id') then None else GetPeer s hash' id'.
Proof.
  unfold GetPeer, RemovePeer. destruct (decide (hash = hash')) as [->|Hh].
  - destruct (Peers s !! hash') as [swarm|] eqn:E; simpl; [|rewrite E; by case_bool_decide].
    rewrite lookup_insert_eq, lookup_delete. case_decide; case_bool_decide; tauto.
  - rewrite bool_decide_false by tauto. destruct (Peers s !! hash) eqn:E; simpl; [|done].
    by rewrite lookup_insert_ne.
Qed.

Lemma GetPeer_prune now s hash id :
  GetPeer (PruneMemory now s) hash id
  = p ← GetPeer s hash id; if bool_decide (now - 3600 ≤ UpdatedAt p) then Some p else None.
Proof.
  unfold GetPeer, PruneMemory. simpl. rewrite map_lookup_filter, lookup_fmap.
  destruct (Peers s !! hash) as [swarm|]; [|done]. simpl.
  assert (F : fresh (now - 3600) swarm !! id
              = p ← swarm !! id; if bool_decide (now - 3600 ≤ UpdatedAt p) then Some p else None).
  { unfold fresh. rewrite map_lookup_filter. destruct (swarm !! id) as [p|]; simpl; [|done].
    case_guard; case_bool_decide; simpl in *; done || lia. }
  rewrite <- F. case_guard as G; simpl in *; [done|]. apply map_size_empty_inv in G. by rewrite G.
Qed.

Lemma prune_no_empty now s hash swarm : Peers (PruneMemory now s) !! hash = Some swarm → swarm ≠ ∅.
Proof. simpl. rewrite map_lookup_filter_Some. intros [_ H] ->. by apply H. Qed.

(** ** Selection of peers *)

Lemma getPeers_loop_spec order excludeID limit addrs :
  getPeers_loop order excludeID limit addrs
  = addrs ++ take (Z.to_nat limit - length addrs)
               ((λ kv, Addr kv.2) <$> filter (λ kv, kv.1 ≠ excludeID) order).
Proof.
  revert addrs. induction order as [|[id p] order IH]; intros addrs; simpl.
  - by rewrite take_nil, app_nil_r.
  - rewrite filter_cons. simpl. case_bool_decide as Hid.
    + rewrite decide_False by (by intros []). apply IH.
    + rewrite decide_True by done. destruct (Z.leb_spec limit (zlen addrs)) as [Hl|Hl]; unfold zlen in Hl.
      * replace (Z.to_nat limit - length addrs)%nat with 0%nat by lia. by rewrite take_0, app_nil_r.
      * rewrite IH, length_app. cbn [fmap list_fmap length].
        replace (Z.to_nat limit - length addrs)%nat with (S (Z.to_nat limit - (length addrs + 1)))%nat by lia.
        simpl. by rewrite <- app_assoc.
Qed.

Lemma filter_fst_delete (swarm : gmap bytes Peer) (excludeID : bytes) (order : list (bytes * Peer)) :
  order ≡ₚ map_to_list swarm →
  filter (λ kv, kv.1 ≠ excludeID) order ≡ₚ map_to_list (delete excludeID swarm).
Proof.
  intros ->. destruct (swarm !! excludeID) as [p|] eqn:E.
  - rewrite <- (map_to_list_delete swarm excludeID p E) at 1. rewrite filter_cons_False by (simpl; tauto).
    rewrite filter_all; [done|]. apply Forall_forall. intros [k q] H%elem_of_map_to_list.
    apply lookup_delete_Some in H as [? _]. simpl. done.
  - rewrite delete_id by done. rewrite filter_all; [done|]. apply Forall_forall.
    intros [k q] H%elem_of_map_to_list. simpl. congruence.
Qed.

Lemma GetPeers_spec s order hash excludeID limit :
  iteration_of s order →
  ∃ sel, GetPeers s order hash excludeID limit = (λ kv, Addr kv.2) <$> sel
    ∧ NoDup (fst <$> sel)
    ∧ (∀ id p, (id, p) ∈ sel → id ≠ excludeID ∧ GetPeer s hash id = Some p)
    ∧ length sel = (Z.to_nat limit `min` size (delete excludeID (swarm_of s hash)))%nat.
Proof.
  intros Hit. unfold GetPeers, swarm_of, GetPeer. destruct (Peers s !! hash) as [swarm|] eqn:E; simpl.
  - specialize (Hit hash swarm E). apply (filter_fst_delete _ excludeID) in Hit.
    set (cand := filter _ (order hash)) in *. exists (take (Z.to_nat limit) cand).
    rewrite getPeers_loop_spec, fmap_take. simpl. rewrite Nat.sub_0_r. split; [done|]. split; [|split].
    + rewrite fmap_take. apply NoDup_take. rewrite Hit. apply NoDup_fst_map_to_list.
    + intros id p H%elem_of_take. rewrite Hit in H.
      apply elem_of_map_to_list, lookup_delete_Some in H as [? ?]. done.
    + rewrite length_take, Hit, length_map_to_list. done.
  - exists []. rewrite delete_empty, map_size_empty. repeat split; [constructor|..]; try set_solver. simpl. lia.
Qed.

(** ** Counting *)

Lemma count_fold (m : gmap bytes Peer) :
  map_fold count_peer (0, 0) m
  = (Z.of_nat (size (filter (λ kv, Left kv.2 = 0) m)), Z.of_nat (size (filter (λ kv, Left kv.2 ≠ 0) m))).
Proof.
  apply (map_fold_weak_ind (λ r m, r = (Z.of_nat (size (filter (λ kv, Left kv.2 = 0) m)),
                                        Z.of_nat (size (filter (λ kv, Left kv.2 ≠ 0) m))))); [done|].
  intros id p m' r Hid ->. unfold count_peer. rewrite !map_filter_insert. simpl.
  assert (N : ∀ P `{∀ x, Decision (P x)}, filter P m' !! id = None).
  { intros. apply map_lookup_filter_None. by left. }
  rewrite (delete_id m' id) by done. case_bool_decide; repeat case_decide; try tauto; simpl;
    rewrite map_size_insert_None by apply N; f_equal; lia.
Qed.

(** ** The flush transaction *)

Lemma snapshot_rows_spec s hash id p : (hash, id, p) ∈ snapshot_rows (Peers s) ↔ GetPeer s hash id = Some p.
Proof.
  unfold snapshot_rows, GetPeer. rewrite list_elem_of_bind. split.
  - intros ([h swarm] & H & Hs%elem_of_map_to_list). rewrite list_elem_of_bind in H.
    destruct H as ([i q] & H & Hq%elem_of_map_to_list). apply list_elem_of_singleton in H. simplify_eq.
    by rewrite Hs.
  - destruct (Peers s !! hash) as [swarm|] eqn:E; [|done]. intros Hp. exists (hash, swarm).
    split; [|by apply elem_of_map_to_list]. apply list_elem_of_bind. exists (id, p).
    split; [by apply list_elem_of_singleton|by apply elem_of_map_to_list].
Qed.

Lemma snapshot_rows_keys s : NoDup (fst <$> snapshot_rows (Peers s)).
Proof.
  apply NoDup_fmap_fst.
  - intros [h i] p q. rewrite !snapshot_rows_spec. congruence.
  - unfold snapshot_rows. apply NoDup_bind.
    + intros [h1 s1] [h2 s2] [[h i] p] H1 H2. rewrite !list_elem_of_bind.
      intros ([] & ->%list_elem_of_singleton & _) ([] & E%list_elem_of_singleton & _). simplify_eq.
      apply elem_of_map_to_list in H1, H2. by simplify_eq.
    + intros [h swarm] _. apply NoDup_bind.
      * intros [i1 p1] [i2 p2] x _ _ ->%list_elem_of_singleton E%list_elem_of_singleton. by simplify_eq.
      * intros [i p] _. apply NoDup_singleton.
      * apply NoDup_map_to_list.
    + apply NoDup_map_to_list.
Qed.

Lemma insert_rows_spec tx rows t t' :
  insert_rows tx rows t = Some t' →
  ∀ hash id p, t' !! (hash, id) = Some p ↔ t !! (hash, id) = Some p ∨ (hash, id, p) ∈ rows.
Proof.
  revert t. induction rows as [|[[h i] q] rows IH]; intros t H hash id p; simpl in H.
  - simplify_eq. split; [by left|]. intros [?|[]%elem_of_nil]; done.
  - destruct (tx_insert tx h i); [|done]. simpl in H. case_bool_decide as Hk; [done|].
    rewrite (IH _ H), elem_of_cons, lookup_insert. case_decide as E; simplify_eq.
    + apply eq_None_not_Some in Hk. rewrite Hk. naive_solver.
    + naive_solver.
Qed.

Lemma insert_rows_ok tx rows t :
  (∀ h i, tx_insert tx h i = true) → NoDup (fst <$> rows) → (∀ k, k ∈ fst <$> rows → t !! k = None) →
  is_Some (insert_rows tx rows t).
Proof.
  intros Hok. revert t. induction rows as [|[[h i] q] rows IH]; intros t Hn Ht; simpl; [done|].
  rewrite Hok. simpl. apply NoDup_cons in Hn as [Hh Hn].
  rewrite bool_decide_false by (rewrite Ht by (left; done); by intros [? ?]).
  apply IH; [done|]. intros k Hk. rewrite lookup_insert_ne by (intros <-; done). apply Ht. by right.
Qed.

Definition tx_ok (tx : TxOutcome) : Prop :=
  tx_begin tx = true ∧ tx_delete tx = true ∧ tx_prepare tx = true ∧
  (∀ h i, tx_insert tx h i = true) ∧ tx_commit tx = true.

Lemma flush_cases tx s db : FlushToDB tx s db = db ∨ FlushToDB tx s db = view s.
Proof.
  unfold FlushToDB. repeat (case_match; try by left). right.
  rename select (insert_rows _ _ _ = _) into HI. apply map_eq. intros [h i]. rewrite lookup_view.
  apply option_eq. intros p.
  rewrite (insert_rows_spec _ _ _ _ HI), lookup_empty, snapshot_rows_spec. split; [by intros [?|?]|by right].
Qed.

Lemma flush_ok tx s db : tx_ok tx → FlushToDB tx s db = view s.
Proof.
  intros (B & D & P & I & C). unfold FlushToDB. rewrite B, D, P, C. simpl.
  destruct (insert_rows_ok tx (snapshot_rows (Peers s)) ∅ I) as [t' H]; [apply snapshot_rows_keys|done|].
  rewrite H. apply map_eq. intros [h i]. rewrite lookup_view.
  apply option_eq. intros p.
  rewrite (insert_rows_spec _ _ _ _ H), lookup_empty, snapshot_rows_spec. split; [by intros [?|?]|by right].
Qed.

(** ** Reloading *)

(** The result set of the query of [LoadFromDB] on a table, in some order, with no failing row. *)
Definition result_set_of (t : peer_table) (rows : list (option (bytes * bytes * Peer))) : Prop :=
  ∃ l, l ≡ₚ map_to_list t ∧ rows = Some <$> l.

Lemma view_load_row s h i p : view (load_row s (Some (h, i, p))) = <[(h, i) := p]> (view s).
Proof.
  apply map_eq. intros [h' i']. rewrite lookup_insert, !lookup_view.
  change (load_row s _) with (UpdatePeer h i p s). rewrite GetPeer_update.
  case_bool_decide; case_decide; naive_solver.
Qed.

Lemma view_load s l :
  NoDup (fst <$> l) → (∀ k, k ∈ fst <$> l → view s !! k = None) →
  view (foldl load_row s (Some <$> l)) = list_to_map l ∪ view s.
Proof.
  revert s. induction l as [|[[h i] p] l IH]; intros s Hn Hs; [symmetry; apply (map_empty_union (M:=gmap (bytes * bytes)))|].
  apply NoDup_cons in Hn as [Hh Hn]. cbn [fmap list_fmap foldl fst] in *.
  rewrite IH; [|done|]; rewrite view_load_row.
  - cbn [list_to_map foldr fst snd uncurry].
    rewrite <- insert_union_l, <- insert_union_r; [done|]. by apply not_elem_of_list_to_map_1.
  - intros k Hk. rewrite lookup_insert_ne by (intros <-; done). apply Hs. by right.
Qed.

Lemma reload_view t rows ok s :
  result_set_of t rows → LoadFromDB (Some (rows, ok)) emptyState = (ok, s) → view s = t.
Proof.
  intros (l & Hl & ->) [= <-]. assert (NoDup (fst <$> l)) by (rewrite Hl; apply NoDup_fst_map_to_list).
  rewrite view_load; [|done|].
  - replace (view emptyState) with (∅ : gmap (bytes * bytes) Peer) by done. rewrite map_union_empty.
    rewrite <- (list_to_map_to_list t). by apply list_to_map_proper.
  - intros [h i] _. by rewrite lookup_view.
Qed.

(** ** Properties *)

(** C10. The nested peer map refines a single finite map from (info_hash, peer_id) to peers: adding a
    peer is an insertion, removing one a deletion, pruning keeps exactly the peers that announced in
    the last hour and leaves no empty swarm, and the usage deltas are never touched. *)
Theorem state_refines_map s hash id p now :
  view (UpdatePeer hash id p s) = <[(hash, id) := p]> (view s)
  ∧ view (RemovePeer hash id s) = delete (hash, id) (view s)
  ∧ view (PruneMemory now s) = filter (λ kv, now - 3600 ≤ UpdatedAt kv.2) (view s)
  ∧ (∀ h swarm, Peers (PruneMemory now s) !! h = Some swarm → swarm ≠ ∅)
  ∧ Users (UpdatePeer hash id p s) = Users s ∧ Users (RemovePeer hash id s) = Users s
  ∧ Users (PruneMemory now s) = Users s.
Proof.
  split; [apply (view_load_row s)|]. split; [|split; [|split; [|split; [|split]]]].
  - apply map_eq. intros [h i]. rewrite lookup_delete, !lookup_view, GetPeer_remove.
    case_bool_decide; case_decide; naive_solver.
  - apply map_eq. intros [h i]. rewrite map_lookup_filter, !lookup_view, GetPeer_prune.
    destruct (GetPeer s h i) as [q|]; simpl; [|done]. case_bool_decide; case_guard; simpl in *; done || lia.
  - apply prune_no_empty.
  - done.
  - unfold RemovePeer. by case_match.
  - done.
Qed.

(** C34. [GetPeers] answers with the addresses of distinct peers of the requested swarm, never the
    requester's own entry, and as many of them as the limit and the swarm allow (none for
    [numwant=0]), whatever order the runtime iterates in. *)
Theorem GetPeers_correct s order hash excludeID limit :
  iteration_of s order →
  ∃ sel, GetPeers s order hash excludeID limit = (λ kv, Addr kv.2) <$> sel
    ∧ NoDup (fst <$> sel)
    ∧ (∀ id p, (id, p) ∈ sel → id ≠ excludeID ∧ GetPeer s hash id = Some p)
    ∧ length sel = (Z.to_nat limit `min` size (delete excludeID (swarm_of s hash)))%nat.
Proof. apply GetPeers_spec. Qed.

Definition peer_a := mkPeer (str "10.0.0.1:6881") 1000 0 5 7.
Definition peer_b := mkPeer (str "10.0.0.2:6881") 900 42 5 7.
Definition state_ab :=
  UpdatePeer (str "h") (str "a") peer_a (UpdatePeer (str "h") (str "b") peer_b emptyState).
Definition default_order (s : SwarmState) (hash : bytes) : list (bytes * Peer) :=
  map_to_list (swarm_of s hash).

Lemma default_order_ok s : iteration_of s (default_order s).
Proof. intros hash swarm E. unfold default_order, swarm_of. by rewrite E. Qed.

Lemma GetPeers_correct_witness :
  GetPeers state_ab (default_order state_ab) (str "h") (str "a") 50 = [Addr peer_b] ∧
  ∃ sel, [Addr peer_b] = (λ kv, Addr kv.2) <$> sel
    ∧ NoDup (fst <$> sel)
    ∧ (∀ id p, (id, p) ∈ sel → id ≠ str "a" ∧ GetPeer state_ab (str "h") id = Some p)
    ∧ length sel = (Z.to_nat 50 `min` size (delete (str "a") (swarm_of state_ab (str "h"))))%nat.
Proof.
  split; [vm_compute; reflexivity|].
  exact (GetPeers_correct state_ab (default_order state_ab) (str "h") (str "a") 50 (default_order_ok _)).
Defined.

(** [GetCounts] partitions the swarm: the seeders are the peers with nothing left, the leechers
    all others, and together they are the whole swarm. *)
Theorem GetCounts_correct s hash :
  GetCounts s hash = (Z.of_nat (size (filter (λ kv, Left kv.2 = 0) (swarm_of s hash))),
                      Z.of_nat (size (filter (λ kv, Left kv.2 ≠ 0) (swarm_of s hash))))
  ∧ (GetCounts s hash).1 + (GetCounts s hash).2 = Z.of_nat (size (swarm_of s hash)).
Proof.
  unfold GetCounts. fold (swarm_of s hash). rewrite count_fold. split; [done|]. simpl.
  rewrite <- Nat2Z.inj_add. f_equal.
  rewrite <- (map_filter_union_complement (λ kv : bytes * Peer, Left kv.2 = 0) (swarm_of s hash)) at 3.
  rewrite map_size_disj_union by apply map_disjoint_filter_complement. done.
Qed.

(** C11. The flush is atomic: whatever call of the transaction fails, the table is either untouched or
    exactly the in-memory state; and with no failure a restart from the flushed table restores every
    peer and every swarm's seeder and leecher counts. *)
Theorem flush_reload s tx db rows s' :
  result_set_of (FlushToDB tx s db) rows → LoadFromDB (Some (rows, true)) emptyState = (true, s') →
  (FlushToDB tx s db = db ∨ FlushToDB tx s db = view s) ∧
  (tx_ok tx → ∀ hash, (∀ id, GetPeer s' hash id = GetPeer s hash id) ∧ GetCounts s' hash = GetCounts s hash).
Proof.
  intros Hr Hl. split; [apply flush_cases|]. intros Hok hash.
  apply (reload_view _ _ _ _ Hr) in Hl. rewrite flush_ok in Hl by done. split.
  - intros id. by rewrite <- !lookup_view, Hl.
  - unfold GetCounts. fold (swarm_of s hash) (swarm_of s' hash). by rewrite (swarm_of_view s' s).
Qed.

Definition tx_all_ok : TxOutcome := mkTx true true true (λ _ _, true) true.
Definition rows_ab := Some <$> map_to_list (FlushToDB tx_all_ok state_ab ∅).

Lemma flush_reload_witness :
  tx_ok tx_all_ok ∧
  GetCounts (snd (LoadFromDB (Some (rows_ab, true)) emptyState)) (str "h") = (1, 1) ∧
  GetCounts (snd (LoadFromDB (Some (rows_ab, true)) emptyState)) (str "h") = GetCounts state_ab (str "h").
Proof.
  assert (Hok : tx_ok tx_all_ok) by (repeat split).
  split; [exact Hok|]. split; [vm_compute; reflexivity|].
  assert (Hr : result_set_of (FlushToDB tx_all_ok state_ab ∅) rows_ab) by (eexists; split; reflexivity).
  exact (proj2 (proj2 (flush_reload state_ab tx_all_ok ∅ rows_ab _ Hr eq_refl) Hok (str "h"))).
Defined.
