(* ===== verification/UsageSync.v ===== *)
(** * Package [tracker]: usage accounting between RAM, SQLite and the Hub

    Models the part of [internal/tracker/state.go] that moves per-user usage deltas out of memory:
    [FlushUsers], [backupUsageToDB] and [DrainBacklog].  They release the state's lock while an HTTP
    request is in flight, so announces run in between; the protocol is a step relation over the
    shared state, the backlog table and the program counter of the one goroutine that flushes and
    drains ([cmd/tracker/main.go] runs both from a single ticker loop and waits for it to stop
    before the final flush).  Three ghost logs state the conservation theorem: the usage tracked, the
    batches the Hub applied, and what two failures leave to be reported again, the reply that is lost
    after the Hub applied the batch (docs/USAGE_SYNC_SPEC.md, section 4) and the backlog row whose
    [DELETE] fails, an error the code ignores. *)

From S2P Require Import Prelude TrackerState.
From Stdlib Require Import ZArith Lia.
Local Open Scope Z_scope.

(** ** The backlog table *)

Record BacklogRow := mkRow {
  rowid : Z;
  row_user : bytes;
  row_usage : UserUsage;
  created_at : Z;
}.

#[export] Instance row_eq_decision : EqDecision BacklogRow.
Proof. solve_decision. Defined.

(** The rowid SQLite gives a new row of a table without AUTOINCREMENT: one more than the largest. *)
Definition next_rowid (t : list BacklogRow) : Z := 1 + foldr (λ r m, Z.max (rowid r) m) 0 t.

Record BackupOutcome := mkBackup {
  bk_begin : bool;
  bk_prepare : bool;
  bk_insert : bytes → bool;
  bk_commit : bool;
}.

Fixpoint backup_rows (o : BackupOutcome) (now : Z) (usage : list (bytes * UserUsage)) (t : list BacklogRow)
  : option (list BacklogRow) :=
  match usage with
  | [] => Some t
  | (id, u) :: rest =>
      if bk_insert o id then backup_rows o now rest (t ++ [mkRow (next_rowid t) id u now]) else None
  end.

(** [backupUsageToDB]: [None] is an error (the transaction is rolled back), [Some t'] the table after
    the commit; [usage] lists the batch in iteration order. *)
Definition backupUsageToDB (o : BackupOutcome) (now : Z) (usage : list (bytes * UserUsage)) (t : list BacklogRow)
  : option (list BacklogRow) :=
  if negb (bk_begin o) then None else
  if negb (bk_prepare o) then None else
  match backup_rows o now usage t with
  | None => None
  | Some t' => if bk_commit o then Some t' else None
  end.

(** ** FlushUsers *)

Abbreviation batch := (gmap bytes UserUsage).

(** Up to the release of the read lock: the batch to send, [None] on the two early returns. *)
Definition flush_snapshot (hubURL : bytes) (s : SwarmState) : option batch :=
  if bool_decide (Users s = ∅) then None else
  if bool_decide (hubURL = []) then None else
  Some (Users s).

(** What [postUsageSync] returns: an error, or the status code of the response. *)
Inductive HubReply :=
| HubErr
| HubStatus (code : Z).

#[export] Instance reply_eq_decision : EqDecision HubReply.
Proof. solve_decision. Defined.

Definition StatusOK : Z := 200.

(** Between the reply and the write lock: [None] when the function returns with the deltas still in
    RAM, [Some t'] when it goes on to subtract the batch, with the backlog it leaves. *)
Definition after_reply (r : HubReply) (o : BackupOutcome) (now : Z) (usage : list (bytes * UserUsage))
    (t : list BacklogRow) : option (list BacklogRow) :=
  match r with
  | HubErr => None
  | HubStatus code => if bool_decide (code ≠ StatusOK) then backupUsageToDB o now usage t else Some t
  end.

(** [live.Uploaded -= sent.Uploaded; ...], and the entry goes when both reach zero. *)
Definition subtract_one (users : gmap bytes UserUsage) (kv : bytes * UserUsage) : gmap bytes UserUsage :=
  let '(id, sent) := kv in
  match users !! id with
  | None => users
  | Some live =>
      let live' := mkUsage (wrap64 (UUploaded live - UUploaded sent))
                           (wrap64 (UDownloaded live - UDownloaded sent)) in
      if bool_decide (UUploaded live' = 0 ∧ UDownloaded live' = 0)
      then delete id users else <[id := live']> users
  end.

Definition subtract_sent (usage : list (bytes * UserUsage)) (s : SwarmState) : SwarmState :=
  mkState (Peers s) (foldl subtract_one (Users s) usage).

(** ** DrainBacklog *)

(** [SELECT ... ORDER BY created_at ASC LIMIT 100]: the oldest hundred rows, rows of equal age in any
    order; a row on which [rows.Scan] fails is skipped. *)
Definition oldest_rows (t recs : list BacklogRow) : Prop :=
  ∃ l, l ≡ₚ t ∧ StronglySorted (λ a b, created_at a ≤ created_at b) l ∧ recs `sublist_of` take 100 l.

(** The payload accumulates rows of the same user. *)
Definition drain_payload (recs : list BacklogRow) : batch :=
  foldl (λ m r, let e := default (mkUsage 0 0) (m !! row_user r) in
                <[row_user r := addUsage e (UUploaded (row_usage r)) (UDownloaded (row_usage r))]> m)
        ∅ recs.

(** [DELETE FROM usage_backlog WHERE rowid = ?] *)
Definition delete_row (id : Z) (t : list BacklogRow) : list BacklogRow := filter (λ r, rowid r ≠ id) t.

(** ** The system *)

Inductive Pc :=
| Idle
| FlushPosted (sent : batch)                (* the flush request is in flight, no lock held *)
| FlushSettled (sent : batch)               (* acknowledged or backed up; about to take the lock *)
| DrainPosted (recs : list BacklogRow)      (* the drain request is in flight *)
| DrainDelete (recs : list BacklogRow).     (* acknowledged; rows still to delete *)

Record Sys := mkSys {
  st : SwarmState;
  backlog : list BacklogRow;
  pc : Pc;
  tracked : list (bytes * UserUsage);       (* ghost: every TrackUsage call *)
  acked : list batch;                       (* ghost: every batch the Hub applied *)
  repeats : list (bytes * UserUsage);       (* ghost: what the Hub applied and the tracker still keeps to report *)
}.

Definition init_sys : Sys := mkSys emptyState [] Idle [] [] [].

(** The Hub applies a batch when it answers 200; when it answers otherwise or its reply is lost it may
    have applied the batch ([lost]), and the tracker, which does not know, keeps it. *)
Definition hub_log (r : HubReply) (lost : bool) (b : batch) (ac : list batch) : list batch :=
  if bool_decide (r = HubStatus StatusOK) || lost then b :: ac else ac.
Definition repeat_log (r : HubReply) (lost : bool) (l rp : list (bytes * UserUsage)) : list (bytes * UserUsage) :=
  if negb (bool_decide (r = HubStatus StatusOK)) && lost then l ++ rp else rp.
Definition row_entry (r : BacklogRow) : bytes * UserUsage := (row_user r, row_usage r).

Inductive step (hubURL : bytes) : Sys → Sys → Prop :=
| step_track user up down σ :
    step hubURL σ (mkSys (TrackUsage user up down (st σ)) (backlog σ) (pc σ) ((user, mkUsage up down) :: tracked σ) (acked σ) (repeats σ))
| step_other s' σ :
    (* any operation on the peers *)
    Users s' = Users (st σ) →
    step hubURL σ (mkSys s' (backlog σ) (pc σ) (tracked σ) (acked σ) (repeats σ))
| step_flush_post sent s t tr ac rp :
    flush_snapshot hubURL s = Some sent →
    step hubURL (mkSys s t Idle tr ac rp) (mkSys s t (FlushPosted sent) tr ac rp)
| step_flush_hold r lost o now usage sent s t tr ac rp :
    usage ≡ₚ map_to_list sent → after_reply r o now usage t = None →
    step hubURL (mkSys s t (FlushPosted sent) tr ac rp)
      (mkSys s t Idle tr (hub_log r lost sent ac) (repeat_log r lost usage rp))
| step_flush_settle r lost o now usage t' sent s t tr ac rp :
    usage ≡ₚ map_to_list sent → after_reply r o now usage t = Some t' →
    step hubURL (mkSys s t (FlushPosted sent) tr ac rp)
      (mkSys s t' (FlushSettled sent) tr (hub_log r lost sent ac) (repeat_log r lost usage rp))
| step_flush_subtract usage sent s t tr ac rp :
    usage ≡ₚ map_to_list sent →
    step hubURL (mkSys s t (FlushSettled sent) tr ac rp) (mkSys (subtract_sent usage s) t Idle tr ac rp)
| step_drain_post recs s t tr ac rp :
    hubURL ≠ [] → oldest_rows t recs → recs ≠ [] →
    step hubURL (mkSys s t Idle tr ac rp) (mkSys s t (DrainPosted recs) tr ac rp)
| step_drain_hold r lost recs s t tr ac rp :
    r ≠ HubStatus StatusOK →
    step hubURL (mkSys s t (DrainPosted recs) tr ac rp)
      (mkSys s t Idle tr (hub_log r lost (drain_payload recs) ac) (repeat_log r lost (row_entry <$> recs) rp))
| step_drain_acked recs s t tr ac rp :
    step hubURL (mkSys s t (DrainPosted recs) tr ac rp) (mkSys s t (DrainDelete recs) tr (drain_payload recs :: ac) rp)
| step_drain_delete r recs s t tr ac rp :
    step hubURL (mkSys s t (DrainDelete (r :: recs)) tr ac rp) (mkSys s (delete_row (rowid r) t) (DrainDelete recs) tr ac rp)
| step_drain_delete_failed r recs s t tr ac rp :
    (* the error is ignored and the row stays *)
    step hubURL (mkSys s t (DrainDelete (r :: recs)) tr ac rp) (mkSys s t (DrainDelete recs) tr ac (row_entry r :: rp))
| step_drain_done s t tr ac rp :
    step hubURL (mkSys s t (DrainDelete []) tr ac rp) (mkSys s t Idle tr ac rp).

Definition reachable (hubURL : bytes) (σ : Sys) : Prop := rtc (step hubURL) init_sys σ.

(** ** Accounting *)

(** The two counters are accounted for separately and alike. *)
Inductive counter := Up | Down.
Definition amount (c : counter) (u : UserUsage) : Z :=
  match c with Up => UUploaded u | Down => UDownloaded u end.

Definition usage_of (c : counter) (m : gmap bytes UserUsage) (user : bytes) : Z :=
  from_option (amount c) 0 (m !! user).

Definition sum_for (c : counter) (user : bytes) (l : list (bytes * UserUsage)) : Z :=
  foldr (λ kv acc, (if bool_decide (kv.1 = user) then amount c kv.2 else 0) + acc) 0 l.
Definition backlog_total (c : counter) (user : bytes) (t : list BacklogRow) : Z :=
  sum_for c user (row_entry <$> t).
Definition acked_total (c : counter) (user : bytes) (l : list batch) : Z :=
  foldr (λ m acc, usage_of c m user + acc) 0 l.

(** Usage counted twice for the moment: settled but not yet subtracted, acknowledged but not yet
    deleted. *)
Definition in_transit (c : counter) (user : bytes) (p : Pc) : Z :=
  match p with
  | FlushSettled sent => usage_of c sent user
  | DrainDelete recs => backlog_total c user recs
  | _ => 0
  end.

Definition conserved (σ : Sys) : Prop := ∀ c user,
  usage_of c (Users (st σ)) user + backlog_total c user (backlog σ) + acked_total c user (acked σ)
  ≡₆₄ sum_for c user (tracked σ) + in_transit c user (pc σ) + sum_for c user (repeats σ).

(** The two ways a step can leave usage the Hub has applied to be reported again: the reply to [posted],
    in flight, is lost or is not a 200 though the Hub applied it; a deletion fails. *)
Inductive repeat_cause (σ σ' : Sys) : list (bytes * UserUsage) → Prop :=
| lost_flush sent usage : pc σ = FlushPosted sent → usage ≡ₚ map_to_list sent → acked σ' = sent :: acked σ →
    repeat_cause σ σ' usage
| lost_drain recs : pc σ = DrainPosted recs → acked σ' = drain_payload recs :: acked σ → backlog σ' = backlog σ →
    repeat_cause σ σ' (row_entry <$> recs)
| undeleted r recs : pc σ = DrainDelete (r :: recs) → pc σ' = DrainDelete recs → backlog σ' = backlog σ →
    repeat_cause σ σ' [row_entry r].

(** ** Lemmas: sums *)

Implicit Types (c : counter) (user : bytes) (l : list (bytes * UserUsage)).

Lemma backlog_total_cons c user r (t : list BacklogRow) :
  backlog_total c user (r :: t)
  = (if bool_decide (row_user r = user) then amount c (row_usage r) else 0) + backlog_total c user t.
Proof. reflexivity. Qed.

Lemma sum_for_app c user l k : sum_for c user (l ++ k) = sum_for c user l + sum_for c user k.
Proof. induction l as [|kv l IH]; simpl; [done|]. rewrite IH. lia. Qed.

#[export] Instance sum_for_perm c user : Proper (Permutation ==> eq) (sum_for c user).
Proof. induction 1; simpl; lia. Qed.

Lemma sum_for_notin c user l : user ∉ fst <$> l → sum_for c user l = 0.
Proof.
  induction l as [|[k u] l IH]; simpl; [done|]. rewrite not_elem_of_cons. intros [Hk Hl].
  rewrite bool_decide_false by auto. rewrite IH by done. done.
Qed.

Lemma sum_for_batch c user (m : batch) l : l ≡ₚ map_to_list m → sum_for c user l = usage_of c m user.
Proof.
  intros ->. unfold usage_of. destruct (m !! user) as [u|] eqn:E; simpl.
  - rewrite <- (map_to_list_delete m user u E). simpl. rewrite bool_decide_true by done.
    rewrite sum_for_notin; [lia|]. intros ([k v] & -> & H)%list_elem_of_fmap.
    apply elem_of_map_to_list, lookup_delete_Some in H as [H _]. done.
  - apply sum_for_notin. intros ([k v] & -> & H)%list_elem_of_fmap.
    apply elem_of_map_to_list in H. simpl in E. congruence.
Qed.

(** ** Lemmas: the operations *)

Lemma usage_of_insert c m k u user :
  usage_of c (<[k := u]> m) user = if bool_decide (k = user) then amount c u else usage_of c m user.
Proof.
  unfold usage_of. rewrite lookup_insert. case_decide; case_bool_decide; simplify_eq; try done.
Qed.

Lemma amount_add c u up down : amount c (addUsage u up down) ≡₆₄ amount c u + amount c (mkUsage up down).
Proof. destruct c; apply eqm_wrap. Qed.

Lemma usage_of_default c m user : amount c (default (mkUsage 0 0) (m !! user)) = usage_of c m user.
Proof. unfold usage_of. destruct (m !! user); simpl; [done|]. by destruct c. Qed.

Lemma usage_of_track c k up down s user :
  usage_of c (Users (TrackUsage k up down s)) user
  ≡₆₄ usage_of c (Users s) user + (if bool_decide (k = user) then amount c (mkUsage up down) else 0).
Proof.
  simpl. rewrite usage_of_insert. case_bool_decide as E.
  - subst k. rewrite amount_add, usage_of_default. done.
  - by rewrite Z.add_0_r.
Qed.

Lemma usage_of_subtract_one c users k sent user :
  is_Some (users !! k) →
  usage_of c (subtract_one users (k, sent)) user
  ≡₆₄ usage_of c users user - (if bool_decide (k = user) then amount c sent else 0).
Proof.
  intros [live E]. unfold subtract_one. rewrite E. case_bool_decide as Hz.
  - unfold usage_of. destruct (decide (k = user)) as [->|Hk].
    + rewrite lookup_delete_eq, bool_decide_true, E by done. simpl in *. destruct Hz as [H1 H2].
      destruct c; simpl; [rewrite <- H1|rewrite <- H2]; apply eqm_wrap.
    + rewrite lookup_delete_ne, bool_decide_false, Z.sub_0_r by done. done.
  - rewrite usage_of_insert. case_bool_decide as Hk; [|by rewrite Z.sub_0_r].
    subst k. unfold usage_of. rewrite E. destruct c; apply eqm_wrap.
Qed.

Lemma subtract_one_dom users k sent j : j ≠ k → is_Some (users !! j) → is_Some (subtract_one users (k, sent) !! j).
Proof.
  intros Hj H. unfold subtract_one. destruct (users !! k); [|done].
  case_bool_decide; [by rewrite lookup_delete_ne|by rewrite lookup_insert_ne].
Qed.

Lemma usage_of_subtract c l users user :
  NoDup (fst <$> l) → (∀ k, k ∈ fst <$> l → is_Some (users !! k)) →
  usage_of c (foldl subtract_one users l) user ≡₆₄ usage_of c users user - sum_for c user l.
Proof.
  revert users. induction l as [|[k sent] l IH]; intros users Hn Hd; cbn [foldl].
  - by rewrite Z.sub_0_r.
  - cbn [fmap list_fmap fst] in *. apply NoDup_cons in Hn as [Hk Hn]. rewrite IH; [|done|].
    + rewrite usage_of_subtract_one by (apply Hd; left). apply eqm_of_eq. simpl. lia.
    + intros j Hj. apply subtract_one_dom; [by intros ->|]. apply Hd. by right.
Qed.

(** A batch that is all there is leaves nothing. *)
Lemma subtract_all l s : l ≡ₚ map_to_list (Users s) → Users (subtract_sent l s) = ∅.
Proof.
  intros H. assert (N : NoDup (fst <$> l)) by (rewrite H; apply NoDup_fst_map_to_list).
  assert (E : Users s = list_to_map l) by (rewrite <- (list_to_map_to_list (Users s)); symmetry; by apply list_to_map_proper).
  cbn [subtract_sent Users]. rewrite E. clear E H. induction l as [|[k u] l IH]; [done|].
  cbn [fmap list_fmap fst] in N. apply NoDup_cons in N as [Hk N]. rewrite list_to_map_cons. cbn [foldl]. unfold subtract_one at 2.
  rewrite lookup_insert_eq, !Z.sub_diag, bool_decide_true by done. cbn [snd].
  rewrite delete_insert_id; [by apply IH|]. by apply not_elem_of_list_to_map.
Qed.

Lemma subtract_empty l s : Users s = ∅ → Users (subtract_sent l s) = ∅.
Proof. cbn [subtract_sent Users]. intros ->. induction l as [|[k u] l IH]; [done|]. exact IH. Qed.

Lemma next_rowid_gt t r : r ∈ t → rowid r < next_rowid t.
Proof.
  unfold next_rowid. induction t as [|r' t IH]; [by intros ?%elem_of_nil|].
  intros [->|H]%elem_of_cons; simpl; [lia|]. specialize (IH H). lia.
Qed.

Lemma backup_rows_spec o now usage t t' :
  backup_rows o now usage t = Some t' → NoDup (rowid <$> t) →
  NoDup (rowid <$> t') ∧ ∃ rows, t' = t ++ rows ∧ row_entry <$> rows = usage.
Proof.
  revert t. induction usage as [|[id u] usage IH]; intros t H Hn; simpl in H.
  - simplify_eq. split; [done|]. exists []. by rewrite app_nil_r.
  - destruct (bk_insert o id); [|done]. apply IH in H as [H (rows & -> & E)].
    + split; [done|]. exists (mkRow (next_rowid t) id u now :: rows). rewrite <- app_assoc. split; [done|].
      cbn [fmap list_fmap]. by rewrite <- E.
    + rewrite fmap_app. apply NoDup_app. split; [done|]. split; [|by apply NoDup_singleton].
      intros i (r & -> & Hr)%list_elem_of_fmap Hi%list_elem_of_singleton. simpl in Hi.
      apply next_rowid_gt in Hr. lia.
Qed.

Lemma backup_spec o now usage t t' :
  backupUsageToDB o now usage t = Some t' → NoDup (rowid <$> t) →
  NoDup (rowid <$> t') ∧ ∃ rows, t' = t ++ rows ∧ row_entry <$> rows = usage.
Proof. unfold backupUsageToDB. intros H. repeat case_match; try done. simplify_eq. by eapply backup_rows_spec. Qed.

Lemma usage_of_drain c (recs : list BacklogRow) user (m : batch) :
  usage_of c (foldl (λ (m : batch) r, let e := default (mkUsage 0 0) (m !! row_user r) in
     <[row_user r := addUsage e (UUploaded (row_usage r)) (UDownloaded (row_usage r))]> m) m recs) user
  ≡₆₄ usage_of c m user + backlog_total c user recs.
Proof.
  revert m. induction recs as [|r recs IH]; intros m; cbn [foldl].
  - apply eqm_of_eq. unfold backlog_total. simpl. lia.
  - rewrite IH, usage_of_insert. rewrite backlog_total_cons. case_bool_decide as E.
    + rewrite amount_add, usage_of_default, E. apply eqm_of_eq.
      replace (amount c (mkUsage _ _)) with (amount c (row_usage r)) by (by destruct c). lia.
    + apply eqm_of_eq. lia.
Qed.

Lemma delete_row_total c user t r :
  NoDup (rowid <$> t) → r ∈ t →
  backlog_total c user t
  = (if bool_decide (row_user r = user) then amount c (row_usage r) else 0)
    + backlog_total c user (delete_row (rowid r) t).
Proof.
  unfold delete_row. induction t as [|r' t IH]; [by intros _ ?%elem_of_nil|].
  cbn [fmap list_fmap]. intros [Hr' Hn]%NoDup_cons [->|H]%elem_of_cons.
  - rewrite filter_cons_False by (intros []; done). rewrite filter_all; [apply backlog_total_cons|].
    apply Forall_forall. intros x Hx E. apply Hr'. rewrite <- E. by apply list_elem_of_fmap_2.
  - assert (rowid r' ≠ rowid r) as Ne by (intros E; apply Hr'; rewrite E; by apply list_elem_of_fmap_2).
    rewrite filter_cons_True by exact Ne.
    rewrite !backlog_total_cons, (IH Hn H). lia.
Qed.

Lemma delete_row_rowids id t : NoDup (rowid <$> t) → NoDup (rowid <$> delete_row id t).
Proof.
  unfold delete_row. induction t as [|r t IH]; [done|]. cbn [fmap list_fmap]. intros [Hr Hn]%NoDup_cons.
  rewrite filter_cons. case_decide; [|by apply IH]. cbn. apply NoDup_cons. split; [|by apply IH].
  intros (x & E & [_ Hx]%list_elem_of_filter)%list_elem_of_fmap. apply Hr. rewrite E.
  by apply list_elem_of_fmap_2.
Qed.

(** ** The invariant *)

Definition pc_inv (σ : Sys) : Prop :=
  match pc σ with
  | FlushPosted sent | FlushSettled sent => ∀ k, is_Some (sent !! k) → is_Some (Users (st σ) !! k)
  | DrainPosted recs | DrainDelete recs =>
      NoDup (rowid <$> recs) ∧ (∀ r, r ∈ recs → r ∈ backlog σ)
  | Idle => True
  end.

Definition inv (σ : Sys) : Prop := NoDup (rowid <$> backlog σ) ∧ pc_inv σ ∧ conserved σ.

Lemma acked_total_cons c user (m : batch) ac : acked_total c user (m :: ac) = usage_of c m user + acked_total c user ac.
Proof. reflexivity. Qed.

Lemma track_users_dom k up down s j :
  is_Some (Users s !! j) → is_Some (Users (TrackUsage k up down s) !! j).
Proof. simpl. rewrite lookup_insert. case_decide; [by eexists|done]. Qed.

Lemma oldest_rows_inv t recs :
  oldest_rows t recs → NoDup (rowid <$> t) → NoDup (rowid <$> recs) ∧ ∀ r, r ∈ recs → r ∈ t.
Proof.
  intros (l & Hl & _ & Hr) Hn. split.
  - eapply sublist_NoDup; [|by apply fmap_sublist]. rewrite fmap_take. apply NoDup_take. by rewrite Hl.
  - intros r H. rewrite <- Hl. eapply elem_of_take, elem_of_sublist; [exact H|exact Hr].
Qed.

Lemma eqm_by a b a' b' : a ≡₆₄ b → a' - a = b' - b → a' ≡₆₄ b'.
Proof. intros H E. replace a' with (a + (b' - b)) by lia. replace b' with (b + (b' - b)) at 2 by lia. by rewrite H. Qed.

Lemma eqm_by2 a b d e a' b' : a ≡₆₄ b → d ≡₆₄ e → a' - a - d = b' - b - e → a' ≡₆₄ b'.
Proof. intros H K E. apply (eqm_by (a + d) (b + e)); [by rewrite H, K|lia]. Qed.

(** A batch the Hub applies without answering 200 is logged on both sides. *)
Lemma logs_balance c user r lost b l ac rp : sum_for c user l ≡₆₄ usage_of c b user →
  acked_total c user (hub_log r lost b ac) - sum_for c user (repeat_log r lost l rp)
  ≡₆₄ acked_total c user ac - sum_for c user rp + (if bool_decide (r = HubStatus StatusOK) then usage_of c b user else 0).
Proof.
  intros H. unfold hub_log, repeat_log. case_bool_decide; destruct lost; cbn [negb orb andb];
    rewrite ?acked_total_cons, ?sum_for_app, ?H; apply eqm_of_eq; lia.
Qed.

Lemma logs_balance_ne c user r lost b l ac rp : r ≠ HubStatus StatusOK → sum_for c user l ≡₆₄ usage_of c b user →
  acked_total c user (hub_log r lost b ac) - sum_for c user (repeat_log r lost l rp) ≡₆₄ acked_total c user ac - sum_for c user rp.
Proof. intros Hr H. rewrite (logs_balance c user r lost b l ac rp H), bool_decide_false by done. apply eqm_of_eq. lia. Qed.

Lemma drain_payload_total c user (recs : list BacklogRow) : sum_for c user (row_entry <$> recs) ≡₆₄ usage_of c (drain_payload recs) user.
Proof. unfold drain_payload. rewrite usage_of_drain. by apply eqm_of_eq. Qed.

Lemma after_reply_none r o now usage t : after_reply r o now usage t = None → r ≠ HubStatus StatusOK.
Proof. intros H ->. unfold after_reply in H. by rewrite bool_decide_false in H by auto. Qed.

Lemma after_reply_some r o now usage t t' : after_reply r o now usage t = Some t' → NoDup (rowid <$> t) →
  NoDup (rowid <$> t') ∧ ∀ c user, backlog_total c user t' + (if bool_decide (r = HubStatus StatusOK) then sum_for c user usage else 0)
    = backlog_total c user t + sum_for c user usage.
Proof.
  unfold after_reply. destruct r as [|code]; [done|]. intros H Hn.
  replace (bool_decide (HubStatus code = HubStatus StatusOK)) with (bool_decide (code = StatusOK))
    by (apply bool_decide_ext; split; congruence).
  destruct (decide (code = StatusOK)) as [E|E].
  - rewrite bool_decide_false in H by auto. simplify_eq. by rewrite bool_decide_true.
  - rewrite bool_decide_true in H by done. rewrite bool_decide_false by done.
    destruct (backup_spec _ _ _ _ _ H Hn) as [Hn' (rows & -> & Er)]. split; [done|]. intros c v.
    unfold backlog_total. rewrite fmap_app, sum_for_app, Er. lia.
Qed.

Lemma inv_track user up down σ :
  inv σ → inv (mkSys (TrackUsage user up down (st σ)) (backlog σ) (pc σ) ((user, mkUsage up down) :: tracked σ) (acked σ) (repeats σ)).
Proof.
  intros (Hn & Hp & Hc). split; [done|]. split.
  - unfold pc_inv in *. cbn [pc st backlog] in *. destruct (pc σ); try done; intros k Hk; by apply track_users_dom, Hp.
  - intros c v. cbn [st backlog pc tracked acked repeats]. apply (eqm_by2 _ _ _ _ _ _ (Hc c v) (usage_of_track c user up down (st σ) v)). simpl. lia.
Qed.

Lemma inv_hold r lost o now usage sent s t tr ac rp :
  usage ≡ₚ map_to_list sent → after_reply r o now usage t = None →
  inv (mkSys s t (FlushPosted sent) tr ac rp) → inv (mkSys s t Idle tr (hub_log r lost sent ac) (repeat_log r lost usage rp)).
Proof.
  intros Hu Ha%after_reply_none (Hn & Hp & Hc). split; [done|]. split; [done|]. intros c v.
  pose proof (logs_balance_ne c v r lost sent usage ac rp Ha (eqm_of_eq _ _ (sum_for_batch c v sent usage Hu))) as B.
  apply (eqm_by2 _ _ _ _ _ _ (Hc c v) B). simpl. lia.
Qed.

Lemma inv_settle r lost o now usage t' sent s t tr ac rp :
  usage ≡ₚ map_to_list sent → after_reply r o now usage t = Some t' →
  inv (mkSys s t (FlushPosted sent) tr ac rp) →
  inv (mkSys s t' (FlushSettled sent) tr (hub_log r lost sent ac) (repeat_log r lost usage rp)).
Proof.
  intros Hu Ha (Hn & Hp & Hc). destruct (after_reply_some _ _ _ _ _ _ Ha Hn) as [Hn' Hb].
  split; [done|]. split; [exact Hp|]. intros c v. specialize (Hb c v). rewrite (sum_for_batch c v sent usage Hu) in Hb.
  pose proof (logs_balance c v r lost sent usage ac rp (eqm_of_eq _ _ (sum_for_batch c v sent usage Hu))) as B.
  apply (eqm_by2 _ _ _ _ _ _ (Hc c v) B). simpl. lia.
Qed.

Lemma inv_subtract usage sent s t tr ac rp :
  usage ≡ₚ map_to_list sent →
  inv (mkSys s t (FlushSettled sent) tr ac rp) → inv (mkSys (subtract_sent usage s) t Idle tr ac rp).
Proof.
  intros Hu (Hn & Hp & Hc). split; [done|]. split; [done|]. intros c v.
  assert (B : usage_of c (Users (subtract_sent usage s)) v ≡₆₄ usage_of c (Users s) v - sum_for c v usage).
  { apply usage_of_subtract; [rewrite Hu; apply NoDup_fst_map_to_list|].
    intros k ([k' u] & -> & Hx)%list_elem_of_fmap. rewrite Hu in Hx. apply elem_of_map_to_list in Hx. apply Hp. by eexists. }
  rewrite (sum_for_batch c v sent usage Hu) in B. apply (eqm_by2 _ _ _ _ _ _ (Hc c v) B). simpl. lia.
Qed.

Lemma inv_delete r recs s t tr ac rp :
  inv (mkSys s t (DrainDelete (r :: recs)) tr ac rp) →
  inv (mkSys s (delete_row (rowid r) t) (DrainDelete recs) tr ac rp).
Proof.
  intros (Hn & [Hr Hin] & Hc). unfold pc_inv in *. cbn [st backlog pc tracked acked] in *.
  cbn [fmap list_fmap] in Hr. apply NoDup_cons in Hr as [Hr Hrs].
  split; [by apply delete_row_rowids|]. split.
  - split; [done|]. intros x Hx. apply list_elem_of_filter. split; [|apply Hin; by right].
    intros E. apply Hr. rewrite <- E. by apply list_elem_of_fmap_2.
  - intros c v. pose proof (delete_row_total c v t r Hn (Hin r (list_elem_of_here r recs))) as D.
    apply (eqm_by _ _ _ _ (Hc c v)). cbn [st backlog pc tracked acked repeats in_transit]. rewrite backlog_total_cons. lia.
Qed.

Lemma inv_delete_failed r recs s t tr ac rp :
  inv (mkSys s t (DrainDelete (r :: recs)) tr ac rp) → inv (mkSys s t (DrainDelete recs) tr ac (row_entry r :: rp)).
Proof.
  intros (Hn & [Hr Hin] & Hc). split; [done|]. unfold pc_inv in *. cbn [st backlog pc tracked acked] in *.
  cbn [fmap list_fmap] in Hr. apply NoDup_cons in Hr as [_ Hrs]. split; [split; [done|]; intros x Hx; apply Hin; by right|].
  intros c v. apply (eqm_by _ _ _ _ (Hc c v)). cbn [st backlog pc tracked acked repeats in_transit]. rewrite backlog_total_cons. simpl. lia.
Qed.

Lemma inv_drain_hold r lost recs s t tr ac rp : r ≠ HubStatus StatusOK → inv (mkSys s t (DrainPosted recs) tr ac rp) →
  inv (mkSys s t Idle tr (hub_log r lost (drain_payload recs) ac) (repeat_log r lost (row_entry <$> recs) rp)).
Proof.
  intros Hr (Hn & Hp & Hc). split; [done|]. split; [done|]. intros c v.
  pose proof (logs_balance_ne c v r lost _ _ ac rp Hr (drain_payload_total c v recs)) as B.
  apply (eqm_by2 _ _ _ _ _ _ (Hc c v) B). simpl. lia.
Qed.

Lemma inv_drain_acked recs s t tr ac rp :
  inv (mkSys s t (DrainPosted recs) tr ac rp) → inv (mkSys s t (DrainDelete recs) tr (drain_payload recs :: ac) rp).
Proof.
  intros (Hn & Hp & Hc). split; [done|]. split; [exact Hp|]. intros c v.
  apply (eqm_by2 _ _ _ _ _ _ (Hc c v) (symmetry (drain_payload_total c v recs))). cbn [st backlog pc tracked acked repeats in_transit].
  rewrite acked_total_cons. unfold backlog_total. lia.
Qed.

(** The steps that move no usage: the users, the backlog and the logs stay. *)
Lemma inv_frame s s' t p p' tr ac rp : Users s' = Users s → (∀ c v, in_transit c v p' = in_transit c v p) →
  pc_inv (mkSys s' t p' tr ac rp) → inv (mkSys s t p tr ac rp) → inv (mkSys s' t p' tr ac rp).
Proof.
  intros Hs Ht Hp (Hn & _ & Hc). split; [done|]. split; [done|]. intros c v. apply (eqm_by _ _ _ _ (Hc c v)).
  cbn [st backlog pc tracked acked repeats]. rewrite Hs, Ht. lia.
Qed.

Lemma inv_step hub σ σ' : step hub σ σ' → inv σ → inv σ'.
Proof.
  destruct 1 as [user up down σ|s' σ Hs|sent s t tr ac rp Hf|r lost o now usage sent s t tr ac rp Hu Ha
    |r lost o now usage t' sent s t tr ac rp Hu Ha|usage sent s t tr ac rp Hu|recs s t tr ac rp Hh Ho Hne
    |r lost recs s t tr ac rp Hr|recs s t tr ac rp|r recs s t tr ac rp|r recs s t tr ac rp|s t tr ac rp]; intros Hi;
    [by apply inv_track| | |by eapply inv_hold|by eapply inv_settle|by eapply inv_subtract| |by apply inv_drain_hold
    |by apply inv_drain_acked|by apply inv_delete|by apply inv_delete_failed|].
  - destruct σ as [s t p tr ac rp]. apply (inv_frame s s' t p p); [done..| |exact Hi]. destruct Hi as (_ & Hp & _).
    unfold pc_inv in *. cbn [pc st backlog] in *. by rewrite Hs.
  - apply (inv_frame s s t Idle _ tr ac rp); [done..| |exact Hi]. unfold flush_snapshot in Hf. repeat case_match; simplify_eq. intros k Hk. exact Hk.
  - apply (inv_frame s s t Idle _ tr ac rp); [done..| |exact Hi]. destruct Hi as (Hn & _). by apply oldest_rows_inv.
  - by apply (inv_frame s s t (DrainDelete []) Idle tr ac rp).
Qed.

Lemma inv_init : inv init_sys.
Proof. split; [constructor|]. split; [done|]. intros c v. done. Qed.

Lemma inv_reachable hub σ : reachable hub σ → inv σ.
Proof.
  intros H. unfold reachable in H. assert (G : ∀ σ0, rtc (step hub) σ0 σ → inv σ0 → inv σ).
  { clear H. induction 1; [done|]. intros. eauto using inv_step. }
  apply (G _ H inv_init).
Qed.

(** Nothing but a lost reply or a failed deletion makes the surplus grow. *)
Lemma repeats_grow hub σ σ' : step hub σ σ' → ∃ l, repeats σ' = l ++ repeats σ ∧ (l = [] ∨ repeat_cause σ σ' l).
Proof.
  destruct 1 as [user up down σ|s' σ Hs|sent s t tr ac rp Hf|r lost o now usage sent s t tr ac rp Hu Ha
    |r lost o now usage t' sent s t tr ac rp Hu Ha|usage sent s t tr ac rp Hu|recs s t tr ac rp Hh Ho Hne
    |r lost recs s t tr ac rp Hr|recs s t tr ac rp|r recs s t tr ac rp|r recs s t tr ac rp|s t tr ac rp];
    try (exists []; split; [done|by left]); unfold repeat_log, hub_log.
  - case_bool_decide; destruct lost; try (exists []; split; [done|by left]). exists usage. split; [done|]. right. by eapply lost_flush.
  - case_bool_decide; destruct lost; try (exists []; split; [done|by left]). exists usage. split; [done|]. right. by eapply lost_flush.
  - rewrite bool_decide_false by done. destruct lost; [|exists []; split; [done|by left]]. eexists. split; [reflexivity|]. right. by eapply lost_drain.
  - exists [row_entry r]. split; [done|]. right. by eapply undeleted.
Qed.

(** ** Properties *)

(** C2. The tracker loses no usage: in every reachable state, whatever announces interleave with the
    requests in flight, whatever the Hub answers or fails to answer and whichever database call fails,
    the usage in RAM, in the SQLite backlog and applied by the Hub is (modulo 2^64) the usage tracked,
    plus the one batch being settled, plus what is to be reported again; between flushes the batch being
    settled is empty.  What is reported again has exactly two causes: the Hub applied a batch and its
    200 was lost (the hazard of docs/USAGE_SYNC_SPEC.md, section 4), or the [DELETE] of a drained row,
    whose error the code ignores, failed.  Where neither happened every byte is reported once. *)
Theorem usage_conserved hub σ :
  reachable hub σ →
  conserved σ
  ∧ (∀ σ', step hub σ σ' → ∃ l, repeats σ' = l ++ repeats σ ∧ (l = [] ∨ repeat_cause σ σ' l))
  ∧ (pc σ = Idle → repeats σ = [] → ∀ c user,
      usage_of c (Users (st σ)) user + backlog_total c user (backlog σ) + acked_total c user (acked σ)
      ≡₆₄ sum_for c user (tracked σ)).
Proof.
  intros H. apply inv_reachable in H as (_ & _ & Hc). split; [done|]. split; [intros σ'; apply repeats_grow|].
  intros Hpc Hr c user. apply (eqm_by _ _ _ _ (Hc c user)). rewrite Hpc, Hr. simpl. lia.
Qed.

(** A run in which alice announces while a flush is in flight. *)
Module Run.
Definition hub := str "http://hub".
Definition alice := str "alice".
Definition s1 := TrackUsage alice 10 5 emptyState.
Definition sent : batch := Users s1.
Definition s2 := TrackUsage alice 3 0 s1.
Definition s3 := subtract_sent (map_to_list sent) s2.
Definition all_ok : BackupOutcome := mkBackup true true (λ _, true) true.
Definition log1 := [(alice, mkUsage 10 5)].
Definition log2 := (alice, mkUsage 3 0) :: log1.
Definition σ_final : Sys := mkSys s3 [] Idle log2 [sent] [].

Lemma final_reachable : reachable hub σ_final.
Proof.
  apply (rtc_l _ _ (mkSys s1 [] Idle log1 [] [])); [apply (step_track _ alice 10 5 init_sys)|].
  apply (rtc_l _ _ (mkSys s1 [] (FlushPosted sent) log1 [] [])); [by apply step_flush_post|].
  apply (rtc_l _ _ (mkSys s2 [] (FlushPosted sent) log2 [] []));
    [apply (step_track _ alice 3 0 (mkSys s1 [] (FlushPosted sent) log1 [] []))|].
  apply (rtc_l _ _ (mkSys s2 [] (FlushSettled sent) log2 [sent] [])).
  { by apply (step_flush_settle _ (HubStatus StatusOK) false all_ok 0 (map_to_list sent) [] sent s2 [] log2 [] []). }
  apply (rtc_l _ _ σ_final); [|apply rtc_refl].
  by apply (step_flush_subtract _ (map_to_list sent)).
Qed.

(** A run in which the Hub rejects the batch, the drain delivers it and the row's deletion fails. *)
Definition t1 := [mkRow 1 alice (mkUsage 10 5) 7].
Definition s_empty := subtract_sent (map_to_list sent) s1.
Definition paid : batch := drain_payload t1.
Definition σ_twice : Sys := mkSys s_empty [] Idle log1 [paid; paid] log1.

Lemma t1_oldest : oldest_rows t1 t1.
Proof. exists t1. split; [done|]. split; [|done]. repeat constructor. Qed.

Lemma twice_reachable : reachable hub σ_twice.
Proof.
  apply (rtc_l _ _ (mkSys s1 [] Idle log1 [] [])); [apply (step_track _ alice 10 5 init_sys)|].
  apply (rtc_l _ _ (mkSys s1 [] (FlushPosted sent) log1 [] [])); [by apply step_flush_post|].
  apply (rtc_l _ _ (mkSys s1 t1 (FlushSettled sent) log1 [] [])).
  { by apply (step_flush_settle _ (HubStatus 500) false all_ok 7 (map_to_list sent) t1 sent s1 [] log1 [] []). }
  apply (rtc_l _ _ (mkSys s_empty t1 Idle log1 [] [])); [by apply (step_flush_subtract _ (map_to_list sent))|].
  apply (rtc_l _ _ (mkSys s_empty t1 (DrainPosted t1) log1 [] [])); [by apply step_drain_post; [|apply t1_oldest|]|].
  apply (rtc_l _ _ (mkSys s_empty t1 (DrainDelete t1) log1 [paid] [])); [apply step_drain_acked|].
  apply (rtc_l _ _ (mkSys s_empty t1 (DrainDelete []) log1 [paid] log1)); [apply step_drain_delete_failed|].
  apply (rtc_l _ _ (mkSys s_empty t1 Idle log1 [paid] log1)); [apply step_drain_done|].
  apply (rtc_l _ _ (mkSys s_empty t1 (DrainPosted t1) log1 [paid] log1)); [by apply step_drain_post; [|apply t1_oldest|]|].
  apply (rtc_l _ _ (mkSys s_empty t1 (DrainDelete t1) log1 [paid; paid] log1)); [apply step_drain_acked|].
  apply (rtc_l _ _ (mkSys s_empty [] (DrainDelete []) log1 [paid; paid] log1));
    [apply (step_drain_delete _ (mkRow 1 alice (mkUsage 10 5) 7) [])|].
  apply (rtc_l _ _ σ_twice); [apply step_drain_done|apply rtc_refl].
Qed.

(** A run in which the Hub applies the batch and its reply is lost. *)
Definition σ_lost : Sys := mkSys s_empty [] Idle log1 [sent; sent] log1.

Lemma lost_reachable : reachable hub σ_lost.
Proof.
  apply (rtc_l _ _ (mkSys s1 [] Idle log1 [] [])); [apply (step_track _ alice 10 5 init_sys)|].
  apply (rtc_l _ _ (mkSys s1 [] (FlushPosted sent) log1 [] [])); [by apply step_flush_post|].
  apply (rtc_l _ _ (mkSys s1 [] Idle log1 [sent] log1)).
  { apply (step_flush_hold hub HubErr true all_ok 0 log1 sent s1 [] log1 [] []); [vm_compute|]; reflexivity. }
  apply (rtc_l _ _ (mkSys s1 [] (FlushPosted sent) log1 [sent] log1)); [by apply step_flush_post|].
  apply (rtc_l _ _ (mkSys s1 [] (FlushSettled sent) log1 [sent; sent] log1)).
  { by apply (step_flush_settle _ (HubStatus StatusOK) false all_ok 0 (map_to_list sent) [] sent s1 [] log1 [sent] log1). }
  apply (rtc_l _ _ σ_lost); [|apply rtc_refl]. by apply (step_flush_subtract _ (map_to_list sent)).
Qed.
End Run.

Lemma usage_conserved_witness :
  reachable Run.hub Run.σ_final ∧ usage_of Up (Users (st Run.σ_final)) Run.alice = 3 ∧
  usage_of Up (Users (st Run.σ_final)) Run.alice + backlog_total Up Run.alice (backlog Run.σ_final)
    + acked_total Up Run.alice (acked Run.σ_final) ≡₆₄ sum_for Up Run.alice (tracked Run.σ_final)
  ∧ acked_total Up Run.alice (acked Run.σ_twice) = 20 ∧ conserved Run.σ_twice.
Proof.
  split; [exact Run.final_reachable|]. split; [vm_compute; reflexivity|]. split.
  - exact (proj2 (proj2 (usage_conserved Run.hub Run.σ_final Run.final_reachable)) eq_refl eq_refl Up Run.alice).
  - split; [vm_compute; reflexivity|]. exact (proj1 (usage_conserved Run.hub Run.σ_twice Run.twice_reachable)).
Defined.

(** Both causes of a second report happen: the Hub has applied twice the usage that was tracked after the
    deletion of a drained row fails, an error [DrainBacklog] ignores, and after a reply is lost. *)
Theorem failed_delete_double_reports :
  (∃ σ, reachable Run.hub σ ∧ pc σ = Idle ∧ sum_for Up Run.alice (tracked σ) = 10 ∧ acked_total Up Run.alice (acked σ) = 20
    ∧ repeats σ = [row_entry (mkRow 1 Run.alice (mkUsage 10 5) 7)])
  ∧ ∃ σ, reachable Run.hub σ ∧ pc σ = Idle ∧ sum_for Up Run.alice (tracked σ) = 10 ∧ acked_total Up Run.alice (acked σ) = 20
    ∧ repeats σ = map_to_list Run.sent.
Proof.
  split; [exists Run.σ_twice; split; [exact Run.twice_reachable|]|exists Run.σ_lost; split; [exact Run.lost_reachable|]]; split_and!; vm_compute; reflexivity.
Qed.
