(* ===== verification/Hex.v ===== *)
(** * Hexadecimal text: Go's [encoding/hex]

    [hex.EncodeToString] and [hex.DecodeString], and the class of lowercase hex strings that serve as
    registry keys.  Encoding is injective and decoding inverts it. *)

From S2P Require Import Prelude.
From Stdlib Require Import ZArith Lia.
Local Open Scope Z_scope.

(** ** Definitions *)

(** ["0123456789abcdef"[n]] *)
Definition hexdigit (n : Z) : byte := if n <? 10 then zbyte (48 + n) else zbyte (87 + n).

Definition hex_of_byte (b : byte) : bytes :=
  [hexdigit (Z.shiftr (bval b) 4); hexdigit (Z.land (bval b) 15)].

(** [hex.EncodeToString] *)
Definition hex_encode (l : bytes) : bytes := flat_map hex_of_byte l.

(** [c < '0' || c > '9'] and [c < 'a' || c > 'f'], negated *)
Definition is_lower_hex (b : byte) : bool :=
  ((48 <=? bval b) && (bval b <=? 57)) || ((97 <=? bval b) && (bval b <=? 102)).

(** The decoder also takes upper-case digits. *)
Definition unhex (b : byte) : option Z :=
  let v := bval b in
  if (48 <=? v) && (v <=? 57) then Some (v - 48)
  else if (97 <=? v) && (v <=? 102) then Some (v - 87)
  else if (65 <=? v) && (v <=? 70) then Some (v - 55)
  else None.

Definition unhex2 (a b : byte) : option byte :=
  x ← unhex a; y ← unhex b; Some (zbyte (Z.lor (Z.shiftl x 4) y)).

(** [hex.DecodeString]: an error on an odd length or a bad digit. *)
Fixpoint hex_decode (l : bytes) : option bytes :=
  match l with
  | [] => Some []
  | [_] => None
  | a :: b :: r => c ← unhex2 a b; r' ← hex_decode r; Some (c :: r')
  end.

(** ** Lemmas *)

Lemma length_hex_encode l : length (hex_encode l) = (2 * length l)%nat.
Proof. induction l as [|b l IH]; [done|]. change (S (S (length (hex_encode l))) = (2 * S (length l))%nat). lia. Qed.

(** A fact about all bytes is checked on the 256 of them. *)
Lemma forall_byte (P : byte → Prop) `{∀ b, Decision (P b)} :
  forallb (λ n, bool_decide (P (zbyte (Z.of_nat n)))) (seq 0 256) = true → ∀ b, P b.
Proof.
  intros HP b. pose proof (bval_range b). rewrite List.forallb_forall in HP.
  rewrite <- (zbyte_bval b), <- (Z2Nat.id (bval b)) by lia.
  specialize (HP (Z.to_nat (bval b))). rewrite bool_decide_eq_true in HP. apply HP, in_seq. lia.
Qed.

Lemma unhex2_of_byte b : unhex2 (hexdigit (Z.shiftr (bval b) 4)) (hexdigit (Z.land (bval b) 15)) = Some b.
Proof. revert b. refine (forall_byte _ _). vm_compute. reflexivity. Qed.

Lemma hex_of_byte_decode b r : hex_decode (hex_of_byte b ++ r) = r' ← hex_decode r; Some (b :: r').
Proof. unfold hex_of_byte. cbn [app hex_decode]. by rewrite unhex2_of_byte. Qed.

Lemma hex_decode_encode l : hex_decode (hex_encode l) = Some l.
Proof.
  unfold hex_encode. induction l as [|b l IH]; [done|]. cbn [flat_map].
  by rewrite hex_of_byte_decode, IH.
Qed.

Lemma hex_encode_inj l k : hex_encode l = hex_encode k → l = k.
Proof. intros E. apply (f_equal hex_decode) in E. rewrite !hex_decode_encode in E. by simplify_eq. Qed.

Lemma hex_of_byte_lower b : Forall (λ c, is_lower_hex c = true) (hex_of_byte b).
Proof. revert b. refine (forall_byte _ _). vm_compute. reflexivity. Qed.

Lemma hex_encode_lower l : Forall (λ b, is_lower_hex b = true) (hex_encode l).
Proof. induction l as [|b l IH]; [constructor|]. apply Forall_app. split; [apply hex_of_byte_lower|exact IH]. Qed.

(** Lowercase digits are written as they were read. *)
Lemma lower_hex_digits c : is_lower_hex c = true → c ∈ str "0123456789abcdef".
Proof. revert c. refine (forall_byte (λ c, is_lower_hex c = true → c ∈ str "0123456789abcdef") _). vm_compute. reflexivity. Qed.

Lemma unhex2_encode a b v : is_lower_hex a = true → is_lower_hex b = true → unhex2 a b = Some v → hex_of_byte v = [a; b].
Proof.
  intros Ha%lower_hex_digits Hb%lower_hex_digits E.
  assert (H : Forall (λ a, Forall (λ b, hex_of_byte (default Byte.x00 (unhex2 a b)) = [a; b]) (str "0123456789abcdef")) (str "0123456789abcdef")) by decide_now.
  rewrite Forall_forall in H. specialize (H a Ha). rewrite Forall_forall in H. specialize (H b Hb). by rewrite E in H.
Qed.

Lemma hex_encode_decode s l : forallb is_lower_hex s = true → hex_decode s = Some l → hex_encode l = s.
Proof.
  revert l. assert (Hi : ∀ n s l, (length s ≤ n)%nat → forallb is_lower_hex s = true → hex_decode s = Some l → hex_encode l = s); [|intros l; by apply (Hi (length s))].
  clear s. induction n as [|n IH]; intros [|a [|b r]] l Hn Hs; cbn [length hex_decode forallb] in *; try lia; try (by intros [= <-]).
  apply andb_true_iff in Hs as [Ha [Hb Hr]%andb_true_iff]. destruct (unhex2 a b) as [v|] eqn:E; [|done]. destruct (hex_decode r) as [k|] eqn:Er; [|done].
  intros [= <-]. unfold hex_encode in *. cbn [flat_map]. rewrite (unhex2_encode a b v Ha Hb E), (IH r k) by (done || lia). done.
Qed.
