(* ===== verification/Recognize.v ===== *)
(** * Package [tracker]: the announce recognizer

    Models [internal/tracker/recognize.go]: the typed announce parameters, [RecognizeAnnounce] on the
    decoded query, and the accessors the execution phase uses.  An error value stands for each of the
    function's error returns; their message texts are not modelled. *)

From S2P Require Import Prelude Strconv Hex.
From Stdlib Require Import ZArith Lia.
Local Open Scope Z_scope.

(** ** Data *)

(** [url.Values]: the values of each key in order. *)
Abbreviation Values := (gmap bytes (list bytes)).

(** [q.Get(key)]: the first value, or the empty string. *)
Definition Get (q : Values) (key : bytes) : bytes := default [] (q !! key ≫= head).

Inductive PeerEvent := EventNone | EventStarted | EventStopped | EventCompleted | EventPaused.

#[export] Instance event_eq_decision : EqDecision PeerEvent.
Proof. solve_decision. Defined.

Record AnnounceParams := mkParams {
  InfoHash : bytes;        (* [32]byte, the actual bytes first *)
  InfoHashLen : nat;       (* 20 or 32 *)
  PeerID : bytes;          (* [20]byte *)
  Port : Z;                (* uint16 *)
  PUploaded : Z;
  PDownloaded : Z;
  PLeft : Z;
  Event : PeerEvent;
  NumWant : Z;             (* -1 = not specified *)
  Compact : bool;
}.

Definition MaxNumWant : Z := 1000.

Inductive aerr :=
| MissingInfoHash | BadInfoHashLen | MissingPeerID | BadPeerIDLen | MissingPort | InvalidPort
| InvalidUploaded | InvalidDownloaded | InvalidLeft | InvalidEvent | InvalidNumWant | InvalidCompact.

(** ** The recognizer *)

(** [if v := q.Get(key); v != "" { n, err := ParseInt(v, 10, 64); if err != nil || n < 0 {...}; p.F = n }] *)
Definition optional_counter (e : aerr) (v : bytes) : result aerr Z :=
  if bool_decide (v = []) then Ok 0 else
  match parse_int 64 v with
  | Some n => if n <? 0 then Err e else Ok n
  | None => Err e
  end.

(** [switch len(hashRaw)] *)
Definition recognize_hash_len (n : nat) : result aerr nat :=
  if (n =? 20)%nat then Ok 20%nat else if (n =? 32)%nat then Ok 32%nat else Err BadInfoHashLen.

(** [switch q.Get("event")] *)
Definition recognize_event (ev : bytes) : result aerr PeerEvent :=
  if bool_decide (ev = []) then Ok EventNone
  else if bool_decide (ev = str "started") then Ok EventStarted
  else if bool_decide (ev = str "stopped") then Ok EventStopped
  else if bool_decide (ev = str "completed") then Ok EventCompleted
  else if bool_decide (ev = str "paused") then Ok EventPaused
  else Err InvalidEvent.

Definition recognize_numwant (v : bytes) : result aerr Z :=
  if bool_decide (v = []) then Ok (-1) else
  match atoi v with
  | Some n => if (n <? 0) || (MaxNumWant <? n) then Err InvalidNumWant else Ok n
  | None => Err InvalidNumWant
  end.

Definition recognize_compact (v : bytes) : result aerr bool :=
  if bool_decide (v = []) then Ok true
  else if bool_decide (v = str "0") then Ok false
  else if bool_decide (v = str "1") then Ok true
  else Err InvalidCompact.

Definition RecognizeAnnounce (q : Values) : result aerr AnnounceParams :=
  let hashRaw := Get q (str "info_hash") in
  if bool_decide (hashRaw = []) then Err MissingInfoHash else
  infoHashLen ← recognize_hash_len (length hashRaw);
  let infoHash := go_copy (zeros 32) hashRaw in
  let peerID := Get q (str "peer_id") in
  if bool_decide (peerID = []) then Err MissingPeerID else
  if negb (length peerID =? 20)%nat then Err BadPeerIDLen else
  let peerIDArr := go_copy (zeros 20) peerID in
  let portStr := Get q (str "port") in
  if bool_decide (portStr = []) then Err MissingPort else
  port ← of_option InvalidPort (parse_uint 16 portStr);
  if port =? 0 then Err InvalidPort else
  uploaded ← optional_counter InvalidUploaded (Get q (str "uploaded"));
  downloaded ← optional_counter InvalidDownloaded (Get q (str "downloaded"));
  left ← optional_counter InvalidLeft (Get q (str "left"));
  event ← recognize_event (Get q (str "event"));
  numWant ← recognize_numwant (Get q (str "numwant"));
  compact ← recognize_compact (Get q (str "compact"));
  Ok (mkParams infoHash infoHashLen peerIDArr (uwrap 16 port) uploaded downloaded left event numWant compact).

(** The loop of [InfoHashHex] over the first [InfoHashLen] bytes. *)
Definition InfoHashHex (p : AnnounceParams) : bytes := flat_map hex_of_byte (take (InfoHashLen p) (InfoHash p)).
Definition PeerIDString (p : AnnounceParams) : bytes := PeerID p.

(** ** The grammar of announce requests *)

Definition counter_text (v : bytes) (n : Z) : Prop :=
  (v = [] ∧ n = 0) ∨ (v ≠ [] ∧ parse_int 64 v = Some n ∧ 0 ≤ n).

Definition event_text (e : PeerEvent) : bytes :=
  match e with
  | EventNone => []
  | EventStarted => str "started"
  | EventStopped => str "stopped"
  | EventCompleted => str "completed"
  | EventPaused => str "paused"
  end.

Record announce_grammar (q : Values) (p : AnnounceParams) : Prop := mkGrammar {
  ag_hash_len : length (Get q (str "info_hash")) = InfoHashLen p;
  ag_hash_kind : InfoHashLen p = 20%nat ∨ InfoHashLen p = 32%nat;
  ag_hash : InfoHash p = Get q (str "info_hash") ++ zeros (32 - InfoHashLen p);
  ag_peer_len : length (Get q (str "peer_id")) = 20%nat;
  ag_peer : PeerID p = Get q (str "peer_id");
  ag_port : parse_uint 16 (Get q (str "port")) = Some (Port p);
  ag_port_range : 1 ≤ Port p ≤ 65535;
  ag_uploaded : counter_text (Get q (str "uploaded")) (PUploaded p);
  ag_downloaded : counter_text (Get q (str "downloaded")) (PDownloaded p);
  ag_left : counter_text (Get q (str "left")) (PLeft p);
  ag_event : Get q (str "event") = event_text (Event p);
  ag_numwant : (Get q (str "numwant") = [] ∧ NumWant p = -1)
               ∨ (Get q (str "numwant") ≠ [] ∧ atoi (Get q (str "numwant")) = Some (NumWant p)
                  ∧ 0 ≤ NumWant p ≤ MaxNumWant);
  ag_compact : (Compact p = true ∧ (Get q (str "compact") = [] ∨ Get q (str "compact") = str "1"))
               ∨ (Compact p = false ∧ Get q (str "compact") = str "0");
}.

(** ** Lemmas *)

Lemma optional_counter_ok e v n : optional_counter e v = Ok n ↔ counter_text v n.
Proof.
  unfold optional_counter, counter_text. case_bool_decide as Hv.
  - split; [intros [= <-]; by left|]. intros [[_ ->]|[? _]]; done.
  - destruct (parse_int 64 v) as [m|] eqn:E.
    + destruct (Z.ltb_spec m 0).
      * split; [done|]. intros [[? _]|(_ & [= ->] & ?)]; [done|lia].
      * split; [intros [= ->]; right; done|]. intros [[? _]|(_ & [= ->] & ?)]; done.
    + split; [done|]. intros [[? _]|(_ & ? & _)]; done.
Qed.

Lemma recognize_hash_len_ok n hl : recognize_hash_len n = Ok hl ↔ n = hl ∧ (hl = 20%nat ∨ hl = 32%nat).
Proof.
  unfold recognize_hash_len. destruct (Nat.eqb_spec n 20); [|destruct (Nat.eqb_spec n 32)].
  - split; [intros [= <-]; auto|]. intros [-> ?]. by f_equal.
  - split; [intros [= <-]; auto|]. intros [-> ?]. by f_equal.
  - split; [done|]. lia.
Qed.

Lemma recognize_event_ok ev e : recognize_event ev = Ok e ↔ ev = event_text e.
Proof.
  unfold recognize_event. split.
  - intros H. repeat case_bool_decide; simplify_eq; done.
  - intros ->. by destruct e.
Qed.

Definition numwant_text (v : bytes) (n : Z) : Prop :=
  (v = [] ∧ n = -1) ∨ (v ≠ [] ∧ atoi v = Some n ∧ 0 ≤ n ≤ MaxNumWant).

Lemma recognize_numwant_ok v n : recognize_numwant v = Ok n ↔ numwant_text v n.
Proof.
  unfold recognize_numwant, numwant_text. case_bool_decide as Hv.
  - split; [intros [= <-]; by left|]. intros [[_ ->]|[? _]]; done.
  - destruct (atoi v) as [m|]; [|split; [done|]; intros [[? _]|(_ & ? & _)]; done].
    destruct (Z.ltb_spec m 0); [|destruct (Z.ltb_spec MaxNumWant m)]; simpl.
    + split; [done|]. intros [[? _]|(_ & [= ->] & ?)]; [done|lia].
    + split; [done|]. intros [[? _]|(_ & [= ->] & ?)]; [done|lia].
    + split; [intros [= ->]; auto|]. intros [[? _]|(_ & [= ->] & ?)]; done.
Qed.

Lemma recognize_compact_ok v c :
  recognize_compact v = Ok c ↔ (c = true ∧ (v = [] ∨ v = str "1")) ∨ (c = false ∧ v = str "0").
Proof.
  unfold recognize_compact. split.
  - intros H. repeat case_bool_decide; simplify_eq; auto.
  - by intros [[-> [->| ->]]|[-> ->]].
Qed.

(** Invert one monadic step of a successful run. *)
Ltac step_ok H x E :=
  match type of H with context [result_bind _ _ _ ?m] => destruct m as [x| | |] eqn:E; try done; simpl_res
  | context [?m ≫= _] => destruct m as [x| | |] eqn:E; try done; simpl_res end.

Lemma recognize_sound q p : RecognizeAnnounce q = Ok p → announce_grammar q p.
Proof.
  unfold RecognizeAnnounce. intros H. case_bool_decide as Hh; [done|].
  step_ok H hl El. apply recognize_hash_len_ok in El as [Lh Kh].
  case_bool_decide; [done|]. destruct (Nat.eqb_spec (length (Get q (str "peer_id"))) 20) as [Lp|]; [|done].
  cbn [negb] in H. case_bool_decide; [done|].
  destruct (parse_uint 16 _) as [port|] eqn:Ep; [|done]. simpl_res.
  destruct (Z.eqb_spec port 0); [done|]. pose proof (parse_uint_bound _ _ _ Ep) as Bp.
  change (2 ^ 16) with 65536 in Bp.
  step_ok H up Eu. step_ok H dn Ed. step_ok H lf Ef. step_ok H ev Ee. step_ok H nw En. step_ok H cp Ec.
  apply optional_counter_ok in Eu, Ed, Ef. apply recognize_event_ok in Ee.
  apply recognize_numwant_ok in En. apply recognize_compact_ok in Ec. simplify_eq.
  assert (Hport : uwrap 16 port = port) by (unfold uwrap; apply Z.mod_small; change (2 ^ 16) with 65536; lia).
  split; cbn [InfoHash InfoHashLen PeerID Port PUploaded PDownloaded PLeft Event NumWant Compact];
    rewrite ?Hport; auto.
  - refine (go_copy_all 32 _ _). destruct Kh; lia.
  - etrans; [refine (go_copy_all 20 _ _); lia|]. rewrite Lp. apply app_nil_r.
  - lia.
Qed.

Lemma recognize_complete q p : announce_grammar q p → RecognizeAnnounce q = Ok p.
Proof.
  intros [Lh Kh Eh Lp Ep Po Rp Eu Ed El Ee En Ec]. unfold RecognizeAnnounce.
  rewrite bool_decide_false by (intros E; rewrite E in Lh; simpl in Lh; destruct Kh; lia).
  rewrite (proj2 (recognize_hash_len_ok _ _) (conj Lh Kh)). simpl_res.
  rewrite bool_decide_false by (intros E; by rewrite E in Lp). rewrite Lp. cbn [Nat.eqb negb].
  rewrite bool_decide_false by (intros E; by rewrite E in Po). rewrite Po. simpl_res.
  rewrite (proj2 (Z.eqb_neq _ _)) by lia.
  apply (optional_counter_ok InvalidUploaded) in Eu as ->. apply (optional_counter_ok InvalidDownloaded) in Ed as ->.
  apply (optional_counter_ok InvalidLeft) in El as ->. apply recognize_event_ok in Ee as ->.
  apply recognize_numwant_ok in En as ->. apply recognize_compact_ok in Ec as ->. simpl_res.
  assert (Hport : uwrap 16 (Port p) = Port p) by (unfold uwrap; apply Z.mod_small; change (2 ^ 16) with 65536; lia).
  rewrite Hport, !go_copy_all, Lh, Lp, <- Eh, <- Ep by lia. simpl. rewrite app_nil_r. by destruct p.
Qed.

Lemma InfoHashHex_of_grammar q p : announce_grammar q p → InfoHashHex p = hex_encode (Get q (str "info_hash")).
Proof. intros G. unfold InfoHashHex. rewrite (ag_hash _ _ G), <- (ag_hash_len _ _ G), take_app_length. done. Qed.

Lemma counter_text_range v n : counter_text v n → 0 ≤ n < 2 ^ 63.
Proof.
  intros [[_ ->]|(_ & E & Hn)]; [lia|]. apply parse_int_bound in E. change (64 - 1) with 63 in E. lia.
Qed.

(** ** Properties *)

(** C12. [RecognizeAnnounce] recognizes exactly the announce grammar: it succeeds on a query if and only
    if every field matches the grammar, and then returns the parameters the grammar determines; no
    malformed field is silently defaulted. *)
Theorem recognize_correct q p : RecognizeAnnounce q = Ok p ↔ announce_grammar q p.
Proof. split; [apply recognize_sound|apply recognize_complete]. Qed.

(** Every field of recognized parameters is bounded: a 20- or 32-byte info hash whose hex form is the
    canonical lowercase key of the registry, a 20-byte peer id, a non-zero 16-bit port, counters that
    are non-negative int64 values, and a numwant of -1 or at most [MaxNumWant]. *)
Theorem recognized_bounds q p :
  RecognizeAnnounce q = Ok p →
  (InfoHashLen p = 20%nat ∨ InfoHashLen p = 32%nat)
  ∧ InfoHashHex p = hex_encode (Get q (str "info_hash"))
  ∧ length (InfoHashHex p) = (2 * InfoHashLen p)%nat
  ∧ Forall (λ b, is_lower_hex b = true) (InfoHashHex p)
  ∧ length (InfoHash p) = 32%nat ∧ length (PeerIDString p) = 20%nat
  ∧ 1 ≤ Port p < 2 ^ 16
  ∧ 0 ≤ PUploaded p < 2 ^ 63 ∧ 0 ≤ PDownloaded p < 2 ^ 63 ∧ 0 ≤ PLeft p < 2 ^ 63
  ∧ -1 ≤ NumWant p ≤ 1000.
Proof.
  intros G%recognize_sound. rewrite (InfoHashHex_of_grammar _ _ G). destruct G.
  split; [done|]. split; [done|]. split; [by rewrite length_hex_encode, ag_hash_len0|].
  split; [apply hex_encode_lower|]. split; [|split; [|split; [|split; [|split; [|split]]]]].
  - rewrite ag_hash0, length_app, length_zeros, ag_hash_len0. lia.
  - unfold PeerIDString. by rewrite ag_peer0.
  - change (2 ^ 16) with 65536. lia.
  - by eapply counter_text_range.
  - by eapply counter_text_range.
  - by eapply counter_text_range.
  - unfold MaxNumWant in *. lia.
Qed.

Definition sample_query : Values :=
  <[str "info_hash" := [str "aaaaaaaaaaaaaaaaaaaa"]]> (<[str "peer_id" := [str "-WL0020-abcdefghijkl"]]>
  (<[str "port" := [str "6881"]]> (<[str "left" := [str "42"]]> (<[str "event" := [str "started"]]> ∅)))).
Definition sample_params : AnnounceParams :=
  mkParams (str "aaaaaaaaaaaaaaaaaaaa" ++ zeros 12) 20 (str "-WL0020-abcdefghijkl") 6881 0 0 42
    EventStarted (-1) true.

Lemma recognized_bounds_witness :
  RecognizeAnnounce sample_query = Ok sample_params ∧ length (InfoHashHex sample_params) = 40%nat ∧
  InfoHashHex sample_params = hex_encode (Get sample_query (str "info_hash")).
Proof.
  assert (H : RecognizeAnnounce sample_query = Ok sample_params) by (vm_compute; reflexivity).
  split; [exact H|]. split; [vm_compute; reflexivity|].
  exact (proj1 (proj2 (recognized_bounds sample_query sample_params H))).
Defined.
