(* ===== verification/GoStrings.v ===== *)
(** * Byte strings: the part of Go's [strings] the program uses

    Splitting and joining on one separator byte, prefixes, suffixes, membership of a byte, trimming.
    The central lemmas say that [join] and [split] invert each other. *)

From S2P Require Import Prelude.
From Stdlib Require Import ZArith Lia.

(** ** Definitions *)

(** [strings.Split(s, sep)] for a one-byte separator. *)
Fixpoint split (sep : byte) (s : bytes) : list bytes :=
  match s with
  | [] => [[]]
  | b :: r => if bool_decide (b = sep) then [] :: split sep r
              else match split sep r with h :: t => (b :: h) :: t | [] => [[b]] end
  end.

(** [strings.Join(parts, sep)] *)
Fixpoint join (sep : byte) (parts : list bytes) : bytes :=
  match parts with
  | [] => []
  | [p] => p
  | p :: ps => p ++ sep :: join sep ps
  end.

(** [strings.HasPrefix(s, p)] *)
Definition has_prefix (s p : bytes) : bool := bool_decide (take (length p) s = p).
(** [strings.HasSuffix(s, p)] *)
Definition has_suffix (s p : bytes) : bool :=
  (length p <=? length s)%nat && bool_decide (drop (length s - length p) s = p).
(** [strings.TrimSuffix(s, p)], [strings.TrimPrefix(s, p)] *)
Definition trim_suffix (s p : bytes) : bytes := if has_suffix s p then take (length s - length p) s else s.
Definition trim_prefix (s p : bytes) : bytes := if has_prefix s p then drop (length p) s else s.

(** [strings.ContainsAny(s, chars)] *)
Definition contains_any (s chars : bytes) : bool := existsb (λ b, bool_decide (b ∈ chars)) s.

(** [strings.IndexByte(s, c)], [strings.LastIndexByte(s, c)]; [None] for -1. *)
Fixpoint index_byte (s : bytes) (c : byte) : option nat :=
  match s with
  | [] => None
  | b :: r => if bool_decide (b = c) then Some 0 else S <$> index_byte r c
  end.
Fixpoint last_index_byte (s : bytes) (c : byte) : option nat :=
  match s with
  | [] => None
  | b :: r => match last_index_byte r c with
              | Some i => Some (S i)
              | None => if bool_decide (b = c) then Some 0 else None
              end
  end.

(** [strings.TrimLeft(s, "c")], [strings.Trim(s, "c")] *)
Fixpoint trim_left (s : bytes) (c : byte) : bytes :=
  match s with
  | b :: r => if bool_decide (b = c) then trim_left r c else s
  | [] => []
  end.
Definition trim (s : bytes) (c : byte) : bytes := rev (trim_left (rev (trim_left s c)) c).

(** ** Lemmas *)

Lemma split_cons sep s : ∃ h t, split sep s = h :: t.
Proof.
  induction s as [|b r (h & t & E)]; simpl; [eauto|]. case_bool_decide; [eauto|]. rewrite E. eauto.
Qed.

Lemma join_split sep s : join sep (split sep s) = s.
Proof.
  induction s as [|b r IH]; simpl; [done|]. destruct (split_cons sep r) as (h & t & E). rewrite E in *.
  case_bool_decide as Hb.
  - subst b. change (sep :: join sep (h :: t) = sep :: r). by rewrite IH.
  - destruct t as [|p ps]; simpl in *; by rewrite IH.
Qed.

Lemma split_app sep p s : sep ∉ p → split sep (p ++ sep :: s) = p :: split sep s.
Proof.
  induction p as [|b p IH]; intros H; simpl.
  - by rewrite bool_decide_true.
  - apply not_elem_of_cons in H as [H1 H2]. rewrite bool_decide_false by auto. by rewrite IH.
Qed.

Lemma split_single sep p : sep ∉ p → split sep p = [p].
Proof.
  induction p as [|b p IH]; intros H; simpl; [done|].
  apply not_elem_of_cons in H as [H1 H2]. rewrite bool_decide_false by auto. by rewrite IH.
Qed.

Lemma split_join sep parts : Forall (λ p, sep ∉ p) parts → parts ≠ [] → split sep (join sep parts) = parts.
Proof.
  induction 1 as [|p ps Hp Hps IH]; [done|]. intros _. destruct ps as [|q ps].
  - by apply split_single.
  - change (split sep (p ++ sep :: join sep (q :: ps)) = p :: q :: ps). rewrite split_app by done. by rewrite IH.
Qed.

Lemma split_no_sep sep s : Forall (λ p, sep ∉ p) (split sep s).
Proof.
  induction s as [|b r IH]; simpl; [repeat constructor; by intros ?%elem_of_nil|].
  case_bool_decide as Hb; [constructor; [by intros ?%elem_of_nil|done]|].
  destruct (split_cons sep r) as (h & t & E). rewrite E in *. apply Forall_cons in IH as [Hh Ht].
  constructor; [|done]. intros [?|?]%elem_of_cons; congruence.
Qed.

Lemma has_prefix_app p s : has_prefix (p ++ s) p = true.
Proof. unfold has_prefix. by rewrite take_app_length, bool_decide_true. Qed.

Lemma has_prefix_spec s p : has_prefix s p = true ↔ ∃ r, s = p ++ r.
Proof.
  split; [|intros [r ->]; apply has_prefix_app]. unfold has_prefix. rewrite bool_decide_eq_true. intros E.
  exists (drop (length p) s). rewrite <- E at 1. by rewrite take_drop.
Qed.

Lemma contains_any_false s chars : contains_any s chars = false ↔ ∀ b, b ∈ s → b ∉ chars.
Proof.
  unfold contains_any. induction s as [|b s IH]; simpl; [split; [intros _ b ?%elem_of_nil; done|done]|].
  rewrite orb_false_iff, IH, bool_decide_eq_false. split.
  - intros [H1 H2] c [->|H]%elem_of_cons; auto.
  - intros H. split; [apply H; left|]. intros c Hc. apply H. by right.
Qed.

Lemma index_byte_None s c : index_byte s c = None ↔ c ∉ s.
Proof.
  induction s as [|b s IH]; simpl; [split; [by intros _ ?%elem_of_nil|done]|].
  rewrite not_elem_of_cons. case_bool_decide; [split; [done|]; intros []; congruence|].
  destruct (index_byte s c); simpl; [split; [done|]; intros [_ H']; by apply IH in H'|].
  split; [|done]. intros _. split; [congruence|]. by apply IH.
Qed.

Lemma last_index_byte_None s c : last_index_byte s c = None ↔ c ∉ s.
Proof.
  induction s as [|b s IH]; simpl; [split; [by intros _ ?%elem_of_nil|done]|].
  rewrite not_elem_of_cons. destruct (last_index_byte s c).
  - split; [done|]. intros [_ H']. by apply IH in H'.
  - case_bool_decide; [split; [done|]; intros []; congruence|].
    split; [|done]. intros _. split; [congruence|]. by apply IH.
Qed.

Lemma last_index_byte_app s c r : c ∉ r → last_index_byte (s ++ c :: r) c = Some (length s).
Proof.
  intros Hr. induction s as [|b s IH]; simpl; [|by rewrite IH].
  apply last_index_byte_None in Hr. by rewrite Hr, bool_decide_true.
Qed.
