(* ===== verification/NetAddr.v ===== *)
(** * Network addresses: the part of Go's [net] the program uses

    Host-port splitting and joining, and the text forms of IP addresses.  An [IP] is a byte list of
    length 4 or 16, as in Go; [ParseIP] returns the 16-byte form. *)

From S2P Require Import Prelude Strconv Hex GoStrings.
From Stdlib Require Import ZArith Lia.
Local Open Scope Z_scope.

(** ** Host and port *)

(** [net.SplitHostPort]; the error kinds are not told apart by the callers. *)
Definition SplitHostPort (hostport : bytes) : option (bytes * bytes) :=
  match last_index_byte hostport (chr ":") with
  | None => None
  | Some i =>
      '(host, j, k) ←
        (if bool_decide (head hostport = Some (chr "[")) then
           match index_byte hostport (chr "]") with
           | None => None
           | Some e =>
               if (S e =? length hostport)%nat then None
               else if (S e =? i)%nat then Some (take (e - 1) (drop 1 hostport), 1%nat, S e)
               else None
           end
         else
           let host := take i hostport in
           match index_byte host (chr ":") with
           | Some _ => None
           | None => Some (host, 0%nat, 0%nat)
           end);
      match index_byte (drop j hostport) (chr "["), index_byte (drop k hostport) (chr "]") with
      | None, None => Some (host, drop (S i) hostport)
      | _, _ => None
      end
  end.

(** [net.JoinHostPort] *)
Definition JoinHostPort (host port : bytes) : bytes :=
  match index_byte host (chr ":") with
  | Some _ => chr "[" :: host ++ str "]:" ++ port
  | None => host ++ chr ":" :: port
  end.

(** ** IP addresses *)

Abbreviation IP := bytes (only parsing).

Definition v4_in_v6_prefix : bytes := replicate 10 Byte.x00 ++ [zbyte 255; zbyte 255].

(** [ip.To4()] *)
Definition To4 (ip : IP) : option bytes :=
  if (length ip =? 4)%nat then Some ip
  else if (length ip =? 16)%nat && bool_decide (take 12 ip = v4_in_v6_prefix) then Some (drop 12 ip)
  else None.

(** [ip.To16()] *)
Definition To16 (ip : IP) : option bytes :=
  if (length ip =? 4)%nat then Some (v4_in_v6_prefix ++ ip)
  else if (length ip =? 16)%nat then Some ip
  else None.

(** [ip.IsUnspecified()]: 0.0.0.0 or :: *)
Definition IsUnspecified (ip : IP) : bool :=
  bool_decide (To16 ip = Some (v4_in_v6_prefix ++ replicate 4 Byte.x00)) || bool_decide (ip = replicate 16 Byte.x00).

(** One decimal field of a dotted quad: digits, no leading zero, at most 255. *)
Definition parse_octet (f : bytes) : option byte :=
  if bool_decide (f = []) then None else
  if negb (forallb is_digit f) then None else
  if (1 <? length f)%nat && bool_decide (head f = Some (chr "0")) then None else
  if 255 <? dval f then None else Some (zbyte (dval f)).

Definition parse_v4 (s : bytes) : option bytes :=
  match split (chr ".") s with
  | [a; b; c; d] =>
      x ← parse_octet a; y ← parse_octet b; z ← parse_octet c; w ← parse_octet d; Some [x; y; z; w]
  | _ => None
  end.

(** The hexadecimal group at the front of [s]: its value, the rest; at most four digits. *)
Fixpoint scan_group (n : nat) (acc : Z) (s : bytes) : option (Z * bytes) :=
  match s with
  | [] => Some (acc, [])
  | c :: r => match unhex c with
              | None => Some (acc, s)
              | Some d => match n with O => None | S n' => scan_group n' (acc * 16 + d) r end
              end
  end.

(** The loop of [netip.parseIPv6]: [out] are the bytes parsed so far, [ell] the position of the
    ellipsis.  Every round appends two bytes or ends, so [fuel] 9 covers the 16 bytes. *)
Fixpoint parse_v6_loop (fuel : nat) (s : bytes) (out : bytes) (ell : option nat) : option (bytes * option nat * bytes) :=
  match fuel with
  | O => None
  | S f =>
      if (16 <=? length out)%nat then Some (out, ell, s) else
      '(acc, rest) ← scan_group 4 0 s;
      if bool_decide (length rest = length s) then None else
      if bool_decide (head rest = Some (chr ".")) then
        if bool_decide (ell = None) && negb (length out =? 12)%nat then None
        else if (16 <? length out + 4)%nat then None
        else v4 ← parse_v4 s; Some (out ++ v4, ell, [])
      else
        let out := out ++ [zbyte (acc / 256); zbyte acc] in
        match rest with
        | [] => Some (out, ell, [])
        | c :: r1 =>
            if negb (bool_decide (c = chr ":")) || bool_decide (r1 = []) then None else
            if bool_decide (head r1 = Some (chr ":")) then
              if bool_decide (ell = None) then
                let r2 := tail r1 in
                if bool_decide (r2 = []) then Some (out, Some (length out), []) 
                else parse_v6_loop f r2 out (Some (length out))
              else None
            else parse_v6_loop f r1 out ell
        end
  end.

Definition parse_v6 (s : bytes) : option bytes :=
  let start := has_prefix s (str "::") in
  let s1 := if start then drop 2 s else s in
  if start && bool_decide (s1 = []) then Some (replicate 16 Byte.x00) else
  '(out, ell, rest) ← parse_v6_loop 9 s1 [] (if start then Some 0%nat else None);
  if negb (bool_decide (rest = [])) then None else
  match ell with
  | Some e => if (length out <? 16)%nat
              then Some (take e out ++ replicate (16 - length out) Byte.x00 ++ drop e out)
              else None
  | None => if (length out =? 16)%nat then Some out else None
  end.

(** [net.ParseIP]: the first '.' or ':' decides the family; a zone is refused (its '%' is no digit). *)
Definition ParseIP (s : bytes) : option IP :=
  match head (filter (λ b, b = chr "." ∨ b = chr ":") s) with
  | Some c => if bool_decide (c = chr ".") then v4 ← parse_v4 s; Some (v4_in_v6_prefix ++ v4) else parse_v6 s
  | None => None
  end.

(** Dotted decimal. *)
Definition v4_string (l : bytes) : bytes := join (chr ".") (dec ∘ bval <$> l).

(** The 16-bit groups of a 16-byte address, and the start and length of their longest run of at least
    two zeros (the first one among equals). *)
Definition groups (ip : bytes) : list Z :=
  (λ i, bval (nth (2 * i) ip Byte.x00) * 256 + bval (nth (2 * i + 1) ip Byte.x00)) <$> seq 0 8.

Fixpoint zero_run (l : list Z) : nat :=
  match l with z :: r => if z =? 0 then S (zero_run r) else 0%nat | [] => 0%nat end.

Fixpoint longest_zeros (i : nat) (l : list Z) (best : nat * nat) : nat * nat :=
  match l with
  | [] => best
  | _ :: r => let n := zero_run l in
              longest_zeros (S i) r (if (snd best <? n)%nat && (2 <=? n)%nat then (i, n) else best)
  end.

(** Lower-case hexadecimal without leading zeros. *)
Fixpoint hex_aux (fuel : nat) (n : Z) : bytes :=
  match fuel with
  | O => []
  | S f => if n <? 16 then [hexdigit n] else hex_aux f (n / 16) ++ [hexdigit (n mod 16)]
  end.
Definition hex_group (n : Z) : bytes := hex_aux 4 n.

Definition v6_string (ip : bytes) : bytes :=
  let g := groups ip in
  let '(st, n) := longest_zeros 0 g (0%nat, 0%nat) in
  if (n =? 0)%nat then join (chr ":") (hex_group <$> g)
  else join (chr ":") (hex_group <$> take st g) ++ str "::" ++ join (chr ":") (hex_group <$> drop (st + n) g).

(** [ip.String()] for the two lengths the program produces. *)
Definition IP_String (ip : IP) : bytes :=
  match To4 ip with
  | Some v4 => v4_string v4
  | None => v6_string ip
  end.

Example parse_ex1 : ParseIP (str "192.168.1.7") = Some (v4_in_v6_prefix ++ (zbyte <$> [192; 168; 1; 7])).
Proof. vm_compute. reflexivity. Qed.
Example parse_ex2 : IP_String <$> ParseIP (str "2001:DB8:0:0:1::1") = Some (str "2001:db8::1:0:0:1").
Proof. vm_compute. reflexivity. Qed.
Example parse_ex3 : ParseIP (str "1::2::3") = None ∧ ParseIP (str "01.2.3.4") = None ∧ ParseIP (str "::%eth0") = None.
Proof. vm_compute. done. Qed.
Example parse_ex4 : IP_String <$> ParseIP (str "::ffff:1.2.3.4") = Some (str "1.2.3.4").
Proof. vm_compute. reflexivity. Qed.
Example split_ex : SplitHostPort (str "[::1]:80") = Some (str "::1", str "80") ∧ SplitHostPort (str "::1:80") = None.
Proof. vm_compute. done. Qed.

(** ** Lemmas *)

(** Splitting inverts joining: for a host without brackets and a port without colon or bracket. *)
Definition plain_host (h : bytes) : Prop := (chr "[" ∉ h) ∧ (chr "]" ∉ h).
Definition plain_port (p : bytes) : Prop := (chr ":" ∉ p) ∧ (chr "[" ∉ p) ∧ (chr "]" ∉ p).

Lemma head_notin (c : byte) l : c ∉ l → head l ≠ Some c.
Proof. destruct l as [|b l]; [done|]. intros H [= ->]. apply H. left. Qed.

Lemma index_byte_app_r s r c : c ∉ s → index_byte (s ++ c :: r) c = Some (length s).
Proof.
  intros H. induction s as [|b s IH]; simpl; [by rewrite bool_decide_true|].
  apply not_elem_of_cons in H as [H1 H2]. rewrite bool_decide_false by auto. by rewrite IH.
Qed.

Lemma not_elem_of_app_cons (c d : byte) l k : c ∉ l → c ≠ d → c ∉ k → c ∉ l ++ d :: k.
Proof. rewrite elem_of_app, elem_of_cons. tauto. Qed.

Lemma SplitHostPort_join h p : plain_host h → plain_port p → SplitHostPort (JoinHostPort h p) = Some (h, p).
Proof.
  intros [H1 H2] (P1 & P2 & P3). unfold JoinHostPort, SplitHostPort. destruct (index_byte h (chr ":")) as [i|] eqn:Ei.
  - change (str "]:" ++ p) with (chr "]" :: chr ":" :: p).
    replace (chr "[" :: h ++ chr "]" :: chr ":" :: p) with ((chr "[" :: h ++ [chr "]"]) ++ chr ":" :: p)
      by (by rewrite <- app_comm_cons, <- app_assoc).
    rewrite last_index_byte_app by done. cbn [head app]. rewrite bool_decide_true by done.
    rewrite <- app_assoc. cbn [app index_byte].
    rewrite (bool_decide_false (chr "[" = chr "]")) by done. rewrite index_byte_app_r by done. cbn [fmap option_fmap option_map].
    cbn [length]. rewrite !length_app. cbn [length].
    rewrite (proj2 (Nat.eqb_neq _ _)) by lia. replace (length h + 1)%nat with (S (length h)) by lia. rewrite Nat.eqb_refl.
    replace (S (length h) - 1)%nat with (length h) by lia. cbn [mbind option_bind drop].
    rewrite drop_0, take_app_length.
    replace (index_byte (h ++ chr "]" :: chr ":" :: p) (chr "[")) with (@None nat).
    2:{ symmetry. apply index_byte_None. apply not_elem_of_app_cons; [done|done|].
        rewrite elem_of_cons. intros [?|?]; done. }
    replace (drop (S (length h)) (h ++ chr "]" :: chr ":" :: p)) with (chr ":" :: p)
      by (by rewrite <- (Nat.add_1_r (length h)), <- drop_drop, drop_app_length).
    replace (index_byte (chr ":" :: p) (chr "]")) with (@None nat).
    2:{ symmetry. apply index_byte_None. rewrite elem_of_cons. intros [?|?]; done. }
    do 2 f_equal. replace (S (S (length h))) with (length h + 2)%nat by lia. by rewrite <- drop_drop, drop_app_length.
  - rewrite last_index_byte_app by done. rewrite bool_decide_false.
    2:{ destruct h as [|b h]; simpl; [done|]. intros [= ->]. apply H1. left. }
    rewrite take_app_length, Ei. cbn [mbind option_bind]. rewrite !drop_0.
    replace (index_byte (h ++ chr ":" :: p) (chr "[")) with (@None nat).
    2:{ symmetry. apply index_byte_None. by apply not_elem_of_app_cons. }
    replace (index_byte (h ++ chr ":" :: p) (chr "]")) with (@None nat).
    2:{ symmetry. apply index_byte_None. by apply not_elem_of_app_cons. }
    do 2 f_equal. rewrite <- (Nat.add_1_r (length h)), <- drop_drop, drop_app_length. done.
Qed.

(** Decimal numbers are plain ports. *)
Lemma dec_notin n c : 0 ≤ n → is_digit c = false → c ∉ dec n.
Proof.
  intros Hn Hc H. pose proof (dec_digits n Hn) as D. apply (proj1 (Forall_forall _ _) D) in H. congruence.
Qed.

Lemma plain_port_dec n : 0 ≤ n → plain_port (dec n).
Proof. intros. repeat split; by apply dec_notin. Qed.

(** Dotted decimal text is read back. *)
Lemma parse_octet_dec b : parse_octet (dec (bval b)) = Some b.
Proof. revert b. refine (forall_byte _ _). vm_compute. reflexivity. Qed.

Lemma v4_string_four a b c d :
  v4_string [a; b; c; d] = dec (bval a) ++ chr "." :: dec (bval b) ++ chr "." :: dec (bval c) ++ chr "." :: dec (bval d).
Proof. done. Qed.

Lemma parse_v4_string ip : length ip = 4%nat → parse_v4 (v4_string ip) = Some ip.
Proof.
  destruct ip as [|a [|b [|c [|d [|]]]]]; try done. intros _. unfold parse_v4, v4_string.
  rewrite split_join.
  - cbn [fmap list_fmap]. unfold compose. by rewrite !parse_octet_dec.
  - apply Forall_fmap, Forall_true. intros x. unfold compose. apply dec_notin; [|done]. apply bval_range.
  - done.
Qed.

Lemma v4_string_notin ip c : is_digit c = false → c ≠ chr "." → c ∉ v4_string ip.
Proof.
  intros Hc Hd. unfold v4_string. induction ip as [|a [|b ip] IH].
  - by intros ?%elem_of_nil.
  - apply dec_notin; [apply bval_range|done].
  - cbn [fmap list_fmap join] in *. apply not_elem_of_app_cons; [|done|exact IH].
    apply dec_notin; [apply bval_range|done].
Qed.

Lemma ParseIP_v4_string ip : length ip = 4%nat → ParseIP (v4_string ip) = Some (v4_in_v6_prefix ++ ip).
Proof.
  intros L. unfold ParseIP. replace (head (filter _ (v4_string ip))) with (Some (chr ".")).
  - by rewrite bool_decide_true, parse_v4_string.
  - destruct ip as [|a [|b [|c [|d [|]]]]]; try done. rewrite v4_string_four, filter_app, filter_cons_True by auto.
    replace (filter _ (dec (bval a))) with (@nil byte); [done|]. symmetry.
    pose proof (dec_digits (bval a) (proj1 (bval_range a))) as D. induction D as [|x l Hx D IH]; [done|].
    rewrite filter_cons_False; [done|]. intros [->| ->]; done.
Qed.

Lemma To4_mapped ip : length ip = 4%nat → To4 (v4_in_v6_prefix ++ ip) = Some ip.
Proof.
  intros L. unfold To4. rewrite length_app, L. cbn [length v4_in_v6_prefix replicate app Nat.add Nat.eqb andb].
  rewrite bool_decide_true by done. done.
Qed.

Lemma IP_String_v4 ip : length ip = 4%nat → IP_String ip = v4_string ip.
Proof. intros L. unfold IP_String, To4. by rewrite L. Qed.
