(* ===== verification/Wire.v ===== *)
(** * Package [client]: message framing and the piece bitfield

    Models [internal/client/wire.go] and [internal/client/bitfield.go].  The reading side of a
    connection is the list of bytes the peer sends before it closes (or the deadline passes);
    [ReadMessage] returns the message and the bytes left.  A message of length zero is the keep-alive,
    Go's nil [*Message], here [None].

    The theorems: [ReadMessage] accepts exactly the streams that begin with a well-formed frame of at
    most 2 MiB of payload, and it inverts [WriteMessage]; a bitfield is a set of piece indices. *)

From S2P Require Import Prelude.
From Stdlib Require Import ZArith Lia.
Local Open Scope Z_scope.
#[local] Ltac Zify.zify_post_hook ::= Z.to_euclidean_division_equations.

(** ** Messages *)

Definition MsgChoke := zbyte 0.
Definition MsgUnchoke := zbyte 1.
Definition MsgInterested := zbyte 2.
Definition MsgNotInterested := zbyte 3.
Definition MsgHave := zbyte 4.
Definition MsgBitfield := zbyte 5.
Definition MsgRequest := zbyte 6.
Definition MsgPiece := zbyte 7.
Definition MsgCancel := zbyte 8.
Definition MsgExtended := zbyte 20.

Record Message := mkMsg { ID : byte; Payload : bytes }.

#[export] Instance message_eq_decision : EqDecision Message.
Proof. solve_decision. Defined.

(** A nil [*Message] *)
Definition KeepAlive : option Message := None.

Inductive werr := ReadLength | ReadID | TooLarge | ReadPayload | WriteFailed.

(** ** Reading *)

(** [io.ReadFull(r, buf)] with [len(buf) = n]; [binary.Read] of a [uint32] reads 4 bytes this way. *)
Definition ReadFull (n : nat) (rx : bytes) : option (bytes * bytes) :=
  if (length rx <? n)%nat then None else Some (take n rx, drop n rx).

Definition maxPayload : Z := Z.shiftl 2 20.

Definition ReadMessage (rx : bytes) : result werr (option Message * bytes) :=
  '(lbuf, rx) ← of_option ReadLength (ReadFull 4 rx);
  let length := be_get lbuf in
  if length =? 0 then Ok (KeepAlive, rx) else
  '(idBuf, rx) ← of_option ReadID (ReadFull 1 rx);
  let id := nth 0 idBuf Byte.x00 in
  let payloadLen := uwrap 32 (length - 1) in
  if payloadLen =? 0 then Ok (Some (mkMsg id []), rx) else
  if maxPayload <? payloadLen then Err TooLarge else
  '(payload, rx) ← of_option ReadPayload (ReadFull (Z.to_nat payloadLen) rx);
  Ok (Some (mkMsg id payload), rx).

(** ** Writing *)

(** The bytes of the single [Write] call.  The length is a [uint32], so a payload of 4 GiB would wrap
    it and make the buffer too short for the header. *)
Definition WriteMessage (m : option Message) : result werr bytes :=
  match m with
  | None => Ok (zeros 4)
  | Some m =>
      let length := uwrap 32 (1 + zlen (Payload m)) in
      let n := Z.to_nat (uwrap 32 (4 + length)) in
      if (n <? 5)%nat then Panic else
      let buf := zeros n in
      let buf := copy_at 0 buf (be_put 4 length) in
      let buf := copy_at 4 buf [ID m] in
      Ok (copy_at 5 buf (Payload m))
  end.

Definition FormatRequest (index begin len : Z) : Message :=
  let payload := zeros 12 in
  let payload := copy_at 0 payload (be_put 4 index) in
  let payload := copy_at 4 payload (be_put 4 begin) in
  let payload := copy_at 8 payload (be_put 4 len) in
  mkMsg MsgRequest payload.

(** ** Bitfields *)

Abbreviation Bitfield := bytes (only parsing).

(** Go's [/] and [%] truncate towards zero.  A negative index of more than -8 reaches byte 0 with a
    shift count above 7, which clears the byte. *)
Definition HasPiece (b : Bitfield) (index : Z) : bool :=
  let byteIndex := Z.quot index 8 in
  let offset := Z.rem index 8 in
  if (byteIndex <? 0) || (zlen b <=? byteIndex) then false else
  match b !! Z.to_nat byteIndex with
  | Some x => negb (Z.land (Z.shiftr (bval x) (7 - offset)) 1 =? 0)
  | None => false
  end.

Definition SetPiece (b : Bitfield) (index : Z) : Bitfield :=
  let byteIndex := Z.quot index 8 in
  let offset := Z.rem index 8 in
  if (byteIndex <? 0) || (zlen b <=? byteIndex) then b else
  match b !! Z.to_nat byteIndex with
  | Some x => <[Z.to_nat byteIndex := zbyte (Z.lor (bval x) (uwrap 8 (Z.shiftl 1 (7 - offset))))]> b
  | None => b
  end.

(** [make] panics on a negative length. *)
Definition NewBitfield (n : Z) : result werr Bitfield :=
  let len := Z.quot (wrap64 (n + 7)) 8 in
  if len <? 0 then Panic else Ok (zeros (Z.to_nat len)).

(** ** Specification *)

(** The frame of a message: four bytes of length, then the id and the payload. *)
Definition frame (m : option Message) : bytes :=
  match m with
  | None => zeros 4
  | Some m => be_put 4 (1 + zlen (Payload m)) ++ ID m :: Payload m
  end.

(** What [ReadMessage] is ready to take. *)
Definition readable (m : option Message) : Prop :=
  match m with None => True | Some m => zlen (Payload m) ≤ maxPayload end.

(** ** Lemmas: framing *)

Lemma ReadFull_ok n rx a r : ReadFull n rx = Some (a, r) ↔ rx = a ++ r ∧ length a = n.
Proof.
  unfold ReadFull. destruct (Nat.ltb_spec (length rx) n).
  - split; [done|]. intros [-> <-]. rewrite length_app in *. lia.
  - split.
    + intros [= <- <-]. rewrite take_drop, length_take. split; [done|lia].
    + intros [-> <-]. by rewrite take_app_length, drop_app_length.
Qed.

Lemma ReadFull_app a r n : length a = n → ReadFull n (a ++ r) = Some (a, r).
Proof. intros. by apply ReadFull_ok. Qed.

Lemma maxPayload_val : maxPayload = 2097152.
Proof. reflexivity. Qed.

Lemma be_get_zero l : length l = 4%nat → be_get l = 0 → l = zeros 4.
Proof. intros Hl H0. rewrite <- (be_put_get l), Hl, H0. reflexivity. Qed.

Lemma be_get_put32 z : 0 ≤ z < 2 ^ 32 → be_get (be_put 4 z) = z.
Proof. intros. rewrite be_get_put. apply Z.mod_small. done. Qed.

Lemma read_frame m rest : readable m → ReadMessage (frame m ++ rest) = Ok (m, rest).
Proof.
  destruct m as [[id p]|]; cbn [frame readable Payload ID]; intros Hm; [|done].
  rewrite maxPayload_val in Hm. pose proof (zlen_nonneg p).
  unfold ReadMessage. rewrite <- app_assoc, ReadFull_app by done. simpl_res.
  rewrite be_get_put32 by lia. rewrite (proj2 (Z.eqb_neq _ _)) by lia.
  rewrite <- app_comm_cons. change (id :: p ++ rest) with ([id] ++ p ++ rest).
  rewrite ReadFull_app by done. simpl_res. cbn [nth].
  replace (uwrap 32 (1 + zlen p - 1)) with (zlen p) by (unfold uwrap; rewrite Z.mod_small; lia).
  destruct (Z.eqb_spec (zlen p) 0) as [E|E].
  - destruct p; [done|]. rewrite zlen_cons in E. pose proof (zlen_nonneg p). lia.
  - rewrite (proj2 (Z.ltb_ge _ _)) by (rewrite maxPayload_val; lia).
    unfold zlen at 1. rewrite Nat2Z.id, ReadFull_app by done. done.
Qed.

Lemma read_frame_inv rx m rest : ReadMessage rx = Ok (m, rest) → rx = frame m ++ rest ∧ readable m.
Proof.
  unfold ReadMessage. intros H.
  destruct (ReadFull 4 rx) as [[lb r1]|] eqn:E1; [|done]. apply ReadFull_ok in E1 as [-> L1]. simpl_res.
  pose proof (be_get_bound lb) as Hb. unfold zlen in Hb. rewrite L1 in Hb.
  assert (Elb : lb = be_put 4 (be_get lb)) by (rewrite <- L1; symmetry; apply be_put_get).
  destruct (Z.eqb_spec (be_get lb) 0) as [E0|E0].
  { injection H as <- <-. split; [|done]. by rewrite (be_get_zero lb). }
  destruct (ReadFull 1 r1) as [[ib r2]|] eqn:E2; [|done]. apply ReadFull_ok in E2 as [-> L2]. simpl_res.
  destruct ib as [|id [|]]; try done. cbn [nth] in H.
  assert (Ep : uwrap 32 (be_get lb - 1) = be_get lb - 1) by (unfold uwrap; apply Z.mod_small; lia).
  rewrite Ep in H. destruct (Z.eqb_spec (be_get lb - 1) 0) as [E3|E3].
  { injection H as <- <-. split; [|done]. cbn [frame ID Payload]. rewrite Elb.
    replace (be_get lb) with 1 by lia. done. }
  destruct (Z.ltb_spec maxPayload (be_get lb - 1)); [done|].
  destruct (ReadFull _ r2) as [[p r3]|] eqn:E4; [|done]. apply ReadFull_ok in E4 as [-> L4]. simpl_res.
  injection H as <- <-. assert (Hp : zlen p = be_get lb - 1) by (unfold zlen; lia).
  split; cbn [frame readable ID Payload]; [|lia]. rewrite Elb, Hp, <- app_assoc. do 2 f_equal. lia.
Qed.

Lemma write_frame m : readable m → WriteMessage m = Ok (frame m).
Proof.
  destruct m as [[id p]|]; cbn [frame WriteMessage readable ID Payload]; intros Hm; [|done]. rewrite maxPayload_val in Hm. pose proof (zlen_nonneg p).
  replace (uwrap 32 (1 + zlen p)) with (1 + zlen p) by (unfold uwrap; rewrite Z.mod_small; lia).
  replace (uwrap 32 (4 + (1 + zlen p))) with (5 + zlen p) by (unfold uwrap; rewrite Z.mod_small; lia).
  replace (Z.to_nat (5 + zlen p)) with (5 + length p)%nat by (unfold zlen; lia).
  rewrite (proj2 (Nat.ltb_ge _ _)) by lia. f_equal.
  change (zeros (5 + length p)) with ([] ++ zeros (5 + length p)).
  rewrite copy_at_fill by (rewrite ?length_be_put; simpl; lia).
  rewrite copy_at_fill by (rewrite ?length_be_put; simpl; lia).
  rewrite copy_at_fill by (rewrite ?length_app, ?length_be_put; simpl; lia).
  rewrite !length_be_put. cbn [length app]. replace (5 + length p - 4 - 1 - length p)%nat with 0%nat by lia.
  rewrite app_nil_r, <- !app_assoc. done.
Qed.

(** [ReadMessage] never panics. *)
Lemma read_returns rx : returns (ReadMessage rx).
Proof.
  unfold ReadMessage. destruct (ReadFull 4 rx) as [[lb r1]|]; simpl_res; [|done].
  case_match; [done|]. destruct (ReadFull 1 r1) as [[ib r2]|]; simpl_res; [|done].
  case_match; [done|]. case_match; [done|]. by destruct (ReadFull _ r2) as [[p r3]|].
Qed.

(** A whole stream of messages. *)
Fixpoint read_all (n : nat) (rx : bytes) : result werr (list (option Message)) :=
  match n with
  | O => Ok []
  | S n' => '(m, rx) ← ReadMessage rx; ms ← read_all n' rx; Ok (m :: ms)
  end.

Lemma read_all_frames ms rest : Forall readable ms → read_all (length ms) (flat_map frame ms ++ rest) = Ok ms.
Proof.
  induction 1 as [|m ms Hm Hms IH]; [done|]. cbn [length read_all flat_map].
  rewrite <- app_assoc, read_frame by done. simpl_res. by rewrite IH.
Qed.

(** ** Lemmas: bitfields *)

Lemma quot_rem_pos i : 0 ≤ i → Z.quot i 8 = i / 8 ∧ Z.rem i 8 = i `mod` 8.
Proof. intros. rewrite Z.quot_div_nonneg, Z.rem_mod_nonneg by lia. done. Qed.

Lemma byte_bit x k : 0 ≤ k → negb (Z.land (Z.shiftr x k) 1 =? 0) = Z.testbit x k.
Proof.
  intros Hk. change 1 with (Z.ones 1). rewrite Z.land_ones by lia. rewrite Z.testbit_eqb, Z.shiftr_div_pow2 by lia.
  pose proof (Z.mod_pos_bound (x / 2 ^ k) 2). change (2 ^ 1) with 2.
  destruct (Z.eqb_spec ((x / 2 ^ k) `mod` 2) 0), (Z.eqb_spec ((x / 2 ^ k) `mod` 2) 1); simpl; lia.
Qed.

(** [HasPiece] is false outside the bitfield, and inside it tests one bit. *)
Lemma HasPiece_bit b i : 0 ≤ i < 8 * zlen b →
  HasPiece b i = Z.testbit (bval (nth (Z.to_nat (i / 8)) b Byte.x00)) (7 - i `mod` 8).
Proof.
  intros Hi. unfold HasPiece. destruct (quot_rem_pos i) as [-> ->]; [lia|].
  rewrite (proj2 (Z.ltb_ge (i / 8) 0)), (proj2 (Z.leb_gt (zlen b) (i / 8))) by lia. cbn [orb].
  destruct (b !! Z.to_nat (i / 8)) as [x|] eqn:E.
  - rewrite byte_bit by lia. by rewrite (nth_lookup_Some _ _ _ _ E).
  - apply lookup_ge_None in E. unfold zlen in *. lia.
Qed.

Lemma HasPiece_out b i : i < 0 ∨ 8 * zlen b ≤ i → HasPiece b i = false.
Proof.
  intros H. unfold HasPiece. destruct (Z.ltb_spec (Z.quot i 8) 0); [done|].
  destruct (Z.leb_spec (zlen b) (Z.quot i 8)); [done|]. cbn [orb].
  destruct (b !! _) as [x|]; [|done].
  destruct (Z.le_gt_cases 0 i) as [Hp|Hp]; [destruct (quot_rem_pos i Hp); lia|].
  (* -8 < i < 0: the shift count exceeds 7 *)
  assert (Z.rem i 8 < 0) by lia.
  rewrite byte_bit by lia. pose proof (bval_range x).
  apply Z.bits_above_log2; [lia|]. destruct (Z.eq_dec (bval x) 0) as [->|]; [simpl; lia|].
  apply Z.log2_lt_pow2; [lia|]. apply (Z.lt_le_trans _ (2 ^ 8)); [lia|]. apply Z.pow_le_mono_r; lia.
Qed.

Lemma length_SetPiece b i : length (SetPiece b i) = length b.
Proof. unfold SetPiece. repeat case_match; by rewrite ?length_insert. Qed.

Lemma SetPiece_neg b i : i < 0 → SetPiece b i = b.
Proof.
  intros H. unfold SetPiece. destruct (Z.ltb_spec (Z.quot i 8) 0); [done|].
  destruct (Z.leb_spec (zlen b) (Z.quot i 8)); [done|]. cbn [orb].
  destruct (b !! _) as [x|] eqn:E; [|done].
  assert (Z.rem i 8 < 0) by lia.
  replace (uwrap 8 (Z.shiftl 1 (7 - Z.rem i 8))) with 0.
  - rewrite Z.lor_0_r, zbyte_bval. by apply list_insert_id.
  - unfold uwrap. rewrite Z.shiftl_1_l.
    replace (7 - Z.rem i 8) with ((- Z.rem i 8 - 1) + 8) by lia. rewrite Z.pow_add_r by lia.
    by rewrite Z_mod_mult.
Qed.

Lemma byte_lor_bit x k j : 0 ≤ k < 8 → 0 ≤ j < 8 →
  Z.testbit (bval (zbyte (Z.lor (bval x) (uwrap 8 (Z.shiftl 1 k))))) j = Z.testbit (bval x) j || (j =? k).
Proof.
  intros Hk Hj. unfold uwrap. rewrite Z.shiftl_1_l, (Z.mod_small (2 ^ k)).
  - rewrite bval_zbyte. change 256 with (2 ^ 8). rewrite Z.mod_pow2_bits_low by lia.
    rewrite Z.lor_spec, Z.pow2_bits_eqb by lia. by rewrite (Z.eqb_sym k j).
  - split; [apply Z.pow_nonneg; lia|]. apply Z.pow_lt_mono_r; lia.
Qed.

Lemma HasPiece_Set b i j :
  HasPiece (SetPiece b i) j = HasPiece b j || bool_decide (i = j ∧ 0 ≤ i < 8 * zlen b).
Proof.
  destruct (Z.lt_ge_cases i 0) as [Hi|Hi].
  { rewrite SetPiece_neg by done. rewrite bool_decide_false by lia. by rewrite orb_false_r. }
  assert (EL : zlen (SetPiece b i) = zlen b) by (unfold zlen; by rewrite length_SetPiece).
  destruct (decide (0 ≤ j < 8 * zlen b)) as [Hj|Hj].
  2:{ rewrite !HasPiece_out by (rewrite ?EL; lia). rewrite bool_decide_false by lia. done. }
  rewrite !HasPiece_bit by (rewrite ?EL; lia). unfold SetPiece. destruct (quot_rem_pos i Hi) as [-> ->].
  rewrite (proj2 (Z.ltb_ge _ _)) by lia. cbn [orb].
  destruct (Z.leb_spec (zlen b) (i / 8)).
  { rewrite bool_decide_false by lia. by rewrite orb_false_r. }
  destruct (b !! Z.to_nat (i / 8)) as [x|] eqn:E.
  2:{ apply lookup_ge_None in E. unfold zlen in *. lia. }
  destruct (Z.eq_dec (i / 8) (j / 8)) as [Eb|Eb].
  - rewrite <- Eb at 1. rewrite (nth_lookup_Some _ _ _ (zbyte (Z.lor (bval x) (uwrap 8 (Z.shiftl 1 (7 - i `mod` 8)))))).
    2:{ apply list_lookup_insert_eq. by apply lookup_lt_Some in E. }
    rewrite byte_lor_bit by lia. rewrite <- Eb, (nth_lookup_Some _ _ _ _ E). f_equal.
    destruct (Z.eqb_spec (7 - j `mod` 8) (7 - i `mod` 8)) as [Em|Em]; symmetry.
    + apply bool_decide_true. lia.
    + apply bool_decide_false. intros [-> _]. lia.
  - rewrite bool_decide_false by (intros [-> _]; done). rewrite orb_false_r. f_equal. f_equal.
    rewrite !nth_lookup. rewrite list_lookup_insert_ne; [done|]. lia.
Qed.

(** [FormatRequest] lays out its three words in order. *)
Lemma FormatRequest_layout i b l :
  FormatRequest i b l = mkMsg MsgRequest (be_put 4 i ++ be_put 4 b ++ be_put 4 l).
Proof. reflexivity. Qed.

Lemma fields_of_layout i b l (rest : bytes) : let p := be_put 4 i ++ be_put 4 b ++ be_put 4 l ++ rest in
  slice p 0 4 = be_put 4 i ∧ slice p 4 8 = be_put 4 b ∧ slice p 8 12 = be_put 4 l ∧ drop 8 p = be_put 4 l ++ rest.
Proof. done. Qed.

(** ** Properties *)

(** C30. Framing: [ReadMessage] takes a message off the stream exactly when the stream begins with the frame
    of a message of at most 2 MiB of payload, and then leaves the bytes that follow the frame; on every
    other stream it returns an error. *)
Theorem read_message_frames rx m rest :
  (ReadMessage rx = Ok (m, rest) ↔ rx = frame m ++ rest ∧ readable m) ∧ returns (ReadMessage rx).
Proof.
  split; [|apply read_returns]. split; [apply read_frame_inv|]. intros [-> Hm]. by apply read_frame.
Qed.

(** Round trip: a sequence of messages within the payload limit, written with [WriteMessage] one
    after the other, is read back by [ReadMessage] as the same sequence, whatever follows. *)
Theorem message_stream_roundtrip ms rest :
  Forall readable ms →
  ∃ chunks, mapM WriteMessage ms = Ok chunks ∧ read_all (length ms) (concat chunks ++ rest) = Ok ms.
Proof.
  intros Hms. exists (frame <$> ms). split.
  - induction Hms as [|m ms Hm Hms IH]; [done|].
    change ((y ← WriteMessage m; k ← mapM WriteMessage ms; mret (y :: k)) = Ok (frame <$> m :: ms)).
    by rewrite write_frame, IH by done.
  - rewrite <- (read_all_frames ms rest Hms), flat_map_concat_map. done.
Qed.

(** A bitfield message, an unchoke, a keep-alive and a request, as a peer would send them. *)
Definition sample_stream : list (option Message) :=
  [Some (mkMsg MsgBitfield [Byte.xc0]); Some (mkMsg MsgUnchoke []); KeepAlive; Some (FormatRequest 3 16384 16384)].

Lemma message_stream_roundtrip_witness :
  Forall readable sample_stream ∧
  ∃ chunks, mapM WriteMessage sample_stream = Ok chunks
    ∧ read_all (length sample_stream) (concat chunks ++ [Byte.x00]) = Ok sample_stream.
Proof.
  assert (H : Forall readable sample_stream) by (repeat constructor; vm_compute; done).
  split; [exact H|]. exact (message_stream_roundtrip sample_stream [Byte.x00] H).
Defined.

(** [FormatRequest] puts index, begin and length where the receiver reads them: the three 32-bit
    words of the payload decode to them. *)
Theorem FormatRequest_decodes index begin len :
  0 ≤ index < 2 ^ 32 → 0 ≤ begin < 2 ^ 32 → 0 ≤ len < 2 ^ 32 →
  let p := Payload (FormatRequest index begin len) in
  zlen p = 12 ∧ be_get (slice p 0 4) = index ∧ be_get (slice p 4 8) = begin ∧ be_get (slice p 8 12) = len.
Proof.
  intros Hi Hb Hl. rewrite FormatRequest_layout. cbn [Payload].
  destruct (fields_of_layout index begin len []) as (E1 & E2 & E3 & _). rewrite app_nil_r in *.
  by rewrite E1, E2, E3, !be_get_put32.
Qed.

Lemma FormatRequest_decodes_witness :
  0 ≤ 16384 < 2 ^ 32 ∧ be_get (slice (Payload (FormatRequest 7 16384 5)) 4 8) = 16384.
Proof. split; [lia|]. apply (FormatRequest_decodes 7 16384 5); lia. Defined.

(** A bitfield is a set of piece indices: [NewBitfield n] is the empty set with room for every index
    below [n], [SetPiece] adds an index that is in range and changes nothing otherwise, negative
    indices included. *)
Theorem bitfield_is_set b n i j :
  HasPiece (SetPiece b i) j = (HasPiece b j || bool_decide (i = j ∧ 0 ≤ i < 8 * zlen b))
  ∧ zlen (SetPiece b i) = zlen b
  ∧ (0 ≤ n < 2 ^ 62 → ∃ e, NewBitfield n = Ok e ∧ n ≤ 8 * zlen e < n + 8 ∧ HasPiece e j = false).
Proof.
  split; [apply HasPiece_Set|]. split; [unfold zlen; by rewrite length_SetPiece|]. intros Hn.
  exists (zeros (Z.to_nat ((n + 7) / 8))). unfold NewBitfield.
  rewrite wrap64_id by (unfold in_int64; lia). rewrite Z.quot_div_nonneg by lia.
  rewrite (proj2 (Z.ltb_ge _ _)) by lia. split; [done|].
  assert (EL : zlen (zeros (Z.to_nat ((n + 7) / 8))) = (n + 7) / 8) by (unfold zlen; rewrite length_zeros; lia).
  rewrite EL. split; [lia|]. destruct (decide (0 ≤ j < 8 * ((n + 7) / 8))).
  - rewrite HasPiece_bit by (rewrite EL; done). unfold zeros. rewrite nth_lookup.
    destruct (replicate _ _ !! _) eqn:E; [apply lookup_replicate in E as [-> _]|]; apply Z.testbit_0_l.
  - apply HasPiece_out. rewrite EL. lia.
Qed.

Lemma bitfield_is_set_witness :
  HasPiece (SetPiece [Byte.x00; Byte.x00] 9) 9 = true ∧ (∃ e, NewBitfield 9 = Ok e ∧ 9 ≤ 8 * zlen e < 17 ∧ HasPiece e 3 = false).
Proof.
  split; [vm_compute; reflexivity|]. apply (bitfield_is_set [Byte.x00; Byte.x00] 9 9 3). lia.
Defined.
