(* ===== verification/BencodeEnd.v ===== *)
(** * Package [client]: the end of a bencoded header

    Models [findBencodeEnd] of [internal/client/metadata.go], which finds where the bencoded
    dictionary of a BEP 9 reply ends and the raw piece data begins.  Positions and lengths are int64
    as in the code: a declared string length can wrap the next position around to a negative one, on
    which the next indexing panics.

    The theorems: the scan returns exactly the length of the encoding at the front of the payload; it
    ends on every input, and a non-negative result is a position inside the buffer; and a payload
    that announces a string of 2^63-1 bytes inside a dictionary makes it panic. *)

From S2P Require Import Prelude Strconv Bencode.
From Stdlib Require Import ZArith Lia.
Local Open Scope Z_scope.

(** ** The scan *)

Section scan.
Context (b : bytes).

(** [for end < len(b) && b[end] != 'e' { end++ }] *)
Fixpoint skip_to_e (fuel pos : nat) : nat :=
  match fuel with
  | O => pos
  | S f => match b !! pos with
           | Some c => if bool_decide (c = chr "e") then pos else skip_to_e f (S pos)
           | None => pos
           end
  end.

(** [for _, c := range b[pos:numEnd] { next := length*10 + int(c-'0'); if next < length { return -1 }; ... }] *)
Fixpoint declared_length (ds : bytes) (length : Z) : option Z :=
  match ds with
  | [] => Some length
  | c :: ds => let next := wrap64 (length * 10 + digit_val c) in
               if next <? length then None else declared_length ds next
  end.

(** One round of the loop: return a value, or go on with a position and a depth. *)
Inductive outcome :=
| Return (n : Z)
| Continue (pos depth : Z).

(** [if depth == 0 { return pos }], after the switch *)
Definition end_round (pos depth : Z) : outcome := if depth =? 0 then Return pos else Continue pos depth.

(** The body of the loop at position [p], where the byte [c] is. *)
Definition round (p : nat) (c : byte) (depth : Z) : outcome :=
  let pos := Z.of_nat p in
  if bool_decide (c = chr "d") || bool_decide (c = chr "l") then end_round (pos + 1) (depth + 1)
  else if bool_decide (c = chr "e") then
    if depth - 1 =? 0 then Return (pos + 1) else end_round (pos + 1) (depth - 1)
  else if bool_decide (c = chr "i") then
    let e := skip_to_e (length b) (S p) in
    if (length b <=? e)%nat then Return (-1) else end_round (Z.of_nat e + 1) depth
  else if is_digit c then
    let numEnd := skip_digits b (length b) p in
    if bool_decide (b !! numEnd ≠ Some (chr ":")) then Return (-1) else
    match declared_length (slice b p numEnd) 0 with
    | None => Return (-1)
    | Some len =>
        let next := wrap64 (Z.of_nat numEnd + 1 + len) in
        if zlen b <? next then Return (-1) else end_round next depth
    end
  else Return (-1).

(** A negative position passes the loop condition and panics at [b[pos]]. *)
Fixpoint find_loop (fuel : nat) (pos depth : Z) : result Empty_set Z :=
  match fuel with
  | O => NoFuel
  | S f =>
      if zlen b <=? pos then Ok (-1) else
      if pos <? 0 then Panic else
      match b !! Z.to_nat pos with
      | None => Panic
      | Some c => match round (Z.to_nat pos) c depth with
                  | Return n => Ok n
                  | Continue pos' depth' => find_loop f pos' depth'
                  end
      end
  end.

(** Every round moves forward, so one unit of fuel per byte and one for the exit is enough. *)
Definition findBencodeEnd : result Empty_set Z :=
  if bool_decide (b = []) then Ok (-1) else find_loop (S (length b)) 0 0.

End scan.

Example find_ex1 : findBencodeEnd (str "d8:msg_typei1e5:piecei0eeDATA") = Ok 25.
Proof. vm_compute. reflexivity. Qed.
Example find_ex2 : findBencodeEnd (str "9223372036854775807:") = Ok (-9223372036854775789).
Proof. vm_compute. reflexivity. Qed.

(** ** Lemmas: the scanners *)

Lemma skip_to_e_spec b fuel p : (p ≤ skip_to_e b fuel p ≤ Nat.max p (length b))%nat.
Proof.
  revert p. induction fuel as [|f IH]; intros p; simpl; [lia|].
  destruct (b !! p) as [c|] eqn:E; [|lia]. apply lookup_lt_Some in E.
  case_bool_decide; [lia|]. specialize (IH (S p)). lia.
Qed.

Lemma skip_to_e_app b p ds r fuel :
  drop p b = ds ++ chr "e" :: r → chr "e" ∉ ds → (length ds < fuel)%nat → skip_to_e b fuel p = (p + length ds)%nat.
Proof.
  intros E N. revert p fuel E. induction ds as [|d ds IH]; intros p fuel E Hf.
  - destruct fuel as [|f]; simpl in *; [lia|]. destruct (lookup_of_drop _ _ _ _ E) as [-> _].
    rewrite bool_decide_true by done. lia.
  - apply not_elem_of_cons in N as [N1 N2]. destruct fuel as [|f]; simpl in *; [lia|].
    destruct (lookup_of_drop _ _ _ _ E) as [-> E']. rewrite bool_decide_false by auto.
    rewrite (IH N2 (S p) f E'); lia.
Qed.

Lemma skip_digits_bound b fuel p : (p ≤ skip_digits b fuel p ≤ Nat.max p (length b))%nat.
Proof.
  destruct (skip_digits_sound b fuel p) as (ds & r & E & _ & -> & _).
  apply (f_equal length) in E. rewrite length_drop, length_app in E. lia.
Qed.

Lemma declared_length_complete ds n :
  digits ds → 0 ≤ n → foldl (λ acc d, acc * 10 + digit_val d) n ds < 2 ^ 63 →
  declared_length ds n = Some (foldl (λ acc d, acc * 10 + digit_val d) n ds).
Proof.
  intros D. revert n. induction D as [|d ds Dd%digit_val_range D IH]; simpl; intros n Hn Hb; [done|].
  pose proof (foldl_dval_mono ds (n * 10 + digit_val d) D).
  rewrite wrap64_id by (unfold in_int64; lia). rewrite (proj2 (Z.ltb_ge _ _)) by lia. apply IH; [lia|done].
Qed.

Lemma declared_length_range ds n len : 0 ≤ n < 2 ^ 63 → declared_length ds n = Some len → 0 ≤ len < 2 ^ 63.
Proof.
  revert n. induction ds as [|d ds IH]; simpl; intros n Hn H; [by simplify_eq|].
  case_match eqn:E; [done|]. apply Z.ltb_ge in E. eapply IH; [|exact H].
  pose proof (wrap64_range (n * 10 + digit_val d)) as R. unfold in_int64 in R. lia.
Qed.

(** ** Termination and bounds *)

(** A round that goes on either moves forward inside the buffer or has wrapped around, and a round
    that returns does so with a position in the buffer or a negative number. *)
Definition forward (b : bytes) (p : nat) (pos : Z) : Prop := Z.of_nat p < pos ≤ zlen b ∨ pos < 0.

Definition lands (b : bytes) (p : nat) (o : outcome) : Prop :=
  match o with Return pos | Continue pos _ => forward b p pos end.

Lemma round_forward b p c depth :
  (p < length b)%nat → zlen b < 2 ^ 62 → lands b p (round b p c depth).
Proof.
  intros Hp Hb. assert (Hz : zlen b = Z.of_nat (length b)) by done.
  assert (Hend : ∀ pos d, forward b p pos → lands b p (end_round pos d)).
  { intros pos d H. unfold end_round. by destruct (d =? 0). }
  assert (Hone : forward b p (Z.of_nat p + 1)) by (unfold forward; lia).
  assert (Hneg : forward b p (-1)) by (unfold forward; lia).
  unfold round. case_match; [by apply Hend|]. case_match; [case_match; [done|by apply Hend]|].
  case_match.
  { pose proof (skip_to_e_spec b (length b) (S p)). destruct (Nat.leb_spec (length b) (skip_to_e b (length b) (S p))); [done|].
    apply Hend. unfold forward. lia. }
  case_match; [|done]. case_match; [done|]. case_match eqn:E; [|done].
  apply declared_length_range in E; [|lia]. pose proof (skip_digits_bound b (length b) p).
  case_match eqn:E2; [done|]. apply Z.ltb_ge in E2. apply Hend. unfold forward.
  set (x := Z.of_nat (skip_digits b (length b) p) + 1 + z) in *.
  destruct (Z_lt_ge_dec x (2 ^ 63)).
  - rewrite wrap64_id in * by (unfold in_int64; lia). lia.
  - rewrite wrap64_over by lia. lia.
Qed.

Lemma find_loop_total b fuel pos depth :
  zlen b < 2 ^ 62 → pos ≤ zlen b → (length b < fuel + Z.to_nat pos)%nat →
  match find_loop b fuel pos depth with
  | Ok e => e < 0 ∨ 0 < e ≤ zlen b
  | Panic => True
  | _ => False
  end.
Proof.
  assert (Hz : zlen b = Z.of_nat (length b)) by done.
  intros Hb. revert pos depth. induction fuel as [|f IH]; intros pos depth Hpos Hf; cbn [find_loop].
  { lia. }
  destruct (Z.leb_spec (zlen b) pos); [simpl; lia|]. destruct (Z.ltb_spec pos 0); [done|].
  destruct (b !! Z.to_nat pos) as [c|] eqn:E; [|done].
  pose proof (round_forward b (Z.to_nat pos) c depth (lookup_lt_Some _ _ _ E) Hb) as Hr.
  unfold lands, forward in Hr. destruct (round _ _ _ _) as [n|pos' depth']; [lia|].
  destruct (Z_lt_ge_dec pos' 0).
  - destruct f as [|f]; [lia|]. cbn [find_loop]. destruct (Z.leb_spec (zlen b) pos'); [simpl; lia|].
    by rewrite (proj2 (Z.ltb_lt _ _)).
  - apply IH; lia.
Qed.

(** ** Correctness on encodings *)

(** The scan moves over a value: from its first byte to the one after its last, in at most as many
    rounds as it has bytes; at depth zero it returns there. *)
Definition scans (b : bytes) (v : tree) : Prop := ∀ p r depth,
  drop p b = encode v ++ r → 0 ≤ depth →
  ∃ n, (n ≤ length (encode v))%nat ∧ ∀ f,
    find_loop b (n + f) (Z.of_nat p) depth =
      if depth =? 0 then Ok (Z.of_nat p + zlen (encode v))
      else find_loop b f (Z.of_nat p + zlen (encode v)) depth.

(** One round of the loop, at the position of the byte [c]. *)
Lemma find_loop_S b f p depth c s :
  drop p b = c :: s →
  find_loop b (S f) (Z.of_nat p) depth =
    match round b p c depth with Return n => Ok n | Continue pos' depth' => find_loop b f pos' depth' end.
Proof.
  intros E. cbn [find_loop]. destruct (lookup_of_drop _ _ _ _ E) as [Ec _].
  pose proof (lookup_lt_Some _ _ _ Ec). unfold zlen.
  rewrite (proj2 (Z.leb_gt _ _)), (proj2 (Z.ltb_ge _ _)) by lia. by rewrite Nat2Z.id, Ec.
Qed.

Lemma end_round_eq b f pos depth :
  match end_round pos depth with Return n => Ok n | Continue pos' depth' => find_loop b f pos' depth' end
  = if depth =? 0 then Ok pos else find_loop b f pos depth.
Proof. unfold end_round. by destruct (depth =? 0). Qed.

Lemma scans_int b z : scans b (BInt z).
Proof.
  intros p r depth E Hd. exists 1%nat. split; [simpl; lia|]. intros f. cbn [encode] in *. change (1 + f)%nat with (S f).
  rewrite (find_loop_S b f p depth (chr "i") (itoa z ++ chr "e" :: r)) by (rewrite E; simpl; by rewrite <- app_assoc).
  unfold round. rewrite !bool_decide_false by done. rewrite bool_decide_true by done. cbn [orb].
  simpl app in E. destruct (lookup_of_drop _ _ _ _ E) as [_ E']. rewrite <- app_assoc in E'.
  assert (L : length (drop (S p) b) = (length (itoa z) + 1 + length r)%nat) by (rewrite E', length_app; simpl; lia).
  rewrite length_drop in L. rewrite (skip_to_e_app b (S p) (itoa z) r) by (try apply itoa_not_e; try done; lia).
  rewrite (proj2 (Nat.leb_gt _ _)) by lia. rewrite end_round_eq.
  rewrite zlen_cons, zlen_app. change (zlen [chr "e"]) with 1.
  replace (Z.of_nat (S p + length (itoa z)) + 1) with (Z.of_nat p + (1 + (zlen (itoa z) + 1))) by (unfold zlen; lia).
  done.
Qed.

(** A string, as a value or as a dictionary key. *)
Lemma find_loop_str b s p r depth f :
  zlen b < 2 ^ 62 → drop p b = enc_str s ++ r →
  find_loop b (S f) (Z.of_nat p) depth =
    if depth =? 0 then Ok (Z.of_nat p + zlen (enc_str s)) else find_loop b f (Z.of_nat p + zlen (enc_str s)) depth.
Proof.
  intros Hb E. destruct (enc_str_head s) as (d & t & Eh & Hd).
  rewrite (find_loop_S b f p depth d (t ++ r)) by (rewrite E, Eh; done).
  assert (Hne : ∀ c, is_digit c = false → d ≠ c) by (intros c Hc ->; congruence).
  unfold round. rewrite !bool_decide_false by (by apply Hne). rewrite Hd. cbn [orb].
  unfold enc_str in E. rewrite <- app_assoc in E. pose proof (zlen_nonneg s) as Hs.
  pose proof (dec_digits (zlen s) Hs) as D.
  rewrite (skip_digits_complete b p (dec (zlen s)) ((chr ":" :: s) ++ r)) by done.
  pose proof (drop_of_app _ _ _ _ E) as E'. destruct (lookup_of_drop _ _ _ _ E') as [-> _].
  rewrite bool_decide_false by tauto. rewrite (slice_of_app b p (dec (zlen s)) _ E).
  assert (L : length (drop p b) = (length (dec (zlen s)) + 1 + length s + length r)%nat).
  { rewrite E, !length_app. simpl. lia. }
  rewrite length_drop in L. assert (Zs : zlen s = Z.of_nat (length s)) by done.
  assert (Zb : zlen b = Z.of_nat (length b)) by done.
  assert (Hds : foldl (λ acc d, acc * 10 + digit_val d) 0 (dec (zlen s)) = zlen s) by (by apply dval_dec).
  rewrite declared_length_complete by (rewrite ?Hds; try done; lia).
  rewrite Hds. rewrite wrap64_id by (unfold in_int64; lia).
  rewrite (proj2 (Z.ltb_ge _ _)) by lia. rewrite end_round_eq.
  unfold enc_str. rewrite zlen_app, zlen_cons.
  replace (Z.of_nat (p + length (dec (zlen s))) + 1 + zlen s) with (Z.of_nat p + (zlen (dec (zlen s)) + (1 + zlen s)))
    by (unfold zlen; lia).
  done.
Qed.

Lemma scans_str b s : zlen b < 2 ^ 62 → scans b (BStr s).
Proof.
  intros Hb p r depth E Hd. exists 1%nat. cbn [encode] in *. split.
  - destruct (enc_str_head s) as (d & t & -> & _). simpl. lia.
  - intros f. change (1 + f)%nat with (S f). by apply (find_loop_str b s p r).
Qed.

Lemma zpos p (l : bytes) : Z.of_nat p + zlen l = Z.of_nat (p + length l).
Proof. unfold zlen. lia. Qed.

(** The elements of a container, one depth further in. *)
Lemma scans_items b l depth : Forall (scans b) l → 0 < depth → ∀ p r,
  drop p b = enc_list l ++ r →
  ∃ n, (n ≤ length (enc_list l))%nat ∧ ∀ f,
    find_loop b (n + f) (Z.of_nat p) depth = find_loop b f (Z.of_nat p + zlen (enc_list l)) depth.
Proof.
  intros Hl Hd. induction Hl as [|v l Hv Hl IH]; intros p r E.
  { exists 0%nat. split; [done|]. intros f. by rewrite Z.add_0_r. }
  unfold enc_list in *. cbn [flat_map] in *. rewrite <- app_assoc in E.
  destruct (Hv p _ depth E ltac:(lia)) as (n1 & L1 & H1).
  destruct (IH _ _ (drop_of_app _ _ _ _ E)) as (n2 & L2 & H2).
  exists (n1 + n2)%nat. rewrite length_app. split; [lia|]. intros f.
  rewrite <- Nat.add_assoc, H1, (proj2 (Z.eqb_neq _ _)) by lia.
  by rewrite zlen_app, Z.add_assoc, zpos, H2.
Qed.

Lemma scans_entries b l depth : zlen b < 2 ^ 62 → Forall (λ kv, scans b kv.2) l → 0 < depth → ∀ p r,
  drop p b = enc_dict l ++ r →
  ∃ n, (n ≤ length (enc_dict l))%nat ∧ ∀ f,
    find_loop b (n + f) (Z.of_nat p) depth = find_loop b f (Z.of_nat p + zlen (enc_dict l)) depth.
Proof.
  intros Hb Hl Hd. induction Hl as [|[k v] l Hv Hl IH]; intros p r E.
  { exists 0%nat. split; [done|]. intros f. by rewrite Z.add_0_r. }
  unfold enc_dict in *. cbn [flat_map fst snd] in *. rewrite <- !app_assoc in E.
  pose proof (drop_of_app _ _ _ _ E) as E1.
  destruct (Hv _ _ depth E1 ltac:(lia)) as (n1 & L1 & H1).
  destruct (IH _ _ (drop_of_app _ _ _ _ E1)) as (n2 & L2 & H2).
  exists (1 + n1 + n2)%nat. rewrite !length_app. split.
  { destruct (enc_str_head k) as (d & t & -> & _). simpl. lia. }
  intros f. change (1 + n1 + n2 + f)%nat with (S (n1 + n2 + f)).
  rewrite (find_loop_str b k p _ depth _ Hb E), (proj2 (Z.eqb_neq _ _)) by lia.
  rewrite <- Nat.add_assoc, zpos, H1, (proj2 (Z.eqb_neq _ _)) by lia.
  rewrite zpos, H2. f_equal. unfold zlen. rewrite !length_app. lia.
Qed.

(** Opening and closing a container around contents that the scan crosses. *)
Lemma scans_container b o body p r depth :
  (o = chr "d" ∨ o = chr "l") → 0 ≤ depth → drop p b = o :: body ++ chr "e" :: r →
  (∃ n, (n ≤ length body)%nat ∧ ∀ f, find_loop b (n + f) (Z.of_nat (S p)) (depth + 1)
                                     = find_loop b f (Z.of_nat (S p) + zlen body) (depth + 1)) →
  ∃ n, (n ≤ length body + 2)%nat ∧ ∀ f,
    find_loop b (n + f) (Z.of_nat p) depth =
      if depth =? 0 then Ok (Z.of_nat p + (zlen body + 2)) else find_loop b f (Z.of_nat p + (zlen body + 2)) depth.
Proof.
  intros Ho Hd E (n & Ln & Hn). exists (1 + n + 1)%nat. split; [lia|]. intros f.
  replace (1 + n + 1 + f)%nat with (S (n + S f)) by lia.
  rewrite (find_loop_S b _ p depth o _ E). unfold round. rewrite (proj2 (orb_true_iff _ _)).
  2:{ destruct Ho as [-> | ->]; [left|right]; by apply bool_decide_true. }
  rewrite end_round_eq, (proj2 (Z.eqb_neq _ _)) by lia.
  replace (Z.of_nat p + 1) with (Z.of_nat (S p)) by lia. rewrite Hn.
  destruct (lookup_of_drop _ _ _ _ E) as [_ E1]. pose proof (drop_of_app _ _ _ _ E1) as E2.
  rewrite zpos, (find_loop_S b _ _ _ _ _ E2).
  unfold round. rewrite !(bool_decide_false (chr "e" = _)) by done. rewrite bool_decide_true by done. cbn [orb].
  replace (depth + 1 - 1) with depth by lia. 
  replace (Z.of_nat (S p + length body) + 1) with (Z.of_nat p + (zlen body + 2)) by (unfold zlen; lia).
  destruct (Z.eqb_spec depth 0) as [->|]; [done|]. rewrite end_round_eq, (proj2 (Z.eqb_neq _ _)) by done. done.
Qed.

Lemma scans_all b v : zlen b < 2 ^ 62 → scans b v.
Proof.
  intros Hb. induction v as [z|s|l IH|l IH] using tree_ind.
  - apply scans_int.
  - by apply scans_str.
  - intros p r depth E Hd. cbn [encode] in *. fold (enc_list l) in *.
    rewrite <- app_comm_cons, <- app_assoc in E. destruct (lookup_of_drop _ _ _ _ E) as [_ E1].
    rewrite zlen_cons, zlen_app. change (zlen [chr "e"]) with 1.
    replace (1 + (zlen (enc_list l) + 1)) with (zlen (enc_list l) + 2) by lia.
    cbn [length]. rewrite length_app. 
    destruct (scans_container b (chr "l") (enc_list l) p r depth) as (n & Ln & Hn); [by right|done|done| |].
    { eapply scans_items; [done|lia|exact E1]. }
    exists n. split; [simpl; lia|exact Hn].
  - intros p r depth E Hd. cbn [encode] in *. fold (enc_dict l) in *.
    rewrite <- app_comm_cons, <- app_assoc in E. destruct (lookup_of_drop _ _ _ _ E) as [_ E1].
    rewrite zlen_cons, zlen_app. change (zlen [chr "e"]) with 1.
    replace (1 + (zlen (enc_dict l) + 1)) with (zlen (enc_dict l) + 2) by lia.
    cbn [length]. rewrite length_app.
    destruct (scans_container b (chr "d") (enc_dict l) p r depth) as (n & Ln & Hn); [by left|done|done| |].
    { eapply scans_entries; [done|done|lia|exact E1]. }
    exists n. split; [simpl; lia|exact Hn].
Qed.

Lemma findBencodeEnd_encode v r : zlen (encode v ++ r) < 2 ^ 62 → findBencodeEnd (encode v ++ r) = Ok (zlen (encode v)).
Proof.
  intros Hb. unfold findBencodeEnd. rewrite bool_decide_false.
  2:{ destruct (encode_cons v) as (c & t & ->). done. }
  destruct (scans_all (encode v ++ r) v Hb 0%nat r 0) as (n & Ln & Hn); [done|done|].
  replace (S (length (encode v ++ r))) with (n + (S (length (encode v ++ r)) - n))%nat by (rewrite length_app; lia).
  rewrite Hn. done.
Qed.

Lemma findBencodeEnd_bounds b : zlen b < 2 ^ 62 →
  match findBencodeEnd b with Ok e => e < 0 ∨ 0 < e ≤ zlen b | Panic => True | _ => False end.
Proof.
  intros Hb. unfold findBencodeEnd. case_bool_decide; [simpl; lia|].
  apply find_loop_total; [done|apply zlen_nonneg|simpl; lia].
Qed.

(** A dictionary that begins with the announcement of a string of 2^63-1 bytes, which passes the
    overflow check, wraps the next position to a negative number, and the scan panics at the following
    index, whatever the rest. *)
Lemma findBencodeEnd_panic r :
  zlen r < 2 ^ 62 → findBencodeEnd (str "d9223372036854775807:" ++ r) = Panic.
Proof.
  intros Hr. set (ds := str "9223372036854775807"). set (b := _ ++ r).
  assert (E0 : drop 0 b = chr "d" :: ds ++ chr ":" :: r) by done.
  assert (E1 : drop 1 b = ds ++ chr ":" :: r) by done.
  assert (E2 : drop 1 b = chr "9" :: tail ds ++ chr ":" :: r) by done.
  unfold findBencodeEnd. rewrite bool_decide_false by done.
  change (length b) with (S (S (length (drop 2 b)))).
  rewrite (find_loop_S b _ 0 0 _ _ E0). cbn [round].
  change (round b 0 (chr "d") 0) with (Continue 1 1). cbn iota.
  change 1 with (Z.of_nat 1) at 1. rewrite (find_loop_S b _ 1 1 _ _ E2).
  replace (round b 1 (chr "9") 1) with (Continue (- 9223372036854775788) 1).
  - cbn [find_loop]. rewrite (proj2 (Z.leb_gt _ _)) by (pose proof (zlen_nonneg b); lia). done.
  - unfold round. rewrite !bool_decide_false by done. change (is_digit (chr "9")) with true. cbn [orb].
    rewrite (skip_digits_complete b 1 ds (chr ":" :: r) E1) by first [done | repeat constructor].
    rewrite bool_decide_false by (intros H; apply H; done). rewrite (slice_of_app b 1 ds _ E1).
    change (declared_length ds 0) with (Some 9223372036854775807).
    cbv beta iota. change (wrap64 _) with (- 9223372036854775788).
    rewrite (proj2 (Z.ltb_ge _ _)) by (pose proof (zlen_nonneg b); lia). done.
Qed.

(** ** Properties *)

(** [findBencodeEnd] finds the end of the header: on the encoding of any bencode value followed by any
    data it returns the length of the encoding. *)
Theorem findBencodeEnd_correct v r :
  zlen (encode v ++ r) < 2 ^ 62 → findBencodeEnd (encode v ++ r) = Ok (zlen (encode v)).
Proof. apply findBencodeEnd_encode. Qed.

Definition sample_header : tree :=
  BDict [(str "msg_type", BInt 1); (str "piece", BInt 0); (str "x", BList [BStr (str "e"); BInt (-7)])].

Lemma findBencodeEnd_correct_witness :
  zlen (encode sample_header ++ str "raw data") < 2 ^ 62
  ∧ findBencodeEnd (encode sample_header ++ str "raw data") = Ok (zlen (encode sample_header)).
Proof.
  assert (H : zlen (encode sample_header ++ str "raw data") < 2 ^ 62) by (vm_compute; reflexivity).
  split; [exact H|]. exact (findBencodeEnd_correct sample_header (str "raw data") H).
Defined.

(** The scan ends on every input, and when it does not panic its result is negative or a non-zero
    position inside the buffer, so that the slices the caller takes with it are in range. *)
Theorem findBencodeEnd_in_range b :
  zlen b < 2 ^ 62 →
  findBencodeEnd b = Panic ∨ ∃ e, findBencodeEnd b = Ok e ∧ (e < 0 ∨ 0 < e ≤ zlen b).
Proof. intros Hb. apply findBencodeEnd_bounds in Hb. destruct (findBencodeEnd b); [eauto|done|by left|done]. Qed.

Lemma findBencodeEnd_in_range_witness :
  zlen (str "d1:ae") < 2 ^ 62
  ∧ (findBencodeEnd (str "d1:ae") = Panic
     ∨ ∃ e, findBencodeEnd (str "d1:ae") = Ok e ∧ (e < 0 ∨ 0 < e ≤ zlen (str "d1:ae"))).
Proof.
  assert (H : zlen (str "d1:ae") < 2 ^ 62) by (vm_compute; reflexivity).
  split; [exact H|]. exact (findBencodeEnd_in_range _ H).
Defined.
