(* ===== verification/Sha.v ===== *)
(** * Digests: Go's [crypto/sha1], [crypto/sha256] and [crypto/hmac]

    Executable definitions of SHA-1 and SHA-256 (FIPS 180-4) and of HMAC-SHA-256 (RFC 2104), checked
    on published test vectors.  Nothing is assumed of them but what is proved here, the lengths of the
    digests: statements that rest on collision resistance say so in their conclusion. *)

From S2P Require Import Prelude Hex.
From Stdlib Require Import ZArith Lia.
Local Open Scope Z_scope.

(** ** Words *)

Definition w32 (z : Z) : Z := Z.land z 4294967295.
Definition rotl (n x : Z) : Z := w32 (Z.lor (Z.shiftl x n) (Z.shiftr x (32 - n))).
Definition rotr (n x : Z) : Z := rotl (32 - n) x.
Definition not32 (x : Z) : Z := Z.lxor x 4294967295.

Fixpoint chunks_fuel (fuel n : nat) (l : bytes) : list bytes :=
  match fuel with
  | O => []
  | S f => match l with [] => [] | _ => take n l :: chunks_fuel f n (drop n l) end
  end.
Definition chunks (n : nat) (l : bytes) : list bytes := chunks_fuel (length l) n l.

(** The message, the bit 1, zeros up to 56 modulo 64, the length in bits on 8 bytes. *)
Definition pad (m : bytes) : bytes :=
  m ++ Byte.x80 :: zeros (Z.to_nat ((55 - zlen m) mod 64)) ++ be_put 8 (8 * zlen m).

Definition words (block : bytes) : list Z := be_get <$> chunks 4 block.

(** ** SHA-1 *)

(** The message schedule, most recent word first. *)
Fixpoint sched1 (n : nat) (w : list Z) : list Z :=
  match n with
  | O => w
  | S n' => sched1 n' (rotl 1 (Z.lxor (Z.lxor (nth 2 w 0) (nth 7 w 0)) (Z.lxor (nth 13 w 0) (nth 15 w 0))) :: w)
  end.

Definition round1 (st : Z * Z * Z * Z * Z) (iw : nat * Z) : Z * Z * Z * Z * Z :=
  let '(a, b, c, d, e) := st in
  let '(i, w) := iw in
  let '(f, k) :=
    if (i <? 20)%nat then (Z.lor (Z.land b c) (Z.land (not32 b) d), 1518500249)
    else if (i <? 40)%nat then (Z.lxor (Z.lxor b c) d, 1859775393)
    else if (i <? 60)%nat then (Z.lor (Z.lor (Z.land b c) (Z.land b d)) (Z.land c d), 2400959708)
    else (Z.lxor (Z.lxor b c) d, 3395469782) in
  (w32 (rotl 5 a + f + e + k + w), a, rotl 30 b, c, d).

Definition block1 (h : Z * Z * Z * Z * Z) (block : bytes) : Z * Z * Z * Z * Z :=
  let ws := rev (sched1 64 (rev (words block))) in
  let '(a, b, c, d, e) := foldl round1 h (zip (seq 0 80) ws) in
  let '(h0, h1, h2, h3, h4) := h in
  (w32 (h0 + a), w32 (h1 + b), w32 (h2 + c), w32 (h3 + d), w32 (h4 + e)).

(** [sha1.Sum] *)
Definition sha1 (m : bytes) : bytes :=
  let '(a, b, c, d, e) := foldl block1 (1732584193, 4023233417, 2562383102, 271733878, 3285377520) (chunks 64 (pad m)) in
  be_put 4 a ++ be_put 4 b ++ be_put 4 c ++ be_put 4 d ++ be_put 4 e.

(** ** SHA-256 *)

Definition k256 : list Z := [
  1116352408; 1899447441; 3049323471; 3921009573; 961987163; 1508970993; 2453635748; 2870763221;
  3624381080; 310598401; 607225278; 1426881987; 1925078388; 2162078206; 2614888103; 3248222580;
  3835390401; 4022224774; 264347078; 604807628; 770255983; 1249150122; 1555081692; 1996064986;
  2554220882; 2821834349; 2952996808; 3210313671; 3336571891; 3584528711; 113926993; 338241895;
  666307205; 773529912; 1294757372; 1396182291; 1695183700; 1986661051; 2177026350; 2456956037;
  2730485921; 2820302411; 3259730800; 3345764771; 3516065817; 3600352804; 4094571909; 275423344;
  430227734; 506948616; 659060556; 883997877; 958139571; 1322822218; 1537002063; 1747873779;
  1955562222; 2024104815; 2227730452; 2361852424; 2428436474; 2756734187; 3204031479; 3329325298].

Fixpoint sched256 (n : nat) (w : list Z) : list Z :=
  match n with
  | O => w
  | S n' =>
      let x := nth 14 w 0 in
      let y := nth 1 w 0 in
      let s0 := Z.lxor (Z.lxor (rotr 7 x) (rotr 18 x)) (Z.shiftr x 3) in
      let s1 := Z.lxor (Z.lxor (rotr 17 y) (rotr 19 y)) (Z.shiftr y 10) in
      sched256 n' (w32 (nth 15 w 0 + s0 + nth 6 w 0 + s1) :: w)
  end.

Abbreviation h256 := (Z * Z * Z * Z * Z * Z * Z * Z)%type.

Definition round256 (st : h256) (kw : Z * Z) : h256 :=
  let '(a, b, c, d, e, f, g, h) := st in
  let '(k, w) := kw in
  let s1 := Z.lxor (Z.lxor (rotr 6 e) (rotr 11 e)) (rotr 25 e) in
  let ch := Z.lxor (Z.land e f) (Z.land (not32 e) g) in
  let t1 := h + s1 + ch + k + w in
  let s0 := Z.lxor (Z.lxor (rotr 2 a) (rotr 13 a)) (rotr 22 a) in
  let maj := Z.lxor (Z.lxor (Z.land a b) (Z.land a c)) (Z.land b c) in
  (w32 (t1 + s0 + maj), a, b, c, w32 (d + t1), e, f, g).

Definition block256 (hs : h256) (block : bytes) : h256 :=
  let ws := rev (sched256 48 (rev (words block))) in
  let '(a, b, c, d, e, f, g, h) := foldl round256 hs (zip k256 ws) in
  let '(h0, h1, h2, h3, h4, h5, h6, h7) := hs in
  (w32 (h0 + a), w32 (h1 + b), w32 (h2 + c), w32 (h3 + d), w32 (h4 + e), w32 (h5 + f), w32 (h6 + g), w32 (h7 + h)).

(** [sha256.Sum256] *)
Definition sha256 (m : bytes) : bytes :=
  let '(a, b, c, d, e, f, g, h) :=
    foldl block256 (1779033703, 3144134277, 1013904242, 2773480762, 1359893119, 2600822924, 528734635, 1541459225)
      (chunks 64 (pad m)) in
  be_put 4 a ++ be_put 4 b ++ be_put 4 c ++ be_put 4 d ++ be_put 4 e ++ be_put 4 f ++ be_put 4 g ++ be_put 4 h.

(** ** HMAC-SHA-256 *)

Definition xor_byte (n : Z) (b : byte) : byte := zbyte (Z.lxor (bval b) n).

(** [hmac.New(sha256.New, key)], [Write(m)], [Sum(nil)] *)
Definition hmac_sha256 (key m : bytes) : bytes :=
  let k := if (64 <? length key)%nat then sha256 key else key in
  let k := k ++ zeros (64 - length k) in
  sha256 ((xor_byte 92 <$> k) ++ sha256 ((xor_byte 54 <$> k) ++ m)).

(** ** Test vectors *)

Example sha1_abc : hex_encode (sha1 (str "abc")) = str "a9993e364706816aba3e25717850c26c9cd0d89d".
Proof. vm_compute. reflexivity. Qed.
Example sha1_empty : hex_encode (sha1 []) = str "da39a3ee5e6b4b0d3255bfef95601890afd80709".
Proof. vm_compute. reflexivity. Qed.
Example sha1_two_blocks :
  hex_encode (sha1 (str "abcdbcdecdefdefgefghfghighijhijkijkljklmklmnlmnomnopnopq"))
  = str "84983e441c3bd26ebaae4aa1f95129e5e54670f1".
Proof. vm_compute. reflexivity. Qed.
Example sha256_abc :
  hex_encode (sha256 (str "abc")) = str "ba7816bf8f01cfea414140de5dae2223b00361a396177a9cb410ff61f20015ad".
Proof. vm_compute. reflexivity. Qed.
Example sha256_two_blocks :
  hex_encode (sha256 (str "abcdbcdecdefdefgefghfghighijhijkijkljklmklmnlmnomnopnopq"))
  = str "248d6a61d20638b8e5c026930c3e6039a33ce45964ff2167f6ecedd419db06c1".
Proof. vm_compute. reflexivity. Qed.
Example hmac_rfc4231_2 :
  hex_encode (hmac_sha256 (str "Jefe") (str "what do ya want for nothing?"))
  = str "5bdcc146bf60754e6a042426089575c75a003f089d2739839dec58b964ec3843".
Proof. vm_compute. reflexivity. Qed.

(** ** Lengths *)

Lemma length_sha1 m : length (sha1 m) = 20%nat.
Proof. unfold sha1. destruct (foldl _ _ _) as [[[[a b] c] d] e]. by rewrite !length_app, !length_be_put. Qed.

Lemma length_sha256 m : length (sha256 m) = 32%nat.
Proof.
  unfold sha256. destruct (foldl _ _ _) as [[[[[[[a b] c] d] e] f] g] h].
  by rewrite !length_app, !length_be_put.
Qed.

Lemma length_hmac_sha256 k m : length (hmac_sha256 k m) = 32%nat.
Proof. apply length_sha256. Qed.
#[export] Hint Rewrite length_sha1 length_sha256 length_hmac_sha256 : weightless.
#[global] Opaque sha1 sha256 hmac_sha256.
