(* ===== verification/Database.v ===== *)
(** * Package [tracker]: the SQLite tables the handlers use

    The tables of [internal/tracker/db.go] as finite maps keyed by their primary keys, and the queries
    the handlers run on them.  SQL runs in a third-party engine: what is modelled here is the
    documented meaning of the statements in the source, and every call takes a flag that says whether
    it fails.  A [SELECT] that may match several rows takes them in an order chosen by the engine. *)

From S2P Require Import Prelude TrackerState.
From Stdlib Require Import ZArith Lia.
Local Open Scope Z_scope.

(** A row of [registry], without its key [info_hash]. *)
Record RegRow := mkReg {
  v1_info_hash : bytes;
  reg_name : bytes;
  created : Z;
  verified : bool;
  completions : Z;
  description : bytes;
  publisher : bytes;
  license : bytes;
  reg_size : Z;
  category : bytes;
  tags : bytes;
  torrent_data : bytes;
}.

(** A row of [blocklist]: reason and time. *)
Record BlockRow := mkBlock { reason : bytes; blocked_at : Z }.

Record Database := mkDB {
  registry : gmap bytes RegRow;
  blocklist : gmap bytes BlockRow;
  peers : peer_table;
}.

#[export] Instance regrow_eq_decision : EqDecision RegRow.
Proof. solve_decision. Defined.
#[export] Instance blockrow_eq_decision : EqDecision BlockRow.
Proof. solve_decision. Defined.

(** [registryLookup]: [WHERE info_hash = ? OR v1_info_hash = ?] *)
Definition matches (hash : bytes) (kv : bytes * RegRow) : Prop := kv.1 = hash ∨ v1_info_hash kv.2 = hash.

#[export] Instance matches_dec hash kv : Decision (matches hash kv).
Proof. unfold matches. apply _. Defined.

Definition lookup_rows (db : Database) (hash : bytes) : gmap bytes RegRow := filter (matches hash) (registry db).

(** [DB.QueryRow(...).Scan(...)]: the first row, [sql.ErrNoRows], or another error. *)
Inductive scan (A : Type) :=
| Row (a : A)
| NoRows
| QueryError.
Arguments Row {A} _.
Arguments NoRows {A}.
Arguments QueryError {A}.

(** The order in which the engine yields the matching rows. *)
Definition engine_order : Type := gmap bytes RegRow → list (bytes * RegRow).
Definition engine_ok (o : engine_order) : Prop := ∀ m, o m ≡ₚ map_to_list m.

Definition query_registry (ok : bool) (o : engine_order) (db : Database) (hash : bytes) : scan (bytes * RegRow) :=
  if negb ok then QueryError else
  match o (lookup_rows db hash) with
  | r :: _ => Row r
  | [] => NoRows
  end.

(** [SELECT 1 FROM blocklist WHERE info_hash = ?] *)
Definition query_blocklist (ok : bool) (db : Database) (hash : bytes) : scan unit :=
  if negb ok then QueryError else
  match blocklist db !! hash with Some _ => Row tt | None => NoRows end.

(** [UPDATE registry SET completions = completions + 1 WHERE ...] *)
Definition bump (row : RegRow) : RegRow :=
  mkReg (v1_info_hash row) (reg_name row) (created row) (verified row) (completions row + 1) (description row)
    (publisher row) (license row) (reg_size row) (category row) (tags row) (torrent_data row).

Definition bump_completions (hash : bytes) (db : Database) : Database :=
  mkDB (map_imap (λ k r, Some (if decide (matches hash (k, r)) then bump r else r)) (registry db))
    (blocklist db) (peers db).

(** ** Lemmas *)

Lemma query_registry_row o db hash kv :
  engine_ok o → query_registry true o db hash = Row kv → registry db !! kv.1 = Some kv.2 ∧ matches hash kv.
Proof.
  intros Ho. unfold query_registry. cbn [negb]. specialize (Ho (lookup_rows db hash)).
  destruct (o _) as [|r l]; [done|]. intros [= ->].
  assert (Hin : kv ∈ map_to_list (lookup_rows db hash)) by (rewrite <- Ho; left).
  destruct kv as [k r]. apply elem_of_map_to_list, map_lookup_filter_Some in Hin. done.
Qed.

Lemma query_registry_none ok o db hash :
  engine_ok o → query_registry ok o db hash = NoRows → ∀ k r, registry db !! k = Some r → ¬ matches hash (k, r).
Proof.
  intros Ho. unfold query_registry. destruct ok; [|done]. cbn [negb]. specialize (Ho (lookup_rows db hash)).
  destruct (o _) as [|]; [|done]. intros _ k r Hk Hm.
  assert (Hin : (k, r) ∈ @nil (bytes * RegRow)).
  { rewrite Ho. apply elem_of_map_to_list, map_lookup_filter_Some. done. }
  by apply elem_of_nil in Hin.
Qed.

Lemma lookup_bump hash db k :
  registry (bump_completions hash db) !! k =
    (λ r, if decide (matches hash (k, r)) then bump r else r) <$> registry db !! k.
Proof. cbn [bump_completions registry]. rewrite map_lookup_imap. by destruct (registry db !! k). Qed.
