(* ===== verification/Announce.v ===== *)
(** * Package [tracker]: authentication and the announce handler

    Models [internal/tracker/auth.go] and [internal/tracker/announce.go].  The handler is a function of
    the configuration, the request and the world it runs in (swarm state and database); its reply is
    the map it hands to the bencode encoder.  Database calls can fail, the clock and the iteration
    order of the swarm's map are inputs. *)

From S2P Require Import Prelude Strconv Hex Sha GoStrings NetAddr Bencode TrackerState UsageSync Recognize Database.
From Stdlib Require Import ZArith Lia.
Local Open Scope Z_scope.

(** ** Configuration *)

Record Config := mkConfig {
  testSecret : bytes;
  env_TRACKER_SECRET : bytes;
  env_OPEN_TRACKER : bytes;
  MaxPeers : Z;
}.

Definition getSecret (c : Config) : bytes :=
  if bool_decide (testSecret c ≠ []) then testSecret c else env_TRACKER_SECRET c.

(** ** Passkeys *)

Definition SignUserID (c : Config) (userID : bytes) : bytes := hex_encode (hmac_sha256 (getSecret c) userID).

Inductive autherr := SecretNotSet | InvalidFormat | InvalidSignature.

Definition VerifyPasskey (c : Config) (passkey : bytes) : result autherr bytes :=
  if bool_decide (getSecret c = []) then Err SecretNotSet else
  match split (chr ".") passkey with
  | [userID; signature] =>
      if bool_decide (signature = SignUserID c userID) then Ok userID else Err InvalidSignature
  | _ => Err InvalidFormat
  end.

(** ** Replies *)

(** The value given to the encoder: a failure reason or the announce reply. *)
Abbreviation reply := (gmap bytes tree).

Definition TrackerError (why : bytes) : reply := {[ str "failure reason" := BStr why ]}.

(** ** Compact peers *)

Definition port_bytes (port : Z) : bytes := [zbyte (Z.shiftr port 8); zbyte (Z.land port 255)].

(** The body of the loop of [PackPeers]. *)
Definition pack_peer (acc : bytes * bytes) (addr : bytes) : bytes * bytes :=
  let '(ipv4, ipv6) := acc in
  match SplitHostPort addr with
  | None => acc
  | Some (host, portStr) =>
      match atoi portStr with
      | None => acc
      | Some port =>
          let ip := default [] (ParseIP host) in
          match To4 ip with
          | Some ip4 => (ipv4 ++ ip4 ++ port_bytes port, ipv6)
          | None => match To16 ip with
                    | Some ip16 => (ipv4, ipv6 ++ ip16 ++ port_bytes port)
                    | None => acc
                    end
          end
      end
  end.

Definition PackPeers (addrs : list bytes) : bytes * bytes := foldl pack_peer ([], []) addrs.

(** ** The announce handler *)

(** The request: decoded path, query and remote address. *)
Record Request := mkRequest {
  path : bytes;
  query : Values;
  RemoteAddr : bytes;
}.

(** What the run meets: which database calls succeed, the engine's and the runtime's orders, the clock. *)
Record Run := mkRun {
  block_ok : bool;
  registry_ok : bool;
  update_ok : bool;
  rows_order : engine_order;
  peers_order : SwarmState → bytes → list (bytes * Peer);
  now : Z;
}.

Record World := mkWorld { swarm : SwarmState; db : Database }.

(** [inl userID], or [inr reply] when the handler has answered. *)
Definition authenticatePasskey (c : Config) (r : Request) : bytes + reply :=
  match split (chr "/") (trim (path r) (chr "/")) with
  | first :: second :: _ =>
      if bool_decide (first = str "announce") then
        match VerifyPasskey c second with
        | Ok userID => inl userID
        | _ => inr (TrackerError (str "Unauthorized"))
        end
      else if bool_decide (env_TRACKER_SECRET c ≠ [])
      then inr (TrackerError (str "Unauthorized: Passkey required in path (/announce/ID.SIG)")) else inl []
  | _ => if bool_decide (env_TRACKER_SECRET c ≠ [])
         then inr (TrackerError (str "Unauthorized: Passkey required in path (/announce/ID.SIG)")) else inl []
  end.

(** [blocked == 1]; a failed query leaves [blocked] at 0. *)
Definition is_blocked (run : Run) (d : Database) (hash : bytes) : bool :=
  match query_blocklist (block_ok run) d hash with Row _ => true | _ => false end.

Definition is_registered (run : Run) (d : Database) (hash : bytes) : bool :=
  match query_registry (registry_ok run) (rows_order run) d hash with Row _ => true | _ => false end.

(** The session delta, each counter clamped at zero on its own. *)
Definition clamp_delta (new old : Z) : Z := let d := wrap64 (new - old) in if d <? 0 then 0 else d.

Definition credit_usage (userID hash peerID : bytes) (p : AnnounceParams) (s : SwarmState) : SwarmState :=
  if bool_decide (userID = []) then s else
  match GetPeer s hash peerID with
  | None => s
  | Some oldPeer =>
      let deltaUp := clamp_delta (PUploaded p) (Uploaded oldPeer) in
      let deltaDown := clamp_delta (PDownloaded p) (Downloaded oldPeer) in
      if (0 <? deltaUp) || (0 <? deltaDown) then TrackUsage userID deltaUp deltaDown s else s
  end.

(** The changes of state of an accepted announce. *)
Definition apply_announce (run : Run) (userID hash peerID addr : bytes) (p : AnnounceParams) (w : World) : World :=
  if bool_decide (Event p = EventStopped) then mkWorld (RemovePeer hash peerID (swarm w)) (db w) else
  let s := credit_usage userID hash peerID p (swarm w) in
  let s := UpdatePeer hash peerID (mkPeer addr (now run) (PLeft p) (PDownloaded p) (PUploaded p)) s in
  let d := if bool_decide (Event p = EventCompleted) && update_ok run then bump_completions hash (db w) else db w in
  mkWorld s d.

Definition peer_limit (c : Config) (p : AnnounceParams) : Z :=
  if (0 <=? NumWant p) && (NumWant p <? MaxPeers c) then NumWant p else MaxPeers c.

Definition announce_reply (c : Config) (run : Run) (hash peerID : bytes) (p : AnnounceParams) (s : SwarmState) : reply :=
  let addrs := GetPeers s (peers_order run s) hash peerID (peer_limit c p) in
  let '(complete, incomplete) := GetCounts s hash in
  let '(ipv4, ipv6) := PackPeers addrs in
  let resp : reply := <[str "interval" := BInt 1800]> (<[str "complete" := BInt complete]>
                      (<[str "incomplete" := BInt incomplete]> {[ str "peers" := BStr ipv4 ]})) in
  if bool_decide (ipv6 ≠ []) then <[str "peers6" := BStr ipv6]> resp else resp.

Definition executeAnnounce (c : Config) (run : Run) (r : Request) (userID : bytes) (p : AnnounceParams) (w : World)
  : reply * World :=
  let hash := InfoHashHex p in
  let peerID := PeerIDString p in
  if is_blocked run (db w) hash then (TrackerError (str "info_hash is blocked"), w) else
  if bool_decide (env_OPEN_TRACKER c ≠ str "true") && negb (is_registered run (db w) hash)
  then (TrackerError (str "Unregistered torrent: info_hash not found in registry"), w) else
  match SplitHostPort (RemoteAddr r) with
  | None => (TrackerError (str "Invalid remote address"), w)
  | Some (clientIP, _) =>
      let addr := JoinHostPort clientIP (itoa (Port p)) in
      let w := apply_announce run userID hash peerID addr p w in
      (announce_reply c run hash peerID p (swarm w), w)
  end.

(** [msg] gives the text of a recognizer error. *)
Definition HandleAnnounce (msg : aerr → bytes) (c : Config) (run : Run) (r : Request) (w : World) : reply * World :=
  match authenticatePasskey c r with
  | inr resp => (resp, w)
  | inl userID =>
      match RecognizeAnnounce (query r) with
      | Ok params => executeAnnounce c run r userID params w
      | Err e => (TrackerError (str "Invalid announce: " ++ msg e), w)
      | _ => (∅, w)
      end
  end.

(** ** Lemmas: passkeys *)

Lemma SignUserID_no_dot c u : chr "." ∉ SignUserID c u.
Proof.
  intros H. pose proof (proj1 (Forall_forall _ _) (hex_encode_lower (hmac_sha256 (getSecret c) u)) _ H). done.
Qed.

Lemma VerifyPasskey_ok c pk u :
  VerifyPasskey c pk = Ok u ↔ getSecret c ≠ [] ∧ (chr "." ∉ u) ∧ pk = u ++ chr "." :: SignUserID c u.
Proof.
  unfold VerifyPasskey. split.
  - intros H. case_bool_decide as Hs; [done|]. destruct (split (chr ".") pk) as [|a [|b [|]]] eqn:E; try done.
    case_bool_decide as Hb; simplify_eq. split; [done|].
    pose proof (split_no_sep (chr ".") pk) as N. rewrite E in N. apply Forall_cons in N as [N _].
    split; [done|]. by rewrite <- (join_split (chr ".") pk), E.
  - intros (Hs & Hd & ->). rewrite bool_decide_false by done. rewrite split_app by done.
    rewrite split_single by apply SignUserID_no_dot. by rewrite bool_decide_true.
Qed.

(** ** Lemmas: the handler *)

(** The conditions under which an announce reaches the state. *)
Definition admitted (c : Config) (run : Run) (r : Request) (p : AnnounceParams) (w : World) : Prop :=
  is_blocked run (db w) (InfoHashHex p) = false
  ∧ (env_OPEN_TRACKER c = str "true" ∨ is_registered run (db w) (InfoHashHex p) = true)
  ∧ is_Some (SplitHostPort (RemoteAddr r)).

Lemma executeAnnounce_cases c run r userID p w :
  (¬ admitted c run r p w ∧ ∃ why, executeAnnounce c run r userID p w = (TrackerError why, w))
  ∨ ∃ ip pt, admitted c run r p w ∧ SplitHostPort (RemoteAddr r) = Some (ip, pt)
    ∧ let w' := apply_announce run userID (InfoHashHex p) (PeerIDString p) (JoinHostPort ip (itoa (Port p))) p w in
      executeAnnounce c run r userID p w = (announce_reply c run (InfoHashHex p) (PeerIDString p) p (swarm w'), w').
Proof.
  unfold executeAnnounce, admitted. destruct (is_blocked _ _ _) eqn:Eb.
  { left. split; [intros (H & _); done|]. eauto. }
  case_bool_decide as Ho; cbn [andb].
  - destruct (is_registered _ _ _) eqn:Er; cbn [negb].
    + destruct (SplitHostPort _) as [[ip pt]|]; [right; exists ip, pt; split_and!; eauto|].
      left. split; [intros (_ & _ & [? H]); done|eauto].
    + left. split; [intros (_ & [?|?] & _); done|eauto].
  - destruct (SplitHostPort _) as [[ip pt]|].
    + right. exists ip, pt. split_and!; eauto.
    + left. split; [intros (_ & _ & [? H]); done|eauto].
Qed.

Lemma credit_usage_peers userID hash peerID p s hash' id' :
  GetPeer (credit_usage userID hash peerID p s) hash' id' = GetPeer s hash' id'.
Proof. unfold credit_usage. repeat case_match; done. Qed.

(** What the announce credits to a user: the growth of the peer's counter since its last announce. *)
Definition credit (c : counter) (old : option Peer) (p : AnnounceParams) : Z :=
  match old with
  | None => 0
  | Some o => match c with
              | Up => Z.max 0 (PUploaded p - Uploaded o)
              | Down => Z.max 0 (PDownloaded p - Downloaded o)
              end
  end.

Definition sane_counters (o : Peer) (p : AnnounceParams) : Prop :=
  0 ≤ Uploaded o < 2 ^ 63 ∧ 0 ≤ Downloaded o < 2 ^ 63 ∧ 0 ≤ PUploaded p < 2 ^ 63 ∧ 0 ≤ PDownloaded p < 2 ^ 63.

Lemma clamp_delta_max new old : 0 ≤ new < 2 ^ 63 → 0 ≤ old < 2 ^ 63 → clamp_delta new old = Z.max 0 (new - old).
Proof.
  intros. unfold clamp_delta. rewrite wrap64_id by (unfold in_int64; lia).
  destruct (Z.ltb_spec (new - old) 0); lia.
Qed.

Lemma credit_usage_credits c userID hash peerID p s user :
  (∀ o, GetPeer s hash peerID = Some o → sane_counters o p) →
  usage_of c (Users (credit_usage userID hash peerID p s)) user
  ≡₆₄ usage_of c (Users s) user
      + (if bool_decide (userID ≠ [] ∧ userID = user) then credit c (GetPeer s hash peerID) p else 0).
Proof.
  intros Hs. unfold credit_usage. case_bool_decide as Hu.
  { rewrite bool_decide_false by tauto. by rewrite Z.add_0_r. }
  destruct (GetPeer s hash peerID) as [o|] eqn:Eo.
  2:{ simpl. destruct (bool_decide _); by rewrite Z.add_0_r. }
  destruct (Hs o eq_refl) as (H1 & H2 & H3 & H4). rewrite !clamp_delta_max by done.
  destruct (_ || _) eqn:Ed.
  - rewrite usage_of_track. apply eqm_of_eq. f_equal.
    destruct (decide (userID = user)); [rewrite !bool_decide_true by done|rewrite !bool_decide_false by tauto; done].
    by destruct c.
  - apply orb_false_iff in Ed as [E1%Z.ltb_ge E2%Z.ltb_ge]. apply eqm_of_eq.
    assert (E0 : credit c (Some o) p = 0) by (destruct c; simpl; lia). rewrite E0. destruct (bool_decide _); lia.
Qed.

(** ** Properties: authentication *)

(** A passkey is accepted for a user exactly when a secret is configured and the passkey is the user id
    (which holds no dot), a dot and the hexadecimal HMAC-SHA-256 of the user id under the secret. *)
Theorem passkey_correct c pk u :
  VerifyPasskey c pk = Ok u ↔ getSecret c ≠ [] ∧ (chr "." ∉ u) ∧ pk = u ++ chr "." :: hex_encode (hmac_sha256 (getSecret c) u).
Proof. apply VerifyPasskey_ok. Qed.

(** No announce changes the swarm state or the database unless it passed every gate: authentication
    (with the secret in the environment, a passkey in the path that verifies), recognition of the whole
    query, the blocklist, and the registry unless the tracker is open. *)
Theorem announce_guarded msg c run r w reply w' :
  HandleAnnounce msg c run r w = (reply, w') → w' ≠ w →
  ∃ userID p,
    (env_TRACKER_SECRET c ≠ [] →
       ∃ rest, split (chr "/") (trim (path r) (chr "/")) = str "announce" :: (userID ++ chr "." :: SignUserID c userID) :: rest)
    ∧ announce_grammar (query r) p
    ∧ is_blocked run (db w) (InfoHashHex p) = false
    ∧ (env_OPEN_TRACKER c = str "true" ∨ is_registered run (db w) (InfoHashHex p) = true)
    ∧ is_Some (SplitHostPort (RemoteAddr r)).
Proof.
  unfold HandleAnnounce. intros H Hw. destruct (authenticatePasskey c r) as [userID|resp] eqn:Ea; [|by simplify_eq].
  destruct (RecognizeAnnounce (query r)) as [p|e| |] eqn:Er; try by simplify_eq.
  exists userID, p. destruct (executeAnnounce_cases c run r userID p w) as [(_ & why & E)|(ip & pt & (A1 & A2 & A3) & _)].
  { rewrite E in H. by simplify_eq. }
  split; [|split; [by apply recognize_sound|done]].
  intros Hs. unfold authenticatePasskey in Ea. rewrite bool_decide_true in Ea by done.
  destruct (split (chr "/") _) as [|a [|b rest]]; try done.
  case_bool_decide as Ha; [|done]. subst a. destruct (VerifyPasskey c b) as [u| | |] eqn:Ev; try done. simplify_eq.
  apply VerifyPasskey_ok in Ev as (_ & _ & ->). by exists rest.
Qed.

(** ** A sample run *)

Definition sample_user := str "alice".
Definition sample_config : Config := mkConfig [] (str "secret") [] 50.
Definition sample_hash := hex_encode (str "aaaaaaaaaaaaaaaaaaaa").
Definition sample_db : Database :=
  mkDB {[ sample_hash := mkReg [] (str "t") 0 false 0 [] [] [] 0 [] [] [] ]} ∅ ∅.
Definition sample_run : Run :=
  mkRun true true true map_to_list default_order 1000.
Definition sample_request : Request :=
  mkRequest (str "/announce/" ++ sample_user ++ chr "." :: SignUserID sample_config sample_user) sample_query (str "10.0.0.7:51000").
Definition sample_world : World := mkWorld emptyState sample_db.
Definition sample_handled := HandleAnnounce (λ _, []) sample_config sample_run sample_request sample_world.

Lemma sample_changes : snd sample_handled ≠ sample_world.
Proof.
  intros E. apply (f_equal (λ w, GetPeer (swarm w) sample_hash (str "-WL0020-abcdefghijkl"))) in E.
  vm_compute in E. discriminate E.
Qed.

Lemma announce_guarded_witness :
  snd sample_handled ≠ sample_world ∧
  ∃ userID p,
    (env_TRACKER_SECRET sample_config ≠ [] →
       ∃ rest, split (chr "/") (trim (path sample_request) (chr "/"))
               = str "announce" :: (userID ++ chr "." :: SignUserID sample_config userID) :: rest)
    ∧ announce_grammar (query sample_request) p
    ∧ is_blocked sample_run (db sample_world) (InfoHashHex p) = false
    ∧ (env_OPEN_TRACKER sample_config = str "true" ∨ is_registered sample_run (db sample_world) (InfoHashHex p) = true)
    ∧ is_Some (SplitHostPort (RemoteAddr sample_request)).
Proof.
  split; [exact sample_changes|].
  exact (announce_guarded (λ _, []) sample_config sample_run sample_request sample_world
           (fst sample_handled) (snd sample_handled) (surjective_pairing sample_handled) sample_changes).
Defined.

(** ** Properties: effect *)

(** C15. The effect of an admitted announce.  A [stopped] removes the peer and touches nothing else.  Any other
    event records the peer under its info hash and peer id, with the address made of the remote IP and
    the announced port, and leaves the other peers alone; it credits the user with the growth of each
    counter since the peer's previous announce, never a negative amount, and no one else; and it counts
    a completion on the matching registry rows exactly when the event is [completed] and the update
    succeeds. *)
Theorem announce_effect c run r userID p w ip pt hash' id' ctr user k :
  let hash := InfoHashHex p in
  let id := PeerIDString p in
  let old := GetPeer (swarm w) hash id in
  let w' := snd (executeAnnounce c run r userID p w) in
  admitted c run r p w → SplitHostPort (RemoteAddr r) = Some (ip, pt) →
  (∀ o, old = Some o → sane_counters o p) →
  GetPeer (swarm w') hash' id' =
    (if bool_decide ((hash', id') = (hash, id)) then
       if bool_decide (Event p = EventStopped) then None
       else Some (mkPeer (JoinHostPort ip (itoa (Port p))) (now run) (PLeft p) (PDownloaded p) (PUploaded p))
     else GetPeer (swarm w) hash' id')
  ∧ usage_of ctr (Users (swarm w')) user ≡₆₄
      usage_of ctr (Users (swarm w)) user
      + (if bool_decide (Event p ≠ EventStopped ∧ userID ≠ [] ∧ userID = user) then credit ctr old p else 0)
  ∧ registry (db w') !! k =
      (λ row, if bool_decide (Event p = EventCompleted ∧ update_ok run = true ∧ matches hash (k, row))
              then bump row else row) <$> registry (db w) !! k.
Proof.
  intros hash id old w' Ha Hip Hs. subst w'.
  destruct (executeAnnounce_cases c run r userID p w) as [(Hn & _)|(ip' & pt' & _ & Hip' & ->)]; [done|].
  rewrite Hip in Hip'. simplify_eq. cbn [snd]. fold hash id. unfold apply_announce.
  case_bool_decide as Es.
  - rewrite (bool_decide_false (_ ≠ _ ∧ _)) by tauto. rewrite Z.add_0_r. cbn [swarm db]. split_and!.
    + rewrite GetPeer_remove. case_bool_decide as E1; case_bool_decide as E2; naive_solver.
    + apply eqm_of_eq. f_equal. unfold RemovePeer. by case_match.
    + destruct (registry (db w) !! k); [|done]. simpl. rewrite bool_decide_false; [done|]. intros [? _]. congruence.
  - cbn [swarm db]. split_and!.
    + rewrite GetPeer_update. case_bool_decide as E1; case_bool_decide as E2; try naive_solver.
      apply credit_usage_peers.
    + change (Users (UpdatePeer hash id ?q ?s)) with (Users s).
      rewrite credit_usage_credits by exact Hs. apply eqm_of_eq. f_equal.
      case_bool_decide; case_bool_decide; tauto.
    + destruct (bool_decide (Event p = EventCompleted)) eqn:Ec; cbn [andb].
      * apply bool_decide_eq_true in Ec. destruct (update_ok run) eqn:Eu.
        -- rewrite lookup_bump. destruct (registry (db w) !! k) as [row|]; [|done]. simpl. f_equal.
           case_decide; case_bool_decide; tauto.
        -- destruct (registry (db w) !! k); [|done]. simpl. rewrite bool_decide_false; [done|]. intros (_ & ? & _). done.
      * apply bool_decide_eq_false in Ec. destruct (registry (db w) !! k); [|done]. simpl.
        rewrite bool_decide_false; [done|]. tauto.
Qed.

(** The same peer announces again, completed, having uploaded 40 and downloaded 42 more bytes. *)
Definition sample_params2 : AnnounceParams :=
  mkParams (InfoHash sample_params) 20 (PeerID sample_params) 6881 40 42 0 EventCompleted (-1) true.
Definition sample_world2 : World := snd sample_handled.

Lemma sample_admitted : admitted sample_config sample_run sample_request sample_params2 sample_world2.
Proof. split_and!; [vm_compute; reflexivity|right; vm_compute; reflexivity|vm_compute; eauto]. Qed.

Lemma announce_effect_witness :
  let w' := snd (executeAnnounce sample_config sample_run sample_request sample_user sample_params2 sample_world2) in
  usage_of Down (Users (swarm w')) sample_user = 42
  ∧ usage_of Down (Users (swarm w')) sample_user ≡₆₄
      usage_of Down (Users (swarm sample_world2)) sample_user
      + (if bool_decide (Event sample_params2 ≠ EventStopped ∧ sample_user ≠ [] ∧ sample_user = sample_user)
         then credit Down (GetPeer (swarm sample_world2) (InfoHashHex sample_params2) (PeerIDString sample_params2))
                sample_params2 else 0).
Proof.
  split; [vm_compute; reflexivity|].
  refine (proj1 (proj2 (announce_effect sample_config sample_run sample_request sample_user sample_params2 sample_world2
    (str "10.0.0.7") (str "51000") [] [] Down sample_user [] sample_admitted _ _))).
  - vm_compute. reflexivity.
  - intros o Ho. assert (E : o = mkPeer (str "10.0.0.7:6881") 1000 42 0 0).
    { vm_compute in Ho. injection Ho as <-. vm_compute. reflexivity. }
    subst o. unfold sane_counters. cbn [Uploaded Downloaded PUploaded PDownloaded sample_params2]. lia.
Defined.
