(* ===== verification/Url.v ===== *)
(** * Query strings: the part of Go's [net/url] the program uses

    [QueryEscape], [QueryUnescape], [Values.Encode] and [ParseQuery].  Announce requests and magnet
    links carry binary and user-supplied text through them; the lemmas show that parsing inverts
    encoding for every byte string. *)

From S2P Require Import Prelude Hex GoStrings Recognize.
From Stdlib Require Import ZArith Lia.
Local Open Scope Z_scope.

(** ** Escaping *)

Definition in_range (lo hi : byte) (b : byte) : bool := (bval lo <=? bval b) && (bval b <=? bval hi).

(** [!shouldEscape(c, encodeQueryComponent)] *)
Definition unreserved (b : byte) : bool :=
  in_range (chr "a") (chr "z") b || in_range (chr "A") (chr "Z") b || in_range (chr "0") (chr "9") b
  || bool_decide (b ∈ str "-_.~").

(** ["0123456789ABCDEF"[n]] *)
Definition upperhex (n : Z) : byte := if n <? 10 then zbyte (48 + n) else zbyte (55 + n).

Definition escape_byte (b : byte) : bytes :=
  if unreserved b then [b]
  else if bool_decide (b = chr " ") then [chr "+"]
  else [chr "%"; upperhex (Z.shiftr (bval b) 4); upperhex (Z.land (bval b) 15)].

Definition QueryEscape (s : bytes) : bytes := flat_map escape_byte s.

Fixpoint QueryUnescape (s : bytes) : option bytes :=
  match s with
  | [] => Some []
  | c :: r =>
      if bool_decide (c = chr "%") then
        match r with
        | a :: b :: r' => x ← unhex2 a b; k ← QueryUnescape r'; Some (x :: k)
        | _ => None
        end
      else k ← QueryUnescape r; Some ((if bool_decide (c = chr "+") then chr " " else c) :: k)
  end.

(** ** Values *)

(** [sort.Strings] compares bytewise. *)
Fixpoint bytes_leb (a b : bytes) : bool :=
  match a, b with
  | [], _ => true
  | _, [] => false
  | x :: a', y :: b' => if bval x <? bval y then true else if bval y <? bval x then false else bytes_leb a' b'
  end.
Definition bytes_le (a b : bytes) : Prop := bytes_leb a b = true.
#[export] Instance bytes_le_dec a b : Decision (bytes_le a b).
Proof. unfold bytes_le. apply _. Defined.

(** A total order. *)
#[export] Instance bytes_le_preorder : PreOrder bytes_le.
Proof.
  split; unfold bytes_le.
  - intros a. induction a as [|x a IH]; [done|]. simpl. by rewrite Z.ltb_irrefl.
  - intros a. induction a as [|x a IH]; intros [|y b] [|z c]; simpl; try done. intros Hab Hbc.
    destruct (Z.ltb_spec (bval x) (bval y)), (Z.ltb_spec (bval y) (bval x)), (Z.ltb_spec (bval y) (bval z)),
      (Z.ltb_spec (bval z) (bval y)), (Z.ltb_spec (bval x) (bval z)), (Z.ltb_spec (bval z) (bval x)); try done; try lia.
    by eapply IH.
Qed.
#[export] Instance bytes_le_antisymm : AntiSymm (=) bytes_le.
Proof.
  unfold bytes_le. intros a. induction a as [|x a IH]; intros [|y b]; simpl; try done. intros Hab Hba.
  destruct (Z.ltb_spec (bval x) (bval y)), (Z.ltb_spec (bval y) (bval x)); try done; try lia.
  f_equal; [apply bval_inj; lia|by apply IH].
Qed.
#[export] Instance bytes_le_total : Total bytes_le.
Proof.
  unfold bytes_le. intros a. induction a as [|x a IH]; intros [|y b]; simpl; try (by left); try (by right).
  destruct (Z.ltb_spec (bval x) (bval y)), (Z.ltb_spec (bval y) (bval x)); try (by left); try (by right). apply IH.
Qed.

(** [sort.Strings] *)
Definition sort_strings (l : list bytes) : list bytes := merge_sort bytes_le l.

Definition encode_pair (k v : bytes) : bytes := QueryEscape k ++ chr "=" :: QueryEscape v.

(** [v.Encode()] *)
Definition Encode (q : Values) : bytes :=
  join (chr "&") (k ← sort_strings (map_to_list q).*1; encode_pair k <$> default [] (q !! k)).

(** [m[key] = append(m[key], value)] *)
Definition append_value (m : Values) (k v : bytes) : Values := <[k := default [] (m !! k) ++ [v]]> m.

(** [strings.Cut(key, "=")] *)
Definition cut (c : byte) (s : bytes) : bytes * bytes :=
  match index_byte s c with
  | Some i => (take i s, drop (S i) s)
  | None => (s, [])
  end.

(** The loop of [parseQuery]: a malformed pair is skipped; the flag records the absence of errors. *)
Definition parse_pair (acc : Values * bool) (key : bytes) : Values * bool :=
  let '(m, ok) := acc in
  if bool_decide (chr ";" ∈ key) then (m, false) else
  if bool_decide (key = []) then (m, ok) else
  let '(k, v) := cut (chr "=") key in
  match QueryUnescape k, QueryUnescape v with
  | Some k, Some v => (append_value m k v, ok)
  | _, _ => (m, false)
  end.

Definition parse_query (query : bytes) : Values * bool :=
  if bool_decide (query = []) then (∅, true) else foldl parse_pair (∅, true) (split (chr "&") query).

(** [url.ParseQuery], and [u.Query()], which drops the error. *)
Definition ParseQuery (query : bytes) : option Values :=
  let '(m, ok) := parse_query query in if ok then Some m else None.
Definition Query (query : bytes) : Values := fst (parse_query query).

Example escape_ex : QueryEscape (str "a b&c=d%") = str "a+b%26c%3Dd%25".
Proof. vm_compute. reflexivity. Qed.
Example parse_ex : ParseQuery (str "xt=urn:btih:ab&tr=http%3A%2F%2Fx&xt=2&&k")
  = Some (<[str "xt" := [str "urn:btih:ab"; str "2"]]> (<[str "tr" := [str "http://x"]]> {[str "k" := [[]]]})).
Proof. decide_now. Qed.

(** ** Lemmas: escaping *)

Lemma unescape_byte b r : QueryUnescape (escape_byte b ++ r) = k ← QueryUnescape r; Some (b :: k).
Proof.
  unfold escape_byte. destruct (unreserved b) eqn:U.
  - cbn [app QueryUnescape]. rewrite !bool_decide_false; [done|intros ->; done|intros ->; done].
  - case_bool_decide as Hs; [by subst|]. cbn [app QueryUnescape]. rewrite bool_decide_true by done.
    assert (E : unhex2 (upperhex (Z.shiftr (bval b) 4)) (upperhex (Z.land (bval b) 15)) = Some b).
    { clear. revert b. refine (forall_byte _ _). vm_compute. reflexivity. }
    by rewrite E.
Qed.

Lemma unescape_escape s : QueryUnescape (QueryEscape s) = Some s.
Proof.
  unfold QueryEscape. induction s as [|b s IH]; [done|]. cbn [flat_map]. by rewrite unescape_byte, IH.
Qed.

(** Escaped text contains none of the characters that structure a query. *)
Definition structural (c : byte) : bool := bool_decide (c ∈ str "&=;").

Lemma escape_byte_plain b : Forall (λ c, structural c = false) (escape_byte b).
Proof. revert b. refine (forall_byte _ _). vm_compute. reflexivity. Qed.

Lemma escape_notin s c : structural c = true → c ∉ QueryEscape s.
Proof.
  intros Hc H. unfold QueryEscape in H. apply list_elem_of_In, in_flat_map in H as (b & _ & H).
  apply list_elem_of_In in H. pose proof (proj1 (Forall_forall _ _) (escape_byte_plain b) c H). congruence.
Qed.

Lemma cut_app c a b : c ∉ a → cut c (a ++ c :: b) = (a, b).
Proof.
  intros H. unfold cut.
  assert (E : index_byte (a ++ c :: b) c = Some (length a)).
  { induction a as [|x a IH]; simpl; [by rewrite bool_decide_true|].
    apply not_elem_of_cons in H as [H1 H2]. rewrite bool_decide_false by auto. by rewrite IH. }
  rewrite E, take_app_length. f_equal. rewrite <- Nat.add_1_r, <- drop_drop, drop_app_length. done.
Qed.

Lemma parse_encoded_pair m ok k v : parse_pair (m, ok) (encode_pair k v) = (append_value m k v, ok).
Proof.
  unfold parse_pair, encode_pair. rewrite bool_decide_false.
  2:{ rewrite elem_of_app, elem_of_cons. intros [H|[H|H]]; [|done|]; by apply escape_notin in H. }
  rewrite bool_decide_false by (destruct (QueryEscape k); done).
  rewrite cut_app by (by apply escape_notin). by rewrite !unescape_escape.
Qed.

Lemma encode_pair_no_amp k v : chr "&" ∉ encode_pair k v.
Proof.
  unfold encode_pair. rewrite elem_of_app, elem_of_cons. intros [H|[H|H]]; [|done|]; by apply escape_notin in H.
Qed.

(** ** Lemmas: values *)

Lemma foldl_pairs l : ∀ m ok, foldl parse_pair (m, ok) (uncurry encode_pair <$> l) = (foldl (λ m kv, append_value m kv.1 kv.2) m l, ok).
Proof. induction l as [|[k v] l IH]; intros m ok; [done|]. cbn [fmap list_fmap foldl uncurry fst snd]. by rewrite parse_encoded_pair, IH. Qed.

Lemma foldl_append_one k vs : ∀ m,
  foldl (λ m kv, append_value m kv.1 kv.2) m ((λ v, (k, v)) <$> vs)
  = if bool_decide (vs = []) then m else <[k := default [] (m !! k) ++ vs]> m.
Proof.
  induction vs as [|v vs IH]; intros m; [done|]. cbn [fmap list_fmap foldl fst snd].
  change ((λ v, (k, v)) <$> vs) with (list_fmap _ _ (λ v, (k, v)) vs) in IH. rewrite IH.
  unfold append_value. rewrite lookup_insert_eq, insert_insert_eq. cbn [default from_option id].
  rewrite <- app_assoc. cbn [app]. rewrite (bool_decide_false (v :: vs = [])) by done.
  case_bool_decide; [by subst|done].
Qed.

(** The pairs of the encoding, in order. *)
Definition pairs_of (q : Values) (ks : list bytes) : list (bytes * bytes) :=
  k ← ks; (λ v, (k, v)) <$> default [] (q !! k).

Lemma foldl_pairs_of (q : Values) ks : NoDup ks → (∀ k, k ∈ ks → ∃ v vs, q !! k = Some (v :: vs)) → ∀ m : Values,
  (∀ k, k ∈ ks → m !! k = None) →
  ∀ j, foldl (λ m kv, append_value m kv.1 kv.2) m (pairs_of q ks) !! j = if bool_decide (j ∈ ks) then q !! j else m !! j.
Proof.
  induction 1 as [|k ks Hk Hks IH]; intros Hq m Hm j.
  - rewrite bool_decide_false by (by intros ?%elem_of_nil). done.
  - unfold pairs_of in *. cbn [mbind list_bind]. rewrite foldl_app, foldl_append_one.
    destruct (Hq k) as (v & vs & Ev); [left|]. rewrite Ev. cbn [default from_option].
    rewrite bool_decide_false by done. rewrite (Hm k) by left. cbn [default from_option app].
    rewrite IH.
    + destruct (decide (j = k)) as [->|Hj].
      * rewrite bool_decide_false by done. rewrite lookup_insert_eq, bool_decide_true by left. done.
      * rewrite lookup_insert_ne by done. destruct (decide (j ∈ ks)).
        -- rewrite !bool_decide_true; [done|by right|done].
        -- rewrite !bool_decide_false; [done| |done]. rewrite elem_of_cons. tauto.
    + intros i Hi. apply Hq. by right.
    + intros i Hi. rewrite lookup_insert_ne by (intros ->; done). apply Hm. by right.
Qed.

Lemma Encode_pairs q : Encode q = join (chr "&") (uncurry encode_pair <$> pairs_of q (sort_strings (map_to_list q).*1)).
Proof.
  unfold Encode, pairs_of. f_equal. induction (sort_strings _) as [|k ks IH]; [done|].
  cbn [mbind list_bind]. rewrite fmap_app. f_equal; [|exact IH]. by rewrite <- list_fmap_compose.
Qed.

Lemma sort_strings_perm l : sort_strings l ≡ₚ l.
Proof. apply merge_sort_Permutation. Qed.

(** Sorting is determined by the elements. *)
Lemma sort_strings_unique l k : l ≡ₚ k → Sorted bytes_le k → sort_strings l = k.
Proof.
  intros P S. apply (Sorted_unique bytes_le); [apply (Sorted_merge_sort bytes_le)|done|]. by rewrite sort_strings_perm.
Qed.

Lemma join_nil sep p ps : join sep (p :: ps) = [] → p = [].
Proof. destruct ps as [|q ps]; simpl; [done|]. by intros [? _]%app_eq_nil. Qed.

(** Parsing inverts encoding, with no error, when no key has an empty list of values. *)
Lemma parse_encode q : (∀ k, q !! k ≠ Some []) → parse_query (Encode q) = (q, true).
Proof.
  intros Hq. set (ks := sort_strings (map_to_list q).*1).
  assert (P : ks ≡ₚ (map_to_list q).*1) by apply sort_strings_perm.
  assert (Hin : ∀ k, k ∈ ks ↔ is_Some (q !! k)).
  { intros k. rewrite P, list_elem_of_fmap. split.
    - intros ([k' v] & -> & H%elem_of_map_to_list). eauto.
    - intros [v Hv]. exists (k, v). by rewrite elem_of_map_to_list. }
  assert (Hks : ∀ k, k ∈ ks → ∃ v vs, q !! k = Some (v :: vs)).
  { intros k [[|v vs] Hk]%Hin; [by apply Hq in Hk|eauto]. }
  unfold parse_query. rewrite Encode_pairs. fold ks. case_bool_decide as E.
  - f_equal. symmetry. apply map_eq. intros k. rewrite lookup_empty. apply eq_None_not_Some. intros Hk%Hin.
    destruct (Hks k Hk) as (v & vs & Ev). destruct ks as [|k0 ks']; [by apply elem_of_nil in Hk|].
    destruct (Hks k0) as (v0 & vs0 & E0); [left|]. unfold pairs_of in E. cbn [mbind list_bind] in E. rewrite E0 in E.
    cbn [default from_option fmap list_fmap app uncurry] in E.
    apply join_nil in E. unfold uncurry, encode_pair in E. by destruct (QueryEscape k0).
  - rewrite split_join.
    + rewrite foldl_pairs. f_equal. apply map_eq. intros j. rewrite foldl_pairs_of.
      * case_bool_decide as Hj; [done|]. rewrite lookup_empty. symmetry. apply eq_None_not_Some. by rewrite <- Hin.
      * rewrite P. apply NoDup_fst_map_to_list.
      * exact Hks.
      * intros. apply lookup_empty.
    + apply Forall_fmap, Forall_true. intros [k v]. apply encode_pair_no_amp.
    + intros H. rewrite H in E. done.
Qed.

Lemma Query_Encode q : (∀ k, q !! k ≠ Some []) → Query (Encode q) = q.
Proof. intros H. unfold Query. by rewrite parse_encode. Qed.
Lemma ParseQuery_Encode q : (∀ k, q !! k ≠ Some []) → ParseQuery (Encode q) = Some q.
Proof. intros H. unfold ParseQuery. by rewrite parse_encode. Qed.
