(* ===== verification/Codec.v ===== *)
(** * The third-party bencode library, as an interface

    The program encodes and decodes with [github.com/zeebo/bencode], whose code is not part of the
    repository.  [Bencoder] lists the calls the program makes, one decoder per struct type it decodes
    into; [BencoderLaws] states the documented behaviour that some theorems rely on, on the encodings
    of well-typed values without repeated keys only.  The program's definitions are written against the class.

    [ref_codec] is a concrete instance, built from a reference decoder [decode_tree] that is proved to
    invert [Bencode.encode]; it shows that the laws can be met and lets examples run. *)

From S2P Require Import Prelude Strconv Bencode NetAddr GoStrings Recognize Url.
From Stdlib Require Import ZArith Lia.
Local Open Scope Z_scope.

(** ** Fields of a dictionary *)

(** The value a decoder leaves for a key: the last entry wins; [None] when there is none. *)
Definition field (k : bytes) (l : list (bytes * tree)) : option tree :=
  snd <$> last (filter (λ kv, kv.1 = k) l).

Definition int_field (k : bytes) (l : list (bytes * tree)) : option Z :=
  match field k l with None => Some 0 | Some (BInt z) => Some z | Some _ => None end.
Definition str_field (k : bytes) (l : list (bytes * tree)) : option bytes :=
  match field k l with None => Some [] | Some (BStr s) => Some s | Some _ => None end.

Fixpoint int_entries (l : list (bytes * tree)) : option (gmap bytes Z) :=
  match l with
  | [] => Some ∅
  | (k, BInt z) :: l' => m ← int_entries l'; Some (match m !! k with Some _ => m | None => <[k := z]> m end)
  | _ :: _ => None
  end.
Definition map_field (k : bytes) (l : list (bytes * tree)) : option (gmap bytes Z) :=
  match field k l with None => Some ∅ | Some (BDict d) => int_entries d | Some _ => None end.

(** ** The interface *)

(** [struct { MsgType, Piece, Total int }] *)
Record MetaHeader := mkHeader { MsgType : Z; Piece : Z; Total : Z }.
(** [struct { FailureReason, Peers, Peers6 string }] *)
Record TrackerReply := mkReply { FailureReason : bytes; RPeers : bytes; RPeers6 : bytes }.

Class Bencoder := {
  EncodeBytes : tree → option bytes;
  decode_value : bytes → option tree;                    (* torrent/parse.go: map[string]interface{} *)
  decode_raw : bytes → option (list (bytes * bytes));    (* torrent/parse.go: map[string]bencode.RawMessage *)
  decode_header : bytes → option MetaHeader;             (* client/metadata.go *)
  decode_ext : bytes → option (gmap bytes Z * Z);        (* client/peer.go: m, metadata_size *)
  decode_pex : bytes → option (bytes * bytes);           (* client/peer.go: added, added6 *)
  decode_reply : bytes → option TrackerReply;            (* client/tracker.go *)
}.

(** What the struct decoders make of a dictionary. *)
Definition header_of (l : list (bytes * tree)) : option MetaHeader :=
  t ← int_field (str "msg_type") l; p ← int_field (str "piece") l; n ← int_field (str "total_size") l;
  Some (mkHeader t p n).
Definition ext_of (l : list (bytes * tree)) : option (gmap bytes Z * Z) :=
  m ← map_field (str "m") l; n ← int_field (str "metadata_size") l; Some (m, n).
Definition pex_of (l : list (bytes * tree)) : option (bytes * bytes) :=
  a ← str_field (str "added") l; b ← str_field (str "added6") l; Some (a, b).
Definition reply_of (l : list (bytes * tree)) : option TrackerReply :=
  f ← str_field (str "failure reason") l; p ← str_field (str "peers") l; q ← str_field (str "peers6") l;
  Some (mkReply f p q).

(** Values the decoder's types can hold: 64-bit integers, maps without repeated keys. *)
Fixpoint plain_tree (t : tree) : bool :=
  match t with
  | BInt z => bool_decide (- 2 ^ 63 ≤ z < 2 ^ 63)
  | BStr _ => true
  | BList l => forallb plain_tree l
  | BDict l => bool_decide (NoDup l.*1) && forallb (λ kv, plain_tree kv.2) l
  end.

Class BencoderLaws (B : Bencoder) := {
  EncodeBytes_ok t : EncodeBytes t = Some (encode t);
  decode_value_ok t : plain_tree t = true → decode_value (encode t) = Some t;
  decode_raw_ok l : NoDup l.*1 → decode_raw (encode (BDict l)) = Some ((λ kv, (kv.1, encode kv.2)) <$> l);
  decode_header_ok l h : NoDup l.*1 → header_of l = Some h → decode_header (encode (BDict l)) = Some h;
  decode_ext_ok l e : NoDup l.*1 → ext_of l = Some e → decode_ext (encode (BDict l)) = Some e;
  decode_pex_ok l e : NoDup l.*1 → pex_of l = Some e → decode_pex (encode (BDict l)) = Some e;
  decode_reply_ok l r : NoDup l.*1 → reply_of l = Some r → decode_reply (encode (BDict l)) = Some r;
}.

(** ** Encoding a map

    The encoder writes a [map[string]interface{}] with its keys sorted. *)

Definition entries_of (m : gmap bytes tree) : list (bytes * tree) :=
  (λ k, (k, default (BInt 0) (m !! k))) <$> sort_strings (map_to_list m).*1.
Definition map_tree (m : gmap bytes tree) : tree := BDict (entries_of m).

Lemma entries_perm m : entries_of m ≡ₚ map_to_list m.
Proof.
  unfold entries_of. rewrite sort_strings_perm, <- list_fmap_compose.
  replace (_ <$> map_to_list m) with (map_to_list m); [done|].
  rewrite <- (list_fmap_id (map_to_list m)) at 1. apply list_fmap_ext. intros i [k v] E.
  apply list_elem_of_lookup_2, elem_of_map_to_list in E. simpl. by rewrite E.
Qed.

Lemma filter_key_none k (l : list (bytes * tree)) : k ∉ l.*1 → filter (λ kv, kv.1 = k) l = [].
Proof.
  induction l as [|[k' v] l IH]; [done|]. cbn [fmap list_fmap fst]. intros [H1 H2]%not_elem_of_cons.
  rewrite filter_cons_False by (simpl; congruence). by apply IH.
Qed.

Lemma field_elem k v (l : list (bytes * tree)) : NoDup l.*1 → (k, v) ∈ l → field k l = Some v.
Proof.
  unfold field. induction l as [|[k' v'] l IH]; cbn [fmap list_fmap fst]; [by intros _ ?%elem_of_nil|].
  intros [Hk N]%NoDup_cons [E|Hin]%elem_of_cons.
  - simplify_eq. rewrite filter_cons_True, filter_key_none by done. done.
  - rewrite filter_cons_False; [by apply IH|]. simpl. intros ->. apply Hk.
    apply list_elem_of_fmap. by exists (k, v).
Qed.

Lemma field_none k (l : list (bytes * tree)) : k ∉ l.*1 → field k l = None.
Proof. intros H. unfold field. by rewrite filter_key_none. Qed.

Lemma entries_NoDup m : NoDup (entries_of m).*1.
Proof. rewrite entries_perm. apply NoDup_fst_map_to_list. Qed.

Lemma field_entries m k : field k (entries_of m) = m !! k.
Proof.
  destruct (m !! k) as [v|] eqn:E.
  - apply field_elem; rewrite entries_perm; [apply NoDup_fst_map_to_list|by apply elem_of_map_to_list].
  - apply field_none. rewrite entries_perm, list_elem_of_fmap.
    intros ([k' v] & -> & H%elem_of_map_to_list). simpl in E. congruence.
Qed.

(** ** A reference decoder *)

Definition cut_at (c : byte) (s : bytes) : option (bytes * bytes) :=
  i ← index_byte s c; Some (take i s, drop (S i) s).

Definition dec_str (s : bytes) : option (bytes * bytes) :=
  '(ds, r) ← cut_at (chr ":") s;
  let n := Z.to_nat (dval ds) in
  if (length r <? n)%nat then None else Some (take n r, drop n r).

Definition dec_int (body : bytes) : Z :=
  match body with
  | c :: ds => if bool_decide (c = chr "-") then - dval ds else dval body
  | [] => 0
  end.

Fixpoint dec_tree (fuel : nat) (s : bytes) : option (tree * bytes) :=
  match fuel with
  | O => None
  | S f =>
      match s with
      | [] => None
      | c :: r =>
          if bool_decide (c = chr "i") then '(body, r) ← cut_at (chr "e") r; Some (BInt (dec_int body), r)
          else if bool_decide (c = chr "l") then '(l, r) ← dec_items f r; Some (BList l, r)
          else if bool_decide (c = chr "d") then '(l, r) ← dec_entries f r; Some (BDict l, r)
          else '(k, r) ← dec_str s; Some (BStr k, r)
      end
  end
with dec_items (fuel : nat) (s : bytes) : option (list tree * bytes) :=
  match fuel with
  | O => None
  | S f =>
      match s with
      | [] => None
      | c :: r =>
          if bool_decide (c = chr "e") then Some ([], r)
          else '(v, r) ← dec_tree f s; '(l, r) ← dec_items f r; Some (v :: l, r)
      end
  end
with dec_entries (fuel : nat) (s : bytes) : option (list (bytes * tree) * bytes) :=
  match fuel with
  | O => None
  | S f =>
      match s with
      | [] => None
      | c :: r =>
          if bool_decide (c = chr "e") then Some ([], r)
          else '(k, r) ← dec_str s; '(v, r) ← dec_tree f r; '(l, r) ← dec_entries f r; Some ((k, v) :: l, r)
      end
  end.

Definition decode_tree (s : bytes) : option tree :=
  match dec_tree (S (2 * length s)) s with Some (t, []) => Some t | _ => None end.

(** *** It inverts [encode] *)

Lemma cut_at_app c a b : c ∉ a → cut_at c (a ++ c :: b) = Some (a, b).
Proof.
  intros H. unfold cut_at. rewrite index_byte_app_r by done. cbn [mbind option_bind].
  rewrite take_app_length. do 2 f_equal. by rewrite <- Nat.add_1_r, <- drop_drop, drop_app_length.
Qed.

Lemma dec_str_enc s r : dec_str (enc_str s ++ r) = Some (s, r).
Proof.
  unfold dec_str, enc_str. rewrite <- app_assoc, <- app_comm_cons. pose proof (zlen_nonneg s).
  rewrite cut_at_app by (apply dec_notin; done). cbn [mbind option_bind].
  rewrite dval_dec by done. unfold zlen. rewrite Nat2Z.id, (proj2 (Nat.ltb_ge _ _)) by (rewrite length_app; lia).
  by rewrite take_app_length, drop_app_length.
Qed.

Lemma dec_int_itoa z : dec_int (itoa z) = z.
Proof.
  destruct (Z.lt_ge_cases z 0).
  - replace z with (- (- z)) by lia. rewrite itoa_neg by lia. simpl. rewrite dval_dec; lia.
  - rewrite itoa_nonneg by done. unfold dec_int. pose proof (dec_digits z H) as D. pose proof (dval_dec z H) as E.
    destruct (dec z) as [|c ds]; [exact E|]. apply Forall_cons in D as [Dc _].
    rewrite bool_decide_false by (intros ->; done). done.
Qed.

Lemma encode_pos v : (0 < length (encode v))%nat.
Proof. destruct (encode_cons v) as (? & ? & ->). simpl. lia. Qed.

Definition decodes (v : tree) : Prop := ∀ r f, (2 * length (encode v) ≤ f)%nat → dec_tree f (encode v ++ r) = Some (v, r).

Lemma dec_items_enc l : Forall decodes l → ∀ r f, (2 * length (enc_list l) + 1 ≤ f)%nat →
  dec_items f (enc_list l ++ chr "e" :: r) = Some (l, r).
Proof.
  unfold enc_list. induction 1 as [|v l Hv Hl IH]; intros r f Hf; (destruct f as [|f]; [lia|]).
  - done.
  - cbn [flat_map] in *. rewrite length_app in Hf. rewrite <- app_assoc.
    destruct (encode_not_e v (flat_map encode l ++ chr "e" :: r)) as (b & t & E & Hb).
    pose proof (encode_pos v).
    cbn [dec_items]. rewrite E at 1. rewrite bool_decide_false by done.
    rewrite Hv by lia. cbn [mbind option_bind]. rewrite IH by lia. done.
Qed.

Lemma dec_entries_enc l : Forall (λ kv, decodes kv.2) l → ∀ r f, (2 * length (enc_dict l) + 1 ≤ f)%nat →
  dec_entries f (enc_dict l ++ chr "e" :: r) = Some (l, r).
Proof.
  unfold enc_dict. induction 1 as [|[k v] l Hv Hl IH]; intros r f Hf; (destruct f as [|f]; [lia|]).
  - done.
  - cbn [flat_map fst snd] in *. rewrite !length_app in Hf. rewrite <- !app_assoc.
    destruct (enc_str_head k) as (d & t & Ek & Hd).
    pose proof (encode_pos v).
    cbn [dec_entries]. rewrite Ek at 1. cbn [app]. rewrite bool_decide_false by (intros ->; done).
    rewrite dec_str_enc. cbn [mbind option_bind]. rewrite Hv by lia. cbn [mbind option_bind]. rewrite IH by lia. done.
Qed.

Lemma decodes_all v : decodes v.
Proof.
  induction v as [z|s|l IH|l IH] using tree_ind; intros r f Hf;
    (destruct f as [|f]; [match type of Hf with context [encode ?v] => pose proof (encode_pos v) end; lia|]).
  - cbn [encode]. rewrite <- app_comm_cons, <- app_assoc. cbn [dec_tree app]. rewrite bool_decide_true by done.
    rewrite cut_at_app by apply itoa_not_e. cbn [mbind option_bind]. by rewrite dec_int_itoa.
  - cbn [encode]. destruct (enc_str_head s) as (d & t & Es & Hd). cbn [dec_tree]. rewrite Es at 1. cbn [app].
    rewrite !bool_decide_false by (intros ->; done). by rewrite dec_str_enc.
  - cbn [encode] in *. fold (enc_list l) in *. cbn [length] in Hf. rewrite length_app in Hf. cbn [length] in Hf.
    rewrite <- app_comm_cons, <- app_assoc. cbn [dec_tree app].
    rewrite bool_decide_false, bool_decide_true by done. rewrite dec_items_enc by first [done | simpl; lia]. done.
  - cbn [encode] in *. fold (enc_dict l) in *. cbn [length] in Hf. rewrite length_app in Hf. cbn [length] in Hf.
    rewrite <- app_comm_cons, <- app_assoc. cbn [dec_tree app].
    rewrite !(bool_decide_false (chr "d" = _)), bool_decide_true by done. rewrite dec_entries_enc by first [done | simpl; lia]. done.
Qed.

Lemma decode_tree_encode v : decode_tree (encode v) = Some v.
Proof. unfold decode_tree. rewrite <- (app_nil_r (encode v)) at 2. rewrite decodes_all; [done|lia]. Qed.

(** ** The reference instance *)

Definition decode_dict {A} (f : list (bytes * tree) → option A) (s : bytes) : option A :=
  match decode_tree s with Some (BDict l) => f l | _ => None end.

Definition ref_codec : Bencoder := {|
  EncodeBytes t := Some (encode t);
  decode_value := decode_tree;
  decode_raw := decode_dict (λ l, Some ((λ kv, (kv.1, encode kv.2)) <$> l));
  decode_header := decode_dict header_of;
  decode_ext := decode_dict ext_of;
  decode_pex := decode_dict pex_of;
  decode_reply := decode_dict reply_of;
|}.

Lemma decode_dict_ok {A} (f : list (bytes * tree) → option A) l x :
  f l = Some x → decode_dict f (encode (BDict l)) = Some x.
Proof. intros H. unfold decode_dict. by rewrite decode_tree_encode. Qed.

Lemma ref_codec_laws : BencoderLaws ref_codec.
Proof. split; try (intros; by apply decode_dict_ok); [done|]. intros t _. apply decode_tree_encode. Qed.
