(* ===== verification/ClientTracker.v ===== *)
(** * Package [client]: announcing to a tracker

    Models [internal/client/tracker.go]: the announce request, the checks on the reply and the compact
    peer lists.  The HTTP exchange is a parameter, from the request's base URL and query to the status
    and body of the reply; the bencode library is the interface [Bencoder]. *)

From S2P Require Import Prelude Strconv Hex GoStrings NetAddr Bencode Recognize Url Codec.
From Stdlib Require Import ZArith Lia.
Local Open Scope Z_scope.

(** ** Requests *)

Record AnnounceOptions := mkOptions {
  OInfoHash : bytes;      (* raw 20-byte v1 info hash *)
  OPeerID : bytes;
  OPort : Z;
  OUploaded : Z;
  ODownloaded : Z;
  OLeft : Z;
  OEvent : bytes;         (* "started", "completed", "stopped", or "" *)
}.

Definition EStarted := str "started".
Definition ECompleted := str "completed".
Definition EStopped := str "stopped".

(** [q.Set(key, value)] *)
Definition set (k v : bytes) (q : Values) : Values := <[k := [v]]> q.

(** The query of the request: the parameters of the tracker URL, then ours. *)
Definition announce_query (opts : AnnounceOptions) (q : Values) : Values :=
  let q := set (str "info_hash") (OInfoHash opts) q in
  let q := set (str "peer_id") (OPeerID opts) q in
  let q := set (str "port") (itoa (OPort opts)) q in
  let q := set (str "uploaded") (itoa (OUploaded opts)) q in
  let q := set (str "downloaded") (itoa (ODownloaded opts)) q in
  let q := set (str "left") (itoa (OLeft opts)) q in
  let q := set (str "compact") (str "1") q in
  if bool_decide (OEvent opts ≠ []) then set (str "event") (OEvent opts) q else q.

(** ** Replies *)

(** What [http.DefaultClient.Do] yields: an error, or a status and a body (or an error reading it). *)
Inductive http_result :=
| HttpError
| HttpReply (status : Z) (body : option bytes).

Inductive cerr :=
| InvalidURL | RequestFailed | BadStatus (code : Z) | ReadBody | InvalidReply (e : berr) | DecodeReply
| TrackerFailure (why : bytes) | BadPeersLength.

(** [unpackPeers]: entries of [ipLen] address bytes and two of port. *)
Definition unpack_entry (peers : bytes) (ipLen i : nat) : bytes :=
  let peerSize := (ipLen + 2)%nat in
  let offset := (i * peerSize)%nat in
  let ip := slice peers offset (offset + ipLen) in
  let port := be_get (slice peers (offset + ipLen) (offset + peerSize)) in
  JoinHostPort (IP_String ip) (itoa port).

Definition unpackPeers (peers : bytes) (ipLen : nat) : result cerr (list bytes) :=
  let peerSize := (ipLen + 2)%nat in
  if negb (length peers mod peerSize =? 0)%nat then Err BadPeersLength else
  let numPeers := (length peers / peerSize)%nat in
  Ok (unpack_entry peers ipLen <$> seq 0 numPeers).

Section client.
Context {B : Bencoder} {U : Type} (do_get : U → bytes → http_result).

(** [url] is what [url.Parse] makes of the tracker URL: the URL ([U]) and its query; [do_get] sends the request for the URL with another query. *)
Definition Announce (url : option (U * bytes)) (opts : AnnounceOptions) : result cerr (list bytes) :=
  '(base, rawQuery) ← of_option InvalidURL url;
  let q := announce_query opts (Query rawQuery) in
  match do_get base (Encode q) with
  | HttpError => Err RequestFailed
  | HttpReply status body =>
      if bool_decide (status ≠ 200) then Err (BadStatus status) else
      data ← of_option ReadBody body;
      _ ← map_err InvalidReply (Validate data TrackerResponseLimits);
      r ← of_option DecodeReply (decode_reply data);
      if bool_decide (FailureReason r ≠ []) then Err (TrackerFailure (FailureReason r)) else
      addrs ← unpackPeers (RPeers r) 4;
      addrs6 ← unpackPeers (RPeers6 r) 16;
      Ok (addrs ++ addrs6)
  end.

End client.

(** ** Lemmas *)

Lemma unpackPeers_returns peers n : returns (unpackPeers peers n).
Proof. unfold unpackPeers. by case_match. Qed.

(** A compact list is read entry by entry. *)
Definition compact_entry (ip : bytes) (port : Z) : bytes := ip ++ be_put 2 port.
Definition addr_text (ip : bytes) (port : Z) : bytes := JoinHostPort (IP_String ip) (itoa port).

Lemma slice_app_r {A} (l k : list A) i j : slice (l ++ k) (length l + i) (length l + j) = slice k i j.
Proof.
  unfold slice. rewrite drop_app_add.
  by replace (length l + j - (length l + i))%nat with (j - i)%nat by lia.
Qed.

Lemma length_compact_entry ip port : length (compact_entry ip port) = (length ip + 2)%nat.
Proof. unfold compact_entry. by rewrite length_app, length_be_put. Qed.

Lemma unpack_entry_0 ip port r : 0 ≤ port < 2 ^ 16 → unpack_entry (compact_entry ip port ++ r) (length ip) 0 = addr_text ip port.
Proof.
  intros Hp. unfold unpack_entry, addr_text, compact_entry. rewrite Nat.mul_0_l. cbn [Nat.add].
  assert (E1 : slice ((ip ++ be_put 2 port) ++ r) 0 (length ip) = ip).
  { unfold slice. by rewrite drop_0, Nat.sub_0_r, <- app_assoc, take_app_length. }
  assert (E2 : slice ((ip ++ be_put 2 port) ++ r) (length ip) (length ip + 2) = be_put 2 port).
  { rewrite <- app_assoc. rewrite <- (Nat.add_0_r (length ip)) at 1. by rewrite slice_app_r. }
  rewrite E1, E2, be_get_put. change (2 ^ (8 * Z.of_nat 2)) with (2 ^ 16). by rewrite Z.mod_small.
Qed.

Lemma unpack_entry_S ip port r n i : length ip = n →
  unpack_entry (compact_entry ip port ++ r) n (S i) = unpack_entry r n i.
Proof.
  intros L. unfold unpack_entry.
  assert (LE : length (compact_entry ip port) = (n + 2)%nat) by (rewrite length_compact_entry; lia).
  replace (S i * (n + 2))%nat with (length (compact_entry ip port) + i * (n + 2))%nat by lia.
  by rewrite <- !Nat.add_assoc, !slice_app_r.
Qed.

Lemma unpack_compact n l : Forall (λ e, length e.1 = n ∧ 0 ≤ e.2 < 2 ^ 16) l →
  unpackPeers (flat_map (uncurry compact_entry) l) n = Ok (uncurry addr_text <$> l).
Proof.
  intros Hl. assert (L : length (flat_map (uncurry compact_entry) l) = (length l * (n + 2))%nat).
  { induction Hl as [|[ip p] l [L _] _ IH]; [done|]. cbn [flat_map uncurry fst snd] in *.
    rewrite length_app, length_compact_entry, IH. simpl. lia. }
  unfold unpackPeers. rewrite L, Nat.Div0.mod_mul, Nat.div_mul by lia. cbn [Nat.eqb negb]. f_equal. clear L.
  induction Hl as [|[ip p] l [L Hp] Hl IH]; [done|]. cbn [flat_map uncurry fst snd length seq fmap list_fmap] in *.
  f_equal; [subst n; by apply unpack_entry_0|].
  rewrite <- IH, <- seq_shift, <- list_fmap_compose. apply list_fmap_ext. intros i x _. by apply unpack_entry_S.
Qed.
