(* ===== verification/Interop.v ===== *)
(** * The client and the tracker against each other

    Theorems that connect two components: the client's announce request is in the grammar the tracker
    recognizes, and the compact peer lists the tracker packs are the addresses the client unpacks. *)

From S2P Require Import Prelude Strconv Hex GoStrings NetAddr Bencode TrackerState UsageSync Recognize Database Announce Url Codec ClientTracker.
From Stdlib Require Import ZArith Lia.
Local Open Scope Z_scope.

(** ** The request *)

(** Options the client's callers build: 20-byte hash and id, a 16-bit port, non-negative counters and
    one of the client's events. *)
Record sane_options (o : AnnounceOptions) : Prop := mkSane {
  so_hash : length (OInfoHash o) = 20%nat;
  so_peer : length (OPeerID o) = 20%nat;
  so_port : 1 ≤ OPort o < 2 ^ 16;
  so_up : 0 ≤ OUploaded o < 2 ^ 63;
  so_down : 0 ≤ ODownloaded o < 2 ^ 63;
  so_left : 0 ≤ OLeft o < 2 ^ 63;
  so_event : OEvent o ∈ [[]; EStarted; ECompleted; EStopped];
}.

Definition event_of (e : bytes) : PeerEvent :=
  if bool_decide (e = EStarted) then EventStarted
  else if bool_decide (e = ECompleted) then EventCompleted
  else if bool_decide (e = EStopped) then EventStopped else EventNone.

(** What the tracker should understand. *)
Definition expected_params (o : AnnounceOptions) : AnnounceParams :=
  mkParams (OInfoHash o ++ zeros 12) 20 (OPeerID o) (OPort o) (OUploaded o) (ODownloaded o) (OLeft o)
    (event_of (OEvent o)) (-1) true.

Lemma Get_set k k' v q : Get (set k v q) k' = if bool_decide (k = k') then v else Get q k'.
Proof.
  unfold Get, set. case_bool_decide as E.
  - subst k'. by rewrite lookup_insert_eq.
  - by rewrite lookup_insert_ne.
Qed.

Lemma itoa_nonempty n : 0 ≤ n → itoa n ≠ [].
Proof. intros. rewrite itoa_nonneg by done. by apply dec_nonempty. Qed.

Lemma counter_text_itoa n : 0 ≤ n < 2 ^ 63 → counter_text (itoa n) n.
Proof.
  intros. right. split; [apply itoa_nonempty; lia|]. rewrite itoa_nonneg by lia.
  split; [by apply parse_int_dec|lia].
Qed.

Lemma parse_uint_itoa bits n : 0 ≤ n < 2 ^ bits → parse_uint bits (itoa n) = Some n.
Proof. intros. rewrite itoa_nonneg by lia. by apply parse_uint_dec. Qed.

Lemma set_nonempty k v q : (∀ j, q !! j ≠ Some []) → ∀ j, set k v q !! j ≠ Some [].
Proof. intros H j. unfold set. rewrite lookup_insert. case_decide; [done|apply H]. Qed.

Lemma announce_query_nonempty o q : (∀ j, q !! j ≠ Some []) → ∀ j, announce_query o q !! j ≠ Some [].
Proof. intros H. unfold announce_query. case_bool_decide; repeat apply set_nonempty; done. Qed.

(** The fields of the query, as the tracker's lookups see them. *)
Lemma announce_query_Get o q k : Get (announce_query o q) k =
  if bool_decide (str "event" = k) then (if bool_decide (OEvent o ≠ []) then OEvent o else Get q k)
  else if bool_decide (str "compact" = k) then str "1"
  else if bool_decide (str "left" = k) then itoa (OLeft o)
  else if bool_decide (str "downloaded" = k) then itoa (ODownloaded o)
  else if bool_decide (str "uploaded" = k) then itoa (OUploaded o)
  else if bool_decide (str "port" = k) then itoa (OPort o)
  else if bool_decide (str "peer_id" = k) then OPeerID o
  else if bool_decide (str "info_hash" = k) then OInfoHash o
  else Get q k.
Proof.
  unfold announce_query. destruct (bool_decide (OEvent o ≠ [])); rewrite !Get_set; [done|].
  destruct (decide (str "event" = k)) as [<-|E]; [|by rewrite (bool_decide_false (str "event" = k))].
  by rewrite (bool_decide_true (str "event" = _)), !(bool_decide_false (str _ = str _)) by done.
Qed.

Lemma announce_query_grammar o q :
  sane_options o → Get q (str "event") = [] → Get q (str "numwant") = [] →
  announce_grammar (announce_query o q) (expected_params o).
Proof.
  intros [Hh Hp Hport Hu Hd Hl He] Qe Qn.
  split; rewrite ?announce_query_Get; cbn [expected_params InfoHash InfoHashLen PeerID Port PUploaded PDownloaded PLeft Event NumWant Compact];
    rewrite ?(bool_decide_false (str _ = str _)), ?(bool_decide_true (str _ = str _)) by done; try done.
  - by left.
  - apply parse_uint_itoa. lia.
  - change (2 ^ 16) with 65536 in *. lia.
  - by apply counter_text_itoa.
  - by apply counter_text_itoa.
  - by apply counter_text_itoa.
  - rewrite Qe. repeat (apply elem_of_cons in He as [->|He]; [done|]). by apply elem_of_nil in He.
  - left. done.
  - left. split; [done|by right].
Qed.

(** ** The peers of the reply *)

(** An IPv4 endpoint, as [PackPeers] meets it. *)
Definition endpoint (e : bytes * Z) : Prop := length e.1 = 4%nat ∧ 0 ≤ e.2 < 2 ^ 16.

Lemma port_bytes_be port : port_bytes port = be_put 2 port.
Proof.
  unfold port_bytes. cbn [be_put app]. f_equal.
  - f_equal. by rewrite Z.shiftr_div_pow2.
  - f_equal. apply bval_inj. rewrite !bval_zbyte. change 255 with (Z.ones 8). rewrite Z.land_ones by done.
    change (2 ^ 8) with 256. by rewrite Z.mod_mod.
Qed.

Lemma plain_host_v4 ip : plain_host (v4_string ip).
Proof. split; by apply v4_string_notin. Qed.

Lemma pack_peer_v4 a b ip port : endpoint (ip, port) → pack_peer (a, b) (addr_text ip port) = (a ++ compact_entry ip port, b).
Proof.
  intros [L Hp]. cbn [fst snd] in *. change (2 ^ 16) with 65536 in Hp. unfold pack_peer, addr_text.
  rewrite IP_String_v4 by done. rewrite SplitHostPort_join by
    (rewrite ?itoa_nonneg by lia; first [apply plain_host_v4|apply plain_port_dec; lia]).
  rewrite atoi_itoa by lia. rewrite ParseIP_v4_string by done. cbn [default from_option id].
  rewrite To4_mapped by done. unfold compact_entry. by rewrite port_bytes_be.
Qed.

Lemma PackPeers_v4 l : Forall endpoint l → PackPeers (uncurry addr_text <$> l) = (flat_map (uncurry compact_entry) l, []).
Proof.
  intros Hl. unfold PackPeers. change (flat_map (uncurry compact_entry) l) with ([] ++ flat_map (uncurry compact_entry) l).
  generalize (@nil byte) at 1 3 as acc. induction Hl as [|[ip p] l Hp Hl IH]; intros acc; cbn [fmap list_fmap foldl flat_map uncurry].
  - by rewrite app_nil_r.
  - rewrite pack_peer_v4 by done. rewrite IH. by rewrite app_assoc.
Qed.

(** ** The whole exchange *)

(** The reply to an announce whose peers are IPv4 endpoints. *)
Definition v4_reply (complete incomplete : Z) (l : list (bytes * Z)) : reply :=
  <[str "interval" := BInt 1800]> (<[str "complete" := BInt complete]>
  (<[str "incomplete" := BInt incomplete]> {[ str "peers" := BStr (flat_map (uncurry compact_entry) l) ]})).

Lemma v4_reply_entries c i l : entries_of (v4_reply c i l) ≡ₚ
  [(str "interval", BInt 1800); (str "complete", BInt c); (str "incomplete", BInt i);
   (str "peers", BStr (flat_map (uncurry compact_entry) l))].
Proof.
  rewrite entries_perm. unfold v4_reply.
  rewrite !map_to_list_insert by (rewrite ?lookup_insert_ne by done; by apply lookup_singleton_ne).
  by rewrite map_to_list_singleton.
Qed.

Lemma reply_of_v4 c i l : reply_of (entries_of (v4_reply c i l)) = Some (mkReply [] (flat_map (uncurry compact_entry) l) []).
Proof.
  unfold reply_of, str_field. rewrite !field_entries. reflexivity.
Qed.

Lemma length_compact l : Forall endpoint l → zlen (flat_map (uncurry compact_entry) l) = 6 * zlen l.
Proof.
  induction 1 as [|[ip p] l [L _] _ IH]; [done|]. cbn [flat_map uncurry fst] in *.
  rewrite zlen_app, IH, zlen_cons. unfold zlen at 1. rewrite length_compact_entry, L. lia.
Qed.

(** It passes the client's validator. *)
Lemma v4_reply_valid c i l :
  Forall endpoint l → 0 ≤ c < 2 ^ 63 → 0 ≤ i < 2 ^ 63 → zlen l ≤ 100000 →
  Validate (encode (map_tree (v4_reply c i l))) TrackerResponseLimits = Ok tt.
Proof.
  intros Hl Hc Hi Hn. pose proof (v4_reply_entries c i l) as P. set (m := v4_reply c i l) in *. apply validate_accepts.
  pose proof (length_compact l Hl) as Lp. pose proof (zlen_nonneg l). split.
  - unfold within. apply orb_true_iff. right. apply Z.leb_le. change (MaxBytes TrackerResponseLimits) with 2097152.
    cbn [encode map_tree]. fold (enc_dict (entries_of m)). rewrite zlen_cons, zlen_app.
    rewrite (enc_dict_perm _ _ P). unfold enc_dict. cbn [flat_map fst snd encode].
    rewrite !zlen_app, !zlen_cons, !zlen_app, !itoa_nonneg by lia.
    pose proof (length_dec c Hc). pose proof (length_dec i Hi). pose proof (length_dec 1800).
    pose proof (zlen_enc_str (flat_map (uncurry compact_entry) l)).
    change (zlen (enc_str (str "interval"))) with 10. change (zlen (enc_str (str "complete"))) with 10.
    change (zlen (enc_str (str "incomplete"))) with 13. change (zlen (enc_str (str "peers"))) with 7.
    change (zlen [chr "e"]) with 1. change (zlen (@nil byte)) with 0. lia.
  - exists (map_tree m). split; [done|]. cbn [map_tree fits]. apply andb_true_iff. split; [apply andb_true_iff; split; [done|]|].
    + unfold within. apply orb_true_iff. right. apply Z.leb_le. unfold zlen. by rewrite (Permutation_length P).
    + apply forallb_forall. intros [k v] Hin%list_elem_of_In. rewrite P in Hin.
      repeat (apply elem_of_cons in Hin as [[= -> ->]|Hin]; [try done|]); [|by apply elem_of_nil in Hin].
      cbn [fst snd fits]. apply andb_true_iff. split; [done|]. unfold str_fits, within, maxDeclaredLen.
      change (MaxStrLen TrackerResponseLimits) with 1048576. rewrite Lp.
      rewrite (proj2 (Z.leb_le _ 2147483649)) by lia. apply orb_true_iff. right. apply Z.leb_le. lia.
Qed.

Lemma Query_nonempty raw k : Query raw !! k ≠ Some [].
Proof.
  unfold Query, parse_query. case_bool_decide; [done|].
  assert (H0 : ∀ j, (∅ : Values, true).1 !! j ≠ Some []) by done. revert H0. generalize (∅ : Values, true) as acc.
  induction (split (chr "&") raw) as [|x l IH]; intros acc H0; [apply H0|].
  cbn [foldl]. apply IH. intros j. destruct acc as [m ok]. cbn [fst] in *. unfold parse_pair.
  repeat case_match; cbn [fst]; try done.
  unfold append_value. rewrite lookup_insert.
  match goal with |- context [decide (?a = ?b)] => destruct (decide (a = b)) end; [|apply H0]. intros [= E]. by apply app_eq_nil in E as [_ ?].
Qed.

(** The peers the tracker picks are endpoints when all the others of the swarm are. *)
Lemma picked_endpoints s order hash ex lim :
  iteration_of s order →
  (∀ id q, id ≠ ex → GetPeer s hash id = Some q → ∃ e, endpoint e ∧ Addr q = uncurry addr_text e) →
  ∃ l, GetPeers s order hash ex lim = uncurry addr_text <$> l ∧ Forall endpoint l ∧ zlen l ≤ Z.max 0 lim.
Proof.
  intros Hit He. destruct (GetPeers_spec s order hash ex lim Hit) as (sel & -> & _ & Hsel & Hlen).
  assert (L : zlen sel ≤ Z.max 0 lim) by (unfold zlen; lia). clear Hlen.
  induction sel as [|[id q] sel IH]; [by exists []|].
  destruct IH as (l & E & Hl & Ll).
  - intros i x Hin. apply Hsel. by right.
  - rewrite zlen_cons in L. lia.
  - destruct (Hsel id q) as [Hid Hq]; [left|]. destruct (He id q Hid Hq) as (e & Ee & Ea).
    exists (e :: l). cbn [fmap list_fmap]. split; [by rewrite <- Ea, E|]. split; [by constructor|].
    assert (length sel = length l); [|unfold zlen in *; cbn [length] in *; lia].
    apply (f_equal length) in E. by rewrite !length_fmap in E.
Qed.

Lemma announce_reply_v4 c run hash id p s l :
  NumWant p = -1 → Forall endpoint l → Z.of_nat (size (swarm_of s hash)) < 2 ^ 63 →
  GetPeers s (peers_order run s) hash id (MaxPeers c) = uncurry addr_text <$> l →
  ∃ x y, 0 ≤ x < 2 ^ 63 ∧ 0 ≤ y < 2 ^ 63 ∧ announce_reply c run hash id p s = v4_reply x y l.
Proof.
  intros Hn Hl Hs El. unfold announce_reply, peer_limit. rewrite Hn. cbn [Z.leb Z.compare andb].
  rewrite El. unfold GetCounts. fold (swarm_of s hash). rewrite count_fold, PackPeers_v4 by done.
  rewrite bool_decide_false by tauto. eexists _, _. split; [|split; [|reflexivity]].
  - split; [lia|]. pose proof (map_size_filter (λ kv : bytes * Peer, Left kv.2 = 0) (swarm_of s hash)). lia.
  - split; [lia|]. pose proof (map_size_filter (λ kv : bytes * Peer, Left kv.2 ≠ 0) (swarm_of s hash)). lia.
Qed.

Section exchange.
Context {B : Bencoder} (msg : aerr → bytes) (c : Config) (run : Run) (url_path remote : bytes) (w : World).

(** The tracker as the client's HTTP peer. *)
Definition tracker_http (_ raw : bytes) : http_result :=
  HttpReply 200 (EncodeBytes (map_tree (fst (HandleAnnounce msg c run (mkRequest url_path (Query raw) remote) w)))).

Context (o : AnnounceOptions) (raw : bytes) (userID : bytes).
Let p := expected_params o.
Let r := mkRequest url_path (Query (Encode (announce_query o (Query raw)))) remote.
Let hash := InfoHashHex p.
Let s' := swarm (snd (HandleAnnounce msg c run r w)).

Lemma handle_expected :
  sane_options o → Get (Query raw) (str "event") = [] → Get (Query raw) (str "numwant") = [] →
  authenticatePasskey c r = inl userID →
  HandleAnnounce msg c run r w = executeAnnounce c run r userID p w.
Proof.
  intros So Qe Qn Ha. unfold HandleAnnounce. rewrite Ha. unfold r at 1. cbn [query].
  rewrite Query_Encode by (apply announce_query_nonempty, Query_nonempty).
  rewrite (recognize_complete _ p) by (by apply announce_query_grammar). done.
Qed.

End exchange.

(** The client reads the reply to an admitted announce, however it got it. *)
Lemma Announce_reads `{B : Bencoder} {U} (do_get : U → bytes → http_result) c run r userID w o base raw :
  let p := expected_params o in
  let hash := InfoHashHex p in
  let a := executeAnnounce c run r userID p w in
  let s' := swarm (snd a) in
  BencoderLaws B → admitted c run r p w → 0 ≤ MaxPeers c ≤ 100000 → iteration_of s' (peers_order run s') →
  Z.of_nat (size (swarm_of s' hash)) < 2 ^ 63 →
  (∀ id q, id ≠ OPeerID o → GetPeer s' hash id = Some q → ∃ e, endpoint e ∧ Addr q = uncurry addr_text e) →
  do_get base (Encode (announce_query o (Query raw))) = HttpReply 200 (EncodeBytes (map_tree (fst a))) →
  Announce do_get (Some (base, raw)) o = Ok (GetPeers s' (peers_order run s') hash (OPeerID o) (MaxPeers c)).
Proof.
  intros p hash a s' HB Had HM Hit Hsz Hend Hget.
  destruct (picked_endpoints s' (peers_order run s') hash (OPeerID o) (MaxPeers c) Hit Hend) as (l & El & Hl & Ll).
  assert (Er : ∃ x y, 0 ≤ x < 2 ^ 63 ∧ 0 ≤ y < 2 ^ 63 ∧ fst a = v4_reply x y l).
  { unfold s', a in *. destruct (executeAnnounce_cases c run r userID p w) as [[Hn _]|(ip & pt & _ & _ & E)]; [done|].
    rewrite E in *. cbn [fst snd] in *. by apply announce_reply_v4. }
  destruct Er as (x & y & Hx & Hy & Er). rewrite Er, EncodeBytes_ok in Hget.
  unfold Announce. cbn [of_option mbind result_bind]. rewrite Hget. rewrite bool_decide_false by tauto. cbn [of_option mbind result_bind].
  rewrite v4_reply_valid by (done || lia). cbn [map_err mbind result_bind].
  rewrite (decode_reply_ok _ _ (entries_NoDup _) (reply_of_v4 x y l)). cbn [of_option mbind result_bind FailureReason RPeers RPeers6].
  rewrite bool_decide_false by tauto. rewrite unpack_compact by done.
  cbn [mbind result_bind]. change (unpackPeers [] 16) with (@Ok cerr (list bytes) []). cbn [mbind result_bind].
  by rewrite app_nil_r, El.
Qed.

Section property.
Context {B : Bencoder} (msg : aerr → bytes) (c : Config) (run : Run) (url_path remote : bytes) (w : World).
Context (o : AnnounceOptions) (raw : bytes) (userID : bytes).
Let p := expected_params o.
Let r := mkRequest url_path (Query (Encode (announce_query o (Query raw)))) remote.
Let hash := InfoHashHex p.
Let s' := swarm (snd (HandleAnnounce msg c run r w)).

(** C16. A client and a tracker of this repository understand each other: for every announce the client
    builds (with a tracker URL whose own query sets neither event nor numwant), if the tracker
    authenticates and admits it and the other members of the swarm have IPv4 endpoints, the client's
    [Announce] returns exactly the addresses [GetPeers] selected, in order. *)
Theorem announce_exchange base :
  BencoderLaws B → sane_options o →
  Get (Query raw) (str "event") = [] → Get (Query raw) (str "numwant") = [] →
  authenticatePasskey c r = inl userID → admitted c run r p w →
  0 ≤ MaxPeers c ≤ 100000 → iteration_of s' (peers_order run s') →
  Z.of_nat (size (swarm_of s' hash)) < 2 ^ 63 →
  (∀ id q, id ≠ OPeerID o → GetPeer s' hash id = Some q → ∃ e, endpoint e ∧ Addr q = uncurry addr_text e) →
  Announce (tracker_http msg c run url_path remote w) (Some (base, raw)) o = Ok (GetPeers s' (peers_order run s') hash (OPeerID o) (MaxPeers c)).
Proof.
  intros HB So Qe Qn Ha Had HM Hit Hsz Hend. pose proof (handle_expected msg c run url_path remote w o raw userID So Qe Qn Ha) as Hh.
  fold p r in Hh. unfold s' in *. rewrite Hh in *. apply Announce_reads; try done. unfold tracker_http. fold r. by rewrite Hh.
Qed.
End property.

(** Bob's client announces to the tracker that already knows Alice's peer. *)
Module Sample.
Definition bob := str "bob".
Definition bob_id := str "-WL0020-bbbbbbbbbbbb".
Definition options : AnnounceOptions :=
  mkOptions (str "aaaaaaaaaaaaaaaaaaaa") bob_id 6882 0 0 42 EStarted.
Definition url_path : bytes := str "/announce/" ++ bob ++ chr "." :: SignUserID sample_config bob.
Definition remote := str "10.0.0.9:40000".
Definition request : Request := mkRequest url_path (Query (Encode (announce_query options (Query [])))) remote.
Definition after : SwarmState := swarm (snd (HandleAnnounce (λ _, []) sample_config sample_run request sample_world2)).
Definition hash : bytes := InfoHashHex (expected_params options).

Lemma options_sane : sane_options options.
Proof. split; try (vm_compute; split; congruence); try done. right. left. Qed.

Lemma others_v4 id q : id ≠ bob_id → GetPeer after hash id = Some q → ∃ e, endpoint e ∧ Addr q = uncurry addr_text e.
Proof.
  intros Hid Hq. rewrite <- lookup_swarm_of in Hq.
  assert (H : map_Forall (λ i x, i = bob_id ∨ Addr x = str "10.0.0.7:6881") (swarm_of after hash)).
  { decide_now. }
  destruct (map_Forall_lookup_1 _ _ _ _ H Hq) as [E|Ea]; [destruct (Hid E)|]. exists (zbyte <$> [10; 0; 0; 7], 6881). split.
  - split; [done|]. cbn [snd]. lia.
  - rewrite Ea. vm_compute. reflexivity.
Qed.
End Sample.

Lemma announce_exchange_witness :
  @Announce ref_codec _ (@tracker_http ref_codec (λ _, []) sample_config sample_run Sample.url_path Sample.remote sample_world2)
    (Some (str "http://tracker/announce", [])) Sample.options = Ok [str "10.0.0.7:6881"]
  ∧ @Announce ref_codec _ (@tracker_http ref_codec (λ _, []) sample_config sample_run Sample.url_path Sample.remote sample_world2)
      (Some (str "http://tracker/announce", [])) Sample.options
    = Ok (GetPeers Sample.after (peers_order sample_run Sample.after) Sample.hash Sample.bob_id (MaxPeers sample_config)).
Proof.
  split; [vm_compute; reflexivity|].
  apply (@announce_exchange ref_codec (λ _, []) sample_config sample_run Sample.url_path Sample.remote sample_world2
           Sample.options [] Sample.bob).
  - exact ref_codec_laws.
  - exact Sample.options_sane.
  - vm_compute. reflexivity.
  - vm_compute. reflexivity.
  - vm_compute. reflexivity.
  - split; [vm_compute; reflexivity|]. split; [right; vm_compute; reflexivity|]. vm_compute. eauto.
  - vm_compute. split; congruence.
  - change (peers_order sample_run) with default_order. apply default_order_ok.
  - vm_compute. reflexivity.
  - exact Sample.others_v4.
Defined.
