(* ===== verification/Peer.v ===== *)
(** * Package [client]: a peer connection

    Models [internal/client/peer.go]: the handshakes, the typed connection state, the extension
    protocol and peer exchange.  The operations run in a state and error monad [M] over [PeerConn]:
    the connection is the bytes the peer will still send ([rx]), the bytes written so far ([tx]) and
    the number of writes that still succeed ([writes]); a context is the number of times it may still
    be polled before it is found cancelled ([ctx]).  Deadlines and closing are not modelled: a read
    that cannot be completed from [rx] fails, and every caller gives the connection up then, so [rx]
    after a failed read is not observed. *)

From S2P Require Import Prelude Strconv Hex GoStrings NetAddr Bencode Recognize Url Codec ClientTracker Wire.
From Stdlib Require Import ZArith Lia.
Local Open Scope Z_scope.

(** ** Data *)

Inductive peerState := stateInit | stateHandshook | stateExtended.

#[export] Instance peerState_eq_decision : EqDecision peerState.
Proof. solve_decision. Defined.

(** The order of the [iota] constants. *)
Definition state_rank (s : peerState) : Z := match s with stateInit => 0 | stateHandshook => 1 | stateExtended => 2 end.

Record PeerConn := mkConn {
  rx : bytes;
  tx : bytes;
  writes : nat;
  ctx : nat;
  state : peerState;
  AmChoking : bool;
  AmInterested : bool;
  PeerChoking : bool;
  PeerInterested : bool;
  PeerExtensions : gmap bytes Z;
  MetadataSize : Z;
  pexPeers : list bytes;
}.

(** A freshly connected peer. *)
Definition Connect (incoming : bytes) (w c : nat) : PeerConn :=
  mkConn incoming [] w c stateInit true false true false ∅ 0 [].

Definition with_rx (p : PeerConn) (r : bytes) : PeerConn :=
  mkConn r (tx p) (writes p) (ctx p) (state p) (AmChoking p) (AmInterested p) (PeerChoking p) (PeerInterested p)
    (PeerExtensions p) (MetadataSize p) (pexPeers p).
Definition with_write (p : PeerConn) (b : bytes) (w : nat) : PeerConn :=
  mkConn (rx p) (tx p ++ b) w (ctx p) (state p) (AmChoking p) (AmInterested p) (PeerChoking p) (PeerInterested p)
    (PeerExtensions p) (MetadataSize p) (pexPeers p).
Definition with_ctx (p : PeerConn) (c : nat) : PeerConn :=
  mkConn (rx p) (tx p) (writes p) c (state p) (AmChoking p) (AmInterested p) (PeerChoking p) (PeerInterested p)
    (PeerExtensions p) (MetadataSize p) (pexPeers p).
Definition with_state (p : PeerConn) (s : peerState) : PeerConn :=
  mkConn (rx p) (tx p) (writes p) (ctx p) s (AmChoking p) (AmInterested p) (PeerChoking p) (PeerInterested p)
    (PeerExtensions p) (MetadataSize p) (pexPeers p).
Definition with_choking (p : PeerConn) (b : bool) : PeerConn :=
  mkConn (rx p) (tx p) (writes p) (ctx p) (state p) (AmChoking p) (AmInterested p) b (PeerInterested p)
    (PeerExtensions p) (MetadataSize p) (pexPeers p).
Definition with_ext (p : PeerConn) (e : gmap bytes Z) (n : Z) : PeerConn :=
  mkConn (rx p) (tx p) (writes p) (ctx p) (state p) (AmChoking p) (AmInterested p) (PeerChoking p) (PeerInterested p)
    e n (pexPeers p).
Definition with_pex (p : PeerConn) (l : list bytes) : PeerConn :=
  mkConn (rx p) (tx p) (writes p) (ctx p) (state p) (AmChoking p) (AmInterested p) (PeerChoking p) (PeerInterested p)
    (PeerExtensions p) (MetadataSize p) l.

(** ** The monad *)

Inductive perr :=
| BadState | BadInfoHashLength | BadPeerIDLength | WriteError | ReadError (e : werr)
| BadPstrlen | BadMagic | InfoHashMismatch | ExtTooShort | NotExtHandshake | ExtInvalid (e : berr) | ExtDecode
| NoExtHandshake | NoMetadataExt | EncodeError | Cancelled
| NoMetadataSize | MetadataTooBig | NoMetadataReply | MetadataTooShort | NoHeaderEnd | HeaderInvalid (e : berr)
| HeaderDecode | Rejected | BadMsgType | PieceMismatch | BadPieceLength | HashMismatch | PeerChoked | BlockTooLarge.

Definition M (A : Type) : Type := PeerConn → result perr A * PeerConn.

#[export] Instance M_ret : MRet M := λ A a p, (Ok a, p).
#[export] Instance M_bind : MBind M := λ A B f m p,
  let '(r, p') := m p in
  match r with
  | Ok a => f a p'
  | Err e => (Err e, p')
  | Panic => (Panic, p')
  | NoFuel => (NoFuel, p')
  end.

Definition throw {A} (e : perr) : M A := λ p, (Err e, p).
Definition gets {A} (f : PeerConn → A) : M A := λ p, (Ok (f p), p).
Definition modify (f : PeerConn → PeerConn) : M unit := λ p, (Ok tt, f p).
Definition lift {A} (r : result perr A) : M A := λ p, (r, p).
Definition guard (b : bool) (e : perr) : M unit := if b then mret tt else throw e.

(** [p.conn.Write(b)] *)
Definition conn_write (b : bytes) : M unit := λ p,
  match writes p with
  | O => (Err WriteError, p)
  | S w => (Ok tt, with_write p b w)
  end.

(** [io.ReadFull(p.conn, buf)] with [len(buf) = n] *)
Definition conn_read (n : nat) : M bytes := λ p,
  match ReadFull n (rx p) with
  | Some (b, r) => (Ok b, with_rx p r)
  | None => (Err (ReadError ReadPayload), p)
  end.

(** The package-level [ReadMessage(p.conn)] and [WriteMessage(p.conn, m)] *)
Definition conn_read_message : M (option Message) := λ p,
  match Wire.ReadMessage (rx p) with
  | Ok (m, r) => (Ok m, with_rx p r)
  | Err e => (Err (ReadError e), p)
  | Panic => (Panic, p)
  | NoFuel => (NoFuel, p)
  end.
Definition conn_write_message (m : option Message) : M unit :=
  b ← lift (map_err (λ _, WriteError) (Wire.WriteMessage m)); conn_write b.

(** [ctx.Err() != nil] *)
Definition ctx_err : M bool := λ p,
  match ctx p with
  | O => (Ok true, p)
  | S c => (Ok false, with_ctx p c)
  end.

(** ** Messages on an established connection *)

Definition ReadMessage : M (option Message) :=
  s ← gets state;
  if state_rank s <? state_rank stateHandshook then throw BadState else
  λ p, match conn_read_message p with
       | (Err e, p') => (c ← ctx_err; if c : bool then throw Cancelled else throw e) p'
       | r => r
       end.

Definition WriteMessage (m : option Message) : M unit :=
  s ← gets state;
  if state_rank s <? state_rank stateHandshook then throw BadState else conn_write_message m.

(** ** Peer exchange *)

Definition connectableAddr (addr : bytes) : bool :=
  match SplitHostPort addr with
  | None => false
  | Some (host, port) =>
      if bool_decide (port = str "0") then false else
      match ParseIP host with
      | None => false
      | Some ip => negb (IsUnspecified ip)
      end
  end.

Section codec.
Context {B : Bencoder}.

Definition parsePexPeers (dict : bytes) : result perr (list bytes) :=
  _ ← map_err ExtInvalid (Validate dict PeerMessageLimits);
  '(added, added6) ← of_option ExtDecode (decode_pex dict);
  v4 ← (if (0 <? length added)%nat then map_err (λ _, ExtDecode) (unpackPeers added 4) else Ok []);
  v6 ← (if (0 <? length added6)%nat then map_err (λ _, ExtDecode) (unpackPeers added6 16) else Ok []);
  Ok (filter (λ a, connectableAddr a = true) (v4 ++ v6)).

Definition handlePexMessage (body : bytes) : M unit :=
  match parsePexPeers body with
  | Ok peers => modify (λ p, with_pex p (pexPeers p ++ peers))
  | Err _ => mret tt
  | Panic => lift Panic
  | NoFuel => lift NoFuel
  end.

Definition DrainPexPeers : M (list bytes) :=
  out ← gets pexPeers; _ ← modify (λ p, with_pex p []); mret out.

(** ** The extended handshake *)

Definition ExtMetadata := str "ut_metadata".
Definition ExtPex := str "ut_pex".
Definition localMetadataID : Z := 1.
Definition localPexID : Z := 2.

Definition ext_handshake_dict : tree :=
  BDict [(str "m", BDict [(ExtMetadata, BInt localMetadataID); (ExtPex, BInt localPexID)])].

Definition sendExtendedHandshake : M unit :=
  payloadBytes ← lift (of_option EncodeError (EncodeBytes ext_handshake_dict));
  conn_write_message (Some (mkMsg MsgExtended (zbyte 0 :: payloadBytes))).

Definition maxPreExtHandshakeMsgs : nat := 16.

Fixpoint readExtendedHandshake_loop (n : nat) : M unit :=
  match n with
  | O => throw NoExtHandshake
  | S n' =>
      m ← conn_read_message;
      match m with
      | None => readExtendedHandshake_loop n'
      | Some m =>
          if bool_decide (ID m = MsgExtended) then
            if (length (Payload m) <? 2)%nat then throw ExtTooShort else
            if bool_decide (nth 0 (Payload m) Byte.x00 ≠ zbyte 0) then throw NotExtHandshake else
            let body := drop 1 (Payload m) in
            _ ← lift (map_err ExtInvalid (Validate body PeerMessageLimits));
            '(exts, size) ← lift (of_option ExtDecode (decode_ext body));
            modify (λ p, with_ext p exts size)
          else if bool_decide (ID m = MsgChoke) then
            _ ← modify (λ p, with_choking p true); readExtendedHandshake_loop n'
          else if bool_decide (ID m = MsgUnchoke) then
            _ ← modify (λ p, with_choking p false); readExtendedHandshake_loop n'
          else readExtendedHandshake_loop n'
      end
  end.

Definition readExtendedHandshake : M unit := readExtendedHandshake_loop maxPreExtHandshakeMsgs.

(** ** The handshake *)

Definition protoMagic := str "BitTorrent protocol".
Definition pstrLen : nat := 19.
Definition handshakeLen : nat := 1 + pstrLen + 8 + 20 + 20.

Definition reserved_bytes : bytes := <[5%nat := zbyte 16]> (zeros 8).

(** The 68 bytes, filled front to back; [curr] advances by what each copy moved. *)
Definition handshake_buf (infoHash peerID : bytes) : bytes :=
  let buf := zeros handshakeLen in
  let buf := copy_at 0 buf [zbyte (Z.of_nat pstrLen)] in
  let buf := copy_at 1 buf protoMagic in
  let buf := copy_at (1 + pstrLen) buf reserved_bytes in
  let buf := copy_at (1 + pstrLen + 8) buf infoHash in
  copy_at (1 + pstrLen + 8 + 20) buf peerID.

Definition Handshake (infoHash peerID : bytes) : M unit :=
  s ← gets state;
  _ ← guard (bool_decide (s = stateInit)) BadState;
  _ ← guard (length infoHash =? 20)%nat BadInfoHashLength;
  _ ← guard (length peerID =? 20)%nat BadPeerIDLength;
  _ ← conn_write (handshake_buf infoHash peerID);
  resBuf ← conn_read handshakeLen;
  _ ← guard (bool_decide (bval (nth 0 resBuf Byte.x00) = Z.of_nat pstrLen)) BadPstrlen;
  _ ← guard (bool_decide (slice resBuf 1 (1 + pstrLen) = protoMagic)) BadMagic;
  _ ← guard (bool_decide (slice resBuf (1 + pstrLen + 8) (1 + pstrLen + 8 + 20) = infoHash)) InfoHashMismatch;
  _ ← modify (λ p, with_state p stateHandshook);
  let peerReserved := slice resBuf (1 + pstrLen) (1 + pstrLen + 8) in
  let supportsBEP10 := negb (Z.land (bval (nth 5 peerReserved Byte.x00)) 16 =? 0) in
  if supportsBEP10 then
    _ ← sendExtendedHandshake;
    _ ← readExtendedHandshake;
    modify (λ p, with_state p stateExtended)
  else mret tt.

(** ** Metadata requests *)

Definition RequestMetadata (piece : Z) : M unit :=
  s ← gets state;
  _ ← guard (negb (state_rank s <? state_rank stateExtended)) BadState;
  exts ← gets PeerExtensions;
  extID ← lift (of_option NoMetadataExt (exts !! ExtMetadata));
  payloadBytes ← lift (of_option EncodeError
    (EncodeBytes (BDict [(str "msg_type", BInt 0); (str "piece", BInt piece)])));
  WriteMessage (Some (mkMsg MsgExtended (zbyte extID :: payloadBytes))).

End codec.

(** ** Reasoning about runs *)

(** What a run does to the connection, as a relation that composes. *)
Definition preserves {A} (R : PeerConn → PeerConn → Prop) (m : M A) : Prop := ∀ p, R p (snd (m p)).
(** A run gives a value or an error: it neither panics nor is cut short by the model. *)
Definition terminates {A} (m : M A) : Prop := ∀ p, returns (fst (m p)).

Lemma run_bind {A C} (m : M A) (f : A → M C) p : (m ≫= f) p =
  match m p with (Ok a, p') => f a p' | (Err e, p') => (Err e, p') | (Panic, p') => (Panic, p') | (NoFuel, p') => (NoFuel, p') end.
Proof. unfold mbind, M_bind. by destruct (m p) as [[] ?]. Qed.

Lemma run_ret {A} (a : A) p : (mret a : M A) p = (Ok a, p).
Proof. reflexivity. Qed.

Section preserves.
Context (R : PeerConn → PeerConn → Prop) `{!PreOrder R}.

Lemma preserves_bind {A C} (m : M A) (f : A → M C) : preserves R m → (∀ a, preserves R (f a)) → preserves R (m ≫= f).
Proof.
  intros Hm Hf p. rewrite run_bind. specialize (Hm p). destruct (m p) as [[a|e| |] p']; cbn [snd] in *; try done.
  etrans; [exact Hm|apply Hf].
Qed.
Lemma preserves_ret {A} (a : A) : preserves R (mret a).
Proof. intros p. reflexivity. Qed.
Lemma preserves_throw {A} e : preserves R (@throw A e).
Proof. intros p. reflexivity. Qed.
Lemma preserves_gets {A} (f : PeerConn → A) : preserves R (gets f).
Proof. intros p. reflexivity. Qed.
Lemma preserves_lift {A} (r : result perr A) : preserves R (lift r).
Proof. intros p. reflexivity. Qed.
Lemma preserves_guard b e : preserves R (guard b e).
Proof. destruct b; [apply preserves_ret|apply preserves_throw]. Qed.
Lemma preserves_modify f : (∀ p, R p (f p)) → preserves R (modify f).
Proof. intros H p. apply H. Qed.
Lemma preserves_if {A} (b : bool) (m k : M A) : preserves R m → preserves R k → preserves R (if b then m else k).
Proof. by destruct b. Qed.
End preserves.

Lemma terminates_bind {A C} (m : M A) (f : A → M C) : terminates m → (∀ a, terminates (f a)) → terminates (m ≫= f).
Proof.
  intros Hm Hf p. rewrite run_bind. specialize (Hm p). destruct (m p) as [[a|e| |] p']; cbn [fst] in *; try done. apply Hf.
Qed.

Create HintDb peer.
#[export] Hint Resolve preserves_ret preserves_throw preserves_gets preserves_lift preserves_guard : peer.

(** The relations of interest. *)
Definition same_rx (p p' : PeerConn) : Prop := rx p' = rx p.
Definition shrinks_rx (p p' : PeerConn) : Prop := (length (rx p') ≤ length (rx p))%nat.
Definition same_state (p p' : PeerConn) : Prop := state p' = state p.
Definition grows_tx (p p' : PeerConn) : Prop := ∃ b, tx p' = tx p ++ b.

#[export] Instance same_rx_pre : PreOrder same_rx.
Proof. split; red; unfold same_rx; congruence. Qed.
#[export] Instance same_state_pre : PreOrder same_state.
Proof. split; red; unfold same_state; congruence. Qed.
#[export] Instance grows_tx_pre : PreOrder grows_tx.
Proof.
  split; red.
  - intros p. exists []. by rewrite app_nil_r.
  - intros p q r [b1 H1] [b2 H2]. exists (b1 ++ b2). by rewrite H2, H1, app_assoc.
Qed.

(** Case analysis on one step of a monadic run in a hypothesis. *)
Ltac run_step H :=
  rewrite run_bind in H;
  match type of H with
  | context [match ?m with (_, _) => _ end] => destruct m as [[] ?] eqn:?; try discriminate H
  end.

(** Decompose a program into its primitive calls. *)
Ltac preserve :=
  repeat first
    [ progress intros
    | apply preserves_bind; [typeclasses eauto| |]
    | apply preserves_if
    | solve [eauto with peer typeclass_instances]
    | apply preserves_modify; intros; reflexivity
    | case_match ].

Lemma conn_write_rx b : preserves same_rx (conn_write b).
Proof. intros p. unfold conn_write. by destruct (writes p). Qed.
Lemma conn_write_state b : preserves same_state (conn_write b).
Proof. intros p. unfold conn_write. by destruct (writes p). Qed.
Lemma conn_read_state n : preserves same_state (conn_read n).
Proof. intros p. unfold conn_read. by destruct (ReadFull n (rx p)) as [[]|]. Qed.
Lemma conn_read_message_state : preserves same_state conn_read_message.
Proof. intros p. unfold conn_read_message. by destruct (Wire.ReadMessage (rx p)) as [[]| | |]. Qed.
Lemma ctx_err_rx : preserves same_rx ctx_err.
Proof. intros p. unfold ctx_err. by destruct (ctx p). Qed.
Lemma ctx_err_state : preserves same_state ctx_err.
Proof. intros p. unfold ctx_err. by destruct (ctx p). Qed.
#[export] Hint Resolve conn_write_rx conn_write_state conn_read_state conn_read_message_state ctx_err_rx ctx_err_state : peer.

Lemma conn_write_message_rx m : preserves same_rx (conn_write_message m).
Proof. unfold conn_write_message. preserve. Qed.
Lemma conn_write_message_state m : preserves same_state (conn_write_message m).
Proof. unfold conn_write_message. preserve. Qed.
#[export] Hint Resolve conn_write_message_rx conn_write_message_state : peer.

Lemma WriteMessage_rx m : preserves same_rx (WriteMessage m).
Proof. unfold WriteMessage. preserve. Qed.
Lemma WriteMessage_state m : preserves same_state (WriteMessage m).
Proof. unfold WriteMessage. preserve. Qed.
Lemma ReadMessage_state : preserves same_state ReadMessage.
Proof.
  unfold ReadMessage. preserve. intros p. pose proof (conn_read_message_state p) as Hs.
  destruct (conn_read_message p) as [[] p']; try done. cbn [snd] in *.
  etrans; [exact Hs|]. generalize p'. change (preserves same_state (c ← ctx_err; if c : bool then @throw (option Message) Cancelled else throw e)).
  preserve.
Qed.
#[export] Hint Resolve WriteMessage_rx WriteMessage_state ReadMessage_state : peer.

(** What a successful read does. *)
Lemma ReadMessage_ok p m p' : ReadMessage p = (Ok m, p') →
  rx p = frame m ++ rx p' ∧ readable m ∧ p' = with_rx p (rx p') ∧ state p ≠ stateInit.
Proof.
  unfold ReadMessage. rewrite run_bind. cbn [gets]. intros H.
  destruct (state_rank (state p) <? state_rank stateHandshook) eqn:Es; [done|].
  unfold conn_read_message in H. destruct (Wire.ReadMessage (rx p)) as [[m' r]|e| |] eqn:E; try done.
  - injection H as -> <-. apply read_frame_inv in E as [-> Hm]. split_and!; try done.
    intros Hs. by rewrite Hs in Es.
  - rewrite run_bind in H. unfold ctx_err in H. destruct (ctx p); done.
Qed.

Lemma ReadMessage_run p m rest : state p ≠ stateInit → readable m → rx p = frame m ++ rest →
  ReadMessage p = (Ok m, with_rx p rest).
Proof.
  intros Hs Hm E. unfold ReadMessage. rewrite run_bind. cbn [gets].
  assert (Er : (state_rank (state p) <? state_rank stateHandshook) = false) by (by destruct (state p)).
  rewrite Er. unfold conn_read_message. by rewrite E, read_frame.
Qed.

Lemma ReadMessage_terminates : terminates ReadMessage.
Proof.
  intros p. unfold ReadMessage. rewrite run_bind. cbn [gets]. case_match; [done|].
  unfold conn_read_message. pose proof (read_returns (rx p)) as Hr.
  destruct (Wire.ReadMessage (rx p)) as [[m r]|e| |]; try done.
  rewrite run_bind. unfold ctx_err. by destruct (ctx p).
Qed.

Lemma frame_pos m : (4 ≤ length (frame m))%nat.
Proof. destruct m as [m|]; simpl; lia. Qed.

(** Writing a message the program builds. *)
Lemma WriteMessage_run p m w : state p ≠ stateInit → readable m → writes p = S w →
  WriteMessage m p = (Ok tt, with_write p (frame m) w).
Proof.
  intros Hs Hm Hw. unfold WriteMessage. rewrite run_bind. cbn [gets].
  assert (Er : (state_rank (state p) <? state_rank stateHandshook) = false) by (by destruct (state p)).
  rewrite Er. unfold conn_write_message. rewrite write_frame by done. cbn [map_err].
  rewrite run_bind. cbn [lift]. unfold conn_write. by rewrite Hw.
Qed.

(** In the initial state neither side of the connection is touched. *)
Lemma ReadMessage_init p : state p = stateInit → ReadMessage p = (Err BadState, p).
Proof. intros H. unfold ReadMessage. rewrite run_bind. cbn [gets]. by rewrite H. Qed.
Lemma WriteMessage_init m p : state p = stateInit → WriteMessage m p = (Err BadState, p).
Proof. intros H. unfold WriteMessage. rewrite run_bind. cbn [gets]. by rewrite H. Qed.

Lemma conn_write_terminates b : terminates (conn_write b).
Proof. intros p. unfold conn_write. by destruct (writes p). Qed.
Lemma WriteMessage_terminates m : readable m → terminates (WriteMessage m).
Proof.
  intros Hm p. unfold WriteMessage. rewrite run_bind. cbn [gets]. case_match; [done|].
  unfold conn_write_message. rewrite write_frame by done. cbn [map_err]. rewrite run_bind. cbn [lift].
  apply conn_write_terminates.
Qed.
Lemma ctx_err_terminates : terminates ctx_err.
Proof. intros p. unfold ctx_err. by destruct (ctx p). Qed.

Section pex.
Context {B : Bencoder}.

Lemma parsePexPeers_returns d : returns (parsePexPeers d).
Proof.
  unfold parsePexPeers. pose proof (validate_returns d PeerMessageLimits) as Hv.
  destruct (Validate d PeerMessageLimits) as [[]|e| |]; try done. cbn [map_err]. simpl_res.
  destruct (decode_pex d) as [[a a6]|]; [|done]. simpl_res.
  pose proof (unpackPeers_returns a 4) as H4. pose proof (unpackPeers_returns a6 16) as H6.
  destruct (0 <? length a)%nat; [destruct (unpackPeers a 4); try done|]; simpl_res;
    (destruct (0 <? length a6)%nat; [destruct (unpackPeers a6 16); try done|]; done).
Qed.

Lemma handlePexMessage_run body p : ∃ l, handlePexMessage body p = (Ok tt, with_pex p l).
Proof.
  unfold handlePexMessage. pose proof (parsePexPeers_returns body).
  destruct (parsePexPeers body) as [l|e| |]; try done; [by eexists|]. exists (pexPeers p). by destruct p.
Qed.

Lemma handlePexMessage_rx body : preserves same_rx (handlePexMessage body).
Proof. intros p. by destruct (handlePexMessage_run body p) as [l ->]. Qed.
Lemma handlePexMessage_state body : preserves same_state (handlePexMessage body).
Proof. intros p. by destruct (handlePexMessage_run body p) as [l ->]. Qed.
Lemma handlePexMessage_terminates body : terminates (handlePexMessage body).
Proof. intros p. by destruct (handlePexMessage_run body p) as [l ->]. Qed.
End pex.
#[export] Hint Resolve handlePexMessage_rx handlePexMessage_state : peer.
