(* ===== verification/Metadata.v ===== *)
(** * Package [client]: fetching the info dictionary from a peer

    Models [FetchMetadata] and [readMetadataReply] of [internal/client/metadata.go] in the monad of
    [Peer], on top of the scan of [BencodeEnd]. *)

From S2P Require Import Prelude Strconv Hex Sha GoStrings NetAddr Bencode BencodeEnd Recognize Url Codec ClientTracker Wire Peer.
From Stdlib Require Import ZArith Lia.
Local Open Scope Z_scope.

Definition maxMetadataSize : Z := Z.shiftl 16 20.
Definition metadataPieceSize : Z := 16384.
Definition maxMetadataSkipMsgs : nat := 64.

(** A result that cannot be an error, in the errors of the monad. *)
Definition no_error {A} (r : result Empty_set A) : result perr A := map_err (λ e : Empty_set, match e with end) r.

Section codec.
Context {B : Bencoder}.

Fixpoint readMetadataReply_loop (n : nat) : M Message :=
  match n with
  | O => throw NoMetadataReply
  | S n' =>
      msg ← Peer.ReadMessage;
      match msg with
      | None => readMetadataReply_loop n'
      | Some m =>
          if bool_decide (ID m ≠ MsgExtended) || (length (Payload m) <? 1)%nat then readMetadataReply_loop n' else
          let id := bval (nth 0 (Payload m) Byte.x00) in
          if id =? localMetadataID then mret m
          else if id =? localPexID then _ ← handlePexMessage (drop 1 (Payload m)); readMetadataReply_loop n'
          else readMetadataReply_loop n'
      end
  end.

Definition readMetadataReply : M Message := readMetadataReply_loop maxMetadataSkipMsgs.

(** The checks on one reply: the raw data of piece [i]. *)
Definition metadata_piece (size i : Z) (payload : bytes) : result perr bytes :=
  if (length payload <? 2)%nat then Err MetadataTooShort else
  let body := drop 1 payload in
  dictEnd ← no_error (findBencodeEnd body);
  if dictEnd <? 0 then Err NoHeaderEnd else
  let headerBytes := slice payload 1 (1 + Z.to_nat dictEnd) in
  _ ← map_err HeaderInvalid (Validate headerBytes PeerMessageLimits);
  header ← of_option HeaderDecode (decode_header headerBytes);
  if MsgType header =? 2 then Err Rejected else
  if negb (MsgType header =? 1) then Err BadMsgType else
  if negb (Piece header =? i) then Err PieceMismatch else
  let pieceData := drop (1 + Z.to_nat dictEnd) payload in
  let wantLen := size - i * metadataPieceSize in
  let wantLen := if metadataPieceSize <? wantLen then metadataPieceSize else wantLen in
  if negb (zlen pieceData =? wantLen) then Err BadPieceLength else Ok pieceData.

(** [for i := 0; i < numPieces; i++]: [n] rounds are left. *)
Fixpoint fetch_loop (n : nat) (size i : Z) (metadata : bytes) : M bytes :=
  match n with
  | O => mret metadata
  | S n' =>
      c ← ctx_err;
      if c : bool then throw Cancelled else
      _ ← RequestMetadata i;
      msg ← readMetadataReply;
      pieceData ← lift (metadata_piece size i (Payload msg));
      fetch_loop n' size (i + 1) (copy_at (Z.to_nat (i * metadataPieceSize)) metadata pieceData)
  end.

Definition FetchMetadata (infoHash : bytes) : M bytes :=
  size ← gets MetadataSize;
  if size <=? 0 then throw NoMetadataSize else
  if maxMetadataSize <? size then throw MetadataTooBig else
  let numPieces := Z.quot (size + metadataPieceSize - 1) metadataPieceSize in
  metadata ← fetch_loop (Z.to_nat numPieces) size 0 (zeros (Z.to_nat size));
  if bool_decide (sha1 metadata ≠ infoHash) then throw HashMismatch else mret metadata.

End codec.

(** ** Lemmas: what a success means *)

Section lemmas.
Context {B : Bencoder}.
Implicit Types (p : PeerConn).

Lemma readMetadataReply_terminates : terminates readMetadataReply.
Proof.
  unfold readMetadataReply. generalize maxMetadataSkipMsgs as n. induction n as [|n IH]; [by intros p|].
  cbn [readMetadataReply_loop]. apply terminates_bind; [apply ReadMessage_terminates|]. intros [m|]; [|done].
  case_match; [done|]. case_match; [by intros p|]. case_match; [|done].
  apply terminates_bind; [apply handlePexMessage_terminates|by intros _].
Qed.

Lemma metadata_piece_ok size i payload data :
  metadata_piece size i payload = Ok data → zlen data = Z.min metadataPieceSize (size - i * metadataPieceSize).
Proof.
  unfold metadata_piece. intros H. destruct (length payload <? 2)%nat; [done|].
  destruct (no_error _) as [e| | |]; try done; simpl_res.
  destruct (e <? 0); [done|]. destruct (map_err HeaderInvalid _) as [[]| | |]; try done; simpl_res.
  destruct (of_option HeaderDecode _) as [h| | |]; try done; simpl_res.
  destruct (MsgType h =? 2); [done|]. destruct (negb (MsgType h =? 1)); [done|].
  destruct (negb (Piece h =? i)); [done|]. destruct (negb (zlen _ =? _)) eqn:E; [done|]. injection H as <-.
  apply negb_false_iff, Z.eqb_eq in E. etrans; [exact E|]. destruct (Z.ltb_spec metadataPieceSize (size - i * metadataPieceSize)); lia.
Qed.

Lemma metadata_piece_no_fuel size i payload : zlen payload < 2 ^ 62 → metadata_piece size i payload ≠ NoFuel.
Proof.
  intros Hp. unfold metadata_piece. destruct (length payload <? 2)%nat; [done|].
  assert (Hd : zlen (drop 1 payload) < 2 ^ 62) by (unfold zlen in *; rewrite length_drop; lia).
  pose proof (findBencodeEnd_bounds _ Hd) as Hb. destruct (findBencodeEnd _) as [e|[]| |]; try done.
  unfold no_error. cbn [map_err]. simpl_res. destruct (e <? 0); [done|].
  pose proof (validate_returns (slice payload 1 (1 + Z.to_nat e)) PeerMessageLimits) as Hv.
  destruct (Validate _ _) as [[]| | |]; try done. cbn [map_err]. simpl_res.
  destruct (decode_header _) as [h|]; [|done]. cbn [of_option]. simpl_res. by repeat case_match.
Qed.

Lemma fetch_loop_ok size n : ∀ i md p md' p', fetch_loop n size i md p = (Ok md', p') → length md' = length md.
Proof.
  induction n as [|n IH]; intros i md p md' p' H; cbn [fetch_loop] in H.
  - by injection H as <- _.
  - run_step H. case_match; [done|]. run_step H. run_step H. rewrite run_bind in H. cbn [lift] in H.
    match type of H with context [metadata_piece ?a ?b ?c] => destruct (metadata_piece a b c) as [data| | |] end; try done.
    apply IH in H. by rewrite length_copy_at in H.
Qed.

Lemma FetchMetadata_ok infoHash p md p' : FetchMetadata infoHash p = (Ok md, p') →
  sha1 md = infoHash ∧ zlen md = MetadataSize p ∧ 0 < MetadataSize p ≤ maxMetadataSize.
Proof.
  unfold FetchMetadata. rewrite run_bind. cbn [gets]. intros H.
  destruct (Z.leb_spec (MetadataSize p) 0); [done|]. destruct (Z.ltb_spec maxMetadataSize (MetadataSize p)); [done|].
  run_step H. case_bool_decide as Eh; [done|]. injection H as <- <-.
  match goal with E : fetch_loop _ _ _ _ _ = _ |- _ => apply fetch_loop_ok in E as L end.
  rewrite length_zeros in L. split; [done|]. split; [unfold zlen; lia|lia].
Qed.
End lemmas.

(** ** Lemmas: what a success has sent *)

(** What reading leaves alone. *)
Definition reads_only (p p' : PeerConn) : Prop := tx p' = tx p ∧ state p' = state p ∧ PeerExtensions p' = PeerExtensions p.
#[export] Instance reads_only_preorder : PreOrder reads_only.
Proof. split; [by intros p|]. intros p q r (? & ? & ?) (? & ? & ?). unfold reads_only. split_and!; congruence. Qed.

Definition meta_request (extID i : Z) : Message :=
  mkMsg MsgExtended (zbyte extID :: encode (BDict [(str "msg_type", BInt 0); (str "piece", BInt i)])).
(** The requests of pieces [i] on. *)
Definition meta_requests (extID i : Z) (n : nat) : bytes := flat_map (λ j, frame (Some (meta_request extID (i + Z.of_nat j)))) (seq 0 n).

Lemma meta_requests_S e i n : meta_requests e i (S n) = frame (Some (meta_request e i)) ++ meta_requests e (i + 1) n.
Proof.
  unfold meta_requests. cbn [seq flat_map]. rewrite Z.add_0_r. f_equal. rewrite <- seq_shift, !flat_map_concat_map, map_map.
  f_equal. apply map_ext. intros j. do 3 f_equal. lia.
Qed.

Lemma meta_request_readable e i : 0 ≤ i < 2 ^ 63 → readable (Some (meta_request e i)).
Proof.
  intros Hi. unfold readable, meta_request. cbn [Payload encode flat_map fst snd].
  rewrite !zlen_cons, !zlen_app, !zlen_cons, !zlen_app, !itoa_nonneg, maxPayload_val by lia.
  pose proof (length_dec i Hi). change (zlen (dec 0)) with 1. change (zlen [chr "e"]) with 1. change (zlen (@nil byte)) with 0.
  change (zlen (enc_str (str "msg_type"))) with 10. change (zlen (enc_str (str "piece"))) with 7. lia.
Qed.

Section sent.
Context {B : Bencoder}.

Lemma reply_loop_reads n : ∀ p m p', readMetadataReply_loop n p = (Ok m, p') → reads_only p p'.
Proof.
  induction n as [|n IH]; intros p m p' H; cbn [readMetadataReply_loop] in H; [done|]. run_step H.
  match goal with E : Peer.ReadMessage _ = _ |- _ => apply ReadMessage_ok in E as (_ & _ & E & _) end.
  match goal with E : ?q = with_rx ?p _ |- _ => assert (R : reads_only p q) by (by rewrite E) end.
  etrans; [exact R|]. case_match; [|by eapply IH]. case_match; [by eapply IH|]. case_match; [by injection H as _ <-|]. case_match; [|by eapply IH].
  match type of H with context [handlePexMessage ?b] => rewrite run_bind in H; match type of H with context [handlePexMessage b ?q] =>
    destruct (handlePexMessage_run b q) as [l El]; rewrite El in H end end.
  eapply IH in H. exact H.
Qed.

Lemma readMetadataReply_reads p m p' : readMetadataReply p = (Ok m, p') → reads_only p p'.
Proof. unfold readMetadataReply. generalize maxMetadataSkipMsgs. intros n. apply reply_loop_reads. Qed.

Lemma RequestMetadata_sent `{!BencoderLaws B} i p p' : 0 ≤ i < 2 ^ 63 → RequestMetadata i p = (Ok tt, p') →
  state p = stateExtended ∧ ∃ e, PeerExtensions p !! ExtMetadata = Some e
  ∧ tx p' = tx p ++ frame (Some (meta_request e i)) ∧ state p' = state p ∧ PeerExtensions p' = PeerExtensions p.
Proof.
  intros Hi H. unfold RequestMetadata in H. rewrite run_bind in H. cbn [gets] in H. destruct (state_rank (state p) <? state_rank stateExtended) eqn:Es; [done|].
  assert (Hs : state p = stateExtended) by (by destruct (state p)). split; [done|]. cbn [negb guard] in H. rewrite run_bind, run_ret, run_bind in H. cbn [gets] in H.
  rewrite run_bind in H. destruct (PeerExtensions p !! ExtMetadata) as [e|] eqn:Ee; [|done]. cbn [of_option lift] in H.
  rewrite run_bind, EncodeBytes_ok in H. cbn [of_option lift] in H. exists e. split; [done|].
  destruct (writes p) as [|w] eqn:Ew.
  - exfalso. unfold WriteMessage in H. rewrite run_bind in H. cbn [gets] in H. rewrite Hs in H. cbn [state_rank Z.ltb Z.compare Pos.compare Pos.compare_cont] in H.
    unfold conn_write_message in H. rewrite run_bind in H.
    destruct (lift _ p) as [[b| | |] q] eqn:El; try done. assert (q = p) as -> by (unfold lift in El; congruence). unfold conn_write in H. by rewrite Ew in H.
  - change (Some (mkMsg MsgExtended (zbyte e :: encode _))) with (Some (meta_request e i)) in H.
    rewrite (WriteMessage_run p (Some (meta_request e i)) w) in H by first [done|by rewrite Hs|by apply meta_request_readable]. by injection H as <-.
Qed.

Lemma fetch_loop_sent `{!BencoderLaws B} size n : ∀ i md p md' p', 0 ≤ i → i + Z.of_nat n < 2 ^ 63 → (0 < n)%nat → fetch_loop n size i md p = (Ok md', p') →
  state p = stateExtended ∧ ∃ e, PeerExtensions p !! ExtMetadata = Some e ∧ tx p' = tx p ++ meta_requests e i n.
Proof.
  induction n as [|n IH]; intros i md p md' p' Hi Hb Hn H; [lia|]. cbn [fetch_loop] in H. run_step H.
  match goal with E : ctx_err p = (_, ?q) |- _ => assert (Rc : reads_only p q) by (unfold ctx_err in E; destruct (ctx p); by injection E as _ <-) end.
  case_match; [done|]. run_step H. match goal with u : () |- _ => destruct u end.
  match goal with E : RequestMetadata i ?q = _ |- _ => apply RequestMetadata_sent in E as (Hs & e & He & T & S & X); [|lia] end.
  run_step H. match goal with E : readMetadataReply _ = _ |- _ => apply readMetadataReply_reads in E as (R1 & R2 & R3) end.
  rewrite run_bind in H. cbn [lift] in H.
  match type of H with context [metadata_piece ?a ?b ?c] => destruct (metadata_piece a b c) as [data| | |] end; try done.
  destruct Rc as (C1 & C2 & C3). split; [congruence|]. exists e. split; [congruence|]. rewrite meta_requests_S.
  destruct n as [|n]; [injection H as _ <-; change (meta_requests e (i + 1) 0) with (@nil byte); rewrite app_nil_r, R1, T, C1; done|].
  apply IH in H as (_ & e' & He' & T'); [|lia..]. assert (e' = e) as -> by congruence. rewrite T', R1, T, C1. by rewrite app_assoc.
Qed.
End sent.

(** ** Lemmas: a peer that serves the metadata *)

(** A message that is not a ut_metadata reply. *)
Definition other_message (m : option Message) : Prop :=
  readable m ∧ ∀ x, m = Some x → ID x = MsgExtended → nth 0 (Payload x) Byte.x00 ≠ zbyte localMetadataID.

(** The header and the data of piece [i]. *)
Definition meta_header (i n : Z) : tree :=
  BDict [(str "msg_type", BInt 1); (str "piece", BInt i); (str "total_size", BInt n)].
Definition meta_chunk (md : bytes) (i : Z) : bytes :=
  take (Z.to_nat metadataPieceSize) (drop (Z.to_nat (i * metadataPieceSize)) md).
Definition meta_reply (md : bytes) (i : Z) : Message :=
  mkMsg MsgExtended (zbyte localMetadataID :: encode (meta_header i (zlen md)) ++ meta_chunk md i).

(** Replies to the requests from [i] on, each after other messages. *)
Fixpoint serve_metadata (md : bytes) (i : Z) (noise : list (list (option Message))) : list (option Message) :=
  match noise with
  | [] => []
  | ns :: more => ns ++ Some (meta_reply md i) :: serve_metadata md (i + 1) more
  end.

Section honest.
Context {B : Bencoder} {HB : BencoderLaws B}.

Lemma header_size i n : 0 ≤ i < 2 ^ 63 → 0 ≤ n < 2 ^ 63 → zlen (encode (meta_header i n)) ≤ 1000.
Proof.
  intros Hi Hn. unfold meta_header. cbn [encode flat_map fst snd].
  rewrite !zlen_cons, !zlen_app, !zlen_cons, !zlen_app, !itoa_nonneg by lia.
  pose proof (length_dec i Hi). pose proof (length_dec n Hn).
  change (zlen (dec 1)) with 1. change (zlen [chr "e"]) with 1. change (zlen (@nil byte)) with 0.
  change (zlen (enc_str (str "msg_type"))) with 10. change (zlen (enc_str (str "piece"))) with 7.
  change (zlen (enc_str (str "total_size"))) with 13. lia.
Qed.

Lemma header_valid i n : 0 ≤ i < 2 ^ 63 → 0 ≤ n < 2 ^ 63 → Validate (encode (meta_header i n)) PeerMessageLimits = Ok tt.
Proof.
  intros Hi Hn. apply validate_accepts. split.
  - pose proof (header_size i n Hi Hn). unfold within. apply orb_true_iff. right. apply Z.leb_le.
    change (MaxBytes PeerMessageLimits) with 1048576. lia.
  - exists (meta_header i n). split; [done|reflexivity].
Qed.

Lemma metadata_piece_served md i : 0 ≤ i → zlen md < 2 ^ 40 → i * metadataPieceSize < zlen md →
  metadata_piece (zlen md) i (Payload (meta_reply md i)) = Ok (meta_chunk md i).
Proof.
  intros Hi Hn Him. unfold metadataPieceSize in Him. unfold metadata_piece, meta_reply. cbn [Payload].
  set (h := encode (meta_header i (zlen md))). set (ch := meta_chunk md i).
  assert (Lh : (0 < length h)%nat) by apply encode_pos.
  assert (Zh : zlen h ≤ 1000) by (apply header_size; lia).
  assert (Lc : zlen ch = Z.min metadataPieceSize (zlen md - i * metadataPieceSize)).
  { unfold ch, meta_chunk, zlen, metadataPieceSize in *. rewrite length_take, length_drop. lia. }
  cbn [length]. rewrite length_app. rewrite (proj2 (Nat.ltb_ge _ _)) by lia. cbn [drop]. rewrite drop_0.
  assert (Ef : findBencodeEnd (h ++ ch) = Ok (zlen h)).
  { apply findBencodeEnd_encode. fold h. rewrite zlen_app, Lc. unfold metadataPieceSize in *. lia. }
  assert (Ev : Validate h PeerMessageLimits = Ok tt) by (apply header_valid; lia).
  assert (Ed : decode_header h = Some (mkHeader 1 i (zlen md))).
  { apply decode_header_ok; [|reflexivity]. cbn [fmap list_fmap fst]. decide_now. }
  rewrite Ef. unfold no_error. cbn [map_err]. simpl_res. rewrite (proj2 (Z.ltb_ge _ _)) by apply zlen_nonneg.
  assert (Nh : Z.to_nat (zlen h) = length h) by (unfold zlen; apply Nat2Z.id). rewrite !Nh.
  assert (E1 : slice (zbyte localMetadataID :: h ++ ch) 1 (1 + length h) = h).
  { unfold slice. cbn [drop Nat.add]. rewrite drop_0. replace (S (length h) - 1)%nat with (length h) by lia. apply take_app_length. }
  assert (E2 : drop (1 + length h) (zbyte localMetadataID :: h ++ ch) = ch) by (cbn [drop Nat.add]; apply drop_app_length).
  rewrite E1, Ev. cbn [map_err]. simpl_res. rewrite Ed. cbn [of_option]. simpl_res. cbn [MsgType Piece]. rewrite Z.eqb_refl. cbn [Z.eqb negb Pos.eqb].
  rewrite E2, Lc, Z.eqb_refl. cbn [negb].
  destruct (Z.ltb_spec metadataPieceSize (zlen md - i * metadataPieceSize)); rewrite (proj2 (Z.eqb_eq _ _)) by lia; done.
Qed.

Lemma RequestMetadata_run i e p w : 0 ≤ i < 2 ^ 63 → state p = stateExtended → PeerExtensions p !! ExtMetadata = Some e →
  writes p = S w → RequestMetadata i p = (Ok tt, with_write p (frame (Some (meta_request e i))) w).
Proof.
  intros Hi Hs He Hw. unfold RequestMetadata. rewrite run_bind. cbn [gets]. rewrite Hs. cbn [state_rank Z.ltb Z.compare Pos.compare Pos.compare_cont negb guard].
  rewrite run_bind, run_ret, run_bind. cbn [gets]. rewrite run_bind, He. cbn [of_option lift].
  rewrite run_bind, EncodeBytes_ok. cbn [of_option lift].
  apply WriteMessage_run; [by rewrite Hs|by apply meta_request_readable|done].
Qed.

(** What waiting for a reply leaves alone. *)
Definition same_but_read (p p' : PeerConn) : Prop :=
  state p' = state p ∧ writes p' = writes p ∧ tx p' = tx p ∧ ctx p' = ctx p ∧ PeerExtensions p' = PeerExtensions p.

Definition to_us (body : bytes) : Message := mkMsg MsgExtended (zbyte localMetadataID :: body).

Lemma read_reply ns body : Forall other_message ns → ∀ n p rest,
  state p ≠ stateInit → (length ns < n)%nat → readable (Some (to_us body)) →
  rx p = flat_map frame ns ++ frame (Some (to_us body)) ++ rest →
  ∃ p', readMetadataReply_loop n p = (Ok (to_us body), p') ∧ rx p' = rest ∧ same_but_read p p'.
Proof.
  intros Hns. induction Hns as [|m ns [Hm Ho] Hns IH]; intros n p rest Hs Hn Hr Hrx; (destruct n as [|n]; [simpl in Hn; lia|]);
    cbn [readMetadataReply_loop]; rewrite run_bind.
  - rewrite (ReadMessage_run p (Some (to_us body)) rest) by done.
    rewrite bool_decide_false by tauto. cbn [to_us ID Payload length orb Nat.ltb Nat.leb nth].
    change (bval (zbyte localMetadataID) =? localMetadataID) with true. cbn iota. rewrite run_ret. by eexists.
  - cbn [flat_map] in Hrx. rewrite <- app_assoc in Hrx. rewrite (ReadMessage_run p m _) by done.
    set (q := with_rx p _). cbn [length] in Hn.
    assert (Hgo : ∃ p', readMetadataReply_loop n q = (Ok (to_us body), p') ∧ rx p' = rest ∧ same_but_read p p').
    { destruct (IH n q rest) as (p' & E & R & S); try done; [lia|]. by exists p'. }
    destruct m as [m|]; [|done]. destruct (_ || _) eqn:Ec; [done|].
    apply orb_false_iff in Ec as [E1 E2]. apply bool_decide_eq_false, dec_stable in E1.
    specialize (Ho m eq_refl E1). rewrite (proj2 (Z.eqb_neq _ localMetadataID)).
    2:{ intros E. apply Ho. apply bval_inj. by rewrite E. }
    destruct (_ =? localPexID); [|done]. rewrite run_bind. destruct (handlePexMessage_run (drop 1 (Payload m)) q) as [l ->].
    destruct (IH n (with_pex q l) rest) as (p' & E & R & S); try done; [lia|]. exists p'. by split_and!.
Qed.

(** The buffer while the first [i] pieces have arrived. *)
Definition fetched (md : bytes) (i : Z) : bytes :=
  take (Z.to_nat (i * metadataPieceSize)) md ++ zeros (length md - Z.to_nat (i * metadataPieceSize)).

Lemma fetched_next md i : 0 ≤ i → i * metadataPieceSize < zlen md →
  copy_at (Z.to_nat (i * metadataPieceSize)) (fetched md i) (meta_chunk md i) = fetched md (i + 1).
Proof.
  unfold metadataPieceSize, zlen. intros Hi Hlt. unfold fetched, meta_chunk, metadataPieceSize. rewrite copy_at_fill.
  - rewrite take_take_drop. rewrite length_take, length_drop. f_equal; [f_equal; lia|f_equal; lia].
  - rewrite length_take. lia.
  - rewrite length_take, length_drop. lia.
Qed.

Lemma fetch_served md e noise : Forall (λ ns, Forall other_message ns ∧ (length ns < maxMetadataSkipMsgs)%nat) noise →
  zlen md ≤ maxMetadataSize → ∀ i p c w rest,
  0 ≤ i → (i + Z.of_nat (length noise) - 1) * metadataPieceSize < zlen md →
  state p = stateExtended → PeerExtensions p !! ExtMetadata = Some e →
  ctx p = (length noise + c)%nat → writes p = (length noise + w)%nat →
  rx p = flat_map frame (serve_metadata md i noise) ++ rest →
  ∃ p', fetch_loop (length noise) (zlen md) i (fetched md i) p = (Ok (fetched md (i + Z.of_nat (length noise))), p')
    ∧ tx p' = tx p ++ flat_map (λ j, frame (Some (meta_request e (i + Z.of_nat j)))) (seq 0 (length noise)).
Proof.
  intros Hnoise Hmax. induction Hnoise as [|ns more [Hns Hlen] Hmore IH]; intros i p c w rest Hi Hlast Hs He Hc Hw Hrx.
  - cbn [length fetch_loop]. rewrite run_ret, Z.add_0_r. exists p. cbn [seq flat_map]. by rewrite app_nil_r.
  - assert (Hpos : i * metadataPieceSize < zlen md) by (cbn [length] in Hlast; unfold metadataPieceSize in *; lia).
    change maxMetadataSize with 16777216 in Hmax. unfold metadataPieceSize in Hpos.
    cbn [length fetch_loop serve_metadata] in *. rewrite run_bind. unfold ctx_err at 1. rewrite Hc. cbn [Nat.add].
    set (q := with_ctx p _). rewrite run_bind, (RequestMetadata_run i e q (length more + w)%nat) by (done || lia).
    set (q1 := with_write q _ _). rewrite run_bind. unfold readMetadataReply.
    rewrite flat_map_app, <- app_assoc in Hrx. cbn [flat_map] in Hrx. rewrite <- app_assoc in Hrx.
    assert (Hr : readable (Some (meta_reply md i))).
    { unfold readable, meta_reply. cbn [Payload]. rewrite zlen_cons, zlen_app, maxPayload_val.
      pose proof (header_size i (zlen md)). pose proof (zlen_nonneg md).
      assert (zlen (meta_chunk md i) ≤ 16384); [|lia]. unfold meta_chunk, zlen, metadataPieceSize. rewrite length_take. lia. }
    destruct (read_reply ns (encode (meta_header i (zlen md)) ++ meta_chunk md i) Hns maxMetadataSkipMsgs q1 (flat_map frame (serve_metadata md (i + 1) more) ++ rest))
      as (p' & Er & Rx & (S1 & S2 & S3 & S4 & S5)); try done.
    { cbn [state q1 with_write q with_ctx]. by rewrite Hs. }
    rewrite Er. change (to_us _) with (meta_reply md i). rewrite run_bind. rewrite metadata_piece_served by (done || unfold metadataPieceSize; lia). cbn [lift].
    rewrite fetched_next by (done || unfold metadataPieceSize; lia).
    assert (S1' : state p' = stateExtended) by (by rewrite S1).
    assert (S5' : PeerExtensions p' !! ExtMetadata = Some e) by (by rewrite S5).
    assert (S4' : ctx p' = (length more + c)%nat) by (by rewrite S4).
    assert (S2' : writes p' = (length more + w)%nat) by (by rewrite S2).
    destruct (IH (i + 1) p' c w rest) as (p2 & E2 & T2); try done; try (unfold metadataPieceSize in *; lia).
    exists p2. rewrite E2. split; [do 3 f_equal; lia|]. rewrite T2, S3. cbn [tx q1 with_write q with_ctx].
    rewrite <- app_assoc. cbn [seq flat_map]. rewrite Z.add_0_r. do 2 f_equal.
    rewrite <- seq_shift, !flat_map_concat_map, map_map. f_equal. apply map_ext. intros j. do 3 f_equal. lia.
Qed.
End honest.

(** ** Properties *)

(** [k] pieces of metadata cover [size] bytes. *)
Definition pieces_of (size : Z) (k : nat) : Prop :=
  metadataPieceSize * (Z.of_nat k - 1) < size ≤ metadataPieceSize * Z.of_nat k.

(** C26. Metadata that [FetchMetadata] returns is authentic: it hashes to the info hash and has exactly the
    size the peer advertised, which is positive and at most 16 MiB.  And (when the bencode library encodes as it
    documents) all it sent for it, on a connection past the extended handshake, is one request for each of the
    pieces that cover that size, in order, under the extension id the peer gave to ut_metadata. *)
Theorem FetchMetadata_verified `{B : Bencoder} infoHash p md p' :
  FetchMetadata infoHash p = (Ok md, p') →
  sha1 md = infoHash ∧ zlen md = MetadataSize p ∧ 0 < MetadataSize p ≤ 16 * 1024 * 1024
  ∧ (BencoderLaws B → state p = stateExtended ∧ ∃ e k, PeerExtensions p !! ExtMetadata = Some e ∧ pieces_of (MetadataSize p) k
      ∧ tx p' = tx p ++ meta_requests e 0 k).
Proof.
  intros H. pose proof (FetchMetadata_ok infoHash p md p' H) as (H1 & H2 & H3). split; [done|]. split; [done|]. split; [done|]. intros HB.
  unfold FetchMetadata in H. rewrite run_bind in H. cbn [gets] in H. change maxMetadataSize with 16777216 in H, H3.
  rewrite (proj2 (Z.leb_gt _ _)), (proj2 (Z.ltb_ge _ _)) in H by lia. set (k := Z.to_nat _) in H.
  assert (Hk : pieces_of (MetadataSize p) k).
  { unfold k, pieces_of, metadataPieceSize. rewrite Z.quot_div_nonneg by lia. pose proof (Z.div_mod (MetadataSize p + 16384 - 1) 16384 ltac:(lia)).
    pose proof (Z.mod_pos_bound (MetadataSize p + 16384 - 1) 16384 ltac:(lia)). lia. }
  run_step H. case_bool_decide; [done|]. injection H as _ <-.
  match goal with E : fetch_loop _ _ _ _ _ = _ |- _ => apply fetch_loop_sent in E as (Hs & e & He & T); [|unfold pieces_of, metadataPieceSize in Hk; lia..] end.
  split; [done|]. by exists e, k.
Qed.

(** A peer that serves the metadata is enough: if it advertised the size, supports ut_metadata and
    answers each request with the header and the piece, with fewer than 64 other messages before each
    answer, [FetchMetadata] returns the metadata, having sent one request per piece, in order, under
    the peer's own extension id. *)
Theorem FetchMetadata_served `{B : Bencoder} md e noise rest p :
  BencoderLaws B →
  Forall (λ ns, Forall other_message ns ∧ (length ns < 64)%nat) noise →
  0 < zlen md ≤ 16 * 1024 * 1024 → pieces_of (zlen md) (length noise) →
  state p = stateExtended → PeerExtensions p !! ExtMetadata = Some e → MetadataSize p = zlen md →
  (length noise ≤ ctx p)%nat → (length noise ≤ writes p)%nat →
  rx p = flat_map frame (serve_metadata md 0 noise) ++ rest →
  ∃ p', FetchMetadata (sha1 md) p = (Ok md, p')
    ∧ tx p' = tx p ++ flat_map (λ j, frame (Some (meta_request e (Z.of_nat j)))) (seq 0 (length noise)).
Proof.
  intros HB Hnoise Hmd [Hp1 Hp2] Hs He Hsz Hc Hw Hrx. unfold FetchMetadata. rewrite run_bind. cbn [gets]. rewrite Hsz.
  change maxMetadataSize with 16777216. rewrite (proj2 (Z.leb_gt _ _)), (proj2 (Z.ltb_ge _ _)) by lia.
  unfold metadataPieceSize in *. rewrite Z.quot_div_nonneg by lia.
  replace (Z.to_nat ((zlen md + 16384 - 1) / 16384)) with (length noise).
  2:{ assert (E : (zlen md + 16384 - 1) / 16384 = Z.of_nat (length noise)); [|lia].
      symmetry. apply (Z.div_unique _ _ _ (zlen md + 16384 - 1 - 16384 * Z.of_nat (length noise))); lia. }
  rewrite run_bind.
  destruct (fetch_served md e noise Hnoise ltac:(change maxMetadataSize with 16777216; lia) 0 p
    (ctx p - length noise)%nat (writes p - length noise)%nat rest) as (p' & E & T); try done; try (unfold metadataPieceSize; lia).
  replace (zeros (Z.to_nat (zlen md))) with (fetched md 0).
  2:{ unfold fetched, zlen, metadataPieceSize. rewrite Z.mul_0_l, Nat.sub_0_r, Nat2Z.id. done. }
  rewrite E. assert (Ef : fetched md (0 + Z.of_nat (length noise)) = md).
  { unfold fetched, zlen, metadataPieceSize in *. rewrite take_ge by lia.
    replace (length md - _)%nat with 0%nat by lia. apply app_nil_r. }
  rewrite Ef, bool_decide_false by tauto. by exists p'.
Qed.

(** One hostile reply crashes the client: on a connection where a request for metadata may be sent, a
    ut_metadata message whose dictionary begins by announcing a string of 2^63-1 bytes makes
    [FetchMetadata] panic, whatever follows. *)
Theorem FetchMetadata_crash `{B : Bencoder} infoHash e r rest p :
  BencoderLaws B → zlen r < 1024 * 1024 →
  state p = stateExtended → PeerExtensions p !! ExtMetadata = Some e →
  0 < MetadataSize p ≤ 16 * 1024 * 1024 → (0 < ctx p)%nat → (0 < writes p)%nat →
  rx p = frame (Some (mkMsg MsgExtended (zbyte localMetadataID :: str "d9223372036854775807:" ++ r))) ++ rest →
  fst (FetchMetadata infoHash p) = Panic.
Proof.
  intros HB Hr Hs He Hsz Hc Hw Hrx. unfold FetchMetadata. rewrite run_bind. cbn [gets].
  change maxMetadataSize with 16777216. rewrite (proj2 (Z.leb_gt _ _)), (proj2 (Z.ltb_ge _ _)) by lia.
  unfold metadataPieceSize. rewrite Z.quot_div_nonneg by lia.
  assert (Hq : 1 ≤ (MetadataSize p + 16384 - 1) / 16384) by (apply Z.div_le_lower_bound; lia).
  destruct (Z.to_nat _) as [|n] eqn:En; [lia|]. rewrite run_bind. cbn [fetch_loop]. rewrite run_bind.
  destruct (ctx p) as [|c] eqn:Ec; [lia|]. unfold ctx_err at 1. rewrite Ec. set (q := with_ctx p c).
  destruct (writes p) as [|w] eqn:Ew; [lia|].
  rewrite run_bind, (RequestMetadata_run 0 e q w) by (done || lia). set (q1 := with_write q _ _).
  set (body := str "d9223372036854775807:" ++ r) in *. rewrite run_bind.
  destruct (read_reply [] body ltac:(constructor) maxMetadataSkipMsgs q1 rest) as (p' & Er & _).
  - cbn [state q1 with_write q with_ctx]. by rewrite Hs.
  - cbn [length]. unfold maxMetadataSkipMsgs. lia.
  - unfold readable, to_us, body. cbn [Payload]. rewrite zlen_cons, zlen_app, maxPayload_val.
    change (zlen (str "d9223372036854775807:")) with 21. lia.
  - exact Hrx.
  - unfold readMetadataReply. rewrite Er, run_bind. unfold metadata_piece, to_us. cbn [Payload length drop].
    change (S (length body) <? 2)%nat with false. cbn iota. rewrite drop_0.
    unfold body. rewrite findBencodeEnd_panic by lia. done.
Qed.

(** A small info dictionary, sent after a keep-alive and a bitfield. *)
Module SampleMetadata.
Definition md : bytes := str "d6:lengthi5e4:name1:ae".
Definition noise : list (list (option Message)) := [[KeepAlive; Some (mkMsg MsgBitfield [Byte.xff])]].
Definition conn (incoming : bytes) : PeerConn :=
  mkConn incoming [] 1 1 stateExtended true false true false {[ ExtMetadata := 3 ]} (zlen md) [].
Definition served : PeerConn := conn (flat_map frame (serve_metadata md 0 noise) ++ [Byte.x00]).
Definition hostile : PeerConn :=
  conn (frame (Some (mkMsg MsgExtended (zbyte localMetadataID :: str "d9223372036854775807:" ++ str "x"))) ++ []).

Lemma noise_other : Forall (λ ns, Forall other_message ns ∧ (length ns < 64)%nat) noise.
Proof.
  apply Forall_cons. split; [|constructor]. split; [|vm_compute; lia].
  apply Forall_cons. split; [|apply Forall_cons; split; [|constructor]].
  - split; [exact I|]. intros x E. discriminate E.
  - split; [vm_compute; congruence|]. intros x E. injection E as <-. discriminate.
Qed.
End SampleMetadata.

Lemma FetchMetadata_served_witness :
  pieces_of (zlen SampleMetadata.md) 1 ∧
  ∃ p', @FetchMetadata ref_codec (sha1 SampleMetadata.md) SampleMetadata.served = (Ok SampleMetadata.md, p')
    ∧ tx p' = [] ++ flat_map (λ j, frame (Some (meta_request 3 (Z.of_nat j)))) (seq 0 1).
Proof.
  assert (Hp : pieces_of (zlen SampleMetadata.md) 1) by (split; vm_compute; congruence). split; [exact Hp|].
  apply (@FetchMetadata_served ref_codec SampleMetadata.md 3 SampleMetadata.noise [Byte.x00] SampleMetadata.served).
  - exact ref_codec_laws.
  - exact SampleMetadata.noise_other.
  - split; vm_compute; congruence.
  - exact Hp.
  - reflexivity.
  - vm_compute. reflexivity.
  - reflexivity.
  - vm_compute. lia.
  - vm_compute. lia.
  - reflexivity.
Defined.

Lemma FetchMetadata_verified_witness :
  ∃ p', @FetchMetadata ref_codec (sha1 SampleMetadata.md) SampleMetadata.served = (Ok SampleMetadata.md, p')
  ∧ zlen SampleMetadata.md = 22 ∧ ∃ e k, PeerExtensions SampleMetadata.served !! ExtMetadata = Some e ∧ pieces_of 22 k
  ∧ tx p' = tx SampleMetadata.served ++ meta_requests e 0 k.
Proof.
  exists (snd (@FetchMetadata ref_codec (sha1 SampleMetadata.md) SampleMetadata.served)).
  assert (E : @FetchMetadata ref_codec (sha1 SampleMetadata.md) SampleMetadata.served
              = (Ok SampleMetadata.md, snd (@FetchMetadata ref_codec (sha1 SampleMetadata.md) SampleMetadata.served))).
  { apply pair_of_fst. vm_compute. reflexivity. }
  split; [exact E|]. destruct (@FetchMetadata_verified ref_codec _ _ _ _ E) as (_ & H2 & _ & H). split; [exact H2|].
  exact (proj2 (H ref_codec_laws)).
Defined.

Lemma FetchMetadata_crash_witness :
  state SampleMetadata.hostile = stateExtended ∧ fst (@FetchMetadata ref_codec [] SampleMetadata.hostile) = Panic.
Proof.
  split; [reflexivity|].
  apply (@FetchMetadata_crash ref_codec [] 3 (str "x") [] SampleMetadata.hostile).
  - exact ref_codec_laws.
  - vm_compute. reflexivity.
  - reflexivity.
  - vm_compute. reflexivity.
  - split; vm_compute; congruence.
  - vm_compute. lia.
  - vm_compute. lia.
  - reflexivity.
Defined.
