(* ===== verification/Downloader.v ===== *)
(** * Package [client]: downloading one piece

    Models [dialAndHandshake], [downloadPiece] and [blockSize] of [internal/client/downloader.go] in the
    monad of [Peer].  The loop of [downloadPiece] ends when the piece is complete or an operation
    fails; every round reads one message, of at least four bytes, so a unit of fuel per incoming byte
    and one more is enough. *)

From S2P Require Import Prelude Strconv Hex Sha GoStrings NetAddr Bencode Recognize Url Codec ClientTracker Wire Peer.
From Stdlib Require Import ZArith Lia.
Local Open Scope Z_scope.

Definition BlockSize : Z := 16384.

Definition blockSize (pieceSize downloaded : Z) : Z :=
  let rem := pieceSize - downloaded in
  if BlockSize <? rem then BlockSize else rem.

Section codec.
Context {B : Bencoder}.

(** After the TCP connection: the handshake, then "interested". *)
Definition dialAndHandshake (infoHash peerID : bytes) : M unit :=
  _ ← Handshake infoHash peerID;
  WriteMessage (Some (mkMsg MsgInterested [])).

(** [p.WriteMessage(FormatRequest(uint32(index), uint32(downloaded), uint32(reqLen)))] *)
Definition request_block (index size downloaded : Z) : M unit :=
  let reqLen := blockSize size downloaded in
  WriteMessage (Some (FormatRequest (uwrap 32 index) (uwrap 32 downloaded) (uwrap 32 reqLen))).

(** The body of the loop on one message: the buffer and the count of bytes after it. *)
Definition on_message (index size : Z) (msg : option Message) (pieceData : bytes) (downloaded : Z) : M (bytes * Z) :=
  match msg with
  | None => mret (pieceData, downloaded)
  | Some m =>
      if bool_decide (ID m = MsgUnchoke) then
        _ ← modify (λ p, with_choking p false);
        _ ← (if downloaded =? 0 then request_block index size downloaded else mret tt);
        mret (pieceData, downloaded)
      else if bool_decide (ID m = MsgChoke) then
        _ ← modify (λ p, with_choking p true);
        throw PeerChoked
      else if bool_decide (ID m = MsgPiece) then
        if (length (Payload m) <? 8)%nat then mret (pieceData, downloaded) else
        let blkIndex := be_get (slice (Payload m) 0 4) in
        let blkBegin := be_get (slice (Payload m) 4 8) in
        if negb (blkIndex =? uwrap 32 index) || negb (blkBegin =? uwrap 32 downloaded) then mret (pieceData, downloaded) else
        let block := drop 8 (Payload m) in
        if size <? downloaded + zlen block then throw BlockTooLarge else
        let pieceData := copy_at (Z.to_nat downloaded) pieceData block in
        let downloaded := downloaded + zlen block in
        _ ← (if downloaded <? size then request_block index size downloaded else mret tt);
        mret (pieceData, downloaded)
      else if bool_decide (ID m = MsgExtended) then
        _ ← (if (0 <? length (Payload m))%nat && (bval (nth 0 (Payload m) Byte.x00) =? localPexID)
             then handlePexMessage (drop 1 (Payload m)) else mret tt);
        mret (pieceData, downloaded)
      else mret (pieceData, downloaded)
  end.

Fixpoint download_loop (fuel : nat) (index size : Z) (pieceData : bytes) (downloaded : Z) : M bytes :=
  if size <=? downloaded then mret pieceData else
  match fuel with
  | O => lift NoFuel
  | S f =>
      c ← ctx_err;
      if c : bool then throw Cancelled else
      msg ← Peer.ReadMessage;
      '(pieceData, downloaded) ← on_message index size msg pieceData downloaded;
      download_loop f index size pieceData downloaded
  end.

(** [make] panics on a negative size. *)
Definition downloadPiece (index size : Z) (expectedHash : bytes) : M bytes :=
  if size <? 0 then lift Panic else
  let pieceData := zeros (Z.to_nat size) in
  choking ← gets PeerChoking;
  _ ← (if negb choking : bool then request_block index size 0 else mret tt);
  n ← gets (λ p, S (length (rx p)));
  data ← download_loop n index size pieceData 0;
  if bool_decide (sha1 data ≠ expectedHash) then throw HashMismatch else mret data.

End codec.

(** ** Lemmas *)

Section lemmas.
Context {B : Bencoder}.
Implicit Types (index size downloaded : Z) (p : PeerConn).

Lemma readable_request index begin len : readable (Some (FormatRequest index begin len)).
Proof. unfold readable. rewrite FormatRequest_layout. vm_compute. congruence. Qed.

Lemma request_block_terminates index size downloaded : terminates (request_block index size downloaded).
Proof. apply WriteMessage_terminates, readable_request. Qed.

Lemma request_block_rx index size downloaded : preserves same_rx (request_block index size downloaded).
Proof. apply WriteMessage_rx. Qed.
Lemma request_block_state index size downloaded : preserves same_state (request_block index size downloaded).
Proof. apply WriteMessage_state. Qed.
Hint Resolve request_block_rx request_block_state : peer.

Lemma on_message_rx index size msg d n : preserves same_rx (on_message index size msg d n).
Proof. unfold on_message. preserve. Qed.
Lemma on_message_state index size msg d n : preserves same_state (on_message index size msg d n).
Proof. unfold on_message. preserve. Qed.

Lemma terminates_ret {A} (a : A) : terminates (mret a).
Proof. by intros p. Qed.
Lemma terminates_throw {A} e : terminates (@throw A e).
Proof. by intros p. Qed.

Lemma on_message_terminates index size msg d n : terminates (on_message index size msg d n).
Proof.
  unfold on_message. repeat case_match;
    repeat first [apply terminates_ret | apply terminates_throw | apply request_block_terminates
                 | apply handlePexMessage_terminates | apply terminates_bind; [|intros] | by intros ?].
Qed.

(** The buffer keeps its length, the count never decreases and never passes the size. *)
Lemma on_message_ok index size msg d n p d' n' p' :
  on_message index size msg d n p = (Ok (d', n'), p') → 0 ≤ n ≤ size → length d' = length d ∧ n ≤ n' ≤ size.
Proof.
  unfold on_message. intros H Hn.
  repeat (first [rewrite run_bind in H | case_match]; try discriminate H); unfold mret, M_ret, modify, throw in *; simplify_eq; try (split; [done|lia]).
  all: try (rewrite length_copy_at; split; [done|]).
  all: match goal with H : (_ <? _ + zlen ?l) = false |- _ => apply Z.ltb_ge in H; pose proof (zlen_nonneg l) end; lia.
Qed.

Lemma download_loop_ok fuel index size : ∀ d n p data p', 0 ≤ n ≤ size →
  download_loop fuel index size d n p = (Ok data, p') → length data = length d.
Proof.
  induction fuel as [|f IH]; intros d n p data p' Hn H; cbn [download_loop] in H.
  - case_match; [|done]. by injection H as <- _.
  - case_match; [by injection H as <- _|]. run_step H. case_match; [done|]. run_step H. run_step H.
    match goal with x : bytes * Z |- _ => destruct x as [d1 n1] end.
    match goal with E : on_message _ _ _ _ _ _ = _ |- _ => apply on_message_ok in E as [L Hn1]; [|done] end.
    rewrite <- L. eapply IH; [|exact H]. lia.
Qed.

(** Every round takes a message, of at least four bytes, off the stream. *)
Lemma download_loop_terminates fuel index size : ∀ d n p,
  (length (rx p) < fuel)%nat → returns (fst (download_loop fuel index size d n p)).
Proof.
  induction fuel as [|f IH]; intros d n p Hf; [lia|]. cbn [download_loop]. case_match; [done|].
  rewrite run_bind. pose proof (ctx_err_rx p) as Hc. pose proof (ctx_err_terminates p) as Tc.
  destruct (ctx_err p) as [[c|e| |] p1]; try done. unfold same_rx in Hc. cbn [snd] in Hc.
  destruct c; [done|]. rewrite run_bind. pose proof (ReadMessage_terminates p1) as Tr.
  destruct (Peer.ReadMessage p1) as [[m|e| |] p2] eqn:Er; try done.
  apply ReadMessage_ok in Er as (Er & _). apply (f_equal length) in Er. rewrite length_app in Er. pose proof (frame_pos m).
  rewrite run_bind. pose proof (on_message_rx index size m d n p2) as Ho.
  pose proof (on_message_terminates index size m d n p2) as To.
  destruct (on_message index size m d n p2) as [[[d' n']|e| |] p3]; try done.
  unfold same_rx in Ho. cbn [snd] in Ho. apply IH. rewrite Hc in Er. rewrite Ho. lia.
Qed.

Lemma first_request_rx index size (b : bool) : preserves same_rx (if b then request_block index size 0 else mret tt).
Proof. preserve. Qed.

Lemma downloadPiece_terminates index size h p : 0 ≤ size → returns (fst (downloadPiece index size h p)).
Proof.
  intros Hs. unfold downloadPiece. rewrite (proj2 (Z.ltb_ge _ _)) by lia.
  rewrite run_bind. cbn [gets]. rewrite run_bind.
  pose proof (first_request_rx index size (negb (PeerChoking p)) p) as H1. 
  assert (T1 : returns (fst ((if negb (PeerChoking p) then request_block index size 0 else mret tt) p))).
  { destruct (negb _); [apply request_block_terminates|done]. }
  match type of H1 with same_rx _ (snd ?r) => destruct r as [[u|e| |] p1] end; try done.
  rewrite run_bind. cbn [gets]. rewrite run_bind.
  pose proof (download_loop_terminates (S (length (rx p1))) index size (zeros (Z.to_nat size)) 0 p1 ltac:(lia)) as T2.
  destruct (download_loop _ _ _ _ _ _) as [[data|e| |] p2]; try done. by case_match.
Qed.

Lemma download_loop_state fuel index size : ∀ d n, preserves same_state (download_loop fuel index size d n).
Proof.
  induction fuel as [|f IH]; intros d n; cbn [download_loop]; [case_match; [by intros p|by intros p]|]. case_match; [by intros p|].
  apply preserves_bind; [typeclasses eauto|auto with peer|]. intros [|]; [by intros p|].
  apply preserves_bind; [typeclasses eauto|auto with peer|]. intros m. apply preserves_bind; [typeclasses eauto|apply on_message_state|]. intros [d' n']. apply IH.
Qed.

Lemma downloadPiece_state index size h : preserves same_state (downloadPiece index size h).
Proof.
  unfold downloadPiece. case_match; [by intros p|]. apply preserves_bind; [typeclasses eauto|by intros p|]. intros choking.
  apply preserves_bind; [typeclasses eauto|destruct choking; [by intros p|apply request_block_state]|]. intros _.
  apply preserves_bind; [typeclasses eauto|by intros p|]. intros n. apply preserves_bind; [typeclasses eauto|apply download_loop_state|].
  intros data. by case_bool_decide; intros p.
Qed.

Lemma downloadPiece_ok index size h p data p' :
  downloadPiece index size h p = (Ok data, p') → zlen data = size ∧ sha1 data = h.
Proof.
  unfold downloadPiece. intros H. case_match eqn:Es; [done|]. apply Z.ltb_ge in Es.
  rewrite run_bind in H. cbn [gets] in H. run_step H. rewrite run_bind in H. cbn [gets] in H. run_step H.
  match goal with E : download_loop _ _ _ _ _ _ = _ |- _ => apply download_loop_ok in E; [|lia] end.
  case_bool_decide as Eh; [done|]. injection H as <- <-. rewrite length_zeros in *. split; [unfold zlen; lia|done].
Qed.
End lemmas.

(** ** A peer that serves the piece *)

(** A message that does not concern the download: anything but choke, unchoke and piece. *)
Definition benign (m : option Message) : Prop :=
  readable m ∧ ∀ x, m = Some x → ID x ≠ MsgUnchoke ∧ ID x ≠ MsgChoke ∧ ID x ≠ MsgPiece.

Definition piece_msg (index begin : Z) (block : bytes) : option Message :=
  Some (mkMsg MsgPiece (be_put 4 index ++ be_put 4 begin ++ block)).

(** The blocks in order from [off], each after some other messages. *)
Fixpoint serve (index : Z) (piece : bytes) (off : Z) (noise : list (list (option Message))) : list (option Message) :=
  match noise with
  | [] => []
  | ns :: more =>
      let len := blockSize (zlen piece) off in
      ns ++ piece_msg index off (slice piece (Z.to_nat off) (Z.to_nat (off + len))) :: serve index piece (off + len) more
  end.

(** The requests for [n] blocks from [off]. *)
Fixpoint requests (index size off : Z) (n : nat) : list (option Message) :=
  match n with
  | O => []
  | S n' => let len := blockSize size off in
            Some (FormatRequest index off len) :: requests index size (off + len) n'
  end.

(** [k] blocks cover what is missing from [off] on. *)
Definition covers (size off : Z) (k : nat) : Prop :=
  size - off ≤ BlockSize * Z.of_nat k ∧ (k = 0%nat ∨ BlockSize * (Z.of_nat k - 1) < size - off).

Section honest.
Context {B : Bencoder} (index size : Z).

Lemma on_message_benign m d n p : benign m → ∃ l, on_message index size m d n p = (Ok (d, n), with_pex p l).
Proof.
  assert (Hp : p = with_pex p (pexPeers p)) by (by destruct p).
  intros [_ Hm]. unfold on_message. destruct m as [x|]; [|exists (pexPeers p); by rewrite <- Hp].
  destruct (Hm x eq_refl) as (H1 & H2 & H3). rewrite !bool_decide_false by done.
  case_bool_decide; [|exists (pexPeers p); by rewrite <- Hp].
  rewrite run_bind. destruct ((0 <? _)%nat && _).
  - destruct (handlePexMessage_run (drop 1 (Payload x)) p) as [l ->]. by exists l.
  - exists (pexPeers p). rewrite run_ret. by rewrite <- Hp.
Qed.

(** One round of the loop. *)
Lemma download_round f d n p c m rest :
  n < size → state p ≠ stateInit → ctx p = S c → readable m → rx p = frame m ++ rest →
  download_loop (S f) index size d n p =
    (x ← on_message index size m d n; download_loop f index size x.1 x.2) (with_rx (with_ctx p c) rest).
Proof.
  intros Hn Hs Hc Hm Hr. cbn [download_loop]. rewrite (proj2 (Z.leb_gt _ _)) by done.
  rewrite run_bind. unfold ctx_err at 1. rewrite Hc. rewrite run_bind.
  rewrite (ReadMessage_run _ m rest) by done. change (with_rx (with_ctx p c) rest) with (with_rx (with_ctx p c) rest).
  rewrite !run_bind. by destruct (on_message index size m d n _) as [[[? ?]| | |] ?].
Qed.

(** The part of the connection that other messages leave alone. *)
Definition alike (p p' : PeerConn) : Prop := state p' = state p ∧ writes p' = writes p ∧ tx p' = tx p.

Lemma download_noise d n ns : Forall benign ns → ∀ f p c rest,
  n < size → state p ≠ stateInit → ctx p = (length ns + c)%nat → rx p = flat_map frame ns ++ rest →
  (length (rx p) < f)%nat →
  ∃ p' f', download_loop f index size d n p = download_loop f' index size d n p'
    ∧ alike p p' ∧ rx p' = rest ∧ ctx p' = c ∧ (length rest < f')%nat.
Proof.
  intros Hns f p c rest Hn. revert f p. induction Hns as [|m ns Hm Hns IH]; intros f p Hs Hc Hr Hf.
  { cbn [flat_map app] in Hr. subst rest. by exists p, f. }
  destruct f as [|f]; [lia|]. cbn [flat_map length] in *. rewrite <- app_assoc in Hr.
  rewrite (download_round f d n p (length ns + c) m _ Hn Hs Hc (proj1 Hm) Hr).
  set (q := with_rx _ _). destruct (on_message_benign m d n q Hm) as [l Hl]. rewrite run_bind, Hl. cbn [fst snd].
  destruct (IH f (with_pex q l)) as (p' & f' & E & (A1 & A2 & A3) & H1 & H2 & H3); try done.
  - cbn [rx with_pex q with_rx with_ctx]. rewrite Hr, length_app in Hf. pose proof (frame_pos m). lia.
  - exists p', f'. unfold alike in *. by split_and!.
Qed.

Lemma blockSize_range off : 0 ≤ off < size → 0 < blockSize size off ≤ BlockSize ∧ off + blockSize size off ≤ size.
Proof. unfold blockSize, BlockSize. intros. case_match eqn:E; [apply Z.ltb_lt in E|apply Z.ltb_ge in E]; lia. Qed.

Lemma covers_step off k : 0 ≤ off < size → covers size off (S k) →
  covers size (off + blockSize size off) k ∧ (k = 0%nat ↔ off + blockSize size off = size).
Proof.
  unfold covers, blockSize, BlockSize. intros Ho [H1 H2].
  case_match eqn:E; [apply Z.ltb_lt in E|apply Z.ltb_ge in E]; split; try split; lia.
Qed.

Context (piece : bytes) (Hsize : size = zlen piece) (Hi : 0 ≤ index < 2 ^ 32) (Hs32 : size < 2 ^ 32).

(** The buffer while [off] bytes have arrived. *)
Definition partial (off : Z) : bytes := take (Z.to_nat off) piece ++ zeros (Z.to_nat (size - off)).

Lemma piece_msg_readable begin block : zlen block ≤ BlockSize → readable (piece_msg index begin block).
Proof.
  intros H. unfold readable, piece_msg. cbn [Payload]. rewrite !zlen_app, maxPayload_val. unfold BlockSize in H.
  change (zlen (be_put 4 index)) with 4. change (zlen (be_put 4 begin)) with 4. lia.
Qed.

Lemma length_block off : 0 ≤ off < size →
  zlen (slice piece (Z.to_nat off) (Z.to_nat (off + blockSize size off))) = blockSize size off.
Proof.
  intros Ho. pose proof (blockSize_range off Ho). unfold slice, zlen in *. rewrite length_take, length_drop. lia.
Qed.

Lemma partial_block off : 0 ≤ off < size →
  copy_at (Z.to_nat off) (partial off) (slice piece (Z.to_nat off) (Z.to_nat (off + blockSize size off)))
  = partial (off + blockSize size off).
Proof.
  intros Ho. pose proof (blockSize_range off Ho) as [Hb1 Hb2]. pose proof (length_block off Ho) as L.
  unfold zlen in L. unfold partial. rewrite copy_at_fill.
  - unfold slice.
    replace (Z.to_nat (off + blockSize size off) - Z.to_nat off)%nat with (Z.to_nat (blockSize size off)) by lia.
    rewrite take_take_drop. f_equal; [f_equal; lia|]. f_equal.
    rewrite length_take, length_drop. unfold zlen in Hsize. lia.
  - rewrite length_take. unfold zlen in Hsize. lia.
  - lia.
Qed.

(** The expected block arrives. *)
Lemma on_message_block off p : 0 ≤ off < size →
  let len := blockSize size off in
  let m := piece_msg index off (slice piece (Z.to_nat off) (Z.to_nat (off + len))) in
  on_message index size m (partial off) off p =
    (_ ← (if off + len <? size then request_block index size (off + len) else mret tt);
     mret (partial (off + len), off + len)) p.
Proof.
  intros Ho len m. pose proof (blockSize_range off Ho) as [Hb1 Hb2]. unfold m, piece_msg, on_message.
  cbn [ID Payload]. rewrite !(bool_decide_false (MsgPiece = _)) by done. rewrite bool_decide_true by done.
  set (block := slice piece _ _). rewrite (proj2 (Nat.ltb_ge _ _)) by (rewrite !length_app, !length_be_put; lia).
  change (slice (be_put 4 index ++ be_put 4 off ++ block) 0 4) with (be_put 4 index).
  change (slice (be_put 4 index ++ be_put 4 off ++ block) 4 8) with (be_put 4 off).
  change (drop 8 (be_put 4 index ++ be_put 4 off ++ block)) with block.
  rewrite !be_get_put32 by lia. unfold uwrap. rewrite !Z.mod_small by lia. rewrite !Z.eqb_refl. cbn [negb orb].
  assert (L : zlen block = len) by (by apply length_block). rewrite L, (proj2 (Z.ltb_ge _ _)) by lia.
  unfold block. fold len. by rewrite partial_block.
Qed.

Lemma request_run off p w : 0 ≤ off < size → state p ≠ stateInit → writes p = S w →
  request_block index size off p = (Ok tt, with_write p (frame (Some (FormatRequest index off (blockSize size off)))) w).
Proof.
  intros Ho Hs Hw. pose proof (blockSize_range off Ho). unfold request_block, BlockSize in *.
  unfold uwrap. rewrite !Z.mod_small by lia. apply WriteMessage_run; [done|apply readable_request|done].
Qed.

(** From the moment the request for the block at [off] is out. *)
Lemma download_serve noise : Forall (Forall benign) noise → ∀ off f p c w rest,
  0 ≤ off ≤ size → covers size off (length noise) → state p ≠ stateInit →
  ctx p = (length (serve index piece off noise) + c)%nat → writes p = (pred (length noise) + w)%nat →
  rx p = flat_map frame (serve index piece off noise) ++ rest → (length (rx p) < f)%nat →
  ∃ p', download_loop f index size (partial off) off p = (Ok piece, p')
    ∧ tx p' = tx p ++ flat_map frame (tail (requests index size off (length noise))).
Proof.
  induction 1 as [|ns more Hns Hmore IH]; intros off f p c w rest Ho Hcov Hst Hctx Hwr Hrx Hf.
  - destruct Hcov as [Hcov _]. unfold BlockSize in Hcov. cbn [length] in Hcov. assert (off = size) as -> by lia.
    exists p. destruct f as [|f]; cbn [download_loop]; (rewrite (proj2 (Z.leb_le _ _)) by lia); rewrite run_ret;
      (split; [|by rewrite app_nil_r]); do 2 f_equal; unfold partial; rewrite Z.sub_diag, app_nil_r;
      apply take_ge; unfold zlen in Hsize; lia.
  - assert (Hlt : off < size).
    { destruct Hcov as [_ [H|H]]; [done|]. cbn [length] in H. unfold BlockSize in H. lia. }
    destruct (covers_step off (length more) (conj (proj1 Ho) Hlt) Hcov) as [Hcov' Hlast].
    pose proof (blockSize_range off (conj (proj1 Ho) Hlt)) as [Hb1 Hb2].
    cbn [serve length requests tail flat_map] in *. rewrite <- Hsize in *. set (len := blockSize size off) in *.
    set (m := piece_msg _ _ _) in *. rewrite flat_map_app, <- app_assoc in Hrx. cbn [flat_map] in Hrx.
    rewrite <- app_assoc in Hrx. rewrite length_app in Hctx. cbn [length] in Hctx.
    destruct (download_noise (partial off) off ns Hns f p (S (length (serve index piece (off + len) more)) + c)
                (frame m ++ flat_map frame (serve index piece (off + len) more) ++ rest))
      as (p1 & f1 & E1 & (A1 & A2 & A3) & R1 & C1 & F1); [done|done|lia|done|done|].
    rewrite E1. destruct f1 as [|f1]; [lia|].
    assert (Hm : readable m) by (apply piece_msg_readable; rewrite length_block by lia; lia).
    rewrite (download_round f1 (partial off) off p1 _ m _ Hlt ltac:(congruence) C1 Hm R1).
    set (q := with_rx _ _).
    assert (Sq : state q ≠ stateInit) by (change (state p1 ≠ stateInit); by rewrite A1).
    assert (Wq : writes q = (length more + w)%nat) by (change (writes p1 = (length more + w)%nat); by rewrite A2).
    assert (Tq : tx q = tx p) by done.
    rewrite run_bind. unfold m, len. rewrite on_message_block by lia. fold len. rewrite run_bind.
    assert (F2 : (length (flat_map frame (serve index piece (off + len) more) ++ rest) < f1)%nat).
    { rewrite length_app in F1. pose proof (frame_pos m). lia. }
    destruct more as [|ns2 more].
    + rewrite (proj2 (Z.ltb_ge _ _)) by (rewrite (proj1 Hlast eq_refl); lia). rewrite run_ret. cbn [fst snd].
      destruct (IH (off + len) f1 q c w rest) as (p' & E' & T'); try done; try lia.
      exists p'. split; [exact E'|]. by rewrite T', Tq.
    + assert (Hne : off + len < size).
      { assert (off + len ≠ size); [|lia]. intros E. apply Hlast in E. done. }
      rewrite (proj2 (Z.ltb_lt _ _)) by done.
      rewrite (request_run (off + len) q (pred (length (ns2 :: more)) + w)%nat) by (done || lia).
      rewrite run_ret. cbn [fst snd]. set (q' := with_write _ _ _).
      destruct (IH (off + len) f1 q' c w rest) as (p' & E' & T'); try done; try lia.
      exists p'. split; [exact E'|]. rewrite T'. cbn [tx q' with_write]. by rewrite Tq, <- app_assoc.
Qed.
End honest.

(** ** Properties *)

(** C28. [downloadPiece] always returns, a value or an error, whatever the peer sends; when it returns data the piece has the
    requested size and the expected SHA-1; and the typed state of the connection is what it was. *)
Theorem downloadPiece_verified `{B : Bencoder} index size expectedHash p :
  0 ≤ size →
  returns (fst (downloadPiece index size expectedHash p))
  ∧ (∀ data p', downloadPiece index size expectedHash p = (Ok data, p') → zlen data = size ∧ sha1 data = expectedHash)
  ∧ state (snd (downloadPiece index size expectedHash p)) = state p.
Proof.
  intros Hs. split; [by apply downloadPiece_terminates|]. split; [intros data p' H; by apply downloadPiece_ok in H|]. apply downloadPiece_state.
Qed.

(** C29. A peer that serves the piece is enough: on an unchoked connection, if the peer sends the blocks of
    the piece in order, with keep-alives, bitfields, haves and extended messages in between as it
    likes, and neither the context nor the writing side gives out, [downloadPiece] returns the piece; and
    what it wrote are exactly the requests that cover the piece, one per block, each of at most 16 KiB. *)
Theorem downloadPiece_served `{B : Bencoder} index piece noise rest p :
  0 ≤ index < 2 ^ 32 → 0 < zlen piece < 2 ^ 32 →
  Forall (Forall benign) noise → covers (zlen piece) 0 (length noise) →
  state p ≠ stateInit → PeerChoking p = false →
  (length (serve index piece 0 noise) ≤ ctx p)%nat → (length noise ≤ writes p)%nat →
  rx p = flat_map frame (serve index piece 0 noise) ++ rest →
  ∃ p', downloadPiece index (zlen piece) (sha1 piece) p = (Ok piece, p')
    ∧ tx p' = tx p ++ flat_map frame (requests index (zlen piece) 0 (length noise)).
Proof.
  intros Hi Hs Hn Hcov Hst Hch Hctx Hwr Hrx. unfold downloadPiece. rewrite (proj2 (Z.ltb_ge _ _)) by lia.
  rewrite run_bind. cbn [gets]. rewrite Hch. cbn [negb]. rewrite run_bind.
  destruct noise as [|ns more].
  { destruct Hcov as [Hcov _]. unfold BlockSize in Hcov. cbn [length] in Hcov. lia. }
  destruct (writes p) as [|w] eqn:Ew; [cbn [length] in Hwr; lia|].
  rewrite (request_run index (zlen piece) Hi ltac:(lia) 0 p w) by (done || lia).
  set (q := with_write _ _ _). rewrite run_bind. cbn [gets]. rewrite run_bind.
  destruct (download_serve index (zlen piece) piece eq_refl Hi ltac:(lia) (ns :: more) Hn 0 (S (length (rx q))) q
    (ctx p - length (serve index piece 0 (ns :: more)))%nat (w - length more)%nat rest) as (p' & E & T); try done; try lia.
  - cbn [ctx q with_write]. lia.
  - cbn [writes q with_write length pred] in *. lia.
  - replace (zeros (Z.to_nat (zlen piece))) with (partial (zlen piece) piece 0).
    + rewrite E. cbn [fst snd]. rewrite bool_decide_false by tauto. exists p'. split; [done|].
      rewrite T. cbn [tx q with_write length requests tail flat_map]. by rewrite <- app_assoc.
    + unfold partial. rewrite Z.sub_0_r. done.
Qed.

(** Two blocks, with a have, a keep-alive and an extended message in between. *)
Module SampleDownload.
Definition piece : bytes := zeros (128 * 128) ++ str "hello".
Definition noise : list (list (option Message)) :=
  [[Some (mkMsg MsgHave (be_put 4 7)); KeepAlive]; [Some (mkMsg MsgExtended (zbyte 2 :: str "d5:added0:e"))]].
Definition conn : PeerConn :=
  mkConn (flat_map frame (serve 3 piece 0 noise) ++ frame (Some (mkMsg MsgChoke []))) [] 4 10 stateHandshook
    true false false false ∅ 0 [].

(** A peer that unchokes, then sends a block of another piece and the one block of this piece. *)
Definition short : PeerConn :=
  mkConn (flat_map frame [Some (mkMsg MsgUnchoke []); Some (mkMsg MsgPiece (be_put 4 2 ++ be_put 4 0 ++ str "jello"));
                          Some (mkMsg MsgPiece (be_put 4 3 ++ be_put 4 0 ++ str "hello"))]) [] 4 10 stateHandshook
    true false true false ∅ 0 [].

Lemma noise_benign : Forall (Forall benign) noise.
Proof.
  unfold noise. repeat (apply Forall_cons; split); try apply Forall_nil_2;
    (split; [vm_compute; first [exact I | congruence]|]; intros x E; try discriminate E; injection E as <-;
     vm_compute; split_and!; congruence).
Qed.
Lemma length_piece : zlen piece = 16389.
Proof. vm_compute. reflexivity. Qed.
Lemma piece_covered : covers (zlen piece) 0 (length noise).
Proof. rewrite length_piece. unfold covers, BlockSize. cbn [length noise]. lia. Qed.
End SampleDownload.

Lemma downloadPiece_served_witness :
  covers (zlen SampleDownload.piece) 0 (length SampleDownload.noise) ∧
  ∃ p', @downloadPiece ref_codec 3 (zlen SampleDownload.piece) (sha1 SampleDownload.piece) SampleDownload.conn
        = (Ok SampleDownload.piece, p')
    ∧ tx p' = tx SampleDownload.conn ++ flat_map frame (requests 3 (zlen SampleDownload.piece) 0 2).
Proof.
  split; [exact SampleDownload.piece_covered|].
  apply (@downloadPiece_served ref_codec 3 SampleDownload.piece SampleDownload.noise
    (frame (Some (mkMsg MsgChoke []))) SampleDownload.conn).
  - lia.
  - rewrite SampleDownload.length_piece. lia.
  - exact SampleDownload.noise_benign.
  - exact SampleDownload.piece_covered.
  - discriminate.
  - reflexivity.
  - vm_compute. lia.
  - vm_compute. lia.
  - reflexivity.
Defined.

Lemma downloadPiece_verified_witness :
  fst (@downloadPiece ref_codec 3 5 (sha1 (str "hello")) SampleDownload.short) = Ok (str "hello")
  ∧ returns (fst (@downloadPiece ref_codec 3 5 (sha1 (str "hello")) SampleDownload.short))
  ∧ (zlen (str "hello") = 5 ∧ sha1 (str "hello") = sha1 (str "hello"))
  ∧ state (snd (@downloadPiece ref_codec 3 5 (sha1 (str "hello")) SampleDownload.short)) = stateHandshook
  ∧ fst (@downloadPiece ref_codec 3 5 (sha1 (str "jello")) SampleDownload.short) = Err HashMismatch.
Proof.
  pose proof (@downloadPiece_verified ref_codec 3 5 (sha1 (str "hello")) SampleDownload.short ltac:(lia)) as (H1 & H2 & H3).
  assert (E : fst (@downloadPiece ref_codec 3 5 (sha1 (str "hello")) SampleDownload.short) = Ok (str "hello")) by (vm_compute; reflexivity).
  split; [exact E|]. split; [exact H1|]. split; [|split; [exact H3|vm_compute; reflexivity]].
  apply (H2 _ (snd (@downloadPiece ref_codec 3 5 (sha1 (str "hello")) SampleDownload.short))). by apply pair_of_fst.
Defined.
