(* ===== verification/Handshake.v ===== *)
(** * Package [client]: what the handshake recognizes

    Theorems about [Peer.Handshake]: which incoming bytes it accepts, what it sends, how the typed
    state moves, and that two instances of the client complete the handshake with each other. *)

From S2P Require Import Prelude Strconv Hex GoStrings NetAddr Bencode Recognize Url Codec ClientTracker Wire Peer.
From Stdlib Require Import ZArith Lia.
Local Open Scope Z_scope.

(** ** The 68 bytes *)

Definition handshake_bytes (reserved infoHash peerID : bytes) : bytes :=
  zbyte 19 :: protoMagic ++ reserved ++ infoHash ++ peerID.

Lemma handshake_buf_bytes infoHash peerID : length infoHash = 20%nat → length peerID = 20%nat →
  handshake_buf infoHash peerID = handshake_bytes reserved_bytes infoHash peerID.
Proof.
  intros Hh Hp. unfold handshake_buf, handshakeLen, pstrLen.
  change (zeros (1 + 19 + 8 + 20 + 20)) with ([] ++ zeros 68).
  rewrite (copy_at_fill 0) by (simpl; lia). rewrite (copy_at_fill 1) by (simpl; lia).
  rewrite (copy_at_fill (1 + 19)) by (simpl; lia).
  rewrite (copy_at_fill (1 + 19 + 8)) by (rewrite ?length_app, ?Hh; simpl; lia).
  rewrite (copy_at_fill (1 + 19 + 8 + 20)) by (rewrite ?length_app, ?Hh, ?Hp; simpl; lia).
  rewrite Hh, Hp. change (zeros _) with (@nil byte). rewrite app_nil_r, <- !app_assoc. done.
Qed.

(** The fields of 68 bytes laid out that way. *)
Lemma handshake_fields reserved infoHash peerID :
  length reserved = 8%nat → length infoHash = 20%nat → length peerID = 20%nat →
  let b := handshake_bytes reserved infoHash peerID in
  length b = handshakeLen ∧ nth 0 b Byte.x00 = zbyte 19 ∧ slice b 1 20 = protoMagic
  ∧ slice b 20 28 = reserved ∧ slice b 28 48 = infoHash ∧ drop 48 b = peerID.
Proof.
  intros Hr Hh Hp b. unfold b, handshake_bytes.
  assert (D20 : drop 20 (zbyte 19 :: protoMagic ++ reserved ++ infoHash ++ peerID) = reserved ++ infoHash ++ peerID) by done.
  assert (D28 : drop 28 (zbyte 19 :: protoMagic ++ reserved ++ infoHash ++ peerID) = infoHash ++ peerID).
  { change 28%nat with (20 + 8)%nat. rewrite <- drop_drop, D20, <- Hr. apply drop_app_length. }
  split_and!; try done.
  - cbn [length]. rewrite !length_app, Hr, Hh, Hp. done.
  - unfold slice. rewrite D20. cbn [Nat.sub]. rewrite <- Hr. apply take_app_length.
  - unfold slice. rewrite D28. cbn [Nat.sub]. rewrite <- Hh. apply take_app_length.
  - change 48%nat with (28 + 20)%nat. rewrite <- drop_drop, D28, <- Hh. apply drop_app_length.
Qed.

(** Any 68 bytes with those fields are laid out that way. *)
Lemma handshake_bytes_of b infoHash :
  length b = handshakeLen → bval (nth 0 b Byte.x00) = 19 → slice b 1 20 = protoMagic → slice b 28 48 = infoHash →
  b = handshake_bytes (slice b 20 28) infoHash (drop 48 b).
Proof.
  intros L H0 H1 H2. unfold handshake_bytes. rewrite <- H1, <- H2. unfold slice. cbn [Nat.sub].
  destruct b as [|x b]; [done|]. cbn [nth] in H0.
  replace (zbyte 19) with x by (apply bval_inj; rewrite H0; done). f_equal. change (drop 1 (x :: b)) with (drop 0 b).
  change (drop 20 (x :: b)) with (drop 19 b). change (drop 28 (x :: b)) with (drop 27 b). change (drop 48 (x :: b)) with (drop 47 b).
  rewrite drop_0. rewrite (app_assoc (take 8 _)).
  replace (drop 27 b) with (drop 8 (drop 19 b)) by (by rewrite drop_drop).
  replace (drop 47 b) with (drop 20 (drop 8 (drop 19 b))) by (by rewrite !drop_drop).
  by rewrite <- app_assoc, (take_drop 20), (take_drop 8), (take_drop 19).
Qed.

Definition supports_ext (reserved : bytes) : bool := negb (Z.land (bval (nth 5 reserved Byte.x00)) 16 =? 0).

Section codec.
Context {B : Bencoder}.

Definition ext_message : option Message := Some (mkMsg MsgExtended (zbyte 0 :: encode ext_handshake_dict)).

(** The run of a handshake up to the recognition of the peer's 68 bytes. *)
Lemma Handshake_run infoHash peerID p w reserved id rest :
  state p = stateInit → length infoHash = 20%nat → length peerID = 20%nat → writes p = S w →
  length reserved = 8%nat → length id = 20%nat →
  rx p = handshake_bytes reserved infoHash id ++ rest →
  Handshake infoHash peerID p =
    (if supports_ext reserved
     then _ ← sendExtendedHandshake; _ ← readExtendedHandshake; modify (λ p, with_state p stateExtended)
     else mret tt)
    (with_state (with_rx (with_write p (handshake_bytes reserved_bytes infoHash peerID) w) rest) stateHandshook).
Proof.
  intros Hs Hh Hp Hw Hr Hid Hrx. unfold Handshake. rewrite run_bind. cbn [gets]. rewrite Hs, bool_decide_true by done. cbn [guard].
  rewrite run_bind, run_ret, Hh. cbn [Nat.eqb guard]. rewrite run_bind, run_ret, Hp. cbn [Nat.eqb guard].
  rewrite run_bind, run_ret, run_bind. unfold conn_write at 1. rewrite Hw, handshake_buf_bytes by done.
  destruct (handshake_fields reserved infoHash id Hr Hh Hid) as (L & F0 & F1 & F2 & F3 & F4).
  rewrite run_bind. unfold conn_read at 1. cbn [rx with_write]. rewrite Hrx, ReadFull_app by done.
  unfold pstrLen. cbn [Nat.add]. rewrite F0, F1, F2, F3. rewrite !bool_decide_true by done. cbn [guard].
  rewrite run_bind, run_ret, run_bind, run_ret, run_bind, run_ret, run_bind. cbn [modify]. done.
Qed.

(** A success means that the peer sent a well-formed handshake for our torrent. *)
Lemma Handshake_ok infoHash peerID p p' : Handshake infoHash peerID p = (Ok tt, p') →
  state p = stateInit ∧ length infoHash = 20%nat ∧ length peerID = 20%nat ∧ (0 < writes p)%nat ∧
  ∃ reserved id rest, rx p = handshake_bytes reserved infoHash id ++ rest ∧ length reserved = 8%nat ∧ length id = 20%nat.
Proof.
  unfold Handshake. intros H. rewrite run_bind in H. cbn [gets] in H.
  case_bool_decide as Hs; cbn [guard] in H; rewrite run_bind in H; [rewrite run_ret in H|done].
  destruct (Nat.eqb_spec (length infoHash) 20) as [Hh|]; cbn [guard] in H; rewrite run_bind in H; [rewrite run_ret in H|done].
  destruct (Nat.eqb_spec (length peerID) 20) as [Hp|]; cbn [guard] in H; rewrite run_bind in H; [rewrite run_ret in H|done].
  rewrite run_bind in H. unfold conn_write at 1 in H. destruct (writes p) as [|w]; [done|].
  rewrite run_bind in H. unfold conn_read at 1 in H. cbn [rx with_write] in H.
  destruct (ReadFull handshakeLen (rx p)) as [[b r]|] eqn:Er; [|done]. apply ReadFull_ok in Er as [Er Lb].
  rewrite run_bind in H. destruct (bool_decide (bval (nth 0 b _) = _)) eqn:H0; cbn [guard] in H; [rewrite run_ret in H|done].
  rewrite run_bind in H. destruct (bool_decide (slice b 1 _ = _)) eqn:H1; cbn [guard] in H; [rewrite run_ret in H|done].
  rewrite run_bind in H. destruct (bool_decide (slice b _ _ = infoHash)) eqn:H2; cbn [guard] in H; [|done].
  apply bool_decide_eq_true in H0, H1, H2.
  split_and!; try done; [lia|]. exists (slice b 20 28), (drop 48 b), r. split_and!.
  - rewrite <- (handshake_bytes_of b infoHash); done.
  - unfold slice. rewrite length_take, length_drop, Lb. done.
  - rewrite length_drop, Lb. done.
Qed.

Lemma ext_message_readable : readable ext_message.
Proof. vm_compute. congruence. Qed.

Lemma sendExtendedHandshake_run {HB : BencoderLaws B} p w : writes p = S w →
  sendExtendedHandshake p = (Ok tt, with_write p (frame ext_message) w).
Proof.
  intros Hw. unfold sendExtendedHandshake. rewrite run_bind, EncodeBytes_ok. cbn [of_option lift].
  unfold conn_write_message. rewrite write_frame by apply ext_message_readable. cbn [map_err].
  rewrite run_bind. cbn [lift]. unfold conn_write. by rewrite Hw.
Qed.

(** Messages a peer may send before its extended handshake. *)
Definition early (m : option Message) : Prop := readable m ∧ ∀ x, m = Some x → ID x ≠ MsgExtended.

(** Chokes and unchokes among them are remembered. *)
Definition choking_after (c : bool) (ns : list (option Message)) : bool :=
  foldl (λ c m, match m with
                | Some x => if bool_decide (ID x = MsgChoke) then true else if bool_decide (ID x = MsgUnchoke) then false else c
                | None => c end) c ns.

Lemma readExtendedHandshake_run ns body e size : Forall early ns → ∀ n p rest,
  (length ns < n)%nat → (1 ≤ length body)%nat → readable (Some (mkMsg MsgExtended (zbyte 0 :: body))) →
  Validate body PeerMessageLimits = Ok tt → decode_ext body = Some (e, size) →
  rx p = flat_map frame ns ++ frame (Some (mkMsg MsgExtended (zbyte 0 :: body))) ++ rest →
  readExtendedHandshake_loop n p = (Ok tt, with_ext (with_choking (with_rx p rest) (choking_after (PeerChoking p) ns)) e size).
Proof.
  intros Hns. induction Hns as [|m ns [Hm He] Hns IH]; intros n p rest Hn Hb Hr Hv Hd Hrx; (destruct n as [|n]; [simpl in Hn; lia|]);
    cbn [readExtendedHandshake_loop]; rewrite run_bind; unfold conn_read_message at 1; rewrite Hrx.
  - cbn [flat_map app]. rewrite read_frame by done. rewrite bool_decide_true by done.
    cbn [Payload length drop nth]. rewrite (proj2 (Nat.ltb_ge _ _)) by lia. rewrite bool_decide_false by tauto.
    rewrite drop_0, run_bind, Hv. cbn [map_err lift]. rewrite run_bind, Hd. cbn [of_option lift modify]. by destruct p.
  - cbn [flat_map]. rewrite <- app_assoc, read_frame by done. cbn [length] in Hn. set (q := with_rx p _).
    destruct m as [m|]; [|rewrite (IH n q rest); [by destruct p|lia|done..]].
    rewrite bool_decide_false by (by apply He). cbn [choking_after foldl].
    destruct (bool_decide (ID m = MsgChoke)); [|destruct (bool_decide (ID m = MsgUnchoke))];
      try (rewrite run_bind; cbn [modify]); rewrite IH with (rest := rest); try done; try lia; by destruct p.
Qed.
End codec.

(** ** The typed state *)

Section states.
Context {B : Bencoder}.

Lemma sendExtendedHandshake_state : preserves same_state sendExtendedHandshake.
Proof. unfold sendExtendedHandshake. preserve. Qed.
Lemma readExtendedHandshake_state n : preserves same_state (readExtendedHandshake_loop n).
Proof.
  induction n as [|n IH]; [by intros p|]. cbn [readExtendedHandshake_loop]. preserve; try apply IH.
Qed.
Lemma RequestMetadata_state i : preserves same_state (RequestMetadata i).
Proof. unfold RequestMetadata. preserve. Qed.

(** Where a handshake can leave the state. *)
Lemma Handshake_state infoHash peerID p :
  let r := Handshake infoHash peerID p in
  match fst r with
  | Ok _ => state p = stateInit ∧ (state (snd r) = stateHandshook ∨ state (snd r) = stateExtended)
  | _ => state (snd r) = state p ∨ (state p = stateInit ∧ state (snd r) = stateHandshook)
  end.
Proof.
  unfold Handshake. cbv zeta. rewrite run_bind. cbn [gets].
  destruct (bool_decide (state p = stateInit)) eqn:Hs; cbn [guard]; rewrite run_bind; [rewrite run_ret|by left].
  apply bool_decide_eq_true in Hs.
  destruct (length infoHash =? 20)%nat; cbn [guard]; rewrite run_bind; [rewrite run_ret|by left].
  destruct (length peerID =? 20)%nat; cbn [guard]; rewrite run_bind; [rewrite run_ret|by left].
  rewrite run_bind. unfold conn_write. destruct (writes p) as [|w]; [by left|].
  rewrite run_bind. unfold conn_read. destruct (ReadFull handshakeLen _) as [[b r]|]; [|by left].
  rewrite run_bind. destruct (bool_decide (bval (nth 0 b _) = _)); cbn [guard]; [rewrite run_ret|by left].
  rewrite run_bind. destruct (bool_decide (slice b 1 _ = _)); cbn [guard]; [rewrite run_ret|by left].
  rewrite run_bind. destruct (bool_decide (slice b _ _ = infoHash)); cbn [guard]; [rewrite run_ret|by left].
  rewrite run_bind. cbn [modify]. set (q := with_state _ stateHandshook).
  destruct (negb _); [|split; [done|by left]].
  rewrite run_bind. pose proof (sendExtendedHandshake_state q) as S1. destruct (sendExtendedHandshake q) as [[[]|e| |] q1];
    cbn [snd fst] in *; try (by right; rewrite S1).
  rewrite run_bind. pose proof (readExtendedHandshake_state maxPreExtHandshakeMsgs q1) as S2. unfold readExtendedHandshake.
  destruct (readExtendedHandshake_loop _ q1) as [[[]|e| |] q2]; cbn [snd fst] in *; try (by right; rewrite S2, S1).
  split; [done|by right].
Qed.
End states.

(** ** Properties *)

(** The handshake accepts a peer only if its 68 bytes are a length of 19, "BitTorrent protocol", eight
    reserved bytes, our info hash and a peer id; a success moves the state from init to handshook or
    extended, and a failure never further than handshook; outside the initial state the handshake is
    refused. *)
Theorem handshake_recognizes `{B : Bencoder} infoHash peerID p :
  let r := Handshake infoHash peerID p in
  match fst r with
  | Ok _ =>
      state p = stateInit ∧ (state (snd r) = stateHandshook ∨ state (snd r) = stateExtended) ∧
      ∃ reserved id rest, rx p = handshake_bytes reserved infoHash id ++ rest
        ∧ length reserved = 8%nat ∧ length infoHash = 20%nat ∧ length id = 20%nat
  | _ => state (snd r) = state p ∨ (state p = stateInit ∧ state (snd r) = stateHandshook)
  end.
Proof.
  cbv zeta. pose proof (Handshake_state infoHash peerID p) as Hs. cbv zeta in Hs.
  destruct (Handshake infoHash peerID p) as [[[]|e| |] p'] eqn:E; cbn [fst snd] in *; try done.
  destruct Hs as [H1 H2]. apply Handshake_ok in E as (_ & Lh & _ & _ & res & id & rest & Er & Lr & Li).
  split; [done|]. split; [done|]. by exists res, id, rest.
Qed.

(** C4. Two instances of the client complete the handshake with each other: given the 68 bytes and the
    extended handshake the other side writes, possibly after up to fifteen other messages, [Handshake]
    succeeds in the extended state with ut_metadata and ut_pex under the other side's ids; and what it
    wrote is what the other side expects in turn. *)
Theorem handshake_mutual `{B : Bencoder} infoHash peerID peerID' early_msgs rest p :
  BencoderLaws B →
  state p = stateInit → length infoHash = 20%nat → length peerID = 20%nat → length peerID' = 20%nat →
  (2 ≤ writes p)%nat → Forall early early_msgs → (length early_msgs < 16)%nat →
  rx p = handshake_bytes reserved_bytes infoHash peerID' ++ flat_map frame early_msgs ++ frame ext_message ++ rest →
  ∃ p', Handshake infoHash peerID p = (Ok tt, p')
    ∧ state p' = stateExtended ∧ rx p' = rest ∧ MetadataSize p' = 0
    ∧ PeerExtensions p' = <[str "ut_metadata" := 1]> {[ str "ut_pex" := 2 ]}
    ∧ PeerChoking p' = choking_after (PeerChoking p) early_msgs
    ∧ tx p' = tx p ++ handshake_bytes reserved_bytes infoHash peerID ++ frame ext_message.
Proof.
  intros HB Hs Hh Hp Hp' Hw Hearly Hn Hrx. destruct (writes p) as [|[|w]] eqn:Ew; [lia..|].
  rewrite (Handshake_run infoHash peerID p (S w) reserved_bytes peerID' _ Hs Hh Hp Ew eq_refl Hp' Hrx).
  change (supports_ext reserved_bytes) with true. cbn iota. rewrite run_bind.
  rewrite (sendExtendedHandshake_run _ w) by done. rewrite run_bind. unfold readExtendedHandshake.
  rewrite (readExtendedHandshake_run early_msgs (encode ext_handshake_dict)
             (<[str "ut_metadata" := 1]> {[ str "ut_pex" := 2 ]}) 0 Hearly) with (rest := rest); try done.
  - cbn [modify]. eexists. split; [reflexivity|]. split_and!; try done. cbn [tx with_ext with_choking with_rx with_write with_state].
    by rewrite <- app_assoc.
  - vm_compute. lia.
  - apply decode_ext_ok; [|reflexivity]. decide_now.
Qed.

Module SampleHandshake.
Definition hash := str "aaaaaaaaaaaaaaaaaaaa".
Definition alice := str "-WL0020-aaaaaaaaaaaa".
Definition bob := str "-WL0020-bbbbbbbbbbbb".
Definition early_msgs : list (option Message) := [Some (mkMsg MsgBitfield [Byte.xf0]); Some (mkMsg MsgUnchoke [])].
Definition conn : PeerConn :=
  Connect (handshake_bytes reserved_bytes hash bob ++ flat_map frame early_msgs ++ frame ext_message ++ [Byte.x00]) 2 0.

Lemma early_ok : Forall early early_msgs.
Proof.
  unfold early_msgs. repeat (apply Forall_cons; split); try apply Forall_nil_2;
    (split; [vm_compute; congruence|]; intros x E; injection E as <-; discriminate).
Qed.
End SampleHandshake.

Lemma handshake_mutual_witness :
  state SampleHandshake.conn = stateInit ∧
  ∃ p', @Handshake ref_codec SampleHandshake.hash SampleHandshake.alice SampleHandshake.conn = (Ok tt, p')
    ∧ state p' = stateExtended ∧ rx p' = [Byte.x00] ∧ MetadataSize p' = 0
    ∧ PeerExtensions p' = <[str "ut_metadata" := 1]> {[ str "ut_pex" := 2 ]}
    ∧ PeerChoking p' = choking_after true SampleHandshake.early_msgs
    ∧ tx p' = [] ++ handshake_bytes reserved_bytes SampleHandshake.hash SampleHandshake.alice ++ frame ext_message.
Proof.
  split; [reflexivity|].
  apply (@handshake_mutual ref_codec SampleHandshake.hash SampleHandshake.alice SampleHandshake.bob
    SampleHandshake.early_msgs [Byte.x00] SampleHandshake.conn).
  - exact ref_codec_laws.
  - reflexivity.
  - reflexivity.
  - reflexivity.
  - reflexivity.
  - vm_compute. lia.
  - exact SampleHandshake.early_ok.
  - vm_compute. lia.
  - reflexivity.
Defined.
