(* ===== verification/Paths.v ===== *)
(** * Relative paths: the part of Go's [path/filepath] the program uses, and its own checks

    [filepath.Clean], [IsAbs], [Join], [Dir] and [Base] on a Unix system (a volume name is always
    empty), [safeJoin] of [internal/torrent/parse.go] and [Storage.resolve] of
    [internal/client/storage.go].  The theorems: both checks only let through paths whose components
    are all ordinary names, so the path stays below the directory it is joined to. *)

From S2P Require Import Prelude GoStrings.
From Stdlib Require Import ZArith Lia.

(** ** Package [filepath] *)

Definition slash : byte := chr "/".
Definition dot : bytes := str ".".
Definition dotdot : bytes := str "..".

Definition IsAbs (path : bytes) : bool := has_prefix path (str "/").
Definition VolumeName (_ : bytes) : bytes := [].

(** The components kept so far, the last one first. *)
Definition clean_step (rooted : bool) (stack : list bytes) (c : bytes) : list bytes :=
  if bool_decide (c = [] ∨ c = dot) then stack
  else if bool_decide (c = dotdot) then
    match stack with
    | top :: rest => if bool_decide (top = dotdot) then dotdot :: stack else rest
    | [] => if rooted then [] else [dotdot]
    end
  else c :: stack.

Definition Clean (path : bytes) : bytes :=
  if bool_decide (path = []) then dot else
  let rooted := IsAbs path in
  let kept := rev (foldl (clean_step rooted) [] (split slash path)) in
  if rooted then slash :: join slash kept else if bool_decide (kept = []) then dot else join slash kept.

(** [filepath.Join]: leading empty elements are dropped. *)
Fixpoint drop_empty (parts : list bytes) : list bytes :=
  match parts with [] :: r => drop_empty r | _ => parts end.
Definition Join (parts : list bytes) : bytes :=
  match drop_empty parts with [] => [] | ps => Clean (join slash ps) end.

Example clean_ex : Clean (str "a/./b//../c/") = str "a/c" ∧ Clean (str "../../x") = str "../../x"
  ∧ Clean (str "/../a") = str "/a" ∧ Clean (str "a/..") = dot.
Proof. vm_compute. done. Qed.

(** ** The checks *)

Inductive patherr :=
| EmptyPath | EmptyComponent | DotComponent | SeparatorInComponent | AbsoluteComponent | AbsolutePath
| ResolvesToRoot | Escapes.

#[export] Instance patherr_eq_decision : EqDecision patherr.
Proof. solve_decision. Defined.

(** [safeJoin], component by component *)
Definition check_component (p : bytes) : result patherr unit :=
  if bool_decide (p = []) then Err EmptyComponent
  else if bool_decide (p = dot ∨ p = dotdot) then Err DotComponent
  else if contains_any p [chr "/"; chr "\"; Byte.x00] then Err SeparatorInComponent
  else if IsAbs p || bool_decide (VolumeName p ≠ []) then Err AbsoluteComponent
  else Ok tt.

Fixpoint check_components (parts : list bytes) : result patherr unit :=
  match parts with
  | [] => Ok tt
  | p :: ps => _ ← check_component p; check_components ps
  end.

Definition safeJoin (parts : list bytes) : result patherr bytes :=
  if bool_decide (parts = []) then Err EmptyPath else
  _ ← check_components parts;
  let joined := Join parts in
  if IsAbs joined then Err AbsolutePath else Ok joined.

(** [Storage.resolve] *)
Definition resolve (rel : bytes) : result patherr bytes :=
  if bool_decide (rel = []) then Err EmptyPath else
  if IsAbs rel || bool_decide (VolumeName rel ≠ []) then Err AbsolutePath else
  let cleaned := Clean rel in
  if bool_decide (cleaned = dot) then Err ResolvesToRoot else
  if bool_decide (cleaned = dotdot) || has_prefix cleaned (str "../") then Err Escapes else Ok cleaned.

(** ** Lemmas *)

(** An ordinary file name. *)
Definition plain (c : bytes) : Prop := c ≠ [] ∧ c ≠ dot ∧ c ≠ dotdot ∧ slash ∉ c.
Definition safe_name (c : bytes) : Prop := plain c ∧ (chr "\" ∉ c) ∧ Byte.x00 ∉ c.

Lemma check_component_ok p : check_component p = Ok tt ↔ safe_name p.
Proof.
  unfold check_component, safe_name, plain. split.
  - intros H. case_bool_decide; [done|]. case_bool_decide as Hd; [done|]. destruct (contains_any _ _) eqn:E; [done|].
    pose proof (proj1 (contains_any_false _ _) E) as Hc.
    assert (Hn : ∀ b, b ∈ [chr "/"; chr "\"; Byte.x00] → b ∉ p) by (intros b Hb Hp; exact (Hc b Hp Hb)).
    split_and!; try tauto; apply Hn; set_solver.
  - intros ((H1 & H2 & H3 & H4) & H5 & H6). rewrite !bool_decide_false by tauto.
    rewrite (proj2 (contains_any_false _ _)).
    + unfold IsAbs, has_prefix. rewrite bool_decide_false; [done|]. intros E. destruct p as [|b p]; [done|].
      injection E as ->. apply H4. left.
    + intros b Hb Hin. repeat (apply elem_of_cons in Hin as [->|Hin]; [done|]). by apply elem_of_nil in Hin.
Qed.

Lemma check_components_ok parts : check_components parts = Ok tt ↔ Forall safe_name parts.
Proof.
  induction parts as [|p ps IH]; [split; [constructor|done]|]. cbn [check_components].
  rewrite Forall_cons, <- check_component_ok, <- IH. destruct (check_component p) as [[]| | |]; simpl_res;
    [tauto|split; [done|by intros [? _]]..].
Qed.

Lemma check_components_returns parts : returns (check_components parts).
Proof.
  induction parts as [|p ps IH]; [done|]. cbn [check_components]. unfold check_component. by repeat case_match.
Qed.

Lemma clean_plain rooted parts : Forall plain parts → ∀ stack, foldl (clean_step rooted) stack parts = rev parts ++ stack.
Proof.
  induction 1 as [|p ps (H1 & H2 & H3 & _) Hps IH]; intros stack; [done|]. cbn [foldl].
  unfold clean_step at 2. rewrite !bool_decide_false by tauto. rewrite IH. cbn [rev]. by rewrite <- app_assoc.
Qed.

Lemma join_nonempty sep p ps : p ≠ [] → join sep (p :: ps) ≠ [].
Proof. intros H. destruct ps; simpl; [done|]. by destruct p. Qed.

Lemma join_head sep p ps : p ≠ [] → head (join sep (p :: ps)) = head p.
Proof. intros H. destruct p as [|b p]; [done|]. by destruct ps. Qed.

Lemma IsAbs_head path : IsAbs path = true ↔ head path = Some slash.
Proof.
  unfold IsAbs, has_prefix. rewrite bool_decide_eq_true. destruct path as [|b path]; [done|]. simpl.
  rewrite take_0. split; [by intros [= ->]|by intros [= ->]].
Qed.

Lemma plain_not_abs p ps : plain p → IsAbs (join slash (p :: ps)) = false.
Proof.
  intros (H1 & _ & _ & H4). apply not_true_is_false. rewrite IsAbs_head, join_head by done.
  destruct p as [|b p]; [done|]. intros [= ->]. apply H4. left.
Qed.

Lemma plain_no_slash parts : Forall plain parts → Forall (λ p, slash ∉ p) parts.
Proof. intros H. eapply Forall_impl; [exact H|]. intros p (_ & _ & _ & ?). done. Qed.

(** Cleaning changes nothing when every component is an ordinary name. *)
Lemma Clean_join parts : parts ≠ [] → Forall plain parts → Clean (join slash parts) = join slash parts.
Proof.
  intros Hn Hp. unfold Clean. destruct parts as [|p ps]; [done|]. pose proof (proj1 (Forall_cons_1 _ _ _ Hp)) as Hh.
  rewrite bool_decide_false by (apply join_nonempty, Hh). rewrite plain_not_abs by done.
  rewrite split_join by (done || by apply plain_no_slash). rewrite (clean_plain _ _ Hp), app_nil_r, rev_involutive.
  by rewrite bool_decide_false.
Qed.

Lemma Clean_abs parts : parts ≠ [] → Forall plain parts → Clean (slash :: join slash parts) = slash :: join slash parts.
Proof.
  intros Hn Hp. unfold Clean. rewrite bool_decide_false by done. cbv zeta. change (IsAbs (slash :: join slash parts)) with true.
  change (slash :: join slash parts) with ([] ++ slash :: join slash parts) at 1. rewrite split_app by apply not_elem_of_nil.
  rewrite split_join by (done || by apply plain_no_slash). cbn [foldl]. change (clean_step true [] []) with (@nil bytes).
  by rewrite (clean_plain _ _ Hp), app_nil_r, rev_involutive.
Qed.

Lemma drop_empty_plain parts : Forall plain parts → drop_empty parts = parts.
Proof. destruct 1 as [|p ps (Hp & _) _]; [done|]. by destruct p. Qed.

Lemma safeJoin_ok parts path : safeJoin parts = Ok path ↔ parts ≠ [] ∧ Forall safe_name parts ∧ path = join slash parts.
Proof.
  assert (Hplain : Forall safe_name parts → Forall plain parts).
  { intros H. eapply Forall_impl; [exact H|]. by intros x [? _]. }
  assert (Hj : parts ≠ [] → Forall safe_name parts → Join parts = join slash parts ∧ IsAbs (Join parts) = false).
  { intros Hn Hs. assert (Ej : Join parts = join slash parts).
    { unfold Join. rewrite drop_empty_plain by auto. destruct parts; [done|]. by apply Clean_join; auto. }
    split; [done|]. rewrite Ej. destruct parts as [|p ps]; [done|]. apply plain_not_abs. by apply Forall_cons_1, proj1 in Hs as [? _]. }
  unfold safeJoin. split.
  - intros H. case_bool_decide as Hn; [done|]. destruct (check_components parts) as [[]| | |] eqn:E; try done. simpl_res.
    apply check_components_ok in E. destruct (Hj Hn E) as [Ej Ea]. rewrite Ea in H. injection H as <-. done.
  - intros (Hn & Hs & ->). rewrite bool_decide_false by done. rewrite (proj2 (check_components_ok _) Hs). simpl_res.
    destruct (Hj Hn Hs) as [Ej Ea]. by rewrite Ea, Ej.
Qed.

(** The stack [Clean] builds holds ordinary names above leading parent references. *)
Definition kept_ok (rooted : bool) (stack : list bytes) : Prop :=
  ∃ names ups, stack = names ++ replicate ups dotdot ∧ Forall plain names ∧ (rooted = true → ups = 0).

Lemma clean_step_kept rooted stack c : slash ∉ c → kept_ok rooted stack → kept_ok rooted (clean_step rooted stack c).
Proof.
  intros Hc (names & ups & -> & Hn & Hu). unfold clean_step. case_bool_decide as H1; [by exists names, ups|].
  case_bool_decide as H2.
  - destruct names as [|n names].
    + destruct ups as [|ups]; simpl.
      * destruct rooted; [by exists [], 0|]. exists [], 1. split; [done|]. split; [constructor|done].
      * exists [], (S (S ups)). split; [done|]. split; [constructor|].
        intros E. specialize (Hu E). lia.
    + simpl. apply Forall_cons in Hn as [(_ & _ & H3 & _) Hn]. rewrite bool_decide_false by done. by exists names, ups.
  - exists (c :: names), ups. split; [done|]. split; [|done]. constructor; [|done]. split_and!; [tauto..|done].
Qed.

Lemma clean_kept rooted comps : Forall (λ c, slash ∉ c) comps → ∀ stack, kept_ok rooted stack →
  kept_ok rooted (foldl (clean_step rooted) stack comps).
Proof. induction 1 as [|c comps Hc Hcs IH]; intros stack Hs; [done|]. cbn [foldl]. by apply IH, clean_step_kept. Qed.

(** The result of [resolve] is made of ordinary names. *)
Lemma resolve_ok rel path : resolve rel = Ok path →
  ∃ names, names ≠ [] ∧ Forall plain names ∧ path = join slash names
    ∧ rev names = foldl (clean_step false) [] (split slash rel).
Proof.
  unfold resolve. intros H. case_bool_decide as Hn; [done|]. destruct (IsAbs rel) eqn:Ha; [done|]. cbn [orb] in H.
  change (bool_decide (VolumeName rel ≠ [])) with false in H. cbv iota in H.
  unfold Clean in H. rewrite (bool_decide_false (rel = [])) in H by done. rewrite Ha in H. cbv iota zeta in H.
  set (st := foldl (clean_step false) [] (split slash rel)) in *.
  destruct (clean_kept false (split slash rel) (split_no_sep slash rel) []) as (names & ups & E & Hp & _).
  { by exists [], 0. }
  fold st in E. destruct ups as [|ups].
  - cbn [replicate] in E. rewrite app_nil_r in E. rewrite E in *.
    destruct names as [|n names]; [done|]. exists (rev (n :: names)).
    assert (Hr : rev (n :: names) ≠ []) by (intros Er; apply (f_equal length) in Er; rewrite length_rev in Er; done).
    rewrite (bool_decide_false _ Hr) in H. split; [done|]. split; [by apply Forall_rev|].
    split; [|by rewrite rev_involutive].
    case_bool_decide; [done|]. destruct (_ || _); [done|]. by injection H as <-.
  - (* a leading parent reference survives: the result starts with ".." *)
    exfalso. assert (Er : ∃ l, rev st = dotdot :: l).
    { rewrite E, rev_app_distr. exists (replicate ups dotdot ++ rev names). rewrite app_comm_cons. f_equal.
      change (dotdot :: replicate ups dotdot) with (replicate (S ups) dotdot).
      generalize (S ups) as k. clear. intros k. induction k as [|k IH]; [done|]. cbn [replicate rev]. rewrite IH.
      symmetry. apply replicate_cons_app. }
    destruct Er as [l Er]. rewrite Er in H. rewrite (bool_decide_false (dotdot :: l = [])) in H by done.
    destruct l as [|x l].
    + cbn [join] in H. rewrite bool_decide_false in H by done. by rewrite bool_decide_true in H by done.
    + change (join slash (dotdot :: x :: l)) with (str "../" ++ join slash (x :: l)) in H.
      rewrite has_prefix_app, orb_true_r in H. by case_bool_decide.
Qed.

Lemma resolve_join parts : parts ≠ [] → Forall plain parts → resolve (join slash parts) = Ok (join slash parts).
Proof.
  intros Hn Hp. unfold resolve. rewrite Clean_join by done. destruct parts as [|p ps]; [done|].
  pose proof (Forall_cons_1 _ _ _ Hp) as [Hh Ht]. rewrite bool_decide_false by (apply join_nonempty, Hh).
  rewrite plain_not_abs by done. cbn [orb]. rewrite bool_decide_false by (intros E; by apply E).
  assert (Hsp : split slash (join slash (p :: ps)) = p :: ps) by (apply split_join; [by apply plain_no_slash|done]).
  destruct Hh as (H1 & H2 & H3 & H4).
  rewrite bool_decide_false by (intros E; rewrite E in Hsp; simplify_eq/=).
  rewrite bool_decide_false by (intros E; rewrite E in Hsp; simplify_eq/=).
  destruct (has_prefix _ _) eqn:E; [|done]. exfalso. apply has_prefix_spec in E as [r E]. rewrite E in Hsp.
  change (str "../" ++ r) with (dotdot ++ slash :: r) in Hsp. rewrite split_app in Hsp; [by simplify_eq|].
  vm_compute. intros Hin. repeat (apply elem_of_cons in Hin as [?|Hin]; [done|]). by apply elem_of_nil in Hin.
Qed.

(** [filepath.Dir]: the path up to its last separator, cleaned. *)
Definition Dir (path : bytes) : bytes := Clean (join slash (removelast (split slash path) ++ [[]])).

(** [filepath.Base]: the last component, trailing separators dropped. *)
Definition Base (path : bytes) : bytes :=
  if bool_decide (path = []) then dot else
  let p := rev (trim_left (rev path) slash) in
  if bool_decide (p = []) then [slash] else default [] (last (split slash p)).

Example base_ex : Base (str "/a/b.bin") = str "b.bin" ∧ Base (str "x//") = str "x" ∧ Base (str "//") = str "/" ∧ Base [] = dot.
Proof. vm_compute. done. Qed.

Lemma resolve_iff rel path : resolve rel = Ok path ↔ rel ≠ [] ∧ IsAbs rel = false ∧
  ∃ names, names ≠ [] ∧ Forall plain names ∧ path = join slash names
    ∧ rev names = foldl (clean_step false) [] (split slash rel).
Proof.
  split.
  - intros H. split_and!; [| |by apply resolve_ok].
    + intros ->. done.
    + unfold resolve in H. case_bool_decide; [done|]. by destruct (IsAbs rel).
  - intros (Hn & Ha & names & Hnn & Hp & -> & Er).
    assert (Ec : Clean rel = join slash names).
    { unfold Clean. rewrite (bool_decide_false (rel = [])), Ha, <- Er by done. cbv zeta iota.
      rewrite rev_involutive. by rewrite bool_decide_false. }
    pose proof (resolve_join _ Hnn Hp) as R. unfold resolve in *. rewrite (bool_decide_false (rel = [])), Ha, Ec by done.
    rewrite Clean_join in R by done. destruct (bool_decide (join slash names = [])) eqn:E0; [done|].
    destruct (IsAbs (join slash names)); [done|]. exact R.
Qed.

(** ** The properties *)

(** C21. [safeJoin] (the path check of the torrent parser) never panics, and accepts exactly the
    nonempty lists of components that are ordinary file names (not empty, not "." or "..", without a
    slash, a backslash or a NUL); the path it returns is those components joined with slashes. *)
Theorem safeJoin_correct parts :
  returns (safeJoin parts) ∧
  ∀ path, safeJoin parts = Ok path ↔ parts ≠ [] ∧ Forall safe_name parts ∧ path = join slash parts.
Proof.
  split; [|intros path; apply safeJoin_ok]. unfold safeJoin. case_bool_decide; [done|].
  pose proof (check_components_returns parts) as H1. destruct (check_components parts); try done. simpl_res. by case_match.
Qed.

(** [Storage.resolve] keeps every path below the download directory: it accepts exactly the
    relative paths that, once their "." and ".." are resolved textually, still name something below
    the directory, and what it returns is a list of ordinary names joined with slashes (no "..", no
    absolute path); a path [safeJoin] built goes through unchanged. *)
Theorem resolve_contained :
  (∀ rel path, resolve rel = Ok path ↔ rel ≠ [] ∧ IsAbs rel = false ∧
     ∃ names, names ≠ [] ∧ Forall plain names ∧ path = join slash names
       ∧ rev names = foldl (clean_step false) [] (split slash rel)) ∧
  (∀ parts path, safeJoin parts = Ok path → resolve path = Ok path).
Proof.
  split; [exact resolve_iff|]. intros parts path (Hn & Hs & ->)%safeJoin_ok. apply resolve_join; [done|].
  eapply Forall_impl; [exact Hs|]. by intros x [? _].
Qed.
