(* ===== verification/Merkle.v ===== *)
(** * Hashing a file for a hybrid torrent

    [hashReaderHybrid], [buildMerkleTree], [extractPieceLayer] and their helpers of
    [internal/torrent/torrent.go]: one pass over a file yields the v1 SHA-1 hash of every piece and the
    v2 Merkle tree of its 16 KiB blocks.  The theorem relates the streaming loop and the level-by-level
    tree to direct definitions over the whole content, for a given hash of the missing leaves.  BEP 52 sets these to
    zero bytes; the code sets them to the SHA-256 of 32 zero bytes, so that its trees are those of BEP 52 only
    where no leaf is missing. *)

From S2P Require Import Prelude Bencode Sha.
From Stdlib Require Import ZArith Lia.
Local Open Scope Z_scope.

(** ** Powers of two *)

Definition BlockSize : Z := 16384.
Definition DefaultPieceLength : Z := 256 * 1024.
Definition MinPieceLength : Z := 16 * 1024.

Definition isPowerOfTwo (n : Z) : bool := (0 <? n) && (Z.land n (wrap64 (n - 1)) =? 0).

(** [for p < n { p <<= 1 }] *)
Fixpoint shift_loop (fuel : nat) (p n : Z) : result Empty_set Z :=
  match fuel with
  | O => NoFuel
  | S f => if p <? n then shift_loop f (wrap64 (Z.shiftl p 1)) n else Ok p
  end.
Definition nextPowerOfTwo (n : Z) : result Empty_set Z := if isPowerOfTwo n then Ok n else shift_loop 64 1 n.

(** [bits.TrailingZeros] of a 64-bit [uint] *)
Fixpoint trailing_zeros (fuel : nat) (x : Z) : nat :=
  match fuel with
  | O => O
  | S f => if Z.odd x then O else S (trailing_zeros f (Z.shiftr x 1))
  end.
Definition TrailingZeros (x : Z) : nat := trailing_zeros 64 (uwrap 64 x).

(** ** The Merkle tree *)

Definition zeroHash : bytes := sha256 (zeros 32).

(** The inner loop: [current[i+1]] is out of range when the level has an odd length. *)
Fixpoint next_level (current : list bytes) : result Empty_set (list bytes) :=
  match current with
  | [] => Ok []
  | [_] => Panic
  | a :: b :: r => next ← next_level r; Ok (sha256 (a ++ b) :: next)
  end.

(** [for len(current) > 1]: the levels above [current]. *)
Fixpoint level_loop (fuel : nat) (current : list bytes) : result Empty_set (list (list bytes)) :=
  if (1 <? length current)%nat then
    match fuel with
    | O => NoFuel
    | S f => next ← next_level current; levels ← level_loop f next; Ok (next :: levels)
    end
  else Ok [].

Definition buildMerkleTree (leaves : list bytes) : result Empty_set (list (list bytes)) :=
  if bool_decide (leaves = []) then Ok [[zeroHash]] else
  target ← nextPowerOfTwo (zlen leaves);
  let padded := leaves ++ replicate (Z.to_nat target - length leaves) zeroHash in
  levels ← level_loop (length padded) padded;
  Ok (padded :: levels).

Definition extractPieceLayer (tree : list (list bytes)) (pieceLen numPieces : Z) : result Empty_set (list bytes) :=
  let blocksPerPiece := Z.quot pieceLen BlockSize in
  let level := TrailingZeros blocksPerPiece in
  match tree !! level with
  | None => Ok []
  | Some layer =>
      let n := if zlen layer <? numPieces then zlen layer else numPieces in
      if n <? 0 then Panic else Ok (take (Z.to_nat n) layer)
  end.

(** ** One pass over a reader *)

(** What a reader delivers: its bytes, and whether it then fails instead of ending. *)
Record Reader := { content : bytes; fails : bool }.

Record fileResult := {
  size : Z; v2Entry : list (bytes * tree); pieceLayerHash : list bytes; v1PiecesSHA1 : bytes }.

Inductive rerr := ReadFailed.

Record hashing := { blockHashes : list bytes; v1Pieces : bytes; sha1Hasher : bytes; bytesInPiece : Z }.

(** One block of the loop: [sha1Hasher] is the bytes written since its last reset. *)
Definition hash_block (pieceLen : Z) (block : bytes) (st : hashing) : hashing :=
  let blockHashes := blockHashes st ++ [sha256 block] in
  let hasher := sha1Hasher st ++ block in
  let n := bytesInPiece st + zlen block in
  if pieceLen <=? n
  then {| blockHashes := blockHashes; v1Pieces := v1Pieces st ++ sha1 hasher; sha1Hasher := []; bytesInPiece := 0 |}
  else {| blockHashes := blockHashes; v1Pieces := v1Pieces st; sha1Hasher := hasher; bytesInPiece := n |}.

(** [io.ReadFull] fills the buffer, or ends short with the reader's error. *)
Fixpoint hash_loop (fuel : nat) (pieceLen : Z) (r : Reader) (st : hashing) : result rerr hashing :=
  match fuel with
  | O => NoFuel
  | S f =>
      let block := take (Z.to_nat BlockSize) (content r) in
      let st := if (0 <? length block)%nat then hash_block pieceLen block st else st in
      if (length block <? Z.to_nat BlockSize)%nat
      then if fails r then Err ReadFailed else Ok st
      else hash_loop f pieceLen {| content := drop (Z.to_nat BlockSize) (content r); fails := fails r |} st
  end.

Definition cast {A} (r : result Empty_set A) : result rerr A := map_err (λ e : Empty_set, match e with end) r.

Definition hashReaderHybrid (r : Reader) (size pieceLen : Z) : result rerr fileResult :=
  if size =? 0
  then Ok {| size := 0; v2Entry := [(str "length", BInt 0)]; pieceLayerHash := []; v1PiecesSHA1 := [] |} else
  st ← hash_loop (S (length (content r))) pieceLen r {| blockHashes := []; v1Pieces := []; sha1Hasher := []; bytesInPiece := 0 |};
  let v1 := if 0 <? bytesInPiece st then v1Pieces st ++ sha1 (sha1Hasher st) else v1Pieces st in
  tree ← cast (buildMerkleTree (blockHashes st));
  match last tree with
  | Some (root :: _) =>
      if pieceLen =? 0 then Panic else
      let numPieces := Z.quot (wrap64 (size + pieceLen - 1)) pieceLen in
      layer ← (if 1 <? numPieces then cast (extractPieceLayer tree pieceLen numPieces) else Ok []);
      Ok {| size := size; v2Entry := [(str "length", BInt size); (str "pieces root", BStr root)];
            pieceLayerHash := layer; v1PiecesSHA1 := v1 |}
  | _ => Panic
  end.

(** ** Direct definitions *)

(** The root of the complete tree of height [h] over the first [2^h] hashes of [l]. *)
Fixpoint root_of (h : nat) (l : list bytes) : bytes :=
  match h with
  | O => nth 0 l []
  | S d => sha256 (root_of d l ++ root_of d (drop (2 ^ d) l))
  end.

(** The block hashes of some bytes, completed to [2^h] leaves by [pad]. *)
Definition padded_leaves (pad : bytes) (h : nat) (data : bytes) : list bytes :=
  let l := sha256 <$> chunks (Z.to_nat BlockSize) data in l ++ replicate (2 ^ h - length l) pad.

(** The height of the tree over a nonempty content. *)
Definition tree_height (data : bytes) : nat := Nat.log2_up (length (chunks (Z.to_nat BlockSize) data)).

(** The hybrid hashes of [data] cut in pieces of [2^k] blocks, with [pad] for the leaves that are missing. *)
Definition merkle_hashes (pad : bytes) (k : nat) (data : bytes) : fileResult :=
  let pieces := chunks (2 ^ k * Z.to_nat BlockSize) data in
  {| size := zlen data;
     v2Entry := [(str "length", BInt (zlen data));
                 (str "pieces root", BStr (root_of (tree_height data) (padded_leaves pad (tree_height data) data)))];
     pieceLayerHash := if (1 <? length pieces)%nat then (λ p, root_of k (padded_leaves pad k p)) <$> pieces else [];
     v1PiecesSHA1 := flat_map sha1 pieces |}.

(** Those of BEP 52: the missing leaf hashes are zero bytes. *)
Definition bep52_hashes : nat → bytes → fileResult := merkle_hashes (zeros 32).
(** Those of this repository: the missing leaf hashes are the hash of 32 zero bytes. *)
Definition hybrid_hashes : nat → bytes → fileResult := merkle_hashes (sha256 (zeros 32)).

Local Abbreviation block_leaves := (padded_leaves zeroHash).

(** ** Lemmas: chunks *)

Lemma chunks_fuel_eq n : (0 < n)%nat → ∀ f l, (length l ≤ f)%nat → chunks_fuel f n l = chunks n l.
Proof.
  intros Hn f. induction f as [f IH] using lt_wf_ind. intros l Hl. unfold chunks. destruct l as [|b l]; [by destruct f|].
  destruct f as [|f]; [simpl in Hl; lia|]. cbn [chunks_fuel length]. f_equal.
  assert (length (drop n (b :: l)) ≤ length l)%nat by (rewrite length_drop; simpl; lia).
  simpl in Hl. by rewrite (IH f), (IH (length l)) by lia.
Qed.

Lemma chunks_cons n l : (0 < n)%nat → l ≠ [] → chunks n l = take n l :: chunks n (drop n l).
Proof.
  intros Hn Hl. unfold chunks at 1. destruct l as [|b l]; [done|]. cbn [length chunks_fuel]. f_equal.
  apply chunks_fuel_eq; [done|]. rewrite length_drop. simpl. lia.
Qed.

Lemma chunks_app n a r : (0 < n)%nat → length a = n → chunks n (a ++ r) = a :: chunks n r.
Proof.
  intros Hn <-. rewrite chunks_cons; [by rewrite take_app_length, drop_app_length|done|].
  intros E. apply (f_equal length) in E. rewrite length_app in E. simpl in E. lia.
Qed.

Lemma chunks_short n l : l ≠ [] → (length l ≤ n)%nat → chunks n l = [l].
Proof.
  intros Hl Hn. assert (0 < length l)%nat by (destruct l; simpl; [done|lia]). rewrite chunks_cons by (done || lia).
  by rewrite take_ge, drop_ge by done.
Qed.

Lemma lookup_chunks n : (0 < n)%nat → ∀ i l,
  chunks n l !! i = if decide (i * n < length l)%nat then Some (take n (drop (i * n) l)) else None.
Proof.
  intros Hn i. induction i as [|i IH]; intros l; (destruct (decide (l = [])) as [->|Hl]; [rewrite ?decide_False by (simpl; lia); done|]);
    rewrite chunks_cons by done; assert (0 < length l)%nat by (destruct l; simpl; [done|lia]).
  - by rewrite decide_True by lia.
  - cbn [lookup list_lookup]. change (list_lookup i (chunks n (drop n l))) with (chunks n (drop n l) !! i).
    rewrite IH, length_drop, drop_drop. replace (n + i * n)%nat with (S i * n)%nat by lia.
    case_decide; case_decide; (done || lia).
Qed.

Lemma chunks_drop n m l : (0 < n)%nat → chunks n (drop (m * n) l) = drop m (chunks n l).
Proof.
  intros Hn. apply list_eq. intros i. rewrite lookup_drop, !lookup_chunks, length_drop, drop_drop by done.
  replace (m * n + i * n)%nat with ((m + i) * n)%nat by lia. case_decide; case_decide; (done || lia).
Qed.

Lemma chunks_take n m l : (0 < n)%nat → chunks n (take (m * n) l) = take m (chunks n l).
Proof.
  intros Hn. apply list_eq. intros i. rewrite lookup_chunks, length_take by done. destruct (decide (i < m)%nat) as [Hi|Hi].
  - rewrite lookup_take_lt by done. rewrite lookup_chunks by done. case_decide; case_decide; try done; [|nia|nia].
    f_equal. rewrite skipn_firstn_comm, take_take. f_equal. nia.
  - rewrite lookup_ge_None_2 by (rewrite length_take; lia). rewrite decide_False by nia. done.
Qed.

Lemma length_chunks n l : (0 < n)%nat → (length l ≤ length (chunks n l) * n < length l + n)%nat.
Proof.
  intros Hn. pose proof (lookup_chunks n Hn (length (chunks n l)) l) as H1.
  rewrite lookup_ge_None_2 in H1 by done. case_decide; [done|].
  destruct (length (chunks n l)) as [|k] eqn:E; [lia|].
  pose proof (lookup_chunks n Hn k l) as H2. destruct (lookup_lt_is_Some_2 (chunks n l) k) as [x Ex]; [lia|].
  rewrite Ex in H2. case_decide; [|done]. lia.
Qed.

(** ** Lemmas: powers of two *)

Lemma wrap64_pred n : 0 < n < 2 ^ 63 → wrap64 (n - 1) = n - 1.
Proof. intros. apply wrap64_id. unfold in_int64. lia. Qed.

Lemma isPowerOfTwo_ok n : n < 2 ^ 63 → isPowerOfTwo n = true ↔ ∃ k, 0 ≤ k ∧ n = 2 ^ k.
Proof.
  intros Hn. unfold isPowerOfTwo. rewrite andb_true_iff, Z.ltb_lt, Z.eqb_eq. split.
  - intros [Hp He]. rewrite wrap64_pred in He by lia. exists (Z.log2 n). split; [apply Z.log2_nonneg|].
    destruct (Z.log2_spec n Hp) as [H1 H2]. destruct (Z.le_gt_cases n (2 ^ Z.log2 n)); [lia|exfalso].
    (* the top bit survives in n - 1 *)
    assert (Hb : Z.testbit (Z.land n (n - 1)) (Z.log2 n) = true).
    { rewrite Z.land_spec, Z.bit_log2 by done. simpl. replace (Z.log2 n) with (Z.log2 (n - 1)) at 1.
      - apply Z.bit_log2. pose proof (Z.pow_pos_nonneg 2 (Z.log2 n) ltac:(lia) (Z.log2_nonneg n)). lia.
      - apply Z.log2_unique; [apply Z.log2_nonneg|]. lia. }
    rewrite He, Z.bits_0 in Hb. done.
  - intros (k & Hk & ->). split; [lia|]. rewrite wrap64_pred by lia.
    rewrite Z.sub_1_r, <- Z.ones_equiv, Z.land_ones, Z.mod_same by lia. done.
Qed.

Lemma shift_loop_ok n : n ≤ 2 ^ 62 → ∀ f j, 0 ≤ j ≤ 62 → (63 - j ≤ Z.of_nat f) → (2 ^ j < 2 * n) →
  ∃ k, shift_loop f (2 ^ j) n = Ok (2 ^ k) ∧ j ≤ k ≤ 62 ∧ n ≤ 2 ^ k ∧ 2 ^ k < 2 * n.
Proof.
  intros Hn f. induction f as [|f IH]; intros j Hj Hf Hl; [lia|]. cbn [shift_loop].
  destruct (Z.ltb_spec (2 ^ j) n) as [H|H]; [|exists j; split_and!; (done || lia)].
  assert (j < 62) by (apply (Z.pow_lt_mono_r_iff 2); lia).
  rewrite Z.shiftl_mul_pow2 by lia. replace (2 ^ j * 2 ^ 1) with (2 ^ (j + 1)) by (by rewrite Z.pow_add_r by lia).
  assert (2 ^ (j + 1) ≤ 2 ^ 62) by (apply Z.pow_le_mono_r; lia).
  rewrite wrap64_id by (unfold in_int64; lia).
  destruct (IH (j + 1)) as (k & -> & Hk & K1 & K2); [lia|lia|rewrite Z.pow_add_r by lia; lia|].
  exists k. split; [done|]. split; [lia|done].
Qed.

(** The least power of two not below [n]. *)
Lemma nextPowerOfTwo_ok n : (0 < n)%nat → Z.of_nat n ≤ 2 ^ 62 → nextPowerOfTwo (Z.of_nat n) = Ok (2 ^ Z.of_nat (Nat.log2_up n)).
Proof.
  intros Hn Hb. unfold nextPowerOfTwo. assert (Hpow : ∀ k, Z.of_nat (2 ^ k) = 2 ^ Z.of_nat k) by (intros; apply Nat2Z.inj_pow).
  assert (Huniq : ∀ k : nat, Z.of_nat n ≤ 2 ^ Z.of_nat k → 2 ^ Z.of_nat k < 2 * Z.of_nat n → k = Nat.log2_up n).
  { intros k H1 H2. rewrite <- Hpow in H1, H2. destruct k as [|k].
    { assert (n = 1)%nat by (simpl in H1; lia). by subst. }
    symmetry. apply Nat.log2_up_unique; [lia|]. simpl in *. lia. }
  destruct (isPowerOfTwo (Z.of_nat n)) eqn:E.
  - apply isPowerOfTwo_ok in E as (k & Hk & E); [|lia]. rewrite E. f_equal. f_equal. rewrite <- (Z2Nat.id k) by done. f_equal.
    apply Huniq; rewrite Z2Nat.id, <- E by done; lia.
  - destruct (shift_loop_ok (Z.of_nat n) Hb 64 0) as (k & E1 & Hk & H1 & H2); [lia|lia|lia|].
    change (2 ^ 0) with 1 in E1. rewrite E1. f_equal. f_equal. rewrite <- (Z2Nat.id k) by lia. f_equal.
    apply Huniq; rewrite Z2Nat.id by lia; done.
Qed.

Lemma TrailingZeros_pow k : (k < 64)%nat → TrailingZeros (2 ^ Z.of_nat k) = k.
Proof.
  intros Hk. unfold TrailingZeros, uwrap. rewrite Z.mod_small by (split; [lia|apply Z.pow_lt_mono_r; lia]).
  revert Hk. generalize 64%nat as f. induction k as [|k IH]; intros f Hf; (destruct f as [|f]; [lia|]); [done|].
  cbn [trailing_zeros]. rewrite Nat2Z.inj_succ, Z.pow_succ_r, Z.odd_mul by lia. cbn [Z.odd andb].
  rewrite Z.shiftr_div_pow2, Z.mul_comm, Z.div_mul by lia. f_equal. apply IH. lia.
Qed.

(** ** Lemmas: the levels of the tree *)

Lemma root_of_ext h : ∀ l k, (∀ i, (i < 2 ^ h)%nat → l !! i = k !! i) → root_of h l = root_of h k.
Proof.
  induction h as [|h IH]; intros l k H; cbn [root_of].
  - rewrite !nth_lookup. rewrite H by (simpl; lia). done.
  - cbn [Nat.pow] in H. rewrite (IH l k) by (intros; apply H; lia). f_equal. f_equal. apply IH. intros i Hi.
    rewrite !lookup_drop. apply H. lia.
Qed.

Lemma next_level_ok m : ∀ l, length l = (2 * m)%nat → ∃ next, next_level l = Ok next ∧ length next = m ∧
  ∀ i a b, l !! (2 * i)%nat = Some a → l !! (2 * i + 1)%nat = Some b → next !! i = Some (sha256 (a ++ b)).
Proof.
  induction m as [|m IH]; intros l Hl.
  - destruct l; [|done]. exists []. by split_and!.
  - destruct l as [|a [|b l]]; simpl in Hl; try lia. destruct (IH l) as (next & E & Hn & Hi); [lia|].
    exists (sha256 (a ++ b) :: next). cbn [next_level]. rewrite E. split; [done|]. split; [simpl; lia|].
    intros [|i] x y; [by simpl; intros; simplify_eq|]. replace (2 * S i)%nat with (S (S (2 * i))) by lia.
    replace (S (S (2 * i)) + 1)%nat with (S (S (2 * i + 1))) by lia. apply Hi.
Qed.

(** [current] is level [j] of the tree of height [j + d] over [leaves]. *)
Definition is_level (leaves : list bytes) (j d : nat) (current : list bytes) : Prop :=
  length current = (2 ^ d)%nat ∧ ∀ i, (i < 2 ^ d)%nat → current !! i = Some (root_of j (drop (i * 2 ^ j) leaves)).

Lemma is_level_next leaves j d current : is_level leaves j (S d) current →
  ∃ next, next_level current = Ok next ∧ is_level leaves (S j) d next.
Proof.
  intros [Hl Hc]. destruct (next_level_ok (2 ^ d) current) as (next & E & Hn & Hi); [done|].
  exists next. split; [done|]. split; [done|]. intros i Hlt. cbn [Nat.pow] in Hc.
  rewrite (Hi i (root_of j (drop (2 * i * 2 ^ j) leaves)) (root_of j (drop ((2 * i + 1) * 2 ^ j) leaves))) by (apply Hc; lia).
  cbn [root_of]. rewrite drop_drop. replace (i * 2 ^ S j)%nat with (2 * i * 2 ^ j)%nat by (cbn [Nat.pow]; lia).
  by replace ((2 * i + 1) * 2 ^ j)%nat with (2 * i * 2 ^ j + 2 ^ j)%nat by lia.
Qed.

Lemma level_loop_ok leaves d : ∀ j current f, is_level leaves j d current → (d ≤ f)%nat →
  ∃ levels, level_loop f current = Ok levels ∧ length levels = d ∧
    ∀ m, (m ≤ d)%nat → ∃ level, (current :: levels) !! m = Some level ∧ is_level leaves (j + m) (d - m) level.
Proof.
  induction d as [|d IH]; intros j current f Hc Hf.
  - exists []. destruct Hc as [Hl Hc]. cbn [Nat.pow] in Hl. split; [destruct f; cbn [level_loop]; by rewrite Hl|]. split; [done|].
    intros m Hm. assert (m = 0)%nat as -> by lia. exists current. split; [done|]. rewrite Nat.add_0_r. by split.
  - destruct f as [|f]; [lia|]. cbn [level_loop]. destruct Hc as [Hl Hc]. pose proof (Nat.pow_nonzero 2 d ltac:(lia)).
    rewrite (proj2 (Nat.ltb_lt _ _)) by (rewrite Hl; simpl; lia).
    destruct (is_level_next leaves j d current) as (next & -> & Hnext); [by split|]. simpl_res.
    destruct (IH (S j) next f Hnext) as (levels & -> & Hlen & Hm); [lia|]. simpl_res.
    exists (next :: levels). split; [done|]. split; [simpl; lia|]. intros [|m] Hm'.
    + exists current. split; [done|]. rewrite Nat.add_0_r. by split.
    + destruct (Hm m) as (level & E & Hlev); [lia|]. exists level. split; [done|]. by rewrite Nat.add_succ_r.
Qed.

(** The tree over at most [2^62] leaves: level [m] holds the roots of the subtrees of height [m] of
    the padded leaves, and the last level is the root. *)
Lemma buildMerkleTree_ok leaves : leaves ≠ [] → zlen leaves ≤ 2 ^ 62 →
  let h := Nat.log2_up (length leaves) in
  let padded := leaves ++ replicate (2 ^ h - length leaves) zeroHash in
  ∃ tree, buildMerkleTree leaves = Ok tree ∧ length tree = S h ∧
    ∀ m, (m ≤ h)%nat → ∃ level, tree !! m = Some level ∧ is_level padded m (h - m) level.
Proof.
  intros Hl Hb h padded. assert (Hpos : (0 < length leaves)%nat) by (destruct leaves; simpl; [done|lia]).
  unfold buildMerkleTree. rewrite bool_decide_false by done. unfold zlen in *. rewrite nextPowerOfTwo_ok by lia. simpl_res.
  fold h. replace (Z.to_nat (2 ^ Z.of_nat h)) with (2 ^ h)%nat.
  2:{ change 2 with (Z.of_nat 2). by rewrite <- Nat2Z.inj_pow, Nat2Z.id. }
  fold padded. assert (Hle : (length leaves ≤ 2 ^ h)%nat).
  { subst h. destruct (decide (length leaves = 1)%nat) as [->|]; [simpl; lia|]. apply Nat.log2_up_spec. lia. }
  assert (Hpl : length padded = (2 ^ h)%nat) by (subst padded; rewrite length_app, length_replicate; lia).
  destruct (level_loop_ok padded h 0 padded (length padded)) as (levels & -> & Hlen & Hm).
  - split; [done|]. intros i Hi. cbn [root_of]. rewrite nth_lookup, lookup_drop. simpl. rewrite Nat.mul_1_r, Nat.add_0_r.
    destruct (lookup_lt_is_Some_2 padded i) as [x ->]; [lia|done].
  - rewrite Hpl. pose proof (Nat.pow_gt_lin_r 2 h ltac:(lia)). lia.
  - simpl_res. exists (padded :: levels). split; [done|]. split; [simpl; lia|]. exact Hm.
Qed.

(** ** Lemmas: the pass over the reader *)

Abbreviation B := (Z.to_nat BlockSize).

Lemma B_pos : (0 < B)%nat.
Proof. unfold BlockSize. lia. Qed.
Lemma B_val : Z.of_nat B = BlockSize.
Proof. unfold BlockSize. lia. Qed.

(** A piece length of [2^k] blocks. *)
Definition piece_bytes (k : nat) : nat := (2 ^ k * B)%nat.

Lemma piece_bytes_pos k : (B ≤ piece_bytes k)%nat.
Proof. unfold piece_bytes. pose proof (Nat.pow_nonzero 2 k ltac:(lia)). nia. Qed.

(** The state of the pass after [done] bytes of whole blocks: the full pieces are hashed, the rest is
    in the hasher. *)
Record pass (k : nat) (st : hashing) : Prop := {
  pass_count : bytesInPiece st = zlen (sha1Hasher st);
  pass_room : (length (sha1Hasher st) < piece_bytes k)%nat;
  pass_blocks : ∃ m, length (sha1Hasher st) = (m * B)%nat }.

Lemma pass_fits k st : pass k st → (length (sha1Hasher st) + B ≤ piece_bytes k)%nat.
Proof.
  intros [_ H (m & Hm)]. rewrite Hm in *. unfold piece_bytes in *.
  apply Nat.mul_lt_mono_pos_r in H; [|apply B_pos]. pose proof (Nat.mul_le_mono_r (S m) (2 ^ k) B H). lia.
Qed.

(** The v1 hashes with the last partial piece flushed. *)
Definition flushed (st : hashing) : bytes :=
  if 0 <? bytesInPiece st then v1Pieces st ++ sha1 (sha1Hasher st) else v1Pieces st.

Lemma flush_short k st data : pass k st → (length data < B)%nat →
  let st' := if (0 <? length data)%nat then hash_block (Z.of_nat (piece_bytes k)) data st else st in
  blockHashes st' = blockHashes st ++ (sha256 <$> chunks B data)
  ∧ flushed st' = v1Pieces st ++ flat_map sha1 (chunks (piece_bytes k) (sha1Hasher st ++ data)).
Proof.
  intros Hp Hd. pose proof (pass_fits _ _ Hp) as Hfit. destruct Hp as [Hc Hr _]. cbn zeta.
  destruct (Nat.ltb_spec 0 (length data)) as [Hpos|Hz].
  - assert (Hne : data ≠ []) by (intros ->; simpl in Hpos; lia). rewrite (chunks_short B) by (done || lia).
    assert (Hnn : sha1Hasher st ++ data ≠ []) by (by intros [_ ?]%app_nil).
    rewrite (chunks_short (piece_bytes k)) by (done || rewrite length_app; lia). unfold hash_block, flushed. rewrite Hc.
    unfold zlen. destruct (Z.leb_spec (Z.of_nat (piece_bytes k)) (Z.of_nat (length (sha1Hasher st)) + Z.of_nat (length data))); [lia|].
    cbn. rewrite app_nil_r. split; [done|]. destruct (Z.ltb_spec 0 (Z.of_nat (length (sha1Hasher st)) + Z.of_nat (length data))); [done|lia].
  - destruct data; [|simpl in Hz; lia]. rewrite !app_nil_r. split; [done|]. unfold flushed. rewrite Hc. unfold zlen.
    destruct (sha1Hasher st) as [|b l] eqn:E; [simpl; by rewrite app_nil_r|].
    rewrite chunks_short by (simpl in *; (done || lia)). simpl. by rewrite app_nil_r.
Qed.

Lemma hash_block_full k st block : pass k st → length block = B →
  let st' := hash_block (Z.of_nat (piece_bytes k)) block st in
  pass k st' ∧ blockHashes st' = blockHashes st ++ [sha256 block]
  ∧ ∀ rest, v1Pieces st' ++ flat_map sha1 (chunks (piece_bytes k) (sha1Hasher st' ++ rest))
          = v1Pieces st ++ flat_map sha1 (chunks (piece_bytes k) (sha1Hasher st ++ block ++ rest)).
Proof.
  intros Hp Hb. pose proof (pass_fits _ _ Hp) as Hfit. pose proof (piece_bytes_pos k) as Hk. pose proof B_pos.
  destruct Hp as [Hc Hr (m & Hm)]. unfold hash_block. rewrite Hc. unfold zlen. rewrite Hb. cbn zeta.
  destruct (Z.leb_spec (Z.of_nat (piece_bytes k)) (Z.of_nat (length (sha1Hasher st)) + Z.of_nat B)) as [Hle|Hlt].
  - split; [|split; [done|]]. { constructor; cbn; [done|lia|by exists 0%nat]. }
    intros rest. cbn [v1Pieces sha1Hasher]. rewrite (app_assoc (sha1Hasher st)).
    rewrite (chunks_app (piece_bytes k) (sha1Hasher st ++ block)) by (rewrite ?length_app; lia). cbn. by rewrite app_assoc.
  - split; [|split; [done|]].
    { constructor; cbn; [unfold zlen; rewrite length_app; lia|rewrite length_app; lia|]. exists (S m). rewrite length_app. lia. }
    intros rest. cbn. by rewrite app_assoc.
Qed.

Lemma hash_loop_ok k : ∀ f data st, (length data < f)%nat → pass k st →
  ∃ st', hash_loop f (Z.of_nat (piece_bytes k)) {| content := data; fails := false |} st = Ok st'
    ∧ blockHashes st' = blockHashes st ++ (sha256 <$> chunks B data)
    ∧ flushed st' = v1Pieces st ++ flat_map sha1 (chunks (piece_bytes k) (sha1Hasher st ++ data)).
Proof.
  induction f as [|f IH]; intros data st Hf Hp; [lia|]. cbn [hash_loop content fails]. pose proof B_pos.
  destruct (Nat.ltb_spec (length (take B data)) B) as [Hs|Hl].
  - rewrite length_take in Hs. rewrite take_ge by lia. eexists. split; [done|]. apply flush_short; [done|lia].
  - rewrite length_take in Hl. rewrite (proj2 (Nat.ltb_lt _ _)) by (rewrite length_take; lia).
    destruct (hash_block_full k st (take B data) Hp) as (Hp' & Hb & Hv); [rewrite length_take; lia|].
    destruct (IH (drop B data) (hash_block (Z.of_nat (piece_bytes k)) (take B data) st)) as (st' & -> & Hb' & Hv');
      [rewrite length_drop; lia|done|].
    exists st'. split; [done|]. rewrite Hb', Hv', Hv, Hb, take_drop. split; [|done].
    assert (data ≠ []) by (intros ->; simpl in Hl; lia). by rewrite (chunks_cons B data), fmap_cons, <- app_assoc by done.
Qed.

(** ** Lemmas: the piece layer *)

Lemma piece_bytes_Z k : Z.of_nat (piece_bytes k) = 2 ^ Z.of_nat k * BlockSize.
Proof. unfold piece_bytes. rewrite Nat2Z.inj_mul, B_val. f_equal. apply Nat2Z.inj_pow. Qed.

(** The number of pieces the code computes. *)
Lemma numPieces_ok n data : (0 < n)%nat → zlen data + Z.of_nat n < 2 ^ 62 →
  Z.quot (wrap64 (zlen data + Z.of_nat n - 1)) (Z.of_nat n) = Z.of_nat (length (chunks n data)).
Proof.
  intros Hn Hb. pose proof (length_chunks n data Hn) as Hc. pose proof (zlen_nonneg data). unfold zlen in *.
  rewrite wrap64_id by (unfold in_int64; lia). rewrite Z.quot_div_nonneg by lia.
  symmetry. apply (Z.div_unique_pos _ _ _ (Z.of_nat (length data) + Z.of_nat n - 1 - Z.of_nat (length (chunks n data)) * Z.of_nat n)); [|lia].
  rewrite <- Nat2Z.inj_mul. lia.
Qed.

(** The padded leaves, seen from the first block of piece [i]. *)
Lemma leaves_of_piece h k data i : (k ≤ h)%nat → (length (chunks B data) ≤ 2 ^ h)%nat → ((i + 1) * 2 ^ k ≤ 2 ^ h)%nat →
  root_of k (drop (i * 2 ^ k) (block_leaves h data))
  = root_of k (block_leaves k (take (piece_bytes k) (drop (i * piece_bytes k) data))).
Proof.
  intros Hk Hh Hi. apply root_of_ext. intros j Hj. unfold padded_leaves, piece_bytes. pose proof B_pos.
  rewrite (Nat.mul_assoc i), chunks_take, chunks_drop by done. rewrite lookup_drop.
  set (cs := chunks B data) in *. assert (Hlen : length (sha256 <$> take (2 ^ k) (drop (i * 2 ^ k) cs)) = (2 ^ k `min` (length cs - i * 2 ^ k))%nat).
  { by rewrite length_fmap, length_take, length_drop. }
  destruct (decide (i * 2 ^ k + j < length cs)%nat) as [Hin|Hout].
  - rewrite !lookup_app_l by (rewrite ?Hlen, ?length_fmap; lia). rewrite !list_lookup_fmap.
    by rewrite lookup_take_lt, lookup_drop by done.
  - rewrite !lookup_app_r by (rewrite ?Hlen, ?length_fmap; lia). rewrite !lookup_replicate_2; [done|rewrite Hlen; lia|rewrite length_fmap; nia].
Qed.

Lemma tree_height_ok data : data ≠ [] → (0 < length (chunks B data) ≤ 2 ^ tree_height data)%nat.
Proof.
  intros Hd. pose proof (length_chunks B data B_pos). assert (0 < length data)%nat by (destruct data; simpl; [done|lia]).
  assert (Hpos : (0 < length (chunks B data))%nat) by (destruct (length (chunks B data)); lia).
  split; [done|]. unfold tree_height. destruct (decide (length (chunks B data) = 1)%nat) as [->|]; [simpl; lia|].
  apply Nat.log2_up_spec. lia.
Qed.

Lemma count_blocks_pieces k data : (length (chunks (piece_bytes k) data) * 2 ^ k < length (chunks B data) + 2 ^ k)%nat.
Proof.
  pose proof (length_chunks (piece_bytes k) data) as H1. pose proof (piece_bytes_pos k). pose proof B_pos.
  specialize (H1 ltac:(lia)). pose proof (length_chunks B data B_pos) as H2. unfold piece_bytes in *.
  apply (Nat.mul_lt_mono_pos_r B); [done|]. rewrite Nat.mul_add_distr_r, <- Nat.mul_assoc. lia.
Qed.

(** The layer of the pieces, when there are several. *)
Lemma extractPieceLayer_ok k data tree : data ≠ [] → (1 < length (chunks (piece_bytes k) data))%nat → (k < 62)%nat →
  let h := tree_height data in
  (∀ m, (m ≤ h)%nat → ∃ level, tree !! m = Some level ∧ is_level (block_leaves h data) m (h - m) level) →
  extractPieceLayer tree (Z.of_nat (piece_bytes k)) (Z.of_nat (length (chunks (piece_bytes k) data)))
  = Ok ((λ p, root_of k (block_leaves k p)) <$> chunks (piece_bytes k) data).
Proof.
  intros Hd Hn Hk h Ht. pose proof (tree_height_ok data Hd) as [Hb0 Hb]. fold h in Hb.
  pose proof (count_blocks_pieces k data) as Hc. set (n := length (chunks (piece_bytes k) data)) in *.
  assert (Hkh : (k ≤ h)%nat).
  { apply Nat.lt_le_incl, (Nat.pow_lt_mono_r_iff 2); [lia|]. nia. }
  assert (Hnl : (n ≤ 2 ^ (h - k))%nat).
  { assert (E : (2 ^ h = 2 ^ (h - k) * 2 ^ k)%nat) by (rewrite <- Nat.pow_add_r; f_equal; lia).
    rewrite E in Hb. pose proof (Nat.pow_nonzero 2 k ltac:(lia)). nia. }
  destruct (Ht k Hkh) as (level & El & Hll & Hlev). unfold extractPieceLayer. rewrite piece_bytes_Z.
  rewrite Z.quot_mul by done. rewrite TrailingZeros_pow by lia. rewrite El. unfold zlen. rewrite Hll.
  destruct (Z.ltb_spec (Z.of_nat (2 ^ (h - k))) (Z.of_nat n)); [lia|]. destruct (Z.ltb_spec (Z.of_nat n) 0); [lia|].
  f_equal. rewrite Nat2Z.id. apply list_eq. intros i. rewrite list_lookup_fmap.
  destruct (decide (i < n)%nat) as [Hi|Hi].
  - rewrite lookup_take_lt, Hlev by lia. pose proof (piece_bytes_pos k). pose proof B_pos.
    destruct (lookup_lt_is_Some_2 (chunks (piece_bytes k) data) i Hi) as [p Ep]. rewrite Ep. simpl. f_equal.
    rewrite lookup_chunks in Ep by lia. case_decide; [|done]. injection Ep as <-. apply leaves_of_piece; [done|done|].
    assert (E : (2 ^ h = 2 ^ (h - k) * 2 ^ k)%nat) by (rewrite <- Nat.pow_add_r; f_equal; lia). rewrite E. nia.
  - rewrite lookup_ge_None_2 by (rewrite length_take; lia). by rewrite lookup_ge_None_2 by (fold n; lia).
Qed.

Lemma hashReaderHybrid_ok k data : data ≠ [] → zlen data + Z.of_nat (piece_bytes k) < 2 ^ 62 →
  hashReaderHybrid {| content := data; fails := false |} (zlen data) (Z.of_nat (piece_bytes k)) = Ok (hybrid_hashes k data).
Proof.
  intros Hd Hb. pose proof (piece_bytes_pos k) as Hk. pose proof B_pos as HB. unfold hashReaderHybrid.
  assert (Hlen : 0 < zlen data) by (destruct data; unfold zlen; simpl; [done|lia]).
  destruct (Z.eqb_spec (zlen data) 0); [lia|]. cbn [content].
  destruct (hash_loop_ok k (S (length data)) data {| blockHashes := []; v1Pieces := []; sha1Hasher := []; bytesInPiece := 0 |})
    as (st & -> & Hbh & Hv1); [lia|constructor; cbn; [done|lia|by exists 0%nat]|].
  simpl_res. unfold flushed in Hv1. cbn [blockHashes v1Pieces sha1Hasher app] in *. rewrite Hv1, Hbh.
  pose proof (tree_height_ok data Hd) as [Hn0 Hnh]. pose proof (length_chunks B data HB) as HnB.
  destruct (buildMerkleTree_ok (sha256 <$> chunks B data)) as (tree & -> & Hlt & Hlev).
  { intros E. apply (f_equal length) in E. rewrite length_fmap in E. simpl in E. lia. }
  { unfold zlen in *. rewrite length_fmap. nia. }
  rewrite length_fmap in Hlt, Hlev. fold (tree_height data) in Hlt, Hlev. cbn [cast map_err]. simpl_res.
  assert (Hleaves : (sha256 <$> chunks B data) ++ replicate (2 ^ tree_height data - length (chunks B data)) zeroHash
    = block_leaves (tree_height data) data) by (unfold padded_leaves; by rewrite length_fmap).
  rewrite Hleaves in Hlev. destruct (Hlev (tree_height data) ltac:(lia)) as (top & Etop & Htl & Htop).
  rewrite Nat.sub_diag in *. rewrite last_lookup, Hlt. cbn [pred]. rewrite Etop.
  destruct top as [|root [|]]; try done. specialize (Htop 0%nat ltac:(simpl; lia)). injection Htop as ->.
  destruct (Z.eqb_spec (Z.of_nat (piece_bytes k)) 0); [lia|]. rewrite numPieces_ok by lia.
  unfold hybrid_hashes, merkle_hashes. fold (piece_bytes k). fold zeroHash. destruct (Z.ltb_spec 1 (Z.of_nat (length (chunks (piece_bytes k) data)))) as [Hs|Hs].
  - rewrite (proj2 (Nat.ltb_lt _ _)) by lia. rewrite (extractPieceLayer_ok k data tree Hd); [done|lia| |done].
    assert (2 ^ Z.of_nat k < 2 ^ 62) by (rewrite piece_bytes_Z in Hb; unfold BlockSize in Hb; lia).
    apply Z.pow_lt_mono_r_iff in H; lia.
  - by rewrite (proj2 (Nat.ltb_ge _ _)) by lia.
Qed.

(** ** Lemmas: where no leaf is missing *)

Lemma padded_full pad pad' h data : length (chunks B data) = (2 ^ h)%nat → padded_leaves pad h data = padded_leaves pad' h data.
Proof. intros H. unfold padded_leaves. by rewrite length_fmap, H, Nat.sub_diag. Qed.

Lemma full_piece_blocks k p : length p = piece_bytes k → length (chunks B p) = (2 ^ k)%nat.
Proof. intros H. pose proof (length_chunks B p B_pos) as L. pose proof B_pos. rewrite H in L. unfold piece_bytes in L.
  revert L. generalize (length (chunks B p)), (2 ^ k)%nat. generalize dependent B. intros b Hb x y L. nia. Qed.

(** The pieces of a content of [2^h] blocks have all their blocks. *)
Lemma full_pieces h k data i p : length (chunks B data) = (2 ^ h)%nat → (1 < length (chunks (piece_bytes k) data))%nat →
  chunks (piece_bytes k) data !! i = Some p → length (chunks B p) = (2 ^ k)%nat.
Proof.
  intros Hn Hs Hp. pose proof (piece_bytes_pos k). pose proof B_pos. pose proof (count_blocks_pieces k data) as Hc. rewrite Hn in Hc.
  pose proof (Nat.pow_nonzero 2 k ltac:(lia)). pose proof (lookup_lt_Some _ _ _ Hp) as Hi.
  set (n := length (chunks (piece_bytes k) data)) in *. pose proof (Nat.mul_le_mono_r 2 n (2 ^ k) ltac:(lia)).
  assert (Hkh : (k ≤ h)%nat) by (apply Nat.lt_le_incl, (Nat.pow_lt_mono_r_iff 2); lia).
  assert (E : (2 ^ h = 2 ^ (h - k) * 2 ^ k)%nat) by (rewrite <- Nat.pow_add_r; f_equal; lia).
  rewrite lookup_chunks in Hp by lia. case_decide; [|done]. injection Hp as <-. unfold piece_bytes. rewrite (Nat.mul_assoc i), chunks_take, chunks_drop by done.
  rewrite length_take, length_drop, Hn, E. rewrite E in Hc.
  assert (Hny : (n < 2 ^ (h - k) + 1)%nat) by (apply (Nat.mul_lt_mono_pos_r (2 ^ k)); lia).
  pose proof (Nat.mul_le_mono_r (i + 1) (2 ^ (h - k)) (2 ^ k) ltac:(lia)). lia.
Qed.

Lemma bep52_ok k data h : length (chunks B data) = (2 ^ h)%nat → hybrid_hashes k data = bep52_hashes k data.
Proof.
  intros Hn. assert (Hh : tree_height data = h).
  { unfold tree_height. rewrite Hn. apply Nat.log2_up_pow2. lia. }
  unfold hybrid_hashes, bep52_hashes, merkle_hashes. rewrite Hh, (padded_full (sha256 (zeros 32)) (zeros 32) h data Hn). f_equal.
  fold (piece_bytes k). destruct (Nat.ltb_spec 1 (length (chunks (piece_bytes k) data))) as [Hs|]; [|done].
  apply list_fmap_ext. intros i p Hp. by rewrite (padded_full (sha256 (zeros 32)) (zeros 32) k p (full_pieces h k data i p Hn Hs Hp)).
Qed.

(** ** The property *)

(** C17. The single streaming pass of [hashReaderHybrid] computes the hybrid hashes of a file: for a
    nonempty content read completely and a piece length of [2^k] blocks, the v1 hashes are the SHA-1
    of the consecutive pieces, "pieces root" is the root of the complete binary tree over the block
    hashes, and the piece layer holds, for each piece of a file with several, the root of that piece's
    own subtree, where the leaves that are missing to the next power of two are the SHA-256 of 32 zero
    bytes.  BEP 52 has 32 zero bytes there ([zero_padding_differs]); the hashes are those of BEP 52 when no
    leaf is missing, that is when the number of blocks is a power of two, and otherwise still are in the
    piece layer for every piece that is full. *)
Theorem hashReaderHybrid_correct k data : data ≠ [] → zlen data + Z.of_nat (piece_bytes k) < 2 ^ 62 →
  hashReaderHybrid {| content := data; fails := false |} (zlen data) (Z.of_nat (piece_bytes k)) = Ok (merkle_hashes (sha256 (zeros 32)) k data)
  ∧ ((∃ h, length (chunks B data) = (2 ^ h)%nat) →
     hashReaderHybrid {| content := data; fails := false |} (zlen data) (Z.of_nat (piece_bytes k)) = Ok (bep52_hashes k data))
  ∧ (∀ i p, chunks (piece_bytes k) data !! i = Some p → length p = piece_bytes k →
     pieceLayerHash (merkle_hashes (sha256 (zeros 32)) k data) !! i = pieceLayerHash (bep52_hashes k data) !! i).
Proof.
  intros Hd Hb. pose proof (hashReaderHybrid_ok k data Hd Hb) as H. split; [exact H|]. split.
  - intros [h Hh]. by rewrite H, (bep52_ok k data h Hh).
  - intros i p Hp Hl. unfold bep52_hashes, merkle_hashes. cbn [pieceLayerHash]. fold (piece_bytes k). destruct (1 <? _)%nat; [|done].
    rewrite !list_lookup_fmap, Hp. cbn [fmap option_fmap option_map]. by rewrite (padded_full (sha256 (zeros 32)) (zeros 32) k p (full_piece_blocks k p Hl)).
Qed.

Theorem hashReaderHybrid_correct_witness :
  hashReaderHybrid {| content := zeros (Z.to_nat 40000); fails := false |} (zlen (zeros (Z.to_nat 40000))) (Z.of_nat (piece_bytes 0))
  = Ok (hybrid_hashes 0 (zeros (Z.to_nat 40000)))
  ∧ hashReaderHybrid {| content := zeros (Z.to_nat 65536); fails := false |} (zlen (zeros (Z.to_nat 65536))) (Z.of_nat (piece_bytes 0))
  = Ok (bep52_hashes 0 (zeros (Z.to_nat 65536))).
Proof.
  assert (Hne : ∀ n, zeros (Z.to_nat n) = [] → n ≤ 0) by (intros n E; apply (f_equal length) in E; rewrite length_zeros in E; cbn in E; lia).
  assert (Hz : ∀ n, 0 ≤ n < 2 ^ 60 → zlen (zeros (Z.to_nat n)) + Z.of_nat (piece_bytes 0) < 2 ^ 62)
    by (intros n Hn; unfold zlen; rewrite length_zeros, piece_bytes_Z; unfold BlockSize; lia).
  split.
  - exact (proj1 (hashReaderHybrid_correct 0 (zeros (Z.to_nat 40000)) (λ E, ltac:(pose proof (Hne _ E); lia)) (Hz 40000 ltac:(lia)))).
  - refine (proj1 (proj2 (hashReaderHybrid_correct 0 (zeros (Z.to_nat 65536)) (λ E, ltac:(pose proof (Hne _ E); lia)) (Hz 65536 ltac:(lia)))) _).
    exists 2%nat. pose proof (length_chunks B (zeros (Z.to_nat 65536)) B_pos) as L. rewrite length_zeros in L. revert L.
    generalize (length (chunks B (zeros (Z.to_nat 65536)))). intros n L. unfold BlockSize in L. change (2 ^ 2)%nat with 4%nat. lia.
Defined.

(** With a leaf missing the root is not the one of BEP 52. *)
Definition three_leaves : list bytes := replicate 3 (sha256 (str "block")).
Lemma zero_padding_differs : ∃ levels root, buildMerkleTree three_leaves = Ok levels ∧ last levels = Some [root]
  ∧ root = root_of 2 (three_leaves ++ [sha256 (zeros 32)]) ∧ root ≠ root_of 2 (three_leaves ++ [zeros 32]).
Proof.
  eexists _, _. split; [vm_compute; reflexivity|]. split; [reflexivity|]. split; [vm_compute; reflexivity|].
  assert (T : bool_decide (root_of 2 (three_leaves ++ [sha256 (zeros 32)]) = root_of 2 (three_leaves ++ [zeros 32])) = false) by (vm_compute; reflexivity).
  apply bool_decide_eq_false in T. intros E. apply T. rewrite <- E. vm_compute. reflexivity.
Qed.
