(* ===== verification/Magnet.v ===== *)
(** * Magnet links: [internal/torrent/magnet.go], and the link [finalize] of [torrent.go] writes

    The theorems: what [ParseMagnet] lets through is well formed, and it reads back every link the
    program creates. *)

From S2P Require Import Prelude Strconv Hex GoStrings NetAddr Bencode TrackerState Recognize Url.
From Stdlib Require Import ZArith Lia.
Local Open Scope Z_scope.

(** ** Definitions *)

Record Magnet := mkMagnet { InfoHashV1 : bytes; InfoHashV2 : bytes; DisplayName : bytes; Trackers : list bytes }.

Definition BestHash (m : Magnet) : bytes := if bool_decide (InfoHashV2 m ≠ []) then InfoHashV2 m else InfoHashV1 m.

(** [strings.ToLower] on ASCII letters.  Go also maps other letters, but never to a hexadecimal digit,
    and its result is only tested by [isHex]. *)
Definition lower (b : byte) : byte := if in_range (chr "A") (chr "Z") b then zbyte (bval b + 32) else b.
Definition ToLower (s : bytes) : bytes := lower <$> s.

Definition isHex (s : bytes) (n : nat) : bool := (length s =? n)%nat && forallb is_lower_hex s.

Inductive merr := NotMagnet | BadQuery | BadV1 | BadV2 | NoInfoHash.

Definition btih : bytes := str "urn:btih:".
Definition btmh : bytes := str "urn:btmh:1220".

(** The loop over [params["xt"]]. *)
Fixpoint parse_xts (xts : list bytes) (m : Magnet) : result merr Magnet :=
  match xts with
  | [] => Ok m
  | xt :: r =>
      if has_prefix xt btih then
        let v1 := ToLower (drop (length btih) xt) in
        if negb (isHex v1 40) then Err BadV1
        else parse_xts r (mkMagnet v1 (InfoHashV2 m) (DisplayName m) (Trackers m))
      else if has_prefix xt btmh then
        let v2 := ToLower (drop (length btmh) xt) in
        if negb (isHex v2 64) then Err BadV2
        else parse_xts r (mkMagnet (InfoHashV1 m) v2 (DisplayName m) (Trackers m))
      else parse_xts r m
  end.

Definition magnet_scheme : bytes := str "magnet:?".

Definition ParseMagnet (uri : bytes) : result merr Magnet :=
  if negb (has_prefix uri magnet_scheme) then Err NotMagnet else
  params ← of_option BadQuery (ParseQuery (drop (length magnet_scheme) uri));
  m ← parse_xts (default [] (params !! str "xt")) (mkMagnet [] [] [] []);
  if bool_decide (InfoHashV1 m = [] ∧ InfoHashV2 m = []) then Err NoInfoHash else
  Ok (mkMagnet (InfoHashV1 m) (InfoHashV2 m) (Get params (str "dn")) (default [] (params !! str "tr"))).

(** The link of [finalize]: [fmt.Sprintf("magnet:?xt=urn:btih:%s&xt=urn:btmh:1220%s&%s", ...)]. *)
Definition magnet_link (v1Hex hashHex name announceURL : bytes) : bytes :=
  let q : Values := <[str "tr" := [announceURL]]> {[str "dn" := [name]]} in
  magnet_scheme ++ str "xt=" ++ btih ++ v1Hex ++ str "&xt=" ++ btmh ++ hashHex ++ str "&" ++ Encode q.

(** ** Lemmas *)

Lemma lower_hex b : is_lower_hex b = true → lower b = b.
Proof. revert b. apply (forall_byte (λ b, is_lower_hex b = true → lower b = b)). vm_compute. done. Qed.

Lemma ToLower_hex s : forallb is_lower_hex s = true → ToLower s = s.
Proof.
  unfold ToLower. induction s as [|b s IH]; [done|]. cbn [forallb]. intros [H1 H2]%andb_true_iff. by rewrite fmap_cons, lower_hex, IH.
Qed.

Lemma isHex_encode l n : length l = n → isHex (hex_encode l) (2 * n) = true.
Proof.
  intros <-. unfold isHex. rewrite length_hex_encode, Nat.eqb_refl. simpl. apply forallb_forall. intros b Hb.
  pose proof (hex_encode_lower l) as F. rewrite Forall_forall in F. apply F. by apply list_elem_of_In.
Qed.

(** A query component without reserved characters is its own unescaping. *)
Definition literal (b : byte) : bool := bool_decide (b ∉ str "%+&=;").

Lemma unescape_literal s : Forall (λ b, literal b = true) s → QueryUnescape s = Some s.
Proof.
  induction 1 as [|b s Hb Hs IH]; [done|]. cbn [QueryUnescape]. rewrite IH.
  assert (Hb' : b ≠ chr "%" ∧ b ≠ chr "+").
  { unfold literal in Hb. apply bool_decide_eq_true in Hb. split; intros ->; apply Hb; vm_compute; set_solver. }
  rewrite !bool_decide_false by tauto. done.
Qed.

Lemma parse_literal_pair m k v : k ≠ [] → Forall (λ b, literal b = true) k → Forall (λ b, literal b = true) v →
  parse_pair (m, true) (k ++ chr "=" :: v) = (append_value m k v, true).
Proof.
  intros Hk Lk Lv. assert (Hno : ∀ c l, literal c = false → Forall (λ b, literal b = true) l → c ∉ l).
  { intros c l Hc Hl Hin. rewrite Forall_forall in Hl. rewrite (Hl c Hin) in Hc. done. }
  unfold parse_pair. rewrite bool_decide_false.
  2:{ rewrite elem_of_app, elem_of_cons. intros [H|[H|H]]; [revert H; by apply Hno|done|revert H; by apply Hno]. }
  rewrite bool_decide_false by (by destruct k). rewrite cut_app by (by apply Hno). by rewrite !unescape_literal.
Qed.

Lemma hex_literal s : forallb is_lower_hex s = true → Forall (λ b, literal b = true) s.
Proof.
  intros H. rewrite forallb_forall in H. apply Forall_forall. intros b Hb%list_elem_of_In%H. revert b Hb.
  apply (forall_byte (λ b, is_lower_hex b = true → literal b = true)). vm_compute. done.
Qed.

Lemma magnet_query_pairs v1 v2 name tr :
  drop (length magnet_scheme) (magnet_link v1 v2 name tr)
  = join (chr "&") [str "xt" ++ chr "=" :: btih ++ v1; str "xt" ++ chr "=" :: btmh ++ v2;
                    encode_pair (str "dn") name; encode_pair (str "tr") tr].
Proof.
  unfold magnet_link. rewrite drop_app_length. rewrite Encode_pairs.
  set (q := <[str "tr" := [tr]]> {[str "dn" := [name]]} : Values).
  assert (Ek : sort_strings (map_to_list q).*1 = [str "dn"; str "tr"]).
  { assert (P : (map_to_list q).*1 ≡ₚ [str "tr"; str "dn"]).
    { subst q. rewrite map_to_list_insert by done. by rewrite map_to_list_singleton. }
    apply sort_strings_unique; [rewrite P; apply perm_swap|]. repeat constructor; vm_compute; done. }
  rewrite Ek. unfold pairs_of. cbn [mbind list_bind].
  replace (q !! str "dn") with (Some [name]) by (symmetry; subst q; rewrite lookup_insert_ne by done; apply lookup_singleton_eq).
  replace (q !! str "tr") with (Some [tr]) by (symmetry; subst q; apply lookup_insert_eq).
  cbn [join app fmap list_fmap default from_option uncurry]. cbn [app].
  change (str "xt=") with (str "xt" ++ [chr "="]). change (str "&xt=") with (chr "&" :: str "xt" ++ [chr "="]).
  change (str "&") with [chr "&"]. by rewrite <- !app_assoc.
Qed.

Lemma encode_pair_literal k v : chr "&" ∉ k → chr "&" ∉ v → chr "&" ∉ k ++ chr "=" :: v.
Proof. intros Hk Hv. rewrite elem_of_app, elem_of_cons. intros [?|[?|?]]; done. Qed.

Lemma literal_notin c l : literal c = false → Forall (λ b, literal b = true) l → c ∉ l.
Proof. intros Hc Hl Hin. rewrite Forall_forall in Hl. rewrite (Hl c Hin) in Hc. done. Qed.

(** The parameters of a link the program writes. *)
Lemma magnet_link_params v1 v2 name tr : forallb is_lower_hex v1 = true → forallb is_lower_hex v2 = true →
  ∃ params, ParseQuery (drop (length magnet_scheme) (magnet_link v1 v2 name tr)) = Some params
    ∧ params !! str "xt" = Some [btih ++ v1; btmh ++ v2] ∧ params !! str "dn" = Some [name] ∧ params !! str "tr" = Some [tr].
Proof.
  intros H1%hex_literal H2%hex_literal. rewrite magnet_query_pairs.
  assert (L1 : Forall (λ b, literal b = true) (btih ++ v1)) by (apply Forall_app; split; [repeat constructor|done]).
  assert (L2 : Forall (λ b, literal b = true) (btmh ++ v2)) by (apply Forall_app; split; [repeat constructor|done]).
  assert (Lx : Forall (λ b, literal b = true) (str "xt")) by repeat constructor.
  unfold ParseQuery, parse_query. rewrite bool_decide_false by done. rewrite split_join; [|repeat constructor|done].
  - cbn [foldl]. rewrite !parse_literal_pair by done. rewrite !parse_encoded_pair.
    eexists. split; [reflexivity|]. unfold append_value. split_and!.
    + rewrite !lookup_insert_ne by done. rewrite lookup_insert_eq. by rewrite lookup_insert_eq.
    + rewrite lookup_insert_ne by done. rewrite lookup_insert_eq. by rewrite !lookup_insert_ne.
    + rewrite lookup_insert_eq. by rewrite !lookup_insert_ne.
  - apply encode_pair_literal; by apply literal_notin.
  - apply encode_pair_literal; by apply literal_notin.
  - apply encode_pair_no_amp.
  - apply encode_pair_no_amp.
Qed.

Lemma ParseMagnet_link v1 v2 name tr : isHex v1 40 = true → isHex v2 64 = true →
  ParseMagnet (magnet_link v1 v2 name tr) = Ok (mkMagnet v1 v2 name [tr]).
Proof.
  intros H1 H2. pose proof H1 as [_ F1]%andb_true_iff. pose proof H2 as [_ F2]%andb_true_iff.
  unfold ParseMagnet. replace (has_prefix (magnet_link v1 v2 name tr) magnet_scheme) with true by (symmetry; apply has_prefix_app).
  cbn [negb]. destruct (magnet_link_params v1 v2 name tr F1 F2) as (params & -> & Ex & Ed & Et). cbn [of_option]. simpl_res.
  rewrite Ex. cbn [default from_option id parse_xts]. rewrite has_prefix_app, drop_app_length, ToLower_hex, H1 by done. cbn [negb].
  replace (has_prefix (btmh ++ v2) btih) with false by done. rewrite has_prefix_app, drop_app_length, ToLower_hex, H2 by done.
  cbn [negb]. simpl_res. cbn [InfoHashV1 InfoHashV2 DisplayName Trackers]. rewrite bool_decide_false.
  - unfold Get. by rewrite Ed, Et.
  - intros [-> _]. done.
Qed.

Lemma parse_xts_ok xts : ∀ m, (InfoHashV1 m = [] ∨ isHex (InfoHashV1 m) 40 = true) →
  (InfoHashV2 m = [] ∨ isHex (InfoHashV2 m) 64 = true) →
  match parse_xts xts m with
  | Ok m' => (InfoHashV1 m' = [] ∨ isHex (InfoHashV1 m') 40 = true) ∧ (InfoHashV2 m' = [] ∨ isHex (InfoHashV2 m') 64 = true)
  | Err _ => True | _ => False
  end.
Proof.
  induction xts as [|xt xts IH]; intros m H1 H2; cbn [parse_xts]; [done|]. destruct (has_prefix xt btih).
  - destruct (isHex (ToLower (drop (length btih) xt)) 40) eqn:E; cbn [negb]; [|done]. apply IH; cbn [InfoHashV1 InfoHashV2]; tauto.
  - destruct (has_prefix xt btmh); [|by apply IH]. destruct (isHex (ToLower (drop (length btmh) xt)) 64) eqn:E; cbn [negb]; [|done]. apply IH; cbn [InfoHashV1 InfoHashV2]; tauto.
Qed.

(** ** The properties *)

(** C37. A magnet link is read back: for every pair of digests, every display name and every tracker
    URL (reserved characters included), [ParseMagnet] of the link [finalize] writes gives the two
    info hashes in lowercase hexadecimal, the name and the single tracker. *)
Theorem magnet_roundtrip h1 h2 name announceURL : length h1 = 20%nat → length h2 = 32%nat →
  ParseMagnet (magnet_link (hex_encode h1) (hex_encode h2) name announceURL)
  = Ok (mkMagnet (hex_encode h1) (hex_encode h2) name [announceURL]).
Proof. intros H1 H2. apply ParseMagnet_link; [by apply (isHex_encode _ 20)|by apply (isHex_encode _ 32)]. Qed.

Theorem magnet_roundtrip_witness :
  ParseMagnet (magnet_link (hex_encode (zeros 20)) (hex_encode (zeros 32)) (str "a & b#c") (str "http://t/announce?k=1"))
  = Ok (mkMagnet (hex_encode (zeros 20)) (hex_encode (zeros 32)) (str "a & b#c") [str "http://t/announce?k=1"]).
Proof. apply magnet_roundtrip; reflexivity. Defined.

(** What [ParseMagnet] lets through. *)
Lemma ParseMagnet_hashes uri :
  match ParseMagnet uri with
  | Ok m => (InfoHashV1 m = [] ∨ isHex (InfoHashV1 m) 40 = true) ∧ (InfoHashV2 m = [] ∨ isHex (InfoHashV2 m) 64 = true)
            ∧ (isHex (BestHash m) 40 = true ∨ isHex (BestHash m) 64 = true)
  | Err _ => True
  | _ => False
  end.
Proof.
  unfold ParseMagnet. destruct (has_prefix uri magnet_scheme); cbn [negb]; [|done].
  destruct (ParseQuery _) as [params|]; cbn [of_option]; simpl_res; [|done].
  pose proof (parse_xts_ok (default [] (params !! str "xt")) (mkMagnet [] [] [] []) (or_introl eq_refl) (or_introl eq_refl)) as H.
  destruct (parse_xts _ _) as [m| | |]; try done. simpl_res. destruct H as [H1 H2]. case_bool_decide as He; [done|].
  cbn [InfoHashV1 InfoHashV2]. split_and!; [done|done|]. unfold BestHash. cbn [InfoHashV1 InfoHashV2].
  case_bool_decide; destruct H1, H2; tauto.
Qed.

(** C40. [ParseMagnet] never panics, and what it returns names at least one info hash: the v1 hash, if
    present, is 40 lowercase hexadecimal digits and the v2 hash, if present, is 64; [BestHash] is
    then never empty. *)
Theorem ParseMagnet_wellformed uri :
  match ParseMagnet uri with
  | Ok m => (InfoHashV1 m = [] ∨ isHex (InfoHashV1 m) 40 = true) ∧ (InfoHashV2 m = [] ∨ isHex (InfoHashV2 m) 64 = true)
            ∧ (isHex (BestHash m) 40 = true ∨ isHex (BestHash m) 64 = true)
  | Err _ => True
  | _ => False
  end.
Proof. apply ParseMagnet_hashes. Qed.
