(* ===== verification/Metainfo.v ===== *)
(** * Torrent files: [internal/torrent/parse.go] and the assembly half of [torrent.go]

    Reading ([Parse], [ParseInfo], [ExtractInfoBytes], [VerifyInfoHash]) and writing ([orderedDict],
    [populateSingleFileInfo], [buildDirHybrid], [finalize], [CreateStream], [Create], [BuildMetainfo]).

    A Go [map[string]interface{}] is the list of its entries; where the program iterates over one, the
    order is a parameter.  The bencode library is the interface of [Codec]. *)

From S2P Require Import Prelude Strconv Hex Sha GoStrings Bencode Recognize Url Codec Paths Merkle Magnet.
From Stdlib Require Import ZArith Lia.
Local Open Scope Z_scope.

(** ** Reading *)

Record FileEntry := { Path : bytes; Length : Z }.

(** [Pieces] distinguishes a nil slice from an empty one. *)
Record TorrentMeta := {
  Name : bytes; PieceLength : Z; PieceCount : Z; TotalSize : Z; Files : list FileEntry; Pieces : option bytes }.

#[export] Instance FileEntry_eq_decision : EqDecision FileEntry.
Proof. solve_decision. Defined.

(** Type assertions [v.(T)]. *)
Definition as_int (t : tree) : option Z := match t with BInt z => Some z | _ => None end.
Definition as_string (t : tree) : option bytes := match t with BStr s => Some s | _ => None end.
Definition as_list (t : tree) : option (list tree) := match t with BList l => Some l | _ => None end.
Definition as_map (t : tree) : option (list (bytes * tree)) := match t with BDict l => Some l | _ => None end.

Inductive terr :=
| TInvalid (e : berr) | TDecode | NoInfoDict | NoPieceLength | BadPieceLength | BadPieces
| BadName (e : patherr) | BadFilePath (i : nat) (e : patherr) | BadFileTree (e : patherr) | PieceCountMismatch
| V1Mismatch | V2Mismatch.

Definition maxFileTreeDepth : Z := 64.

(** [order] is the order in which the runtime iterates over a map; the depth guard bounds the
    recursion, [fuel] follows it. *)
Fixpoint walkFileTree (order : list (bytes * tree) → list (bytes * tree)) (fuel : nat)
    (t : list (bytes * tree)) (prefix : list bytes) (depth : Z) : result patherr (list FileEntry) :=
  match fuel with
  | O => NoFuel
  | S f =>
      if maxFileTreeDepth <? depth then Ok [] else
      (fix loop (entries : list (bytes * tree)) : result patherr (list FileEntry) :=
         match entries with
         | [] => Ok []
         | (name, val) :: rest =>
             match as_map val with
             | None => loop rest
             | Some node =>
                 let parts := prefix ++ [name] in
                 match field [] node ≫= as_map with
                 | Some leaf =>
                     path ← safeJoin parts;
                     let fe := {| Path := path; Length := default 0 (field (str "length") leaf ≫= as_int) |} in
                     files ← loop rest; Ok (fe :: files)
                 | None =>
                     _ ← safeJoin parts;
                     sub ← walkFileTree order f node parts (depth + 1);
                     files ← loop rest; Ok (sub ++ files)
                 end
             end
         end) (order t)
  end.

(** One element of the v1 "files" list; [None] is one that is not a dictionary. *)
Definition parse_file (i : nat) (f : tree) : result terr (option FileEntry) :=
  match as_map f with
  | None => Ok None
  | Some dict =>
      let l := default 0 (field (str "length") dict ≫= as_int) in
      match field (str "path") dict ≫= as_list with
      | None => Ok (Some {| Path := []; Length := l |})
      | Some pathParts =>
          path ← map_err (BadFilePath i) (safeJoin (omap as_string pathParts));
          Ok (Some {| Path := path; Length := l |})
      end
  end.

Fixpoint parse_files (i : nat) (fs : list tree) : result terr (list FileEntry) :=
  match fs with
  | [] => Ok []
  | f :: r =>
      fe ← parse_file i f;
      rest ← parse_files (S i) r;
      Ok (match fe with Some fe => fe :: rest | None => rest end)
  end.

(** The running total, an int64. *)
Definition sum_lengths (start : Z) (fs : list FileEntry) : Z := foldl (λ acc fe, wrap64 (acc + Length fe)) start fs.

Definition ceil_pieces (totalSize pieceLength : Z) : Z := Z.quot (wrap64 (totalSize + pieceLength - 1)) pieceLength.

Definition parseInfoMap (order : list (bytes * tree) → list (bytes * tree)) (info : list (bytes * tree)) : result terr TorrentMeta :=
  let name := default [] (field (str "name") info ≫= as_string) in
  v ← of_option NoPieceLength (field (str "piece length") info ≫= as_int);
  if v <=? 0 then Err BadPieceLength else
  let pieces := field (str "pieces") info ≫= as_string in
  if negb (zlen (default [] pieces) `rem` 20 =? 0) then Err BadPieces else
  let count := Z.quot (zlen (default [] pieces)) 20 in
  single ← match field (str "length") info ≫= as_int with
           | Some length => path ← map_err BadName (safeJoin [name]); Ok [{| Path := path; Length := length |}]
           | None => Ok []
           end;
  multi ← match field (str "files") info ≫= as_list with
          | Some files => parse_files 0 files
          | None => Ok []
          end;
  let files := single ++ multi in
  (* single-file: [meta.TotalSize = length]; then the files of the list are added *)
  let total := sum_lengths (match single with fe :: _ => Length fe | [] => 0 end) multi in
  '(files, total) ← (if bool_decide (files = []) then
                       match field (str "file tree") info ≫= as_map with
                       | Some fileTree =>
                           fs ← map_err BadFileTree (walkFileTree order 66 fileTree [] 0);
                           Ok (fs, sum_lengths total fs)
                       | None => Ok (files, total)
                       end
                     else Ok (files, total));
  if bool_decide (pieces ≠ None ∧ files ≠ []) && negb (count =? ceil_pieces total v) then Err PieceCountMismatch else
  let count := if (count =? 0) && (0 <? total) then ceil_pieces total v else count in
  Ok {| Name := name; PieceLength := v; PieceCount := count; TotalSize := total; Files := files; Pieces := pieces |}.

Section codec.
Context {B : Bencoder}.

Definition Parse (order : list (bytes * tree) → list (bytes * tree)) (data : bytes) : result terr TorrentMeta :=
  _ ← map_err TInvalid (Validate data TorrentLimits);
  raw ← of_option TDecode (decode_value data ≫= as_map);
  info ← of_option NoInfoDict (field (str "info") raw ≫= as_map);
  parseInfoMap order info.

Definition ParseInfo (order : list (bytes * tree) → list (bytes * tree)) (infoData : bytes) : result terr TorrentMeta :=
  _ ← map_err TInvalid (Validate infoData TorrentLimits);
  info ← of_option TDecode (decode_value infoData ≫= as_map);
  parseInfoMap order info.

Definition raw_field (k : bytes) (l : list (bytes * bytes)) : option bytes := snd <$> last (filter (λ kv, kv.1 = k) l).

Definition ExtractInfoBytes (data : bytes) : result terr bytes :=
  _ ← map_err TInvalid (Validate data TorrentLimits);
  raw ← of_option TDecode (decode_raw data);
  of_option NoInfoDict (raw_field (str "info") raw).

Definition VerifyInfoHash (infoBytes : bytes) (mag : Magnet) : result terr unit :=
  if bool_decide (InfoHashV1 mag ≠ []) && bool_decide (hex_encode (sha1 infoBytes) ≠ InfoHashV1 mag) then Err V1Mismatch else
  if bool_decide (InfoHashV2 mag ≠ []) && bool_decide (hex_encode (sha256 infoBytes) ≠ InfoHashV2 mag) then Err V2Mismatch else
  Ok tt.

End codec.
