(* ===== verification/Create.v ===== *)
(** * Creating torrent files: the assembly half of [internal/torrent/torrent.go]

    [orderedDict], [populateSingleFileInfo], [insertFileEntry], [buildDirHybrid], [finalize],
    [CreateStream], [Create] and [BuildMetainfo], on top of the hashing of [Merkle].

    A Go [map[string]interface{}] is the list of its entries sorted by key, the order in which the
    bencode library writes it.  The file system is a parameter: what [os.Stat], [filepath.Walk] and
    the reads of each file deliver.  So is [url.Parse], from which the program takes the scheme and
    the host. *)

From S2P Require Import Prelude Strconv Hex Sha GoStrings NetAddr Bencode Recognize Url Codec Paths Merkle Magnet Metainfo.
From Stdlib Require Import ZArith Lia.
Local Open Scope Z_scope.

(** ** Data *)

Record CreateOptions := {
  OPath : bytes; OName : bytes; OPieceLength : Z; OAnnounceURL : bytes; OPrivate : bool;
  OComment : bytes; OSource : bytes; OCreatedBy : bytes; OWebSeeds : list bytes }.

Record CreateResult := {
  TorrentBytes : bytes; InfoHash : bytes; InfoHashHex : bytes; RInfoHashV1 : bytes; RInfoHashV1Hex : bytes;
  MagnetLink : bytes }.

Inductive create_err :=
| NoAnnounceURL | BadPieceLen | BadWebSeed | NoAccess | NoFiles | ReadFail | BadStreamSize | NoStreamName | EncodeFail.

(** A file: its size according to [Stat], its content through [io.ReadFull], and the chunks that the
    successive [Read] calls of a second pass deliver. *)
Record FileData := { stat_size : Z; reader : Reader; reads : list bytes; reads_fail : bool }.

Inductive stat_result :=
| IsFile (f : FileData)
| IsDir (walk : option (list (bytes * FileData))).   (* relative path and file, symbolic links left out *)

(** ** [orderedDict] *)

Inductive value :=
| VTree (t : tree)
| VRaw (b : bytes)
| VOrdered (d : list (bytes * value)).

Definition orderedDict := list (bytes * value).
Definition newOrderedDict : orderedDict := [].

Fixpoint set {A} (d : list (bytes * A)) (key : bytes) (v : A) : list (bytes * A) :=
  match d with
  | [] => [(key, v)]
  | (k, w) :: r => if bool_decide (k = key) then (k, v) :: r else (k, w) :: set r key v
  end.

(** Set under a condition. *)
Definition set_if {A} (c : bool) (d : list (bytes * A)) (key : bytes) (v : A) : list (bytes * A) := if c then set d key v else d.

Section codec.
Context {B : Bencoder}.

(** [MarshalBencode]: [sorted] keys, each followed by its encoded value. *)
Definition marshal (encoded : list (bytes * option bytes)) : option bytes :=
  body ← foldr (λ k acc, kb ← EncodeBytes (BStr k); vb ← mjoin (snd <$> find (λ kv, bool_decide (kv.1 = k)) encoded);
                         rest ← acc; Some (kb ++ vb ++ rest)) (Some []) (sort_strings encoded.*1);
  Some (chr "d" :: body ++ [chr "e"]).

Fixpoint encode_value (v : value) : option bytes :=
  match v with
  | VTree t => EncodeBytes t
  | VRaw b => Some b
  | VOrdered d => marshal (map (λ kv, (kv.1, encode_value kv.2)) d)
  end.

(** ** The info dictionary *)

(** Write an entry of a map, and put the entries in order again. *)
Definition sort_entries (l : list (bytes * tree)) : list (bytes * tree) :=
  (λ k, (k, default (BInt 0) (field k l))) <$> sort_strings l.*1.
Definition insert_key (k : bytes) (v : tree) (l : list (bytes * tree)) : list (bytes * tree) := sort_entries (set l k v).

Definition add_piece_layer (fr : fileResult) (pieceLayers : list (bytes * tree)) : result create_err (list (bytes * tree)) :=
  if (0 <? length (pieceLayerHash fr))%nat then
    match field (str "pieces root") (v2Entry fr) with
    | Some (BStr rootStr) => Ok (insert_key rootStr (BStr (concat (pieceLayerHash fr))) pieceLayers)
    | _ => Panic
    end
  else Ok pieceLayers.

Definition populateSingleFileInfo (infoDict : orderedDict) (pieceLayers : list (bytes * tree)) (opts : CreateOptions)
    (fr : fileResult) (filename : bytes) : result create_err (orderedDict * list (bytes * tree)) :=
  let fileTree := BDict [(filename, BDict [([], BDict (v2Entry fr))]) ] in
  let d := set infoDict (str "file tree") (VTree fileTree) in
  let d := set d (str "length") (VTree (BInt (size fr))) in
  let d := set d (str "meta version") (VTree (BInt 2)) in
  let d := set d (str "name") (VTree (BStr filename)) in
  let d := set d (str "piece length") (VTree (BInt (OPieceLength opts))) in
  let d := set d (str "pieces") (VTree (BStr (v1PiecesSHA1 fr))) in
  let d := set_if (bool_decide (OSource opts ≠ [])) d (str "source") (VTree (BStr (OSource opts))) in
  let d := set_if (OPrivate opts) d (str "private") (VTree (BInt 1)) in
  layers ← add_piece_layer fr pieceLayers;
  Ok (d, layers).

(** [current = sub.(map[string]interface{})] panics on an entry that is not a map. *)
Fixpoint insertFileEntry (t : list (bytes * tree)) (parts : list bytes) (entry : list (bytes * tree))
    : result create_err (list (bytes * tree)) :=
  match parts with
  | [] => Ok t
  | part :: [] => Ok (insert_key part (BDict [([], BDict entry)]) t)
  | part :: rest =>
      sub ← match field part t with None => Ok [] | Some (BDict d) => Ok d | Some _ => Panic end;
      sub ← insertFileEntry sub rest entry;
      Ok (insert_key part (BDict sub) t)
  end.

(** The running v1 hash over all files: finished pieces, bytes in the hasher, their count. *)
Record running := { allV1Pieces : bytes; run_hasher : bytes; sha1BytesInPiece : Z }.

(** [for remaining > 0]: feed what one [Read] delivered. *)
Fixpoint feed (fuel : nat) (pieceLen : Z) (buf : bytes) (st : running) : result create_err running :=
  if (0 <? length buf)%nat then
    match fuel with
    | O => NoFuel
    | S f =>
        let space := pieceLen - sha1BytesInPiece st in
        let toWrite := if space <? zlen buf then space else zlen buf in
        if toWrite <? 0 then Panic else
        let hasher := run_hasher st ++ take (Z.to_nat toWrite) buf in
        let n := sha1BytesInPiece st + toWrite in
        feed f pieceLen (drop (Z.to_nat toWrite) buf)
          (if n =? pieceLen
           then {| allV1Pieces := allV1Pieces st ++ sha1 hasher; run_hasher := []; sha1BytesInPiece := 0 |}
           else {| allV1Pieces := allV1Pieces st; run_hasher := hasher; sha1BytesInPiece := n |})
    end
  else Ok st.

Fixpoint feed_all (pieceLen : Z) (rs : list bytes) (st : running) : result create_err running :=
  match rs with
  | [] => Ok st
  | buf :: r => st ← feed (S (length buf)) pieceLen buf st; feed_all pieceLen r st
  end.

Definition hash_file (f : FileData) (pieceLen : Z) : result create_err fileResult :=
  map_err (λ _, ReadFail) (hashReaderHybrid (reader f) (stat_size f) pieceLen).

(** The loop over the sorted files: v2 tree and layers, v1 list (in order), running v1 hash. *)
Fixpoint dir_loop (files : list (bytes * FileData)) (pieceLen : Z) (fileTree layers : list (bytes * tree)) (v1Files : list tree)
    (st : running) : result create_err (list (bytes * tree) * list (bytes * tree) * list tree * running) :=
  match files with
  | [] => Ok (fileTree, layers, v1Files, st)
  | (relPath, f) :: rest =>
      fr ← hash_file f pieceLen;
      let parts := split slash relPath in
      fileTree ← insertFileEntry fileTree parts (v2Entry fr);
      layers ← add_piece_layer fr layers;
      let v1File := BDict [(str "length", BInt (size fr)); (str "path", BList (BStr <$> parts))] in
      st ← feed_all pieceLen (reads f) st;
      if reads_fail f then Err ReadFail else
      dir_loop rest pieceLen fileTree layers (v1Files ++ [v1File]) st
  end.

Definition path_le (a b : bytes * FileData) : Prop := bytes_le a.1 b.1.
#[export] Instance path_le_dec a b : Decision (path_le a b).
Proof. unfold path_le. apply _. Defined.

Definition buildDirHybrid (infoDict : orderedDict) (pieceLayers : list (bytes * tree)) (opts : CreateOptions)
    (walk : option (list (bytes * FileData))) : result create_err (orderedDict * list (bytes * tree)) :=
  files ← of_option ReadFail walk;
  if bool_decide (files = []) then Err NoFiles else
  let files := merge_sort path_le files in
  '(fileTree, layers, v1Files, st) ← dir_loop files (OPieceLength opts) [] pieceLayers []
    {| allV1Pieces := []; run_hasher := []; sha1BytesInPiece := 0 |};
  let pieces := if 0 <? sha1BytesInPiece st then allV1Pieces st ++ sha1 (run_hasher st) else allV1Pieces st in
  let d := set infoDict (str "file tree") (VTree (BDict fileTree)) in
  let d := set d (str "files") (VTree (BList v1Files)) in
  let d := set d (str "meta version") (VTree (BInt 2)) in
  let d := set d (str "name") (VTree (BStr (OName opts))) in
  let d := set d (str "piece length") (VTree (BInt (OPieceLength opts))) in
  let d := set d (str "pieces") (VTree (BStr pieces)) in
  let d := set_if (bool_decide (OSource opts ≠ [])) d (str "source") (VTree (BStr (OSource opts))) in
  let d := set_if (OPrivate opts) d (str "private") (VTree (BInt 1)) in
  Ok (d, layers).

(** ** The metainfo *)

Definition meta_dict (opts : CreateOptions) (infoDict : orderedDict) (pieceLayers : list (bytes * tree)) (now : Z) : orderedDict :=
  let d := set newOrderedDict (str "announce") (VTree (BStr (OAnnounceURL opts))) in
  let d := set_if (bool_decide (OCreatedBy opts ≠ [])) d (str "created by") (VTree (BStr (OCreatedBy opts))) in
  let d := set d (str "creation date") (VTree (BInt now)) in
  let d := set_if (bool_decide (OComment opts ≠ [])) d (str "comment") (VTree (BStr (OComment opts))) in
  let d := set d (str "info") (VOrdered infoDict) in
  let d := set_if (0 <? length pieceLayers)%nat d (str "piece layers") (VTree (BDict pieceLayers)) in
  set_if (0 <? length (OWebSeeds opts))%nat d (str "url-list") (VTree (BList (BStr <$> OWebSeeds opts))).

(** [now] is the result of [time.Now().Unix()]. *)
Definition finalize (opts : CreateOptions) (infoDict : orderedDict) (pieceLayers : list (bytes * tree)) (now : Z)
    : result create_err CreateResult :=
  infoBytes ← of_option EncodeFail (encode_value (VOrdered infoDict));
  let infoHash := sha256 infoBytes in
  let infoHashV1 := sha1 infoBytes in
  torrentBytes ← of_option EncodeFail (encode_value (VOrdered (meta_dict opts infoDict pieceLayers now)));
  Ok {| TorrentBytes := torrentBytes; InfoHash := infoHash; InfoHashHex := hex_encode infoHash;
        RInfoHashV1 := infoHashV1; RInfoHashV1Hex := hex_encode infoHashV1;
        MagnetLink := magnet_link (hex_encode infoHashV1) (hex_encode infoHash) (OName opts) (OAnnounceURL opts) |}.

(** [url.Parse]: the scheme and the host, or an error. *)
Context (url_Parse : bytes → option (bytes * bytes)).

Definition validateWebSeeds (seeds : list bytes) : bool :=
  forallb (λ ws, match url_Parse ws with
                 | None => false
                 | Some (scheme, host) => bool_decide (scheme = str "http" ∨ scheme = str "https") && bool_decide (host ≠ [])
                 end) seeds.

(** The options with the default piece length filled in. *)
Definition with_defaults (opts : CreateOptions) (name : bytes) : CreateOptions :=
  {| OPath := OPath opts; OName := name;
     OPieceLength := if OPieceLength opts =? 0 then DefaultPieceLength else OPieceLength opts;
     OAnnounceURL := OAnnounceURL opts; OPrivate := OPrivate opts; OComment := OComment opts; OSource := OSource opts;
     OCreatedBy := OCreatedBy opts; OWebSeeds := OWebSeeds opts |}.

Definition bad_piece_length (n : Z) : bool := (n <? MinPieceLength) || negb (isPowerOfTwo n).

Definition CreateStream (opts : CreateOptions) (r : Reader) (size : Z) (name : bytes) (now : Z) : result create_err CreateResult :=
  let opts := with_defaults opts (OName opts) in
  if bool_decide (OAnnounceURL opts = []) then Err NoAnnounceURL else
  if bad_piece_length (OPieceLength opts) then Err BadPieceLen else
  if size <=? 0 then Err BadStreamSize else
  if bool_decide (name = []) then Err NoStreamName else
  if negb (validateWebSeeds (OWebSeeds opts)) then Err BadWebSeed else
  fr ← map_err (λ _, ReadFail) (hashReaderHybrid r size (OPieceLength opts));
  '(infoDict, pieceLayers) ← populateSingleFileInfo newOrderedDict [] opts fr name;
  finalize opts infoDict pieceLayers now.

Definition Create (stat : bytes → option stat_result) (opts : CreateOptions) (now : Z) : result create_err CreateResult :=
  let opts := with_defaults opts (OName opts) in
  if bool_decide (OAnnounceURL opts = []) then Err NoAnnounceURL else
  if bad_piece_length (OPieceLength opts) then Err BadPieceLen else
  if negb (validateWebSeeds (OWebSeeds opts)) then Err BadWebSeed else
  info ← of_option NoAccess (stat (OPath opts));
  let opts := with_defaults opts (if bool_decide (OName opts = []) then Base (OPath opts) else OName opts) in
  '(infoDict, pieceLayers) ← match info with
    | IsDir walk => buildDirHybrid newOrderedDict [] opts walk
    | IsFile f => fr ← hash_file f (OPieceLength opts); populateSingleFileInfo newOrderedDict [] opts fr (Base (OPath opts))
    end;
  finalize opts infoDict pieceLayers now.

Definition BuildMetainfo (infoData announce : bytes) : option bytes :=
  let d := set_if (bool_decide (announce ≠ [])) newOrderedDict (str "announce") (VTree (BStr announce)) in
  encode_value (VOrdered (set d (str "info") (VRaw infoData))).

End codec.
