(* ===== verification/TorrentFiles.v ===== *)
(** * What [Create] writes, [Parse] reads

    Theorems about [Create] and [Metainfo] together: the bytes of an [orderedDict] are the encoding of
    the sorted dictionary, a created torrent passes the program's own parser with the metadata it was
    created from, and its magnet link names the hash of exactly the bytes [ExtractInfoBytes] returns. *)

From S2P Require Import Prelude Strconv Hex Sha GoStrings NetAddr Bencode Recognize Url Codec Paths Merkle Magnet Metainfo Create.
From Stdlib Require Import ZArith Lia.
Local Open Scope Z_scope.

(** ** Dictionaries with distinct keys *)

Lemma field_unique (l : list (bytes * tree)) k v : NoDup l.*1 → field k l = Some v ↔ (k, v) ∈ l.
Proof.
  intros Hn. split; [|by apply field_elem]. unfold field. intros H. apply fmap_Some in H as ([k' v'] & Hl & E).
  apply last_Some in Hl as [l' Hl]. assert (Hin : (k', v') ∈ filter (λ kv, kv.1 = k) l) by (rewrite Hl; set_solver).
  apply list_elem_of_filter in Hin as [Hk Hin]. simpl in *. by subst.
Qed.

Lemma field_perm (l l' : list (bytes * tree)) k : NoDup l.*1 → l ≡ₚ l' → field k l = field k l'.
Proof.
  intros Hn P. assert (Hn' : NoDup l'.*1) by (by rewrite <- P). apply option_eq. intros v.
  rewrite !field_unique by done. by rewrite P.
Qed.

Section set_lemmas.
Context {A : Type}.
Implicit Types (l : list (bytes * A)).

Lemma set_keys l k v x : x ∈ (set l k v).*1 ↔ x = k ∨ x ∈ l.*1.
Proof.
  induction l as [|[k' w] l IH]; [cbn; set_solver|]. cbn [set]. case_bool_decide; cbn [fmap list_fmap fst]; [set_solver|].
  rewrite !elem_of_cons, IH. tauto.
Qed.

Lemma set_NoDup l k v : NoDup l.*1 → NoDup (set l k v).*1.
Proof.
  induction l as [|[k' w] l IH]; [intros _; cbn; repeat constructor; set_solver|]. cbn [fmap list_fmap fst].
  intros [Hk Hn]%NoDup_cons. cbn [set]. case_bool_decide; cbn [fmap list_fmap fst]; apply NoDup_cons; [done|].
  split; [|by apply IH]. change (k' ∉ (set l k v).*1). rewrite set_keys. intros [?|?]; congruence.
Qed.

Lemma set_elem l k v x y : NoDup l.*1 → (x, y) ∈ set l k v ↔ (x = k ∧ y = v) ∨ (x ≠ k ∧ (x, y) ∈ l).
Proof.
  induction l as [|[k' w] l IH]; cbn [set].
  - intros _. rewrite list_elem_of_singleton. split; [by intros [= -> ->]; left|]. intros [[-> ->]|[_ H]]; [done|by apply elem_of_nil in H].
  - cbn [fmap list_fmap fst]. intros [Hk Hn]%NoDup_cons. case_bool_decide as E.
    + subst k'. rewrite !elem_of_cons. split.
      * intros [[= -> ->]|H]; [by left|]. right. split; [|by right]. intros ->. apply Hk, list_elem_of_fmap. by exists (k, y).
      * intros [[-> ->]|[Hne [[= -> ->]|H]]]; [by left|done|by right].
    + rewrite !elem_of_cons, IH by done. split.
      * intros [[= -> ->]|[?|[? ?]]]; [right; split; [congruence|by left]|by left|right; split; [done|by right]].
      * intros [?|[? [[= -> ->]|?]]]; [right; by left|by left|right; right; done].
Qed.

Lemma set_length l k v : (length (set l k v) ≤ S (length l))%nat.
Proof. induction l as [|[k' w] l IH]; cbn [set]; [simpl; lia|]. case_bool_decide; simpl; lia. Qed.

Lemma set_if_NoDup c l k v : NoDup l.*1 → NoDup (set_if c l k v).*1.
Proof. destruct c; [apply set_NoDup|done]. Qed.
Lemma set_if_length c l k v : (length (set_if c l k v) ≤ S (length l))%nat.
Proof. destruct c; cbn [set_if]; [apply set_length|lia]. Qed.

Lemma set_le l k v n : (length l ≤ n)%nat → (length (set l k v) ≤ S n)%nat.
Proof. pose proof (set_length l k v). lia. Qed.
Lemma set_if_le c l k v n : (length l ≤ n)%nat → (length (set_if c l k v) ≤ S n)%nat.
Proof. pose proof (set_if_length c l k v). lia. Qed.

Lemma set_Forall (P : bytes * A → Prop) l k v : NoDup l.*1 → Forall P l → P (k, v) → Forall P (set l k v).
Proof.
  intros Hn Hl Hv. apply Forall_forall. intros [x y] H. apply set_elem in H as [[-> ->]|[_ H]]; [done| |done].
  rewrite Forall_forall in Hl. by apply Hl.
Qed.
Lemma set_if_Forall (P : bytes * A → Prop) c l k v : NoDup l.*1 → Forall P l → (c = true → P (k, v)) → Forall P (set_if c l k v).
Proof. intros. destruct c; [by apply set_Forall; auto|done]. Qed.
End set_lemmas.

Lemma set_fmap {A C} (f : A → C) (l : list (bytes * A)) k v :
  set ((λ kv, (kv.1, f kv.2)) <$> l) k (f v) = (λ kv, (kv.1, f kv.2)) <$> set l k v.
Proof. induction l as [|[k' w] l IH]; [done|]. cbn [fmap list_fmap set fst snd]. case_bool_decide; [done|]. cbn [fmap list_fmap fst snd]. f_equal. exact IH. Qed.
Lemma set_if_fmap {A C} (f : A → C) c (l : list (bytes * A)) k v :
  set_if c ((λ kv, (kv.1, f kv.2)) <$> l) k (f v) = (λ kv, (kv.1, f kv.2)) <$> set_if c l k v.
Proof. destruct c; [apply set_fmap|done]. Qed.

Lemma field_set l k k' v : NoDup l.*1 → field k (set l k' v) = if bool_decide (k = k') then Some v else field k l.
Proof.
  intros Hn. apply option_eq. intros y. rewrite field_unique by (by apply set_NoDup). rewrite set_elem by done.
  case_bool_decide as E; [split; [intros [[_ ->]|[? _]]; done|intros [= ->]; by left]|].
  rewrite field_unique by done. tauto.
Qed.
Lemma field_set_if c l k k' v : NoDup l.*1 →
  field k (set_if c l k' v) = if c && bool_decide (k = k') then Some v else field k l.
Proof. intros. destruct c; [by apply field_set|done]. Qed.

#[export] Hint Resolve set_NoDup set_if_NoDup NoDup_nil_2 : weightless.

(** ** The bytes of an [orderedDict] *)

Lemma sort_entries_perm l : NoDup l.*1 → sort_entries l ≡ₚ l.
Proof.
  intros Hn. unfold sort_entries. rewrite sort_strings_perm, <- list_fmap_compose.
  assert (E : ∀ l', l' ⊆ l → ((λ k, (k, default (BInt 0) (field k l))) ∘ fst) <$> l' = l').
  { induction l' as [|[k v] l' IH]; intros Hs; [done|]. cbn [fmap list_fmap compose fst].
    rewrite (field_elem k v l) by (done || apply Hs; left). cbn [default from_option id]. f_equal. apply IH. intros x Hx. apply Hs. by right. }
  by rewrite E.
Qed.

Lemma sort_entries_NoDup l : NoDup l.*1 → NoDup (sort_entries l).*1.
Proof. intros Hn. by rewrite (sort_entries_perm l Hn). Qed.

Lemma field_sorted l k : NoDup l.*1 → field k (sort_entries l) = field k l.
Proof. intros Hn. symmetry. apply field_perm; [done|]. by rewrite sort_entries_perm. Qed.

Section laws.
Context {B : Bencoder} (laws : BencoderLaws B).

(** The values of [d] encode the entries of [l]. *)
Definition represents (d : orderedDict) (l : list (bytes * tree)) : Prop :=
  Forall2 (λ kv kt, kv.1 = kt.1 ∧ encode_value kv.2 = Some (encode kt.2)) d l.

Lemma represents_trees l : represents ((λ kv, (kv.1, VTree kv.2)) <$> l) l.
Proof. induction l as [|[k t] l IH]; constructor; [|done]. split; [done|]. cbn. by rewrite EncodeBytes_ok. Qed.

Lemma represents_set d l k v t : represents d l → encode_value v = Some (encode t) → represents (set d k v) (set l k t).
Proof.
  intros H Hv. induction H as [|[k1 v1] [k2 t2] d l [E1 E2] H IH]; cbn [set]; [by repeat constructor|]. simpl in E1. subst k2.
  case_bool_decide; constructor; done.
Qed.
Lemma represents_set_if c d l k v t : represents d l → (c = true → encode_value v = Some (encode t)) →
  represents (set_if c d k v) (set_if c l k t).
Proof. intros. destruct c; [by apply represents_set; auto|done]. Qed.

Lemma represents_keys d l : represents d l → d.*1 = l.*1.
Proof. induction 1 as [|[k v] [k' t] d l [E _] _ IH]; [done|]. cbn in *. by subst; f_equal. Qed.

Lemma represents_find d l k : represents d l → NoDup l.*1 →
  mjoin (snd <$> find (λ kv, bool_decide (kv.1 = k)) (map (λ kv, (kv.1, encode_value kv.2)) d)) = encode <$> field k l.
Proof.
  intros H. induction H as [|[k1 v1] [k2 t2] d l [E1 E2] H IH]; [done|]. simpl in E1, E2. subst k2. intros Hn.
  cbn [fmap list_fmap fst] in Hn. apply NoDup_cons in Hn as [Hk Hn]. cbn [map find fst snd]. case_bool_decide as E.
  - subst k1. rewrite (field_elem k t2); [by cbn; rewrite E2| |left]. cbn. by apply NoDup_cons.
  - rewrite IH by done. f_equal. apply option_eq. intros v. rewrite !field_unique; [|cbn; by apply NoDup_cons|done].
    rewrite elem_of_cons. split; [by right|]. intros [[= -> ->]|?]; done.
Qed.

Lemma encode_ordered d l : represents d l → NoDup l.*1 →
  encode_value (VOrdered d) = Some (encode (BDict (sort_entries l))).
Proof.
  intros H Hn. cbn [encode_value]. unfold marshal.
  replace ((map (λ kv, (kv.1, encode_value kv.2)) d).*1) with l.*1.
  2:{ rewrite <- (represents_keys _ _ H). clear. induction d as [|kv d IH]; [done|]. cbn [map fmap list_fmap fst]. f_equal. exact IH. }
  set (f := λ (k : bytes) acc, _). unfold sort_entries.
  assert (E : ∀ ks, (∀ k, k ∈ ks → k ∈ l.*1) → foldr f (Some []) ks =
    Some (flat_map (λ kv, enc_str kv.1 ++ encode kv.2) ((λ k, (k, default (BInt 0) (field k l))) <$> ks))).
  { induction ks as [|k ks IH]; intros Hks; [done|]. cbn [foldr]. rewrite IH by (intros; apply Hks; by right).
    subst f. cbn beta. rewrite EncodeBytes_ok, (represents_find _ _ _ H Hn). cbn [mbind option_bind].
    destruct (proj1 (list_elem_of_fmap _ _ _) (Hks k ltac:(left))) as ([k' v] & -> & Hin).
    cbn [fst]. rewrite fmap_cons. cbn [fst flat_map snd]. by rewrite (field_elem k' v), <- app_assoc by done. }
  rewrite E; [done|]. intros k Hk. by rewrite sort_strings_perm in Hk.
Qed.

(** The info dictionary: plain values only. *)
Lemma encode_info l : NoDup l.*1 →
  encode_value (VOrdered ((λ kv, (kv.1, VTree kv.2)) <$> l)) = Some (encode (BDict (sort_entries l))).
Proof. intros. by apply encode_ordered; [apply represents_trees|]. Qed.

(** ** The metainfo dictionary *)

Definition meta_entries (opts : CreateOptions) (info : tree) (layers : list (bytes * tree)) (now : Z) : list (bytes * tree) :=
  let d := set [] (str "announce") (BStr (OAnnounceURL opts)) in
  let d := set_if (bool_decide (OCreatedBy opts ≠ [])) d (str "created by") (BStr (OCreatedBy opts)) in
  let d := set d (str "creation date") (BInt now) in
  let d := set_if (bool_decide (OComment opts ≠ [])) d (str "comment") (BStr (OComment opts)) in
  let d := set d (str "info") info in
  let d := set_if (0 <? length layers)%nat d (str "piece layers") (BDict layers) in
  set_if (0 <? length (OWebSeeds opts))%nat d (str "url-list") (BList (BStr <$> OWebSeeds opts)).

Lemma meta_entries_NoDup opts info layers now : NoDup (meta_entries opts info layers now).*1.
Proof. unfold meta_entries. auto 20 with weightless. Qed.

Lemma meta_entries_info opts info layers now : field (str "info") (meta_entries opts info layers now) = Some info.
Proof. unfold meta_entries. rewrite !field_set_if, field_set by auto 20 with weightless. rewrite !andb_false_r by done. done. Qed.

Lemma finalize_run opts l layers now : NoDup l.*1 →
  let info := BDict (sort_entries l) in
  finalize opts ((λ kv, (kv.1, VTree kv.2)) <$> l) layers now = Ok {|
    TorrentBytes := encode (BDict (sort_entries (meta_entries opts info layers now)));
    InfoHash := sha256 (encode info); InfoHashHex := hex_encode (sha256 (encode info));
    RInfoHashV1 := sha1 (encode info); RInfoHashV1Hex := hex_encode (sha1 (encode info));
    MagnetLink := magnet_link (hex_encode (sha1 (encode info))) (hex_encode (sha256 (encode info))) (OName opts) (OAnnounceURL opts) |}.
Proof.
  intros Hn info. unfold finalize. rewrite (encode_info l Hn). cbn [of_option]. simpl_res.
  rewrite (encode_ordered _ (meta_entries opts info layers now)); [done| |apply meta_entries_NoDup].
  assert (Ht : ∀ t, encode_value (VTree t) = Some (encode t)) by (intros; cbn; apply EncodeBytes_ok).
  unfold meta_dict, meta_entries. repeat first [apply represents_set_if | apply represents_set | constructor]; intros; try apply Ht.
  by apply encode_info.
Qed.
End laws.

(** ** Within the parser's limits

    The nesting and the breadth of a value; its strings are bounded by its whole encoding. *)
Fixpoint shape (lim : Limits) (depth : Z) (t : tree) : bool :=
  match t with
  | BInt _ | BStr _ => true
  | BList l => (depth + 1 <=? MaxDepth lim) && within (MaxListLen lim) (zlen l) && forallb (shape lim (depth + 1)) l
  | BDict l => (depth + 1 <=? MaxDepth lim) && within (MaxKeysPerDict lim) (zlen l)
               && forallb (λ kv, shape lim (depth + 1) kv.2) l
  end.

Lemma flat_map_length_elem {A} (f : A → bytes) l x : x ∈ l → (length (f x) ≤ length (flat_map f l))%nat.
Proof.
  induction l as [|y l IH]; [by intros ?%elem_of_nil|]. cbn [flat_map]. rewrite length_app.
  intros [->|H]%elem_of_cons; [lia|]. specialize (IH H). lia.
Qed.

Lemma enc_str_length s : (length s ≤ length (enc_str s))%nat.
Proof. unfold enc_str. rewrite length_app. simpl. lia. Qed.

Lemma str_fits_small lim n s : (length s ≤ n)%nat → Z.of_nat n ≤ maxDeclaredLen → Z.of_nat n ≤ MaxStrLen lim → str_fits lim s = true.
Proof. intros. unfold str_fits, within, zlen. lia. Qed.

Lemma fits_of_shape lim n : Z.of_nat n ≤ maxDeclaredLen → Z.of_nat n ≤ MaxStrLen lim →
  ∀ t depth, (length (encode t) ≤ n)%nat → shape lim depth t = true → fits lim depth t = true.
Proof.
  intros Hn1 Hn2 t. induction t as [z|s|l IH|l IH] using tree_ind; intros depth Hl Hs; cbn [fits shape encode] in *.
  - done.
  - apply (str_fits_small lim n); [|done|done]. pose proof (enc_str_length s). lia.
  - apply andb_true_iff in Hs as [-> Hs]. cbn [andb]. rewrite forallb_forall in *. intros x Hx. rewrite Forall_forall in IH.
    apply list_elem_of_In in Hx. apply IH; [done| |by apply Hs, list_elem_of_In].
    pose proof (flat_map_length_elem encode l x Hx). simpl in Hl. rewrite length_app in Hl. lia.
  - apply andb_true_iff in Hs as [-> Hs]. cbn [andb]. rewrite forallb_forall in *. intros [k x] Hx. rewrite Forall_forall in IH.
    apply list_elem_of_In in Hx. cbn [fst snd] in *.
    pose proof (flat_map_length_elem (λ kv, enc_str kv.1 ++ encode kv.2) l (k, x) Hx) as H. cbn [fst snd] in H.
    rewrite length_app in H. simpl in Hl. rewrite length_app in Hl. pose proof (enc_str_length k).
    apply andb_true_iff. split; [apply (str_fits_small lim n); [lia|done|done]|].
    apply (IH (k, x)); [done|cbn [snd]; lia|]. by apply (Hs (k, x)), list_elem_of_In.
Qed.

Lemma shape_shallower lim t : ∀ d d', d' ≤ d → shape lim d t = true → shape lim d' t = true.
Proof.
  induction t as [z|s|l IH|l IH] using tree_ind; intros d d' Hd H; cbn [shape] in *; [done|done| |];
    rewrite !andb_true_iff in *; (destruct H as [[H1 H2] H3]; split; [split; [lia|done]|]);
    rewrite forallb_forall in *; intros x Hx; rewrite Forall_forall in IH;
    (eapply IH; [by apply list_elem_of_In|by apply Z.add_le_mono_r|by apply H3]).
Qed.

Definition small (data : bytes) : Prop := zlen data ≤ 2 ^ 23.

Lemma Validate_shape t : small (encode t) → shape TorrentLimits 0 t = true → Validate (encode t) TorrentLimits = Ok tt.
Proof.
  intros Hs Hsh. apply validate_accepts. split; [change (MaxBytes TorrentLimits) with (2 ^ 24); unfold small, within, zlen in *; lia|].
  exists t. split; [done|]. unfold small, zlen in Hs. apply (fits_of_shape _ (length (encode t))); [unfold maxDeclaredLen; lia| |done|done].
  change (MaxStrLen TorrentLimits) with (2 ^ 23). lia.
Qed.

Lemma shape_sorted lim depth l : NoDup l.*1 → depth + 1 ≤ MaxDepth lim → zlen l ≤ MaxKeysPerDict lim →
  Forall (λ kv, shape lim (depth + 1) kv.2 = true) l → shape lim depth (BDict (sort_entries l)) = true.
Proof.
  intros Hn Hd Hk Hl. pose proof (sort_entries_perm l Hn) as P. cbn [shape]. rewrite !andb_true_iff. split_and!.
  - lia.
  - unfold within, zlen in *. rewrite (Permutation_length P). lia.
  - apply forallb_forall. intros kv Hkv. rewrite Forall_forall in Hl. apply Hl. apply list_elem_of_In in Hkv. by rewrite P in Hkv.
Qed.

Lemma plain_sorted l : NoDup l.*1 → Forall (λ kv, plain_tree kv.2 = true) l → plain_tree (BDict (sort_entries l)) = true.
Proof.
  intros Hn Hl. pose proof (sort_entries_perm l Hn) as P. cbn [plain_tree]. rewrite andb_true_iff. split.
  - apply bool_decide_eq_true. by apply sort_entries_NoDup.
  - apply forallb_forall. intros kv Hkv. rewrite Forall_forall in Hl. apply Hl. apply list_elem_of_In in Hkv. by rewrite P in Hkv.
Qed.

(** ** Reading back a created torrent *)

Section roundtrip.
Context {B : Bencoder} (laws : BencoderLaws B).

(** An info dictionary the parser's limits and the decoder's types can hold. *)
Record good_info (l : list (bytes * tree)) : Prop := {
  gi_keys : NoDup l.*1;
  gi_count : zlen l ≤ 2 ^ 14;
  gi_shape : Forall (λ kv, shape TorrentLimits 2 kv.2 = true) l;
  gi_plain : Forall (λ kv, plain_tree kv.2 = true) l }.

Lemma good_info_tree l : good_info l →
  shape TorrentLimits 1 (BDict (sort_entries l)) = true ∧ plain_tree (BDict (sort_entries l)) = true.
Proof. intros [H1 H2 H3 H4]. split; [by apply shape_sorted|by apply plain_sorted]. Qed.

Lemma shape_layers layers : zlen layers ≤ 2 ^ 14 → Forall (λ kv, ∃ s, kv.2 = BStr s) layers → NoDup layers.*1 →
  shape TorrentLimits 1 (BDict layers) = true ∧ plain_tree (BDict layers) = true.
Proof.
  intros Hn Hl Hk. assert (E : forallb (λ kv, shape TorrentLimits 2 kv.2) layers = true ∧ forallb (λ kv, plain_tree kv.2) layers = true).
  { clear Hk Hn. induction Hl as [|kv l [s Hs] Hl [IH1 IH2]]; [done|]. cbn [forallb]. by rewrite Hs, IH1, IH2. }
  destruct E as [E1 E2]. cbn [shape plain_tree]. change (1 + 1) with 2. rewrite E1, E2, bool_decide_true by done.
  change (MaxKeysPerDict TorrentLimits) with (2 ^ 14). unfold within. rewrite (proj2 (Z.leb_le (zlen layers) _)) by done. done.
Qed.

Lemma shape_seeds seeds : zlen seeds ≤ 2 ^ 17 →
  shape TorrentLimits 1 (BList (BStr <$> seeds)) = true ∧ plain_tree (BList (BStr <$> seeds)) = true.
Proof.
  intros Hn. assert (E : forallb (shape TorrentLimits 2) (BStr <$> seeds) = true ∧ forallb plain_tree (BStr <$> seeds) = true).
  { clear Hn. induction seeds as [|s l [IH1 IH2]]; [done|]. cbn [fmap list_fmap forallb]. by rewrite IH1, IH2. }
  destruct E as [E1 E2]. cbn [shape plain_tree]. change (1 + 1) with 2. rewrite E1, E2.
  change (MaxListLen TorrentLimits) with (2 ^ 17). unfold within, zlen in *. rewrite length_fmap.
  by rewrite (proj2 (Z.leb_le (Z.of_nat (length seeds)) _)).
Qed.

(** What the assembly writes around an info dictionary. *)
Record good_meta (opts : CreateOptions) (layers : list (bytes * tree)) (now : Z) : Prop := {
  gm_layers : zlen layers ≤ 2 ^ 14;
  gm_strings : Forall (λ kv, ∃ s, kv.2 = BStr s) layers;
  gm_keys : NoDup layers.*1;
  gm_seeds : zlen (OWebSeeds opts) ≤ 2 ^ 17;
  gm_now : in_int64 now }.

Lemma meta_entries_good opts l layers now : good_info l → good_meta opts layers now →
  let m := meta_entries opts (BDict (sort_entries l)) layers now in
  Forall (λ kv, shape TorrentLimits 1 kv.2 = true ∧ plain_tree kv.2 = true) m ∧ zlen m ≤ 2 ^ 14.
Proof.
  intros Hi [Hl Hls Hk Hs Hnow]. pose proof (good_info_tree l Hi) as HI. pose proof (shape_layers layers Hl Hls Hk) as HL.
  pose proof (shape_seeds (OWebSeeds opts) Hs) as HS. cbn zeta. split.
  - unfold meta_entries. assert (Hz : plain_tree (BInt now) = true) by (by apply bool_decide_eq_true).
    repeat first [apply set_if_Forall | apply set_Forall | apply Forall_nil_2]; try (by auto 20 with weightless); cbn [snd]; intros; done.
  - assert (H : (length (meta_entries opts (BDict (sort_entries l)) layers now) ≤ 7)%nat).
    { unfold meta_entries. repeat first [apply set_if_le | apply set_le]. simpl. lia. }
    unfold zlen. lia.
Qed.
(** The raw field of a dictionary that was decoded entry by entry. *)
Lemma raw_field_encode k t s : field k s = Some t → raw_field k ((λ kv, (kv.1, encode kv.2)) <$> s) = Some (encode t).
Proof.
  unfold field, raw_field.
  assert (Ef : filter (λ kv : bytes * bytes, kv.1 = k) ((λ kv, (kv.1, encode kv.2)) <$> s)
    = (λ kv, (kv.1, encode kv.2)) <$> filter (λ kv : bytes * tree, kv.1 = k) s).
  { induction s as [|[k' v] s IH]; [done|]. cbn [fmap list_fmap fst snd]. rewrite !filter_cons. cbn [fst]. case_decide; [|exact IH].
    cbn [fmap list_fmap fst snd]. f_equal. exact IH. }
  rewrite Ef, fmap_last. destruct (last _) as [[k' v]|]; [|done]. cbn. by intros [= ->].
Qed.

(** The three readers on a metainfo dictionary with the entries [m], one of them the info dictionary [l]. *)
Lemma read_entries order m l meta : NoDup m.*1 → Forall (λ kv, shape TorrentLimits 1 kv.2 = true ∧ plain_tree kv.2 = true) m → zlen m ≤ 2 ^ 14 →
  field (str "info") m = Some (BDict l) →
  let data := encode (BDict (sort_entries m)) in
  small data → parseInfoMap order l = Ok meta →
  Parse order data = Ok meta ∧ ExtractInfoBytes data = Ok (encode (BDict l)) ∧ ParseInfo order (encode (BDict l)) = Ok meta.
Proof.
  intros Hn Hall Hlen Hf data Hs Hp.
  assert (Hsp : shape TorrentLimits 1 (BDict l) = true ∧ plain_tree (BDict l) = true).
  { apply field_unique in Hf; [|done]. rewrite Forall_forall in Hall. by apply (Hall _ Hf). }
  destruct Hsp as [Hsh Hpl]. rewrite <- field_sorted in Hf by done.
  assert (HV : Validate data TorrentLimits = Ok tt).
  { apply Validate_shape; [done|]. apply shape_sorted; [done|done|done|]. eapply Forall_impl; [exact Hall|]. by intros ? [? _]. }
  assert (HD : decode_value data = Some (BDict (sort_entries m))).
  { apply decode_value_ok, plain_sorted; [done|]. eapply Forall_impl; [exact Hall|]. by intros ? [_ ?]. }
  assert (HsI : small (encode (BDict l))).
  { unfold small, zlen in *. apply field_unique in Hf; [|by apply sort_entries_NoDup].
    pose proof (flat_map_length_elem (λ kv, enc_str kv.1 ++ encode kv.2) _ _ Hf) as H. cbn [fst snd] in H. rewrite length_app in H.
    unfold data in Hs. change (encode (BDict (sort_entries m))) with (chr "d" :: flat_map (λ kv, enc_str kv.1 ++ encode kv.2) (sort_entries m) ++ [chr "e"]) in Hs.
    cbn [length] in Hs. rewrite length_app in Hs. lia. }
  assert (HVI : Validate (encode (BDict l)) TorrentLimits = Ok tt).
  { apply Validate_shape; [done|]. by apply (shape_shallower _ _ 1). }
  assert (HDI : decode_value (encode (BDict l)) = Some (BDict l)) by (by apply decode_value_ok).
  assert (HR : decode_raw data = Some ((λ kv, (kv.1, encode kv.2)) <$> sort_entries m)) by (by apply decode_raw_ok, sort_entries_NoDup).
  unfold Parse, ExtractInfoBytes, ParseInfo. rewrite HV, HVI, HD, HDI, HR.
  cbn [map_err of_option mbind option_bind as_map]. simpl_res. rewrite Hf. cbn [mbind option_bind as_map of_option]. simpl_res.
  split; [done|]. split; [|done]. by rewrite (raw_field_encode _ _ _ Hf).
Qed.

(** They read back the torrent that [finalize] writes around a good info dictionary. *)
Lemma read_back order opts l layers now meta : good_info l → good_meta opts layers now →
  let info := BDict (sort_entries l) in
  let data := encode (BDict (sort_entries (meta_entries opts info layers now))) in
  small data → parseInfoMap order (sort_entries l) = Ok meta →
  Parse order data = Ok meta ∧ ExtractInfoBytes data = Ok (encode info) ∧ ParseInfo order (encode info) = Ok meta.
Proof.
  intros Hi Hm info data. pose proof (meta_entries_good opts l layers now Hi Hm) as [Hall Hlen].
  apply read_entries; [apply meta_entries_NoDup|done|done|apply meta_entries_info].
Qed.

Lemma VerifyInfoHash_link data name tr :
  ∃ mag, ParseMagnet (magnet_link (hex_encode (sha1 data)) (hex_encode (sha256 data)) name tr) = Ok mag
    ∧ DisplayName mag = name ∧ Trackers mag = [tr] ∧ VerifyInfoHash data mag = Ok tt.
Proof.
  rewrite ParseMagnet_link; [|by apply (isHex_encode _ 20), length_sha1|by apply (isHex_encode _ 32), length_sha256].
  eexists. split; [reflexivity|]. split; [done|]. split; [done|]. unfold VerifyInfoHash. cbn [InfoHashV1 InfoHashV2].
  rewrite !(bool_decide_false (hex_encode _ ≠ hex_encode _)) by tauto. by rewrite !andb_false_r.
Qed.

(** ** Single-file torrents *)

Definition single_entries (opts : CreateOptions) (fr : fileResult) (filename : bytes) : list (bytes * tree) :=
  let d := set [] (str "file tree") (BDict [(filename, BDict [([], BDict (v2Entry fr))])]) in
  let d := set d (str "length") (BInt (size fr)) in
  let d := set d (str "meta version") (BInt 2) in
  let d := set d (str "name") (BStr filename) in
  let d := set d (str "piece length") (BInt (OPieceLength opts)) in
  let d := set d (str "pieces") (BStr (v1PiecesSHA1 fr)) in
  let d := set_if (bool_decide (OSource opts ≠ [])) d (str "source") (BStr (OSource opts)) in
  set_if (OPrivate opts) d (str "private") (BInt 1).

Lemma single_entries_NoDup opts fr filename : NoDup (single_entries opts fr filename).*1.
Proof. unfold single_entries. auto 20 with weightless. Qed.

Lemma single_fields opts fr filename :
  let l := single_entries opts fr filename in
  field (str "name") l = Some (BStr filename) ∧ field (str "piece length") l = Some (BInt (OPieceLength opts))
  ∧ field (str "pieces") l = Some (BStr (v1PiecesSHA1 fr)) ∧ field (str "length") l = Some (BInt (size fr))
  ∧ field (str "files") l = None.
Proof.
  cbn zeta. unfold single_entries. split_and!; rewrite !field_set_if by auto 20 with weightless; rewrite !andb_false_r by done;
    repeat (rewrite field_set by auto 20 with weightless; try (rewrite bool_decide_true by done; done); rewrite bool_decide_false by done);
    done.
Qed.

(** Piece layers: strings under distinct keys, at most [n] of them. *)
Record good_layers (n : nat) (layers : list (bytes * tree)) : Prop := {
  gl_count : (length layers ≤ n)%nat;
  gl_strings : Forall (λ kv, ∃ s, kv.2 = BStr s) layers;
  gl_keys : NoDup layers.*1 }.

Lemma good_layers_nil : good_layers 0 [].
Proof. constructor; [done|constructor|constructor]. Qed.

Lemma add_layer_ok n fr layers : good_layers n layers →
  ((0 < length (pieceLayerHash fr))%nat → ∃ r, field (str "pieces root") (v2Entry fr) = Some (BStr r)) →
  ∃ layers', add_piece_layer fr layers = Ok layers' ∧ good_layers (S n) layers'.
Proof.
  intros [H1 H2 H3] Hr. unfold add_piece_layer. destruct (Nat.ltb_spec 0 (length (pieceLayerHash fr))) as [Hp|_].
  - destruct (Hr Hp) as [r ->]. eexists. split; [reflexivity|]. unfold insert_key.
    set (l := set _ _ _). assert (Hn : NoDup l.*1) by (by apply set_NoDup). pose proof (sort_entries_perm l Hn) as P.
    constructor; [rewrite (Permutation_length P); by apply set_le| |by apply sort_entries_NoDup].
    rewrite P. apply set_Forall; [done|done|]. by eexists.
  - exists layers. split; [done|]. constructor; [lia|done|done].
Qed.

Lemma layers_of_hybrid k data : ∃ layers, add_piece_layer (hybrid_hashes k data) [] = Ok layers ∧ good_layers 1 layers.
Proof. apply (add_layer_ok 0); [apply good_layers_nil|]. intros _. by eexists. Qed.

Lemma length_flat_map_sha1 l : length (flat_map sha1 l) = (20 * length l)%nat.
Proof. induction l as [|x l IH]; [done|]. cbn [flat_map length]. rewrite length_app, length_sha1, IH. lia. Qed.
Lemma populate_run opts fr filename layers : add_piece_layer fr [] = Ok layers →
  populateSingleFileInfo newOrderedDict [] opts fr filename = Ok ((λ kv, (kv.1, VTree kv.2)) <$> single_entries opts fr filename, layers).
Proof.
  intros Hl. unfold populateSingleFileInfo. rewrite Hl. simpl_res. do 2 f_equal. unfold single_entries.
  change newOrderedDict with ((λ kv, (kv.1, VTree kv.2)) <$> ([] : list (bytes * tree))).
  by rewrite !set_fmap, !set_if_fmap.
Qed.

(** The metadata of a single file cut in pieces of [2^k] blocks. *)
Definition single_meta (k : nat) (name data : bytes) : TorrentMeta := {|
  Name := name; PieceLength := Z.of_nat (piece_bytes k); PieceCount := Z.of_nat (length (chunks (piece_bytes k) data));
  TotalSize := zlen data; Files := [{| Path := name; Length := zlen data |}];
  Pieces := Some (flat_map sha1 (chunks (piece_bytes k) data)) |}.

Lemma single_good opts k data filename : in_int64 (zlen data) → in_int64 (OPieceLength opts) →
  good_info (single_entries opts (hybrid_hashes k data) filename).
Proof.
  intros Hz Hp. assert (I1 : plain_tree (BInt (zlen data)) = true) by (by apply bool_decide_eq_true).
  assert (I2 : plain_tree (BInt (OPieceLength opts)) = true) by (by apply bool_decide_eq_true).
  constructor; [apply single_entries_NoDup| | |].
  - assert (H : (length (single_entries opts (hybrid_hashes k data) filename) ≤ 8)%nat).
    { unfold single_entries. repeat first [apply set_if_le | apply set_le]. simpl. lia. }
    unfold zlen. lia.
  - unfold single_entries. repeat first [apply set_if_Forall | apply set_Forall | apply Forall_nil_2];
      try (by auto 20 with weightless); cbn [snd]; intros; done.
  - unfold single_entries. repeat first [apply set_if_Forall | apply set_Forall | apply Forall_nil_2];
      try (by auto 20 with weightless); cbn [snd]; intros; try done.
    cbn [hybrid_hashes merkle_hashes v2Entry plain_tree forallb snd fst fmap list_fmap]. rewrite !andb_true_r.
    rewrite !andb_true_iff. split_and!; try done; apply bool_decide_eq_true; repeat constructor; set_solver.
Qed.

Lemma piece_length_ok k : Z.of_nat (piece_bytes k) < 2 ^ 63 → bad_piece_length (Z.of_nat (piece_bytes k)) = false.
Proof.
  intros Hb. pose proof (piece_bytes_pos k). pose proof B_val. unfold bad_piece_length, MinPieceLength. apply orb_false_iff.
  split; [unfold BlockSize in *; lia|]. apply negb_false_iff, isPowerOfTwo_ok; [lia|]. exists (Z.of_nat k + 14).
  split; [lia|]. rewrite piece_bytes_Z, Z.pow_add_r by lia. done.
Qed.

(** Parsing the info dictionary of a single file. *)
Lemma parse_single order opts k data filename : safe_name filename → data ≠ [] →
  zlen data + Z.of_nat (piece_bytes k) < 2 ^ 62 → OPieceLength opts = Z.of_nat (piece_bytes k) →
  parseInfoMap order (sort_entries (single_entries opts (hybrid_hashes k data) filename)) = Ok (single_meta k filename data).
Proof.
  intros Hs Hd Hb Hp. pose proof (single_fields opts (hybrid_hashes k data) filename) as (Fn & Fp & Fs & Fl & Ff).
  pose proof (single_entries_NoDup opts (hybrid_hashes k data) filename) as Hn. pose proof (piece_bytes_pos k). pose proof B_pos.
  unfold parseInfoMap. rewrite !field_sorted, Fn, Fp, Fs, Fl, Ff by done. rewrite Hp. cbn [mbind option_bind as_string as_int default from_option id of_option].
  simpl_res. destruct (Z.leb_spec (Z.of_nat (piece_bytes k)) 0); [lia|]. cbn [hybrid_hashes merkle_hashes v1PiecesSHA1 size].
  set (n := length (chunks (piece_bytes k) data)).
  assert (Hz : zlen (flat_map sha1 (chunks (piece_bytes k) data)) = Z.of_nat n * 20) by (unfold zlen; rewrite length_flat_map_sha1; subst n; lia).
  fold (piece_bytes k). rewrite Hz, Z.rem_mul, Z.quot_mul by done. cbn [negb Z.eqb].
  rewrite (proj2 (safeJoin_ok [filename] filename)) by (split_and!; [done|by apply Forall_singleton|done]). simpl_res.
  cbn [app sum_lengths foldl Length]. rewrite bool_decide_false by done. simpl_res.
  unfold ceil_pieces. rewrite (numPieces_ok (piece_bytes k) data) by lia.
  fold n. rewrite Z.eqb_refl. cbn [negb]. rewrite andb_false_r.
  assert (Hn0 : (0 < n)%nat).
  { pose proof (length_chunks (piece_bytes k) data ltac:(lia)). assert (0 < length data)%nat by (destruct data; simpl; [done|lia]). subst n. destruct (length (chunks _ _)); lia. }
  destruct (Z.eqb_spec (Z.of_nat n) 0); [lia|]. done.
Qed.
End roundtrip.

(** A stream that is read completely: the torrent, its hashes and its link, and what is read back of it. *)
Lemma create_stream_ok `{B : Bencoder} url_Parse order opts k data name now :
  BencoderLaws B → safe_name name → data ≠ [] → zlen data + Z.of_nat (piece_bytes k) < 2 ^ 62 →
  OPieceLength opts = Z.of_nat (piece_bytes k) → OAnnounceURL opts ≠ [] → validateWebSeeds url_Parse (OWebSeeds opts) = true →
  zlen (OWebSeeds opts) ≤ 2 ^ 17 → in_int64 now →
  ∃ res info, CreateStream url_Parse opts {| content := data; fails := false |} (zlen data) name now = Ok res
    ∧ InfoHashHex res = hex_encode (sha256 info) ∧ RInfoHashV1Hex res = hex_encode (sha1 info)
    ∧ MagnetLink res = magnet_link (hex_encode (sha1 info)) (hex_encode (sha256 info)) (OName opts) (OAnnounceURL opts)
    ∧ TorrentBytes res ≠ []
    ∧ (small (TorrentBytes res) → Parse order (TorrentBytes res) = Ok (single_meta k name data)
        ∧ ExtractInfoBytes (TorrentBytes res) = Ok info ∧ ParseInfo order info = Ok (single_meta k name data)).
Proof.
  intros HB Hname Hd Hb Hp Ha Hw Hwn Hnow. pose proof (piece_bytes_pos k) as Hk. pose proof B_pos.
  assert (Hlen : 0 < zlen data) by (destruct data; unfold zlen; simpl; [done|lia]).
  assert (Hne : name ≠ []) by (by destruct Hname as ((? & _) & _)).
  assert (Hpow : bad_piece_length (OPieceLength opts) = false).
  { rewrite Hp. apply piece_length_ok. lia. }
  set (opts' := with_defaults opts (OName opts)).
  assert (Hopts : OPieceLength opts' = Z.of_nat (piece_bytes k)).
  { subst opts'. cbn. rewrite Hp. destruct (Z.eqb_spec (Z.of_nat (piece_bytes k)) 0); lia. }
  unfold CreateStream. fold opts'. change (OAnnounceURL opts') with (OAnnounceURL opts). change (OWebSeeds opts') with (OWebSeeds opts).
  rewrite bool_decide_false by done. rewrite Hopts, <- Hp, Hpow, Hp. destruct (Z.leb_spec (zlen data) 0); [lia|].
  rewrite bool_decide_false by done. rewrite Hw. cbn [negb]. rewrite hashReaderHybrid_ok by done. cbn [map_err]. simpl_res.
  destruct (layers_of_hybrid k data) as (layers & Hl & [Hln Hls Hlk]). rewrite (populate_run _ _ _ _ Hl). simpl_res.
  rewrite (finalize_run HB) by apply single_entries_NoDup. eexists _, _. split_and!; [reflexivity|done|done|done|done|]. cbn [TorrentBytes]. intros Hs.
  apply (read_back HB order opts' (single_entries opts' (hybrid_hashes k data) name) layers now (single_meta k name data));
    [|constructor; unfold zlen in *; done || lia|done|by apply parse_single].
  apply single_good; [unfold in_int64; lia|rewrite Hopts; unfold in_int64; lia].
Qed.

(** ** The properties *)

(** C18. A torrent created from a stream is read back: for a nonempty stream read completely, a safe
    file name, a piece length of [2^k] blocks and valid options, [CreateStream] succeeds, and as long
    as the torrent is within 8 MiB, [Parse] of it gives the name, the piece length, the piece hashes,
    the size and the single file it was made from; [ExtractInfoBytes] gives info bytes that [ParseInfo]
    reads the same way and that [VerifyInfoHash] accepts for the magnet link of the result. *)
Theorem create_stream_roundtrip `{B : Bencoder} url_Parse order opts k data name now :
  BencoderLaws B → safe_name name → data ≠ [] → zlen data + Z.of_nat (piece_bytes k) < 2 ^ 62 →
  OPieceLength opts = Z.of_nat (piece_bytes k) → OAnnounceURL opts ≠ [] → validateWebSeeds url_Parse (OWebSeeds opts) = true →
  zlen (OWebSeeds opts) ≤ 2 ^ 17 → in_int64 now →
  ∃ res, CreateStream url_Parse opts {| content := data; fails := false |} (zlen data) name now = Ok res ∧
    (small (TorrentBytes res) →
     Parse order (TorrentBytes res) = Ok (single_meta k name data) ∧
     ∃ info mag, ExtractInfoBytes (TorrentBytes res) = Ok info ∧ ParseInfo order info = Ok (single_meta k name data)
       ∧ ParseMagnet (MagnetLink res) = Ok mag ∧ DisplayName mag = OName opts ∧ Trackers mag = [OAnnounceURL opts]
       ∧ VerifyInfoHash info mag = Ok tt).
Proof.
  intros HB Hname Hd Hb Hp Ha Hw Hwn Hnow.
  destruct (create_stream_ok url_Parse order opts k data name now HB Hname Hd Hb Hp Ha Hw Hwn Hnow) as (res & info & E & _ & _ & El & _ & Hr).
  exists res. split; [done|]. intros Hs. destruct (Hr Hs) as (R1 & R2 & R3). split; [done|].
  destruct (VerifyInfoHash_link info (OName opts) (OAnnounceURL opts)) as (mag & E1 & E2 & E3 & E4). exists info, mag. by rewrite El.
Qed.

Module SampleTorrent.
Definition url_Parse (ws : bytes) : option (bytes * bytes) :=
  if has_prefix ws (str "https://") then Some (str "https", drop 8 ws) else None.
Definition opts : CreateOptions := {|
  OPath := []; OName := str "A & B"; OPieceLength := 16384; OAnnounceURL := str "http://t/announce"; OPrivate := true;
  OComment := str "c"; OSource := []; OCreatedBy := str "wl"; OWebSeeds := [str "https://o/f"] |}.
Definition data : bytes := zeros (Z.to_nat 20000).
Definition name : bytes := str "f.bin".
Definition now : Z := 1700000000.
End SampleTorrent.

Theorem create_stream_roundtrip_witness : let o := SampleTorrent.opts in let d := SampleTorrent.data in
  ∃ res, @CreateStream ref_codec SampleTorrent.url_Parse o {| content := d; fails := false |} (zlen d) SampleTorrent.name
           SampleTorrent.now = Ok res ∧
    (small (TorrentBytes res) →
     @Parse ref_codec id (TorrentBytes res) = Ok (single_meta 0 SampleTorrent.name d) ∧
     ∃ info mag, @ExtractInfoBytes ref_codec (TorrentBytes res) = Ok info
       ∧ @ParseInfo ref_codec id info = Ok (single_meta 0 SampleTorrent.name d)
       ∧ ParseMagnet (MagnetLink res) = Ok mag ∧ DisplayName mag = OName o ∧ Trackers mag = [OAnnounceURL o]
       ∧ VerifyInfoHash info mag = Ok tt).
Proof.
  assert (L : zlen SampleTorrent.data = 20000) by (unfold zlen, SampleTorrent.data; rewrite length_zeros; lia).
  apply (@create_stream_roundtrip ref_codec SampleTorrent.url_Parse id SampleTorrent.opts 0 SampleTorrent.data SampleTorrent.name SampleTorrent.now).
  - exact ref_codec_laws.
  - apply check_component_ok. reflexivity.
  - intros E. rewrite E in L. done.
  - rewrite L, piece_bytes_Z. unfold BlockSize. lia.
  - rewrite piece_bytes_Z. reflexivity.
  - done.
  - reflexivity.
  - done.
  - vm_compute. split; done.
Defined.
