(* ===== verification/TorrentDirs.v ===== *)
(** * Directory torrents

    Theorems about [buildDirHybrid] of [Create]: the v1 hash runs over the concatenation of the files
    whatever the sizes of the reads, the BEP 52 file tree stays within what the parser accepts, and a
    torrent made from a directory is read back with its files. *)

From S2P Require Import Prelude Strconv Hex Sha GoStrings NetAddr Bencode Recognize Url Codec Paths Merkle Magnet Metainfo Create TorrentFiles.
From Stdlib Require Import ZArith Lia.
Local Open Scope Z_scope.

(** ** The running v1 hash *)

Definition pieces_sha1 (p : nat) (data : bytes) : bytes := flat_map sha1 (chunks p data).

Definition running_ok (p : nat) (st : running) : Prop :=
  sha1BytesInPiece st = zlen (run_hasher st) ∧ (length (run_hasher st) < p)%nat.

(** All the v1 hashes, if [rest] were still to come. *)
Definition digest (p : nat) (st : running) (rest : bytes) : bytes := allV1Pieces st ++ pieces_sha1 p (run_hasher st ++ rest).

Lemma feed_ok p : (0 < p)%nat → ∀ f buf st, (length buf ≤ f)%nat → running_ok p st →
  ∃ st', feed f (Z.of_nat p) buf st = Ok st' ∧ running_ok p st' ∧ ∀ rest, digest p st' rest = digest p st (buf ++ rest).
Proof.
  intros Hp f. induction f as [|f IH]; intros buf st Hl [Hc Hr].
  - destruct buf; [|simpl in Hl; lia]. by exists st.
  - destruct (decide (buf = [])) as [->|Hb]; [by exists st|]. assert (Hpos : (0 < length buf)%nat) by (destruct buf; simpl; [done|lia]).
    cbn [feed]. rewrite (proj2 (Nat.ltb_lt _ _)) by done. rewrite Hc. unfold zlen.
    set (space := Z.of_nat p - Z.of_nat (length (run_hasher st))).
    set (w := if space <? Z.of_nat (length buf) then space else Z.of_nat (length buf)).
    assert (Hw : 0 < w ≤ Z.of_nat (length buf) ∧ w ≤ space).
    { subst w space. destruct (Z.ltb_spec (Z.of_nat p - Z.of_nat (length (run_hasher st))) (Z.of_nat (length buf))); lia. }
    destruct (Z.ltb_spec w 0); [lia|]. set (hasher := run_hasher st ++ take (Z.to_nat w) buf).
    assert (Hh : Z.of_nat (length hasher) = Z.of_nat (length (run_hasher st)) + w).
    { subst hasher. rewrite length_app, length_take. lia. }
    set (st1 := if _ =? _ then _ else _).
    assert (H1 : running_ok p st1 ∧ ∀ rest, digest p st1 rest = digest p st (take (Z.to_nat w) buf ++ rest)).
    { subst st1. unfold digest, pieces_sha1. rewrite <- Hh. destruct (Z.eqb_spec (Z.of_nat (length hasher)) (Z.of_nat p)) as [E|E].
      - split; [split; cbn; [done|lia]|]. intros rest. cbn [allV1Pieces run_hasher app]. rewrite (app_assoc (run_hasher st)). fold hasher.
        rewrite (chunks_app p hasher) by (done || lia). cbn [flat_map]. by rewrite app_assoc.
      - split; [split; cbn; [done|subst space; lia]|]. intros rest. cbn [allV1Pieces run_hasher]. subst hasher. by rewrite <- app_assoc. }
    destruct H1 as [H1 H2]. destruct (IH (drop (Z.to_nat w) buf) st1) as (st' & -> & H3 & H4); [rewrite length_drop; lia|done|].
    exists st'. split; [done|]. split; [done|]. intros rest. rewrite H4, H2, app_assoc. by rewrite take_drop.
Qed.

Lemma feed_all_ok p rs : (0 < p)%nat → ∀ st, running_ok p st →
  ∃ st', feed_all (Z.of_nat p) rs st = Ok st' ∧ running_ok p st' ∧ ∀ rest, digest p st' rest = digest p st (concat rs ++ rest).
Proof.
  intros Hp. induction rs as [|r rs IH]; intros st Hst; cbn [feed_all concat]; [by exists st|].
  destruct (feed_ok p Hp (S (length r)) r st) as (st1 & -> & H1 & H2); [lia|done|]. simpl_res.
  destruct (IH st1 H1) as (st' & -> & H3 & H4). exists st'. split; [done|]. split; [done|].
  intros rest. by rewrite H4, H2, app_assoc.
Qed.

Lemma digest_end p st : running_ok p st →
  digest p st [] = if 0 <? sha1BytesInPiece st then allV1Pieces st ++ sha1 (run_hasher st) else allV1Pieces st.
Proof.
  intros [Hc Hr]. unfold digest, pieces_sha1. rewrite app_nil_r, Hc. unfold zlen.
  destruct (run_hasher st) as [|b l] eqn:E; [by rewrite app_nil_r|]. rewrite chunks_short by (simpl in *; done || lia).
  cbn [flat_map]. by rewrite app_nil_r.
Qed.

(** ** The file tree *)

Definition entry_ok (e : list (bytes * tree)) : Prop :=
  plain_tree (BDict e) = true ∧ ∀ d, d ≤ 63 → shape TorrentLimits d (BDict e) = true.

(** A directory node with at most [n] levels below it and at most [m] keys in each node. *)
Fixpoint node_ok (n m : nat) (l : list (bytes * tree)) : Prop :=
  NoDup l.*1 ∧ (length l ≤ m)%nat ∧
  Forall (λ kv, if decide (kv.1 = []) then ∃ e, kv.2 = BDict e ∧ entry_ok e
                else match n with O => False | S n' => ∃ d, kv.2 = BDict d ∧ node_ok n' m d end) l.

Lemma node_ok_nil n m : node_ok n m [].
Proof. destruct n; cbn; split_and!; constructor || lia. Qed.

Lemma node_ok_leaf n m e : entry_ok e → node_ok n (S m) [([], BDict e)].
Proof.
  intros He. destruct n; cbn; (split_and!; [apply NoDup_singleton|lia|]); apply Forall_singleton; cbn; by exists e.
Qed.

Lemma node_ok_more n : ∀ m l, node_ok n m l → node_ok n (S m) l.
Proof.
  induction n as [|n IH]; intros m l (H1 & H2 & H3); cbn; (split_and!; [done|lia|]);
    (eapply Forall_impl; [exact H3|]; intros [k v] H; cbn [fst snd] in *; case_decide; [done|]); [done|].
  destruct H as (d & -> & Hd). exists d. split; [done|]. by apply IH.
Qed.

Lemma node_ok_insert n m l k d : node_ok (S n) m l → k ≠ [] → node_ok n (S m) d → node_ok (S n) (S m) (insert_key k (BDict d) l).
Proof.
  intros Hl Hk Hd. pose proof Hl as (_ & Hlen & _). apply node_ok_more in Hl as (H1 & _ & H3).
  assert (Hn : NoDup (set l k (BDict d)).*1) by (by apply set_NoDup). pose proof (sort_entries_perm _ Hn) as P. unfold insert_key.
  cbn. split_and!; [by apply sort_entries_NoDup| |].
  - rewrite (Permutation_length P). by apply set_le.
  - rewrite P. apply set_Forall; [done|done|]. cbn [fst snd]. rewrite decide_False by done. by exists d.
Qed.

Lemma insertFileEntry_ok e : entry_ok e → ∀ parts n m l, parts ≠ [] → Forall (λ p, p ≠ []) parts → (length parts ≤ n)%nat →
  node_ok n m l → ∃ l', insertFileEntry l parts e = Ok l' ∧ node_ok n (S m) l'.
Proof.
  intros He parts. induction parts as [|p parts IH]; intros n m l Hn Hf Hlen Hl; [done|].
  apply Forall_cons in Hf as [Hp Hf]. destruct n as [|n]; [simpl in Hlen; lia|]. destruct parts as [|q parts].
  - eexists. split; [reflexivity|]. apply node_ok_insert; [done|done|by apply node_ok_leaf].
  - change (insertFileEntry l (p :: q :: parts) e) with
      (sub ← match field p l with None => Ok [] | Some (BDict d) => Ok d | Some _ => Panic end;
       sub ← insertFileEntry sub (q :: parts) e; Ok (insert_key p (BDict sub) l)).
    assert (Hsub : ∃ d, match field p l with None => Ok [] | Some (BDict d) => Ok d | Some _ => Panic end = (Ok d : result create_err _) ∧ node_ok n m d).
    { destruct (field p l) as [v|] eqn:E; [|exists []; split; [done|apply node_ok_nil]]. destruct Hl as (H1 & _ & H3).
      apply field_unique in E; [|done]. rewrite Forall_forall in H3. specialize (H3 _ E). cbn [fst snd] in H3.
      rewrite decide_False in H3 by done. destruct H3 as (d & -> & Hd). by exists d. }
    destruct Hsub as (d & -> & Hd). simpl_res. destruct (IH n m d) as (d' & -> & Hd'); [done|done|simpl in *; lia|done|].
    simpl_res. eexists. split; [reflexivity|]. by apply node_ok_insert.
Qed.

Lemma dict_limits l d : NoDup l.*1 → zlen l ≤ 2 ^ 14 → d ≤ 63 →
  Forall (λ kv, plain_tree kv.2 = true ∧ shape TorrentLimits (d + 1) kv.2 = true) l →
  plain_tree (BDict l) = true ∧ shape TorrentLimits d (BDict l) = true.
Proof.
  intros H1 H2 Hd Hall. cbn [plain_tree shape]. rewrite bool_decide_true by done. cbn [andb].
  assert (E1 : (d + 1 <=? MaxDepth TorrentLimits) = true) by (apply Z.leb_le; change (MaxDepth TorrentLimits) with 64; lia).
  assert (E2 : within (MaxKeysPerDict TorrentLimits) (zlen l) = true).
  { change (MaxKeysPerDict TorrentLimits) with (2 ^ 14). unfold within. lia. }
  rewrite E1, E2. split; apply forallb_forall; intros kv Hkv%list_elem_of_In; rewrite Forall_forall in Hall; by apply Hall.
Qed.

Lemma node_ok_limits n : ∀ m l d, node_ok n m l → Z.of_nat m ≤ 2 ^ 14 → d + Z.of_nat n ≤ 62 →
  plain_tree (BDict l) = true ∧ shape TorrentLimits d (BDict l) = true.
Proof.
  induction n as [|n IH]; intros m l d (H1 & H2 & H3) Hm Hd; (apply dict_limits; [done|unfold zlen; lia|lia|]);
    (eapply Forall_impl; [exact H3|]; intros [k v] H; cbn [fst snd] in *; case_decide;
      [destruct H as (e & -> & He1 & He2); split; [done|apply He2; lia]|]); [done|].
  destruct H as (d' & -> & Hd'). by apply (IH m d' (d + 1)); [|done|lia].
Qed.

(** ** The files *)

Section files.
Context {B : Bencoder} (laws : BencoderLaws B) (k : nat).

#[local] Abbreviation p := (piece_bytes k).

Definition file_content (f : FileData) : bytes := content (reader f).

(** A file that can be read, with the same content both times. *)
Definition readable_file (f : FileData) : Prop :=
  fails (reader f) = false ∧ stat_size f = zlen (file_content f) ∧ concat (reads f) = file_content f ∧ reads_fail f = false.

(** A relative path of safe names, not too deep. *)
Definition safe_path (path : bytes) : Prop := Forall safe_name (split slash path) ∧ (length (split slash path) ≤ 60)%nat.

Lemma hash_file_ok f : readable_file f → zlen (file_content f) + Z.of_nat p < 2 ^ 62 →
  ∃ fr, hash_file f (Z.of_nat p) = Ok fr ∧ size fr = zlen (file_content f) ∧ entry_ok (v2Entry fr)
    ∧ ((0 < length (pieceLayerHash fr))%nat → ∃ r, field (str "pieces root") (v2Entry fr) = Some (BStr r)).
Proof.
  intros (Hf & Hs & _) Hb. unfold hash_file, file_content in *. destruct (reader f) as [c fl]. cbn in *. subst fl. rewrite Hs.
  assert (Hent : ∀ l, l.*1 = [str "length"] ∨ l.*1 = [str "length"; str "pieces root"] → Forall (λ kv, plain_tree kv.2 = true ∧ ∀ d, shape TorrentLimits d kv.2 = true) l → entry_ok l).
  { intros l Hk Hl. assert (Hn : NoDup l.*1) by (destruct Hk as [-> | ->]; decide_now).
    assert (Hlen : (length l.*1 ≤ 2)%nat) by (by destruct Hk as [-> | ->]; simpl; lia). rewrite length_fmap in Hlen.
    assert (E : ∀ d, d ≤ 63 → plain_tree (BDict l) = true ∧ shape TorrentLimits d (BDict l) = true).
    { intros d Hd. apply dict_limits; [done|unfold zlen; lia|done|]. eapply Forall_impl; [exact Hl|]. cbn. intros ? [? ?]. auto. }
    split; [by apply (E 0)|]. intros d Hd. by apply E. }
  destruct (decide (c = [])) as [->|Hc].
  - eexists. split; [reflexivity|]. cbn. split; [done|]. split; [|lia]. apply Hent; [by left|]. by repeat constructor.
  - rewrite hashReaderHybrid_ok by done. eexists. split; [reflexivity|]. split; [done|]. split; [|by intros _; eexists].
    apply Hent; [by right|]. cbn [hybrid_hashes merkle_hashes v2Entry]. repeat constructor; cbn. apply bool_decide_eq_true. unfold zlen in *. lia.
Qed.

Definition v1_file (pf : bytes * FileData) : tree :=
  BDict [(str "length", BInt (zlen (file_content pf.2))); (str "path", BList (BStr <$> split slash pf.1))].

Lemma dir_loop_ok n files : ∀ fileTree layers v1Files st m,
  Forall (λ pf, readable_file pf.2 ∧ zlen (file_content pf.2) + Z.of_nat p < 2 ^ 62) files →
  Forall (λ pf, Forall safe_name (split slash pf.1) ∧ (length (split slash pf.1) ≤ n)%nat) files →
  node_ok n m fileTree → good_layers m layers → running_ok p st →
  ∃ fileTree' layers' st', dir_loop files (Z.of_nat p) fileTree layers v1Files st = Ok (fileTree', layers', v1Files ++ (v1_file <$> files), st')
    ∧ node_ok n (m + length files) fileTree' ∧ good_layers (m + length files) layers' ∧ running_ok p st'
    ∧ ∀ rest, digest p st' rest = digest p st (concat ((λ pf, file_content pf.2) <$> files) ++ rest).
Proof.
  induction files as [|[path f] files IH]; intros fileTree layers v1Files st m Hr Hs Ht Hl Hst; cbn [dir_loop].
  - exists fileTree, layers, st. rewrite app_nil_r, Nat.add_0_r. by split_and!.
  - apply Forall_cons in Hr as [[Hf Hfb] Hr]. apply Forall_cons in Hs as [[Hsafe Hdepth] Hs]. cbn [fst snd] in *.
    destruct (hash_file_ok f Hf Hfb) as (fr & -> & Hsz & He & Hroot). simpl_res.
    destruct (insertFileEntry_ok _ He (split slash path) n m fileTree) as (fileTree1 & -> & Ht1); [|eapply Forall_impl; [exact Hsafe|by intros ? ((? & _) & _)]|done|done|].
    { by destruct (split_cons slash path) as (? & ? & ->). }
    simpl_res. destruct (add_layer_ok m fr layers Hl Hroot) as (layers1 & -> & Hl1). simpl_res.
    destruct (feed_all_ok p (reads f)) with (st := st) as (st1 & -> & Hst1 & Hd1); [pose proof (piece_bytes_pos k); pose proof B_pos; lia|done|].
    simpl_res. destruct Hf as (_ & _ & Hreads & ->).
    destruct (IH fileTree1 layers1 (v1Files ++ [BDict [(str "length", BInt (size fr)); (str "path", BList (BStr <$> split slash path))]]) st1 (S m))
      as (fileTree' & layers' & st' & -> & Ht' & Hl' & Hst' & Hd'); [done..|].
    exists fileTree', layers', st'. rewrite Hsz. cbn [length]. rewrite Nat.add_succ_r. split_and!; [|done|done|done|].
    + by rewrite <- app_assoc.
    + intros rest. rewrite Hd', Hd1. cbn [fmap list_fmap concat snd]. by rewrite Hreads, app_assoc.
Qed.
Definition dir_entries (opts : CreateOptions) (fileTree : list (bytes * tree)) (v1Files : list tree) (pieces : bytes) : list (bytes * tree) :=
  let d := set [] (str "file tree") (BDict fileTree) in
  let d := set d (str "files") (BList v1Files) in
  let d := set d (str "meta version") (BInt 2) in
  let d := set d (str "name") (BStr (OName opts)) in
  let d := set d (str "piece length") (BInt (OPieceLength opts)) in
  let d := set d (str "pieces") (BStr pieces) in
  let d := set_if (bool_decide (OSource opts ≠ [])) d (str "source") (BStr (OSource opts)) in
  set_if (OPrivate opts) d (str "private") (BInt 1).

Lemma dir_entries_NoDup opts t fs ps : NoDup (dir_entries opts t fs ps).*1.
Proof. unfold dir_entries. auto 20 with weightless. Qed.

Lemma dir_fields opts t fs ps :
  let l := dir_entries opts t fs ps in
  field (str "name") l = Some (BStr (OName opts)) ∧ field (str "piece length") l = Some (BInt (OPieceLength opts))
  ∧ field (str "pieces") l = Some (BStr ps) ∧ field (str "length") l = None ∧ field (str "files") l = Some (BList fs).
Proof.
  cbn zeta. unfold dir_entries. split_and!; rewrite !field_set_if by auto 20 with weightless; rewrite !andb_false_r by done;
    repeat (rewrite field_set by auto 20 with weightless; try (rewrite bool_decide_true by done; done); rewrite bool_decide_false by done);
    done.
Qed.

(** The files' bytes one after the other, and their entries. *)
Definition all_bytes (files : list (bytes * FileData)) : bytes := concat ((λ pf, file_content pf.2) <$> files).
Definition entry_of (pf : bytes * FileData) : FileEntry := {| Path := pf.1; Length := zlen (file_content pf.2) |}.

Lemma v1_files_limits files : Forall (λ pf, zlen (file_content pf.2) < 2 ^ 62) files → Forall (λ pf, (length (split slash pf.1) ≤ 60)%nat) files →
  zlen files ≤ 2 ^ 14 → plain_tree (BList (v1_file <$> files)) = true ∧ shape TorrentLimits 2 (BList (v1_file <$> files)) = true.
Proof.
  intros Hz Hd Hn. assert (E : Forall (λ t, plain_tree t = true ∧ shape TorrentLimits 3 t = true) (v1_file <$> files)).
  { apply Forall_fmap, Forall_forall. intros [path f] Hin. rewrite Forall_forall in Hz, Hd. specialize (Hz _ Hin). specialize (Hd _ Hin).
    cbn [fst snd] in *. apply dict_limits; [decide_now|done|done|].
    assert (Hall : forallb plain_tree (BStr <$> split slash path) = true ∧ forallb (shape TorrentLimits 5) (BStr <$> split slash path) = true).
    { clear. induction (split slash path) as [|s l [IH1 IH2]]; [done|]. cbn [fmap list_fmap forallb]. by rewrite IH1, IH2. }
    destruct Hall as [H1 H2]. repeat constructor; cbn [snd plain_tree shape].
    - apply bool_decide_eq_true. pose proof (zlen_nonneg (file_content f)). lia.
    - exact H1.
    - cbn [fst]. change (3 + 1 + 1) with 5. rewrite H2. unfold within, zlen. rewrite length_fmap. change (MaxListLen TorrentLimits) with (2 ^ 17).
      change (MaxDepth TorrentLimits) with 64. lia. }
  assert (Hn' : within (MaxListLen TorrentLimits) (zlen (v1_file <$> files)) = true).
  { unfold within, zlen in *. rewrite length_fmap. change (MaxListLen TorrentLimits) with (2 ^ 17). lia. }
  cbn [plain_tree shape]. rewrite Hn'. split; apply forallb_forall; intros t Ht%list_elem_of_In; rewrite Forall_forall in E; by apply E.
Qed.

(** The v1 list is read back. *)
Lemma parse_files_ok files : Forall (λ pf, Forall safe_name (split slash pf.1)) files → ∀ i,
  parse_files i (v1_file <$> files) = Ok (entry_of <$> files).
Proof.
  induction 1 as [|[path f] files Hs Hf IH]; intros i; [done|]. cbn [fmap list_fmap parse_files]. cbn [fst] in Hs.
  assert (E : parse_file i (v1_file (path, f)) = Ok (Some (entry_of (path, f)))).
  { unfold parse_file, v1_file. cbn [as_map snd fst]. rewrite (field_elem (str "length") (BInt (zlen (file_content f)))); [|decide_now|left].
    rewrite (field_elem (str "path") (BList (BStr <$> split slash path))); [|decide_now|right; left].
    cbn [mbind option_bind as_int as_list default from_option id]. replace (omap as_string (BStr <$> split slash path)) with (split slash path).
    2:{ clear. induction (split slash path) as [|s l IH]; [done|]. cbn. f_equal. exact IH. }
    rewrite (proj2 (safeJoin_ok (split slash path) path)); [done|]. split; [by destruct (split_cons slash path) as (? & ? & ->)|].
    split; [done|]. symmetry. apply join_split. }
  rewrite E. simpl_res. change (list_fmap _ _ v1_file files) with (v1_file <$> files). rewrite IH. done.
Qed.

Lemma sum_lengths_ok files : ∀ start, 0 ≤ start → start + zlen (all_bytes files) < 2 ^ 62 →
  sum_lengths start (entry_of <$> files) = start + zlen (all_bytes files).
Proof.
  unfold sum_lengths, all_bytes. induction files as [|[path f] files IH]; intros start H0 Hb.
  - cbn. unfold zlen. simpl. lia.
  - cbn [fmap list_fmap foldl concat snd entry_of Length] in *. rewrite zlen_app in Hb. pose proof (zlen_nonneg (file_content f)).
    pose proof (zlen_nonneg (concat ((λ pf, file_content pf.2) <$> files))). rewrite wrap64_id by (unfold in_int64; lia).
    change (list_fmap _ _ entry_of files) with (entry_of <$> files). rewrite IH by lia. rewrite zlen_app. lia.
Qed.

(** The metadata of a directory. *)
Definition dir_meta (name : bytes) (files : list (bytes * FileData)) : TorrentMeta := {|
  Name := name; PieceLength := Z.of_nat p; PieceCount := Z.of_nat (length (chunks p (all_bytes files)));
  TotalSize := zlen (all_bytes files); Files := entry_of <$> files; Pieces := Some (pieces_sha1 p (all_bytes files)) |}.

Lemma parse_dir order opts t files : files ≠ [] → Forall (λ pf, Forall safe_name (split slash pf.1)) files →
  zlen (all_bytes files) + Z.of_nat p < 2 ^ 62 → OPieceLength opts = Z.of_nat p →
  parseInfoMap order (sort_entries (dir_entries opts t (v1_file <$> files) (pieces_sha1 p (all_bytes files)))) = Ok (dir_meta (OName opts) files).
Proof.
  intros Hn Hs Hb Hp. pose proof (dir_fields opts t (v1_file <$> files) (pieces_sha1 p (all_bytes files))) as (Fn & Fp & Fs & Fl & Ff).
  pose proof (dir_entries_NoDup opts t (v1_file <$> files) (pieces_sha1 p (all_bytes files))) as Hnd.
  pose proof (piece_bytes_pos k). pose proof B_pos. pose proof (zlen_nonneg (all_bytes files)).
  unfold parseInfoMap. rewrite !field_sorted, Fn, Fp, Fs, Fl, Ff by done. rewrite Hp. cbn [mbind option_bind as_string as_int as_list default from_option id of_option].
  simpl_res. destruct (Z.leb_spec (Z.of_nat p) 0); [lia|].
  set (n := length (chunks p (all_bytes files))).
  assert (Hz : zlen (pieces_sha1 p (all_bytes files)) = Z.of_nat n * 20) by (unfold zlen, pieces_sha1; rewrite length_flat_map_sha1; subst n; lia).
  rewrite Hz, Z.rem_mul, Z.quot_mul by done. cbn [negb Z.eqb]. rewrite parse_files_ok by done. simpl_res. cbn [app].
  rewrite sum_lengths_ok by lia. rewrite Z.add_0_l.
  assert (Hne : entry_of <$> files ≠ []) by (by destruct files). rewrite bool_decide_false by done. simpl_res.
  assert (Hc : ceil_pieces (zlen (all_bytes files)) (Z.of_nat p) = Z.of_nat n) by (apply numPieces_ok; lia).
  rewrite Hc, Z.eqb_refl. cbn [negb]. rewrite andb_false_r.
  assert (E : (if (Z.of_nat n =? 0) && (0 <? zlen (all_bytes files)) then Z.of_nat n else Z.of_nat n) = Z.of_nat n) by (by destruct (_ && _)).
  by rewrite E.
Qed.
Lemma dir_good opts m fileTree files ps : node_ok 60 m fileTree → Z.of_nat m ≤ 2 ^ 14 → in_int64 (OPieceLength opts) →
  Forall (λ pf, zlen (file_content pf.2) < 2 ^ 62) files → Forall (λ pf, (length (split slash pf.1) ≤ 60)%nat) files →
  zlen files ≤ 2 ^ 14 → good_info (dir_entries opts fileTree (v1_file <$> files) ps).
Proof.
  intros Ht Hm Hp Hz Hd Hn. assert (I2 : plain_tree (BInt (OPieceLength opts)) = true) by (by apply bool_decide_eq_true).
  destruct (node_ok_limits 60 m fileTree 2 Ht Hm) as [T1 T2]; [lia|]. destruct (v1_files_limits files Hz Hd Hn) as [V1 V2].
  constructor; [apply dir_entries_NoDup| | |].
  - assert (H : (length (dir_entries opts fileTree (v1_file <$> files) ps) ≤ 8)%nat).
    { unfold dir_entries. repeat first [apply set_if_le | apply set_le]. simpl. lia. }
    unfold zlen. lia.
  - unfold dir_entries. repeat first [apply set_if_Forall | apply set_Forall | apply Forall_nil_2];
      try (by auto 20 with weightless); cbn [snd]; intros; done.
  - unfold dir_entries. repeat first [apply set_if_Forall | apply set_Forall | apply Forall_nil_2];
      try (by auto 20 with weightless); cbn [snd]; intros; done.
Qed.

Lemma all_bytes_cons pf files : zlen (all_bytes (pf :: files)) = zlen (file_content pf.2) + zlen (all_bytes files).
Proof. unfold all_bytes. cbn [fmap list_fmap concat]. apply zlen_app. Qed.

Lemma all_bytes_perm files files' : files ≡ₚ files' → zlen (all_bytes files) = zlen (all_bytes files').
Proof. induction 1; rewrite ?all_bytes_cons in *; lia. Qed.

Lemma all_bytes_each files : Forall (λ pf, zlen (file_content pf.2) ≤ zlen (all_bytes files)) files.
Proof.
  induction files as [|pf files IH]; constructor.
  - rewrite all_bytes_cons. pose proof (zlen_nonneg (all_bytes files)). lia.
  - eapply Forall_impl; [exact IH|]. intros x Hx. cbn beta in *. rewrite all_bytes_cons. pose proof (zlen_nonneg (file_content pf.2)). lia.
Qed.

Lemma build_dir_run opts walk : OPieceLength opts = Z.of_nat p → walk ≠ [] →
  Forall (λ pf, readable_file pf.2 ∧ zlen (file_content pf.2) + Z.of_nat p < 2 ^ 62) walk → Forall (λ pf, safe_path pf.1) walk →
  let files := merge_sort path_le walk in
  ∃ fileTree layers, buildDirHybrid newOrderedDict [] opts (Some walk) =
      Ok ((λ kv, (kv.1, VTree kv.2)) <$> dir_entries opts fileTree (v1_file <$> files) (pieces_sha1 p (all_bytes files)), layers)
    ∧ node_ok 60 (length files) fileTree ∧ good_layers (length files) layers.
Proof.
  intros Hp Hw Hr Hs files. assert (P : files ≡ₚ walk) by apply merge_sort_Permutation.
  unfold buildDirHybrid. cbn [of_option]. simpl_res. rewrite bool_decide_false by done. fold files. rewrite Hp.
  assert (Hpos : (0 < p)%nat) by (pose proof (piece_bytes_pos k); pose proof B_pos; lia).
  destruct (dir_loop_ok 60 files [] [] [] {| allV1Pieces := []; run_hasher := []; sha1BytesInPiece := 0 |} 0)
    as (fileTree & layers & st & -> & Ht & Hl & Hst & Hd).
  - by rewrite P.
  - rewrite P. eapply Forall_impl; [exact Hs|]. by intros ? [? ?].
  - apply node_ok_nil.
  - apply good_layers_nil.
  - by split.
  - simpl_res. exists fileTree, layers. split; [|done]. do 2 f_equal.
    rewrite <- (digest_end p st Hst), Hd, app_nil_r. unfold digest. cbn [allV1Pieces run_hasher app]. fold (all_bytes files).
    unfold dir_entries. rewrite Hp. change newOrderedDict with ((λ kv, (kv.1, VTree kv.2)) <$> ([] : list (bytes * tree))).
    by rewrite !set_fmap, !set_if_fmap.
Qed.
End files.

(** ** The property *)

(** C19. A torrent created from a directory is read back: when every file can be read completely (in
    chunks of any sizes), the relative paths are made of safe names and the directory stays within
    the bounds of the format, [Create] succeeds, and as long as the torrent is within 8 MiB, [Parse] of
    it lists the files in the order of their paths with their sizes, and the v1 piece hashes are
    those of the concatenated contents; its info bytes verify against its magnet link. *)
Theorem create_dir_roundtrip `{B : Bencoder} url_Parse order stat opts k walk now :
  BencoderLaws B → stat (OPath opts) = Some (IsDir (Some walk)) → walk ≠ [] → zlen walk ≤ 2 ^ 14 →
  Forall (λ pf, readable_file pf.2) walk → Forall (λ pf, safe_path pf.1) walk →
  zlen (all_bytes walk) + Z.of_nat (piece_bytes k) < 2 ^ 62 →
  OPieceLength opts = Z.of_nat (piece_bytes k) → OAnnounceURL opts ≠ [] → OName opts ≠ [] →
  validateWebSeeds url_Parse (OWebSeeds opts) = true → zlen (OWebSeeds opts) ≤ 2 ^ 17 → in_int64 now →
  let meta := dir_meta k (OName opts) (merge_sort path_le walk) in
  ∃ res, Create url_Parse stat opts now = Ok res ∧
    (small (TorrentBytes res) →
     Parse order (TorrentBytes res) = Ok meta ∧
     ∃ info mag, ExtractInfoBytes (TorrentBytes res) = Ok info ∧ ParseInfo order info = Ok meta
       ∧ ParseMagnet (MagnetLink res) = Ok mag ∧ VerifyInfoHash info mag = Ok tt).
Proof.
  intros HB Hst Hw Hwn Hr Hs Hb Hp Ha Hname Hws Hwsn Hnow meta. pose proof (piece_bytes_pos k) as Hk. pose proof B_pos.
  set (files := merge_sort path_le walk) in *. assert (P : files ≡ₚ walk) by apply merge_sort_Permutation.
  pose proof (all_bytes_perm _ _ P) as Hall. pose proof (all_bytes_each walk) as Heach.
  assert (Hlen : zlen files = zlen walk) by (unfold zlen; by rewrite (Permutation_length P)).
  assert (Hpow : bad_piece_length (OPieceLength opts) = false) by (rewrite Hp; apply piece_length_ok; pose proof (zlen_nonneg (all_bytes walk)); lia).
  assert (Hfiles : files ≠ []) by (intros E; unfold zlen in Hlen; rewrite E in Hlen; destruct walk; [done|simpl in Hlen; lia]).
  set (opts' := with_defaults opts (OName opts)).
  assert (Hopts : OPieceLength opts' = Z.of_nat (piece_bytes k)).
  { subst opts'. cbn. rewrite Hp. destruct (Z.eqb_spec (Z.of_nat (piece_bytes k)) 0); lia. }
  unfold Create. fold opts'. change (OAnnounceURL opts') with (OAnnounceURL opts). change (OWebSeeds opts') with (OWebSeeds opts).
  change (OPath opts') with (OPath opts). change (OName opts') with (OName opts).
  rewrite bool_decide_false by done. rewrite Hopts, <- Hp, Hpow, Hws. cbn [negb]. rewrite Hst. cbn [of_option]. simpl_res.
  rewrite (bool_decide_false (OName opts = [])) by done. set (opts2 := with_defaults opts' (OName opts)).
  assert (Hopts2 : OPieceLength opts2 = Z.of_nat (piece_bytes k)).
  { subst opts2. cbn [with_defaults OPieceLength]. rewrite Hopts. destruct (Z.eqb_spec (Z.of_nat (piece_bytes k)) 0); lia. }
  destruct (build_dir_run k opts2 walk) as (fileTree & layers & -> & Ht & [Hl1 Hl2 Hl3]); [done|done| |done|].
  { apply Forall_forall. intros pf Hpf. rewrite Forall_forall in Hr, Heach. split; [by apply Hr|]. specialize (Heach pf Hpf). cbn beta in Heach. lia. }
  fold files in Ht, Hl1 |- *. simpl_res. rewrite (finalize_run HB) by apply dir_entries_NoDup. eexists. split; [reflexivity|].
  cbn [TorrentBytes MagnetLink]. intros Hsm.
  set (l := dir_entries opts2 fileTree (v1_file <$> files) (pieces_sha1 (piece_bytes k) (all_bytes files))) in *.
  destruct (read_back HB order opts2 l layers now meta) as (H1 & H2 & H3); [| |done| |].
  - apply (dir_good opts2 (length files)); [done|unfold zlen in *; lia|rewrite Hopts2; unfold in_int64; pose proof (zlen_nonneg (all_bytes walk)); lia| | |lia].
    + rewrite P. eapply Forall_impl; [exact Heach|]. cbn beta. intros pf Hpf. lia.
    + rewrite P. eapply Forall_impl; [exact Hs|]. by intros ? [_ ?].
  - constructor; [unfold zlen in *; lia|done..].
  - apply (parse_dir k order opts2); [done| |lia|done]. rewrite P. eapply Forall_impl; [exact Hs|]. by intros ? [? _].
  - split; [done|]. destruct (VerifyInfoHash_link (encode (BDict (sort_entries l))) (OName opts2) (OAnnounceURL opts2)) as (mag & E1 & _ & _ & E4).
    eexists _, mag. split_and!; done.
Qed.

Module SampleDir.
Definition file (chunks : list bytes) : FileData :=
  {| stat_size := zlen (concat chunks); reader := {| content := concat chunks; fails := false |}; reads := chunks; reads_fail := false |}.
Definition walk : list (bytes * FileData) :=
  [(str "b.txt", file [str "hello "; str "world"]); (str "a/empty", file []); (str "a/x.bin", file [zeros (Z.to_nat 17000)])].
Definition stat (path : bytes) : option stat_result := if bool_decide (path = str "/data") then Some (IsDir (Some walk)) else None.
Definition opts : CreateOptions := {|
  OPath := str "/data"; OName := str "set"; OPieceLength := 16384; OAnnounceURL := str "http://t/announce"; OPrivate := false;
  OComment := []; OSource := str "s"; OCreatedBy := []; OWebSeeds := [] |}.
Definition meta : TorrentMeta := dir_meta 0 (str "set") (merge_sort path_le walk).

Lemma walk_readable : Forall (λ pf, readable_file pf.2) walk.
Proof. repeat constructor. Qed.
Lemma walk_safe : Forall (λ pf, safe_path pf.1) walk.
Proof.
  assert (E : Forall (λ pf, (check_components (split slash pf.1) = Ok tt) ∧ (length (split slash pf.1) ≤ 60)%nat) walk).
  { decide_now. }
  eapply Forall_impl; [exact E|]. intros pf [H1 H2]. split; [by apply check_components_ok|done].
Qed.
Lemma walk_size : zlen (all_bytes walk) = 17011.
Proof. vm_compute. reflexivity. Qed.
End SampleDir.

Theorem create_dir_roundtrip_witness :
  ∃ res, @Create ref_codec SampleTorrent.url_Parse SampleDir.stat SampleDir.opts SampleTorrent.now = Ok res ∧
    (small (TorrentBytes res) →
     @Parse ref_codec id (TorrentBytes res) = Ok SampleDir.meta ∧
     ∃ info mag, @ExtractInfoBytes ref_codec (TorrentBytes res) = Ok info ∧ @ParseInfo ref_codec id info = Ok SampleDir.meta
       ∧ ParseMagnet (MagnetLink res) = Ok mag ∧ VerifyInfoHash info mag = Ok tt).
Proof.
  apply (@create_dir_roundtrip ref_codec SampleTorrent.url_Parse id SampleDir.stat SampleDir.opts 0 SampleDir.walk SampleTorrent.now);
    [exact ref_codec_laws|reflexivity|done|done|exact SampleDir.walk_readable|exact SampleDir.walk_safe| | |done|done|done|done|split; done].
  - rewrite SampleDir.walk_size, piece_bytes_Z. unfold BlockSize. lia.
  - rewrite piece_bytes_Z. reflexivity.
Defined.
