(* ===== verification/Storage.v ===== *)
(** * Writing pieces to disk: [internal/client/storage.go]

    The directory a download goes to, seen through [os.Root], is a tree of regular files and
    directories; [FS] holds the files' contents by path, the directories, and a queue of faults: each
    system call consumes one entry, and [Some n] makes it fail (a write after [n] bytes).  The
    theorems: a piece lands at its place in the concatenation of the files and nowhere else, whatever
    fails no other file is touched, and writing every piece in any order yields the whole content. *)

From S2P Require Import Prelude GoStrings Paths Metainfo.
From Stdlib Require Import ZArith Lia.
Local Open Scope Z_scope.

(** ** The download directory *)

Inductive oserr := EIO | ENOENT | ENOTDIR | EISDIR | EINVAL.

Record FS := { fs_files : gmap bytes bytes; fs_dirs : gset bytes; fs_faults : list (option nat) }.

(** A system call: the fault it meets, if any. *)
Definition syscall (fs : FS) : option nat * FS :=
  match fs_faults fs with
  | [] => (None, fs)
  | f :: r => (f, {| fs_files := fs_files fs; fs_dirs := fs_dirs fs; fs_faults := r |})
  end.

Definition set_file (p content : bytes) (fs : FS) : FS :=
  {| fs_files := <[p := content]> (fs_files fs); fs_dirs := fs_dirs fs; fs_faults := fs_faults fs |}.
Definition add_dir (p : bytes) (fs : FS) : FS :=
  {| fs_files := fs_files fs; fs_dirs := {[p]} ∪ fs_dirs fs; fs_faults := fs_faults fs |}.

(** The nonempty prefixes of a list of components, as paths. *)
Fixpoint prefixes_from (acc comps : list bytes) : list bytes :=
  match comps with [] => [] | c :: cs => join slash (acc ++ [c]) :: prefixes_from (acc ++ [c]) cs end.
Definition ancestors (dir : bytes) : list bytes := prefixes_from [] (split slash dir).

Fixpoint make_dirs (dirs : list bytes) (fs : FS) : result oserr unit * FS :=
  match dirs with
  | [] => (Ok tt, fs)
  | d :: ds => if bool_decide (is_Some (fs_files fs !! d)) then (Err ENOTDIR, fs) else make_dirs ds (add_dir d fs)
  end.

(** [os.Root.MkdirAll] *)
Definition MkdirAll (dir : bytes) (fs : FS) : result oserr unit * FS :=
  match syscall fs with
  | (Some _, fs) => (Err EIO, fs)
  | (None, fs) => make_dirs (ancestors dir) fs
  end.

(** [os.Root.OpenFile] of a relative path, with or without [O_CREATE]; the contents are kept
    (no [O_TRUNC]). *)
Definition OpenFile (create : bool) (p : bytes) (fs : FS) : result oserr unit * FS :=
  match syscall fs with
  | (Some _, fs) => (Err EIO, fs)
  | (None, fs) =>
    if bool_decide (p ∈ fs_dirs fs) then (Err EISDIR, fs)
    else match fs_files fs !! p with
    | Some _ => (Ok tt, fs)
    | None =>
      if create && bool_decide (Dir p = dot ∨ Dir p ∈ fs_dirs fs) then (Ok tt, set_file p [] fs)
      else (Err ENOENT, fs)
    end
  end.

(** [File.Truncate]: cut, or extend with zeros. *)
Definition Truncate (p : bytes) (n : Z) (fs : FS) : result oserr unit * FS :=
  match syscall fs with
  | (Some _, fs) => (Err EIO, fs)
  | (None, fs) =>
    if n <? 0 then (Err EINVAL, fs)
    else (Ok tt, set_file p (resize (Z.to_nat n) Byte.x00 (default [] (fs_files fs !! p))) fs)
  end.

(** The bytes of a file after writing [data] at [off]: a gap before [off] reads as zeros. *)
Definition write_at (c : bytes) (off : nat) (data : bytes) : bytes :=
  match data with [] => c | _ => resize off Byte.x00 c ++ data ++ drop (off + length data) c end.

(** [File.WriteAt]; a failing write may have written a prefix. *)
Definition WriteAt (p : bytes) (data : bytes) (off : Z) (fs : FS) : result oserr unit * FS :=
  if off <? 0 then (Err EINVAL, fs) else
  let c := default [] (fs_files fs !! p) in
  match syscall fs with
  | (Some n, fs) => (Err EIO, set_file p (write_at c (Z.to_nat off) (take n data)) fs)
  | (None, fs) => (Ok tt, set_file p (write_at c (Z.to_nat off) data) fs)
  end.

(** ** The storage *)

Inductive serr := SPath (e : patherr) | SOs (e : oserr) | SBaseDir (e : oserr) | SMismatch (wrote len_data : Z).

Record Storage := { root : FS; files : list FileEntry }.

(** [NewStorage]: [opened] is what creating and opening the base directory gives. *)
Definition NewStorage (opened : result oserr FS) (fes : list FileEntry) : result serr Storage :=
  fs ← map_err SBaseDir opened; Ok {| root := fs; files := fes |}.

(** Run a system call; its error is returned by the caller. *)
Definition os_bind {A B} (r : result oserr A * FS) (k : A → FS → result serr B * FS) : result serr B * FS :=
  match r with
  | (Ok a, fs) => k a fs
  | (Err e, fs) => (Err (SOs e), fs)
  | (Panic, fs) => (Panic, fs)
  | (NoFuel, fs) => (NoFuel, fs)
  end.

Definition preallocate_one (fe : FileEntry) (fs : FS) : result serr unit * FS :=
  match resolve (Path fe) with
  | Ok rel =>
    let dir := Dir rel in
    os_bind (if bool_decide (dir ≠ dot) then MkdirAll dir fs else (Ok tt, fs)) (λ _ fs,
    os_bind (OpenFile true rel fs) (λ _ fs,
    os_bind (Truncate rel (Length fe) fs) (λ _ fs, (Ok tt, fs))))
  | Err e => (Err (SPath e), fs)
  | Panic => (Panic, fs)
  | NoFuel => (NoFuel, fs)
  end.

Fixpoint preallocate_loop (fes : list FileEntry) (fs : FS) : result serr unit * FS :=
  match fes with
  | [] => (Ok tt, fs)
  | fe :: r =>
    match preallocate_one fe fs with
    | (Ok _, fs) => preallocate_loop r fs
    | other => other
    end
  end.

Definition Preallocate (s : Storage) : result serr unit * FS := preallocate_loop (files s) (root s).

(** One file of [WritePiece]'s loop: the number of bytes it takes, or [None] if the piece does not
    overlap it.  [start], [end_] delimit the part of the piece, [at_] is the offset in the file. *)
Definition overlap (fe : FileEntry) (globalOffset currentPos bytesToWrite : Z) : option (Z * Z * Z) :=
  let fileEnd := wrap64 (currentPos + Length fe) in
  if (globalOffset <? fileEnd) && (currentPos <? wrap64 (globalOffset + bytesToWrite)) then
    let at_ := if currentPos <? globalOffset then wrap64 (globalOffset - currentPos) else 0 in
    let start := if globalOffset <? currentPos then wrap64 (currentPos - globalOffset) else 0 in
    let end_ := wrap64 (start + wrap64 (Length fe - at_)) in
    Some (start, if bytesToWrite <? end_ then bytesToWrite else end_, at_)
  else None.

(** [data[i:j]] with [j <= len(data)]: a run-time panic unless [0 <= i <= j]. *)
Definition subslice (data : bytes) (i j : Z) : result serr bytes :=
  if (0 <=? i) && (i <=? j) then Ok (slice data (Z.to_nat i) (Z.to_nat j)) else Panic.

Fixpoint write_loop (fes : list FileEntry) (data : bytes) (globalOffset currentPos dataOffset : Z) (fs : FS)
    : result serr Z * FS :=
  match fes with
  | [] => (Ok dataOffset, fs)
  | fe :: r =>
    let fileEnd := wrap64 (currentPos + Length fe) in
    match overlap fe globalOffset currentPos (zlen data) with
    | None => write_loop r data globalOffset fileEnd dataOffset fs
    | Some (start, end_, at_) =>
      match (toWrite ← subslice data start end_; rel ← map_err SPath (resolve (Path fe)); Ok (toWrite, rel)) with
      | Ok (toWrite, rel) =>
        os_bind (OpenFile false rel fs) (λ _ fs,
        os_bind (WriteAt rel toWrite at_ fs) (λ _ fs,
        write_loop r data globalOffset fileEnd (wrap64 (dataOffset + zlen toWrite)) fs))
      | Err e => (Err e, fs)
      | Panic => (Panic, fs)
      | NoFuel => (NoFuel, fs)
      end
    end
  end.

Definition WritePiece (s : Storage) (pieceIndex pieceLength : Z) (data : bytes) : result serr unit * FS :=
  let globalOffset := wrap64 (pieceIndex * pieceLength) in
  match write_loop (files s) data globalOffset 0 0 (root s) with
  | (Ok dataOffset, fs) =>
    (if bool_decide (dataOffset ≠ zlen data) then Err (SMismatch dataOffset (zlen data)) else Ok tt, fs)
  | (Err e, fs) => (Err e, fs)
  | (Panic, fs) => (Panic, fs)
  | (NoFuel, fs) => (NoFuel, fs)
  end.

(** Successive calls on the same storage: the directory is what the calls before left. *)
Definition with_root (s : Storage) (fs : FS) : Storage := {| root := fs; files := files s |}.

Fixpoint WritePieces (s : Storage) (pieceLength : Z) (pieces : list (Z * bytes)) : result serr unit * FS :=
  match pieces with
  | [] => (Ok tt, root s)
  | (i, data) :: r =>
    match WritePiece s i pieceLength data with
    | (Ok _, fs) => WritePieces (with_root s fs) pieceLength r
    | other => other
    end
  end.

(** ** Lemmas: overwriting a range *)

(** [s] with [data] written over it from position [rel] on, as far as the positions exist. *)
Definition patch (s : bytes) (rel : Z) (data : bytes) : bytes :=
  imap (λ i b, let j := Z.of_nat i - rel in if 0 <=? j then default b (data !! Z.to_nat j) else b) s.

Lemma length_patch s rel data : length (patch s rel data) = length s.
Proof. apply length_imap. Qed.

Lemma lookup_patch s rel data i : patch s rel data !! i =
  (λ b, let j := Z.of_nat i - rel in if 0 <=? j then default b (data !! Z.to_nat j) else b) <$> s !! i.
Proof. apply list_lookup_imap. Qed.

Lemma patch_app a b rel data : patch (a ++ b) rel data = patch a rel data ++ patch b (rel - zlen a) data.
Proof.
  unfold patch. rewrite imap_app. f_equal. apply imap_ext. intros i x Hx. cbn beta.
  replace (Z.of_nat (length a + i) - rel) with (Z.of_nat i - (rel - zlen a)); [done|unfold zlen; lia].
Qed.

(** Two patches agree when they agree position by position. *)
Lemma patch_ext s rel data rel' data' :
  (∀ i b, s !! i = Some b →
     (if 0 <=? Z.of_nat i - rel then default b (data !! Z.to_nat (Z.of_nat i - rel)) else b)
     = if 0 <=? Z.of_nat i - rel' then default b (data' !! Z.to_nat (Z.of_nat i - rel')) else b) →
  patch s rel data = patch s rel' data'.
Proof. intros H. apply imap_ext. exact H. Qed.

Lemma patch_id s rel data : (zlen s ≤ rel ∨ rel + zlen data ≤ 0 ∨ data = []) → patch s rel data = s.
Proof.
  intros H. apply list_eq. intros i. rewrite lookup_patch. destruct (s !! i) as [b|] eqn:E; [|done]. simpl. f_equal.
  apply lookup_lt_Some in E. unfold zlen in H. destruct (Z.leb_spec 0 (Z.of_nat i - rel)); [|done].
  destruct H as [H|[H| ->]]; [lia|by rewrite lookup_ge_None_2 by lia|done].
Qed.

Lemma patch_slice c rel data i j :
  i = Z.max 0 (- rel) → j = Z.min (zlen data) (zlen c - rel) → i ≤ j →
  patch c (Z.max 0 rel) (slice data (Z.to_nat i) (Z.to_nat j)) = patch c rel data.
Proof.
  intros -> -> Hij. apply patch_ext. intros k b Hk%lookup_lt_Some. unfold slice, zlen in *.
  destruct (Z.leb_spec 0 (Z.of_nat k - Z.max 0 rel)) as [H1|H1], (Z.leb_spec 0 (Z.of_nat k - rel)) as [H2|H2]; [|lia|lia|done].
  destruct (decide (Z.of_nat k - rel < zlen data)) as [H3|H3]; unfold zlen in H3.
  - rewrite lookup_take_lt by lia. rewrite lookup_drop. do 2 f_equal. lia.
  - rewrite !lookup_ge_None_2; [done|lia|rewrite length_take, length_drop; lia].
Qed.

(** Writing inside a file is a patch. *)
Lemma write_at_patch c off d : (off + length d ≤ length c)%nat → write_at c off d = patch c (Z.of_nat off) d.
Proof.
  intros H. destruct d as [|x d'] eqn:Ed; [symmetry; apply patch_id; tauto|]. rewrite <- Ed in *.
  assert (Hw : write_at c off d = take off c ++ d ++ drop (off + length d) c).
  { subst d. unfold write_at. by rewrite resize_le by lia. }
  rewrite Hw. clear Hw Ed. apply list_eq. intros i. rewrite lookup_patch.
  destruct (decide (i < off)%nat).
  - rewrite lookup_app_l by (rewrite length_take; lia). rewrite lookup_take_lt by lia.
    destruct (c !! i); [|done]. simpl. f_equal. by destruct (Z.leb_spec 0 (Z.of_nat i - Z.of_nat off)); [lia|].
  - rewrite lookup_app_r by (rewrite length_take; lia). rewrite length_take. destruct (decide (i < off + length d)%nat).
    + rewrite lookup_app_l by lia. destruct (lookup_lt_is_Some_2 c i) as [b ->]; [lia|]. simpl.
      destruct (Z.leb_spec 0 (Z.of_nat i - Z.of_nat off)); [|lia].
      replace (Z.to_nat (Z.of_nat i - Z.of_nat off)) with (i - (off `min` length c))%nat by lia.
      destruct (lookup_lt_is_Some_2 d (i - off `min` length c)) as [y ->]; [lia|done].
    + rewrite lookup_app_r by lia. rewrite lookup_drop.
      replace (off + length d + (i - off `min` length c - length d))%nat with i by lia.
      destruct (c !! i); [|done]. simpl. f_equal. destruct (Z.leb_spec 0 (Z.of_nat i - Z.of_nat off)); [|done].
      by rewrite lookup_ge_None_2 by lia.
Qed.

Lemma patch_inside s off d : (off + length d ≤ length s)%nat →
  patch s (Z.of_nat off) d = take off s ++ d ++ drop (off + length d) s.
Proof.
  intros H. rewrite <- write_at_patch by done. unfold write_at. destruct d; [|by rewrite resize_le by lia].
  simpl. rewrite Nat.add_0_r. by rewrite take_drop.
Qed.

(** [s'] holds, at every position, the byte of [s] or the byte of [t]. *)
Definition mixes (s s' t : bytes) : Prop :=
  length s' = length s ∧ length t = length s ∧ ∀ i, s' !! i = s !! i ∨ s' !! i = t !! i.

Lemma mixes_app a a' x b b' y : mixes a a' x → mixes b b' y → mixes (a ++ b) (a' ++ b') (x ++ y).
Proof.
  intros (H1 & H2 & H3) (K1 & K2 & K3). unfold mixes. rewrite !length_app. split; [lia|]. split; [lia|]. intros i.
  destruct (decide (i < length a)%nat).
  - rewrite !lookup_app_l by lia. apply H3.
  - rewrite !lookup_app_r by lia. rewrite H1, H2. apply K3.
Qed.

Lemma mixes_left s t : length t = length s → mixes s s t.
Proof. intros. split_and!; try done. by left. Qed.
Lemma mixes_right s t : length t = length s → mixes s t t.
Proof. intros. split_and!; try done. by right. Qed.

(** A write cut short. *)
Lemma mixes_patch_take s rel d n : mixes s (patch s rel (take n d)) (patch s rel d).
Proof.
  split_and!; try apply length_patch. intros i. rewrite !lookup_patch. destruct (s !! i) as [b|]; [|by left]. simpl.
  destruct (0 <=? Z.of_nat i - rel); [|by left]. destruct (decide (Z.to_nat (Z.of_nat i - rel) < n)%nat).
  - rewrite lookup_take_lt by done. by right.
  - rewrite lookup_ge_None_2 by (rewrite length_take; lia). by left.
Qed.

(** ** Lemmas: one file of the loop *)

(** The overlap of a file with the piece, without wrap-around. *)
Definition covered (globalOffset n pos len : Z) : Z := Z.max 0 (Z.min (pos + len) (globalOffset + n) - Z.max pos globalOffset).

Lemma overlap_spec fe goff pos n : 0 ≤ Length fe → 0 ≤ pos → pos + Length fe < 2 ^ 62 → 0 ≤ n → 0 ≤ goff → goff + n < 2 ^ 62 →
  overlap fe goff pos n =
  if (goff <? pos + Length fe) && (pos <? goff + n)
  then Some (Z.max 0 (pos - goff), Z.min n (pos + Length fe - goff), Z.max 0 (goff - pos)) else None.
Proof.
  intros. unfold overlap. rewrite !(wrap64_id (_ + _)) by (unfold in_int64; lia).
  destruct ((goff <? _) && _); [|done].
  rewrite (wrap64_id (goff - pos)), (wrap64_id (pos - goff)) by (unfold in_int64; lia).
  set (at_ := if pos <? goff then goff - pos else 0). set (start := if goff <? pos then pos - goff else 0).
  assert (Ha : at_ = Z.max 0 (goff - pos)) by (subst at_; destruct (Z.ltb_spec pos goff); lia).
  assert (Hs : start = Z.max 0 (pos - goff)) by (subst start; destruct (Z.ltb_spec goff pos); lia).
  rewrite (wrap64_id (Length fe - at_)), wrap64_id by (unfold in_int64; lia).
  f_equal. f_equal; [|lia]. f_equal; [lia|]. destruct (Z.ltb_spec n (start + (Length fe - at_))); lia.
Qed.

Lemma syscall_files fs o fs' : syscall fs = (o, fs') → fs_files fs' = fs_files fs ∧ fs_dirs fs' = fs_dirs fs
  ∧ (fs_faults fs = [] → o = None ∧ fs_faults fs' = []).
Proof. unfold syscall. intros H. destruct (fs_faults fs) eqn:E; by simplify_eq/=. Qed.

(** Opening a file and writing inside it: the write happens, or the calls fail on the way. *)
Lemma open_write {B} p c d off fs (k : FS → result serr B * FS) :
  fs_files fs !! p = Some c → p ∉ fs_dirs fs → 0 ≤ off → off + zlen d ≤ zlen c →
  ∃ fs', fs_dirs fs' = fs_dirs fs ∧
    let run := os_bind (OpenFile false p fs) (λ _ fs, os_bind (WriteAt p d off fs) (λ _ fs, k fs)) in
    (run = k fs' ∧ fs_files fs' = <[p := patch c off d]> (fs_files fs) ∧ (fs_faults fs = [] → fs_faults fs' = []))
    ∨ (run = (Err (SOs EIO), fs') ∧ fs_faults fs ≠ [] ∧ ∃ n, fs_files fs' = <[p := patch c off (take n d)]> (fs_files fs)).
Proof.
  intros Hc Hd Ho Hl. unfold OpenFile. destruct (syscall fs) as [o fs1] eqn:E1. apply syscall_files in E1 as (F1 & D1 & Q1).
  destruct o as [n1|]; cbn [os_bind].
  { exists fs1. split; [done|]. right. split; [done|]. split; [by intros Ef; apply Q1 in Ef as [? _]|]. exists 0%nat.
    rewrite take_0, patch_id, F1 by tauto. symmetry. by apply insert_id. }
  rewrite D1, F1, Hc. rewrite bool_decide_false by done. cbn [os_bind]. unfold WriteAt.
  destruct (Z.ltb_spec off 0); [lia|]. rewrite F1, Hc. change (default [] (Some c)) with c.
  destruct (syscall fs1) as [o fs2] eqn:E2. apply syscall_files in E2 as (F2 & D2 & Q2). unfold zlen in *.
  destruct o as [n2|]; cbn [os_bind].
  - exists (set_file p (write_at c (Z.to_nat off) (take n2 d)) fs2). split; [by cbn; rewrite D2|]. right. split; [done|]. split; [by intros Ef; apply Q1, proj2, Q2 in Ef as [? _]|]. exists n2. cbn.
    rewrite write_at_patch by (rewrite length_take; lia). by rewrite Z2Nat.id, F2, F1.
  - exists (set_file p (patch c off d) fs2). split; [by cbn; rewrite D2|]. left.
    rewrite write_at_patch, Z2Nat.id by lia. split; [done|]. cbn. rewrite F2, F1. split; [done|]. by intros Ef; apply Q1, proj2, Q2 in Ef as [_ ?].
Qed.

(** The files of a storage, laid out: each entry resolves to a regular file of its length. *)
Definition laid (fes : list FileEntry) (paths : list bytes) (fs : FS) : Prop :=
  Forall2 (λ fe p, resolve (Path fe) = Ok p ∧ (p ∉ fs_dirs fs) ∧ ∃ c, fs_files fs !! p = Some c ∧ zlen c = Length fe) fes paths.
(** Their contents, one after the other. *)
Definition stream (paths : list bytes) (fs : FS) : bytes := concat (map (λ p, default [] (fs_files fs !! p)) paths).
Definition total (fes : list FileEntry) : Z := foldr (λ fe acc, (Length fe + acc)%Z) 0 fes.

Lemma laid_frame fes paths fs fs' : laid fes paths fs → fs_dirs fs' = fs_dirs fs →
  (∀ p, p ∈ paths → fs_files fs' !! p = fs_files fs !! p) → laid fes paths fs'.
Proof.
  intros H Hd. induction H as [|fe p fes paths (Hr & Hp & c & Hc & Hl) H IH]; intros Hf; [constructor|].
  constructor; [|apply IH; intros q Hq; apply Hf; by right]. rewrite Hd, Hf by left. eauto.
Qed.

Lemma stream_frame paths fs fs' : (∀ p, p ∈ paths → fs_files fs' !! p = fs_files fs !! p) → stream paths fs' = stream paths fs.
Proof.
  unfold stream. induction paths as [|p ps IH]; intros H; [done|]. simpl. rewrite H by left. f_equal. apply IH.
  intros q Hq. apply H. by right.
Qed.

Lemma laid_total fes paths fs : laid fes paths fs → zlen (stream paths fs) = total fes ∧ 0 ≤ total fes.
Proof.
  unfold stream. induction 1 as [|fe p fes paths (_ & _ & c & Hc & Hl) H IH]; [done|]. simpl. rewrite Hc, zlen_app. simpl.
  pose proof (zlen_nonneg c). lia.
Qed.

(** ** Lemmas: the loop *)

Lemma covered_cons goff n pos l rest : 0 ≤ l → 0 ≤ rest →
  covered goff n pos l + covered goff n (pos + l) rest = covered goff n pos (l + rest).
Proof. unfold covered. lia. Qed.

Lemma stream_cons p ps fs c : fs_files fs !! p = Some c → stream (p :: ps) fs = c ++ stream ps fs.
Proof. unfold stream. simpl. by intros ->. Qed.

(** A file written in place keeps its entry laid out. *)
Lemma laid_cons fe fes p ps c rel d fs fs' : laid fes ps fs' → resolve (Path fe) = Ok p → p ∉ fs_dirs fs →
  zlen c = Length fe → fs_dirs fs' = fs_dirs fs → fs_files fs' !! p = Some (patch c rel d) → laid (fe :: fes) (p :: ps) fs'.
Proof.
  intros H Hr Hp Hl Hd Hc. constructor; [|done]. rewrite Hd. split; [done|]. split; [done|]. eexists. split; [exact Hc|].
  unfold zlen in *. by rewrite length_patch.
Qed.

(** The step at a file that overlaps the piece. *)
Lemma overlap_step fe c goff pos data : zlen c = Length fe → 0 ≤ pos → pos + Length fe < 2 ^ 62 →
  0 ≤ goff → goff + zlen data < 2 ^ 62 → goff < pos + Length fe → pos < goff + zlen data →
  ∃ i j at_, overlap fe goff pos (zlen data) = Some (i, j, at_)
    ∧ subslice data i j = Ok (slice data (Z.to_nat i) (Z.to_nat j)) ∧ 0 ≤ at_
    ∧ zlen (slice data (Z.to_nat i) (Z.to_nat j)) = covered goff (zlen data) pos (Length fe)
    ∧ at_ + zlen (slice data (Z.to_nat i) (Z.to_nat j)) ≤ zlen c
    ∧ patch c at_ (slice data (Z.to_nat i) (Z.to_nat j)) = patch c (goff - pos) data.
Proof.
  intros Hl Hp Hb Hg Hgb Ho1 Ho2. pose proof (zlen_nonneg c). pose proof (zlen_nonneg data).
  rewrite overlap_spec by lia. destruct (Z.ltb_spec goff (pos + Length fe)); [|lia].
  destruct (Z.ltb_spec pos (goff + zlen data)); [|lia]. cbn [andb].
  exists (Z.max 0 (pos - goff)), (Z.min (zlen data) (pos + Length fe - goff)), (Z.max 0 (goff - pos)).
  assert (Hz : zlen (slice data (Z.to_nat (Z.max 0 (pos - goff))) (Z.to_nat (Z.min (zlen data) (pos + Length fe - goff))))
    = covered goff (zlen data) pos (Length fe)).
  { unfold zlen, slice, covered in *. rewrite length_take, length_drop. lia. }
  split_and!; try done; try lia.
  - unfold subslice. destruct (Z.leb_spec 0 (Z.max 0 (pos - goff))); [|lia].
    destruct (Z.leb_spec (Z.max 0 (pos - goff)) (Z.min (zlen data) (pos + Length fe - goff))); [done|lia].
  - rewrite Hz. unfold covered. lia.
  - apply patch_slice; [lia..|]. lia.
Qed.

(** What the loop leaves from the file at [pos] on: the bytes of the piece that fall into [fes] are written, or an error stopped it halfway. *)
Definition written (data : bytes) (goff : Z) (fes : list FileEntry) (paths : list bytes) (pos doff : Z) (fs : FS) (r : result serr Z) (fs' : FS) : Prop :=
  laid fes paths fs' ∧ (∀ q, q ∉ paths → fs_files fs' !! q = fs_files fs !! q) ∧ fs_dirs fs' = fs_dirs fs
  ∧ (r = Ok (wrap64 (doff + covered goff (zlen data) pos (total fes)))
       ∧ stream paths fs' = patch (stream paths fs) (goff - pos) data ∧ (fs_faults fs = [] → fs_faults fs' = [])
     ∨ r = Err (SOs EIO) ∧ fs_faults fs ≠ [] ∧ mixes (stream paths fs) (stream paths fs') (patch (stream paths fs) (goff - pos) data)).

(** A write to one file leaves the files after it as they were. *)
Lemma touched fes p c' ps fs fs1 : fs_files fs1 = <[p := c']> (fs_files fs) → fs_dirs fs1 = fs_dirs fs → p ∉ ps → laid fes ps fs →
  laid fes ps fs1 ∧ stream ps fs1 = stream ps fs ∧ fs_files fs1 !! p = Some c' ∧ (∀ q, q ≠ p → fs_files fs1 !! q = fs_files fs !! q).
Proof.
  intros Hf Hd Hp Hl. assert (Hfr : ∀ q, q ≠ p → fs_files fs1 !! q = fs_files fs !! q) by (intros q Hq; rewrite Hf; by apply lookup_insert_ne).
  assert (Hps : ∀ q, q ∈ ps → fs_files fs1 !! q = fs_files fs !! q) by (intros q Hq; apply Hfr; by intros ->).
  split_and!; [by apply (laid_frame _ _ fs)|by apply stream_frame|rewrite Hf; apply lookup_insert_eq|done].
Qed.

Section written.
Context (data : bytes) (goff : Z) (fe : FileEntry) (fes : list FileEntry) (p : bytes) (ps : list bytes) (pos doff : Z) (fs : FS) (c : bytes).
Hypothesis (Hr : resolve (Path fe) = Ok p) (Hpd : p ∉ fs_dirs fs) (Hc : fs_files fs !! p = Some c) (Hl : zlen c = Length fe) (Hpn : p ∉ ps) (Ht0 : 0 ≤ total fes).

Lemma patch_cons : patch (stream (p :: ps) fs) (goff - pos) data = patch c (goff - pos) data ++ patch (stream ps fs) (goff - (pos + Length fe)) data.
Proof. rewrite (stream_cons _ _ _ _ Hc), patch_app, Hl. do 2 f_equal. lia. Qed.

Lemma covered_head : covered goff (zlen data) pos (total (fe :: fes)) = covered goff (zlen data) pos (Length fe) + covered goff (zlen data) (pos + Length fe) (total fes).
Proof. pose proof (zlen_nonneg c). cbn [total foldr]. fold (total fes). by rewrite covered_cons by lia. Qed.

(** The piece has nothing for the first file. *)
Lemma written_skip r fs' : ¬ (goff < pos + Length fe ∧ pos < goff + zlen data) →
  written data goff fes ps (pos + Length fe) doff fs r fs' → written data goff (fe :: fes) (p :: ps) pos doff fs r fs'.
Proof.
  intros Hno (Hlaid & Hfr & Hd & Hcase). pose proof (zlen_nonneg c). pose proof (zlen_nonneg data). assert (Hc2 : fs_files fs' !! p = Some c) by (by rewrite Hfr).
  unfold written. rewrite patch_cons, covered_head, !(stream_cons _ _ _ _ Hc), (stream_cons _ _ _ _ Hc2).
  rewrite (patch_id c) by (destruct (decide (goff < pos + Length fe)); [right; left; lia|left; lia]).
  replace (covered goff (zlen data) pos (Length fe)) with 0 by (unfold covered; lia). rewrite Z.add_0_l. split_and!.
  - constructor; [|done]. rewrite Hd. eauto.
  - intros q Hq. apply Hfr. set_solver.
  - done.
  - destruct Hcase as [(-> & -> & Hq2)|(-> & Hq2 & Hm)]; [by left|right]. split; [done|]. split; [done|]. apply mixes_app; [by apply mixes_left|done].
Qed.

(** The first file is written, and the loop goes on. *)
Lemma written_file r fs1 fs' : fs_files fs1 = <[p := patch c (goff - pos) data]> (fs_files fs) → fs_dirs fs1 = fs_dirs fs → laid fes ps fs →
  (fs_faults fs = [] → fs_faults fs1 = []) → 
  written data goff fes ps (pos + Length fe) (wrap64 (doff + covered goff (zlen data) pos (Length fe))) fs1 r fs' →
  written data goff (fe :: fes) (p :: ps) pos doff fs r fs'.
Proof.
  intros Hf Hd1 Hlaid Hq (Hlaid2 & Hfr2 & Hd2 & Hcase). destruct (touched _ _ _ _ _ _ Hf Hd1 Hpn Hlaid) as (_ & Hs & Hc1 & Hfr1).
  assert (Hc2 : fs_files fs' !! p = Some (patch c (goff - pos) data)) by (by rewrite Hfr2).
  unfold written. rewrite patch_cons, covered_head, (stream_cons _ _ _ _ Hc), (stream_cons _ _ _ _ Hc2). split_and!.
  - apply (laid_cons _ _ _ _ c (goff - pos) data fs); [done..|congruence|done].
  - intros q Hq'. rewrite Hfr2, Hfr1 by set_solver. done.
  - congruence.
  - rewrite Hs in Hcase. destruct Hcase as [(-> & -> & Hq2)|(-> & Hq2 & Hm)]; [left|right].
    + split; [|split; [done|tauto]]. f_equal. rewrite wrap64_add_l. f_equal. lia.
    + split; [done|]. split; [tauto|]. apply mixes_app; [|done]. apply mixes_right, length_patch.
Qed.

(** The write of the first file fails after [n] bytes. *)
Lemma written_fault fs1 at_ d n : fs_files fs1 = <[p := patch c at_ (take n d)]> (fs_files fs) → fs_dirs fs1 = fs_dirs fs → laid fes ps fs →
  fs_faults fs ≠ [] → patch c at_ d = patch c (goff - pos) data → written data goff (fe :: fes) (p :: ps) pos doff fs (Err (SOs EIO)) fs1.
Proof.
  intros Hf Hd1 Hlaid Hq Hpatch. destruct (touched _ _ _ _ _ _ Hf Hd1 Hpn Hlaid) as (Hlaid1 & Hs & Hc1 & Hfr1).
  unfold written. rewrite patch_cons, (stream_cons _ _ _ _ Hc), (stream_cons _ _ _ _ Hc1), Hs. split_and!.
  - by eapply (laid_cons _ _ _ _ c _ _ fs).
  - intros q Hq'. apply Hfr1. set_solver.
  - done.
  - right. split; [done|]. split; [done|]. apply mixes_app; [|apply mixes_left, length_patch]. rewrite <- Hpatch. apply mixes_patch_take.
Qed.
End written.

Lemma write_loop_run data goff : 0 ≤ goff → goff + zlen data < 2 ^ 62 → ∀ fes paths pos doff fs,
  0 ≤ pos → pos + total fes < 2 ^ 62 → in_int64 doff → NoDup paths → laid fes paths fs →
  ∃ r fs', write_loop fes data goff pos doff fs = (r, fs') ∧ written data goff fes paths pos doff fs r fs'.
Proof.
  intros Hg Hgb fes. induction fes as [|fe fes IH]; intros paths pos doff fs Hp Hb Hd Hnd Hlaid.
  { apply Forall2_nil_inv_l in Hlaid as ->. exists (Ok doff), fs. unfold written. split_and!; try done; [constructor|]. left.
    split; [|done]. f_equal. symmetry. rewrite wrap64_id; unfold covered, total; simpl; unfold in_int64 in *; lia. }
  apply Forall2_cons_inv_l in Hlaid as (p & ps & (Hr & Hpd & c & Hc & Hl) & Hrest & ->).
  apply NoDup_cons in Hnd as [Hpn Hnd]. pose proof (laid_total _ _ _ Hrest) as [Ht Ht0]. pose proof (zlen_nonneg c). pose proof (zlen_nonneg data).
  cbn [total foldr] in Hb. fold (total fes) in Hb. cbn [write_loop]. rewrite (wrap64_id (pos + Length fe)) by (unfold in_int64; lia).
  destruct (decide (goff < pos + Length fe ∧ pos < goff + zlen data)) as [[Ho1 Ho2]|Hno].
  - destruct (overlap_step fe c goff pos data) as (i & j & at_ & -> & -> & Hat & Hz & Hfit & Hpatch); [done|lia..|]. simpl_res. rewrite Hr. simpl_res. rewrite Hz.
    destruct (open_write p c (slice data (Z.to_nat i) (Z.to_nat j)) at_ fs
      (λ fs, write_loop fes data goff (pos + Length fe) (wrap64 (doff + covered goff (zlen data) pos (Length fe))) fs)
      Hc Hpd Hat Hfit) as (fs1 & Hd1 & Hrun). cbn zeta in Hrun. destruct Hrun as [(-> & Hf1 & Hq1)|(-> & Hq & n & Hf1)].
    + rewrite Hpatch in Hf1. destruct (touched _ _ _ _ _ _ Hf1 Hd1 Hpn Hrest) as (Hlaid1 & _).
      destruct (IH ps (pos + Length fe) (wrap64 (doff + covered goff (zlen data) pos (Length fe))) fs1) as (r & fs2 & -> & Hw); [lia|lia|apply wrap64_range|done..|].
      exists r, fs2. split; [done|]. by eapply written_file.
    + eexists _, fs1. split; [done|]. by eapply written_fault.
  - rewrite overlap_spec by lia. replace ((goff <? pos + Length fe) && (pos <? goff + zlen data)) with false by lia.
    destruct (IH ps (pos + Length fe) doff fs) as (r & fs2 & -> & Hw); [lia|lia|done..|]. exists r, fs2. split; [done|]. by eapply written_skip.
Qed.

(** ** Lemmas: a piece, and a sequence of pieces *)

(** The storage is ready for writing: its files are laid out at distinct paths. *)
Record ready (s : Storage) (paths : list bytes) : Prop := {
  ready_laid : laid (files s) paths (root s);
  ready_distinct : NoDup paths;
  ready_size : total (files s) < 2 ^ 62 }.

Lemma ready_with_root s paths fs : ready s paths → laid (files s) paths fs → ready (with_root s fs) paths.
Proof. intros [] ?. by constructor. Qed.

Lemma WritePiece_run s paths i L data :
  ready s paths → 0 ≤ i → 0 ≤ L → i * L + zlen data < 2 ^ 62 →
  ∃ r fs', WritePiece s i L data = (r, fs') ∧ laid (files s) paths fs'
    ∧ (∀ q, q ∉ paths → fs_files fs' !! q = fs_files (root s) !! q) ∧ fs_dirs fs' = fs_dirs (root s)
    ∧ (r = (if bool_decide (covered (i * L) (zlen data) 0 (total (files s)) ≠ zlen data)
            then Err (SMismatch (covered (i * L) (zlen data) 0 (total (files s))) (zlen data)) else Ok tt)
         ∧ stream paths fs' = patch (stream paths (root s)) (i * L) data ∧ (fs_faults (root s) = [] → fs_faults fs' = [])
       ∨ r = Err (SOs EIO) ∧ fs_faults (root s) ≠ []
         ∧ mixes (stream paths (root s)) (stream paths fs') (patch (stream paths (root s)) (i * L) data)).
Proof.
  intros [Hlaid Hnd Hb] Hi HL Hn. pose proof (zlen_nonneg data). unfold WritePiece.
  pose proof (laid_total _ _ _ Hlaid) as [_ Ht]. rewrite (wrap64_id (i * L)) by (unfold in_int64; nia).
  destruct (write_loop_run data (i * L) ltac:(nia) Hn (files s) paths 0 0 (root s)) as (r & fs' & -> & H1 & H2 & H3 & H4);
    [done|lia|unfold in_int64; lia|done..|].
  rewrite Z.sub_0_r in H4. rewrite wrap64_id in H4 by (unfold in_int64, covered; nia). rewrite Z.add_0_l in H4.
  destruct H4 as [(-> & H4 & H5)|(-> & H4 & H5)]; eexists _, fs'; (split; [done|]); split_and!; try done; [left|right]; done.
Qed.

(** The piece with the given index, of a content cut every [L] bytes. *)
Definition piece (content : bytes) (L i : nat) : bytes := take L (drop (i * L) content).
Definition numbered (content : bytes) (L : nat) (order : list nat) : list (Z * bytes) :=
  map (λ i, (Z.of_nat i, piece content L i)) order.

Lemma lookup_patch_piece (s content : bytes) L i k : length s = length content → (0 < L)%nat →
  patch s (Z.of_nat i * Z.of_nat L) (piece content L i) !! k = if decide (k / L = i)%nat then content !! k else s !! k.
Proof.
  intros Hl HL. rewrite lookup_patch. pose proof (Nat.div_mod k L ltac:(lia)) as Hdm.
  pose proof (Nat.mod_upper_bound k L ltac:(lia)). destruct (s !! k) as [b|] eqn:Ek; simpl.
  - pose proof (lookup_lt_Some _ _ _ Ek). destruct (decide (k / L = i)%nat) as [E|Hne].
    + rewrite E in Hdm. destruct (Z.leb_spec 0 (Z.of_nat k - Z.of_nat i * Z.of_nat L)); [|nia]. unfold piece.
      rewrite lookup_take_lt by nia. rewrite lookup_drop.
      replace (i * L + Z.to_nat (Z.of_nat k - Z.of_nat i * Z.of_nat L))%nat with k by nia.
      destruct (lookup_lt_is_Some_2 content k) as [y ->]; [lia|done].
    + destruct (Z.leb_spec 0 (Z.of_nat k - Z.of_nat i * Z.of_nat L)); [|done]. rewrite lookup_ge_None_2; [done|].
      unfold piece. rewrite length_take. assert (i < k / L)%nat by nia. nia.
  - apply lookup_ge_None in Ek. case_decide; [|done]. symmetry. apply lookup_ge_None_2. lia.
Qed.

Lemma covered_piece (content : bytes) L i : (i * L < length content)%nat →
  covered (Z.of_nat i * Z.of_nat L) (zlen (piece content L i)) 0 (zlen content) = zlen (piece content L i)
  ∧ Z.of_nat i * Z.of_nat L + zlen (piece content L i) ≤ zlen content.
Proof. intros H. unfold covered, zlen, piece. rewrite length_take, length_drop. nia. Qed.

(** Writing pieces in any order, some perhaps twice: each byte of a written piece is the content's. *)
Lemma WritePieces_run content L order : (0 < L)%nat → Forall (λ i, (i * L < length content)%nat) order → ∀ s paths,
  ready s paths → total (files s) = zlen content → fs_faults (root s) = [] →
  ∃ fs', WritePieces s (Z.of_nat L) (numbered content L order) = (Ok tt, fs') ∧ laid (files s) paths fs'
    ∧ fs_faults fs' = [] ∧ (∀ q, q ∉ paths → fs_files fs' !! q = fs_files (root s) !! q)
    ∧ ∀ k, stream paths fs' !! k = if decide (k / L ∈ order)%nat then content !! k else stream paths (root s) !! k.
Proof.
  intros HL. induction 1 as [|i order Hi Ho IH]; intros s paths Hr Ht Hf.
  { exists (root s). split_and!; try done. apply Hr. }
  destruct (covered_piece content L i Hi) as [Hcov Hrange]. pose proof (ready_size _ _ Hr) as Hb.
  destruct (WritePiece_run s paths (Z.of_nat i) (Z.of_nat L) (piece content L i)) as (r & fs1 & E1 & Hlaid & Hfr & _ & Hcase);
    [done|lia..|].
  cbn [numbered map WritePieces]. fold (numbered content L order). rewrite E1.
  destruct Hcase as [(-> & Hs & Hq)|(_ & ? & _)]; [|done]. rewrite Ht, Hcov. rewrite bool_decide_false by tauto.
  destruct (IH (with_root s fs1) paths) as (fs2 & -> & Hlaid2 & Hf2 & Hfr2 & Hk);
    [by apply ready_with_root|done|by apply Hq|].
  exists fs2. split_and!; try done.
  - intros q Hq'. rewrite Hfr2 by done. by apply Hfr.
  - intros k. rewrite Hk. cbn [root with_root]. rewrite Hs, lookup_patch_piece; [|apply (f_equal Z.to_nat) in Ht|done].
    + destruct (decide (k / L ∈ order)%nat) as [Hin|Hin], (decide (k / L = i)%nat) as [He|He];
        destruct (decide (k / L ∈ i :: order)%nat) as [Hc|Hc]; try done; exfalso; set_solver.
    + pose proof (laid_total _ _ _ (ready_laid _ _ Hr)) as [E _]. unfold zlen in *. lia.
Qed.

(** ** Lemmas: preallocation *)

(** The directories a file needs. *)
Definition parents (p : bytes) : list bytes := if bool_decide (Dir p = dot) then [] else ancestors (Dir p).

Lemma prefixes_last comps : comps ≠ [] → ∀ acc, join slash (acc ++ comps) ∈ prefixes_from acc comps.
Proof.
  induction comps as [|c cs IH]; intros H acc; [done|]. cbn [prefixes_from]. destruct cs as [|c' cs]; [left|right].
  replace (acc ++ c :: c' :: cs) with ((acc ++ [c]) ++ c' :: cs) by (by rewrite <- app_assoc). by apply IH.
Qed.

Lemma split_nonempty sep s : split sep s ≠ [].
Proof. by destruct (split_cons sep s) as (? & ? & ->). Qed.

Lemma ancestors_self dir : dir ∈ ancestors dir.
Proof. rewrite <- (join_split slash dir) at 1. apply (prefixes_last _ (split_nonempty slash dir) []). Qed.

Lemma make_dirs_run ds : ∀ fs, (∀ d, d ∈ ds → fs_files fs !! d = None) →
  make_dirs ds fs = (Ok tt, {| fs_files := fs_files fs; fs_dirs := list_to_set ds ∪ fs_dirs fs; fs_faults := fs_faults fs |}).
Proof.
  induction ds as [|d ds IH]; intros fs H; cbn [make_dirs].
  - f_equal. destruct fs. f_equal. set_solver.
  - rewrite H by left. rewrite bool_decide_false by (by intros [? ?]). rewrite IH by (intros; apply H; by right).
    unfold add_dir. cbn. do 2 f_equal. set_solver.
Qed.

Lemma syscall_quiet fs : fs_faults fs = [] → syscall fs = (None, fs).
Proof. unfold syscall. by intros ->. Qed.

Definition with_file (p c : bytes) (fs : FS) : FS :=
  {| fs_files := <[p := c]> (fs_files fs); fs_dirs := list_to_set (parents p) ∪ fs_dirs fs; fs_faults := [] |}.

Lemma preallocate_one_run fe p fs : resolve (Path fe) = Ok p → 0 ≤ Length fe → fs_faults fs = [] →
  p ∉ fs_dirs fs → p ∉ parents p → (∀ d, d ∈ parents p → fs_files fs !! d = None) →
  preallocate_one fe fs
  = (Ok tt, with_file p (resize (Z.to_nat (Length fe)) Byte.x00 (default [] (fs_files fs !! p))) fs).
Proof.
  intros Hr Hl Hf Hd Hp Ha. unfold preallocate_one. rewrite Hr. cbn zeta.
  set (fs1 := {| fs_files := fs_files fs; fs_dirs := list_to_set (parents p) ∪ fs_dirs fs; fs_faults := [] |}).
  assert (E1 : (if bool_decide (Dir p ≠ dot) then MkdirAll (Dir p) fs else (Ok tt, fs)) = (Ok tt, fs1)).
  { subst fs1. unfold parents in *. destruct (decide (Dir p = dot)) as [Ed|Ed].
    - rewrite (bool_decide_true (Dir p = dot)), (bool_decide_false (Dir p ≠ dot)) by tauto. f_equal. destruct fs. cbn in *. subst. f_equal. set_solver.
    - rewrite (bool_decide_false (Dir p = dot)) in Ha |- * by done. rewrite (bool_decide_true (Dir p ≠ dot)) by done. unfold MkdirAll.
      rewrite syscall_quiet by done. by rewrite make_dirs_run, Hf. }
  assert (Hd1 : p ∉ fs_dirs fs1) by (subst fs1; cbn; set_solver).
  rewrite E1. cbn [os_bind]. unfold OpenFile. rewrite syscall_quiet by done. rewrite bool_decide_false by done.
  assert (Hdir : Dir p = dot ∨ Dir p ∈ fs_dirs fs1).
  { subst fs1. cbn. unfold parents. destruct (decide (Dir p = dot)); [by left|right]. rewrite bool_decide_false by done.
    apply elem_of_union_l, elem_of_list_to_set, ancestors_self. }
  rewrite (bool_decide_true (Dir p = dot ∨ _)) by done. cbn [andb]. change (fs_files fs1) with (fs_files fs).
  assert (Ht : ∀ fs2, fs_faults fs2 = [] → Truncate p (Length fe) fs2 =
    (Ok tt, set_file p (resize (Z.to_nat (Length fe)) Byte.x00 (default [] (fs_files fs2 !! p))) fs2)).
  { intros fs2 E. unfold Truncate. rewrite syscall_quiet by done. by destruct (Z.ltb_spec (Length fe) 0); [lia|]. }
  destruct (fs_files fs !! p) as [c|] eqn:Ec; cbn [os_bind]; rewrite Ht by done; cbn [os_bind].
  - change (fs_files fs1) with (fs_files fs). rewrite Ec. unfold set_file, with_file. done.
  - unfold set_file, with_file. cbn [fs_files]. rewrite lookup_insert_eq. cbn. by rewrite insert_insert_eq.
Qed.

(** The storage can be laid out: the entries resolve to distinct paths of which none is a directory
    another one needs, none is a directory already, and no directory they need is a file. *)
Record layable (fes : list FileEntry) (paths : list bytes) (fs : FS) : Prop := {
  layable_resolve : Forall2 (λ fe p, resolve (Path fe) = Ok p ∧ 0 ≤ Length fe) fes paths;
  layable_distinct : NoDup paths;
  layable_apart : ∀ p q, p ∈ paths → q ∈ paths → p ∉ parents q;
  layable_fresh : ∀ p, p ∈ paths → (p ∉ fs_dirs fs) ∧ ∀ d, d ∈ parents p → fs_files fs !! d = None }.

Lemma layable_tail fe fes p ps fs c : layable (fe :: fes) (p :: ps) fs → layable fes ps (with_file p c fs).
Proof.
  intros [H1 H2 H3 H4]. apply Forall2_cons_1 in H1 as [_ H1]. apply NoDup_cons in H2 as [Hn H2]. constructor; [done|done| |].
  - intros q r Hq Hr. apply H3; by right.
  - intros q Hq. destruct (H4 q) as [Hd Hf]; [by right|]. cbn. split.
    + pose proof (H3 q p ltac:(by right) ltac:(by left)). set_solver.
    + intros d Hdq. rewrite lookup_insert_ne; [by apply Hf|]. intros <-. by apply (H3 p q ltac:(by left) ltac:(by right)).
Qed.

Lemma preallocate_run fes : ∀ paths fs, layable fes paths fs → fs_faults fs = [] →
  ∃ fs', preallocate_loop fes fs = (Ok tt, fs') ∧ fs_faults fs' = []
    ∧ (∀ d, d ∈ fs_dirs fs' → d ∈ fs_dirs fs ∨ ∃ q, q ∈ paths ∧ d ∈ parents q)
    ∧ (∀ q, q ∉ paths → fs_files fs' !! q = fs_files fs !! q)
    ∧ (∀ i fe p, fes !! i = Some fe → paths !! i = Some p → fs_files fs' !! p =
        Some (resize (Z.to_nat (Length fe)) Byte.x00 (default [] (fs_files fs !! p)))).
Proof.
  induction fes as [|fe fes IH]; intros paths fs HL Hf.
  { exists fs. split_and!; try done. by left. }
  pose proof (layable_resolve _ _ _ HL) as H. apply Forall2_cons_inv_l in H as (p & ps & [Hr Hl] & Hrest & ->).
  pose proof HL as [_ Hnd Hap Hfr]. apply NoDup_cons in Hnd as [Hpn Hnd]. destruct (Hfr p ltac:(left)) as [Hpd Hpa].
  cbn [preallocate_loop]. rewrite (preallocate_one_run _ p) by (done || apply Hap; left).
  set (c := resize (Z.to_nat (Length fe)) Byte.x00 (default [] (fs_files fs !! p))).
  destruct (IH ps (with_file p c fs)) as (fs' & -> & Hf' & Hd' & Hk & Hall); [by eapply layable_tail|done|].
  exists fs'. split_and!; try done.
  - intros d [Hin|(q & Hq & Hd)]%Hd'; [|right; exists q; split; [by right|done]]. cbn in Hin.
    apply elem_of_union in Hin as [Hin%elem_of_list_to_set|Hin]; [right; exists p; split; [left|done]|by left].
  - intros q Hq. rewrite Hk by set_solver. apply lookup_insert_ne. set_solver.
  - intros [|i] fe' p' E1 E2; cbn in E1, E2; simplify_eq; [rewrite Hk by done; apply lookup_insert_eq|].
    rewrite (Hall i fe' p') by done. cbn. rewrite lookup_insert_ne; [done|]. intros <-.
    by apply Hpn, list_elem_of_lookup_2 with i.
Qed.

Lemma layable_laid fes paths fs fs' : layable fes paths fs →
  (∀ d, d ∈ fs_dirs fs' → d ∈ fs_dirs fs ∨ ∃ q, q ∈ paths ∧ d ∈ parents q) →
  (∀ i fe p, fes !! i = Some fe → paths !! i = Some p → ∃ l, fs_files fs' !! p = Some (resize (Z.to_nat (Length fe)) Byte.x00 l)) →
  laid fes paths fs'.
Proof.
  intros [H1 _ Hap Hfr] Hd Hc. apply Forall2_same_length_lookup. split; [by eapply Forall2_length|]. intros i fe p Ef Ep.
  destruct (Forall2_lookup_lr _ _ _ _ _ _ H1 Ef Ep) as [Hr Hl]. assert (Hin : p ∈ paths) by (by eapply list_elem_of_lookup_2).
  split; [done|]. split.
  - intros [Hd'|(q & Hq & Hd')]%Hd; [by apply (Hfr p Hin)|by apply (Hap p q Hin Hq)].
  - destruct (Hc i fe p Ef Ep) as [l El]. eexists. split; [exact El|]. unfold zlen. rewrite length_resize. lia.
Qed.

(** A piece written over a partly written attempt of itself. *)
Lemma patch_mixed s s' rel d : mixes s s' (patch s rel d) → patch s' rel d = patch s rel d.
Proof.
  intros (Hl & _ & H). apply list_eq. intros i. specialize (H i). rewrite !lookup_patch in *.
  destruct (s !! i) as [b|] eqn:E; simpl in *.
  - destruct H as [-> | ->]; simpl; [done|]. destruct (0 <=? _); [|done]. by destruct (d !! _).
  - rewrite (lookup_ge_None_2 s' i); [done|]. rewrite Hl. by apply lookup_ge_None.
Qed.

(** ** The properties *)

(** C20. A download reaches the disk: on any directory where the torrent's files can be laid out, and
    when no system call fails, [Preallocate] followed by [WritePiece] on the pieces of [content], in
    any order that has each piece at least once, succeeds; the files, one after the other, then hold
    exactly [content], each with its length, and no other file of the directory changed. *)
Theorem download_to_disk s paths content L order :
  layable (files s) paths (root s) → fs_faults (root s) = [] →
  total (files s) = zlen content → zlen content < 2 ^ 62 → (0 < L)%nat →
  (∀ i, i ∈ order ↔ (i * L < length content)%nat) →
  ∃ fs1 fs2, Preallocate s = (Ok tt, fs1)
    ∧ WritePieces (with_root s fs1) (Z.of_nat L) (numbered content L order) = (Ok tt, fs2)
    ∧ stream paths fs2 = content ∧ laid (files s) paths fs2
    ∧ ∀ q, q ∉ paths → fs_files fs2 !! q = fs_files (root s) !! q.
Proof.
  intros HL Hf Ht Hb HLp Ho.
  destruct (preallocate_run _ _ _ HL Hf) as (fs1 & E1 & Hf1 & Hd1 & Hk1 & Hc1).
  assert (Hlaid1 : laid (files s) paths fs1) by (eapply layable_laid; [done..|]; eauto).
  destruct (WritePieces_run content L order HLp) with (s := with_root s fs1) (paths := paths)
    as (fs2 & E2 & Hlaid2 & _ & Hk2 & Hs); [|constructor; [done|by apply HL|change (total (files s) < 2 ^ 62); lia]|done..|].
  { apply Forall_forall. intros i. apply Ho. }
  exists fs1, fs2. split_and!; try done.
  - apply list_eq. intros k. rewrite Hs. case_decide as Hin; [done|]. rewrite Ho in Hin.
    pose proof (Nat.div_mod k L ltac:(lia)). pose proof (laid_total _ _ _ Hlaid1) as [E _]. cbn [root with_root].
    rewrite !lookup_ge_None_2; [done|nia|]. unfold zlen in *. nia.
  - intros q Hq. rewrite Hk2 by done. by apply Hk1.
Qed.

Definition sample_storage : Storage :=
  {| root := {| fs_files := {[ str "notes" := str "keep" ]}; fs_dirs := ∅; fs_faults := [] |};
     files := [{| Path := str "a"; Length := 3 |}; {| Path := str "d/./b"; Length := 4 |}] |}.
Definition sample_paths : list bytes := [str "a"; str "d/b"].

Theorem download_to_disk_witness :
  ∃ fs1 fs2, Preallocate sample_storage = (Ok tt, fs1)
    ∧ WritePieces (with_root sample_storage fs1) 2 (numbered (str "abcdefg") 2 [3; 1; 0; 1; 2]%nat) = (Ok tt, fs2)
    ∧ stream sample_paths fs2 = str "abcdefg" ∧ laid (files sample_storage) sample_paths fs2
    ∧ ∀ q, q ∉ sample_paths → fs_files fs2 !! q = fs_files (root sample_storage) !! q.
Proof.
  apply (download_to_disk sample_storage sample_paths (str "abcdefg") 2 [3; 1; 0; 1; 2]%nat); [|done|done|done|lia|].
  - constructor.
    + repeat constructor; vm_compute; done.
    + decide_now.
    + intros p q Hp Hq. assert (E : Forall (λ p, Forall (λ q, p ∉ parents q) sample_paths) sample_paths).
      { decide_now. }
      rewrite Forall_forall in E. specialize (E p Hp). rewrite Forall_forall in E. by apply E.
    + intros p Hp. assert (E : Forall (λ p, (p ∉ fs_dirs (root sample_storage))
        ∧ Forall (λ d, fs_files (root sample_storage) !! d = None) (parents p)) sample_paths).
      { decide_now. }
      rewrite Forall_forall in E. destruct (E p Hp) as [E1 E2]. split; [done|]. rewrite Forall_forall in E2. exact E2.
  - intros i. change (length (str "abcdefg")) with 7%nat. rewrite !elem_of_cons, elem_of_nil. lia.
Defined.

(** A verified piece is written at its place: when the storage's files are laid out and no system
    call fails, a piece that lies within the torrent replaces exactly its range of the files'
    concatenation and [WritePiece] succeeds; a nonempty piece that reaches past the end of the last
    file is reported as an offset mismatch. *)
Theorem WritePiece_correct s paths i L data :
  ready s paths → fs_faults (root s) = [] → 0 ≤ i → 0 ≤ L → i * L + zlen data < 2 ^ 62 →
  (i * L + zlen data ≤ total (files s) → ∃ fs', WritePiece s i L data = (Ok tt, fs')
     ∧ stream paths fs' = take (Z.to_nat (i * L)) (stream paths (root s)) ++ data
                            ++ drop (Z.to_nat (i * L) + length data) (stream paths (root s))
     ∧ ready (with_root s fs') paths ∧ ∀ q, q ∉ paths → fs_files fs' !! q = fs_files (root s) !! q)
  ∧ (total (files s) < i * L + zlen data → data ≠ [] →
     ∃ k fs', WritePiece s i L data = (Err (SMismatch k (zlen data)), fs') ∧ k < zlen data).
Proof.
  intros Hr Hf Hi HL Hb. pose proof (laid_total _ _ _ (ready_laid _ _ Hr)) as [Ht Ht0]. pose proof (zlen_nonneg data).
  destruct (WritePiece_run s paths i L data Hr Hi HL Hb) as (r & fs' & E & Hlaid & Hfr & _ & Hcase).
  destruct Hcase as [(-> & Hs & _)|(_ & ? & _)]; [|done]. split.
  - intros Hin. exists fs'. rewrite bool_decide_false in E by (unfold covered; nia). split_and!; try done.
    + rewrite Hs. rewrite <- (Z2Nat.id (i * L)) at 1 by nia. apply patch_inside. unfold zlen in *. nia.
    + by apply ready_with_root.
  - intros Hin Hd. assert (0 < zlen data) by (destruct data; [done|unfold zlen; simpl; lia]).
    rewrite bool_decide_true in E by (unfold covered; nia). eexists _, fs'. split; [exact E|]. unfold covered. nia.
Qed.

Definition sample_ready : Storage :=
  {| root := {| fs_files := {[ str "a" := str "..."; str "d/b" := str "...." ]}; fs_dirs := {[ str "d" ]}; fs_faults := [] |};
     files := files sample_storage |}.

Lemma sample_is_ready : ready sample_ready sample_paths.
Proof.
  constructor; [|decide_now|done].
  constructor; [|constructor; [|constructor]]; (split; [done|]; split; [decide_now|]);
    [exists (str "...")|exists (str "....")]; by vm_compute.
Qed.

Theorem WritePiece_correct_witness :
  (1 * 2 + zlen (str "xy") ≤ total (files sample_ready) → ∃ fs', WritePiece sample_ready 1 2 (str "xy") = (Ok tt, fs')
     ∧ stream sample_paths fs' = take (Z.to_nat (1 * 2)) (stream sample_paths (root sample_ready)) ++ str "xy"
                            ++ drop (Z.to_nat (1 * 2) + length (str "xy")) (stream sample_paths (root sample_ready))
     ∧ ready (with_root sample_ready fs') sample_paths
     ∧ ∀ q, q ∉ sample_paths → fs_files fs' !! q = fs_files (root sample_ready) !! q)
  ∧ (total (files sample_ready) < 1 * 2 + zlen (str "xy") → str "xy" ≠ [] →
     ∃ k fs', WritePiece sample_ready 1 2 (str "xy") = (Err (SMismatch k (zlen (str "xy"))), fs') ∧ k < zlen (str "xy")).
Proof. apply (WritePiece_correct sample_ready sample_paths 1 2 (str "xy")); [exact sample_is_ready|done..]. Defined.

(** C38. Whatever system calls fail while a piece is written, [WritePiece] returns, only the torrent's
    own files can change and they keep their lengths; and writing the piece again when the calls
    succeed leaves the files as if the first attempt had gone through. *)
Theorem WritePiece_interrupted s paths i L data r fs1 :
  ready s paths → 0 ≤ i → 0 ≤ L → i * L + zlen data ≤ total (files s) → WritePiece s i L data = (r, fs1) →
  returns r ∧ ready (with_root s fs1) paths ∧ (∀ q, q ∉ paths → fs_files fs1 !! q = fs_files (root s) !! q)
  ∧ (fs_faults fs1 = [] → ∃ fs2, WritePiece (with_root s fs1) i L data = (Ok tt, fs2)
       ∧ stream paths fs2 = patch (stream paths (root s)) (i * L) data).
Proof.
  intros Hr Hi HL Hin E. pose proof (ready_size _ _ Hr) as Hsz. pose proof (zlen_nonneg data).
  destruct (WritePiece_run s paths i L data Hr Hi HL) as (r' & fs' & E' & Hlaid & Hfr & _ & Hcase); [lia|].
  rewrite E' in E. injection E as -> ->. assert (Hr1 : ready (with_root s fs1) paths) by (by apply ready_with_root).
  split_and!; try done; [destruct Hcase as [[-> _]|[-> _]]; [by case_bool_decide|done]|]. intros Hq.
  destruct (WritePiece_run (with_root s fs1) paths i L data Hr1 Hi HL) as (r2 & fs2 & E2 & _ & _ & _ & Hcase2); [lia|].
  destruct Hcase2 as [(-> & Hs2 & _)|(_ & ? & _)]; [|done]. exists fs2. cbn [with_root files root] in *.
  rewrite bool_decide_false in E2 by (unfold covered; nia). split; [done|]. rewrite Hs2. apply patch_mixed.
  destruct Hcase as [(_ & -> & _)|(_ & _ & Hm)]; [|done]. apply mixes_right, length_patch.
Qed.

Definition sample_faulty : Storage := with_root sample_ready
  {| fs_files := fs_files (root sample_ready); fs_dirs := {[ str "d" ]}; fs_faults := [None; None; None; Some 1%nat] |}.

Theorem WritePiece_interrupted_witness :
  ∃ fs1, WritePiece sample_faulty 1 2 (str "xyz") = (Err (SOs EIO), fs1)
  ∧ stream sample_paths fs1 = str "..xy..."
  ∧ (returns (Err (SOs EIO) : result serr unit) ∧ ready (with_root sample_faulty fs1) sample_paths
     ∧ (∀ q, q ∉ sample_paths → fs_files fs1 !! q = fs_files (root sample_faulty) !! q)
     ∧ (fs_faults fs1 = [] → ∃ fs2, WritePiece (with_root sample_faulty fs1) 1 2 (str "xyz") = (Ok tt, fs2)
       ∧ stream sample_paths fs2 = patch (stream sample_paths (root sample_faulty)) (1 * 2) (str "xyz"))).
Proof.
  eexists. split; [reflexivity|]. split; [by vm_compute|].
  apply (WritePiece_interrupted sample_faulty sample_paths 1 2 (str "xyz")); [|done|done|done|reflexivity].
  constructor; [|apply sample_is_ready|done]. apply (laid_frame _ _ (root sample_ready)); [|done|done]. apply sample_is_ready.
Defined.
