(* ===== verification/Swarm.v ===== *)
(** * The swarm: workers, collector and supervisor of [internal/client/swarm.go]

    A transition system over the shared state.  The workers, the collection loop of [Start] and the
    exhaustion supervisor are threads whose program counters are part of the state; an [action] is
    one atomic step of one of them (a channel operation, a section under a mutex, an atomic variable,
    a call on data the thread owns), and [exec] gives its effect, or [None] when the thread cannot
    take it.  Buffered channels are queues with their capacity; [resultChan] is unbuffered, so a
    worker's send and the collector's receive are one step.  Dialling and downloading run the
    definitions of [Downloader] on a connection whose incoming bytes are chosen by the environment;
    writing runs [Storage.WritePiece]. *)

From S2P Require Import Prelude Strconv Hex Sha GoStrings NetAddr Bencode Recognize Url Codec ClientTracker Wire Peer Downloader Paths Metainfo Storage.
From Stdlib Require Import ZArith Lia.
Local Open Scope Z_scope.

(** ** State *)

Inductive PieceStatus := PiecePending | PieceInProgress | PieceCompleted.

#[export] Instance PieceStatus_eq_decision : EqDecision PieceStatus.
Proof. solve_decision. Defined.

Definition peerPoolHeadroom : nat := 256.
Definition exhaustionConfirms : nat := 2.

(** The data of a verified piece, or an error. *)
Definition outcome : Type := option bytes.

(** A worker: waiting for an address; holding one, before and after it is counted as in flight; with
    a connection, waiting for work; downloading; offering harvested addresses; sending its result,
    with or without a connection left; returned. *)
Inductive wstate :=
| WAcquire
| WTook (addr : bytes)
| WDial (addr : bytes)
| WReady (conn : PeerConn)
| WDownload (i : nat) (conn : PeerConn)
| WAdd (addrs : list bytes) (i : nat) (o : outcome) (conn : PeerConn)
| WSend (i : nat) (o : outcome) (conn : option PeerConn)
| WExit.

(** The collection loop: receiving; with a result; re-enqueuing a failed piece; draining after a
    break; past the loops, when [resultChan] is closed. *)
Inductive cstate := CRecv | CGot (i : nat) (o : outcome) | CRequeue (i : nat) | CDrain | CClosed.

(** The supervisor: waiting for a tick with some confirmations, and between the three reads of the
    stall condition; returned. *)
Inductive sstate := SIdle (confirms : nat) | SPool (confirms : nat) | SFlight (confirms : nat) | SDone.

Record Swarm := mkSwarm {
  pieces : list PieceStatus;
  workChan : list nat;
  peerChan : list bytes;
  knownAddrs : gset bytes;
  inFlight : Z;
  completed : Z;
  exhausted : bool;
  cancelled : bool;          (* the derived context *)
  workers : list wstate;
  collector : cstate;
  dlErr : option serr;
  supervisor : sstate;
  store : Storage;
}.

Definition with_pieces (s : Swarm) (x : list PieceStatus) : Swarm :=
  mkSwarm x (workChan s) (peerChan s) (knownAddrs s) (inFlight s) (completed s) (exhausted s) (cancelled s) (workers s)
    (collector s) (dlErr s) (supervisor s) (store s).
Definition with_work (s : Swarm) (x : list nat) : Swarm :=
  mkSwarm (pieces s) x (peerChan s) (knownAddrs s) (inFlight s) (completed s) (exhausted s) (cancelled s) (workers s)
    (collector s) (dlErr s) (supervisor s) (store s).
Definition with_pool (s : Swarm) (x : list bytes) (k : gset bytes) : Swarm :=
  mkSwarm (pieces s) (workChan s) x k (inFlight s) (completed s) (exhausted s) (cancelled s) (workers s)
    (collector s) (dlErr s) (supervisor s) (store s).
Definition add_flight (s : Swarm) (x : Z) : Swarm :=
  mkSwarm (pieces s) (workChan s) (peerChan s) (knownAddrs s) (wrap64 (inFlight s + x)) (completed s) (exhausted s) (cancelled s)
    (workers s) (collector s) (dlErr s) (supervisor s) (store s).
Definition with_completed (s : Swarm) (x : Z) : Swarm :=
  mkSwarm (pieces s) (workChan s) (peerChan s) (knownAddrs s) (inFlight s) x (exhausted s) (cancelled s) (workers s)
    (collector s) (dlErr s) (supervisor s) (store s).
Definition cancel (s : Swarm) : Swarm :=
  mkSwarm (pieces s) (workChan s) (peerChan s) (knownAddrs s) (inFlight s) (completed s) (exhausted s) true (workers s)
    (collector s) (dlErr s) (supervisor s) (store s).
Definition with_worker (s : Swarm) (w : nat) (x : wstate) : Swarm :=
  mkSwarm (pieces s) (workChan s) (peerChan s) (knownAddrs s) (inFlight s) (completed s) (exhausted s) (cancelled s)
    (<[w := x]> (workers s)) (collector s) (dlErr s) (supervisor s) (store s).
Definition with_collector (s : Swarm) (x : cstate) : Swarm :=
  mkSwarm (pieces s) (workChan s) (peerChan s) (knownAddrs s) (inFlight s) (completed s) (exhausted s) (cancelled s) (workers s)
    x (dlErr s) (supervisor s) (store s).
Definition with_error (s : Swarm) (e : serr) : Swarm :=
  mkSwarm (pieces s) (workChan s) (peerChan s) (knownAddrs s) (inFlight s) (completed s) (exhausted s) (cancelled s) (workers s)
    (collector s) (Some e) (supervisor s) (store s).
Definition with_supervisor (s : Swarm) (x : sstate) : Swarm :=
  mkSwarm (pieces s) (workChan s) (peerChan s) (knownAddrs s) (inFlight s) (completed s) (exhausted s) (cancelled s) (workers s)
    (collector s) (dlErr s) x (store s).
Definition declare_exhausted (s : Swarm) : Swarm :=
  mkSwarm (pieces s) (workChan s) (peerChan s) (knownAddrs s) (inFlight s) (completed s) true true (workers s)
    (collector s) (dlErr s) (supervisor s) (store s).
Definition with_disk (s : Swarm) (fs : FS) : Swarm :=
  mkSwarm (pieces s) (workChan s) (peerChan s) (knownAddrs s) (inFlight s) (completed s) (exhausted s) (cancelled s) (workers s)
    (collector s) (dlErr s) (supervisor s) (Storage.with_root (store s) fs).

(** ** Operations *)

Section swarm.
Context {B : Bencoder} (meta : TorrentMeta) (infoHash peerID : bytes).

Definition pieceCount : nat := Z.to_nat (PieceCount meta).
Definition pieceHashes : bytes := default [] (Pieces meta).

(** One round of [AddPeers], under [poolMu]. *)
Definition add_peer (s : Swarm) (addr : bytes) : Swarm :=
  if bool_decide (addr ∈ knownAddrs s) then s
  else if (length (peerChan s) <? peerPoolHeadroom)%nat then with_pool s (peerChan s ++ [addr]) ({[addr]} ∪ knownAddrs s)
  else s.
Definition AddPeers (s : Swarm) (addrs : list bytes) : Swarm := foldl add_peer s addrs.

Definition NewSwarm (st : Storage) : Swarm :=
  mkSwarm (replicate pieceCount PiecePending) [] [] ∅ 0 0 false false [] CRecv None (SIdle 0) st.

(** [Start] up to the collection loop: the pieces queued, the pool seeded, the workers started. *)
Definition start (maxWorkers : Z) (addrs : list bytes) (st : Storage) : Swarm :=
  let s := AddPeers (with_work (NewSwarm st) (seq 0 pieceCount)) addrs in
  let n := if maxWorkers <? 1 then 1 else maxWorkers in
  mkSwarm (pieces s) (workChan s) (peerChan s) (knownAddrs s) (inFlight s) (completed s) (exhausted s) (cancelled s)
    (replicate (Z.to_nat n) WAcquire) (collector s) (dlErr s) (supervisor s) (store s).

Definition piece_size (i : nat) : Z :=
  let remaining := wrap64 (TotalSize meta - wrap64 (Z.of_nat i * PieceLength meta)) in
  if remaining <? PieceLength meta then remaining else PieceLength meta.
Definition piece_hash (i : nat) : bytes := slice pieceHashes (i * 20) ((i + 1) * 20).

Inductive action :=
| AExternalCancel                                   (* the caller's context *)
| ATake (w : nat)                                   (* addr := <-s.peerChan *)
| ACount (w : nat)                                  (* s.inFlight.Add(1) *)
| ADial (w : nat) (conn : option (bytes * nat * nat))  (* dialAndHandshake: the bytes that will come in, the writes
                                                       and context polls left; None: no TCP connection *)
| AQuit (w : nat)                                   (* <-ctx.Done() *)
| AWork (w : nat)                                   (* index := <-s.workChan, up to the download *)
| ADownload (w : nat)                               (* downloadPiece, DrainPexPeers *)
| AAdd (w : nat)                                    (* a round of AddPeers, or its end *)
| ASend (w : nat)                                   (* s.resultChan <- ..., received by the collector *)
| ACollect                                          (* the body of the collection loop *)
| ARequeue                                          (* s.workChan <- res.index *)
| AGiveUp                                           (* <-ctx.Done() in its place *)
| AClose                                            (* resultChan is closed, the collector's loops end *)
| APoll                                             (* a tick or one of the supervisor's reads *)
| ASupervisorDone.                                  (* <-ctx.Done() in the supervisor *)

Definition acquire_step (w : nat) (s : Swarm) : option Swarm :=
  match workers s !! w, peerChan s with
  | Some WAcquire, addr :: rest => Some (with_worker (with_pool s rest (knownAddrs s)) w (WTook addr))
  | _, _ => None
  end.

Definition dial_step (w : nat) (conn : option (bytes * nat * nat)) (s : Swarm) : option Swarm :=
  match workers s !! w with
  | Some (WDial _) =>
      match conn with
      | None => Some (with_worker (add_flight s (-1)) w WAcquire)
      | Some (incoming, wr, cx) =>
          match dialAndHandshake infoHash peerID (Connect incoming wr cx) with
          | (Ok _, p') => Some (with_worker s w (WReady p'))
          | (Err _, _) => Some (with_worker (add_flight s (-1)) w WAcquire)
          | _ => None
          end
      end
  | _ => None
  end.

Definition work_step (w : nat) (s : Swarm) : option Swarm :=
  match workers s !! w, workChan s with
  | Some (WReady p), i :: rest =>
      let s := with_work s rest in
      if bool_decide (pieces s !! i ≠ Some PiecePending) then Some s else
      let s := with_pieces s (<[i := PieceInProgress]> (pieces s)) in
      if (length pieceHashes <? (i + 1) * 20)%nat
      then Some (with_worker s w (WSend i None (Some p)))
      else Some (with_worker s w (WDownload i p))
  | _, _ => None
  end.

Definition download_step (w : nat) (s : Swarm) : option Swarm :=
  match workers s !! w with
  | Some (WDownload i p) =>
      match downloadPiece (Z.of_nat i) (piece_size i) (piece_hash i) p with
      | (Ok data, p') => let '(_, q) := DrainPexPeers p' in Some (with_worker s w (WAdd (pexPeers p') i (Some data) q))
      | (Err _, p') => let '(_, q) := DrainPexPeers p' in Some (with_worker s w (WAdd (pexPeers p') i None q))
      | _ => None
      end
  | _ => None
  end.

Definition add_step (w : nat) (s : Swarm) : option Swarm :=
  match workers s !! w with
  | Some (WAdd (a :: addrs) i o p) => Some (with_worker (add_peer s a) w (WAdd addrs i o p))
  | Some (WAdd [] i (Some data) p) => Some (with_worker s w (WSend i (Some data) (Some p)))
  | Some (WAdd [] i None p) => Some (with_worker (add_flight s (-1)) w (WSend i None None))
  | _ => None
  end.

Definition send_step (w : nat) (s : Swarm) : option Swarm :=
  match workers s !! w with
  | Some (WSend i o conn) =>
      let s' := with_worker s w (match conn with Some p => WReady p | None => WAcquire end) in
      match collector s with
      | CRecv => Some (with_collector s' (CGot i o))
      | CDrain => Some s'
      | _ => None
      end
  | _ => None
  end.

Definition quit_step (w : nat) (s : Swarm) : option Swarm :=
  if cancelled s then
    match workers s !! w with
    | Some WAcquire => Some (with_worker s w WExit)
    | Some (WReady _) => Some (with_worker (add_flight s (-1)) w WExit)
    | _ => None
    end
  else None.

Definition collect_step (s : Swarm) : option Swarm :=
  match collector s with
  | CGot i None => Some (with_collector (with_pieces s (<[i := PiecePending]> (pieces s))) (CRequeue i))
  | CGot i (Some data) =>
      match WritePiece (store s) (Z.of_nat i) (PieceLength meta) data with
      | (Ok _, fs) =>
          let s := with_disk s fs in
          let s := with_pieces s (<[i := PieceCompleted]> (pieces s)) in
          let s := with_completed s (wrap64 (completed s + 1)) in
          if completed s =? PieceCount meta then Some (with_collector (cancel s) CDrain)
          else Some (with_collector s CRecv)
      | (Err e, fs) => Some (with_collector (cancel (with_error (with_disk s fs) e)) CDrain)
      | _ => None
      end
  | _ => None
  end.

Definition requeue_step (s : Swarm) : option Swarm :=
  match collector s with
  | CRequeue i => if (length (workChan s) <? pieceCount)%nat then Some (with_collector (with_work s (workChan s ++ [i])) CRecv) else None
  | _ => None
  end.

Definition give_up_step (s : Swarm) : option Swarm :=
  match collector s with
  | CRequeue _ => if cancelled s then Some (with_collector s CRecv) else None
  | _ => None
  end.

(** [wg.Wait(); close(s.resultChan)], the end of both loops and the [cancel()] after them. *)
Definition is_exit (x : wstate) : bool := match x with WExit => true | _ => false end.
Definition close_step (s : Swarm) : option Swarm :=
  if forallb is_exit (workers s) then
    match collector s with
    | CRecv | CDrain => Some (cancel (with_collector s CClosed))
    | _ => None
    end
  else None.

Definition poll_step (s : Swarm) : option Swarm :=
  match supervisor s with
  | SIdle c => Some (with_supervisor s (if bool_decide (peerChan s = []) then SPool c else SIdle 0))
  | SPool c => Some (with_supervisor s (if inFlight s =? 0 then SFlight c else SIdle 0))
  | SFlight c =>
      if completed s <? PieceCount meta then
        let c := S c in
        if (exhaustionConfirms <=? c)%nat then Some (with_supervisor (declare_exhausted s) SDone)
        else Some (with_supervisor s (SIdle c))
      else Some (with_supervisor s (SIdle 0))
  | SDone => None
  end.

Definition exec (a : action) (s : Swarm) : option Swarm :=
  match a with
  | AExternalCancel => Some (cancel s)
  | ATake w => acquire_step w s
  | ACount w => match workers s !! w with Some (WTook a) => Some (with_worker (add_flight s 1) w (WDial a)) | _ => None end
  | ADial w conn => dial_step w conn s
  | AQuit w => quit_step w s
  | AWork w => work_step w s
  | ADownload w => download_step w s
  | AAdd w => add_step w s
  | ASend w => send_step w s
  | ACollect => collect_step s
  | ARequeue => requeue_step s
  | AGiveUp => give_up_step s
  | AClose => close_step s
  | APoll => poll_step s
  | ASupervisorDone => match supervisor s with SIdle _ => if cancelled s then Some (with_supervisor s SDone) else None | _ => None end
  end.

Definition step (s s' : Swarm) : Prop := ∃ a, exec a s = Some s'.

(** What [Start] returns once its loops have ended and the supervisor has returned. *)
Inductive start_result := Finished | WriteFailed (e : serr) | Exhausted | WorkersDied.
Definition Start_returns (s : Swarm) : option start_result :=
  match collector s, supervisor s with
  | CClosed, SDone =>
      Some (match dlErr s with
            | Some e => WriteFailed e
            | None => if completed s <? PieceCount meta then if exhausted s then Exhausted else WorkersDied else Finished
            end)
  | _, _ => None
  end.

End swarm.
