(* ===== verification/SwarmInv.v ===== *)
(** * The swarm's invariant

    Rule induction over the steps of [Swarm]: every piece is queued, in the hands of one thread, or
    completed, and never two of these; a completed piece is on disk and has its hash; [inFlight] counts
    the connections.  From these: what [Start] returns, and that no thread waits for ever. *)

From S2P Require Import Prelude Strconv Hex Sha GoStrings NetAddr Bencode Recognize Url Codec ClientTracker Wire Peer Downloader Paths Metainfo Storage Swarm.
From Stdlib Require Import ZArith Lia.
Local Open Scope Z_scope.

(** ** Pieces of the disk *)

Lemma piece_ext a b L j : (0 < L)%nat → (∀ k, (k / L = j)%nat → a !! k = b !! k) → piece a L j = piece b L j.
Proof.
  intros HL H. apply list_eq. intros k. unfold piece. destruct (decide (k < L)%nat) as [Hk|Hk].
  - rewrite !lookup_take_lt, !lookup_drop by done. apply H. symmetry. apply (Nat.div_unique _ _ _ k); lia.
  - rewrite !lookup_ge_None_2 by (rewrite length_take; lia). done.
Qed.

(** A write of piece [i] leaves the other pieces alone. *)
Lemma patch_other s d L i j : (0 < L)%nat → (length d ≤ L)%nat → j ≠ i →
  ∀ k, (k / L = j)%nat → patch s (Z.of_nat i * Z.of_nat L) d !! k = s !! k.
Proof.
  intros HL Hd Hj k Hk. rewrite lookup_patch. destruct (s !! k) as [b|]; [|done]. simpl. f_equal.
  pose proof (Nat.div_mod k L ltac:(lia)). pose proof (Nat.mod_upper_bound k L ltac:(lia)).
  destruct (Z.leb_spec 0 (Z.of_nat k - Z.of_nat i * Z.of_nat L)); [|done]. rewrite lookup_ge_None_2; [done|].
  assert (i < j)%nat by nia. nia.
Qed.

(** A written piece is read back. *)
Lemma patch_piece s d L i : (0 < L)%nat → (i * L + length d ≤ length s)%nat → (length d = L ∨ i * L + length d = length s)%nat →
  (length d ≤ L)%nat → piece (patch s (Z.of_nat i * Z.of_nat L) d) L i = d.
Proof.
  intros HL Hin Hlast Hd. rewrite <- Nat2Z.inj_mul, patch_inside by done. unfold piece.
  rewrite drop_app_length' by (rewrite length_take; lia). destruct Hlast as [E|E].
  - rewrite <- E at 1. apply take_app_length.
  - rewrite drop_ge, app_nil_r by lia. by rewrite take_ge.
Qed.

Section swarm.
Context {B : Bencoder} (meta : TorrentMeta) (infoHash peerID : bytes) (paths : list bytes).

Abbreviation n := (pieceCount meta).
Abbreviation L := (Z.to_nat (PieceLength meta)).

(** The layout of a parsed torrent: the pieces cover the content, the last one is not empty, and there
    is a hash for each. *)
Record consistent : Prop := {
  c_length : 0 < PieceLength meta < 2 ^ 62;
  c_total : 0 < TotalSize meta < 2 ^ 62;
  c_count : (PieceCount meta - 1) * PieceLength meta < TotalSize meta ≤ PieceCount meta * PieceLength meta;
  c_hashes : length (pieceHashes meta) = (20 * n)%nat }.
Context (Hm : consistent).

Lemma count_pos : PieceCount meta = Z.of_nat n ∧ (0 < n)%nat ∧ Z.of_nat n ≤ 2 ^ 62.
Proof. destruct Hm as [H1 H2 H3 _]. unfold pieceCount. assert (0 < PieceCount meta ≤ 2 ^ 62) by nia. lia. Qed.

Lemma offset_bound i : (i < n)%nat → 0 ≤ Z.of_nat i * PieceLength meta < TotalSize meta.
Proof. intros Hi. destruct count_pos as (E & _). destruct Hm as [H1 H2 H3 _]. rewrite E in H3. nia. Qed.

Lemma piece_size_ok i : (i < n)%nat →
  piece_size meta i = Z.min (PieceLength meta) (TotalSize meta - Z.of_nat i * PieceLength meta) ∧ 0 < piece_size meta i.
Proof.
  intros Hi. pose proof (offset_bound i Hi). destruct Hm as [H1 H2 H3 _]. unfold piece_size.
  rewrite (wrap64_id (Z.of_nat i * _)), wrap64_id by (unfold in_int64; lia). destruct (Z.ltb_spec (TotalSize meta - Z.of_nat i * PieceLength meta) (PieceLength meta)); lia.
Qed.

(** Data that passed [downloadPiece] for piece [i]. *)
Definition verified (i : nat) (d : bytes) : Prop := zlen d = piece_size meta i ∧ sha1 d = piece_hash meta i.

(** The last piece ends with the content, the others are full. *)
Lemma verified_layout i d : (i < n)%nat → verified i d →
  (length d ≤ L)%nat ∧ (i * L + length d ≤ Z.to_nat (TotalSize meta))%nat ∧ (length d = L ∨ i * L + length d = Z.to_nat (TotalSize meta))%nat.
Proof.
  intros Hi [Hd _]. destruct (piece_size_ok i Hi) as [E _]. pose proof (offset_bound i Hi). destruct Hm as [H1 H2 H3 _].
  unfold zlen in Hd. assert (Z.of_nat (i * L) = Z.of_nat i * PieceLength meta) by (rewrite Nat2Z.inj_mul; lia). lia.
Qed.

(** ** Who has which piece *)

Definition held (x : wstate) : list nat :=
  match x with WDownload i _ | WAdd _ i _ _ | WSend i _ _ => [i] | _ => [] end.
Definition queued (s : Swarm) : list nat := workChan s ++ match collector s with CRequeue i => [i] | _ => [] end.
Definition busy (s : Swarm) : list nat := (workers s ≫= held) ++ match collector s with CGot i _ => [i] | _ => [] end.

(** A connection that [inFlight] counts. *)
Definition active (x : wstate) : bool :=
  match x with WDial _ | WReady _ | WDownload _ _ | WAdd _ _ _ _ | WSend _ _ (Some _) => true | _ => false end.
Definition flights (ws : list wstate) : Z := Z.of_nat (length (filter (λ x, active x = true) ws)).

Definition worker_ok (x : wstate) : Prop :=
  match x with WAdd _ i (Some d) _ | WSend i (Some d) _ => verified i d | _ => True end.

Record book (ps : list PieceStatus) (q b : list nat) : Prop := {
  bk_length : length ps = n;
  bk_once : NoDup (q ++ b);
  bk_queued : ∀ i, i ∈ q → ps !! i = Some PiecePending;
  bk_busy : ∀ i, i ∈ b → ps !! i = Some PieceInProgress }.

Definition completed_of (ps : list PieceStatus) : Z := Z.of_nat (length (filter (λ x, x = PieceCompleted) ps)).

Record inv (s : Swarm) : Prop := {
  inv_book : book (pieces s) (queued s) (busy s);
  inv_cover : cancelled s = false → ∀ i, (i < n)%nat → pieces s !! i = Some PieceCompleted ∨ i ∈ queued s ++ busy s;
  inv_count : completed s = completed_of (pieces s);
  inv_more : cancelled s = false → completed s < PieceCount meta;
  inv_workers : Forall worker_ok (workers s);
  inv_crew : (0 < length (workers s))%nat ∧ Z.of_nat (length (workers s)) < 2 ^ 62;
  inv_collector : match collector s with CGot i (Some d) => verified i d | CDrain | CClosed => cancelled s = true | _ => True end;
  inv_closed : collector s = CClosed → Forall (λ x, is_exit x = true) (workers s);
  inv_flight : inFlight s = flights (workers s);
  inv_ready : ready (store s) paths;
  inv_total : total (files (store s)) = TotalSize meta;
  inv_disk : ∀ i, pieces s !! i = Some PieceCompleted → sha1 (piece (stream paths (root (store s))) L i) = piece_hash meta i }.

(** *** The ledger under the moves of a piece *)

Lemma book_perm ps q q' b b' : q ≡ₚ q' → b ≡ₚ b' → book ps q b → book ps q' b'.
Proof. intros Pq Pb [H1 H2 H3 H4]. constructor; [done|by rewrite <- Pq, <- Pb|intros i; rewrite <- Pq; auto|intros i; rewrite <- Pb; auto]. Qed.

Lemma book_lt ps q b i : book ps q b → i ∈ q ++ b → (i < n)%nat.
Proof.
  intros [H1 _ H3 H4] [Hi|Hi]%elem_of_app; [apply H3 in Hi|apply H4 in Hi]; apply lookup_lt_Some in Hi; lia.
Qed.

(** From the queue to a worker. *)
Lemma book_start ps q b i : book ps (i :: q) b → book (<[i := PieceInProgress]> ps) q (i :: b).
Proof.
  intros Hb. pose proof (book_lt _ _ _ i Hb ltac:(left)). destruct Hb as [H1 H2 H3 H4]. rewrite <- app_comm_cons in H2.
  pose proof H2 as [Hi H2']%NoDup_cons. constructor.
  - by rewrite length_insert.
  - by rewrite <- Permutation_middle.
  - intros j Hj. rewrite list_lookup_insert_ne; [by apply H3; right|]. intros ->. apply Hi, elem_of_app. by left.
  - intros j [->|Hj]%elem_of_cons; [apply list_lookup_insert_eq; lia|].
    rewrite list_lookup_insert_ne; [by apply H4|]. intros ->. apply Hi, elem_of_app. by right.
Qed.

(** A busy piece gets a new status and leaves, perhaps for the queue. *)
Lemma book_finish ps q b i x : book ps q (i :: b) → book (<[i := x]> ps) q b ∧ (x = PiecePending → book (<[i := x]> ps) (i :: q) b).
Proof.
  intros Hb. pose proof (book_lt _ _ _ i Hb ltac:(set_solver)). destruct Hb as [H1 H2 H3 H4]. rewrite <- Permutation_middle in H2.
  pose proof H2 as [Hi H2']%NoDup_cons.
  assert (Hb : book (<[i := x]> ps) q b).
  { constructor; [by rewrite length_insert|done| |]; intros j Hj; (rewrite list_lookup_insert_ne; [|intros ->; apply Hi, elem_of_app; tauto]);
      [by apply H3|apply H4; by right]. }
  split; [done|]. intros ->. destruct Hb as [K1 K2 K3 K4]. constructor; [done|done| |done].
  intros j [->|Hj]%elem_of_cons; [apply list_lookup_insert_eq; lia|by apply K3].
Qed.

(** A piece is let go of. *)
Lemma book_drop ps q b i : (book ps q (i :: b) → book ps q b) ∧ (book ps (i :: q) b → book ps q b).
Proof.
  split; intros [H1 H2 H3 H4].
  - rewrite <- Permutation_middle in H2. apply NoDup_cons in H2 as [_ H2]. constructor; try done. intros j Hj. apply H4. by right.
  - rewrite <- app_comm_cons in H2. apply NoDup_cons in H2 as [_ H2]. constructor; try done. intros j Hj. apply H3. by right.
Qed.

Lemma completed_insert ps i x y : ps !! i = Some x → x ≠ PieceCompleted →
  completed_of (<[i := y]> ps) = completed_of ps + (if bool_decide (y = PieceCompleted) then 1 else 0).
Proof.
  intros Hi Hx. unfold completed_of. rewrite (insert_take_drop _ _ y) by (by eapply lookup_lt_Some).
  rewrite <- (take_drop_middle ps i x Hi) at 3. rewrite !filter_app, !filter_cons, !length_app.
  rewrite (decide_False (P := x = PieceCompleted)) by done. case_decide as E; [rewrite bool_decide_true by done|rewrite bool_decide_false by done];
    simpl; rewrite ?length_app; simpl; lia.
Qed.

(** *** One worker changes *)

Lemma workers_split (ws : list wstate) w x : ws !! w = Some x →
  ∃ rest, ws ≡ₚ x :: rest ∧ (∀ y, <[w := y]> ws ≡ₚ y :: rest) ∧ length ws = S (length rest).
Proof.
  intros H. exists (take w ws ++ drop (S w) ws). assert (P : ws ≡ₚ x :: take w ws ++ drop (S w) ws).
  { rewrite <- (take_drop_middle ws w x H) at 1. symmetry. apply Permutation_middle. }
  split; [done|]. split; [|by rewrite (Permutation_length P)]. intros y.
  rewrite insert_take_drop by (by eapply lookup_lt_Some). symmetry. apply Permutation_middle.
Qed.

Lemma flights_cons x ws : flights (x :: ws) = (if active x then 1 else 0) + flights ws.
Proof. unfold flights. rewrite filter_cons. destruct (active x); [rewrite decide_True by done; simpl; lia|by rewrite decide_False]. Qed.

Lemma flights_none ws : Forall (λ x, active x = false) ws → flights ws = 0.
Proof. induction 1 as [|x ws Hx _ IH]; [done|]. by rewrite flights_cons, Hx, IH. Qed.

#[local] Instance flights_perm : Proper ((≡ₚ) ==> (=)) flights.
Proof. intros ws ws' P. unfold flights. by rewrite P. Qed.

Lemma flights_range ws : 0 ≤ flights ws ≤ Z.of_nat (length ws).
Proof. unfold flights. pose proof (length_filter (λ x, active x = true) ws). lia. Qed.

Lemma busy_perm s w x : workers s !! w = Some x → ∃ rest, workers s ≡ₚ x :: rest
  ∧ (busy s ≡ₚ held x ++ (rest ≫= held) ++ match collector s with CGot i _ => [i] | _ => [] end)
  ∧ (∀ y, <[w := y]> (workers s) ≡ₚ y :: rest ∧ <[w := y]> (workers s) ≫= held ≡ₚ held y ++ (rest ≫= held)).
Proof.
  intros Hw. destruct (workers_split _ _ _ Hw) as (rest & P & Q & _). exists rest. split; [done|]. split.
  - unfold busy. rewrite P. by rewrite bind_cons, <- app_assoc.
  - intros y. split; [apply Q|]. by rewrite Q.
Qed.

(** A worker moves on, keeping its piece. *)
Lemma inv_move s w x y fl ch kn :
  inv s → workers s !! w = Some x → is_exit x = false → held y = held x → worker_ok y →
  fl = inFlight s + (if active y then 1 else 0) - (if active x then 1 else 0) →
  inv (mkSwarm (pieces s) (workChan s) ch kn fl (completed s) (exhausted s) (cancelled s) (<[w := y]> (workers s))
         (collector s) (dlErr s) (supervisor s) (store s)).
Proof.
  intros Hi Hw Hx Hh Hy ->. destruct (busy_perm _ _ _ Hw) as (rest & P & Pb & Q). destruct (Q y) as [Qy Qb].
  assert (E : busy (mkSwarm (pieces s) (workChan s) ch kn (inFlight s + (if active y then 1 else 0) - (if active x then 1 else 0)) (completed s)
     (exhausted s) (cancelled s) (<[w := y]> (workers s)) (collector s) (dlErr s) (supervisor s) (store s)) ≡ₚ busy s).
  { rewrite Pb. unfold busy. cbn [workers collector]. by rewrite Qb, Hh, app_assoc. }
  destruct Hi. constructor; cbn [pieces workChan completed cancelled workers collector store inFlight]; try done.
  - by eapply book_perm; [..|eassumption]; [|symmetry; exact E].
  - intros Hc i Hi. rewrite E. by apply inv_cover0.
  - rewrite Qy. rewrite P in inv_workers0. apply Forall_cons in inv_workers0 as [_ ?]. by constructor.
  - by rewrite length_insert.
  - intros Hc. apply inv_closed0 in Hc. rewrite P in Hc. apply Forall_cons in Hc as [Hc _]. congruence.
  - rewrite Qy, inv_flight0, P, !flights_cons. lia.
Qed.

Lemma flight_range s : inv s → ∀ d, -1 ≤ d ≤ 1 → wrap64 (inFlight s + d) = inFlight s + d.
Proof.
  intros Hi d Hd. rewrite (inv_flight _ Hi). pose proof (flights_range (workers s)). destruct (inv_crew _ Hi).
  apply wrap64_id. unfold in_int64. lia.
Qed.

(** The context, the supervisor and the pool are free to change; a cancelled context stays cancelled. *)
Lemma inv_env s ch kn ex ca e sup : inv s → (cancelled s = true → ca = true) →
  inv (mkSwarm (pieces s) (workChan s) ch kn (inFlight s) (completed s) ex ca (workers s) (collector s) e sup (store s)).
Proof.
  intros [] Hca. constructor; cbn [pieces workChan completed cancelled workers collector store inFlight]; try done.
  - intros Hc. apply inv_cover0. destruct (cancelled s); [|done]. by rewrite Hca in Hc.
  - intros Hc. apply inv_more0. destruct (cancelled s); [|done]. by rewrite Hca in Hc.
  - destruct (collector s) as [|? []| | |]; auto.
Qed.

Lemma add_peer_pool s a : ∃ ch kn, add_peer s a = with_pool s ch kn.
Proof.
  unfold add_peer. repeat case_match; eauto; exists (peerChan s), (knownAddrs s); by destruct s.
Qed.

(** *** A piece moves *)

(** Membership after a status changed. *)
Lemma cover_insert ps i x (A A' : list nat) : (i < length ps)%nat →
  (∀ j, (j < n)%nat → ps !! j = Some PieceCompleted ∨ j ∈ A) → (∀ j, j ≠ i → j ∈ A → j ∈ A') → x = PieceCompleted ∨ i ∈ A' →
  ∀ j, (j < n)%nat → <[i := x]> ps !! j = Some PieceCompleted ∨ j ∈ A'.
Proof.
  intros Hi Hc HA Hx j Hj. destruct (decide (j = i)) as [->|Hne].
  - rewrite list_lookup_insert_eq by done. destruct Hx as [->|]; auto.
  - rewrite list_lookup_insert_ne by done. destruct (Hc j Hj); auto.
Qed.

Lemma work_inv w s s' : inv s → work_step meta w s = Some s' → inv s'.
Proof.
  intros Hi. unfold work_step. destruct (workers s !! w) as [x|] eqn:Hw; [|done]. destruct x; try done.
  destruct (workChan s) as [|i rest] eqn:Hq; [done|].
  destruct (busy_perm _ _ _ Hw) as (ws & P & Pb & Q). cbn [held app] in Pb.
  pose proof (inv_book _ Hi) as Hb. unfold queued in Hb. rewrite Hq in Hb. cbn [app] in Hb.
  pose proof (bk_queued _ _ _ Hb i ltac:(left)) as Hp. pose proof (book_lt _ _ _ i Hb ltac:(left)) as Hn.
  rewrite bool_decide_false by (cbn [with_work pieces]; tauto).
  pose proof (c_hashes Hm) as Hh. rewrite (proj2 (Nat.ltb_ge _ _)) by nia. intros [= <-].
  destruct (Q (WDownload i conn)) as [Qy Qb]. cbn [held] in Qb.
  assert (E : busy (with_worker (with_pieces (with_work s rest) (<[i:=PieceInProgress]> (pieces s))) w (WDownload i conn)) ≡ₚ i :: busy s).
  { rewrite Pb. unfold busy. cbn [with_worker with_pieces with_work workers collector]. by rewrite Qb. }
  destruct Hi. constructor; cbn [with_worker with_pieces with_work pieces workChan completed cancelled workers collector store inFlight]; try done.
  - eapply book_perm; [reflexivity|symmetry; exact E|]. by apply book_start.
  - intros Hc. eapply cover_insert; [by apply lookup_lt_Some in Hp|by apply inv_cover0| |].
    + intros j Hj. unfold queued at 1. rewrite Hq, E. unfold queued. cbn. set_solver.
    + right. rewrite E. set_solver.
  - rewrite (completed_insert _ _ _ _ Hp), bool_decide_false by done. lia.
  - rewrite Qy. rewrite P in inv_workers0. apply Forall_cons in inv_workers0 as [_ ?]. by constructor.
  - by rewrite length_insert.
  - intros Hc. apply inv_closed0 in Hc. rewrite P in Hc. by apply Forall_cons in Hc as [Hc _].
  - rewrite Qy, inv_flight0, P, !flights_cons. done.
  - intros j. destruct (decide (j = i)) as [->|Hne]; [rewrite list_lookup_insert_eq by (by apply lookup_lt_Some in Hp); done|].
    rewrite list_lookup_insert_ne by done. apply inv_disk0.
Qed.

Lemma send_inv w s s' : inv s → send_step w s = Some s' → inv s'.
Proof.
  intros Hi. unfold send_step. destruct (workers s !! w) as [x|] eqn:Hw; [|done]. destruct x as [| | | | | |i o conn|]; try done.
  destruct (busy_perm _ _ _ Hw) as (ws & P & Pb & Q). cbn [held] in Pb.
  set (y := match conn with Some p => WReady p | None => WAcquire end). destruct (Q y) as [Qy Qb].
  replace (held y) with (@nil nat) in Qb by (by destruct conn).
  assert (Ey : active y = active (WSend i o conn)) by (by destruct conn).
  assert (Hy : worker_ok y) by (by destruct conn).
  pose proof (inv_workers _ Hi) as Hws. rewrite P in Hws. apply Forall_cons in Hws as [Ho Hws].
  destruct Hi. destruct (collector s) as [| | | |] eqn:Hcol; try done; intros [= <-].
  - assert (E : busy (with_collector (with_worker s w y) (CGot i o)) ≡ₚ busy s).
    { rewrite Pb. unfold busy. cbn [with_worker with_collector workers collector]. rewrite Qb. cbn. by rewrite app_nil_r, Permutation_app_comm. }
    constructor; cbn [with_worker with_collector pieces workChan completed cancelled workers collector store inFlight]; try done.
    + eapply book_perm; [|symmetry; exact E|exact inv_book0]. unfold queued. cbn. by rewrite Hcol.
    + intros Hc j Hj. rewrite E. specialize (inv_cover0 Hc j Hj). unfold queued in inv_cover0 |- *. cbn. by rewrite Hcol in inv_cover0.
    + rewrite Qy. by constructor.
    + by rewrite length_insert.
    + rewrite Qy, inv_flight0, P, !flights_cons, Ey. done.
  - assert (E : i :: busy (with_worker s w y) ≡ₚ busy s).
    { rewrite Pb. unfold busy. cbn [with_worker workers collector]. rewrite Hcol, Qb. done. }
    constructor; cbn [with_worker with_collector pieces workChan completed cancelled workers collector store inFlight]; rewrite ?Hcol; try done.
    + apply (proj1 (book_drop _ _ _ i)). by eapply book_perm; [reflexivity|symmetry; exact E|].
    + congruence.
    + rewrite Qy. by constructor.
    + by rewrite length_insert.
    + rewrite Qy, inv_flight0, P, !flights_cons, Ey. done.
Qed.

(** The status of a piece that the collector holds. *)
Lemma got_book s i o : inv s → collector s = CGot i o → ∃ b, busy s ≡ₚ i :: b ∧ b = workers s ≫= held ∧ queued s = workChan s
  ∧ book (pieces s) (workChan s) (i :: b) ∧ pieces s !! i = Some PieceInProgress ∧ (i < n)%nat.
Proof.
  intros Hi Hc. exists (workers s ≫= held). pose proof (inv_book _ Hi) as Hb. unfold queued, busy in *. rewrite Hc, app_nil_r in *.
  assert (Hb' : book (pieces s) (workChan s) (i :: workers s ≫= held)) by (eapply book_perm, Hb; [done|apply Permutation_app_comm]).
  split_and!; try done; [apply Permutation_app_comm|apply (bk_busy _ _ _ Hb'); left|eapply book_lt; [done|set_solver]].
Qed.

Lemma completed_le ps : completed_of ps ≤ Z.of_nat (length ps).
Proof. unfold completed_of. pose proof (length_filter (λ x, x = PieceCompleted) ps). lia. Qed.

(** A failed piece is pending again. *)
Lemma fail_inv s i : inv s → collector s = CGot i None →
  inv (with_collector (with_pieces s (<[i:=PiecePending]> (pieces s))) (CRequeue i)).
Proof.
  intros Hi Hc. destruct (got_book _ _ _ Hi Hc) as (b & Pb & Eb & Eq & Hb & Hp & Hn).
  set (s' := with_collector _ _). pose proof (lookup_lt_Some _ _ _ Hp) as Hlt.
  assert (Eb' : busy s' = b) by (unfold busy; cbn; by rewrite app_nil_r). assert (Pq : queued s' ≡ₚ i :: workChan s) by apply Permutation_app_comm.
  destruct Hi. constructor; rewrite ?Eb'; unfold s'; cbn [with_collector with_pieces pieces workChan completed cancelled workers collector store inFlight]; try done.
  - eapply book_perm; [symmetry; exact Pq|done|]. by apply (book_finish _ _ _ _ PiecePending).
  - intros Ha. eapply cover_insert; [done|by apply inv_cover0| |].
    + intros j _. fold s'. rewrite Pq, Pb, Eq. set_solver.
    + right. fold s'. rewrite Pq. set_solver.
  - rewrite (completed_insert _ _ _ _ Hp), bool_decide_false by done. lia.
  - intros j. destruct (decide (j = i)) as [->|Hne]; [by rewrite list_lookup_insert_eq|].
    rewrite list_lookup_insert_ne by done. apply inv_disk0.
Qed.

(** Writing the verified data of a piece. *)
Lemma write_verified s i d : inv s → verified i d → (i < n)%nat → ∃ r fs, WritePiece (store s) (Z.of_nat i) (PieceLength meta) d = (r, fs)
  ∧ laid (files (store s)) paths fs
  ∧ (∀ j, j ≠ i → pieces s !! j = Some PieceCompleted → sha1 (piece (stream paths fs) L j) = piece_hash meta j)
  ∧ (r = Ok tt ∧ sha1 (piece (stream paths fs) L i) = piece_hash meta i ∨ ∃ e, r = Err e).
Proof.
  intros Hi Hv Hn. pose proof (verified_layout _ _ Hn Hv) as (V1 & V2 & V3). pose proof (c_length Hm). pose proof (c_total Hm).
  pose proof (offset_bound i Hn). pose proof (laid_total _ _ _ (ready_laid _ _ (inv_ready _ Hi))) as [Ht Ht0]. rewrite (inv_total _ Hi) in Ht, Ht0.
  assert (EL : Z.of_nat i * PieceLength meta = Z.of_nat i * Z.of_nat L) by lia.
  assert (Hin : Z.of_nat i * PieceLength meta + zlen d ≤ TotalSize meta) by (unfold zlen; nia).
  destruct (WritePiece_run (store s) paths (Z.of_nat i) (PieceLength meta) d (inv_ready _ Hi)) as (r & fs & E & Hl & _ & _ & Hcase); [lia..|].
  exists r, fs. split; [done|]. split; [done|]. rewrite EL in Hcase.
  assert (Hoth : ∀ j k, j ≠ i → (k / L = j)%nat → stream paths fs !! k = stream paths (root (store s)) !! k).
  { intros j k Hj Hk. pose proof (patch_other (stream paths (root (store s))) d L i j ltac:(lia) V1 Hj k Hk) as Hp.
    destruct Hcase as [(_ & -> & _)|(_ & _ & (_ & _ & Hmix))]; [done|]. destruct (Hmix k) as [->| ->]; done. }
  split.
  - intros j Hj Hc. rewrite <- (inv_disk _ Hi j Hc). f_equal. apply piece_ext; [lia|]. intros k. by apply Hoth.
  - destruct Hcase as [(-> & Hs & _)|(-> & _)]; [|eauto]. rewrite (inv_total _ Hi). left.
    pose proof (zlen_nonneg d). rewrite bool_decide_false by (intros Hx; apply Hx; unfold covered; lia). split; [done|]. rewrite Hs, patch_piece; [by destruct Hv|lia|..|done]; unfold zlen in Ht; lia.
Qed.

Lemma collect_inv s s' : inv s → collect_step meta s = Some s' → inv s'.
Proof.
  intros Hi. unfold collect_step. destruct (collector s) as [|i [d|]| | |] eqn:Hc; try done; [|intros [= <-]; by apply fail_inv].
  destruct (got_book _ _ _ Hi Hc) as (b & Pb & Eb & Eq & Hb & Hp & Hn). pose proof (inv_collector _ Hi) as Hv. rewrite Hc in Hv.
  destruct (write_verified s i d Hi Hv Hn) as (r & fs & E & Hl & Ho & Hr). rewrite E. pose proof (lookup_lt_Some _ _ _ Hp) as Hlt.
  pose proof (ready_with_root _ _ fs (inv_ready _ Hi) Hl) as Hready. destruct Hr as [[-> Hd]|[e ->]].
  - cbn [with_completed with_pieces with_disk completed pieces].
    pose proof (completed_insert _ _ _ PieceCompleted Hp ltac:(done)) as Ec. rewrite bool_decide_true in Ec by done.
    pose proof (completed_le (<[i:=PieceCompleted]> (pieces s))) as Hle. rewrite length_insert, (bk_length _ _ _ Hb) in Hle.
    destruct count_pos as (Hpc & _ & Hpb). rewrite (inv_count _ Hi), <- Ec in *. rewrite wrap64_id in * by (unfold in_int64, completed_of in *; lia).
    assert (K : ∀ ca co, (co = CRecv ∨ co = CDrain ∧ ca = true) → (cancelled s = true → ca = true) →
      (ca = false → completed_of (<[i:=PieceCompleted]> (pieces s)) < PieceCount meta) →
      inv (mkSwarm (<[i:=PieceCompleted]> (pieces s)) (workChan s) (peerChan s) (knownAddrs s) (inFlight s)
        (completed_of (<[i:=PieceCompleted]> (pieces s))) (exhausted s) ca (workers s) co (dlErr s) (supervisor s) (Storage.with_root (store s) fs))).
    { intros ca co Hco Hca Hmore. set (sn := mkSwarm _ _ _ _ _ _ _ _ _ _ _ _ _).
      assert (Eb' : busy sn = b) by (unfold busy; cbn; destruct Hco as [->|[-> _]]; by rewrite app_nil_r).
      assert (Eq' : queued sn = workChan s) by (unfold queued; cbn; destruct Hco as [->|[-> _]]; by rewrite app_nil_r).
      destruct Hi. constructor; rewrite ?Eb', ?Eq'; unfold sn; cbn [pieces workChan completed cancelled workers collector store inFlight]; try done.
      - by apply (book_finish _ _ _ _ PieceCompleted).
      - intros Ha. eapply cover_insert; [done|apply inv_cover0; destruct (cancelled s); [by rewrite Hca in Ha|done]| |by left].
        intros j Hj. rewrite Pb, Eq. set_solver.
      - by destruct Hco as [->|[-> ->]].
      - by destruct Hco as [->|[-> _]].
      - intros j. destruct (decide (j = i)) as [->|Hne]; [done|]. rewrite list_lookup_insert_ne by done. by apply Ho. }
    destruct (Z.eqb_spec (completed_of (<[i:=PieceCompleted]> (pieces s))) (PieceCount meta)); intros [= <-]; apply K; auto; try done.
    intros _. lia.
  - intros [= <-]. set (sn := with_collector _ _). assert (Eb' : busy sn = b) by (unfold busy; cbn; by rewrite app_nil_r).
    assert (Eq' : queued sn = workChan s) by (unfold queued; cbn; by rewrite app_nil_r).
    destruct Hi. constructor; rewrite ?Eb', ?Eq'; unfold sn; cbn; try done; [exact (proj1 (book_drop _ _ _ i) Hb)|].
    intros j Hj. apply Ho; [|done]. intros ->. congruence.
Qed.

(** The collector re-enqueues its piece, or gives it up once the context is cancelled. *)
Lemma requeue_inv s i q' ca : inv s → collector s = CRequeue i → (q' = workChan s ++ [i] ∨ q' = workChan s ∧ ca = true) → ca = cancelled s →
  inv (mkSwarm (pieces s) q' (peerChan s) (knownAddrs s) (inFlight s) (completed s) (exhausted s) ca (workers s) CRecv (dlErr s) (supervisor s) (store s)).
Proof.
  intros Hi Hc Hq ->. set (t := mkSwarm _ _ _ _ _ _ _ _ _ _ _ _ _).
  assert (Eb : busy t = busy s) by (unfold busy; cbn; by rewrite Hc).
  assert (Pq : queued s ≡ₚ i :: workChan s) by (unfold queued; rewrite Hc; apply Permutation_app_comm).
  assert (Pt : queued t = q') by apply app_nil_r.
  destruct Hi. constructor; rewrite ?Eb, ?Pt; unfold t; cbn; try done.
  - destruct Hq as [->|[-> _]]; [eapply book_perm; [|done|exact inv_book0]; rewrite Pq; apply Permutation_cons_append|].
    apply (proj2 (book_drop _ _ _ i)). by eapply book_perm; [exact Pq|done|].
  - intros Ha j Hj. destruct Hq as [->|[_ Ht]]; [|congruence]. specialize (inv_cover0 Ha j Hj). rewrite Pq in inv_cover0.
    by rewrite <- Permutation_cons_append.
Qed.

Lemma close_inv s s' : inv s → close_step s = Some s' → inv s'.
Proof.
  intros Hi. unfold close_step. destruct (forallb is_exit (workers s)) eqn:Ew; [|done].
  assert (Hex : Forall (λ x, is_exit x = true) (workers s)) by (by apply Forall_forall; rewrite forallb_forall in Ew; intros x Hx; apply Ew, list_elem_of_In).
  assert (K : collector s = CRecv ∨ collector s = CDrain → inv (cancel (with_collector s CClosed))).
  { intros Hc. set (t := cancel _). assert (Eb : busy t = busy s) by (unfold busy; cbn; by destruct Hc as [->| ->]).
    assert (Eq : queued t = queued s) by (unfold queued; cbn; by destruct Hc as [->| ->]).
    destruct Hi. by constructor; rewrite ?Eb, ?Eq. }
  destruct (collector s) eqn:Hc; try done; intros [= <-]; apply K; auto.
Qed.

Lemma exec_inv a s s' : inv s → exec meta infoHash peerID a s = Some s' → inv s'.
Proof.
  intros Hi. pose proof (flight_range s Hi) as Hf. destruct a; cbn [exec].
  - intros [= <-]. by apply (inv_env s).
  - unfold acquire_step. destruct (workers s !! w) as [[]|] eqn:Hw; try done. destruct (peerChan s); [done|]. intros [= <-].
    eapply (inv_move s); try done. cbn. lia.
  - destruct (workers s !! w) as [[]|] eqn:Hw; try done. intros [= <-]. eapply (inv_move s); try done. cbn. rewrite Hf; lia.
  - unfold dial_step. destruct (workers s !! w) as [[]|] eqn:Hw; try done.
    destruct conn as [[[incoming wr] cx]|]; [destruct (dialAndHandshake _ _ _) as [[] p']; try done|]; intros [= <-];
      (eapply (inv_move s); [done..|]); cbn; rewrite ?Hf; lia.
  - unfold quit_step. destruct (cancelled s); [|done]. destruct (workers s !! w) as [[]|] eqn:Hw; try done; intros [= <-];
      (eapply (inv_move s); [done..|]); cbn; rewrite ?Hf; lia.
  - by apply work_inv.
  - unfold download_step. destruct (workers s !! w) as [[]|] eqn:Hw; try done.
    destruct (downloadPiece _ _ _ _) as [[] p'] eqn:E; try done; destruct (DrainPexPeers p') as [u q]; intros [= <-];
      (eapply (inv_move s); [done..| |]; cbn; try done; try lia). by apply downloadPiece_ok in E.
  - unfold add_step. destruct (workers s !! w) as [x|] eqn:Hw; [|done]. destruct x as [| | | | |[|a addrs] i [d|] p| |]; try done; intros [= <-].
    + pose proof (inv_workers _ Hi) as Ho. rewrite Forall_lookup in Ho. specialize (Ho _ _ Hw).
      eapply (inv_move s); [done..|]. cbn. lia.
    + eapply (inv_move s); [done..|]. cbn. rewrite Hf; lia.
    + pose proof (inv_workers _ Hi) as Ho. rewrite Forall_lookup in Ho. specialize (Ho _ _ Hw). destruct (add_peer_pool s a) as (ch & kn & ->).
      eapply (inv_move s); [done..|]. cbn. lia.
    + destruct (add_peer_pool s a) as (ch & kn & ->). eapply (inv_move s); [done..|]. cbn. lia.
  - by apply send_inv.
  - by apply collect_inv.
  - unfold requeue_step. destruct (collector s) eqn:Hc; try done. destruct (_ <? _)%nat; [|done]. intros [= <-].
    eapply (requeue_inv s); eauto.
  - unfold give_up_step. destruct (collector s) eqn:Hc; try done. destruct (cancelled s) eqn:Ha; [|done]. intros [= <-].
    eapply (requeue_inv s); eauto.
  - by apply close_inv.
  - unfold poll_step. destruct (supervisor s); try done; repeat case_match; try done; intros [= <-]; by apply (inv_env s).
  - destruct (supervisor s); try done. destruct (cancelled s) eqn:Ha; [|done]. intros [= <-]. by apply (inv_env s).
Qed.

Lemma steps_inv s s' : rtc (step meta infoHash peerID) s s' → inv s → inv s'.
Proof. induction 1 as [|s1 s2 s3 [a Ha] _ IH]; [done|]. intros Hi. eapply IH, exec_inv; eauto. Qed.
End swarm.
