(* ===== verification/SwarmRun.v ===== *)
(** * Runs of the swarm

    What holds in every state that [Start] reaches: verified pieces on disk, what it returns and why, and
    that no thread is left waiting. *)

From S2P Require Import Prelude Strconv Hex Sha GoStrings NetAddr Bencode Recognize Url Codec ClientTracker Wire Peer Downloader Handshake Interop Paths Metainfo Storage Swarm SwarmInv.
From Stdlib Require Import ZArith Lia.
Local Open Scope Z_scope.

(** ** The start *)

Lemma AddPeers_pool addrs : ∀ s, ∃ ch kn, AddPeers s addrs = with_pool s ch kn.
Proof.
  unfold AddPeers. induction addrs as [|a addrs IH]; intros s; [exists (peerChan s), (knownAddrs s); by destruct s|]. simpl.
  destruct (add_peer_pool s a) as (ch & kn & ->). destruct (IH (with_pool s ch kn)) as (ch' & kn' & ->). by exists ch', kn'.
Qed.

Lemma idle_workers k : replicate k WAcquire ≫= held = [].
Proof. by induction k. Qed.
Lemma idle_flights k : flights (replicate k WAcquire) = 0.
Proof. unfold flights. by induction k. Qed.
Lemma none_completed k : completed_of (replicate k PiecePending) = 0.
Proof. unfold completed_of. by induction k. Qed.

(** Why the context is cancelled, and who knows. *)
Definition causes (meta : TorrentMeta) (external : Prop) (s : Swarm) : Prop :=
  (cancelled s = true → external ∨ dlErr s ≠ None ∨ completed s = PieceCount meta ∨ exhausted s = true)
  ∧ (supervisor s = SDone → cancelled s = true) ∧ (Exists (λ x, is_exit x = true) (workers s) → cancelled s = true)
  ∧ (collector s = CClosed → cancelled s = true).

Section runs.
Context {B : Bencoder} (meta : TorrentMeta) (infoHash peerID : bytes) (paths : list bytes) (Hm : consistent meta).

Lemma start_inv maxWorkers addrs st : ready st paths → total (files st) = TotalSize meta → maxWorkers < 2 ^ 62 →
  inv meta paths (start meta maxWorkers addrs st) ∧ causes meta False (start meta maxWorkers addrs st).
Proof.
  intros Hr Ht Hw. unfold start. cbv zeta. destruct (AddPeers_pool addrs (with_work (NewSwarm meta st) (seq 0 (pieceCount meta)))) as (ch & kn & ->).
  set (k := Z.to_nat _). assert (Hk : (0 < k)%nat ∧ Z.of_nat k < 2 ^ 62) by (unfold k; destruct (Z.ltb_spec maxWorkers 1); lia).
  destruct (count_pos meta Hm) as (Hc & Hn & _). set (s := mkSwarm _ _ _ _ _ _ _ _ _ _ _ _ _).
  assert (Eb : busy s = []) by (unfold busy, s; cbn [workers collector with_pool with_work NewSwarm]; by rewrite idle_workers).
  assert (Eq : queued s = seq 0 (pieceCount meta)) by apply app_nil_r.
  split.
  - constructor; rewrite ?Eb, ?Eq, ?app_nil_r; unfold s; cbn [with_pool with_work NewSwarm pieces workChan completed cancelled workers collector store inFlight]; try done.
    + constructor; [apply length_replicate|rewrite app_nil_r; apply NoDup_seq|intros i Hi; apply elem_of_seq in Hi; apply lookup_replicate; split; [done|lia]|set_solver].
    + intros _ i Hi. right. apply elem_of_seq. lia.
    + by rewrite none_completed.
    + lia.
    + by apply Forall_replicate.
    + by rewrite length_replicate.
    + by rewrite idle_flights.
    + intros i [? _]%lookup_replicate. done.
  - unfold causes, s; cbn [with_pool with_work NewSwarm dlErr completed cancelled workers collector supervisor exhausted]. split_and!; try done.
    intros [x [Hx%elem_of_replicate_inv E]]%Exists_exists. by subst.
Qed.

Lemma exit_insert (ws : list wstate) w x y : ws !! w = Some x → is_exit y = false →
  Exists (λ x, is_exit x = true) (<[w:=y]> ws) → Exists (λ x, is_exit x = true) ws.
Proof.
  intros Hw Hy [z [Hz E]]%Exists_exists. apply Exists_exists. exists z. split; [|done].
  apply list_elem_of_lookup in Hz as [j [[-> [-> _]]|[_ Hj]]%list_lookup_insert_Some]; [congruence|]. by eapply list_elem_of_lookup_2.
Qed.

Lemma causes_move ext s s' : causes meta ext s →
  (cancelled s = true → cancelled s' = true) → (cancelled s' = true → cancelled s = false → ext) →
  (dlErr s ≠ None → dlErr s' ≠ None) → (completed s' = completed s) → (exhausted s = true → exhausted s' = true) →
  (supervisor s' = SDone → supervisor s = SDone ∨ cancelled s' = true) →
  (Exists (λ x, is_exit x = true) (workers s') → Exists (λ x, is_exit x = true) (workers s) ∨ cancelled s' = true) →
  (collector s' = CClosed → collector s = CClosed ∨ cancelled s' = true) → causes meta ext s'.
Proof.
  intros (C1 & C2 & C3 & C4) Ha Hb Hd He Hx Hs Hw Hc. split_and!.
  - intros Hn. rewrite He. destruct (cancelled s); [|left; by apply Hb]. destruct (C1 eq_refl) as [?|[?|[?|?]]]; auto.
  - intros H. destruct (Hs H); auto.
  - intros H. destruct (Hw H); auto.
  - intros H. destruct (Hc H); auto.
Qed.

(** A step of a worker that does not return. *)
Lemma causes_worker ext s w x y s' : causes meta ext s → workers s !! w = Some x →
  workers s' = <[w := y]> (workers s) → is_exit y = false → cancelled s' = cancelled s → dlErr s' = dlErr s → completed s' = completed s →
  exhausted s' = exhausted s → supervisor s' = supervisor s → (collector s' = CClosed → collector s = CClosed) → causes meta ext s'.
Proof.
  intros Hc Hw E1 Hy E2 E3 E4 E5 E6 E7. apply (causes_move ext s); rewrite ?E1, ?E2, ?E3, ?E5, ?E6; auto; [congruence|].
  intros H. left. by eapply exit_insert.
Qed.

Lemma collect_causes ext s s' : inv meta paths s → causes meta ext s → collect_step meta s = Some s' → causes meta ext s'.
Proof.
  intros Hi Hc. unfold collect_step. destruct (collector s) as [|i [d|]| | |] eqn:Hcol; try done.
  - destruct (got_book _ _ Hm _ _ _ Hi Hcol) as (b & _ & _ & _ & Hb & Hp & Hn). 
    pose proof (completed_insert _ _ _ PieceCompleted Hp ltac:(done)) as Ec. rewrite bool_decide_true in Ec by done.
    pose proof (completed_le (<[i:=PieceCompleted]> (pieces s))) as Hle. rewrite length_insert, (bk_length _ _ _ _ Hb) in Hle.
    destruct (count_pos meta Hm) as (Hpc & _ & Hpb). rewrite <- (inv_count _ _ _ Hi) in Ec.
    assert (0 ≤ completed s) by (rewrite (inv_count _ _ _ Hi); unfold completed_of; lia).
    destruct (WritePiece _ _ _ _) as [[] fs]; try done.
    + cbn [with_completed with_pieces with_disk completed pieces]. rewrite wrap64_id by (unfold in_int64; lia).
      destruct Hc as (C1 & C2 & C3 & C4). destruct (Z.eqb_spec (completed s + 1) (PieceCount meta)) as [E|E]; intros [= <-]; unfold causes; cbn.
      * split_and!; auto.
      * split_and!; [|auto|auto|done]. intros Ha. destruct (C1 Ha) as [?|[?|[?|?]]]; auto. lia.
    + intros [= <-]. destruct Hc as (C1 & C2 & C3 & C4). unfold causes; cbn. split_and!; auto.
  - intros [= <-]. by apply (causes_move ext s); cbn; auto; congruence.
Qed.

Lemma causes_exec a ext s s' : inv meta paths s → causes meta ext s → exec meta infoHash peerID a s = Some s' →
  causes meta (ext ∨ a = AExternalCancel) s'.
Proof.
  intros Hi Hc. assert (Hc' : causes meta (ext ∨ a = AExternalCancel) s).
  { destruct Hc as (C1 & Hc). split; [|done]. intros Ha. destruct (C1 Ha); auto. }
  clear Hc. destruct a; cbn [exec].
  - intros [= <-]. apply (causes_move _ s); cbn; auto.
  - unfold acquire_step. destruct (workers s !! w) as [[]|] eqn:Hw; try done. destruct (peerChan s); [done|]. intros [= <-].
    by eapply (causes_worker _ s w).
  - destruct (workers s !! w) as [[]|] eqn:Hw; try done. intros [= <-]. by eapply (causes_worker _ s w).
  - unfold dial_step. destruct (workers s !! w) as [[]|] eqn:Hw; try done.
    destruct conn as [[[incoming wr] cx]|]; [destruct (dialAndHandshake _ _ _) as [[] p']; try done|]; intros [= <-]; by eapply (causes_worker _ s w).
  - unfold quit_step. destruct (cancelled s) eqn:Ha; [|done].
    destruct (workers s !! w) as [[]|] eqn:Hw; try done; intros [= <-]; (apply (causes_move _ s); cbn; auto; congruence).
  - unfold work_step. destruct (workers s !! w) as [[]|] eqn:Hw; try done. destruct (workChan s); [done|].
    case_bool_decide; [intros [= <-]; by apply (causes_move _ s); cbn; auto; congruence|].
    destruct (_ <? _)%nat; intros [= <-]; by eapply (causes_worker _ s w).
  - unfold download_step. destruct (workers s !! w) as [[]|] eqn:Hw; try done.
    destruct (downloadPiece _ _ _ _) as [[] p'] eqn:E; try done; destruct (DrainPexPeers p') as [u q]; intros [= <-]; by eapply (causes_worker _ s w).
  - unfold add_step. destruct (workers s !! w) as [x|] eqn:Hw; [|done]. destruct x as [| | | | |[|a addrs] i [d|] p| |]; try done; intros [= <-];
      try (destruct (add_peer_pool s a) as (ch & kn & ->)); by eapply (causes_worker _ s w).
  - unfold send_step. destruct (workers s !! w) as [[]|] eqn:Hw; try done. destruct (collector s) eqn:Hcol; try done; intros [= <-];
      (eapply (causes_worker _ s w); try done; by destruct conn).
  - by apply collect_causes.
  - unfold requeue_step. destruct (collector s) eqn:Hcol; try done. destruct (_ <? _)%nat; [|done]. intros [= <-].
    by apply (causes_move _ s); cbn; auto; congruence.
  - unfold give_up_step. destruct (collector s) eqn:Hcol; try done. destruct (cancelled s) eqn:Ha; [|done]. intros [= <-].
    by apply (causes_move _ s); cbn; auto; congruence.
  - unfold close_step. destruct (forallb is_exit (workers s)) eqn:Hf; [|done].
    assert (Ha : cancelled s = true).
    { apply (proj1 (proj2 (proj2 Hc'))). destruct (inv_crew _ _ _ Hi) as [Hl _]. destruct (workers s) as [|x ws]; [simpl in Hl; lia|]. simpl in Hf. apply andb_prop in Hf as [? _]. by apply Exists_cons_hd. }
    destruct (collector s) eqn:Hcol; try done; intros [= <-]; by apply (causes_move _ s); cbn; auto; congruence.
  - unfold poll_step. destruct (supervisor s) eqn:Hs; try done; try (intros [= <-]; apply (causes_move _ s); cbn; auto; intros; repeat case_match; congruence).
    destruct (_ <? _); [destruct (_ <=? _)%nat|]; intros [= <-]; try (by apply (causes_move _ s); cbn; auto; congruence).
    destruct Hc' as (C1 & C2 & C3 & C4). unfold causes; cbn. auto.
  - destruct (supervisor s); try done. destruct (cancelled s) eqn:Ha; [|done]. intros [= <-]. by apply (causes_move _ s); cbn; auto; congruence.
Qed.

(** *** No thread waits for ever *)

(** A step of a worker or of the collector. *)
Definition crew (a : action) : bool := match a with AExternalCancel | APoll | ASupervisorDone => false | _ => true end.

(** Every worker waits for an address and the pool is empty. *)
Record starving (s : Swarm) : Prop := {
  st_recv : collector s = CRecv;
  st_running : cancelled s = false;
  st_waiting : Forall (λ x, x = WAcquire) (workers s);
  st_pool : peerChan s = [];
  st_flight : inFlight s = 0;
  st_more : completed s < PieceCount meta }.

Fixpoint polls (k : nat) (s : Swarm) : option Swarm :=
  match k with O => Some s | S k => s ← poll_step meta s; polls k s end.

Lemma polls_step k s t : poll_step meta s = Some t → polls (S k) s = polls k t.
Proof. intros E. cbn [polls]. by rewrite E. Qed.

(** The supervisor's reads on a swarm that stays stalled: the exhaustion is declared. *)
Definition stalled (s : Swarm) : Prop := peerChan s = [] ∧ inFlight s = 0 ∧ (completed s <? PieceCount meta) = true.
Definition declares (k : nat) (s : Swarm) : Prop :=
  ∃ j t, (j ≤ k)%nat ∧ polls j s = Some t ∧ exhausted t = true ∧ cancelled t = true.

Lemma declares_step k s t : poll_step meta s = Some t → declares k t → declares (S k) s.
Proof. intros E (j & u & Hj & Hp & H). exists (S j), u. rewrite (polls_step j s t E). split; [lia|done]. Qed.

Lemma stalled_flight_last s c : stalled s → supervisor s = SFlight (S c) → declares 1 s.
Proof.
  intros (Ep & Ef & Em) Es. exists 1%nat, (with_supervisor (declare_exhausted s) SDone). split; [lia|]. split; [|done].
  rewrite (polls_step 0 s (with_supervisor (declare_exhausted s) SDone)); [done|]. unfold poll_step. by rewrite Es, Em.
Qed.
Lemma stalled_pool s c k : stalled s → supervisor s = SPool c → (∀ t, stalled t → supervisor t = SFlight c → declares k t) → declares (S k) s.
Proof.
  intros (Ep & Ef & Em) Es H. eapply declares_step; [unfold poll_step; rewrite Es, Ef; reflexivity|]. by apply H.
Qed.
Lemma stalled_idle s c k : stalled s → supervisor s = SIdle c → (∀ t, stalled t → supervisor t = SPool c → declares k t) → declares (S k) s.
Proof.
  intros (Ep & Ef & Em) Es H. eapply declares_step; [unfold poll_step; rewrite Es, Ep; reflexivity|]. by apply H.
Qed.
Lemma declares_le k k' s : (k ≤ k')%nat → declares k s → declares k' s.
Proof. intros Hk (j & t & Hj & H). exists j, t. split; [lia|done]. Qed.

Lemma stalled_flight s c : stalled s → supervisor s = SFlight c → declares 4 s.
Proof.
  intros Hs Es. destruct c as [|c]; [|apply (declares_le 1); [lia|by eapply stalled_flight_last]].
  pose proof Hs as (Ep & Ef & Em). eapply declares_step; [unfold poll_step; rewrite Es, Em; reflexivity|]. cbn.
  apply (stalled_idle _ 1); [done..|]. intros t Ht Et. apply (stalled_pool _ 1); [done..|]. intros u Hu Eu. by eapply stalled_flight_last.
Qed.

Lemma starving_exhausted s : starving s → supervisor s ≠ SDone → declares 6 s.
Proof.
  intros [_ _ _ Hp Hf Hm'] Hs. apply Z.ltb_lt in Hm'. assert (H : stalled s) by done.
  destruct (supervisor s) as [c|c|c|] eqn:Es; [|apply (declares_le 5); [lia|]|apply (declares_le 4); [lia|]|done].
  - apply (stalled_idle _ c); [done..|]. intros t Ht Et. apply (stalled_pool _ c); [done..|]. intros. by eapply stalled_flight.
  - apply (stalled_pool _ c); [done..|]. intros. by eapply stalled_flight.
  - by eapply stalled_flight.
Qed.

(** What a worker does next: it can move, or it waits for an address, for work or for its end. *)
Definition settled (x : wstate) : bool := match x with WAcquire | WReady _ | WExit => true | _ => false end.

Lemma unsettled_moves s w x : inv meta paths s → workers s !! w = Some x → settled x = false → collector s = CRecv ∨ collector s = CDrain →
  ∃ a s', crew a = true ∧ exec meta infoHash peerID a s = Some s'.
Proof.
  intros Hi Hw Hx Hc. destruct x as [|addr|addr|conn|i conn|[|a addrs] i [d|] conn|i o conn|]; try done.
  - exists (ACount w). cbn [exec]. rewrite Hw. eauto.
  - exists (ADial w None). cbn [exec]. unfold dial_step. rewrite Hw. eauto.
  - exists (ADownload w). cbn [exec]. unfold download_step. rewrite Hw.
    assert (Hn : (i < pieceCount meta)%nat).
    { eapply (book_lt meta _ _ _ i (inv_book _ _ _ Hi)). apply elem_of_app. right. unfold busy. apply elem_of_app. left.
      apply list_elem_of_bind. eexists. split; [|by eapply list_elem_of_lookup_2]. left. }
    destruct (piece_size_ok meta Hm i Hn) as [_ Hz].
    pose proof (downloadPiece_terminates (Z.of_nat i) (piece_size meta i) (piece_hash meta i) conn ltac:(lia)) as Ht.
    destruct (downloadPiece _ _ _ _) as [[d|e| |] p']; try done; destruct (DrainPexPeers p'); eauto.
  - exists (AAdd w). cbn [exec]. unfold add_step. rewrite Hw. eauto.
  - exists (AAdd w). cbn [exec]. unfold add_step. rewrite Hw. eauto.
  - exists (AAdd w). cbn [exec]. unfold add_step. rewrite Hw. eauto.
  - exists (AAdd w). cbn [exec]. unfold add_step. rewrite Hw. eauto.
  - exists (ASend w). cbn [exec]. unfold send_step. rewrite Hw. destruct Hc as [-> | ->]; eauto.
Qed.

(** A queue of pending pieces has room for one that is not in it. *)
Lemma queue_room s i : inv meta paths s → collector s = CRequeue i → (length (workChan s) < pieceCount meta)%nat.
Proof.
  intros Hi Hc. pose proof (inv_book _ _ _ Hi) as Hb. assert (Eq : queued s = workChan s ++ [i]) by (unfold queued; by rewrite Hc).
  assert (Hl : (length (queued s) ≤ length (seq 0 (pieceCount meta)))%nat).
  { apply submseteq_length, NoDup_submseteq.
    - pose proof (bk_once _ _ _ _ Hb) as Hn. by apply NoDup_app in Hn as [? _].
    - intros j Hj. apply elem_of_seq. split; [lia|]. eapply (book_lt meta _ _ _ j Hb). apply elem_of_app. by left. }
  rewrite Eq, length_app, length_seq in Hl. simpl in Hl. lia.
Qed.

Lemma settled_moves s ext : inv meta paths s → causes meta ext s → collector s = CRecv ∨ collector s = CDrain →
  Forall (λ x, settled x = true) (workers s) →
  (∃ a s', crew a = true ∧ exec meta infoHash peerID a s = Some s') ∨ starving s.
Proof.
  intros Hi Hc Hcol Hset. destruct (cancelled s) eqn:Ha.
  { left. destruct (forallb is_exit (workers s)) eqn:Hf.
    { exists AClose. cbn [exec]. unfold close_step. rewrite Hf. destruct Hcol as [-> | ->]; eauto. }
    apply not_true_iff_false in Hf. rewrite forallb_forall in Hf.
    assert (He : ¬ Forall (λ x, is_exit x = true) (workers s)).
    { intros H. apply Hf. intros x Hx. rewrite Forall_forall in H. apply H. by apply list_elem_of_In. }
    apply not_Forall_Exists in He; [|apply _]. apply Exists_exists in He as (x & Hx & Hn). rewrite Forall_forall in Hset. pose proof (Hset _ Hx).
    apply list_elem_of_lookup in Hx as [w Hw]. exists (AQuit w). cbn [exec]. unfold quit_step. rewrite Ha, Hw. destruct x; try done; eauto. }
  assert (Hrecv : collector s = CRecv).
  { destruct Hcol as [|Hd]; [done|]. pose proof (inv_collector _ _ _ Hi) as H. rewrite Hd in H. congruence. }
  assert (Hne : ∀ w, workers s !! w ≠ Some WExit).
  { intros w Hw. destruct Hc as (_ & _ & C3 & _). rewrite C3 in Ha; [done|]. apply Exists_exists. exists WExit. split; [|done]. by eapply list_elem_of_lookup_2. }
  assert (Hdec : Forall (λ x, active x = false) (workers s) ∨ Exists (λ x, active x = true) (workers s)).
  { destruct (decide (Forall (λ x, active x = false) (workers s))) as [H|H]; [by left|right].
    apply not_Forall_Exists in H; [|apply _]. eapply Exists_impl; [exact H|]. intros x. cbn. by destruct (active x). }
  destruct Hdec as [Hd|Hd].
  - assert (Hall : Forall (λ x, x = WAcquire) (workers s)).
    { apply Forall_lookup. intros w x Hw. rewrite Forall_lookup in Hset. pose proof (Hset _ _ Hw). rewrite Forall_lookup in Hd. pose proof (Hd _ _ Hw).
      destruct x; try done. by apply Hne in Hw. }
    destruct (peerChan s) as [|addr rest] eqn:Ep.
    + right. constructor; try done.
      * rewrite (inv_flight _ _ _ Hi). by apply flights_none.
      * by apply (inv_more _ _ _ Hi).
    + left. destruct (inv_crew _ _ _ Hi) as [Hl _]. destruct (workers s) as [|x ws] eqn:Ew; [simpl in Hl; lia|]. apply Forall_cons in Hall as [-> _].
      exists (ATake 0). cbn [exec]. unfold acquire_step. rewrite Ew, Ep. cbn. eauto.
  - left. apply Exists_exists in Hd as (x & Hx & Hact). rewrite Forall_forall in Hset. pose proof (Hset _ Hx).
    assert (Hheld : workers s ≫= held = []).
    { clear -Hset. induction (workers s) as [|y ws IH]; [done|]. rewrite bind_cons. rewrite IH by (intros; apply Hset; by right).
      pose proof (Hset y ltac:(left)). by destruct y. }
    apply list_elem_of_lookup in Hx as [w Hw]. destruct x; try done. destruct (workChan s) as [|i rest] eqn:Eq.
    + exfalso. assert (Eqq : queued s = []) by (unfold queued; by rewrite Eq, Hrecv). assert (Ebb : busy s = []) by (unfold busy; by rewrite Hheld, Hrecv).
      pose proof (inv_more _ _ _ Hi Ha) as Hmore. rewrite (inv_count _ _ _ Hi) in Hmore. destruct (count_pos meta Hm) as (Hpc & _).
      pose proof (bk_length _ _ _ _ (inv_book _ _ _ Hi)) as Hl. rewrite Hpc, <- Hl in Hmore. unfold completed_of in Hmore.
      assert (E : filter (λ x, x = PieceCompleted) (pieces s) = pieces s); [|rewrite E in Hmore; lia].
      apply filter_all. apply Forall_lookup. intros j y Hj. pose proof (lookup_lt_Some _ _ _ Hj). destruct (inv_cover _ _ _ Hi Ha j) as [Hcj|Hcj]; [lia|congruence|].
      rewrite Eqq, Ebb in Hcj. set_solver.
    + exists (AWork w). cbn [exec]. unfold work_step. rewrite Hw, Eq. case_bool_decide; eauto. destruct (_ <? _)%nat; eauto.
Qed.

Lemma crew_progress s ext : inv meta paths s → causes meta ext s →
  collector s = CClosed ∨ (∃ a s', crew a = true ∧ exec meta infoHash peerID a s = Some s') ∨ starving s.
Proof.
  intros Hi Hc. destruct (collector s) as [|i o|i| |] eqn:Hcol; [| | | |by left]; right.
  2: { left. exists ACollect. cbn [exec]. unfold collect_step. rewrite Hcol. destruct o as [d|]; [|eauto].
    destruct (got_book _ _ Hm _ _ _ Hi Hcol) as (b & _ & _ & _ & _ & _ & Hn). pose proof (inv_collector _ _ _ Hi) as Hv. rewrite Hcol in Hv.
    destruct (write_verified _ _ Hm s i d Hi Hv Hn) as (r & fs & E & _ & _ & [[-> _]|[e ->]]); rewrite E; [destruct (_ =? _)|]; eauto. }
  2: { left. exists ARequeue. cbn [exec]. unfold requeue_step. rewrite Hcol, (proj2 (Nat.ltb_lt _ _)) by (by eapply queue_room). eauto. }
  all: destruct (decide (Forall (λ x, settled x = true) (workers s))) as [Hs|Hs]; [eapply settled_moves; eauto|left].
  all: apply not_Forall_Exists in Hs; [|apply _]; apply Exists_exists in Hs as (x & Hx & Hn); apply list_elem_of_lookup in Hx as [w Hw].
  all: eapply unsettled_moves; eauto; by apply not_true_iff_false.
Qed.

(** The supervisor of a cancelled swarm returns. *)
Lemma supervisor_stops s : cancelled s = true → collector s = CClosed → ∃ s', rtc (step meta infoHash peerID) s s' ∧ Start_returns meta s' ≠ None.
Proof.
  assert (D : ∀ s, collector s = CClosed → supervisor s = SDone → ∃ s', rtc (step meta infoHash peerID) s s' ∧ Start_returns meta s' ≠ None).
  { intros u Hc Hs. exists u. split; [done|]. unfold Start_returns. by rewrite Hc, Hs. }
  assert (I : ∀ c s, cancelled s = true → collector s = CClosed → supervisor s = SIdle c → ∃ s', rtc (step meta infoHash peerID) s s' ∧ Start_returns meta s' ≠ None).
  { intros c u Ha Hc Hs. destruct (D (with_supervisor u SDone)) as (s' & Hr & H); [done..|]. exists s'. split; [|done].
    eapply rtc_l; [|exact Hr]. exists ASupervisorDone. cbn [exec]. by rewrite Hs, Ha. }
  assert (F : ∀ c s, cancelled s = true → collector s = CClosed → supervisor s = SFlight c → ∃ s', rtc (step meta infoHash peerID) s s' ∧ Start_returns meta s' ≠ None).
  { intros c u Ha Hc Hs. destruct (poll_step meta u) as [t|] eqn:E; [|by unfold poll_step in E; rewrite Hs in E; repeat case_match].
    assert (Ht : cancelled t = true ∧ collector t = CClosed ∧ (supervisor t = SDone ∨ ∃ c, supervisor t = SIdle c)).
    { unfold poll_step in E. rewrite Hs in E. repeat case_match; injection E as <-; cbn; eauto. }
    destruct Ht as (Ta & Tc & Ts). assert (H : ∃ s', rtc (step meta infoHash peerID) t s' ∧ Start_returns meta s' ≠ None).
    { destruct Ts as [Ts|[c' Ts]]; [by apply D|by eapply I]. }
    destruct H as (s' & Hr & H). exists s'. split; [|done]. eapply rtc_l; [|exact Hr]. by exists APoll. }
  intros Ha Hc. destruct (supervisor s) as [c|c|c|] eqn:Hs; [by eapply I| |by eapply F|by apply D].
  assert (E : ∃ t, poll_step meta s = Some t ∧ cancelled t = true ∧ collector t = CClosed ∧ ((∃ c, supervisor t = SFlight c) ∨ ∃ c, supervisor t = SIdle c)).
  { eexists. split; [unfold poll_step; rewrite Hs; reflexivity|]. cbn. split_and!; try done. case_match; eauto. }
  destruct E as (t & E & Ta & Tc & Ts). assert (H : ∃ s', rtc (step meta infoHash peerID) t s' ∧ Start_returns meta s' ≠ None).
  { destruct Ts as [[c' Ts]|[c' Ts]]; [by eapply F|by eapply I]. }
  destruct H as (s' & Hr & H). exists s'. split; [|done]. eapply rtc_l; [|exact Hr]. by exists APoll.
Qed.

(** *** Reachable states *)

Lemma exec_files a s s' : exec meta infoHash peerID a s = Some s' → files (store s') = files (store s).
Proof.
  destruct a; cbn [exec]; unfold acquire_step, dial_step, quit_step, work_step, download_step, send_step, collect_step, requeue_step,
    give_up_step, close_step, poll_step; try (intros H; repeat case_match; by simplify_eq/=).
  unfold add_step. destruct (workers s !! w) as [x|]; [|done]. destruct x as [| | | | |[|a addrs] i [d|] p| |]; try done; intros [= <-]; try done;
    by destruct (add_peer_pool s a) as (ch & kn & ->).
Qed.

Lemma steps_files s s' : rtc (step meta infoHash peerID) s s' → files (store s') = files (store s).
Proof. induction 1 as [|s1 s2 s3 [a Ha] _ IH]; [done|]. rewrite IH. by eapply exec_files. Qed.

Lemma start_files maxWorkers addrs st : files (store (start meta maxWorkers addrs st)) = files st.
Proof. unfold start. cbv zeta. by destruct (AddPeers_pool addrs (with_work (NewSwarm meta st) (seq 0 (pieceCount meta)))) as (ch & kn & ->). Qed.

Definition own_step (s s' : Swarm) : Prop := ∃ a, a ≠ AExternalCancel ∧ exec meta infoHash peerID a s = Some s'.

Lemma causes_steps s s' : rtc (step meta infoHash peerID) s s' → inv meta paths s → causes meta True s → causes meta True s'.
Proof.
  induction 1 as [|s1 s2 s3 [a Ha] _ IH]; [done|]. intros Hi Hc. apply IH; [by eapply exec_inv|].
  destruct (causes_exec _ _ _ _ Hi Hc Ha) as (_ & C). split; [tauto|done].
Qed.

Lemma causes_own s s' : rtc own_step s s' → inv meta paths s → causes meta False s → inv meta paths s' ∧ causes meta False s'.
Proof.
  induction 1 as [|s1 s2 s3 (a & Hne & Ha) _ IH]; [done|]. intros Hi Hc. apply IH; [by eapply exec_inv|].
  destruct (causes_exec _ _ _ _ Hi Hc Ha) as (C1 & C). split; [|done]. intros Hx. destruct (C1 Hx) as [[?|?]|?]; [done|done|by right].
Qed.

Lemma completed_all ps j : completed_of ps = Z.of_nat (length ps) → (j < length ps)%nat → ps !! j = Some PieceCompleted.
Proof.
  unfold completed_of. intros H%Nat2Z.inj Hj. induction ps as [|x ps IH] in j, H, Hj |- *; [simpl in Hj; lia|].
  rewrite filter_cons in H. pose proof (length_filter (λ x, x = PieceCompleted) ps). destruct (decide (x = PieceCompleted)) as [->|]; simpl in H, Hj; [|lia].
  destruct j as [|j]; [done|]. apply IH; lia.
Qed.

Lemma finished_all s : inv meta paths s → Start_returns meta s = Some Finished → ∀ j, (j < pieceCount meta)%nat → pieces s !! j = Some PieceCompleted.
Proof.
  intros Hi Hf j Hj. unfold Start_returns in Hf. repeat case_match; try done. apply Z.ltb_ge in H2.
  pose proof (completed_le (pieces s)). pose proof (bk_length _ _ _ _ (inv_book _ _ _ Hi)) as Hl. destruct (count_pos meta Hm) as (Hp & _).
  rewrite (inv_count _ _ _ Hi) in H2. apply completed_all; lia.
Qed.
End runs.

(** ** Properties *)

(** C8. Verified pieces: in every state that [Start] reaches, whatever the peers, the disk and the scheduler do, a piece
    marked completed is on disk and has its hash; the counter of completed pieces is right; and when
    [Start] returns nil every piece of the content is on disk and has the hash of the torrent. *)
Theorem swarm_verified `{B : Bencoder} meta infoHash peerID paths maxWorkers addrs st s :
  consistent meta → ready st paths → total (files st) = TotalSize meta → maxWorkers < 2 ^ 62 →
  rtc (step meta infoHash peerID) (start meta maxWorkers addrs st) s →
  ready (store s) paths
  ∧ completed s = Z.of_nat (length (filter (λ x, x = PieceCompleted) (pieces s)))
  ∧ (∀ i, pieces s !! i = Some PieceCompleted →
       sha1 (piece (stream paths (root (store s))) (Z.to_nat (PieceLength meta)) i) = piece_hash meta i)
  ∧ (Start_returns meta s = Some Finished → ∀ i, (i < pieceCount meta)%nat →
       sha1 (piece (stream paths (root (store s))) (Z.to_nat (PieceLength meta)) i) = piece_hash meta i).
Proof.
  intros Hm Hr Ht Hw Hs. destruct (start_inv meta paths Hm maxWorkers addrs st Hr Ht Hw) as [Hi _].
  pose proof (steps_inv meta infoHash peerID paths Hm _ _ Hs Hi) as Hi'. split_and!; [apply Hi'..|].
  intros Hf i Hn. apply (inv_disk _ _ _ Hi'). by eapply finished_all.
Qed.

(** C23. Why [Start] fails: as long as its caller's context is not cancelled, [Start] returns nil, a write error, or "peer
    supply exhausted" with pieces missing; it never reports that all workers died, and when it returns no worker
    runs any more. *)
Theorem swarm_results `{B : Bencoder} meta infoHash peerID paths maxWorkers addrs st s r :
  consistent meta → ready st paths → total (files st) = TotalSize meta → maxWorkers < 2 ^ 62 →
  rtc (own_step meta infoHash peerID) (start meta maxWorkers addrs st) s → Start_returns meta s = Some r →
  Forall (λ x, x = WExit) (workers s)
  ∧ match r with
    | Finished => dlErr s = None ∧ completed s = PieceCount meta
    | WriteFailed e => dlErr s = Some e
    | Exhausted => dlErr s = None ∧ completed s < PieceCount meta
    | WorkersDied => False
    end.
Proof.
  intros Hm Hr Ht Hw Hs HR. destruct (start_inv meta paths Hm maxWorkers addrs st Hr Ht Hw) as [Hi Hc].
  destruct (causes_own meta infoHash peerID paths Hm _ _ Hs Hi Hc) as (Hi' & C1 & _ & _ & C4).
  pose proof (completed_le (pieces s)) as Hle. pose proof (bk_length _ _ _ _ (inv_book _ _ _ Hi')) as Hl. destruct (count_pos meta Hm) as (Hp & _).
  rewrite <- (inv_count _ _ _ Hi') in Hle.
  unfold Start_returns in HR. destruct (collector s) eqn:Hcol; try done. destruct (supervisor s); try done.
  split; [apply (Forall_impl _ _ _ (inv_closed _ _ _ Hi' Hcol)); intros []; done|].
  destruct (dlErr s) as [e|] eqn:He; [by injection HR as <-|]. destruct (Z.ltb_spec (completed s) (PieceCount meta)); [|injection HR as <-; split; [done|lia]].
  destruct (exhausted s) eqn:Hx; injection HR as <-; [done|]. destruct (C1 (C4 eq_refl)) as [[]|[?|[?|?]]]; [done|lia|congruence].
Qed.

(** No deadlock: in every reachable state some worker or the collector can take a step; or every worker waits on an
    empty pool, and then at most six reads of the supervisor declare the peers exhausted and cancel; or the workers have
    returned and the loops are over, and then [Start] can return. *)
Theorem swarm_progress `{B : Bencoder} meta infoHash peerID paths maxWorkers addrs st s :
  consistent meta → ready st paths → total (files st) = TotalSize meta → maxWorkers < 2 ^ 62 →
  rtc (step meta infoHash peerID) (start meta maxWorkers addrs st) s →
  (∃ a s', crew a = true ∧ exec meta infoHash peerID a s = Some s')
  ∨ (starving meta s ∧ ∃ k t, (k ≤ 6)%nat ∧ polls meta k s = Some t ∧ exhausted t = true ∧ cancelled t = true)
  ∨ (Forall (λ x, x = WExit) (workers s) ∧ ∃ s', rtc (step meta infoHash peerID) s s' ∧ Start_returns meta s' ≠ None).
Proof.
  intros Hm Hr Ht Hw Hs. destruct (start_inv meta paths Hm maxWorkers addrs st Hr Ht Hw) as [Hi Hc].
  pose proof (steps_inv meta infoHash peerID paths Hm _ _ Hs Hi) as Hi'.
  assert (Hc' : causes meta True (start meta maxWorkers addrs st)) by (destruct Hc as [? Hc]; split; [auto|done]).
  pose proof (causes_steps meta infoHash peerID paths Hm _ _ Hs Hi Hc') as C. pose proof C as (_ & C2 & _ & C4).
  destruct (crew_progress meta infoHash peerID paths Hm s _ Hi' C) as [Hcol|[?|Hst]]; [right; right|by left|right; left].
  - split; [apply (Forall_impl _ _ _ (inv_closed _ _ _ Hi' Hcol)); intros []; done|]. by apply supervisor_stops; [apply C4|].
  - split; [done|]. apply (starving_exhausted meta); [done|]. intros Hd. apply C2 in Hd. destruct Hst. congruence.
Qed.

(** ** A run *)

Section trace.
Context {B : Bencoder} (meta : TorrentMeta) (infoHash peerID : bytes).

Fixpoint run_actions (acts : list action) (s : Swarm) : option Swarm :=
  match acts with [] => Some s | a :: acts => s ← exec meta infoHash peerID a s; run_actions acts s end.

Lemma run_steps acts : ∀ s s', Forall (λ a, a ≠ AExternalCancel) acts → run_actions acts s = Some s' → rtc (own_step meta infoHash peerID) s s'.
Proof.
  induction acts as [|a acts IH]; intros s s' Hne; [by intros [= ->]|]. cbn [run_actions]. intros H. apply Forall_cons in Hne as [Ha Hne].
  destruct (exec _ _ _ a s) as [t|] eqn:E; [|done]. eapply rtc_l; [exists a; split; [done|exact E]|by apply IH].
Qed.

Lemma own_steps s s' : rtc (own_step meta infoHash peerID) s s' → rtc (step meta infoHash peerID) s s'.
Proof. induction 1 as [|s1 s2 s3 (a & _ & E) _ IH]; [done|]. eapply rtc_l; [by exists a|exact IH]. Qed.
End trace.

(** Two pieces, a peer that refuses the connection and one that serves them. *)
Module SampleSwarm.
Definition content : bytes := str "abcdefg".
Definition hash : bytes := str "hhhhhhhhhhhhhhhhhhhh".
Definition me : bytes := str "-WL0001-000000000000".
Definition meta : TorrentMeta :=
  {| Name := str "t"; PieceLength := 4; PieceCount := 2; TotalSize := 7; Files := Storage.files sample_ready;
     Pieces := Some (sha1 (str "abcd") ++ sha1 (str "efg")) |}.
Definition peer : bytes := handshake_bytes (zeros 8) hash (str "-XX0001-111111111111")
  ++ flat_map frame (Some (mkMsg MsgUnchoke []) :: serve 0 (str "abcd") 0 [[]] ++ serve 1 (str "efg") 0 [[]]).
Definition actions : list action :=
  [ATake 0; ACount 0; APoll; ADial 0 None; ATake 0; ACount 0; ADial 0 (Some (peer, 8, 8)%nat);
   AWork 0; ADownload 0; AAdd 0; ASend 0; ACollect; AWork 0; APoll; APoll; ADownload 0; AAdd 0; ASend 0; ACollect;
   AQuit 0; AClose; ASupervisorDone].
Definition first : Swarm := start meta 1 [str "10.0.0.1:1"; str "10.0.0.2:2"] sample_ready.
Definition run : list action → Swarm → option Swarm := @run_actions ref_codec meta hash me.
Definition last : Swarm := default first (run actions first).

Lemma is_consistent : consistent meta.
Proof. by constructor. Qed.

Lemma runs : is_Some (run actions first).
Proof. vm_compute. eauto. Qed.
Lemma reached : rtc (@own_step ref_codec meta hash me) first last.
Proof.
  apply (run_steps _ _ _ actions); [by repeat constructor|]. unfold last. destruct runs as [s E]. unfold run in *. by rewrite E.
Qed.
Lemma finished : Start_returns meta last = Some Finished.
Proof. vm_compute. done. Qed.
End SampleSwarm.

Lemma swarm_verified_witness :
  stream sample_paths (root (store SampleSwarm.last)) = SampleSwarm.content
  ∧ ready (store SampleSwarm.last) sample_paths
  ∧ completed SampleSwarm.last = Z.of_nat (length (filter (λ x, x = PieceCompleted) (pieces SampleSwarm.last)))
  ∧ (∀ i, pieces SampleSwarm.last !! i = Some PieceCompleted →
       sha1 (piece (stream sample_paths (root (store SampleSwarm.last))) (Z.to_nat (PieceLength SampleSwarm.meta)) i) = piece_hash SampleSwarm.meta i)
  ∧ (Start_returns SampleSwarm.meta SampleSwarm.last = Some Finished → ∀ i, (i < pieceCount SampleSwarm.meta)%nat →
       sha1 (piece (stream sample_paths (root (store SampleSwarm.last))) (Z.to_nat (PieceLength SampleSwarm.meta)) i) = piece_hash SampleSwarm.meta i).
Proof.
  split; [by vm_compute|].
  apply (@swarm_verified ref_codec SampleSwarm.meta SampleSwarm.hash SampleSwarm.me sample_paths 1 [str "10.0.0.1:1"; str "10.0.0.2:2"] sample_ready).
  - exact SampleSwarm.is_consistent.
  - exact sample_is_ready.
  - done.
  - done.
  - exact (own_steps _ _ _ _ _ SampleSwarm.reached).
Defined.

Lemma swarm_results_witness : Forall (λ x, x = WExit) (workers SampleSwarm.last)
  ∧ dlErr SampleSwarm.last = None ∧ completed SampleSwarm.last = PieceCount SampleSwarm.meta.
Proof.
  apply (@swarm_results ref_codec SampleSwarm.meta SampleSwarm.hash SampleSwarm.me sample_paths 1 [str "10.0.0.1:1"; str "10.0.0.2:2"] sample_ready
    SampleSwarm.last Finished).
  - exact SampleSwarm.is_consistent.
  - exact sample_is_ready.
  - done.
  - done.
  - exact SampleSwarm.reached.
  - exact SampleSwarm.finished.
Defined.

Lemma swarm_progress_witness :
  (∃ a s', crew a = true ∧ @exec ref_codec SampleSwarm.meta SampleSwarm.hash SampleSwarm.me a SampleSwarm.first = Some s')
  ∨ (starving SampleSwarm.meta SampleSwarm.first ∧ ∃ k t, (k ≤ 6)%nat ∧ polls SampleSwarm.meta k SampleSwarm.first = Some t
       ∧ exhausted t = true ∧ cancelled t = true)
  ∨ (Forall (λ x, x = WExit) (workers SampleSwarm.first)
       ∧ ∃ s', rtc (@step ref_codec SampleSwarm.meta SampleSwarm.hash SampleSwarm.me) SampleSwarm.first s' ∧ Start_returns SampleSwarm.meta s' ≠ None).
Proof.
  apply (@swarm_progress ref_codec SampleSwarm.meta SampleSwarm.hash SampleSwarm.me sample_paths 1 [str "10.0.0.1:1"; str "10.0.0.2:2"] sample_ready).
  - exact SampleSwarm.is_consistent.
  - exact sample_is_ready.
  - done.
  - done.
  - apply rtc_refl.
Defined.
