(* ===== verification/SwarmEnd.v ===== *)
(** * The swarm comes to an end

    Every step of a worker or of the collector uses up something: a queued piece, an address, a connection, an address to offer.  The
    amounts are a potential of the state; what refills it is that a peer reports addresses, and that an address becomes known for the
    first time.  The ticks of the supervisor's clock are free: they may come at any time, and when nothing else can move a few of
    them end the run or make something else possible.  So [Start] returns unless its peers report addresses for ever. *)

From S2P Require Import Prelude Strconv Hex Sha GoStrings NetAddr Bencode Recognize Url Codec ClientTracker Wire Peer Downloader Handshake Interop Paths Metainfo Storage Swarm SwarmInv SwarmRun.
From Stdlib Require Import ZArith Lia.
Local Open Scope nat_scope.

(** ** Runs *)

(** The addresses a download has just brought. *)
Definition harvested (a : action) (s : Swarm) : nat :=
  match a with ADownload w => match workers s !! w with Some (WAdd addrs _ _ _) => length addrs | _ => 0 end | _ => 0 end.

(** Neither a tick of the clock nor the caller's cancellation. *)
Definition moves (a : action) : Prop := a ≠ APoll ∧ a ≠ AExternalCancel.
#[export] Instance moves_dec a : Decision (moves a).
Proof. destruct a; first [by left|by right; intros [H1 H2]; first [by apply H1|by apply H2]]. Defined.

Section runs.
Context {B : Bencoder} (meta : TorrentMeta) (infoHash peerID : bytes).
Abbreviation exec := (exec meta infoHash peerID).

(** The addresses the peers report in a run. *)
Fixpoint reported (acts : list action) (s : Swarm) : nat :=
  match acts with
  | [] => 0
  | a :: acts => match exec a s with Some t => harvested a t + reported acts t | None => 0 end
  end.

(** Nothing but the clock can move. *)
Definition stalled (s : Swarm) : Prop := ∀ b t, moves b → exec b s ≠ Some t.

(** ** The potential *)

(** What an address, and a queued piece, can give rise to. *)
Definition per_address : nat := 9.
Definition per_piece : nat := 5.

Definition weight (x : wstate) : nat :=
  match x with
  | WAcquire => 1
  | WTook _ => 9
  | WDial _ => 8
  | WReady _ => 7
  | WDownload _ _ => 11
  | WAdd addrs _ _ _ => length addrs + 10
  | WSend _ None (Some _) => 17
  | WSend _ _ _ => 9
  | WExit => 0
  end.
Definition collecting (c : cstate) : nat :=
  match c with CRecv | CDrain => 1 | CGot _ (Some _) => 2 | CGot _ None => per_piece + 3 | CRequeue _ => per_piece + 2 | CClosed => 0 end.
Definition load (ws : list wstate) : nat := sum_list (weight <$> ws).
#[local] Arguments load : simpl never.
Definition potential (s : Swarm) : nat :=
  per_address * length (peerChan s) + per_piece * length (workChan s) + load (workers s) + collecting (collector s)
  + (match supervisor s with SDone => 0 | _ => 1 end).

(** The ticks the supervisor has left. *)
Definition ticks (s : Swarm) : nat :=
  match supervisor s with
  | SDone => 0
  | SIdle c => if cancelled s then 1 else if c =? 0 then 7 else 4
  | SPool c => if cancelled s then 3 else if c =? 0 then 6 else 3
  | SFlight c => if cancelled s then 2 else if c =? 0 then 5 else 2
  end.

(** ** Lemmas: the potential of a step *)

#[local] Instance load_perm : Proper ((≡ₚ) ==> (=)) load.
Proof. intros ws ws' P. unfold load. by rewrite P. Qed.

Lemma load_cons x ws : load (x :: ws) = weight x + load ws.
Proof. done. Qed.

Lemma load_insert ws w x y : ws !! w = Some x → load (<[w := y]> ws) + weight x = load ws + weight y.
Proof. intros H. destruct (workers_split _ _ _ H) as (rest & P & Q & _). rewrite (Q y), P, !load_cons. lia. Qed.

(** A round of [AddPeers] pays for what it queues. *)
Lemma add_peer_potential s a : ∃ ch kn, add_peer s a = with_pool s ch kn
  ∧ per_address * length ch + per_address * size (knownAddrs s) = per_address * length (peerChan s) + per_address * size kn.
Proof.
  unfold add_peer. case_bool_decide as Ha; [|destruct (_ <? _)].
  - exists (peerChan s), (knownAddrs s). by destruct s.
  - eexists _, _. split; [reflexivity|]. rewrite length_app, size_union, size_singleton by set_solver. cbn. lia.
  - exists (peerChan s), (knownAddrs s). by destruct s.
Qed.

(** A worker moves from [x] to [y]; the rest of the state is counted as it is. *)
Lemma worker_potential h s t w x y : workers s !! w = Some x → workers t = <[w := y]> (workers s) → supervisor t = supervisor s →
  (per_address * length (peerChan t) + per_piece * length (workChan t) + weight y + collecting (collector t) + 1 + per_address * size (knownAddrs s)
   ≤ per_address * length (peerChan s) + per_piece * length (workChan s) + weight x + collecting (collector s) + per_address * size (knownAddrs t) + h) →
  potential t + 1 + per_address * size (knownAddrs s) ≤ potential s + per_address * size (knownAddrs t) + h.
Proof. intros Hw E1 E2 H. pose proof (load_insert _ _ _ y Hw). unfold potential. rewrite E1, E2. lia. Qed.

Lemma work_potential paths w s t : consistent meta → inv meta paths s → work_step meta w s = Some t →
  ∃ x y, workers s !! w = Some x ∧ workers t = <[w := y]> (workers s) ∧ (∃ i p, x = WReady p ∧ y = WDownload i p)
  ∧ (∃ i, workChan s = i :: workChan t) ∧ t = mkSwarm (pieces t) (workChan t) (peerChan s) (knownAddrs s) (inFlight s) (completed s) (exhausted s) (cancelled s) (workers t) (collector s) (dlErr s) (supervisor s) (store s).
Proof.
  intros Hm Hi. unfold work_step. destruct (workers s !! w) as [x|] eqn:Hw; [|done]. destruct x; try done.
  destruct (workChan s) as [|i rest] eqn:Hq; [done|]. pose proof (inv_book _ _ _ Hi) as Hb. unfold queued in Hb. rewrite Hq in Hb. cbn [app] in Hb.
  pose proof (bk_queued _ _ _ _ Hb i ltac:(left)) as Hp. pose proof (book_lt _ _ _ _ i Hb ltac:(left)) as Hn.
  rewrite bool_decide_false by (cbn [with_work pieces]; tauto). pose proof (c_hashes _ Hm) as Hh. rewrite (proj2 (Nat.ltb_ge _ _)) by nia.
  intros [= <-]. eexists _, _. split; [done|]. split; [reflexivity|]. split; [by eexists _, _|]. split; [by exists i|done].
Qed.

Ltac worker_moves := eapply worker_potential; [eassumption|reflexivity|reflexivity|cbn].

(** A step of a worker or of the collector. *)
Lemma crew_potential paths a s t : consistent meta → inv meta paths s → crew a = true → exec a s = Some t →
  potential t + 1 + per_address * size (knownAddrs s) ≤ potential s + per_address * size (knownAddrs t) + harvested a t.
Proof.
  intros Hm Hi Ha. destruct a; try done; cbn [Swarm.exec harvested].
  - unfold acquire_step. destruct (workers s !! w) as [[]|] eqn:Hw; try done. destruct (peerChan s) as [|addr rest] eqn:Hp; [done|]. intros [= <-].
    worker_moves. rewrite Hp. cbn. unfold per_address. lia.
  - destruct (workers s !! w) as [[]|] eqn:Hw; try done. intros [= <-]. worker_moves. lia.
  - unfold dial_step. destruct (workers s !! w) as [[]|] eqn:Hw; try done.
    destruct conn as [[[incoming wr] cx]|]; [destruct (dialAndHandshake _ _ _) as [[] p']; try done|]; intros [= <-]; worker_moves; lia.
  - unfold quit_step. destruct (cancelled s) eqn:Hc; [|done].
    destruct (workers s !! w) as [[]|] eqn:Hw; try done; intros [= <-]; worker_moves; lia.
  - intros Hs. destruct (work_potential paths w s t Hm Hi Hs) as (x & y & Hw & Ey & (i & p & -> & ->) & (j & Eq) & Et).
    apply (worker_potential _ _ _ w _ _ Hw Ey); rewrite Et; try done. cbn. rewrite Eq. cbn. unfold per_piece. lia.
  - unfold download_step. destruct (workers s !! w) as [[]|] eqn:Hw; try done. pose proof (lookup_lt_Some _ _ _ Hw).
    destruct (downloadPiece _ _ _ _) as [[] p'] eqn:E; try done; destruct (DrainPexPeers p') as [u q]; intros [= <-];
      cbn [with_worker workers]; rewrite list_lookup_insert_eq by done; worker_moves; lia.
  - unfold add_step. destruct (workers s !! w) as [x|] eqn:Hw; [|done]. destruct x as [| | | | |[|addr addrs] i [d|] p| |]; try done; intros [= <-];
      try (worker_moves; lia); destruct (add_peer_potential s addr) as (ch & kn & -> & E); worker_moves; unfold per_address in *; lia.
  - unfold send_step. destruct (workers s !! w) as [x|] eqn:Hw; [|done]. destruct x as [| | | | | |i o c|]; try done.
    destruct (collector s) eqn:Hcol; try done; intros [= <-]; destruct o, c; worker_moves; rewrite Hcol; cbn; unfold per_piece; lia.
  - unfold collect_step. destruct (collector s) as [|i [d|]| | |] eqn:Hcol; try done.
    + destruct (WritePiece _ _ _ _) as [[] fs]; try done; [destruct (_ =? _)%Z|]; intros [= <-]; unfold potential; cbn; rewrite ?Hcol; cbn; lia.
    + intros [= <-]. unfold potential; cbn; rewrite Hcol. cbn; lia.
  - unfold requeue_step. destruct (collector s) eqn:Hcol; try done. destruct (_ <? _); [|done]. intros [= <-].
    unfold potential; cbn; rewrite Hcol, length_app. cbn; lia.
  - unfold give_up_step. destruct (collector s) eqn:Hcol; try done. destruct (cancelled s); [|done]. intros [= <-].
    unfold potential; cbn; rewrite Hcol. cbn; lia.
  - unfold close_step. destruct (forallb is_exit (workers s)); [|done].
    destruct (collector s) eqn:Hcol; try done; intros [= <-]; unfold potential; cbn; rewrite Hcol; cbn; lia.
Qed.

(** A tick costs nothing, and the end of the supervisor uses itself up. *)
Lemma poll_potential s t : exec APoll s = Some t → potential t ≤ potential s ∧ knownAddrs t = knownAddrs s.
Proof.
  cbn [Swarm.exec]. unfold poll_step. intros H. repeat (case_match; simplify_eq); unfold potential; cbn; split; try done;
    repeat match goal with E : supervisor _ = _ |- _ => rewrite E end; lia.
Qed.

Lemma step_potential paths a s t : consistent meta → inv meta paths s → exec a s = Some t →
  potential t + (if bool_decide (moves a) then 1 else 0) + per_address * size (knownAddrs s) ≤ potential s + per_address * size (knownAddrs t) + harvested a t.
Proof.
  intros Hm Hi He. destruct (crew a) eqn:Ha.
  - pose proof (crew_potential paths a s t Hm Hi Ha He). case_bool_decide; lia.
  - destruct a; try done; cbn [harvested].
    + cbn [Swarm.exec] in He. injection He as <-. rewrite bool_decide_false by (by intros [_ H]). unfold potential. cbn. lia.
    + apply poll_potential in He as [He ->]. rewrite bool_decide_false by (by intros [H _]). lia.
    + cbn [Swarm.exec] in He. destruct (supervisor s) eqn:Es; try done; destruct (cancelled s); try done; injection He as <-; unfold potential; cbn; rewrite Es; lia.
Qed.

(** A tick, when nothing else can move: the supervisor comes closer to its end. *)
Lemma stalled_tick paths s t ext : consistent meta → inv meta paths s → causes meta ext s → stalled s → exec APoll s = Some t → ticks t + 1 ≤ ticks s.
Proof.
  intros Hm Hi Hc Hp. cbn [Swarm.exec].
  destruct (crew_progress meta infoHash peerID paths Hm s ext Hi Hc) as [Hcol|[(b & u & Hb & Hu)|[_ Ha _ He Hf Hl]]].
  - destruct Hc as (_ & _ & _ & Ha). specialize (Ha Hcol). pose proof (Hp ASupervisorDone) as Hd. cbn [Swarm.exec] in Hd.
    unfold poll_step. destruct (supervisor s) eqn:Hs; [rewrite Ha in Hd; by destruct (Hd _ ltac:(done) eq_refl)|..|done].
    + destruct (_ =? 0)%Z; intros [= <-]; unfold ticks; cbn; rewrite Hs, Ha; lia.
    + destruct (_ <? _)%Z; [destruct (_ <=? _)|]; intros [= <-]; unfold ticks; cbn; rewrite Hs, ?Ha; lia.
  - exfalso. apply (Hp b u); [by destruct b|done].
  - apply Z.ltb_lt in Hl. unfold poll_step. destruct (supervisor s) as [c|c|c|] eqn:Hs; try done; rewrite ?Hl, ?He, ?Hf, ?bool_decide_true by done; cbn;
      [| |destruct c as [|c]]; intros [= <-]; unfold ticks; cbn; rewrite ?Hs, ?Ha; repeat case_match; try done; lia.
Qed.

(** Only waiting workers, and nothing to wait for. *)
Lemma quiet s : Forall (λ x, x = WExit ∨ x = WAcquire ∧ peerChan s = [] ∧ cancelled s = false) (workers s) →
  (collector s = CRecv ∧ Exists (λ x, x = WAcquire) (workers s) ∨ collector s = CClosed) → ∀ a, crew a = true → exec a s = None.
Proof.
  intros Hw Hc. assert (K1 : ∀ w x, workers s !! w = Some x → x = WExit ∨ x = WAcquire ∧ peerChan s = [] ∧ cancelled s = false) by (by apply Forall_lookup).
  assert (Ew : ∀ w x, workers s !! w = Some x → match x with WExit | WAcquire => True | _ => False end).
  { intros w x [->|[-> _]]%K1; done. }
  intros a Ha. destruct a; try done; cbn [Swarm.exec]; unfold acquire_step, dial_step, quit_step, work_step, download_step, add_step, send_step;
    try (destruct (workers s !! w) as [x|] eqn:E; [pose proof (Ew _ _ E); by destruct x|done]).
  - destruct (workers s !! w) as [x|] eqn:E; [|done]. destruct (K1 _ _ E) as [->|(-> & -> & _)]; done.
  - destruct (workers s !! w) as [x|] eqn:E; [|by destruct (cancelled s)]. destruct (K1 _ _ E) as [->|(-> & _ & ->)]; [by destruct (cancelled s)|done].
  - unfold collect_step. by destruct Hc as [[-> _]| ->].
  - unfold requeue_step. by destruct Hc as [[-> _]| ->].
  - unfold give_up_step. by destruct Hc as [[-> _]| ->].
  - unfold close_step. destruct Hc as [[-> He]| ->]; [|by destruct (forallb _ _)].
    destruct (forallb is_exit (workers s)) eqn:Hf; [|done]. rewrite forallb_forall in Hf. apply Exists_exists in He as (x & Hx & ->).
    by specialize (Hf WAcquire ltac:(by apply list_elem_of_In)).
Qed.

(** A run that has not ended can go on, if only by a tick. *)
Lemma run_extends paths s ext : consistent meta → inv meta paths s → causes meta ext s →
  Start_returns meta s ≠ None ∨ (∃ a t, moves a ∧ exec a s = Some t) ∨ stalled s ∧ ∃ t, exec APoll s = Some t.
Proof.
  intros Hm Hi Hc. destruct (crew_progress meta infoHash peerID paths Hm s ext Hi Hc) as [Hcol|[(b & u & Hb & Hu)|Hst]].
  - pose proof Hc as (_ & _ & _ & Ha). specialize (Ha Hcol).
    assert (Hq : ∀ a, crew a = true → exec a s = None).
    { apply quiet; [|by right]. eapply Forall_impl; [exact (inv_closed _ _ _ Hi Hcol)|]. intros []; try done. by left. }
    assert (Hd : (∀ c, supervisor s ≠ SIdle c) → stalled s).
    { intros Hn b t [Hb1 Hb2]. destruct (crew b) eqn:Hb; [by rewrite Hq|]. destruct b; try done. cbn [Swarm.exec]. destruct (supervisor s) as [c| | |] eqn:E; try done. by destruct (Hn c). }
    destruct (supervisor s) eqn:Hs; [right; left|right; right; (split; [by apply Hd|])..|left; unfold Start_returns; by rewrite Hcol, Hs].
    + exists ASupervisorDone. cbn [Swarm.exec]. rewrite Hs, Ha. by eexists.
    + cbn [Swarm.exec]. unfold poll_step. rewrite Hs. by eexists.
    + cbn [Swarm.exec]. unfold poll_step. rewrite Hs. repeat case_match; by eexists.
  - right. left. exists b, u. split; [by destruct b|done].
  - right. right. destruct Hst as [Hr Ha Hw He Hf Hl]. pose proof Hc as (_ & C2 & _). split.
    + intros b u [Hb1 Hb2]. destruct (crew b) eqn:Hb.
      * rewrite (quiet s); try done.
        { eapply Forall_impl; [exact Hw|]. intros x ->. by right. }
        left. split; [done|]. pose proof (inv_crew _ _ _ Hi) as Hl0. destruct (workers s) as [|x ws]; [simpl in Hl0; lia|]. apply Forall_cons in Hw as [-> _]. by left.
      * destruct b; try done. cbn [Swarm.exec]. rewrite Ha. by destruct (supervisor s).
    + cbn [Swarm.exec]. destruct (poll_step meta s) as [t|] eqn:E; [by eexists|]. unfold poll_step in E. destruct (supervisor s); repeat case_match; try done. by rewrite C2 in Ha.
Qed.

Lemma exec_crew a s t : exec a s = Some t → length (workers t) = length (workers s).
Proof.
  destruct a; cbn [Swarm.exec]; unfold acquire_step, dial_step, quit_step, work_step, download_step, send_step, collect_step, requeue_step,
    give_up_step, close_step, poll_step; try (intros H; repeat case_match; simplify_eq/=; by rewrite ?length_insert).
  unfold add_step. destruct (workers s !! w) as [x|]; [|done]. destruct x as [| | | | |[|a addrs] i [d|] p| |]; try done; intros [= <-];
    try (destruct (add_peer_pool s a) as (ch & kn & ->)); cbn; by rewrite ?length_insert.
Qed.

(** What there is at the start: an address in the pool is a known one. *)
Lemma AddPeers_known addrs : ∀ s, size (knownAddrs s) = length (peerChan s) → size (knownAddrs (AddPeers s addrs)) = length (peerChan (AddPeers s addrs)).
Proof.
  unfold AddPeers. induction addrs as [|a addrs IH]; intros s Hs; [done|]. cbn. apply IH. unfold add_peer. case_bool_decide; [done|].
  destruct (_ <? _); [|done]. cbn. rewrite length_app, size_union, size_singleton by set_solver. cbn. lia.
Qed.

Lemma start_potential maxWorkers addrs st : let s := start meta maxWorkers addrs st in
  potential s = per_address * size (knownAddrs s) + per_piece * pieceCount meta + length (workers s) + 2.
Proof.
  unfold start. cbv zeta. destruct (AddPeers_pool addrs (with_work (NewSwarm meta st) (seq 0 (pieceCount meta)))) as (ch & kn & E).
  pose proof (AddPeers_known addrs (with_work (NewSwarm meta st) (seq 0 (pieceCount meta))) eq_refl) as Hk. rewrite E in *.
  unfold potential. cbn in *. rewrite Hk, length_seq, length_replicate.
  assert (El : ∀ k, load (replicate k WAcquire) = k) by (induction k as [|k IH]; [done|]; cbn [replicate]; rewrite load_cons, IH; done).
  rewrite El. lia.
Qed.

(** What a run has used. *)
Lemma run_potential paths acts : consistent meta → ∀ s u, run_actions meta infoHash peerID acts s = Some u → inv meta paths s → causes meta True s →
  length (filter moves acts) + potential u + per_address * size (knownAddrs s) ≤ potential s + per_address * size (knownAddrs u) + reported acts s
  ∧ inv meta paths u ∧ causes meta True u ∧ length (workers u) = length (workers s).
Proof.
  intros Hm. induction acts as [|a acts IH]; intros s u; cbn [run_actions reported].
  - intros [= ->] Hi Hc. split_and!; try done. cbn. lia.
  - intros (t & He & Hr)%bind_Some Hi Hc. rewrite He.
    assert (Hi' : inv meta paths t) by (by eapply exec_inv).
    assert (Hc' : causes meta True t).
    { destruct (causes_exec meta infoHash peerID paths Hm _ _ _ _ Hi Hc He) as [_ C]. by split; [left|]. }
    destruct (IH t u Hr Hi' Hc') as (H & Hiu & Hcu & Hw). rewrite (exec_crew _ _ _ He) in Hw. split; [|done].
    pose proof (step_potential paths a s t Hm Hi He). rewrite filter_cons. case_bool_decide; [rewrite decide_True by done|rewrite decide_False by done]; cbn [length]; lia.
Qed.

(** Ticks get a stalled run going, or end it. *)
Lemma ticks_suffice paths n : consistent meta → ∀ s, ticks s ≤ n → inv meta paths s → causes meta True s →
  ∃ k v, k ≤ n ∧ run_actions meta infoHash peerID (replicate k APoll) s = Some v ∧ (Start_returns meta v ≠ None ∨ ∃ a t, moves a ∧ exec a v = Some t).
Proof.
  intros Hm. induction n as [|n IH]; intros s Hn Hi Hc; (destruct (run_extends paths s True Hm Hi Hc) as [H|[H|[Hst (t & Ht)]]]; [exists 0, s; split_and!; try done; auto with lia..|]);
    pose proof (stalled_tick paths s t True Hm Hi Hc Hst Ht); [lia|].
  assert (Hc' : causes meta True t).
  { destruct (causes_exec meta infoHash peerID paths Hm _ _ _ _ Hi Hc Ht) as [_ C]. by split; [left|]. }
  destruct (IH t) as (k & v & Hk & Hr & H'); [lia|by eapply exec_inv|done|].
  exists (S k), v. split_and!; [lia| |done]. cbn [replicate run_actions]. by rewrite Ht.
Qed.

Lemma ticks_bounded s : ticks s ≤ 7.
Proof. unfold ticks. repeat case_match; lia. Qed.
End runs.

(** ** The property *)

(** C22. The swarm ends: in every run of [Start], whatever the peers, the disk and the scheduler do, whenever the supervisor's clock ticks and the caller's context
    is cancelled, the number of steps of the workers, the collector and the supervisor other than its ticks is bounded by the pieces, the workers, the distinct
    addresses that have become known (the tracker's and those of the peer exchange) and the addresses the peers have reported; only by reporting
    addresses can the peers make a run longer.  And no run gets stuck: from every state it reaches, at most seven ticks lead to one where [Start] has
    returned or where something other than the clock can move. *)
Theorem swarm_terminates `{B : Bencoder} meta infoHash peerID paths maxWorkers addrs st acts s :
  consistent meta → ready st paths → total (files st) = TotalSize meta → (maxWorkers < 2 ^ 62)%Z →
  run_actions meta infoHash peerID acts (start meta maxWorkers addrs st) = Some s →
  length (filter moves acts) ≤ 5 * pieceCount meta + 9 * size (knownAddrs s) + reported meta infoHash peerID acts (start meta maxWorkers addrs st) + length (workers s) + 2
  ∧ ∃ n u, n ≤ 7 ∧ run_actions meta infoHash peerID (replicate n APoll) s = Some u
      ∧ (Start_returns meta u ≠ None ∨ ∃ a t, moves a ∧ exec meta infoHash peerID a u = Some t).
Proof.
  intros Hm Hr Ht Hw Hs. destruct (start_inv meta paths Hm maxWorkers addrs st Hr Ht Hw) as [Hi Hc].
  assert (Hc' : causes meta True (start meta maxWorkers addrs st)) by (destruct Hc as [? Hc]; split; [auto|done]).
  destruct (run_potential meta infoHash peerID paths acts Hm _ _ Hs Hi Hc') as (H & Hi' & Hc'' & El).
  split; [|by apply (ticks_suffice meta infoHash peerID paths 7 Hm s (ticks_bounded s))].
  pose proof (start_potential meta maxWorkers addrs st) as Hp. rewrite El. unfold per_address, per_piece in *. cbv zeta in Hp. lia.
Qed.

(** ** Sample *)

(** Two peers that refuse the connection, while the clock ticks: the supervisor declares the supply exhausted. *)
Module SampleEnd.
Definition attempt : list action := [ATake 0; APoll; ACount 0; APoll; ADial 0 None].
Definition actions : list action := attempt ++ attempt ++ replicate 6 APoll ++ [AQuit 0; AClose].
Definition first : Swarm := SampleSwarm.first.
Definition last : Swarm := default first (SampleSwarm.run actions first).
Lemma ran : SampleSwarm.run actions first = Some last.
Proof. vm_compute. reflexivity. Qed.
Lemma returned : Start_returns SampleSwarm.meta last = Some Exhausted.
Proof. vm_compute. reflexivity. Qed.
End SampleEnd.

Lemma swarm_terminates_witness :
  Start_returns SampleSwarm.meta SampleEnd.last = Some Exhausted
  ∧ length (filter moves SampleEnd.actions) ≤ 5 * pieceCount SampleSwarm.meta + 9 * size (knownAddrs SampleEnd.last)
      + @reported ref_codec SampleSwarm.meta SampleSwarm.hash SampleSwarm.me SampleEnd.actions SampleEnd.first + length (workers SampleEnd.last) + 2
  ∧ ∃ n u, n ≤ 7 ∧ @run_actions ref_codec SampleSwarm.meta SampleSwarm.hash SampleSwarm.me (replicate n APoll) SampleEnd.last = Some u
      ∧ (Start_returns SampleSwarm.meta u ≠ None ∨ ∃ a t, moves a ∧ @exec ref_codec SampleSwarm.meta SampleSwarm.hash SampleSwarm.me a u = Some t).
Proof.
  split; [exact SampleEnd.returned|].
  apply (@swarm_terminates ref_codec SampleSwarm.meta SampleSwarm.hash SampleSwarm.me sample_paths 1 [str "10.0.0.1:1"; str "10.0.0.2:2"] sample_ready).
  - exact SampleSwarm.is_consistent.
  - exact sample_is_ready.
  - done.
  - done.
  - exact SampleEnd.ran.
Defined.
