(* ===== verification/Download.v ===== *)
(** * A whole download: [DownloadMVP] of [internal/client/downloader.go]

    The guards, the storage, the announces and the swarm, put together.  The tracker is reached through
    [ClientTracker.Announce]; the scheduler, the peers and the disk are the run of the swarm, a function
    from the state after [Start]'s set-up to the state where its threads have stopped.  [DownloadMVP]
    returns its result, the announces it made, in order, and the directory it leaves.

    The theorems: what a successful download leaves on disk, the life cycle the tracker sees, and a torrent
    without files that crashes the client. *)

From S2P Require Import Prelude Strconv Hex Sha GoStrings NetAddr Bencode Recognize Url Codec ClientTracker Wire Peer Downloader Handshake Interop Paths Magnet Metainfo Storage Swarm SwarmInv SwarmRun.
From Stdlib Require Import ZArith Lia.
Local Open Scope Z_scope.

(** ** Peer ids *)

Definition charset : bytes := str "abcdefghijklmnopqrstuvwxyz0123456789".

(** [b] is what [rand.Read] gave, [None] its error. *)
Definition GeneratePeerID (b : option bytes) : bytes :=
  match b with
  | None => str "-WL0020-aaaaaaaaaaaa"
  | Some b => str "-WL0020-" ++ map (λ x, nth (Z.to_nat (bval x `rem` 36)) charset Byte.x00) b
  end.

(** ** The download *)

Record DownloadOptions := mkDownload {
  DMeta : TorrentMeta;
  DInfoHashV1 : bytes;
  DTrackerURL : bytes;
  DMaxWorkers : Z;
}.

Inductive derr :=
| NoPieceHashes | HashesMismatch | StorageInit (e : serr) | PreallocateFailed (e : serr)
| AnnounceFailed (e : cerr) | NoPeers | SwarmFailed (r : start_result).

(** [strings.Contains(s, sub)] *)
Fixpoint contains (s sub : bytes) : bool :=
  has_prefix s sub || match s with [] => false | _ :: r => contains r sub end.

Definition announce_url (trackerURL : bytes) : bytes :=
  if contains trackerURL (str "/announce") then trackerURL else trim_suffix trackerURL (str "/") ++ str "/announce".

(** The guard, [NewStorage] and [Preallocate]; [opened] is what opening the output directory gives. *)
Definition download_guard (meta : TorrentMeta) : result derr unit :=
  if bool_decide (pieceHashes meta = []) then Err NoPieceHashes
  else if negb (zlen (pieceHashes meta) =? wrap64 (PieceCount meta * 20)) then Err HashesMismatch
  else Ok tt.

Definition prepare (meta : TorrentMeta) (opened : result oserr FS) : result derr Storage :=
  _ ← download_guard meta;
  store ← map_err StorageInit (NewStorage opened (Files meta));
  match Preallocate store with
  | (Ok _, fs) => Ok (with_root store fs)
  | (Err e, _) => Err (PreallocateFailed e)
  | (Panic, _) => Panic
  | (NoFuel, _) => NoFuel
  end.

Section download.
Context (announce : bytes → AnnounceOptions → result cerr (list bytes)) (run : Swarm → Swarm).

Definition DownloadMVP (o : DownloadOptions) (opened : result oserr FS) (rand : option bytes)
    : result derr unit * list AnnounceOptions * option Swarm :=
  let meta := DMeta o in
  match prepare meta opened with
  | Err e => (Err e, [], None)
  | Panic => (Panic, [], None)
  | NoFuel => (NoFuel, [], None)
  | Ok store =>
    let peerID := GeneratePeerID rand in
    let announceURL := announce_url (DTrackerURL o) in
    let base downloaded left event := mkOptions (DInfoHashV1 o) peerID 6881 0 downloaded left event in
    let started := base 0 (TotalSize meta) EStarted in
    let stopped := base 0 (TotalSize meta) EStopped in
    match announce announceURL started with
    | Err e => (Err (AnnounceFailed e), [started], None)
    | Panic => (Panic, [started], None)
    | NoFuel => (NoFuel, [started], None)
    | Ok addrs =>
      if bool_decide (addrs = []) then (Err NoPeers, [started; stopped], None) else
      let maxWorkers := if DMaxWorkers o <=? 0 then 5 else DMaxWorkers o in
      let s := run (start meta maxWorkers addrs store) in
      match Start_returns meta s with
      | None => (NoFuel, [started], Some s)
      | Some Finished =>
          (Ok tt, [started; base (TotalSize meta) 0 ECompleted; base (TotalSize meta) 0 EStopped], Some s)
      | Some r => (Err (SwarmFailed r), [started; stopped], Some s)
      end
    end
  end.

End download.

(** ** Lemmas: preallocation *)

Lemma syscall_ok fs fs1 : syscall fs = (None, fs1) → fs_files fs1 = fs_files fs ∧ fs_dirs fs1 = fs_dirs fs.
Proof. unfold syscall. destruct (fs_faults fs); intros [=]; by subst. Qed.

Lemma make_dirs_ok ds : ∀ fs fs1, make_dirs ds fs = (Ok tt, fs1) →
  fs_files fs1 = fs_files fs ∧ ∀ p, is_Some (fs_files fs !! p) → (p ∈ fs_dirs fs1 ↔ p ∈ fs_dirs fs).
Proof.
  induction ds as [|d ds IH]; intros fs fs1; cbn [make_dirs]; [by intros [= <-]|]. case_bool_decide as Hd; [done|]. intros H.
  destruct (IH _ _ H) as [E1 E2]. cbn in E1, E2. split; [done|]. intros p Hp. rewrite E2 by done. rewrite elem_of_union, elem_of_singleton.
  split; [intros [->|?]; done|by right].
Qed.

Lemma MkdirAll_ok dir fs fs1 : MkdirAll dir fs = (Ok tt, fs1) →
  fs_files fs1 = fs_files fs ∧ ∀ p, is_Some (fs_files fs !! p) → (p ∈ fs_dirs fs1 ↔ p ∈ fs_dirs fs).
Proof.
  unfold MkdirAll. destruct (syscall fs) as [[n|] fs0] eqn:E; [done|]. intros H. destruct (syscall_ok _ _ E) as [E1 E2].
  rewrite <- E1, <- E2. by apply (make_dirs_ok _ _ _ H).
Qed.

Lemma OpenFile_ok p fs fs1 : OpenFile true p fs = (Ok tt, fs1) →
  fs_dirs fs1 = fs_dirs fs ∧ (p ∉ fs_dirs fs) ∧ is_Some (fs_files fs1 !! p) ∧ ∀ q, q ≠ p → fs_files fs1 !! q = fs_files fs !! q.
Proof.
  unfold OpenFile. destruct (syscall fs) as [[n|] fs0] eqn:E; [done|]. destruct (syscall_ok _ _ E) as [E1 E2]. rewrite <- E1, <- E2.
  case_bool_decide as Hd; [done|]. destruct (fs_files fs0 !! p) as [c|] eqn:Ep.
  - intros [= <-]. rewrite Ep. split_and!; eauto.
  - destruct (_ && _); [|done]. intros [= <-]. cbn. rewrite lookup_insert_eq. split_and!; eauto. intros q Hq. by rewrite lookup_insert_ne.
Qed.

Lemma Truncate_ok p n fs fs1 : Truncate p n fs = (Ok tt, fs1) →
  0 ≤ n ∧ fs_dirs fs1 = fs_dirs fs ∧ (∃ c, fs_files fs1 !! p = Some c ∧ zlen c = n) ∧ ∀ q, q ≠ p → fs_files fs1 !! q = fs_files fs !! q.
Proof.
  unfold Truncate. destruct (syscall fs) as [[m|] fs0] eqn:E; [done|]. destruct (syscall_ok _ _ E) as [E1 E2]. rewrite <- E1, <- E2.
  destruct (Z.ltb_spec n 0); [done|]. intros [= <-]. cbn. split_and!; [done|done| |intros q Hq; by rewrite lookup_insert_ne].
  eexists. rewrite lookup_insert_eq. split; [done|]. unfold zlen. rewrite length_resize. lia.
Qed.

(** One entry, whatever the faults: when it succeeds the file has its length, and the files there are
    keep their contents and do not become directories. *)
Lemma preallocate_one_ok fe fs fs1 : preallocate_one fe fs = (Ok tt, fs1) → ∃ p, resolve (Path fe) = Ok p
  ∧ (p ∉ fs_dirs fs1) ∧ (∃ c, fs_files fs1 !! p = Some c ∧ zlen c = Length fe)
  ∧ ∀ q, q ≠ p → is_Some (fs_files fs !! q) → fs_files fs1 !! q = fs_files fs !! q ∧ (q ∈ fs_dirs fs1 ↔ q ∈ fs_dirs fs).
Proof.
  unfold preallocate_one. destruct (resolve (Path fe)) as [p|e| |]; try done. intros H. exists p. split; [done|]. cbn zeta in H.
  set (first := if bool_decide (Dir p ≠ dot) then MkdirAll (Dir p) fs else (Ok tt, fs)) in H.
  assert (A : ∀ fs0, first = (Ok tt, fs0) → fs_files fs0 = fs_files fs ∧ ∀ q, is_Some (fs_files fs !! q) → (q ∈ fs_dirs fs0 ↔ q ∈ fs_dirs fs)).
  { unfold first. intros fs0. case_bool_decide; [apply MkdirAll_ok|]. by intros [= <-]. }
  destruct first as [[[]|e| |] fsa]; try done. cbn [os_bind] in H. destruct (A _ eq_refl) as [A1 A2].
  destruct (OpenFile true p fsa) as [[[]|e| |] fsb] eqn:EO; try done. cbn [os_bind] in H. destruct (OpenFile_ok _ _ _ EO) as (B1 & B2 & _ & B4).
  destruct (Truncate p (Length fe) fsb) as [[[]|e| |] fsc] eqn:ET; try done. injection H as <-. destruct (Truncate_ok _ _ _ _ ET) as (_ & C1 & C2 & C3).
  split_and!; [by rewrite C1, B1|done|]. intros q Hq Hs. rewrite C3, B4, C1, B1, A1 by done. split; [done|by apply A2].
Qed.

(** A successful [Preallocate] lays the files out, if their paths are distinct. *)
Lemma preallocate_laid fes : ∀ fs fs1, preallocate_loop fes fs = (Ok tt, fs1) → ∃ paths,
  Forall2 (λ fe p, resolve (Path fe) = Ok p) fes paths
  ∧ Forall (λ fe, 0 ≤ Length fe) fes
  ∧ (NoDup paths → laid fes paths fs1)
  ∧ ∀ q, q ∉ paths → is_Some (fs_files fs !! q) → fs_files fs1 !! q = fs_files fs !! q ∧ (q ∈ fs_dirs fs1 ↔ q ∈ fs_dirs fs).
Proof.
  induction fes as [|fe fes IH]; intros fs fs1; cbn [preallocate_loop].
  { intros [= <-]. exists []. split_and!; [constructor|constructor|constructor|done]. }
  destruct (preallocate_one fe fs) as [[[]|e| |] fs0] eqn:E; try done. intros H.
  destruct (preallocate_one_ok _ _ _ E) as (p & Hr & Hd & (c & Hc & Hl) & Hf). destruct (IH _ _ H) as (ps & H1 & H0 & H2 & H3).
  exists (p :: ps). split_and!.
  - by constructor.
  - constructor; [|done]. rewrite <- Hl. apply zlen_nonneg.
  - intros [Hp Hnd]%NoDup_cons. destruct (H3 p Hp ltac:(by rewrite Hc)) as [E1 E2]. constructor; [|by apply H2].
    split; [done|]. split; [by rewrite E2|]. exists c. by rewrite E1.
  - intros q [Hq Hqs]%not_elem_of_cons Hs. destruct (Hf q Hq Hs) as [F1 F2]. destruct (H3 q Hqs) as [G1 G2]; [by rewrite F1|].
    rewrite G1, G2. done.
Qed.

(** ** Lemmas: a parsed torrent is consistent *)

Lemma total_nonneg fes : Forall (λ fe, 0 ≤ Length fe) fes → 0 ≤ total fes.
Proof. induction 1 as [|fe fes Hf _ IH]; [done|]. change (total (fe :: fes)) with (Length fe + total fes). lia. Qed.

Lemma sum_lengths_total fes : Forall (λ fe, 0 ≤ Length fe) fes → ∀ acc, 0 ≤ acc → acc + total fes < 2 ^ 62 → sum_lengths acc fes = acc + total fes.
Proof.
  unfold sum_lengths. induction 1 as [|fe fes Hf Hfs IH]; intros acc Ha Hb; [change (total []) with 0; cbn; lia|].
  change (total (fe :: fes)) with (Length fe + total fes) in *. cbn [foldl].
  pose proof (total_nonneg _ Hfs). rewrite wrap64_id by (unfold in_int64; lia). rewrite IH; lia.
Qed.

Lemma ceil_pieces_ok t v : 0 ≤ t < 2 ^ 62 → 0 < v < 2 ^ 62 → (ceil_pieces t v - 1) * v < t ≤ ceil_pieces t v * v.
Proof.
  intros Ht Hv. unfold ceil_pieces. rewrite wrap64_id by (unfold in_int64; lia). rewrite Z.quot_div_nonneg by lia.
  pose proof (Z.div_mod (t + v - 1) v ltac:(lia)). pose proof (Z.mod_pos_bound (t + v - 1) v ltac:(lia)). nia.
Qed.

(** The parser's totals. *)
Lemma one_single info single : match field (str "length") info ≫= as_int with
   | Some length => path ← map_err BadName (safeJoin [default [] (field (str "name") info ≫= as_string)]); Ok [{| Path := path; Length := length |}]
   | None => Ok [] end = Ok single → single = [] ∨ ∃ fe, single = [fe].
Proof.
  destruct (field (str "length") info ≫= as_int); [|intros [= <-]; by left].
  destruct (map_err BadName _) as [path|e| |]; [|done..]. simpl_res. intros [= <-]. right. eauto.
Qed.

Lemma parsed_layout order info meta : parseInfoMap order info = Ok meta →
  Forall (λ fe, 0 ≤ Length fe) (Files meta) → total (Files meta) < 2 ^ 62 → Files meta ≠ [] → pieceHashes meta ≠ [] →
  0 < PieceLength meta ∧ TotalSize meta = total (Files meta)
  ∧ zlen (pieceHashes meta) `rem` 20 = 0 ∧ zlen (pieceHashes meta) ÷ 20 = ceil_pieces (TotalSize meta) (PieceLength meta)
  ∧ PieceCount meta = (if (zlen (pieceHashes meta) ÷ 20 =? 0) && (0 <? TotalSize meta) then ceil_pieces (TotalSize meta) (PieceLength meta)
                       else zlen (pieceHashes meta) ÷ 20).
Proof.
  unfold parseInfoMap. intros H Hnn Ht Hne Hp.
  destruct (field (str "piece length") info ≫= as_int) as [v|]; [|done]. cbn [of_option] in H. simpl_res.
  destruct (Z.leb_spec v 0); [done|]. destruct (zlen _ `rem` 20 =? 0) eqn:Erem; [|done]. cbn [negb] in H. apply Z.eqb_eq in Erem.
  match type of H with (r ← ?s; _) = _ => destruct s as [single|e| |] eqn:Es end; try done. simpl_res.
  match type of H with (r ← ?s; _) = _ => destruct s as [multi|e| |] eqn:Em end; try done. simpl_res.
  match type of H with (r ← ?s; _) = _ => destruct s as [[files tot]|e| |] eqn:Ef end; try done. simpl_res.
  destruct (bool_decide _ && _) eqn:Ec; [done|]. injection H as <-. unfold pieceHashes in *. cbn [Files TotalSize Pieces PieceLength PieceCount] in *.
  assert (Etot : tot = total files).
  { pose proof (one_single _ _ Es) as Hs. destruct (decide (single ++ multi = [])) as [Hemp|Hemp];
      [rewrite bool_decide_true in Ef by done|rewrite bool_decide_false in Ef by done].
    - apply app_eq_nil in Hemp as [-> ->]. destruct (field (str "file tree") info ≫= as_map); [|by injection Ef as <- <-].
      destruct (map_err BadFileTree _) as [fs|e| |]; [|done..]. simpl_res. injection Ef as <- <-. change (sum_lengths 0 []) with 0. by rewrite (sum_lengths_total _ Hnn).
    - injection Ef as <- <-. destruct Hs as [->|[fe ->]]; cbn [app] in *.
      + by rewrite (sum_lengths_total _ Hnn).
      + apply Forall_cons in Hnn as [Hfe Hnn]. by rewrite (sum_lengths_total _ Hnn). }
  split; [done|]. split; [done|]. split; [done|]. split; [|done]. rewrite bool_decide_true in Ec.
  - cbn [andb] in Ec. apply negb_false_iff, Z.eqb_eq in Ec. done.
  - split; [|done]. intros E. by rewrite E in Hp.
Qed.

Lemma parsed_consistent order info meta : parseInfoMap order info = Ok meta →
  Forall (λ fe, 0 ≤ Length fe) (Files meta) → total (Files meta) < 2 ^ 62 → PieceLength meta < 2 ^ 62 → Files meta ≠ [] →
  download_guard meta = Ok tt → consistent meta ∧ total (Files meta) = TotalSize meta.
Proof.
  intros H Hnn Ht Hpl Hne Hg. unfold download_guard in Hg. case_bool_decide as Hp; [done|].
  destruct (parsed_layout _ _ _ H Hnn Ht Hne Hp) as (HL & ET & Erem & Equot & Ecount). split; [|done].
  pose proof (total_nonneg _ Hnn).
  pose proof (zlen_nonneg (pieceHashes meta)) as Hz. assert (0 < zlen (pieceHashes meta)) by (destruct (pieceHashes meta); [done|unfold zlen; simpl; lia]).
  rewrite Z.rem_mod_nonneg in Erem by lia. rewrite Z.quot_div_nonneg in Equot, Ecount by lia.
  pose proof (Z.div_mod (zlen (pieceHashes meta)) 20 ltac:(lia)) as Hdm. set (c := zlen (pieceHashes meta) / 20) in *.
  assert (Hc : 0 < c) by lia. rewrite (proj2 (Z.eqb_neq c 0)) in Ecount by lia. cbn [andb] in Ecount.
  destruct (ceil_pieces_ok (TotalSize meta) (PieceLength meta)) as [C1 C2]; [lia|lia|]. rewrite <- Equot in C1, C2.
  constructor; [lia| |rewrite Ecount; lia|].
  - split; [|lia]. destruct (decide (c = 1)) as [Hc1|Hc1]; [|nia]. rewrite Hc1 in *.
    assert (TotalSize meta ≠ 0); [|lia]. intros E0. unfold ceil_pieces in Equot. rewrite E0 in Equot.
    rewrite wrap64_id in Equot by (unfold in_int64; lia). rewrite Z.quot_small in Equot; lia.
  - unfold pieceCount. rewrite Ecount. unfold zlen in *. lia.
Qed.

(** ** Lemmas: the download *)

Lemma prepare_ready meta opened st paths : prepare meta opened = Ok st → Forall2 (λ fe p, resolve (Path fe) = Ok p) (Files meta) paths →
  NoDup paths → total (Files meta) < 2 ^ 62 →
  download_guard meta = Ok tt ∧ ready st paths ∧ files st = Files meta ∧ Forall (λ fe, 0 ≤ Length fe) (Files meta).
Proof.
  unfold prepare. destruct (download_guard meta) as [[]|e| |]; try done. simpl_res. unfold NewStorage.
  destruct opened as [fs|e| |]; try done. simpl_res. unfold Preallocate. cbn [Storage.files Storage.root].
  destruct (preallocate_loop (Files meta) fs) as [[[]|e| |] fs1] eqn:E; try done. intros [= <-] Hp Hnd Ht.
  destruct (preallocate_laid _ _ _ E) as (ps & H1 & H2 & H3 & _). assert (ps = paths) as ->.
  { clear -H1 Hp. revert paths Hp. induction H1 as [|fe p fes ps Hr _ IH]; intros paths Hp; inversion Hp; subst; [done|].
    f_equal; [congruence|by apply IH]. }
  split_and!; [done|by constructor; [apply H3| |]|done|done].
Qed.

(** The cases of [DownloadMVP], by what it announced. *)
Definition events (log : list AnnounceOptions) : list bytes := map OEvent log.

(** Enough of [Start] for the model: its threads take steps until they have all stopped. *)
Definition runs_swarm `{B : Bencoder} (o : DownloadOptions) (rand : option bytes) (run : Swarm → Swarm) : Prop :=
  ∀ s, rtc (step (DMeta o) (DInfoHashV1 o) (GeneratePeerID rand)) s (run s).

(** A nil result. *)
Lemma download_ok `{B : Bencoder} order info announce run o opened rand paths log s :
  parseInfoMap order info = Ok (DMeta o) → Files (DMeta o) ≠ [] →
  Forall2 (λ fe p, resolve (Path fe) = Ok p) (Files (DMeta o)) paths → NoDup paths →
  total (Files (DMeta o)) < 2 ^ 62 → PieceLength (DMeta o) < 2 ^ 62 → DMaxWorkers o < 2 ^ 62 → runs_swarm o rand run →
  DownloadMVP announce run o opened rand = (Ok tt, log, Some s) →
  laid (Files (DMeta o)) paths (root (store s))
  ∧ (∀ i, (i < pieceCount (DMeta o))%nat →
       sha1 (piece (stream paths (root (store s))) (Z.to_nat (PieceLength (DMeta o))) i) = slice (pieceHashes (DMeta o)) (i * 20) ((i + 1) * 20))
  ∧ zlen (stream paths (root (store s))) = TotalSize (DMeta o)
  ∧ TotalSize (DMeta o) ≤ Z.of_nat (pieceCount (DMeta o)) * PieceLength (DMeta o).
Proof.
  intros Hparse Hne Hp Hnd Ht Hpl Hmw Hrun H. unfold DownloadMVP in H. destruct (prepare _ opened) as [st|e| |] eqn:Eprep; try done.
  destruct (prepare_ready _ _ _ _ Eprep Hp Hnd Ht) as (Hg & Hr & Hf & Hnn).
  destruct (parsed_consistent _ _ _ Hparse Hnn Ht Hpl Hne Hg) as [Hm ET].
  destruct (announce _ _) as [addrs|e| |]; try done. case_bool_decide as Ha; [done|]. cbv zeta in H.
  set (mw := if DMaxWorkers o <=? 0 then 5 else DMaxWorkers o) in H.
  destruct (start_inv (DMeta o) paths Hm mw addrs st Hr) as [Hi _]; [by rewrite Hf|unfold mw; destruct (DMaxWorkers o <=? 0); lia|].
  pose proof (Hrun (start (DMeta o) mw addrs st)) as Hsteps. set (s1 := run _) in H, Hsteps. clearbody s1.
  assert (Hs : Start_returns (DMeta o) s1 = Some Finished ∧ s1 = s).
  { destruct (Start_returns (DMeta o) s1) as [[]|]; try done. split; [done|]. congruence. }
  destruct Hs as [Hfin ->]. pose proof (steps_inv _ _ _ _ Hm _ _ Hsteps Hi) as Hi'.
  pose proof (steps_files _ _ _ _ _ Hsteps) as Hfiles. rewrite start_files, Hf in Hfiles.
  pose proof (ready_laid _ _ (inv_ready _ _ _ Hi')) as Hlaid. rewrite Hfiles in Hlaid. split_and!; [done| | |].
  - intros i Hn. apply (inv_disk _ _ _ Hi'). by eapply finished_all.
  - rewrite <- ET. apply (laid_total _ _ _ Hlaid).
  - destruct (count_pos _ Hm) as [<- _]. apply (c_count _ Hm).
Qed.

(** ** Properties *)

(** A successful download: when [DownloadMVP] returns nil for a parsed torrent whose file paths are distinct, whatever the
    tracker, the peers, the scheduler and the disk did, every file is below the output directory with its
    length, and every piece of their concatenation, which covers the whole content, has the SHA-1 the torrent
    gives for it. *)
Theorem download_verified `{B : Bencoder} order info announce run o opened rand paths log s :
  parseInfoMap order info = Ok (DMeta o) → Files (DMeta o) ≠ [] →
  Forall2 (λ fe p, resolve (Path fe) = Ok p) (Files (DMeta o)) paths → NoDup paths →
  total (Files (DMeta o)) < 2 ^ 62 → PieceLength (DMeta o) < 2 ^ 62 → DMaxWorkers o < 2 ^ 62 → runs_swarm o rand run →
  DownloadMVP announce run o opened rand = (Ok tt, log, Some s) →
  laid (Files (DMeta o)) paths (root (store s))
  ∧ (∀ i, (i < pieceCount (DMeta o))%nat →
       sha1 (piece (stream paths (root (store s))) (Z.to_nat (PieceLength (DMeta o))) i) = slice (pieceHashes (DMeta o)) (i * 20) ((i + 1) * 20))
  ∧ zlen (stream paths (root (store s))) = TotalSize (DMeta o)
  ∧ TotalSize (DMeta o) ≤ Z.of_nat (pieceCount (DMeta o)) * PieceLength (DMeta o).
Proof. apply download_ok. Qed.

(** C35. The life cycle the tracker sees: [DownloadMVP] announces nothing, or starts with "started"; once the tracker has
    answered that and [Start] has returned, the last announce is "stopped"; "completed" is announced exactly when the
    download succeeded, before "stopped"; and every announce accounts for the whole torrent, downloaded plus
    left, with nothing uploaded. *)
Theorem download_lifecycle announce run o opened rand r log s :
  DownloadMVP announce run o opened rand = (r, log, s) →
  (events log = [] ∨ events log = [EStarted] ∨ events log = [EStarted; EStopped] ∨ events log = [EStarted; ECompleted; EStopped])
  ∧ (r = Ok tt ↔ ECompleted ∈ events log)
  ∧ (∀ a addrs, log !! 0%nat = Some a → announce (announce_url (DTrackerURL o)) a = Ok addrs → returns r → last (events log) = Some EStopped)
  ∧ Forall (λ a, OUploaded a = 0 ∧ ODownloaded a + OLeft a = TotalSize (DMeta o) ∧ OInfoHash a = DInfoHashV1 o
                 ∧ OPeerID a = GeneratePeerID rand) log.
Proof.
  unfold DownloadMVP. cbv zeta.
  assert (F : ∀ l, Forall (λ a, OUploaded a = 0 ∧ ODownloaded a + OLeft a = TotalSize (DMeta o) ∧ OInfoHash a = DInfoHashV1 o
    ∧ OPeerID a = GeneratePeerID rand) (map (λ '(d, e), mkOptions (DInfoHashV1 o) (GeneratePeerID rand) 6881 0 d (TotalSize (DMeta o) - d) e) l)).
  { intros l. induction l as [|[d e] l IH]; constructor; [cbn; split_and!; try done; lia|done]. }
  pose proof (F [(0, EStarted)]) as F1. pose proof (F [(0, EStarted); (0, EStopped)]) as F2.
  pose proof (F [(0, EStarted); (TotalSize (DMeta o), ECompleted); (TotalSize (DMeta o), EStopped)]) as F3.
  cbn [map] in F1, F2, F3. rewrite !Z.sub_diag, !Z.sub_0_r in *. clear F.
  assert (C : EStarted ≠ ECompleted ∧ EStopped ≠ ECompleted) by done.
  destruct (prepare _ opened) as [st|e| |];
    [|intros [= <- <- <-]; unfold events; cbn [map]; split_and!; try tauto; try done; split; [done|intros H; inversion H]..].
  destruct (announce _ _) as [addrs|e| |] eqn:Ea;
    [|intros [= <- <- <-]; unfold events; cbn [map OEvent]; split_and!; try tauto; try done;
      first [split; [done|set_solver]|intros a addrs [= <-] ?; congruence]..].
  case_bool_decide; [intros [= <- <- <-]; unfold events; cbn [map OEvent]; split_and!; try tauto; try done; split; [done|set_solver]|].
  destruct (Start_returns _ _) as [[]|]; intros [= <- <- <-]; unfold events; cbn [map OEvent]; (split_and!; try tauto; try done);
    (split; [done|set_solver]) || (split; intros; [right; left|done]).
Qed.

(** A torrent without files crashes the client: the parser accepts an info dictionary with piece hashes but none of
    "length", "files" and "file tree", and so does the guard of the download; a worker that takes its second piece
    computes a negative size and panics when it allocates the piece. *)
Theorem no_files_crash `{B : Bencoder} order info meta fs infoHash peerID s w p :
  parseInfoMap order info = Ok meta → Files meta = [] → 2 ≤ PieceCount meta → PieceLength meta < 2 ^ 62 → zlen (pieceHashes meta) < 2 ^ 62 →
  prepare meta (Ok fs) = Ok {| root := fs; files := [] |}
  ∧ (workers s !! w = Some (WDownload 1 p) →
     fst (downloadPiece 1 (piece_size meta 1) (piece_hash meta 1) p) = Panic ∧ exec meta infoHash peerID (ADownload w) s = None).
Proof.
  intros H Hf Hc Hpl Hz. assert (K : TotalSize meta = 0 ∧ 0 < PieceLength meta ∧ zlen (pieceHashes meta) `rem` 20 = 0
    ∧ PieceCount meta = zlen (pieceHashes meta) ÷ 20).
  { unfold parseInfoMap in H. destruct (field (str "piece length") info ≫= as_int) as [v|]; [|done]. cbn [of_option] in H. simpl_res.
    destruct (Z.leb_spec v 0); [done|]. destruct (zlen _ `rem` 20 =? 0) eqn:Erem; [|done]. cbn [negb] in H. apply Z.eqb_eq in Erem.
    match type of H with (r ← ?s; _) = _ => destruct s as [single|e| |] eqn:Es end; try done. simpl_res.
    match type of H with (r ← ?s; _) = _ => destruct s as [multi|e| |] eqn:Em end; try done. simpl_res.
    match type of H with (r ← ?s; _) = _ => destruct s as [[files tot]|e| |] eqn:Ef end; try done. simpl_res.
    destruct (bool_decide _ && _) eqn:Ec; [done|]. injection H as <-. unfold pieceHashes. cbn [Files TotalSize Pieces PieceLength PieceCount] in *. subst files.
    assert (tot = 0) as ->.
    { destruct (decide (single ++ multi = [])) as [Hemp|Hemp]; [rewrite bool_decide_true in Ef by done|rewrite bool_decide_false in Ef by done].
      - apply app_eq_nil in Hemp as [-> ->]. destruct (field (str "file tree") info ≫= as_map); [|by injection Ef].
        destruct (map_err BadFileTree _) as [fs1|e| |]; [|done..]. simpl_res. by injection Ef as -> <-.
      - by injection Ef. }
    rewrite andb_false_r in *. done. }
  destruct K as (HT & HL & Hrem & HC). pose proof (zlen_nonneg (pieceHashes meta)) as Hz0.
  rewrite Z.rem_mod_nonneg in Hrem by lia. rewrite Z.quot_div_nonneg in HC by lia. pose proof (Z.div_mod (zlen (pieceHashes meta)) 20 ltac:(lia)).
  assert (Hsz : piece_size meta 1 < 0).
  { unfold piece_size. rewrite HT, Z.mul_1_l, (wrap64_id (PieceLength meta)), wrap64_id by (unfold in_int64; lia). destruct (Z.ltb_spec (0 - PieceLength meta) (PieceLength meta)); lia. }
  assert (HP : downloadPiece 1 (piece_size meta 1) (piece_hash meta 1) p = (Panic, p)) by (unfold downloadPiece; by rewrite (proj2 (Z.ltb_lt _ _))).
  split.
  - unfold prepare, download_guard. rewrite bool_decide_false by (intros E; rewrite E in *; change (zlen []) with 0 in *; lia).
    rewrite wrap64_id by (unfold in_int64; lia). rewrite (proj2 (Z.eqb_eq _ _)) by lia. cbn [negb]. simpl_res. unfold NewStorage. simpl_res. rewrite Hf. done.
  - intros Hw. cbn [exec]. unfold download_step. rewrite Hw. change (Z.of_nat 1) with 1. rewrite HP. done.
Qed.

(** ** Samples *)

(** A torrent of two files, and a peer that serves its two pieces. *)
Module SampleDownloadMVP.
Definition info : list (bytes * tree) :=
  [(str "files", BList [BDict [(str "length", BInt 3); (str "path", BList [BStr (str "a")])];
                        BDict [(str "length", BInt 4); (str "path", BList [BStr (str "d"); BStr (str "b")])]]);
   (str "name", BStr (str "t")); (str "piece length", BInt 4);
   (str "pieces", BStr (sha1 (str "abcd") ++ sha1 (str "efg")))].
Definition meta : TorrentMeta :=
  {| Name := str "t"; PieceLength := 4; PieceCount := 2; TotalSize := 7;
     Files := [{| Path := str "a"; Length := 3 |}; {| Path := str "d/b"; Length := 4 |}];
     Pieces := Some (sha1 (str "abcd") ++ sha1 (str "efg")) |}.
Definition empty : FS := {| fs_files := ∅; fs_dirs := ∅; fs_faults := [] |}.
Definition options : DownloadOptions := mkDownload meta SampleSwarm.hash (str "http://t/") 1.
Definition tracker (url : bytes) (a : AnnounceOptions) : result cerr (list bytes) := Ok [str "10.0.0.1:1"; str "10.0.0.2:2"].
Definition run (s : Swarm) : Swarm :=
  default s (@run_actions ref_codec meta SampleSwarm.hash (GeneratePeerID None) SampleSwarm.actions s).
Definition outcome := DownloadMVP tracker run options (Ok empty) None.
Definition final : Swarm := default (NewSwarm meta {| root := empty; files := [] |}) (snd outcome).

Lemma parsed : parseInfoMap id info = Ok meta.
Proof. vm_compute. done. Qed.
Lemma resolved : Forall2 (λ fe p, resolve (Path fe) = Ok p) (Files meta) sample_paths.
Proof. repeat constructor. Qed.
Lemma distinct : NoDup sample_paths.
Proof. decide_now. Qed.
Lemma runs_it : @runs_swarm ref_codec options None run.
Proof.
  intros s. unfold run. destruct (run_actions _ _ _ _ s) as [s'|] eqn:E; [|done]. cbn [default from_option id].
  apply own_steps, (run_steps _ _ _ SampleSwarm.actions); [by repeat constructor|exact E].
Qed.
Lemma succeeds : outcome = (fst (fst outcome), snd (fst outcome), Some final) ∧ fst (fst outcome) = Ok tt.
Proof. vm_compute. done. Qed.

(** Piece hashes and no files. *)
Definition bare : list (bytes * tree) :=
  [(str "name", BStr (str "t")); (str "piece length", BInt 4); (str "pieces", BStr (sha1 [] ++ sha1 []))].
Definition bare_meta : TorrentMeta :=
  {| Name := str "t"; PieceLength := 4; PieceCount := 2; TotalSize := 0; Files := []; Pieces := Some (sha1 [] ++ sha1 []) |}.
Definition bare_start : Swarm := start bare_meta 2 [str "10.0.0.1:1"; str "10.0.0.2:2"] {| root := empty; files := [] |}.
Definition two_workers : list action :=
  [ATake 0; ACount 0; ADial 0 (Some (SampleSwarm.peer, 8, 8)%nat); AWork 0; ATake 1; ACount 1; ADial 1 (Some (SampleSwarm.peer, 8, 8)%nat); AWork 1].
Definition doomed : Swarm := default bare_start (@run_actions ref_codec bare_meta SampleSwarm.hash SampleSwarm.me two_workers bare_start).
Definition victim : PeerConn := match workers doomed !! 1%nat with Some (WDownload _ p) => p | _ => Connect [] 0 0 end.
End SampleDownloadMVP.

Lemma download_verified_witness :
  stream sample_paths (root (store SampleDownloadMVP.final)) = str "abcdefg"
  ∧ laid (Files SampleDownloadMVP.meta) sample_paths (root (store SampleDownloadMVP.final))
  ∧ (∀ i, (i < pieceCount SampleDownloadMVP.meta)%nat →
       sha1 (piece (stream sample_paths (root (store SampleDownloadMVP.final))) (Z.to_nat (PieceLength SampleDownloadMVP.meta)) i)
       = slice (pieceHashes SampleDownloadMVP.meta) (i * 20) ((i + 1) * 20))
  ∧ zlen (stream sample_paths (root (store SampleDownloadMVP.final))) = TotalSize SampleDownloadMVP.meta
  ∧ TotalSize SampleDownloadMVP.meta ≤ Z.of_nat (pieceCount SampleDownloadMVP.meta) * PieceLength SampleDownloadMVP.meta.
Proof.
  split; [by vm_compute|].
  apply (@download_verified ref_codec id SampleDownloadMVP.info SampleDownloadMVP.tracker SampleDownloadMVP.run SampleDownloadMVP.options
    (Ok SampleDownloadMVP.empty) None sample_paths (snd (fst SampleDownloadMVP.outcome)) SampleDownloadMVP.final).
  - exact SampleDownloadMVP.parsed.
  - discriminate.
  - exact SampleDownloadMVP.resolved.
  - exact SampleDownloadMVP.distinct.
  - reflexivity.
  - reflexivity.
  - reflexivity.
  - exact SampleDownloadMVP.runs_it.
  - exact (eq_trans (proj1 SampleDownloadMVP.succeeds) (f_equal (λ r, (r, snd (fst SampleDownloadMVP.outcome), Some SampleDownloadMVP.final)) (proj2 SampleDownloadMVP.succeeds))).
Defined.

Lemma download_lifecycle_witness : events (snd (fst SampleDownloadMVP.outcome)) = [EStarted; ECompleted; EStopped]
  ∧ (events (snd (fst SampleDownloadMVP.outcome)) = [] ∨ events (snd (fst SampleDownloadMVP.outcome)) = [EStarted]
     ∨ events (snd (fst SampleDownloadMVP.outcome)) = [EStarted; EStopped]
     ∨ events (snd (fst SampleDownloadMVP.outcome)) = [EStarted; ECompleted; EStopped]).
Proof.
  split; [by vm_compute|].
  refine (proj1 (download_lifecycle SampleDownloadMVP.tracker SampleDownloadMVP.run SampleDownloadMVP.options (Ok SampleDownloadMVP.empty) None
    (fst (fst SampleDownloadMVP.outcome)) (snd (fst SampleDownloadMVP.outcome)) (Some SampleDownloadMVP.final) _)).
  exact (proj1 SampleDownloadMVP.succeeds).
Defined.

Lemma no_files_crash_witness :
  workers SampleDownloadMVP.doomed !! 1%nat = Some (WDownload 1 SampleDownloadMVP.victim)
  ∧ fst (@downloadPiece ref_codec 1 (piece_size SampleDownloadMVP.bare_meta 1) (piece_hash SampleDownloadMVP.bare_meta 1) SampleDownloadMVP.victim) = Panic
  ∧ @exec ref_codec SampleDownloadMVP.bare_meta SampleSwarm.hash SampleSwarm.me (ADownload 1) SampleDownloadMVP.doomed = None.
Proof.
  assert (Hw : workers SampleDownloadMVP.doomed !! 1%nat = Some (WDownload 1 SampleDownloadMVP.victim)) by (vm_compute; reflexivity).
  split; [exact Hw|].
  apply (@no_files_crash ref_codec id SampleDownloadMVP.bare SampleDownloadMVP.bare_meta SampleDownloadMVP.empty SampleSwarm.hash SampleSwarm.me
    SampleDownloadMVP.doomed 1 SampleDownloadMVP.victim).
  - vm_compute. reflexivity.
  - reflexivity.
  - discriminate.
  - reflexivity.
  - vm_compute. reflexivity.
  - exact Hw.
Defined.
