(* ===== verification/Utf8.v ===== *)
(** * UTF-8: the part of Go's [unicode/utf8] and [strings] the program uses

    [utf8.DecodeRuneInString] with its accept ranges, the iteration of [range] over a string, [utf8.AppendRune]
    and [strings.Map].  A rune is an integer; a mapping drops a rune by returning [None]. *)

From S2P Require Import Prelude GoStrings.
From Stdlib Require Import ZArith Lia.
Local Open Scope Z_scope.

Definition RuneError : Z := 0xFFFD.

(** The size that a first byte announces, and the range of the second byte; [None] if it starts no rune. *)
Definition first_byte (b : Z) : option (nat * Z * Z) :=
  if b <? 0xC2 then None
  else if b <=? 0xDF then Some (2%nat, 0x80, 0xBF)
  else if b =? 0xE0 then Some (3%nat, 0xA0, 0xBF)
  else if b =? 0xED then Some (3%nat, 0x80, 0x9F)
  else if b <=? 0xEF then Some (3%nat, 0x80, 0xBF)
  else if b =? 0xF0 then Some (4%nat, 0x90, 0xBF)
  else if b <=? 0xF3 then Some (4%nat, 0x80, 0xBF)
  else if b =? 0xF4 then Some (4%nat, 0x80, 0x8F)
  else None.

Definition between (lo hi x : Z) : bool := (lo <=? x) && (x <=? hi).
Definition low6 (b : byte) : Z := Z.land (bval b) 0x3F.

Definition DecodeRune (s : bytes) : Z * nat :=
  match s with
  | [] => (RuneError, 0%nat)
  | b0 :: r =>
      if bval b0 <? 0x80 then (bval b0, 1%nat) else
      match first_byte (bval b0), r with
      | Some (2%nat, lo, hi), b1 :: _ =>
          if between lo hi (bval b1) then (Z.lor (Z.shiftl (Z.land (bval b0) 0x1F) 6) (low6 b1), 2%nat) else (RuneError, 1%nat)
      | Some (3%nat, lo, hi), b1 :: b2 :: _ =>
          if between lo hi (bval b1) && between 0x80 0xBF (bval b2)
          then (Z.lor (Z.lor (Z.shiftl (Z.land (bval b0) 0x0F) 12) (Z.shiftl (low6 b1) 6)) (low6 b2), 3%nat) else (RuneError, 1%nat)
      | Some (4%nat, lo, hi), b1 :: b2 :: b3 :: _ =>
          if between lo hi (bval b1) && between 0x80 0xBF (bval b2) && between 0x80 0xBF (bval b3)
          then (Z.lor (Z.lor (Z.shiftl (Z.land (bval b0) 0x07) 18) (Z.shiftl (low6 b1) 12)) (Z.lor (Z.shiftl (low6 b2) 6) (low6 b3)), 4%nat)
          else (RuneError, 1%nat)
      | _, _ => (RuneError, 1%nat)
      end
  end.

(** [for _, c := range s] *)
Fixpoint range_loop (fuel : nat) (s : bytes) : list Z :=
  match fuel, s with
  | S fuel, _ :: _ => let '(c, width) := DecodeRune s in c :: range_loop fuel (drop width s)
  | _, _ => []
  end.
Definition runes (s : bytes) : list Z := range_loop (length s) s.

(** [utf8.AppendRune] *)
Definition continuation (x : Z) : byte := zbyte (Z.lor 0x80 (Z.land x 0x3F)).
Definition EncodeRune (r : Z) : bytes :=
  if between 0 0x7F r then [zbyte r]
  else if between 0x80 0x7FF r then [zbyte (Z.lor 0xC0 (Z.shiftr r 6)); continuation r]
  else if between 0x10000 0x10FFFF r
  then [zbyte (Z.lor 0xF0 (Z.shiftr r 18)); continuation (Z.shiftr r 12); continuation (Z.shiftr r 6); continuation r]
  else let r := if between 0x800 0xFFFF r && negb (between 0xD800 0xDFFF r) then r else RuneError in
       [zbyte (Z.lor 0xE0 (Z.shiftr r 12)); continuation (Z.shiftr r 6); continuation r].

(** [strings.Map] *)
Definition Map (mapping : Z → option Z) (s : bytes) : bytes :=
  flat_map (λ c, match mapping c with Some r => EncodeRune r | None => [] end) (runes s).

Example map_ex : Map (λ c, if c =? 0x22 then None else Some c) (str "a" ++ zbyte 0x22 :: str "b" ++ [zbyte 0xC3; zbyte 0xA9; zbyte 0xFF])
  = str "ab" ++ [zbyte 0xC3; zbyte 0xA9; zbyte 0xEF; zbyte 0xBF; zbyte 0xBD].
Proof. vm_compute. reflexivity. Qed.

(** ** Lemmas *)

Lemma DecodeRune_width s : s ≠ [] → (1 ≤ snd (DecodeRune s) ≤ length s)%nat.
Proof.
  destruct s as [|b0 r]; [done|]. intros _. unfold DecodeRune. destruct (bval b0 <? 0x80); [simpl; lia|].
  unfold first_byte. repeat (case_match; simpl; try lia).
Qed.

Lemma runes_cons s : s ≠ [] → runes s = fst (DecodeRune s) :: runes (drop (snd (DecodeRune s)) s).
Proof.
  assert (K : ∀ f g s, (length s ≤ f)%nat → (length s ≤ g)%nat → range_loop f s = range_loop g s).
  { intros f. induction f as [|f IH]; intros g t Hf Hg; [destruct t; [by destruct g|simpl in Hf; lia]|].
    destruct t as [|b t]; [by destruct g|]. destruct g as [|g]; [simpl in Hg; lia|]. cbn [range_loop].
    pose proof (DecodeRune_width (b :: t) ltac:(done)) as Hw. destruct (DecodeRune (b :: t)) as [c w]. cbn [snd] in Hw.
    f_equal. apply IH; rewrite length_drop; simpl in *; lia. }
  intros Hs. unfold runes. destruct s as [|b t]; [done|]. pose proof (DecodeRune_width (b :: t) Hs) as Hw.
  cbn [length range_loop]. destruct (DecodeRune (b :: t)) as [c w]. cbn [fst snd] in *. f_equal. apply K; rewrite length_drop; simpl in *; lia.
Qed.

Lemma DecodeRune_ascii b s : bval b < 0x80 → DecodeRune (b :: s) = (bval b, 1%nat).
Proof. intros H. unfold DecodeRune. by rewrite (proj2 (Z.ltb_lt _ _)). Qed.

Lemma runes_ascii s : Forall (λ b, bval b < 0x80) s → runes s = map bval s.
Proof.
  induction 1 as [|b s Hb _ IH]; [done|]. rewrite runes_cons by done. rewrite DecodeRune_ascii by done. cbn [fst snd map drop]. by rewrite drop_0, IH.
Qed.

(** The bytes of an encoded rune: the rune itself if it is ASCII, else none of them is ASCII. *)
Lemma EncodeRune_ascii r : 0 ≤ r < 0x80 → EncodeRune r = [zbyte r].
Proof. intros H. unfold EncodeRune, between. rewrite !(proj2 (Z.leb_le _ _)) by lia. done. Qed.

Lemma high_byte base y : base ∈ [0x80; 0xC0; 0xE0; 0xF0] → 0 ≤ y < 64 → 0x80 ≤ bval (zbyte (Z.lor base y)).
Proof.
  intros Hb Hy. assert (H : Forall (λ base, Forall (λ y, 0x80 ≤ bval (zbyte (Z.lor base y))) (seqZ 0 64)) [0x80; 0xC0; 0xE0; 0xF0]).
  { decide_now. }
  rewrite Forall_forall in H. specialize (H base Hb). rewrite Forall_forall in H. apply H, elem_of_seqZ. lia.
Qed.

Lemma continuation_high x : 0x80 ≤ bval (continuation x).
Proof.
  unfold continuation. apply high_byte; [left|]. change 0x3F with (Z.ones 6). rewrite Z.land_ones by lia.
  pose proof (Z.mod_pos_bound x (2 ^ 6) ltac:(lia)). lia.
Qed.

Lemma EncodeRune_high r : ¬ 0 ≤ r < 0x80 → Forall (λ b, 0x80 ≤ bval b) (EncodeRune r).
Proof.
  intros Hr. unfold EncodeRune. destruct (between 0 0x7F r) eqn:E1.
  { unfold between in E1. apply andb_true_iff in E1. rewrite !Z.leb_le in E1. lia. }
  pose proof continuation_high as Hc. assert (Hsh : ∀ n x, 0 ≤ x < 2 ^ (6 + n) → 0 ≤ n → 0 ≤ Z.shiftr x n < 64).
  { intros n x Hx Hn. rewrite Z.shiftr_div_pow2 by done. split; [apply Z.div_pos; lia|]. apply Z.div_lt_upper_bound; [lia|].
    rewrite Z.pow_add_r in Hx by lia. lia. }
  destruct (between 0x80 0x7FF r) eqn:E2; [|destruct (between 0x10000 0x10FFFF r) eqn:E3].
  - unfold between in E2. apply andb_true_iff in E2. rewrite !Z.leb_le in E2.
    repeat constructor; [apply high_byte; [set_solver|apply Hsh; lia]|apply Hc].
  - unfold between in E3. apply andb_true_iff in E3. rewrite !Z.leb_le in E3.
    repeat constructor; [apply high_byte; [set_solver|apply Hsh; lia]|apply Hc..].
  - destruct (between 0x800 0xFFFF r && _) eqn:E4.
    + apply andb_true_iff in E4 as [E4 _]. unfold between in E4. apply andb_true_iff in E4. rewrite !Z.leb_le in E4.
      repeat constructor; [apply high_byte; [set_solver|apply Hsh; lia]|apply Hc..].
    + repeat constructor; vm_compute; congruence.
Qed.

(** What [Map] can write: mapped ASCII runes, and bytes above them. *)
Lemma Map_bytes mapping s : Forall (λ b, 0x80 ≤ bval b ∨ ∃ c, mapping c = Some (bval b)) (Map mapping s).
Proof.
  unfold Map. induction (runes s) as [|c cs IH]; [constructor|]. cbn [flat_map]. apply Forall_app. split; [|done].
  destruct (mapping c) as [r|] eqn:E; [|constructor]. destruct (decide (0 ≤ r < 0x80)) as [Hr|Hr].
  - rewrite EncodeRune_ascii by done. constructor; [|constructor]. right. exists c. rewrite bval_zbyte, Z.mod_small by lia. done.
  - eapply Forall_impl; [by apply EncodeRune_high|]. intros b Hb. by left.
Qed.

Lemma Map_ascii mapping s : Forall (λ b, bval b < 0x80) s → Forall (λ b, mapping (bval b) = Some (bval b)) s → Map mapping s = s.
Proof.
  intros Ha Hm. unfold Map. rewrite runes_ascii by done. induction Hm as [|b s Hb _ IH]; [done|]. apply Forall_cons in Ha as [Hb' Ha].
  cbn [map flat_map]. rewrite Hb, EncodeRune_ascii, zbyte_bval by (split; [apply bval_range|done]). cbn [app]. by rewrite IH.
Qed.
