(* ===== verification/Flag.v ===== *)
(** * Package [flag]

    What [cmd/wl] uses of the flag package of Go's standard library: [FlagSet.Parse] over the flags a program defines, and the values of
    string, integer, boolean and user-defined flags ([strconv.ParseInt] with base 0, [strconv.ParseBool]).

    The theorem: a command line is accepted exactly when it is a list of assignments in one of the spellings of a flag ([-name=value],
    [--name=value], [-name value], [--name value], and [-name] or [--name] for a boolean one), an optional [--] and arguments; the
    assignments take effect from left to right. *)

From S2P Require Import Prelude Strconv GoStrings.
From Stdlib Require Import ZArith Lia.
Local Open Scope Z_scope.

(** ** Values *)

Section parse_int.
Definition lower_ascii (b : byte) : byte := zbyte (Z.lor (bval b) 32).
Definition between_chars (lo hi : byte) (b : byte) : bool := (bval lo <=? bval b) && (bval b <=? bval hi).

(** The value of a character as a digit of some base. *)
Definition digit_of (b : byte) : option Z :=
  if is_digit b then Some (digit_val b)
  else if between_chars (chr "a") (chr "z") (lower_ascii b) then Some (bval (lower_ascii b) - 87) else None.

(** [underscoreOK], after the sign: the class of the last character, and the rest. *)
Inductive saw := SawBegin | SawDigit | SawUnderscore | SawOther.
Fixpoint underscore_loop (hex : bool) (last : saw) (s : bytes) : bool :=
  match s with
  | [] => match last with SawUnderscore => false | _ => true end
  | b :: s =>
      if is_digit b || (hex && between_chars (chr "a") (chr "f") (lower_ascii b)) then underscore_loop hex SawDigit s
      else if bool_decide (b = chr "_") then match last with SawDigit => underscore_loop hex SawUnderscore s | _ => false end
      else match last with SawUnderscore => false | _ => underscore_loop hex SawOther s end
  end.
Definition base_letter (b : byte) : option Z :=
  let l := lower_ascii b in
  if bool_decide (l = chr "b") then Some 2 else if bool_decide (l = chr "o") then Some 8 else if bool_decide (l = chr "x") then Some 16 else None.
Definition underscoreOK (s : bytes) : bool :=
  match s with
  | z :: b :: rest =>
      if bool_decide (z = chr "0") then
        match base_letter b with Some base => underscore_loop (base =? 16) SawDigit rest | None => underscore_loop false SawBegin s end
      else underscore_loop false SawBegin s
  | _ => underscore_loop false SawBegin s
  end.

(** The digits, underscores skipped; [None] for a syntax or range error. *)
Fixpoint digits_loop (base n : Z) (s : bytes) : option Z :=
  match s with
  | [] => Some n
  | b :: s =>
      if bool_decide (b = chr "_") then digits_loop base n s else
      match digit_of b with
      | Some d => if base <=? d then None else if 2 ^ 64 <=? n * base + d then None else digits_loop base (n * base + d) s
      | None => None
      end
  end.

(** The base and the digits of a number without a sign. *)
Definition base_of (s : bytes) : Z * bytes :=
  match s with
  | z :: rest =>
      if bool_decide (z = chr "0") then
        match rest with
        | b :: (_ :: _) as rest' => match base_letter b with Some base => (base, drop 1 rest) | None => (8, rest) end
        | _ => (8, rest)
        end
      else (10, s)
  | [] => (10, s)
  end.
Definition ParseUint0 (s : bytes) : option Z :=
  if bool_decide (s = []) then None else
  let '(base, digits) := base_of s in
  n ← digits_loop base 0 digits;
  if bool_decide (chr "_" ∈ digits) && negb (underscoreOK s) then None else Some n.

(** [strconv.ParseInt(s, 0, 64)] *)
Definition ParseInt0 (s : bytes) : option Z :=
  match s with
  | [] => None
  | b :: rest =>
      let neg := bool_decide (b = chr "-") in
      un ← ParseUint0 (if neg || bool_decide (b = chr "+") then rest else s);
      if neg then if 2 ^ 63 <? un then None else Some (- un) else if 2 ^ 63 <=? un then None else Some un
  end.
End parse_int.

Definition ParseBool (s : bytes) : option bool :=
  if bool_decide (s ∈ [str "1"; str "t"; str "T"; str "TRUE"; str "true"; str "True"]) then Some true
  else if bool_decide (s ∈ [str "0"; str "f"; str "F"; str "FALSE"; str "false"; str "False"]) then Some false else None.

(** ** The flag set *)

(** A flag of a program with settings [S]: whether it is boolean, and [Value.Set]. *)
Record Flag (S : Type) := mkFlag { IsBoolFlag : bool; SetValue : bytes → S → option S }.
Arguments mkFlag {S}.
Arguments IsBoolFlag {S}.
Arguments SetValue {S}.

(** The end of the parsing: the settings and [Args()]; [ErrHelp] (exit status 0); another error (exit status 2). *)
Inductive parsed (S : Type) := Parsed (s : S) (args : list bytes) | ParsedHelp | ParseFailed.
Arguments Parsed {S}.
Arguments ParsedHelp {S}.
Arguments ParseFailed {S}.

Section flags.
Context {S : Type} (formal : bytes → option (Flag S)).

(** [name=value]; the equals sign is not the first character. *)
Definition cut_value (name : bytes) : bytes * option bytes :=
  match name with
  | [] => ([], None)
  | b :: rest => match index_byte rest (chr "=") with
                 | Some i => (b :: take i rest, Some (drop (i + 1) rest))
                 | None => (name, None)
                 end
  end.

(** The name part of an argument that is a flag: after one dash or two. *)
Inductive argument := NoFlag | Terminator | FlagText (name : bytes).
Definition classify (s : bytes) : argument :=
  match s with
  | d :: e :: rest =>
      if bool_decide (d = chr "-") then
        if bool_decide (e = chr "-") then if bool_decide (rest = []) then Terminator else FlagText rest
        else FlagText (e :: rest)
      else NoFlag
  | _ => NoFlag
  end.

Inductive round := Seen (s : S) (args : list bytes) | Done (args : list bytes) | OneHelp | OneFailed.

Definition parseOne (s : S) (args : list bytes) : round :=
  match args with
  | [] => Done []
  | a :: args' =>
      match classify a with
      | NoFlag => Done args
      | Terminator => Done args'
      | FlagText text =>
          if match text with [] => true | b :: _ => bool_decide (b = chr "-" ∨ b = chr "=") end then OneFailed else
          let '(name, value) := cut_value text in
          match formal name with
          | None => if bool_decide (name = str "help" ∨ name = str "h") then OneHelp else OneFailed
          | Some f =>
              if IsBoolFlag f then
                match SetValue f (default (str "true") value) s with Some s => Seen s args' | None => OneFailed end
              else
                match value, args' with
                | Some v, _ => match SetValue f v s with Some s => Seen s args' | None => OneFailed end
                | None, v :: args'' => match SetValue f v s with Some s => Seen s args'' | None => OneFailed end
                | None, [] => OneFailed
                end
          end
      end
  end.

(** [Parse]: at most one round per argument, and one more. *)
Fixpoint parse_loop (n : nat) (s : S) (args : list bytes) : option (parsed S) :=
  match n with
  | O => None
  | Datatypes.S n =>
      match parseOne s args with
      | Seen s args => parse_loop n s args
      | Done args => Some (Parsed s args)
      | OneHelp => Some ParsedHelp
      | OneFailed => Some ParseFailed
      end
  end.
Definition Parse (s : S) (args : list bytes) : parsed S := default ParseFailed (parse_loop (Datatypes.S (length args)) s args).
End flags.

(** ** Spellings *)

Section spellings.
Context {S : Type} (formal : bytes → option (Flag S)).

(** One assignment: the dashes, the name, and the value if it has one. *)
Inductive spelling :=
| Joined (dashes name value : bytes)       (* -name=value *)
| Apart (dashes name value : bytes)        (* -name value *)
| Bare (dashes name : bytes).              (* -name, for a boolean flag *)

Definition spell (x : spelling) : list bytes :=
  match x with
  | Joined d n v => [d ++ n ++ chr "=" :: v]
  | Apart d n v => [d ++ n; v]
  | Bare d n => [d ++ n]
  end.

Definition dashes_ok (d : bytes) : Prop := d = str "-" ∨ d = str "--".
(** A name that can be told from dashes and from a value. *)
Definition name_ok (n : bytes) : Prop := ∃ b rest, n = b :: rest ∧ b ≠ chr "-" ∧ b ≠ chr "=" ∧ (chr "=" ∉ rest).

(** An assignment takes the settings [s] to [s']. *)
Inductive assigns : spelling → S → S → Prop :=
| assigns_joined d n v f s s' : dashes_ok d → name_ok n → formal n = Some f → SetValue f v s = Some s' → assigns (Joined d n v) s s'
| assigns_apart d n v f s s' : dashes_ok d → name_ok n → formal n = Some f → IsBoolFlag f = false → SetValue f v s = Some s' → assigns (Apart d n v) s s'
| assigns_bare d n f s s' : dashes_ok d → name_ok n → formal n = Some f → IsBoolFlag f = true → SetValue f (str "true") s = Some s' → assigns (Bare d n) s s'.

Inductive assigns_all : list spelling → S → S → Prop :=
| all_nil s : assigns_all [] s s
| all_cons x xs s s' s'' : assigns x s s' → assigns_all xs s' s'' → assigns_all (x :: xs) s s''.

(** What follows the flags: the arguments, after [--] or not looking like a flag. *)
Definition tail_of (args rest : list bytes) : Prop :=
  rest = str "--" :: args ∨ rest = args ∧ match args with [] => True | a :: _ => classify a = NoFlag end.

(** ** Lemmas *)

Lemma cut_joined n v : name_ok n → cut_value (n ++ chr "=" :: v) = (n, Some v).
Proof.
  intros (b & rest & -> & _ & _ & H). cbn [app cut_value]. replace (index_byte (rest ++ chr "=" :: v) (chr "=")) with (Some (length rest)).
  - rewrite take_app_length. rewrite <- drop_drop, drop_app_length. done.
  - clear -H. induction rest as [|c rest IH]; [done|]. apply not_elem_of_cons in H as [Hc H].
    cbn [app index_byte length]. rewrite bool_decide_false by done. by rewrite <- IH.
Qed.

Lemma cut_bare n : name_ok n → cut_value n = (n, None).
Proof. intros (b & rest & -> & _ & _ & H). cbn [cut_value]. by rewrite (proj2 (index_byte_None _ _) H). Qed.

Lemma classify_flag d n : dashes_ok d → name_ok n → ∀ v, classify (d ++ n ++ v) = FlagText (n ++ v).
Proof.
  intros Hd (b & rest & -> & H1 & H2 & _) v. destruct Hd as [-> | ->]; cbn; [|done].
  rewrite (bool_decide_false (b = _)) by done. done.
Qed.

Lemma flag_text n v : name_ok n → match n ++ v with [] => true | b :: _ => bool_decide (b = chr "-" ∨ b = chr "=") end = false.
Proof. intros (b & rest & -> & H1 & H2 & _). cbn. by rewrite bool_decide_false by tauto. Qed.

Lemma parseOne_assigns x s s' rest : assigns x s s' → parseOne formal s (spell x ++ rest) = Seen s' rest.
Proof.
  intros [d n v f ? ? Hd Hn Hf Hv|d n v f ? ? Hd Hn Hf Hb Hv|d n f ? ? Hd Hn Hf Hb Hv]; cbn [spell app parseOne].
  - rewrite (classify_flag d n Hd Hn), flag_text by done. rewrite cut_joined, Hf by done. destruct (IsBoolFlag f); cbn [from_option id]; by rewrite Hv.
  - rewrite <- (app_nil_r n) at 1. rewrite (classify_flag d n Hd Hn), flag_text by done. rewrite app_nil_r, cut_bare, Hf, Hb by done. by rewrite Hv.
  - rewrite <- (app_nil_r n) at 1. rewrite (classify_flag d n Hd Hn), flag_text by done. rewrite app_nil_r, cut_bare, Hf, Hb by done. cbn [from_option]. by rewrite Hv.
Qed.

Lemma index_byte_split l c i : index_byte l c = Some i → l = take i l ++ c :: drop (i + 1) l ∧ (c ∉ take i l).
Proof.
  revert i. induction l as [|b l IH]; intros i; [done|]. cbn. case_bool_decide as E.
  - intros [= <-]. subst b. split; [done|apply not_elem_of_nil].
  - destruct (index_byte l c) as [j|]; [|done]. intros [= <-]. destruct (IH j eq_refl) as [H1 H2]. cbn. split; [by f_equal|].
    apply not_elem_of_cons. by split.
Qed.

(** The flag argument read backwards. *)
Lemma classify_inv a text : classify a = FlagText text → ∃ d, dashes_ok d ∧ a = d ++ text.
Proof.
  destruct a as [|x [|y rest]]; cbn; try done. repeat case_bool_decide; try done; intros [= <-]; subst.
  - exists (str "--"). by split; [right|].
  - exists (str "-"). by split; [left|].
Qed.

Lemma cut_inv text name value : match text with [] => true | b :: _ => bool_decide (b = chr "-" ∨ b = chr "=") end = false →
  cut_value text = (name, value) → name_ok name ∧ text = name ++ match value with Some v => chr "=" :: v | None => [] end.
Proof.
  destruct text as [|b rest]; [done|]. intros Hb%bool_decide_eq_false. cbn [cut_value]. destruct (index_byte rest _) as [i|] eqn:E; intros [= <- <-].
  - apply index_byte_split in E as [E1 E2]. split; [exists b, (take i rest); split_and!; try done; tauto|]. cbn. by f_equal.
  - apply index_byte_None in E. split; [exists b, rest; split_and!; try done; tauto|]. by rewrite app_nil_r.
Qed.

Lemma parseOne_seen s args s' args' : parseOne formal s args = Seen s' args' → ∃ x, assigns x s s' ∧ args = spell x ++ args'.
Proof.
  destruct args as [|a args]; [done|]. cbn. destruct (classify a) as [| |text] eqn:Ec; [done..|]. apply classify_inv in Ec as (d & Hd & ->).
  destruct (match text with [] => _ | _ => _ end) eqn:Et; [done|]. destruct (cut_value text) as [name value] eqn:Ev.
  destruct (cut_inv _ _ _ Et Ev) as [Hn ->]. destruct (formal name) as [f|] eqn:Ef; [|by case_bool_decide]. destruct (IsBoolFlag f) eqn:Eb.
  - destruct (SetValue f _ s) as [t|] eqn:Es; [|done]. intros [= <- <-]. destruct value as [v|].
    + exists (Joined d name v). split; [by econstructor|done].
    + exists (Bare d name). split; [by econstructor|]. by rewrite app_nil_r.
  - destruct value as [v|]; [|destruct args as [|v args]; [done|]]; (destruct (SetValue f v s) as [t|] eqn:Es; [|done]); intros [= <- <-].
    + exists (Joined d name v). split; [by econstructor|done].
    + exists (Apart d name v). split; [by econstructor|]. by rewrite app_nil_r.
Qed.

Lemma parseOne_done s args args' : parseOne formal s args = Done args' ↔ tail_of args' args.
Proof.
  unfold tail_of. destruct args as [|a args]; cbn.
  { split; [intros [= <-]; by right|]. intros [?|[<- _]]; done. }
  destruct (classify a) as [| |text] eqn:Ec.
  - split; [intros [= <-]; right; by rewrite Ec|]. intros [[= -> ->]|[<- _]]; [by vm_compute in Ec|done].
  - assert (E : a = str "--") by (destruct a as [|x [|y [|]]]; cbn in Ec; repeat case_bool_decide; by simplify_eq). subst a.
    split; [intros [= <-]; by left|]. intros [[= ->]|[<- H]]; [done|by vm_compute in H].
  - assert (N : a ≠ str "--") by (intros ->; by vm_compute in Ec). split.
    + repeat (case_match; try done).
    + intros [[= -> _]|[<- H]]; [done|congruence].
Qed.

Lemma parse_loop_sound n : ∀ s args s' args', parse_loop formal n s args = Some (Parsed s' args') →
  ∃ xs rest, args = (xs ≫= spell) ++ rest ∧ assigns_all xs s s' ∧ tail_of args' rest.
Proof.
  induction n as [|n IH]; intros s args s' args'; [done|]. cbn. destruct (parseOne formal s args) as [t rest|rest| |] eqn:E; [| |done..].
  - intros H. apply IH in H as (xs & rest' & -> & Hx & Ht). apply parseOne_seen in E as (x & H1 & ->). exists (x :: xs), rest'.
    split; [by rewrite bind_cons, app_assoc|]. split; [by econstructor|done].
  - intros [= <- <-]. apply parseOne_done in E. exists [], args. split_and!; try done. constructor.
Qed.

Lemma spell_length x : (1 ≤ length (spell x))%nat.
Proof. destruct x; cbn; lia. Qed.

Lemma parse_loop_complete xs : ∀ n s s' args rest, assigns_all xs s s' → tail_of args rest →
  (length ((xs ≫= spell) ++ rest) < n)%nat → parse_loop formal n s ((xs ≫= spell) ++ rest) = Some (Parsed s' args).
Proof.
  induction xs as [|x xs IH]; intros n s s' args rest Hx Ht Hn; (destruct n as [|n]; [lia|]); inversion Hx; subst.
  - cbn [mbind list_bind app parse_loop]. by rewrite (proj2 (parseOne_done s' rest args) Ht).
  - rewrite bind_cons, <- app_assoc in *. cbn [parse_loop]. rewrite (parseOne_assigns _ _ _ _ H1). apply IH; [done|done|].
    pose proof (spell_length x). rewrite length_app in Hn. lia.
Qed.

(** [Parse] takes at most one round per argument and one more. *)
Lemma parse_loop_total : ∀ n s args, (length args < n)%nat → parse_loop formal n s args ≠ None.
Proof.
  induction n as [|n IH]; intros s args Hn; [lia|]. cbn. destruct (parseOne formal s args) as [t rest|rest| |] eqn:E; [|done..].
  apply parseOne_seen in E as (x & _ & ->). apply IH. pose proof (spell_length x). rewrite length_app in Hn. lia.
Qed.

(** A command line is accepted exactly when it is spelled: assignments from left to right, then the arguments. *)
Lemma Parse_spelled s args s' args' : Parse formal s args = Parsed s' args' ↔
  ∃ xs rest, args = (xs ≫= spell) ++ rest ∧ assigns_all xs s s' ∧ tail_of args' rest.
Proof.
  unfold Parse. pose proof (parse_loop_total (Datatypes.S (length args)) s args ltac:(lia)) as Ht.
  destruct (parse_loop _ _ _ _) as [r|] eqn:E; [|done]. cbn. split.
  - intros ->. by eapply parse_loop_sound.
  - intros (xs & rest & -> & Hx & Hr). rewrite (parse_loop_complete _ _ _ _ _ _ Hx Hr) in E by lia. congruence.
Qed.
End spellings.
