(* ===== verification/Base64.v ===== *)
(** * Base64

    [base64.StdEncoding] of Go's standard library: the padded encoding that [encoding/json] uses for a [[]byte], and its decoding, which
    skips line ends and ignores the bits that padding leaves over. *)

From S2P Require Import Prelude.
From Stdlib Require Import ZArith Lia.
Local Open Scope Z_scope.

(** ** Definitions *)

Definition alphabet : bytes := str "ABCDEFGHIJKLMNOPQRSTUVWXYZabcdefghijklmnopqrstuvwxyz0123456789+/".
Definition pad : byte := chr "=".

(** The character of six bits, and back. *)
Definition enc6 (n : Z) : byte := default pad (alphabet !! Z.to_nat (n mod 64)).
Fixpoint index_in (l : bytes) (c : byte) : option Z :=
  match l with [] => None | x :: l => if bool_decide (x = c) then Some 0 else Z.succ <$> index_in l c end.
Definition dec6 (c : byte) : option Z := index_in alphabet c.

(** [Encode]: three bytes, as a number, give four characters. *)
Fixpoint base64_encode (s : bytes) : bytes :=
  match s with
  | a :: b :: c :: s =>
      let v := bval a * 2 ^ 16 + bval b * 2 ^ 8 + bval c in
      enc6 (v / 2 ^ 18) :: enc6 (v / 2 ^ 12) :: enc6 (v / 2 ^ 6) :: enc6 v :: base64_encode s
  | [a; b] => let v := bval a * 2 ^ 16 + bval b * 2 ^ 8 in [enc6 (v / 2 ^ 18); enc6 (v / 2 ^ 12); enc6 (v / 2 ^ 6); pad]
  | [a] => let v := bval a * 2 ^ 16 in [enc6 (v / 2 ^ 18); enc6 (v / 2 ^ 12); pad; pad]
  | [] => []
  end.

(** [decodeQuantum]: four characters, the last one or two of the last group may be padding. *)
Fixpoint quanta (s : bytes) : option bytes :=
  match s with
  | [] => Some []
  | c0 :: c1 :: c2 :: c3 :: s =>
      v0 ← dec6 c0; v1 ← dec6 c1;
      let v := v0 * 2 ^ 18 + v1 * 2 ^ 12 in
      if bool_decide (c2 = pad) then (if bool_decide (c3 = pad ∧ s = []) then Some [zbyte (v / 2 ^ 16)] else None) else
      v2 ← dec6 c2;
      let v := v + v2 * 2 ^ 6 in
      if bool_decide (c3 = pad) then (if bool_decide (s = []) then Some [zbyte (v / 2 ^ 16); zbyte (v / 2 ^ 8)] else None) else
      v3 ← dec6 c3;
      let v := v + v3 in
      rest ← quanta s; Some (zbyte (v / 2 ^ 16) :: zbyte (v / 2 ^ 8) :: zbyte v :: rest)
  | _ => None
  end.

Definition line_end (c : byte) : bool := bool_decide (bval c = 10 ∨ bval c = 13).
Definition base64_decode (s : bytes) : option bytes := quanta (filter (λ c, line_end c = false) s).

Example base64_samples :
  base64_encode (str "Man") = str "TWFu" ∧ base64_encode (str "Ma") = str "TWE=" ∧ base64_encode (str "M") = str "TQ=="
  ∧ base64_decode (str "TW" ++ zbyte 10 :: str "E=") = Some (str "Ma") ∧ base64_decode (str "TR==") = Some (str "M")
  ∧ base64_decode (str "TWE") = None ∧ base64_decode (str "TWE=TWE=") = None.
Proof. vm_compute. split_and!; reflexivity. Qed.

(** ** Lemmas *)

Lemma dec6_enc6 n : dec6 (enc6 n) = Some (n mod 64).
Proof.
  assert (H : Forall (λ n, dec6 (enc6 n) = Some (n mod 64)) (seqZ 0 64)) by decide_now.
  rewrite Forall_forall in H. specialize (H (n mod 64)). unfold enc6 in *. rewrite Zmod_mod in H. apply H, elem_of_seqZ.
  pose proof (Z.mod_pos_bound n 64). lia.
Qed.

Lemma enc6_in n : enc6 n ∈ alphabet.
Proof.
  assert (H : Forall (λ n, enc6 n ∈ alphabet) (seqZ 0 64)) by decide_now.
  rewrite Forall_forall in H. specialize (H (n mod 64)). unfold enc6 in *. rewrite Zmod_mod in H. apply H, elem_of_seqZ.
  pose proof (Z.mod_pos_bound n 64). lia.
Qed.

Lemma enc6_pad n : enc6 n ≠ pad.
Proof. pose proof (enc6_in n) as H. intros E. rewrite E in H. revert H. decide_now. Qed.

(** Three bytes at a time. *)
Lemma three_ind (P : bytes → Prop) : P [] → (∀ a, P [a]) → (∀ a b, P [a; b]) → (∀ a b c s, P s → P (a :: b :: c :: s)) → ∀ s, P s.
Proof.
  intros H0 H1 H2 H3. fix IH 1. intros [|a [|b [|c s]]]; [done|apply H1|apply H2|apply H3, IH].
Qed.

(** The characters of an encoding. *)
Lemma encode_chars s : Forall (λ c, c ∈ alphabet ++ [pad]) (base64_encode s).
Proof.
  assert (H : ∀ n, enc6 n ∈ alphabet ++ [pad]) by (intros n; apply elem_of_app; left; apply enc6_in).
  assert (Hp : pad ∈ alphabet ++ [pad]) by decide_now.
  induction s as [|a|a b|a b c s IH] using three_ind; cbn [base64_encode]; repeat (constructor; try done).
Qed.

Lemma encode_Forall (P : byte → Prop) `{∀ c, Decision (P c)} s : Forall P (alphabet ++ [pad]) → Forall P (base64_encode s).
Proof. intros HP. eapply Forall_impl; [apply encode_chars|]. intros c Hc. by eapply Forall_forall in HP. Qed.

Lemma length_encode s : zlen (base64_encode s) ≤ 2 * zlen s + 3.
Proof.
  unfold zlen. induction s as [|a|a b|a b c s IH] using three_ind; cbn [base64_encode length] in *; lia.
Qed.

Lemma byte_of_value b z : z mod 256 = bval b → zbyte z = b.
Proof. intros H. apply bval_inj. by rewrite bval_zbyte. Qed.

Lemma base64_decode_encode s : base64_decode (base64_encode s) = Some s.
Proof.
  unfold base64_decode. rewrite filter_all by (apply encode_Forall; [apply _|decide_now]).
  induction s as [|a|a b|a b c s IH] using three_ind; [done| | |]; cbn [base64_encode quanta]; rewrite !dec6_enc6; cbn [mbind option_bind];
    repeat (rewrite (bool_decide_false (enc6 _ = pad)) by apply enc6_pad).
  - rewrite (bool_decide_true (pad = pad)), bool_decide_true by done. pose proof (bval_range a). repeat f_equal.
    apply byte_of_value. Z.to_euclidean_division_equations; lia.
  - rewrite (bool_decide_true (pad = pad)), bool_decide_true by done.
    pose proof (bval_range a). pose proof (bval_range b). repeat f_equal; apply byte_of_value; Z.to_euclidean_division_equations; lia.
  - cbn [mbind option_bind].
    rewrite IH. cbn [mbind option_bind].
    pose proof (bval_range a). pose proof (bval_range b). pose proof (bval_range c). repeat f_equal; apply byte_of_value; Z.to_euclidean_division_equations; lia.
Qed.
