(* ===== verification/Json.v ===== *)
(** * JSON

    What the program uses of [encoding/json]: the strings that [Marshal] writes (with the escapes for HTML), the scanner and [Decoder.Decode] with
    its limit on nesting, and the conversion of values to [string], [int64] and [[]byte] fields.  Numbers keep their text.

    The theorem: a string that was written is read back as itself, with each byte that is not UTF-8 replaced by U+FFFD. *)

From S2P Require Import Prelude Strconv Hex GoStrings Utf8 Base64.
From Stdlib Require Import ZArith Lia.
Local Open Scope Z_scope.

(** ** Writing *)

Definition quote_byte : byte := zbyte 0x22.
Definition backslash : byte := zbyte 0x5C.

Definition html_safe (b : byte) : bool := (0x20 <=? bval b) && negb (bool_decide (b ∈ [quote_byte; backslash; chr "<"; chr ">"; chr "&"])).
Definition escape_ascii (b : byte) : bytes :=
  if html_safe b then [b]
  else if bool_decide (b = backslash ∨ b = quote_byte) then [backslash; b]
  else if bval b =? 8 then [backslash; chr "b"] else if bval b =? 12 then [backslash; chr "f"] else if bval b =? 10 then [backslash; chr "n"]
  else if bval b =? 13 then [backslash; chr "r"] else if bval b =? 9 then [backslash; chr "t"]
  else backslash :: str "u00" ++ hex_of_byte b.

(** [appendString], between the quotes. *)
Fixpoint escape_loop (fuel : nat) (s : bytes) : bytes :=
  match fuel, s with
  | S fuel, b :: r =>
      if bval b <? 0x80 then escape_ascii b ++ escape_loop fuel r else
      let '(c, width) := DecodeRune s in
      (if (c =? RuneError) && (width =? 1)%nat then backslash :: str "ufffd"
       else if (c =? 0x2028) || (c =? 0x2029) then backslash :: str "u202" ++ [hexdigit (Z.land c 0xF)] else take width s)
      ++ escape_loop fuel (drop width s)
  | _, _ => []
  end.
Definition escaped (s : bytes) : bytes := escape_loop (length s) s.
Definition json_quote (s : bytes) : bytes := quote_byte :: escaped s ++ [quote_byte].

(** ** Reading *)

(** [getu4], after [\u] *)
Definition u4 (s : bytes) : option Z :=
  match s with
  | a :: b :: c :: d :: _ => w ← unhex a; x ← unhex b; y ← unhex c; z ← unhex d; Some (w * 4096 + x * 256 + y * 16 + z)
  | _ => None
  end.
(** A second [\u] escape. *)
Definition next_u4 (s : bytes) : option Z :=
  match s with b :: u :: s => if bool_decide (b = backslash ∧ u = chr "u") then u4 s else None | _ => None end.

Definition simple_escape (e : byte) : option byte :=
  if bool_decide (e ∈ [quote_byte; backslash; chr "/"]) then Some e
  else if bool_decide (e = chr "b") then Some (zbyte 8) else if bool_decide (e = chr "f") then Some (zbyte 12)
  else if bool_decide (e = chr "n") then Some (zbyte 10) else if bool_decide (e = chr "r") then Some (zbyte 13)
  else if bool_decide (e = chr "t") then Some (zbyte 9) else None.

(** [utf16.DecodeRune], of surrogates. *)
Definition surrogates (r1 r2 : Z) : option Z :=
  if Utf8.between 0xD800 0xDBFF r1 && Utf8.between 0xDC00 0xDFFF r2 then Some (Z.lor (Z.shiftl (r1 - 0xD800) 10) (r2 - 0xDC00) + 0x10000) else None.

(** What is between the quotes, decoded, and what follows the string. *)
Fixpoint string_body (fuel : nat) (s : bytes) : option (bytes * bytes) :=
  let emit x rest := '(t, rest) ← match fuel with O => None | S fuel => string_body fuel rest end; Some (x ++ t, rest) in
  match s with
  | [] => None
  | b :: r =>
      if bool_decide (b = quote_byte) then Some ([], r)
      else if bool_decide (b = backslash) then
        match r with
        | [] => None
        | e :: r =>
            if bool_decide (e = chr "u") then
              c ← u4 r; let r := drop 4 r in
              if Utf8.between 0xD800 0xDFFF c then
                match n ← next_u4 r; surrogates c n with
                | Some dec => emit (EncodeRune dec) (drop 6 r)
                | None => emit (EncodeRune RuneError) r
                end
              else emit (EncodeRune c) r
            else x ← simple_escape e; emit [x] r
        end
      else if bval b <? 0x20 then None
      else if bval b <? 0x80 then emit [b] r
      else let '(c, width) := DecodeRune s in emit (EncodeRune c) (drop width s)
  end.

Inductive json := JNull | JBool (b : bool) | JNum (text : bytes) | JStr (s : bytes) | JArr (l : list json) | JObj (l : list (bytes * json)).

Definition is_space (b : byte) : bool := bool_decide (bval b ∈ [32; 9; 13; 10]).
Fixpoint skip_space (s : bytes) : bytes := match s with b :: r => if is_space b then skip_space r else s | [] => [] end.

Fixpoint span_digits (s : bytes) : bytes * bytes :=
  match s with
  | b :: r => if is_digit b then let '(ds, rest) := span_digits r in (b :: ds, rest) else ([], s)
  | [] => ([], [])
  end.

(** The parts of a number: the integer, the fraction and the exponent. *)
Definition integer_part (s : bytes) : option (bytes * bytes) :=
  match s with
  | b :: r => if bool_decide (b = chr "0") then Some ([b], r) else if is_digit b then Some (span_digits s) else None
  | [] => None
  end.
Definition nonempty_digits (pre s : bytes) : option (bytes * bytes) :=
  let '(ds, rest) := span_digits s in if bool_decide (ds = []) then None else Some (pre ++ ds, rest).
Definition fraction_part (s : bytes) : option (bytes * bytes) :=
  match s with b :: r => if bool_decide (b = chr ".") then nonempty_digits [b] r else Some ([], s) | [] => Some ([], []) end.
Definition exponent_part (s : bytes) : option (bytes * bytes) :=
  match s with
  | b :: r =>
      if bool_decide (b = chr "e" ∨ b = chr "E") then
        match r with
        | g :: r' => if bool_decide (g = chr "+" ∨ g = chr "-") then nonempty_digits [b; g] r' else nonempty_digits [b] r
        | [] => None
        end
      else Some ([], s)
  | [] => Some ([], [])
  end.
Definition number (s : bytes) : option (bytes * bytes) :=
  let '(sign, s) := match s with b :: r => if bool_decide (b = chr "-") then ([b], r) else ([], s) | [] => ([], []) end in
  '(i, s) ← integer_part s; '(f, s) ← fraction_part s; '(e, s) ← exponent_part s; Some (sign ++ i ++ f ++ e, s).

Definition literal (s : bytes) : option (json * bytes) :=
  if has_prefix s (str "true") then Some (JBool true, drop 4 s)
  else if has_prefix s (str "false") then Some (JBool false, drop 5 s)
  else if has_prefix s (str "null") then Some (JNull, drop 4 s) else None.

Definition maxNestingDepth : Z := 10000.

(** A value, the members of an object and the elements of an array up to the end; [d]: the objects and arrays that are open. *)
Fixpoint value (fuel : nat) (d : Z) (s : bytes) : option (json * bytes) :=
  match fuel with
  | O => None
  | S fuel =>
      match skip_space s with
      | [] => None
      | b :: r =>
          if bool_decide (b = quote_byte) then '(x, r) ← string_body (length r) r; Some (JStr x, r)
          else if bool_decide (b = chr "{") then
            if maxNestingDepth <=? d then None else
            match skip_space r with
            | e :: r' => if bool_decide (e = chr "}") then Some (JObj [], r') else '(l, r) ← members fuel (d + 1) r; Some (JObj l, r)
            | [] => None
            end
          else if bool_decide (b = chr "[") then
            if maxNestingDepth <=? d then None else
            match skip_space r with
            | e :: r' => if bool_decide (e = chr "]") then Some (JArr [], r') else '(l, r) ← elements fuel (d + 1) r; Some (JArr l, r)
            | [] => None
            end
          else if bool_decide (b = chr "-") || is_digit b then '(x, r) ← number (b :: r); Some (JNum x, r)
          else literal (b :: r)
      end
  end
with members (fuel : nat) (d : Z) (s : bytes) : option (list (bytes * json) * bytes) :=
  match fuel with
  | O => None
  | S fuel =>
      match skip_space s with
      | b :: r =>
          if bool_decide (b = quote_byte) then
            '(key, r) ← string_body (length r) r;
            match skip_space r with
            | c :: r =>
                if bool_decide (c = chr ":") then
                  '(v, r) ← value fuel d r;
                  match skip_space r with
                  | e :: r =>
                      if bool_decide (e = chr "}") then Some ([(key, v)], r)
                      else if bool_decide (e = chr ",") then '(l, r) ← members fuel d r; Some ((key, v) :: l, r) else None
                  | [] => None
                  end
                else None
            | [] => None
            end
          else None
      | [] => None
      end
  end
with elements (fuel : nat) (d : Z) (s : bytes) : option (list json * bytes) :=
  match fuel with
  | O => None
  | S fuel =>
      '(v, r) ← value fuel d s;
      match skip_space r with
      | e :: r =>
          if bool_decide (e = chr "]") then Some ([v], r)
          else if bool_decide (e = chr ",") then '(l, r) ← elements fuel d r; Some (v :: l, r) else None
      | [] => None
      end
  end.

(** [readValue] of a [Decoder] at its first value. *)
Definition read_value (s : bytes) : option json := fst <$> value (S (2 * length s)) 0 s.

Example read_samples :
  read_value (str " {") = None
  ∧ read_value (quote_byte :: str "a\u00e9\ud83d\ude00\ud83dx\n" ++ [quote_byte]) = Some (JStr (str "a" ++ map zbyte [0xc3; 0xa9; 0xf0; 0x9f; 0x98; 0x80; 0xef; 0xbf; 0xbd; 0x78; 0x0a]))
  ∧ read_value (str "[1, -0.5e+3 ,true,[],{}] x") = Some (JArr [JNum (str "1"); JNum (str "-0.5e+3"); JBool true; JArr []; JObj []])
  ∧ read_value (str "[01]") = None ∧ read_value (str "[1,]") = None.
Proof. vm_compute. split_and!; reflexivity. Qed.

(** ** Lemmas: strings *)

(** A rune of more than one byte depends on its bytes only. *)
Lemma DecodeRune_take s c w t : DecodeRune s = (c, w) → (2 ≤ w)%nat → DecodeRune (take w s ++ t) = (c, w).
Proof.
  intros H Hw. destruct s as [|b0 r]; [cbn in H; simplify_eq; lia|]. unfold DecodeRune in H.
  destruct (bval b0 <? 0x80) eqn:E0; [simplify_eq; lia|]. destruct (first_byte (bval b0)) as [[[n lo] hi]|] eqn:E; [|simplify_eq; lia].
  repeat case_match; simplify_eq; try lia; unfold DecodeRune; cbn [take app]; rewrite E0, E; repeat case_match; congruence.
Qed.

(** What the recognizer of strings reads, and the rest it makes of it. *)
Definition then_emit (x : bytes) (o : option (bytes * bytes)) : option (bytes * bytes) := '(t, rest) ← o; Some (x ++ t, rest).

Lemma string_body_ascii n b t : bval b < 0x80 → string_body (S n) (escape_ascii b ++ t) = then_emit [b] (string_body n t).
Proof. intros H. destruct b; first [reflexivity | exfalso; vm_compute in H; discriminate]. Qed.

Lemma string_body_rune n b t : 0x80 ≤ bval b →
  string_body (S n) (b :: t) = then_emit (EncodeRune (DecodeRune (b :: t)).1) (string_body n (drop (DecodeRune (b :: t)).2 (b :: t))).
Proof.
  intros H. assert (b ≠ quote_byte ∧ b ≠ backslash) as [H1 H2] by (split; intros ->; vm_compute in H; by apply H).
  cbn [string_body]. rewrite !bool_decide_false by done. rewrite !(proj2 (Z.ltb_ge _ _)) by lia. by destruct (DecodeRune _).
Qed.

(** A rune that is written as it is, and the escapes of the three that are not. *)
Lemma string_body_wide n b r c w t : 0x80 ≤ bval b → DecodeRune (b :: r) = (c, w) → 
  string_body (S n) ((if (c =? RuneError) && (w =? 1)%nat then backslash :: str "ufffd"
       else if (c =? 0x2028) || (c =? 0x2029) then backslash :: str "u202" ++ [hexdigit (Z.land c 0xF)] else take w (b :: r)) ++ t)
  = then_emit (EncodeRune c) (string_body n t).
Proof.
  intros Hb Hd. destruct (Z.eqb_spec c RuneError) as [->|Hc]; [destruct (Nat.eqb_spec w 1) as [->|Hw]; [reflexivity|]|].
  all: cbn [andb]; destruct (_ || _) eqn:E; [apply orb_true_iff in E as [E|E]; apply Z.eqb_eq in E; first [done|subst c; reflexivity]|].
  all: pose proof (DecodeRune_width (b :: r) ltac:(done)) as Hww; rewrite Hd in Hww; cbn [snd] in Hww.
  - assert (Hd2 := DecodeRune_take _ _ _ t Hd ltac:(lia)). destruct w as [|w]; [lia|]. cbn [take app] in *. rewrite string_body_rune, Hd2 by done. cbn [fst snd drop].
    rewrite drop_app_length'; [done|]. rewrite length_take. cbn [length] in Hww. lia.
  - assert (2 ≤ w)%nat.
    { destruct (decide (w = 1%nat)) as [->|]; [|lia]. exfalso. unfold DecodeRune in Hd. rewrite (proj2 (Z.ltb_ge _ _)) in Hd by lia. repeat case_match; simplify_eq. }
    assert (Hd2 := DecodeRune_take _ _ _ t Hd ltac:(lia)). destruct w as [|w]; [lia|]. cbn [take app] in *. rewrite string_body_rune, Hd2 by done. cbn [fst snd drop].
    rewrite drop_app_length'; [done|]. rewrite length_take. cbn [length] in Hww. lia.
Qed.

Lemma string_body_escaped n : ∀ s t m, (length s ≤ n)%nat → (length s ≤ m)%nat →
  string_body m (escape_loop n s ++ quote_byte :: t) = Some (flat_map EncodeRune (runes s), t).
Proof.
  induction n as [|n IH]; intros s t m Hn Hm; (destruct s as [|b r]; [cbn [escape_loop app]; by destruct m|]); [cbn in Hn; lia|].
  destruct m as [|m]; [cbn in Hm; lia|]. cbn [length] in Hn, Hm. rewrite runes_cons by done. cbn [escape_loop flat_map].
  destruct (Z.ltb_spec (bval b) 0x80) as [Hb|Hb].
  - rewrite <- app_assoc, string_body_ascii, DecodeRune_ascii by done. cbn [fst snd drop]. rewrite drop_0, IH by lia.
    pose proof (bval_range b). by rewrite EncodeRune_ascii, zbyte_bval by lia.
  - pose proof (DecodeRune_width (b :: r) ltac:(done)) as Hw. destruct (DecodeRune (b :: r)) as [c w] eqn:Hd. cbn [fst snd] in *.
    rewrite <- app_assoc, (string_body_wide _ _ _ _ _ _ Hb Hd), IH by (rewrite length_drop; cbn [length]; lia). done.
Qed.

(** What is written is no shorter than the string. *)
Lemma DecodeRune_small s : ((DecodeRune s).2 ≤ 4)%nat.
Proof. unfold DecodeRune. repeat case_match; cbn; lia. Qed.

Lemma escape_length n : ∀ s, (length s ≤ n)%nat → (length s ≤ length (escape_loop n s))%nat.
Proof.
  induction n as [|n IH]; intros s Hn; [done|]. destruct s as [|b r]; [done|]. cbn [length] in Hn. cbn [escape_loop].
  destruct (bval b <? 0x80).
  - assert (1 ≤ length (escape_ascii b))%nat by (unfold escape_ascii; repeat case_match; cbn; lia).
    rewrite length_app. specialize (IH r ltac:(lia)). cbn [length]. lia.
  - pose proof (DecodeRune_width (b :: r) ltac:(done)) as Hw. pose proof (DecodeRune_small (b :: r)) as Hw4. destruct (DecodeRune (b :: r)) as [c w]. cbn [snd] in *.
    rewrite length_app. specialize (IH (drop w (b :: r))). rewrite length_drop in IH. cbn [length] in *. specialize (IH ltac:(lia)).
    match goal with |- context [(length ?x + _)%nat] => assert (w ≤ length x)%nat; [|lia] end.
    repeat case_match; [cbn; lia..|]. rewrite length_take. cbn [length]. lia.
Qed.

Lemma escape_bound n : ∀ s, (length (escape_loop n s) ≤ 6 * length s)%nat.
Proof.
  induction n as [|n IH]; intros s; [cbn; lia|]. destruct s as [|b r]; [cbn; lia|]. cbn [escape_loop]. destruct (bval b <? 0x80).
  - assert (length (escape_ascii b) ≤ 6)%nat by (unfold escape_ascii, hex_of_byte; repeat case_match; cbn; lia).
    rewrite length_app. specialize (IH r). cbn [length]. lia.
  - pose proof (DecodeRune_width (b :: r) ltac:(done)) as Hw. destruct (DecodeRune (b :: r)) as [c w]. cbn [snd] in *.
    rewrite length_app. specialize (IH (drop w (b :: r))). rewrite length_drop in IH. cbn [length] in *.
    match goal with |- context [(length ?x + _)%nat] => assert (length x ≤ 6 * w)%nat; [|lia] end.
    repeat case_match; [cbn; lia..|]. rewrite length_take. cbn [length]. lia.
Qed.

Lemma json_quote_bound s : zlen (json_quote s) ≤ 6 * zlen s + 2.
Proof. unfold json_quote, escaped, zlen. cbn [length]. rewrite length_app. pose proof (escape_bound (length s) s). cbn [length]. lia. Qed.

(** A string that needs no escape. *)
Definition clean (b : byte) : bool := (bval b <? 0x80) && html_safe b.

Lemma escaped_clean s : Forall (λ b, clean b = true) s → escaped s = s.
Proof.
  unfold escaped. induction 1 as [|b s [H1 H2]%andb_prop _ IH]; [done|]. cbn [length escape_loop]. rewrite H1. unfold escape_ascii. by rewrite H2, IH.
Qed.

Lemma valid_clean s : Forall (λ b, clean b = true) s → Map Some s = s.
Proof.
  intros H. apply Map_ascii; eapply Forall_impl; try exact H; [|done]. intros b [Hb _]%andb_prop. by apply Z.ltb_lt.
Qed.

(** The strings that are read back. *)
Definition valid_utf8 (s : bytes) : bytes := Map Some s.

Lemma json_string_read s t : let r := escaped s ++ quote_byte :: t in string_body (length r) r = Some (valid_utf8 s, t).
Proof.
  cbn zeta. apply string_body_escaped; [done|]. pose proof (escape_length _ s (le_n _)). unfold escaped. rewrite length_app. lia.
Qed.

(** ** Lemmas: the fuel is enough *)

Lemma skip_space_length s : (length (skip_space s) ≤ length s)%nat.
Proof. induction s as [|b s IH]; cbn; [done|]. case_match; cbn; lia. Qed.

(** A round of the recognizer: a failure, the end, or a rune and what follows it. *)
Lemma string_body_step b t : (∀ n, string_body n (b :: t) = None) ∨ (∀ n, string_body n (b :: t) = Some ([], t))
  ∨ ∃ x rest, (length rest ≤ length t)%nat ∧ (∀ n, string_body (S n) (b :: t) = then_emit x (string_body n rest)) ∧ string_body 0 (b :: t) = None.
Proof.
  assert (D : ∀ x rest, (length rest ≤ length t)%nat → (∀ n, string_body n (b :: t) =
      then_emit x (match n with O => None | S n => string_body n rest end)) → ∃ x rest, (length rest ≤ length t)%nat ∧
      (∀ n, string_body (S n) (b :: t) = then_emit x (string_body n rest)) ∧ string_body 0 (b :: t) = None)
    by (intros x rest Hl H; exists x, rest; split; [done|]; split; [intros n; apply (H (S n))|apply (H 0%nat)]).
  destruct (decide (b = quote_byte)) as [->|Hq]; [right; left; by intros []|]. destruct (decide (b = backslash)) as [->|Hb].
  - destruct t as [|e r]; [left; by intros []|]. destruct (decide (e = chr "u")) as [->|He].
    + destruct (u4 r) as [c|] eqn:E; [|left; intros []; cbn; by rewrite E].
      assert (L : (length (drop 4 r) ≤ length (chr "u" :: r))%nat) by (cbn [length]; rewrite length_drop; lia). right; right.
      destruct (Utf8.between 0xD800 0xDFFF c) eqn:Es; [destruct (n ← next_u4 (drop 4 r); surrogates c n) as [dec|] eqn:En|].
      * apply (D (EncodeRune dec) (drop 6 (drop 4 r))); [rewrite length_drop; lia|]. intros []; cbn; rewrite E; cbn [mbind option_bind]; rewrite Es, En; reflexivity.
      * apply (D (EncodeRune RuneError) (drop 4 r)); [done|]. intros []; cbn; rewrite E; cbn [mbind option_bind]; rewrite Es, En; reflexivity.
      * apply (D (EncodeRune c) (drop 4 r)); [done|]. intros []; cbn; rewrite E; cbn [mbind option_bind]; rewrite Es; reflexivity.
    + destruct (simple_escape e) as [x|] eqn:E; [|left; intros []; cbn [string_body]; rewrite (bool_decide_false (backslash = _)), (bool_decide_true (backslash = _)), (bool_decide_false (e = _)) by done; rewrite E; reflexivity].
      right; right. apply (D [x] r); [cbn; lia|]. intros []; cbn [string_body]; rewrite (bool_decide_false (backslash = _)), (bool_decide_true (backslash = _)), (bool_decide_false (e = _)) by done; rewrite E; reflexivity.
  - destruct (bval b <? 0x20) eqn:E1; [left; intros []; cbn [string_body]; rewrite !bool_decide_false by done; by rewrite E1|].
    destruct (bval b <? 0x80) eqn:E2.
    + right; right. apply (D [b] t); [done|]. intros []; cbn [string_body]; rewrite !bool_decide_false by done; rewrite E1, E2; reflexivity.
    + right; right. pose proof (DecodeRune_width (b :: t) ltac:(done)) as Hw. destruct (DecodeRune (b :: t)) as [c w] eqn:Ed. cbn [snd] in Hw.
      apply (D (EncodeRune c) (drop w (b :: t))); [rewrite length_drop; cbn [length] in *; lia|].
      intros []; cbn [string_body]; rewrite !bool_decide_false by done; rewrite E1, E2, Ed; reflexivity.
Qed.

Lemma string_body_length n : ∀ s x r, string_body n s = Some (x, r) → (length r < length s)%nat.
Proof.
  induction n as [|n IH]; intros [|b t] x r H; try done; destruct (string_body_step b t) as [E|[E|(y & rest & Hl & E & E0)]]; rewrite ?E, ?E0 in H; simplify_eq; cbn [length]; try lia.
  unfold then_emit in H. destruct (string_body n rest) as [[z r']|] eqn:Er; [|done]. injection H as _ <-. apply IH in Er. lia.
Qed.

(** One unit per byte is enough. *)
Lemma string_body_fuel n : ∀ m s, (length s ≤ n)%nat → (length s ≤ m)%nat → string_body n s = string_body m s.
Proof.
  induction n as [|n IH]; intros m [|b t] Hn Hm; cbn [length] in Hn, Hm; try lia; [by destruct m..|]. destruct m as [|m]; [lia|].
  destruct (string_body_step b t) as [E|[E|(y & rest & Hl & E & _)]]; rewrite !E; [done..|]. f_equal. apply IH; lia.
Qed.

Lemma span_digits_length s : (length (span_digits s).2 ≤ length s)%nat ∧ ((span_digits s).1 ≠ [] → (length (span_digits s).2 < length s)%nat).
Proof.
  induction s as [|b s IH]; [by split|]. cbn. destruct (is_digit b); [|by split]. destruct (span_digits s) as [ds r]. cbn in *. split; intros; lia.
Qed.

Lemma nonempty_digits_length pre s x r : nonempty_digits pre s = Some (x, r) → (length r < length s)%nat.
Proof.
  unfold nonempty_digits. pose proof (span_digits_length s) as [_ H]. destruct (span_digits s) as [ds r']. cbn in H. case_bool_decide; [done|]. intros [= _ <-]. by apply H.
Qed.

Lemma number_length s x r : number s = Some (x, r) → (length r < length s)%nat.
Proof.
  unfold number. intros H. destruct (match s with [] => ([], []) | b :: r => if bool_decide (b = chr "-") then ([b], r) else ([], s) end) as [sign t] eqn:Es.
  assert (Ht : (length t ≤ length s)%nat) by (destruct s; [|case_bool_decide]; simplify_eq; cbn; lia).
  apply bind_Some in H as ([i s1] & H1 & ([f s2] & H2 & ([e s3] & H3 & [= _ <-])%bind_Some)%bind_Some).
  assert (L1 : (length s1 < length t)%nat).
  { unfold integer_part in H1. destruct t as [|b t]; [done|]. case_bool_decide; [simplify_eq; cbn; lia|]. destruct (is_digit b) eqn:Eb; [|done].
    cbn in H1. rewrite Eb in H1. pose proof (span_digits_length t) as [L _]. destruct (span_digits t) as [ds r0]. simplify_eq. cbn in *. lia. }
  assert (L2 : (length s2 ≤ length s1)%nat).
  { unfold fraction_part in H2. destruct s1 as [|b s1]; [by simplify_eq|]. case_bool_decide; [|by simplify_eq]. apply nonempty_digits_length in H2. cbn. lia. }
  assert (L3 : (length s3 ≤ length s2)%nat).
  { unfold exponent_part in H3. destruct s2 as [|b s2]; [by simplify_eq|]. case_bool_decide; [|by simplify_eq]. destruct s2 as [|g s2]; [done|].
    case_bool_decide; apply nonempty_digits_length in H3; cbn in *; lia. }
  lia.
Qed.

Lemma literal_length s v r : literal s = Some (v, r) → (length r < length s)%nat.
Proof.
  unfold literal. intros H. assert (P : ∀ p, has_prefix s p = true → (length p ≤ length s)%nat).
  { intros p [t ->]%has_prefix_spec. rewrite length_app. lia. }
  repeat case_match; simplify_eq; rewrite length_drop; match goal with E : has_prefix _ _ = true |- _ => apply P in E; cbn in E end; lia.
Qed.

(** Collect what was read into inequalities between the lengths. *)
Ltac lengths := repeat match goal with
  | H : string_body _ _ = Some _ |- _ => apply string_body_length in H
  | H : number _ = Some _ |- _ => apply number_length in H
  | H : literal _ = Some _ |- _ => apply literal_length in H
  | H : skip_space ?t = _ |- _ => let L := fresh in pose proof (skip_space_length t) as L; rewrite H in L; clear H
  | IH : (∀ d s x r, ?f d s = Some (x, r) → _), H : ?f _ _ = Some _ |- _ => apply IH in H
  end; cbn [length] in *.

Lemma parse_length n : (∀ d s v r, value n d s = Some (v, r) → (length r < length s)%nat)
  ∧ (∀ d s l r, members n d s = Some (l, r) → (length r < length s)%nat) ∧ (∀ d s l r, elements n d s = Some (l, r) → (length r < length s)%nat).
Proof.
  induction n as [|n (IHv & IHm & IHe)]; [by split_and!|]. split_and!; intros d s v r H; cbn [value members elements] in H.
  - destruct (skip_space s) as [|b t] eqn:Es; [done|]. repeat (case_bool_decide || case_match); simplify_eq;
      try (apply bind_Some in H as ([x t'] & H & [= _ <-])); lengths; lia.
  - destruct (skip_space s) as [|b t] eqn:Es; [done|]. case_bool_decide; [|done]. apply bind_Some in H as ([key t1] & H1 & H).
    destruct (skip_space t1) as [|c t2] eqn:E1; [done|]. case_bool_decide; [|done]. apply bind_Some in H as ([x t3] & H3 & H).
    destruct (skip_space t3) as [|e t4] eqn:E3; [done|]. repeat case_bool_decide; simplify_eq; try (apply bind_Some in H as ([y t'] & H & [= _ <-])); lengths; lia.
  - apply bind_Some in H as ([x t1] & H1 & H). destruct (skip_space t1) as [|e t2] eqn:E1; [done|].
    repeat case_bool_decide; simplify_eq; try (apply bind_Some in H as ([y t'] & H & [= _ <-])); lengths; lia.
Qed.

(** Two units of fuel per byte are enough, and one more. *)
Lemma parse_fuel n : ∀ m d s,
  ((2 * length s < n)%nat → (2 * length s < m)%nat → value n d s = value m d s)
  ∧ ((2 * length s < n)%nat → (2 * length s < m)%nat → members n d s = members m d s)
  ∧ ((2 * length s + 1 < n)%nat → (2 * length s + 1 < m)%nat → elements n d s = elements m d s).
Proof.
  induction n as [|n IH]; intros m d s; [split_and!; lia|]. destruct m as [|m]; [split_and!; lia|]. split_and!; intros Hn Hm; cbn [value members elements].
  - destruct (skip_space s) as [|b t] eqn:Es; [done|]. destruct (IH m (d + 1) t) as (_ & IHm & IHe). lengths.
    repeat (case_bool_decide || case_match); try done; [rewrite IHm by lia|rewrite IHe by lia]; done.
  - destruct (skip_space s) as [|b t] eqn:Es; [done|]. case_bool_decide; [|done]. destruct (string_body _ t) as [[key t1]|] eqn:E1; [|done]. cbn [mbind option_bind].
    destruct (skip_space t1) as [|c t2] eqn:E2; [done|]. case_bool_decide; [|done]. destruct (IH m d t2) as (IHv & _ & _). lengths. rewrite IHv by lia.
    destruct (value m d t2) as [[v t3]|] eqn:E3; [|done]. apply parse_length in E3. cbn [mbind option_bind]. destruct (skip_space t3) as [|e t4] eqn:E4; [done|].
    lengths. destruct (IH m d t4) as (_ & IHm & _). rewrite IHm by lia. done.
  - destruct (IH m d s) as (IHv & _ & _). rewrite IHv by lia. destruct (value m d s) as [[v t]|] eqn:Ev; [|done]. apply parse_length in Ev. cbn [mbind option_bind].
    destruct (skip_space t) as [|e t1] eqn:E1; [done|]. lengths. destruct (IH m d t1) as (_ & _ & IHe). rewrite IHe by lia. done.
Qed.

Lemma read_value_fuel n s : (2 * length s < n)%nat → read_value s = fst <$> value n 0 s.
Proof. intros H. unfold read_value. f_equal. apply parse_fuel; lia. Qed.
