(* ===== verification/Registry.v ===== *)
(** * Package [tracker]: the registry API

    Models [internal/tracker/registry.go]: reading, registering and taking down torrents, the search with
    its pagination, and the downloads.  Handlers are functions of the configuration, the request, the run
    (which database calls succeed, the engine's orders, the clock) and the world; replies are what they
    hand to the JSON encoder or to [http.Error].  The [LIKE] operator of the engine is a parameter.

    The theorems: a takedown removes and blocks every hash of the torrent and nothing else, whatever call
    fails; registering keeps what the registry counted; consecutive pages of a search have every result
    once, in order, when the order of the results has no ties (and not always when it has); and the file
    name in a download's header cannot break out of its quotes. *)

From S2P Require Import Prelude Strconv Hex GoStrings Utf8 NetAddr Bencode TrackerState UsageSync Recognize Database Announce Codec Metainfo.
From Stdlib Require Import ZArith Lia.
Local Open Scope Z_scope.

(** ** Requests, replies and runs *)

Record PostBody := mkPost {
  PInfoHash : bytes; PV1InfoHash : bytes; PName : bytes; PDescription : bytes; PPublisher : bytes; PLicense : bytes;
  PSize : Z; PCategory : bytes; PTags : bytes; PTorrentData : bytes }.

(** [Body] is what the JSON decoder makes of the request's body. *)
Record ApiRequest := mkApi { Method : bytes; ApiQuery : Values; KeyHeader : bytes; Body : option PostBody }.

Record RegistryConfig := mkRegistryConfig { testRegistryKey : bytes; env_REGISTRY_KEY : bytes }.

Record registryEntry := mkEntry {
  EInfoHash : bytes; EV1InfoHash : bytes; EName : bytes; EVerified : bool; ECompletions : Z; EDescription : bytes;
  EPublisher : bytes; ELicense : bytes; ESize : Z; ECategory : bytes; ETags : bytes; Seeders : Z; Leechers : Z }.

Inductive response :=
| HttpError (msg : bytes) (code : Z)
| Entry (e : registryEntry)
| Entries (total : Z) (l : list registryEntry)
| StatusReply (status : bytes) (code : Z)
| TorrentFile (filename data : bytes)
| MetaReply (m : TorrentMeta).

(** Which calls succeed; what the engine and the runtime choose. *)
Record ApiRun := mkApiRun {
  lookup_ok : bool;                      (* the SELECT *)
  exec_ok : bool;                        (* the INSERT or DELETE on [registry] *)
  purge_ok : bytes → bool;               (* DELETE FROM peers, by hash *)
  insert_ok : bytes → bool;              (* INSERT INTO blocklist, by hash *)
  count_rows_ok : bool;                  (* SELECT COUNT *)
  api_rows : engine_order;
  created_order : gmap bytes RegRow → list (bytes * RegRow);      (* ORDER BY created_at DESC *)
  completions_order : gmap bytes RegRow → list (bytes * RegRow);  (* ORDER BY completions DESC *)
  slice_sort : list registryEntry → list registryEntry;           (* sort.Slice by seeders *)
  read_rows : list (bytes * RegRow) → list (bytes * RegRow);      (* the rows that rows.Next and Scan deliver *)
  unix_now : Z }.

(** ** Authorization *)

Definition registryKey (c : RegistryConfig) : bytes :=
  if bool_decide (testRegistryKey c ≠ []) then testRegistryKey c else env_REGISTRY_KEY c.

Definition registryAuthorized (c : RegistryConfig) (r : ApiRequest) : bool :=
  let key := registryKey c in if bool_decide (key = []) then true else bool_decide (KeyHeader r = key).

(** ** Reading *)

Definition scanRegistryEntry (row : bytes * RegRow) : registryEntry :=
  let '(k, r) := row in
  mkEntry k (v1_info_hash r) (reg_name r) (verified r) (completions r) (description r) (publisher r) (license r) (reg_size r)
    (category r) (tags r) 0 0.

Definition fill_entry (s : SwarmState) (e : registryEntry) : registryEntry :=
  let '(a, b) := GetCounts s (EInfoHash e) in
  let '(a, b) := if bool_decide (EV1InfoHash e ≠ [] ∧ EV1InfoHash e ≠ EInfoHash e)
                 then let '(a', b') := GetCounts s (EV1InfoHash e) in (wrap64 (a + a'), wrap64 (b + b')) else (a, b) in
  mkEntry (EInfoHash e) (EV1InfoHash e) (EName e) (EVerified e) (ECompletions e) (EDescription e) (EPublisher e) (ELicense e)
    (ESize e) (ECategory e) (ETags e) a b.
Definition fillSwarmStats (s : SwarmState) (es : list registryEntry) : list registryEntry := map (fill_entry s) es.

Definition api_get (run : ApiRun) (r : ApiRequest) (w : World) : response :=
  let hash := Get (ApiQuery r) (str "info_hash") in
  if bool_decide (hash = []) then HttpError (str "Missing info_hash") 400 else
  match query_registry (lookup_ok run) (api_rows run) (db w) hash with
  | NoRows => HttpError (str "Not found") 404
  | QueryError => HttpError (str "Database error") 500
  | Row row => Entry (fill_entry (swarm w) (scanRegistryEntry row))
  end.

(** ** Registering *)

(** The row that [INSERT ... ON CONFLICT(info_hash) DO UPDATE] leaves, over the one there was. *)
Definition upsert (b : PostBody) (now : Z) (old : option RegRow) : RegRow :=
  match old with
  | None => mkReg (PV1InfoHash b) (PName b) now false 0 (PDescription b) (PPublisher b) (PLicense b) (PSize b) (PCategory b) (PTags b)
              (PTorrentData b)
  | Some r => mkReg (PV1InfoHash b) (PName b) (created r) (verified r) (completions r) (PDescription b) (PPublisher b) (PLicense b)
                (PSize b) (PCategory b) (PTags b) (PTorrentData b)
  end.

Definition with_registry (d : Database) (reg : gmap bytes RegRow) : Database := mkDB reg (blocklist d) (peers d).

Definition api_post (c : RegistryConfig) (run : ApiRun) (r : ApiRequest) (w : World) : response * World :=
  if negb (registryAuthorized c r) then (HttpError (str "Unauthorized") 401, w) else
  match Body r with
  | None => (HttpError (str "Invalid JSON body") 400, w)
  | Some b =>
      if bool_decide (PInfoHash b = [] ∨ PName b = []) then (HttpError (str "Missing info_hash or name") 400, w) else
      if negb (exec_ok run) then (HttpError (str "Database error") 500, w) else
      let reg := registry (db w) in
      (StatusReply (str "created") 201,
       mkWorld (swarm w) (with_registry (db w) (<[PInfoHash b := upsert b (unix_now run) (reg !! PInfoHash b)]> reg)))
  end.

(** ** Taking down *)

(** The hash that was named, then the row's two: the nonempty ones, without repetition. *)
Definition add_hash (hashes : list bytes) (h : bytes) : list bytes :=
  if bool_decide (h ≠ [] ∧ h ∉ hashes) then hashes ++ [h] else hashes.
Definition takedown_hashes (hash v2 v1 : bytes) : list bytes := foldl add_hash [] [hash; v2; v1].

Definition delete_swarm (h : bytes) (s : SwarmState) : SwarmState := mkState (delete h (Peers s)) (Users s).
Definition delete_peer_rows (h : bytes) (d : Database) : Database :=
  mkDB (registry d) (blocklist d) (filter (λ kv, kv.1.1 ≠ h) (peers d)).
(** [INSERT OR IGNORE] *)
Definition insert_block (h : bytes) (row : BlockRow) (d : Database) : Database :=
  mkDB (registry d) (match blocklist d !! h with Some _ => blocklist d | None => <[h := row]> (blocklist d) end) (peers d).

Fixpoint takedown_loop (run : ApiRun) (why : bytes) (hashes : list bytes) (w : World) : bool * World :=
  match hashes with
  | [] => (true, w)
  | h :: rest =>
      if negb (purge_ok run h) then (false, w) else
      let w := mkWorld (delete_swarm h (swarm w)) (delete_peer_rows h (db w)) in
      if negb (insert_ok run h) then (false, w) else
      takedown_loop run why rest (mkWorld (swarm w) (insert_block h (mkBlock why (unix_now run)) (db w)))
  end.

(** [v2] and [v1], left empty when there is no row; an error other than [sql.ErrNoRows]. *)
Definition row_hashes (found : scan (bytes * RegRow)) : bytes * bytes :=
  match found with Row (k, row) => (k, v1_info_hash row) | _ => ([], []) end.

Definition query_failed {A} (found : scan A) : bool := match found with QueryError => true | _ => false end.

Definition api_delete (c : RegistryConfig) (run : ApiRun) (r : ApiRequest) (w : World) : response * World :=
  if negb (registryAuthorized c r) then (HttpError (str "Unauthorized") 401, w) else
  let hash := Get (ApiQuery r) (str "info_hash") in
  if bool_decide (hash = []) then (HttpError (str "Missing info_hash") 400, w) else
  let why := Get (ApiQuery r) (str "reason") in
  let found := query_registry (lookup_ok run) (api_rows run) (db w) hash in
  if query_failed found then (HttpError (str "Internal error") 500, w) else
  let hashes := takedown_hashes hash (fst (row_hashes found)) (snd (row_hashes found)) in
  if negb (exec_ok run) then (HttpError (str "Internal error") 500, w) else
  let w := mkWorld (swarm w) (with_registry (db w) (filter (λ kv, ¬ matches hash kv) (registry (db w)))) in
  match takedown_loop run why hashes w with
  | (true, w) => (StatusReply (str "deleted") 200, w)
  | (false, w) => (HttpError (str "Internal error") 500, w)
  end.

Definition HandleAPI (c : RegistryConfig) (run : ApiRun) (r : ApiRequest) (w : World) : response * World :=
  if bool_decide (Method r = str "GET") then (api_get run r w, w)
  else if bool_decide (Method r = str "POST") then api_post c run r w
  else if bool_decide (Method r = str "DELETE") then api_delete c run r w
  else (HttpError (str "Method not allowed") 405, w).

(** ** Downloads *)

(** Control characters, the double quote, the backslash and DEL are dropped. *)
Definition sanitize_rune (r : Z) : option Z :=
  if (r <? 0x20) || (r =? 0x22) || (r =? 0x5C) || (r =? 0x7F) then None else Some r.
Definition sanitizeFilename (name : bytes) : bytes := Map sanitize_rune name.

Definition content_disposition (name : bytes) : bytes :=
  str "attachment; filename=" ++ zbyte 0x22 :: sanitizeFilename name ++ str ".torrent" ++ [zbyte 0x22].

Definition HandleTorrentDownload (run : ApiRun) (r : ApiRequest) (w : World) : response :=
  let hash := Get (ApiQuery r) (str "info_hash") in
  if bool_decide (hash = []) then HttpError (str "Missing info_hash") 400 else
  match query_registry (lookup_ok run) (api_rows run) (db w) hash with
  | Row (_, row) => if bool_decide (torrent_data row = []) then HttpError (str "Torrent not found") 404
                    else TorrentFile (content_disposition (reg_name row)) (torrent_data row)
  | _ => HttpError (str "Torrent not found") 404
  end.

(** ** Searching *)

Section search.
Context (like : bytes → bytes → bool).   (* [text LIKE pattern] *)

(** The conditions of the WHERE clause. *)
Definition percent : bytes := str "%".
Definition selects (q : Values) (kv : bytes * RegRow) : Prop :=
  let row := kv.2 in
  (Get q (str "q") = [] ∨ like (reg_name row) (percent ++ Get q (str "q") ++ percent) = true)
  ∧ (Get q (str "category") = [] ∨ category row = Get q (str "category"))
  ∧ (Get q (str "publisher") = [] ∨ publisher row = Get q (str "publisher"))
  ∧ (Get q (str "tags") = [] ∨ like (tags row) (percent ++ Get q (str "tags") ++ percent) = true).
#[export] Instance selects_dec q kv : Decision (selects q kv).
Proof. unfold selects. apply _. Defined.

Definition search_limit (q : Values) : Z :=
  let v := Get q (str "limit") in
  if bool_decide (v = []) then 50 else
  match atoi v with Some l => if 0 <? l then if 100 <? l then 100 else l else 50 | None => 50 end.
Definition search_offset (q : Values) : Z :=
  let v := Get q (str "offset") in
  if bool_decide (v = []) then 0 else match atoi v with Some o => if 0 <=? o then o else 0 | None => 0 end.

Definition seedersSortScanCap : nat := 1000.

(** [results[start:end]] *)
Definition page {A} (offset limit : Z) (results : list A) : list A :=
  let n := zlen results in
  let start := if n <? offset then n else offset in
  let end_ := wrap64 (start + limit) in
  let end_ := if n <? end_ then n else end_ in
  slice results (Z.to_nat start) (Z.to_nat end_).

Definition matching (q : Values) (d : Database) : gmap bytes RegRow := filter (selects q) (registry d).

Definition HandleSearch (run : ApiRun) (r : ApiRequest) (w : World) : response :=
  if bool_decide (Method r ≠ str "GET") then HttpError (str "Method not allowed") 405 else
  let q := ApiQuery r in
  let limit := search_limit q in
  let offset := search_offset q in
  let sort := Get q (str "sort") in
  if negb (count_rows_ok run) then HttpError (str "Database error") 500 else
  let total := Z.of_nat (size (matching q (db w))) in
  if negb (lookup_ok run) then HttpError (str "Database error") 500 else
  if bool_decide (sort = str "seeders") then
    let rows := take seedersSortScanCap (created_order run (matching q (db w))) in
    let results := slice_sort run (fillSwarmStats (swarm w) (map scanRegistryEntry (read_rows run rows))) in
    Entries total (page offset limit results)
  else
    let order := if bool_decide (sort = str "completions") then completions_order run else created_order run in
    let rows := take (Z.to_nat limit) (drop (Z.to_nat offset) (order (matching q (db w)))) in
    Entries total (fillSwarmStats (swarm w) (map scanRegistryEntry (read_rows run rows))).
End search.

(** ** Metadata *)

Definition HandleMetadata `{B : Bencoder} (order : list (bytes * tree) → list (bytes * tree)) (run : ApiRun) (r : ApiRequest) (w : World) : response :=
  if bool_decide (Method r ≠ str "GET") then HttpError (str "Method not allowed") 405 else
  let hash := Get (ApiQuery r) (str "info_hash") in
  if bool_decide (hash = []) then HttpError (str "Missing info_hash") 400 else
  match query_registry (lookup_ok run) (api_rows run) (db w) hash with
  | NoRows => HttpError (str "Not found") 404
  | QueryError => HttpError (str "Database error") 500
  | Row (_, row) =>
      if bool_decide (torrent_data row = []) then HttpError (str "No torrent data available") 404 else
      match Parse order (torrent_data row) with
      | Ok meta => MetaReply meta
      | _ => HttpError (str "Error parsing torrent data") 500
      end
  end.

(** What the engine and [sort.Slice] promise of their orders; a row that fails to scan is skipped, and rows after an
    error of [rows.Next] are missing. *)
Record run_ok (run : ApiRun) : Prop := {
  rows_perm : engine_ok (api_rows run);
  created_perm : ∀ m, created_order run m ≡ₚ map_to_list m;
  created_desc : ∀ m, Sorted (λ a b, created b.2 ≤ created a.2) (created_order run m);
  completions_perm : ∀ m, completions_order run m ≡ₚ map_to_list m;
  completions_desc : ∀ m, Sorted (λ a b, completions b.2 ≤ completions a.2) (completions_order run m);
  slice_perm : ∀ l, slice_sort run l ≡ₚ l;
  slice_desc : ∀ l, Sorted (λ a b, Seeders b ≤ Seeders a) (slice_sort run l);
  rows_read : ∀ l, read_rows run l `sublist_of` l }.

(** ** Lemmas: the takedown *)

Lemma takedown_hashes_spec hash v2 v1 h : h ∈ takedown_hashes hash v2 v1 ↔ h ≠ [] ∧ (h = hash ∨ h = v2 ∨ h = v1).
Proof.
  unfold takedown_hashes. cbn [foldl]. assert (A : ∀ l x h, h ∈ add_hash l x ↔ h ∈ l ∨ (h = x ∧ x ≠ [])).
  { intros l x y. unfold add_hash. case_bool_decide as Hb; [rewrite elem_of_app, list_elem_of_singleton; naive_solver|].
    split; [by left|]. intros [?|[-> Hx]]; [done|]. destruct (decide (x ∈ l)); [done|]. tauto. }
  rewrite !A, elem_of_nil. naive_solver.
Qed.

(** What the loop has done when it stops, complete or not. *)
Record purged (hashes : list bytes) (w w' : World) : Prop := {
  pg_peers : ∀ k, k ∉ hashes → Peers (swarm w') !! k = Peers (swarm w) !! k;
  pg_users : Users (swarm w') = Users (swarm w);
  pg_registry : registry (db w') = registry (db w);
  pg_blocks : ∀ k, k ∉ hashes → blocklist (db w') !! k = blocklist (db w) !! k;
  pg_kept : ∀ k b, blocklist (db w) !! k = Some b → blocklist (db w') !! k = Some b;
  pg_rows : ∀ k id, k ∉ hashes → peers (db w') !! (k, id) = peers (db w) !! (k, id) }.

Lemma purged_refl hashes w : purged hashes w w.
Proof. by constructor. Qed.
Lemma purged_trans hashes w1 w2 w3 : purged hashes w1 w2 → purged hashes w2 w3 → purged hashes w1 w3.
Proof. intros [A1 A2 A3 A4 A5 A6] [B1 B2 B3 B4 B5 B6]. constructor; intros; rewrite ?B1, ?B2, ?B3, ?B4, ?B6 by done; eauto. Qed.

Lemma delete_purged h hashes w : h ∈ hashes → purged hashes w (mkWorld (delete_swarm h (swarm w)) (delete_peer_rows h (db w))).
Proof.
  intros Hh. constructor; cbn; try done.
  - intros k Hk. apply lookup_delete_ne. set_solver.
  - intros k id Hk. destruct (peers (db w) !! (k, id)) as [p|] eqn:E; [|by apply map_lookup_filter_None; left].
    apply map_lookup_filter_Some. split; [done|]. cbn. set_solver.
Qed.

Lemma block_purged h row hashes w : h ∈ hashes → purged hashes w (mkWorld (swarm w) (insert_block h row (db w))).
Proof.
  intros Hh. constructor; cbn; try done.
  - intros k Hk. destruct (blocklist (db w) !! h); [done|]. apply lookup_insert_ne. set_solver.
  - intros k b Hk. destruct (blocklist (db w) !! h) eqn:E; [done|]. rewrite lookup_insert_ne; [done|]. congruence.
Qed.

(** A hash that is gone and blocked. *)
Definition taken_down (h : bytes) (w : World) : Prop :=
  Peers (swarm w) !! h = None ∧ (∀ id, peers (db w) !! (h, id) = None) ∧ is_Some (blocklist (db w) !! h).

Lemma taken_down_purged h hashes w w' : h ∉ hashes → purged hashes w w' → taken_down h w → taken_down h w'.
Proof.
  intros Hh [P1 _ _ P4 _ P6] (T1 & T2 & T3). split_and!; [by rewrite P1|intros id; by rewrite P6|by rewrite P4].
Qed.

Lemma takedown_loop_run run why hashes : ∀ w, NoDup hashes → ∃ ok w', takedown_loop run why hashes w = (ok, w') ∧ purged hashes w w'
  ∧ (ok = true → ∀ h, h ∈ hashes → taken_down h w')
  ∧ (ok = bool_decide (Forall (λ h, purge_ok run h = true ∧ insert_ok run h = true) hashes)).
Proof.
  induction hashes as [|h hashes IH]; intros w Hnd; cbn [takedown_loop].
  { exists true, w. split_and!; [done|apply purged_refl|set_solver|by rewrite bool_decide_true]. }
  apply NoDup_cons in Hnd as [Hh Hnd]. destruct (purge_ok run h) eqn:Ep; cbn [negb].
  2:{ exists false, w. split_and!; [done|apply purged_refl|done|]. rewrite bool_decide_false; [done|]. intros [[? _] _]%Forall_cons. congruence. }
  set (w1 := mkWorld _ _). pose proof (delete_purged h (h :: hashes) w ltac:(left)) as P1. destruct (insert_ok run h) eqn:Ei; cbn [negb].
  2:{ exists false, w1. split_and!; [done|done|done|]. rewrite bool_decide_false; [done|]. intros [[_ ?] _]%Forall_cons. congruence. }
  set (row := mkBlock why (unix_now run)). set (w2 := mkWorld (swarm w1) (insert_block h row (db w1))).
  pose proof (block_purged h row (h :: hashes) w1 ltac:(left)) as P2. destruct (IH w2 Hnd) as (ok & w' & E & P3 & Hall & Eok).
  exists ok, w'. split; [exact E|]. assert (P3' : purged (h :: hashes) w2 w') by (destruct P3; constructor; try done; set_solver).
  split_and!.
  - eapply purged_trans; [exact P1|]. eapply purged_trans; [exact P2|exact P3'].
  - intros Hok k [->|Hk]%elem_of_cons; [|by apply Hall]. eapply taken_down_purged; [exact Hh|exact P3|]. unfold taken_down, w2, w1. cbn. split_and!.
    + apply lookup_delete_eq.
    + intros id. apply map_lookup_filter_None. right. intros p _. cbn. tauto.
    + destruct (blocklist (db w) !! h) eqn:Eb; [by rewrite Eb|]. rewrite lookup_insert_eq. eauto.
  - rewrite Eok. apply bool_decide_ext. rewrite Forall_cons, Ep, Ei. tauto.
Qed.

Lemma takedown_hashes_distinct hash v2 v1 : NoDup (takedown_hashes hash v2 v1).
Proof.
  unfold takedown_hashes. cbn [foldl]. assert (A : ∀ l x, NoDup l → NoDup (add_hash l x)).
  { intros l x Hl. unfold add_hash. case_bool_decide as Hb; [|done]. apply NoDup_app. split_and!; [done|set_solver|apply NoDup_singleton]. }
  repeat apply A. constructor.
Qed.

(** ** Lemmas: pages *)

Lemma page_take {A} offset limit (l : list A) : 0 ≤ offset → 0 ≤ limit → zlen l + limit < 2 ^ 63 →
  page offset limit l = take (Z.to_nat limit) (drop (Z.to_nat offset) l).
Proof.
  intros Ho Hl Hb. unfold page, slice, zlen in *. destruct (Z.ltb_spec (Z.of_nat (length l)) offset).
  - rewrite wrap64_id by (unfold in_int64; lia). rewrite (drop_ge l (Z.to_nat offset)) by lia.
    rewrite (drop_ge l (Z.to_nat (Z.of_nat (length l)))) by lia. by rewrite !take_nil.
  - rewrite wrap64_id by (unfold in_int64; lia). destruct (Z.ltb_spec (Z.of_nat (length l)) (offset + limit)).
    + rewrite !take_ge; [done|rewrite length_drop; lia..].
    + f_equal. lia.
Qed.

Lemma search_limit_range q : 1 ≤ search_limit q ≤ 100.
Proof.
  unfold search_limit. case_bool_decide; [lia|]. destruct (atoi _) as [l|]; [|lia].
  destruct (Z.ltb_spec 0 l); [|lia]. destruct (Z.ltb_spec 100 l); lia.
Qed.
Lemma search_offset_nonneg q : 0 ≤ search_offset q.
Proof. unfold search_offset. case_bool_decide; [lia|]. destruct (atoi _) as [o|]; [|lia]. destruct (Z.leb_spec 0 o); lia. Qed.

(** The whole list of which a search returns a page. *)
Definition entries (s : SwarmState) (rows : list (bytes * RegRow)) : list registryEntry := fillSwarmStats s (map scanRegistryEntry rows).
Definition search_results (like : bytes → bytes → bool) (run : ApiRun) (q : Values) (w : World) : list registryEntry :=
  if bool_decide (Get q (str "sort") = str "seeders") then slice_sort run (entries (swarm w) (created_order run (matching like q (db w))))
  else entries (swarm w) ((if bool_decide (Get q (str "sort") = str "completions") then completions_order run else created_order run)
                            (matching like q (db w))).

(** What a search sorts by, descending. *)
Definition sort_key (q : Values) (w : World) (e : registryEntry) : Z :=
  if bool_decide (Get q (str "sort") = str "seeders") then Seeders e else
  if bool_decide (Get q (str "sort") = str "completions") then ECompletions e else default 0 (created <$> registry (db w) !! EInfoHash e).
Definition descending {A} (key : A → Z) (a b : A) : Prop := key b ≤ key a.

(** Two searches that differ in their pages only. *)
Definition same_search (q q' : Values) : Prop := ∀ k, k ∈ [str "q"; str "category"; str "publisher"; str "tags"; str "sort"] → Get q k = Get q' k.

Lemma same_search_matching like q q' d : same_search q q' → matching like q d = matching like q' d.
Proof.
  intros H. unfold matching. apply map_filter_ext. intros k row _. unfold selects.
  rewrite (H (str "q")), (H (str "category")), (H (str "publisher")), (H (str "tags")) by (set_unfold; tauto). done.
Qed.
Lemma same_search_results like run q q' w : same_search q q' → search_results like run q w = search_results like run q' w.
Proof.
  intros H. unfold search_results. rewrite (same_search_matching _ _ _ _ H), (H (str "sort")) by (set_unfold; tauto). done.
Qed.

Lemma entries_perm_of s l l' : l ≡ₚ l' → entries s l ≡ₚ entries s l'.
Proof. intros H. unfold entries, fillSwarmStats. by rewrite H. Qed.

Lemma results_perm like run q w : run_ok run → search_results like run q w ≡ₚ entries (swarm w) (map_to_list (matching like q (db w))).
Proof.
  intros Hr. unfold search_results. destruct (bool_decide (Get q (str "sort") = str "seeders")).
  - rewrite (slice_perm _ Hr). apply entries_perm_of, (created_perm _ Hr).
  - destruct (bool_decide _); apply entries_perm_of; [apply (completions_perm _ Hr)|apply (created_perm _ Hr)].
Qed.

Lemma fill_entry_hash s e : EInfoHash (fill_entry s e) = EInfoHash e.
Proof. unfold fill_entry. destruct (GetCounts s (EInfoHash e)). by repeat case_match. Qed.
Lemma fill_entry_completions s e : ECompletions (fill_entry s e) = ECompletions e.
Proof. unfold fill_entry. destruct (GetCounts s (EInfoHash e)). by repeat case_match. Qed.

Lemma Sorted_entries s (key : bytes * RegRow → Z) (key' : registryEntry → Z) l :
  (∀ kv, kv ∈ l → key' (fill_entry s (scanRegistryEntry kv)) = key kv) → Sorted (descending key) l → Sorted (descending key') (entries s l).
Proof.
  induction l as [|a l IH]; intros Hk Hs; [constructor|]. apply Sorted_inv in Hs as [Hs Hh]. cbn. constructor.
  - apply IH; [|done]. intros kv Hkv. apply Hk. by constructor.
  - inversion Hh as [|b l' Hab]; subst; constructor. unfold descending in *. rewrite !Hk by (repeat constructor). done.
Qed.

Lemma results_sorted like run q w : run_ok run → Sorted (descending (sort_key q w)) (search_results like run q w).
Proof.
  intros Hr. unfold search_results, sort_key. destruct (bool_decide (Get q (str "sort") = str "seeders")); [apply (slice_desc _ Hr)|].
  destruct (bool_decide (Get q (str "sort") = str "completions")).
  - apply (Sorted_entries _ (λ kv, completions kv.2)); [|apply (completions_desc _ Hr)].
    intros [k row] _. by rewrite fill_entry_completions.
  - apply (Sorted_entries _ (λ kv, created kv.2)); [|apply (created_desc _ Hr)].
    intros [k row] Hk. rewrite fill_entry_hash. rewrite (created_perm _ Hr), elem_of_map_to_list in Hk.
    apply map_lookup_filter_Some in Hk as [Hk _]. cbn. by rewrite Hk.
Qed.

(** A successful search answers the page of its results at its offset. *)
Definition page_of (like : bytes → bytes → bool) (w : World) (p : ApiRun * ApiRequest) : list registryEntry :=
  let q := ApiQuery p.2 in take (Z.to_nat (search_limit q)) (drop (Z.to_nat (search_offset q)) (search_results like p.1 q w)).
Definition answered (p : ApiRun * ApiRequest) : Prop :=
  run_ok p.1 ∧ Method p.2 = str "GET" ∧ count_rows_ok p.1 = true ∧ lookup_ok p.1 = true ∧ ∀ l, read_rows p.1 l = l.

Lemma search_page like w p : answered p →
  let ms := matching like (ApiQuery p.2) (db w) in
  Get (ApiQuery p.2) (str "sort") ≠ str "seeders" ∨ (size ms ≤ 1000)%nat →
  HandleSearch like p.1 p.2 w = Entries (Z.of_nat (size ms)) (page_of like w p).
Proof.
  destruct p as [run r]. intros (Hr & Hm & Hc & Hl & Hrd) ms Hs. unfold page_of. cbn [fst snd] in *. set (q := ApiQuery r) in *.
  pose proof (search_limit_range q) as HL. pose proof (search_offset_nonneg q) as HO.
  unfold HandleSearch. rewrite bool_decide_false by tauto. rewrite Hc, Hl. cbn [negb]. fold q ms. unfold search_results. fold ms.
  destruct (decide (Get q (str "sort") = str "seeders")) as [E|E].
  - rewrite !(bool_decide_true (Get q (str "sort") = str "seeders")) by done. destruct Hs as [|Hs]; [done|].
    rewrite Hrd, take_ge. 2:{ rewrite (Permutation_length (created_perm _ Hr ms)), length_map_to_list. unfold seedersSortScanCap. lia. }
    rewrite page_take; [done|lia..|]. unfold zlen. rewrite (Permutation_length (slice_perm _ Hr _)). unfold fillSwarmStats. rewrite !length_map.
    rewrite (Permutation_length (created_perm _ Hr ms)), length_map_to_list. lia.
  - rewrite !(bool_decide_false (Get q (str "sort") = str "seeders")) by done. rewrite Hrd. f_equal. unfold entries, fillSwarmStats.
    by rewrite !skipn_map, !firstn_map.
Qed.

(** Each request starts where the one before ends. *)
Fixpoint consecutive (offset : Z) (pages : list (ApiRun * ApiRequest)) : Prop :=
  match pages with
  | [] => True
  | p :: pages' => search_offset (ApiQuery p.2) = offset ∧ consecutive (offset + search_limit (ApiQuery p.2)) pages'
  end.
Definition limits (pages : list (ApiRun * ApiRequest)) : Z := foldr (λ p n, search_limit (ApiQuery p.2) + n) 0 pages.

Lemma limits_nonneg pages : 0 ≤ limits pages.
Proof. unfold limits. induction pages as [|p pages IH]; cbn [foldr]; [lia|]. pose proof (search_limit_range (ApiQuery p.2)). lia. Qed.

Lemma concat_pages {B} (part : ApiRun * ApiRequest → list B) (l : list B) pages offset :
  Forall (λ p, part p = take (Z.to_nat (search_limit (ApiQuery p.2))) (drop (Z.to_nat (search_offset (ApiQuery p.2))) l)) pages →
  0 ≤ offset → consecutive offset pages → concat (map part pages) = take (Z.to_nat (limits pages)) (drop (Z.to_nat offset) l).
Proof.
  intros Hp. revert offset. induction Hp as [|p pages E Hp IH]; intros offset Ho; cbn [consecutive limits map concat foldr]; [done|].
  intros [Eo Hc]. pose proof (search_limit_range (ApiQuery p.2)) as HL. pose proof (limits_nonneg pages).
  rewrite (IH (offset + search_limit (ApiQuery p.2))) by (lia || done). rewrite E, Eo. fold (limits pages).
  rewrite (Z2Nat.inj_add offset) by lia. rewrite <- drop_drop. rewrite (Z2Nat.inj_add (search_limit _)) by lia. by rewrite take_take_drop.
Qed.

#[export] Instance descending_dec {A} (key : A → Z) a b : Decision (descending key a b).
Proof. unfold descending. apply _. Defined.
#[export] Instance descending_total {A} (key : A → Z) : base.Total (descending key).
Proof. intros a b. unfold descending. lia. Qed.
#[export] Instance descending_trans {A} (key : A → Z) : Transitive (descending key).
Proof. intros a b c. unfold descending. lia. Qed.

Lemma Sorted_keys {A} (key : A → Z) l : Sorted (descending key) l → Sorted (λ a b, b ≤ a) (key <$> l).
Proof.
  induction l as [|a l IH]; intros Hs; [constructor|]. apply Sorted_inv in Hs as [Hs Hh]. constructor; [by apply IH|].
  inversion Hh; subst; by constructor.
Qed.

Lemma descending_unique {A} (key : A → Z) l l' : Sorted (descending key) l → Sorted (descending key) l' → l ≡ₚ l' → key <$> l = key <$> l'.
Proof.
  intros H H' P. eapply (Sorted_unique_strong (λ a b : Z, b ≤ a)); [intros; lia|by apply Sorted_keys..|by rewrite P].
Qed.

Lemma untied_unique {A} (key : A → Z) l l' : NoDup (key <$> l) → Sorted (descending key) l → Sorted (descending key) l' → l ≡ₚ l' → l = l'.
Proof.
  intros Hn H H' P. pose proof (descending_unique key l l' H H' P) as E. apply list_eq. intros i.
  assert (Ei : (key <$> l) !! i = (key <$> l') !! i) by by rewrite E. rewrite !list_lookup_fmap in Ei.
  destruct (l !! i) as [a|] eqn:La, (l' !! i) as [b|] eqn:Lb; try done. f_equal. cbn in Ei. apply (inj Some) in Ei.
  assert (Hb : b ∈ l) by (rewrite P; by eapply list_elem_of_lookup_2). apply list_elem_of_lookup in Hb as [j Lj].
  assert (i = j) as ->; [|congruence]. eapply (NoDup_lookup _ _ _ (key a) Hn); rewrite list_lookup_fmap; [by rewrite La|]. rewrite Lj. cbn. by rewrite Ei.
Qed.

(** *** The row a takedown resolves *)

Lemma found_row run d hash h : engine_ok (api_rows run) → let found := query_registry (lookup_ok run) (api_rows run) d hash in
  h ∈ takedown_hashes hash (fst (row_hashes found)) (snd (row_hashes found)) →
  h = hash ∨ ∃ k row, registry d !! k = Some row ∧ matches hash (k, row) ∧ (h = k ∨ h = v1_info_hash row).
Proof.
  intros Ho found [Hne [->|Hh]]%takedown_hashes_spec; [by left|]. right. unfold row_hashes, found in Hh.
  destruct (lookup_ok run); [|naive_solver]. destruct (query_registry true (api_rows run) d hash) as [[k row]| |] eqn:E; cbn in Hh; [|naive_solver..].
  destruct (query_registry_row _ _ _ _ Ho E) as [H1 H2]. eauto.
Qed.

Lemma only_row run d hash k row : engine_ok (api_rows run) → lookup_rows d hash = {[ k := row ]} → lookup_ok run = true →
  query_registry (lookup_ok run) (api_rows run) d hash = Row (k, row).
Proof.
  intros Ho Hl ->. unfold query_registry. cbn [negb]. pose proof (Ho (lookup_rows d hash)) as P. rewrite Hl in P |- *.
  rewrite map_to_list_singleton in P. apply Permutation_singleton_r in P. by rewrite P.
Qed.

(** The only row that matches a hash, once it is stored. *)
Lemma inserted_row d h row : (∀ k r, registry d !! k = Some r → k ≠ h → v1_info_hash r ≠ h) →
  ∀ d', registry d' = <[h := row]> (registry d) → lookup_rows d' h = {[ h := row ]}.
Proof.
  intros Hu d' Hd. apply map_eq. intros k. unfold lookup_rows. rewrite Hd. apply option_eq. intros x.
  rewrite map_lookup_filter_Some, lookup_insert_Some, lookup_singleton_Some. split.
  - intros [[[<- <-]|[Hk Hx]] Hmx]; [done|]. exfalso. destruct Hmx as [Hmx|Hmx]; cbn in Hmx; [congruence|by apply (Hu k x Hx)].
  - intros [<- <-]. split; [by left|by left].
Qed.

(** What a takedown leaves, complete or not. *)
Record takedown_effect (hash : bytes) (hashes : list bytes) (w w' : World) : Prop := {
  te_named : hash ∈ hashes;
  te_from : ∀ h, h ∈ hashes → h = hash ∨ ∃ k row, registry (db w) !! k = Some row ∧ matches hash (k, row) ∧ (h = k ∨ h = v1_info_hash row);
  te_registry : registry (db w') = registry (db w) ∨ registry (db w') = filter (λ kv, ¬ matches hash kv) (registry (db w));
  te_purged : purged hashes (mkWorld (swarm w) (with_registry (db w) (registry (db w')))) w' }.

Record takedown_done (hash : bytes) (hashes : list bytes) (w w' : World) : Prop := {
  td_registry : registry (db w') = filter (λ kv, ¬ matches hash kv) (registry (db w));
  td_both : ∀ k row, lookup_rows (db w) hash = {[ k := row ]} → ∀ h, h = k ∨ h = v1_info_hash row → h ≠ [] → h ∈ hashes;
  td_gone : ∀ h, h ∈ hashes → taken_down h w' }.

Lemma api_delete_run c run r w : engine_ok (api_rows run) → registryAuthorized c r = true → Get (ApiQuery r) (str "info_hash") ≠ [] →
  let hash := Get (ApiQuery r) (str "info_hash") in
  ∃ hashes w', takedown_effect hash hashes w w'
  ∧ (api_delete c run r w = (HttpError (str "Internal error") 500, w')
     ∨ api_delete c run r w = (StatusReply (str "deleted") 200, w') ∧ takedown_done hash hashes w w').
Proof.
  intros Ho Ha Hh. cbv zeta. set (hash := Get (ApiQuery r) (str "info_hash")) in *. unfold api_delete. rewrite Ha. cbn [negb]. fold hash. rewrite bool_decide_false by done.
  set (found := query_registry _ _ _ _). cbv zeta. destruct (query_failed found) eqn:Ef.
  { exists [hash], w. split; [|by left]. constructor; [left|set_solver|by left|by destruct w as [s []]; constructor]. }
  set (hs := takedown_hashes _ _ _). assert (Hfrom : ∀ h, h ∈ hs → h = hash ∨ ∃ k row, registry (db w) !! k = Some row ∧ matches hash (k, row) ∧ (h = k ∨ h = v1_info_hash row)).
  { intros h. by apply found_row. }
  assert (Hin : hash ∈ hs) by (apply takedown_hashes_spec; auto).
  destruct (exec_ok run); cbn [negb].
  2:{ exists hs, w. split; [|by left]. constructor; [done|done|by left|by destruct w as [s []]; constructor]. }
  set (w1 := mkWorld _ _). destruct (takedown_loop_run run (Get (ApiQuery r) (str "reason")) hs w1) as (ok & w' & E & Hp & Hall & _); [apply takedown_hashes_distinct|].
  rewrite E. exists hs, w'. assert (Hreg : registry (db w') = filter (λ kv, ¬ matches hash kv) (registry (db w))) by apply Hp.
  split; [constructor; [done|done|by right|by rewrite Hreg]|]. destruct ok; [right|by left]. split; [done|]. constructor; [done| |by apply Hall].
  intros k row Hl h Hh' Hne. apply takedown_hashes_spec. split; [done|].
  assert (Hok : lookup_ok run = true) by (destruct (lookup_ok run) eqn:El; [done|done]).
  unfold found. rewrite (only_row _ _ _ k row) by done. cbn. tauto.
Qed.

(** ** Properties *)

(** The write API is guarded: a request changes the tracker's world only if it is a POST or a DELETE that carries the
    registry key, when one is configured. *)
Lemma HandleAPI_authorized c run r w :
  snd (HandleAPI c run r w) ≠ w →
  (Method r = str "POST" ∨ Method r = str "DELETE") ∧ (registryKey c = [] ∨ KeyHeader r = registryKey c).
Proof.
  unfold HandleAPI. case_bool_decide; [done|]. assert (K : registryAuthorized c r = true ↔ registryKey c = [] ∨ KeyHeader r = registryKey c).
  { unfold registryAuthorized. cbv zeta. case_bool_decide as Hk; [tauto|]. rewrite bool_decide_eq_true. tauto. }
  case_bool_decide as Hp; [|case_bool_decide as Hd; [|done]]; intros Hne; (split; [tauto|]); apply K.
  - unfold api_post in Hne. by destruct (registryAuthorized c r).
  - unfold api_delete in Hne. by destruct (registryAuthorized c r).
Qed.

(** C31. A takedown: an authorized DELETE removes the registry rows that match the hash; for the hash that was named and, if
    one row matches, both hashes of that row, when it replies "deleted", the swarm and its rows are gone and the hash
    is blocked, so that an announce for it on that world is refused and changes nothing when its block list query succeeds
    ([block_ok]; the tracker admits an announce whose query fails).  Whatever call fails, no other hash's swarm, rows or
    block and no user's usage changes. *)
Theorem takedown_correct c run r w :
  engine_ok (api_rows run) → Method r = str "DELETE" → registryAuthorized c r = true → Get (ApiQuery r) (str "info_hash") ≠ [] →
  let hash := Get (ApiQuery r) (str "info_hash") in
  ∃ hashes w', takedown_effect hash hashes w w'
  ∧ (HandleAPI c run r w = (HttpError (str "Internal error") 500, w')
     ∨ HandleAPI c run r w = (StatusReply (str "deleted") 200, w') ∧ takedown_done hash hashes w w'
       ∧ ∀ cfg run' req userID p, InfoHashHex p ∈ hashes → block_ok run' = true →
           executeAnnounce cfg run' req userID p w' = (TrackerError (str "info_hash is blocked"), w')).
Proof.
  intros Ho Hm Ha Hh. cbv zeta. destruct (api_delete_run c run r w Ho Ha Hh) as (hashes & w' & He & H). exists hashes, w'. split; [done|].
  assert (Ed : HandleAPI c run r w = api_delete c run r w) by (unfold HandleAPI; by rewrite Hm). rewrite Ed.
  destruct H as [H|[H Hd]]; [by left|right]. split_and!; [done|done|]. intros cfg run' req userID p Hp Hok.
  destruct (td_gone _ _ _ _ Hd _ Hp) as (_ & _ & [b Hb]). unfold executeAnnounce, is_blocked, query_blocklist. by rewrite Hok, Hb.
Qed.

(** Registering and reading back: an authorized POST with a hash and a name stores the submitted fields under the hash and
    leaves every other row alone; a row that was there keeps its creation time, its verified mark and its
    completions; and a GET for the hash returns the entry, unless another row matches too. *)
Theorem register_read c run r w b run' r' :
  Method r = str "POST" → registryAuthorized c r = true → Body r = Some b → PInfoHash b ≠ [] → PName b ≠ [] → exec_ok run = true →
  engine_ok (api_rows run') → lookup_ok run' = true → Method r' = str "GET" → Get (ApiQuery r') (str "info_hash") = PInfoHash b →
  (∀ k row, registry (db w) !! k = Some row → k ≠ PInfoHash b → v1_info_hash row ≠ PInfoHash b) →
  let '(resp, w') := HandleAPI c run r w in
  let old := registry (db w) !! PInfoHash b in
  resp = StatusReply (str "created") 201 ∧ swarm w' = swarm w
  ∧ (∀ k, k ≠ PInfoHash b → registry (db w') !! k = registry (db w) !! k)
  ∧ HandleAPI c run' r' w' = (Entry (fill_entry (swarm w) (mkEntry (PInfoHash b) (PV1InfoHash b) (PName b)
        (default false (verified <$> old)) (default 0 (completions <$> old)) (PDescription b) (PPublisher b) (PLicense b) (PSize b)
        (PCategory b) (PTags b) 0 0)), w').
Proof.
  intros Hm Ha Hb Hh Hn He Ho Hl Hm' Hq Hu. unfold HandleAPI. rewrite Hm, Hm'. cbn [bool_decide]. rewrite bool_decide_false, bool_decide_true by done.
  unfold api_post. rewrite Ha, Hb, He. cbn [negb]. rewrite bool_decide_false by tauto. split_and!; [done|done|intros k Hk; cbn; by apply lookup_insert_ne|].
  rewrite bool_decide_true by done. f_equal. unfold api_get. rewrite Hq, bool_decide_false by done.
  rewrite (only_row _ _ _ (PInfoHash b) (upsert b (unix_now run) (registry (db w) !! PInfoHash b))) by (done || by apply (inserted_row (db w))). unfold upsert.
  by destruct (registry (db w) !! PInfoHash b).
Qed.

(** C32. Searching: consecutive pages of one search over an unchanged tracker, each of 1 to 100 entries and each asked of the engine
    anew, report the number of rows the filters select and together are that part of the results, every selected row with the counts
    of its swarms, in descending order of the sort key: the keys come as one sorted list has them whatever the engine does with ties,
    and the entries themselves too, each exactly once, when no two selected rows have the same key, or when the engine gives every
    page the same order.  (With ties it need not, and a row can then be on two pages: [tied_pages_repeat].)  The requests succeed,
    every row scans, and a search by seeders selects at most 1000 rows. *)
Theorem search_pages like w q offset pages :
  Forall (λ p, answered p ∧ same_search q (ApiQuery p.2)) pages → 0 ≤ offset → consecutive offset pages →
  let matches := matching like q (db w) in
  Get q (str "sort") ≠ str "seeders" ∨ (size matches ≤ 1000)%nat →
  let selected := entries (swarm w) (map_to_list matches) in
  let key := sort_key q w in
  ∃ parts keys, Forall2 (λ p part, HandleSearch like p.1 p.2 w = Entries (Z.of_nat (size matches)) part ∧ zlen part ≤ search_limit (ApiQuery p.2) ≤ 100) pages parts
  ∧ keys ≡ₚ key <$> selected ∧ Sorted (λ a b, b ≤ a) keys
  ∧ key <$> concat parts = take (Z.to_nat (limits pages)) (drop (Z.to_nat offset) keys)
  ∧ (NoDup (key <$> selected) ∨ (∀ p p', p ∈ pages → p' ∈ pages → search_results like p.1 q w = search_results like p'.1 q w) →
     ∃ results, results ≡ₚ selected ∧ Sorted (descending key) results
     ∧ concat parts = take (Z.to_nat (limits pages)) (drop (Z.to_nat offset) results)).
Proof.
  intros Hp Ho Hc matches Hs selected key. set (sorted := merge_sort (descending key) selected).
  assert (Ps : sorted ≡ₚ selected) by apply merge_sort_Permutation.
  assert (Ss : Sorted (descending key) sorted) by apply (Sorted_merge_sort (descending key)).
  assert (R : ∀ p, p ∈ pages → search_results like p.1 (ApiQuery p.2) w = search_results like p.1 q w
            ∧ search_results like p.1 q w ≡ₚ sorted ∧ Sorted (descending key) (search_results like p.1 q w)).
  { intros p Hin. rewrite Forall_forall in Hp. destruct (Hp p Hin) as [(Hr & _) Hq]. split; [symmetry; by apply same_search_results|].
    split; [rewrite Ps; by apply results_perm|by apply results_sorted]. }
  exists (map (page_of like w) pages), (key <$> sorted). split_and!.
  - apply Forall2_fmap_r, Forall_Forall2_diag. eapply Forall_impl; [exact Hp|]. intros p [Ha Hq]. unfold matches in *.
    rewrite (same_search_matching _ _ _ _ Hq) in *. rewrite (Hq (str "sort")) in Hs by (set_unfold; tauto). split; [by apply search_page|].
    pose proof (search_limit_range (ApiQuery p.2)). unfold page_of, zlen. rewrite length_take. lia.
  - by rewrite Ps.
  - by apply Sorted_keys.
  - etrans; [exact (concat_map key _)|]. rewrite map_map. apply concat_pages; [|done..]. apply Forall_forall. intros p Hin.
    destruct (R p Hin) as (E & P & S). unfold page_of. rewrite E. etrans; [exact (fmap_take key _ _)|]. f_equal. etrans; [exact (fmap_drop key _ _)|]. f_equal. by apply descending_unique.
  - intros Hn. assert (∃ results, results ≡ₚ sorted ∧ Sorted (descending key) results ∧ ∀ p, p ∈ pages → search_results like p.1 q w = results) as (rs & Pr & Sr & Er).
    { destruct Hn as [Hn|Hn].
      - exists sorted. split_and!; [done..|]. intros p Hin. destruct (R p Hin) as (_ & P & S). symmetry. apply (untied_unique key); [by rewrite Ps|done..|by symmetry].
      - destruct pages as [|p0 pages']; [exists sorted; split_and!; [done..|]; intros p Hin; by apply elem_of_nil in Hin|].
        exists (search_results like p0.1 q w). destruct (R p0) as (_ & P & S); [by constructor|]. split_and!; [done..|]. intros p Hin. apply Hn; [done|by constructor]. }
    exists rs. split_and!; [by rewrite Pr|done|]. apply concat_pages; [|done..]. apply Forall_forall. intros p Hin.
    destruct (R p Hin) as (E & _ & _). unfold page_of. by rewrite E, (Er p Hin).
Qed.

(** The file name of a download cannot break out of the header: [sanitizeFilename] keeps no control character, quote,
    backslash or DEL of any name, valid UTF-8 or not, and leaves an ASCII name without them as it is. *)
Theorem sanitizeFilename_safe name :
  Forall (λ b, 0x20 ≤ bval b ∧ bval b ≠ 0x22 ∧ bval b ≠ 0x5C ∧ bval b ≠ 0x7F) (sanitizeFilename name)
  ∧ (Forall (λ b, 0x20 ≤ bval b < 0x7F ∧ bval b ≠ 0x22 ∧ bval b ≠ 0x5C) name → sanitizeFilename name = name).
Proof.
  assert (K : ∀ c, sanitize_rune c = Some c ↔ 0x20 ≤ c ∧ c ≠ 0x22 ∧ c ≠ 0x5C ∧ c ≠ 0x7F).
  { intros c. unfold sanitize_rune. destruct (Z.ltb_spec c 0x20), (Z.eqb_spec c 0x22), (Z.eqb_spec c 0x5C), (Z.eqb_spec c 0x7F); simpl; split; (lia || done || (intros; exfalso; lia)). }
  split.
  - eapply Forall_impl; [apply Map_bytes|]. intros b [Hb|[c Hc]]; [lia|]. apply K.
    unfold sanitize_rune in *. repeat (case_match; simplify_eq/=); done.
  - intros H. apply Map_ascii; (eapply Forall_impl; [exact H|]); intros b Hb; cbn in *; [lia|]. apply K. lia.
Qed.

(** ** Samples *)

(** A hybrid torrent with a swarm under its v1 hash, and another one. *)
Module SampleRegistry.
Definition v2 : bytes := str "v2v2".
Definition row (v1 name : bytes) (at_ : Z) : RegRow := mkReg v1 name at_ true 7 [] (str "me") [] 10 (str "data") (str "a,b") (str "d").
Definition world : World :=
  mkWorld (mkState {[ sample_hash := {[ str "peer" := mkPeer (str "10.0.0.9:1") 5 0 0 0 ]}; str "other" := {[ str "p2" := mkPeer (str "h:2") 5 1 0 0 ]} ]} ∅)
    (mkDB {[ v2 := row sample_hash (str "one") 3; str "other" := row [] (str "two") 4 ]} ∅
       {[ (sample_hash, str "peer") := mkPeer (str "10.0.0.9:1") 5 0 0 0 ]}).
Definition by_created (a b : bytes * RegRow) : Prop := created b.2 ≤ created a.2.
Definition by_completions (a b : bytes * RegRow) : Prop := completions b.2 ≤ completions a.2.
Definition by_seeders (a b : registryEntry) : Prop := Seeders b ≤ Seeders a.
#[export] Instance by_created_dec a b : Decision (by_created a b). Proof. unfold by_created. apply _. Defined.
#[export] Instance by_completions_dec a b : Decision (by_completions a b). Proof. unfold by_completions. apply _. Defined.
#[export] Instance by_seeders_dec a b : Decision (by_seeders a b). Proof. unfold by_seeders. apply _. Defined.
#[export] Instance by_created_total : base.Total by_created. Proof. intros a b. unfold by_created. lia. Qed.
#[export] Instance by_completions_total : base.Total by_completions. Proof. intros a b. unfold by_completions. lia. Qed.
#[export] Instance by_seeders_total : base.Total by_seeders. Proof. intros a b. unfold by_seeders. lia. Qed.
Definition run : ApiRun :=
  mkApiRun true true (λ _, true) (λ _, true) true map_to_list (λ m, merge_sort by_created (map_to_list m))
    (λ m, merge_sort by_completions (map_to_list m)) (merge_sort by_seeders) id 100.
(** An engine and a sort that put ties the other way round. *)
Definition other_run : ApiRun :=
  mkApiRun true true (λ _, true) (λ _, true) true map_to_list (λ m, merge_sort by_created (reverse (map_to_list m)))
    (λ m, merge_sort by_completions (reverse (map_to_list m))) (λ l, merge_sort by_seeders (reverse l)) id 101.
Definition config : RegistryConfig := mkRegistryConfig [] (str "key").
Definition query (l : list (bytes * bytes)) : Values := list_to_map (map (λ '(k, v), (k, [v])) l).
Definition delete_request : ApiRequest := mkApi (str "DELETE") (query [(str "info_hash", v2); (str "reason", str "dmca")]) (str "key") None.
Definition body : PostBody := mkPost v2 sample_hash (str "renamed") [] [] [] 11 [] [] [].
Definition post_request : ApiRequest := mkApi (str "POST") ∅ (str "key") (Some body).
Definition get_request : ApiRequest := mkApi (str "GET") (query [(str "info_hash", v2)]) [] None.
Definition search (sort offset : bytes) : ApiRequest :=
  mkApi (str "GET") (query [(str "sort", sort); (str "limit", str "1"); (str "offset", offset); (str "publisher", str "me")]) [] None.
(** Two pages of one entry, the second asked when the engine orders ties otherwise. *)
Definition two_pages (sort : bytes) : list (ApiRun * ApiRequest) := [(run, search sort (str "0")); (other_run, search sort (str "1"))].
Definition replies (like : bytes → bytes → bool) (sort : bytes) : list response := map (λ p, HandleSearch like p.1 p.2 world) (two_pages sort).
Definition like (text pattern : bytes) : bool := true.

Lemma run_is_ok : run_ok run.
Proof.
  constructor; intros; [by intros m|apply merge_sort_Permutation|apply (Sorted_merge_sort by_created)|apply merge_sort_Permutation
    |apply (Sorted_merge_sort by_completions)|apply merge_sort_Permutation|apply (Sorted_merge_sort by_seeders)|done].
Qed.
Lemma other_run_ok : run_ok other_run.
Proof.
  constructor; intros; [by intros m|cbn; by rewrite merge_sort_Permutation, reverse_Permutation|apply (Sorted_merge_sort by_created)
    |cbn; by rewrite merge_sort_Permutation, reverse_Permutation|apply (Sorted_merge_sort by_completions)
    |cbn; by rewrite merge_sort_Permutation, reverse_Permutation|apply (Sorted_merge_sort by_seeders)|done].
Qed.

Lemma pages_answered sort : Forall (λ p, answered p ∧ same_search (ApiQuery (search sort [])) (ApiQuery p.2)) (two_pages sort).
Proof.
  assert (S : ∀ offset, same_search (ApiQuery (search sort [])) (ApiQuery (search sort offset))).
  { intros offset k Hk. set_unfold in Hk. repeat (destruct Hk as [->|Hk]); try done; reflexivity. }
  apply Forall_cons; split; [|apply Forall_singleton]; (split; [|apply S]); split_and!; try done; [exact run_is_ok|exact other_run_ok].
Qed.
Lemma rows_unique : ∀ k r, registry (db world) !! k = Some r → k ≠ PInfoHash body → v1_info_hash r ≠ PInfoHash body.
Proof.
  assert (H : map_Forall (λ k r, k ≠ PInfoHash body → v1_info_hash r ≠ PInfoHash body) (registry (db world))).
  { decide_now. }
  exact H.
Qed.
End SampleRegistry.

Lemma takedown_correct_witness :
  fst (HandleAPI SampleRegistry.config SampleRegistry.run SampleRegistry.delete_request SampleRegistry.world) = StatusReply (str "deleted") 200
  ∧ let hash := Get (ApiQuery SampleRegistry.delete_request) (str "info_hash") in
  ∃ hashes w', takedown_effect hash hashes SampleRegistry.world w'
  ∧ (HandleAPI SampleRegistry.config SampleRegistry.run SampleRegistry.delete_request SampleRegistry.world = (HttpError (str "Internal error") 500, w')
     ∨ HandleAPI SampleRegistry.config SampleRegistry.run SampleRegistry.delete_request SampleRegistry.world = (StatusReply (str "deleted") 200, w')
       ∧ takedown_done hash hashes SampleRegistry.world w'
       ∧ ∀ cfg run' req userID p, InfoHashHex p ∈ hashes → block_ok run' = true →
           executeAnnounce cfg run' req userID p w' = (TrackerError (str "info_hash is blocked"), w')).
Proof.
  split; [vm_compute; reflexivity|].
  apply (takedown_correct SampleRegistry.config SampleRegistry.run SampleRegistry.delete_request SampleRegistry.world).
  - exact (rows_perm _ SampleRegistry.run_is_ok).
  - reflexivity.
  - vm_compute. reflexivity.
  - vm_compute. discriminate.
Defined.

Lemma register_read_witness :
  let '(resp, w') := HandleAPI SampleRegistry.config SampleRegistry.run SampleRegistry.post_request SampleRegistry.world in
  let old := registry (db SampleRegistry.world) !! PInfoHash SampleRegistry.body in
  resp = StatusReply (str "created") 201 ∧ swarm w' = swarm SampleRegistry.world
  ∧ (∀ k, k ≠ PInfoHash SampleRegistry.body → registry (db w') !! k = registry (db SampleRegistry.world) !! k)
  ∧ HandleAPI SampleRegistry.config SampleRegistry.run SampleRegistry.get_request w'
    = (Entry (fill_entry (swarm SampleRegistry.world) (mkEntry (PInfoHash SampleRegistry.body) (PV1InfoHash SampleRegistry.body) (PName SampleRegistry.body)
        (default false (verified <$> old)) (default 0 (completions <$> old)) (PDescription SampleRegistry.body) (PPublisher SampleRegistry.body)
        (PLicense SampleRegistry.body) (PSize SampleRegistry.body) (PCategory SampleRegistry.body) (PTags SampleRegistry.body) 0 0)), w').
Proof.
  apply (register_read SampleRegistry.config SampleRegistry.run SampleRegistry.post_request SampleRegistry.world SampleRegistry.body
    SampleRegistry.run SampleRegistry.get_request).
  - reflexivity.
  - vm_compute. reflexivity.
  - reflexivity.
  - vm_compute. discriminate.
  - vm_compute. discriminate.
  - reflexivity.
  - exact (rows_perm _ SampleRegistry.run_is_ok).
  - reflexivity.
  - reflexivity.
  - vm_compute. reflexivity.
  - exact SampleRegistry.rows_unique.
Defined.

(** The engine may order rows with equal keys otherwise for each page: by completions, which are the same for both rows of the
    sample, two consecutive pages show one row twice and the other one never. *)
Lemma tied_pages_repeat :
  map (λ x, match x with Entries n l => Some (n, EName <$> l) | _ => None end) (SampleRegistry.replies SampleRegistry.like (str "completions"))
    = [Some (2, [str "two"]); Some (2, [str "two"])].
Proof. vm_compute. reflexivity. Qed.

(** The pages of a search over two rows, by time: one row each, although the two engines order ties differently. *)
Lemma search_pages_witness :
  map (λ x, match x with Entries n l => Some (n, (λ e, (EName e, Seeders e)) <$> l) | _ => None end) (SampleRegistry.replies SampleRegistry.like [])
    = [Some (2, [(str "two", 0)]); Some (2, [(str "one", 1)])]
  ∧ ∃ parts, SampleRegistry.replies SampleRegistry.like [] = Entries 2 <$> parts
  ∧ concat parts ≡ₚ entries (swarm SampleRegistry.world) (map_to_list (matching SampleRegistry.like (ApiQuery (SampleRegistry.search [] [])) (db SampleRegistry.world))).
Proof.
  split; [vm_compute; reflexivity|].
  destruct (search_pages SampleRegistry.like SampleRegistry.world (ApiQuery (SampleRegistry.search [] [])) 0 (SampleRegistry.two_pages [])
              (SampleRegistry.pages_answered [])) as (parts & keys & HF & _ & _ & _ & HN); [lia|vm_compute; split_and!; reflexivity|left; vm_compute; discriminate|].
  exists parts. split.
  - clear HN. replace (Z.of_nat (size _)) with 2 in HF by (vm_compute; reflexivity). unfold SampleRegistry.replies.
    induction HF as [|p part ps parts [E _] HF IH]; [done|]. cbn [map fmap list_fmap]. by rewrite E, IH.
  - destruct HN as (results & P & _ & E); [left; decide_now|]. rewrite E, <- P. change (drop (Z.to_nat 0) results) with results. rewrite take_ge; [done|].
    apply Nat.eq_le_incl. rewrite (Permutation_length P). vm_compute. reflexivity.
Defined.
