(* ===== verification/Concurrent.v ===== *)
(** * Announces that run at the same time

    The server runs each request in a goroutine of its own.  The state of the swarms is under a mutex that each operation of
    [state.go] takes for itself, and each SQL statement is atomic; between two of these another request may run.  Here [executeAnnounce]
    is cut at these points ([call_step]), and a system of calls interleaves them; takedowns ([HandleAPI]) may come in between.

    The theorem: announces of different peers are serializable, in any order.  What interleaving can break is in [SampleRace]: two announces of
    one peer credit the same bytes twice, and an announce that passed the block list before a takedown brings the swarm back after it. *)

From S2P Require Import Prelude Strconv Hex Sha GoStrings NetAddr Bencode TrackerState UsageSync Recognize Database Announce Url Codec Registry.
From Stdlib Require Import ZArith Lia.
Local Open Scope Z_scope.

(** ** A call in progress *)

Record Call := mkCall { k_run : Run; k_request : Request; k_user : bytes; k_params : AnnounceParams }.

(** What an announce does next. *)
Inductive pc :=
| PBlocklist                                   (* SELECT ... FROM blocklist *)
| PRegistry                                    (* SELECT ... FROM registry *)
| PEvent (addr : bytes)                        (* State.RemovePeer, or State.GetPeer *)
| PTrack (addr : bytes) (up down : Z)          (* State.TrackUsage *)
| PUpdate (addr : bytes)                       (* State.UpdatePeer *)
| PCompleted                                   (* UPDATE registry SET completions ... *)
| PPeers                                       (* State.GetPeers *)
| PCounts (addrs : list bytes)                 (* State.GetCounts *)
| PReplied (r : reply).

Abbreviation thread := (Call * pc)%type.

Section system.
Context (c : Config).

Definition k_hash (k : Call) : bytes := InfoHashHex (k_params k).
Definition k_peer (k : Call) : bytes := PeerIDString (k_params k).

(** The remote address, once the checks have passed. *)
Definition checked (k : Call) : pc :=
  match SplitHostPort (RemoteAddr (k_request k)) with
  | None => PReplied (TrackerError (str "Invalid remote address"))
  | Some (clientIP, _) => PEvent (JoinHostPort clientIP (itoa (Port (k_params k))))
  end.

(** The delta of an announce whose peer was there, if there is any. *)
Definition delta_of (k : Call) (oldPeer : Peer) (addr : bytes) : pc :=
  let deltaUp := clamp_delta (PUploaded (k_params k)) (Uploaded oldPeer) in
  let deltaDown := clamp_delta (PDownloaded (k_params k)) (Downloaded oldPeer) in
  if (0 <? deltaUp) || (0 <? deltaDown) then PTrack addr deltaUp deltaDown else PUpdate addr.

Definition new_peer (k : Call) (addr : bytes) : Peer :=
  mkPeer addr (now (k_run k)) (PLeft (k_params k)) (PDownloaded (k_params k)) (PUploaded (k_params k)).

Definition reply_with (addrs : list bytes) (counts : Z * Z) : reply :=
  let '(complete, incomplete) := counts in
  let '(ipv4, ipv6) := PackPeers addrs in
  let resp : reply := <[str "interval" := BInt 1800]> (<[str "complete" := BInt complete]>
                      (<[str "incomplete" := BInt incomplete]> {[ str "peers" := BStr ipv4 ]})) in
  if bool_decide (ipv6 ≠ []) then <[str "peers6" := BStr ipv6]> resp else resp.

(** One operation of a call. *)
Definition call_step (k : Call) (p : pc) (w : World) : option (pc * World) :=
  let run := k_run k in
  match p with
  | PBlocklist =>
      if is_blocked run (db w) (k_hash k) then Some (PReplied (TrackerError (str "info_hash is blocked")), w) else
      if bool_decide (env_OPEN_TRACKER c ≠ str "true") then Some (PRegistry, w) else Some (checked k, w)
  | PRegistry =>
      if negb (is_registered run (db w) (k_hash k))
      then Some (PReplied (TrackerError (str "Unregistered torrent: info_hash not found in registry")), w) else Some (checked k, w)
  | PEvent addr =>
      if bool_decide (Event (k_params k) = EventStopped) then Some (PPeers, mkWorld (RemovePeer (k_hash k) (k_peer k) (swarm w)) (db w)) else
      if bool_decide (k_user k = []) then Some (PUpdate addr, w) else
      match GetPeer (swarm w) (k_hash k) (k_peer k) with
      | None => Some (PUpdate addr, w)
      | Some oldPeer => Some (delta_of k oldPeer addr, w)
      end
  | PTrack addr up down => Some (PUpdate addr, mkWorld (TrackUsage (k_user k) up down (swarm w)) (db w))
  | PUpdate addr =>
      Some (if bool_decide (Event (k_params k) = EventCompleted) then PCompleted else PPeers,
            mkWorld (UpdatePeer (k_hash k) (k_peer k) (new_peer k addr) (swarm w)) (db w))
  | PCompleted => Some (PPeers, mkWorld (swarm w) (if update_ok run then bump_completions (k_hash k) (db w) else db w))
  | PPeers => Some (PCounts (GetPeers (swarm w) (peers_order run (swarm w)) (k_hash k) (k_peer k) (peer_limit c (k_params k))), w)
  | PCounts addrs => Some (PReplied (reply_with addrs (GetCounts (swarm w) (k_hash k))), w)
  | PReplied _ => None
  end.

(** A call by itself, to its reply. *)
Fixpoint alone (n : nat) (k : Call) (p : pc) (w : World) : option (reply * World) :=
  match p, n with
  | PReplied r, _ => Some (r, w)
  | _, O => None
  | _, S n => '(p, w) ← call_step k p w; alone n k p w
  end.

(** ** The system *)

Inductive sys_step : World * list thread → World * list thread → Prop :=
| s_call i k p p' w w' ts : ts !! i = Some (k, p) → call_step k p w = Some (p', w') → sys_step (w, ts) (w', <[i := (k, p')]> ts).

(** With the registry's requests in between. *)
Inductive api_step (rc : RegistryConfig) : World * list thread → World * list thread → Prop :=
| a_announce s t : sys_step s t → api_step rc s t
| a_api run r w ts : api_step rc (w, ts) (snd (HandleAPI rc run r w), ts).

Definition starts (calls : list Call) : list thread := (λ k, (k, PBlocklist)) <$> calls.
Definition replied (t : thread) : Prop := match t.2 with PReplied _ => True | _ => False end.

(** One call after the other. *)
Definition execute (w : World) (k : Call) : World := snd (executeAnnounce c (k_run k) (k_request k) (k_user k) (k_params k) w).
Definition sequentially (calls : list Call) (w : World) : World := foldl execute w calls.
End system.

(** ** Lemmas: a call by itself *)

Section alone.
Context (c : Config) (k : Call).
Abbreviation done_with w := (announce_reply c (k_run k) (k_hash k) (k_peer k) (k_params k) (swarm w), w).

Lemma alone_next n p w : (∀ r, p ≠ PReplied r) → alone c (S n) k p w = ('(p, w) ← call_step c k p w; alone c n k p w).
Proof. intros H. destruct p; try done. by destruct (H r). Qed.

Lemma alone_list n w : alone c (3 + n) k PPeers w = Some (done_with w).
Proof. destruct n; cbn; unfold reply_with, announce_reply; by destruct (GetCounts _ _), (PackPeers _). Qed.

Lemma alone_update n addr w : alone c (5 + n) k (PUpdate addr) w =
  let w' := mkWorld (UpdatePeer (k_hash k) (k_peer k) (new_peer k addr) (swarm w))
    (if bool_decide (Event (k_params k) = EventCompleted) && update_ok (k_run k) then bump_completions (k_hash k) (db w) else db w) in
  Some (done_with w').
Proof.
  change (5 + n)%nat with (S (4 + n)). rewrite alone_next by done. cbn [call_step mbind option_bind].
  case_bool_decide; cbn [andb]; [|apply (alone_list (S n))].
  change (4 + n)%nat with (S (3 + n)). rewrite alone_next by done. apply alone_list.
Qed.

Lemma alone_checked w : alone c 7 k (checked k) w = Some
  match SplitHostPort (RemoteAddr (k_request k)) with
  | None => (TrackerError (str "Invalid remote address"), w)
  | Some (ip, _) => done_with (apply_announce (k_run k) (k_user k) (k_hash k) (k_peer k) (JoinHostPort ip (itoa (Port (k_params k)))) (k_params k) w)
  end.
Proof.
  unfold checked. destruct (SplitHostPort _) as [[ip pt]|]; [|done]. set (addr := JoinHostPort _ _). unfold apply_announce, credit_usage.
  rewrite alone_next by done. cbn [call_step].
  case_bool_decide; [cbn [mbind option_bind]; apply (alone_list 3)|]. case_bool_decide; [cbn [mbind option_bind]; apply (alone_update 1)|].
  destruct (GetPeer _ _ _) as [old|]; [|cbn [mbind option_bind]; apply (alone_update 1)]. unfold delta_of. cbv zeta.
  destruct (_ || _); [|cbn [mbind option_bind]; apply (alone_update 1)]. cbn [mbind option_bind]. rewrite alone_next by done. apply (alone_update 0).
Qed.

(** Cut into its operations and run without interruption, a call is [executeAnnounce]. *)
Lemma alone_executes w : alone c 9 k PBlocklist w = Some (executeAnnounce c (k_run k) (k_request k) (k_user k) (k_params k) w).
Proof.
  assert (F : ∀ p w r, alone c 7 k p w = Some r → alone c 8 k p w = Some r).
  { intros p. generalize 7%nat as n. intros n. revert p. induction n as [|n IH]; intros q w0 res H; destruct q; try done; cbn [alone] in *;
      (destruct (call_step _ _ _ _) as [[p1 w1]|]; [by apply IH|done]). }
  rewrite alone_next by done. cbn [call_step].
  unfold executeAnnounce. fold (k_hash k) (k_peer k). destruct (is_blocked _ _ _); [done|]. case_bool_decide; cbn [andb mbind option_bind].
  - rewrite alone_next by done. cbn [call_step]. destruct (negb _); [done|]. cbn [mbind option_bind]. rewrite alone_checked. by destruct (SplitHostPort _) as [[]|].
  - apply F. rewrite alone_checked. by destruct (SplitHostPort _) as [[]|].
Qed.
End alone.

(** ** Lemmas: what is left of a call, as operations *)

Inductive op := OTrack (u : bytes) (up down : Z) | OUpdate (h i : bytes) (p : Peer) | ORemove (h i : bytes) | OBump (h : bytes).

Definition act (w : World) (o : op) : World :=
  match o with
  | OTrack u up down => mkWorld (TrackUsage u up down (swarm w)) (db w)
  | OUpdate h i p => mkWorld (UpdatePeer h i p (swarm w)) (db w)
  | ORemove h i => mkWorld (RemovePeer h i (swarm w)) (db w)
  | OBump h => mkWorld (swarm w) (bump_completions h (db w))
  end.

(** The peer it is about. *)
Definition key (o : op) : option (bytes * bytes) := match o with OUpdate h i _ | ORemove h i => Some (h, i) | _ => None end.
Definition apart (o1 o2 : op) : Prop := ∀ x, key o1 = Some x → key o2 ≠ Some x.

Lemma bump_comm h h' d : bump_completions h (bump_completions h' d) = bump_completions h' (bump_completions h d).
Proof.
  destruct d as [reg bl ps]. unfold bump_completions; cbn. f_equal. apply map_eq. intros x. rewrite !map_lookup_imap. destruct (reg !! x) as [r|]; [|done]. cbn.
  f_equal. unfold matches. cbn. repeat (case_decide; cbn in * ); done || tauto.
Qed.

Lemma update_update h i p h' i' p' s : (h, i) ≠ (h', i') → UpdatePeer h i p (UpdatePeer h' i' p' s) = UpdatePeer h' i' p' (UpdatePeer h i p s).
Proof.
  intros Hne. unfold UpdatePeer. cbn. f_equal. destruct (decide (h = h')) as [->|Hh].
  - rewrite !lookup_insert_eq. cbn. rewrite !insert_insert_eq. f_equal. apply insert_insert_ne. congruence.
  - rewrite !lookup_insert_ne by done. by apply insert_insert_ne.
Qed.

Lemma remove_remove h i h' i' s : RemovePeer h i (RemovePeer h' i' s) = RemovePeer h' i' (RemovePeer h i s).
Proof.
  unfold RemovePeer. destruct (decide (h = h')) as [->|Hh].
  - destruct (Peers s !! h') as [m|] eqn:E; cbn; [|by rewrite E]. rewrite !lookup_insert_eq. cbn. rewrite !insert_insert_eq. do 2 f_equal. apply delete_delete.
  - destruct (Peers s !! h) as [m|] eqn:E, (Peers s !! h') as [m'|] eqn:E'; cbn; rewrite ?lookup_insert_ne, ?E, ?E' by done; cbn; try done.
    f_equal. by apply insert_insert_ne.
Qed.

Lemma update_remove h i p h' i' s : (h, i) ≠ (h', i') → UpdatePeer h i p (RemovePeer h' i' s) = RemovePeer h' i' (UpdatePeer h i p s).
Proof.
  intros Hne. unfold RemovePeer. destruct (decide (h = h')) as [->|Hh].
  - unfold UpdatePeer at 2. cbn. rewrite lookup_insert_eq. destruct (Peers s !! h') as [m|] eqn:E; unfold UpdatePeer; cbn.
    + rewrite lookup_insert_eq. cbn. rewrite !insert_insert_eq. do 2 f_equal. rewrite delete_insert_ne by congruence. done.
    + rewrite E. cbn. rewrite insert_insert_eq. do 2 f_equal. rewrite delete_insert_ne by congruence. by rewrite delete_empty.
  - unfold UpdatePeer at 2. cbn. rewrite lookup_insert_ne by done. destruct (Peers s !! h') as [m|] eqn:E; unfold UpdatePeer; cbn; [|done].
    rewrite lookup_insert_ne by done. f_equal. by apply insert_insert_ne.
Qed.

Lemma track_track u a b u' a' b' s : TrackUsage u a b (TrackUsage u' a' b' s) = TrackUsage u' a' b' (TrackUsage u a b s).
Proof.
  unfold TrackUsage. cbn. f_equal. destruct (decide (u = u')) as [->|Hu].
  - rewrite !lookup_insert_eq. cbn. rewrite !insert_insert_eq. f_equal. unfold addUsage. cbn. f_equal; rewrite !wrap64_add_l; f_equal; lia.
  - rewrite !lookup_insert_ne by done. by apply insert_insert_ne.
Qed.

Lemma track_remove u a b h i s : RemovePeer h i (TrackUsage u a b s) = TrackUsage u a b (RemovePeer h i s).
Proof. unfold RemovePeer. change (Peers (TrackUsage u a b s)) with (Peers s). by destruct (Peers s !! h). Qed.

Lemma act_comm w o o' : apart o o' → act (act w o) o' = act (act w o') o.
Proof.
  intros H. assert (Hk : ∀ x y, key o = Some x → key o' = Some y → x ≠ y) by (intros x y E1 E2 ->; by apply (H y)). clear H.
  destruct w as [s d], o as [u a b|h i p|h i|h], o' as [u' a' b'|h' i' p'|h' i'|h']; cbn [act swarm db key] in *; f_equal;
    first [reflexivity | apply track_track | apply remove_remove | apply bump_comm | apply track_remove | (symmetry; apply track_remove)
          | apply update_update, not_eq_sym, Hk; reflexivity | apply update_remove, not_eq_sym, Hk; reflexivity
          | symmetry; apply update_remove, Hk; reflexivity].
Qed.

Lemma acts_comm l l' : (∀ o o', o ∈ l → o' ∈ l' → apart o o') → ∀ w, foldl act (foldl act w l) l' = foldl act (foldl act w l') l.
Proof.
  intros H w. revert w. induction l as [|o l IH]; intros w; [done|]. cbn [foldl]. rewrite IH by (intros; apply H; [by right|done]). f_equal.
  assert (H1 : ∀ o', o' ∈ l' → apart o o') by (intros; apply H; [by left|done]). clear -H1. revert w. induction l' as [|o' l' IH]; intros w; [done|].
  cbn [foldl]. rewrite act_comm by (apply H1; by left). apply IH. intros; apply H1. by right.
Qed.

Section later.
Context (c : Config) (k : Call).

Definition complete_ops : list op := if update_ok (k_run k) then [OBump (k_hash k)] else [].
Definition update_ops (addr : bytes) : list op :=
  OUpdate (k_hash k) (k_peer k) (new_peer k addr) :: (if bool_decide (Event (k_params k) = EventCompleted) then complete_ops else []).
Definition credit_ops (w : World) : list op :=
  if bool_decide (k_user k = []) then [] else
  match GetPeer (swarm w) (k_hash k) (k_peer k) with
  | None => []
  | Some old => match delta_of k old [] with PTrack _ up down => [OTrack (k_user k) up down] | _ => [] end
  end.
Definition event_ops (addr : bytes) (w : World) : list op :=
  if bool_decide (Event (k_params k) = EventStopped) then [ORemove (k_hash k) (k_peer k)] else credit_ops w ++ update_ops addr.
Definition checked_ops (w : World) : list op := match checked k with PEvent addr => event_ops addr w | _ => [] end.
Definition registry_ops (w : World) : list op := if is_registered (k_run k) (db w) (k_hash k) then checked_ops w else [].

(** The operations that a call still makes when it is not interrupted. *)
Definition later (p : pc) (w : World) : list op :=
  match p with
  | PBlocklist => if is_blocked (k_run k) (db w) (k_hash k) then [] else
                  if bool_decide (env_OPEN_TRACKER c ≠ str "true") then registry_ops w else checked_ops w
  | PRegistry => registry_ops w
  | PEvent addr => event_ops addr w
  | PTrack addr up down => OTrack (k_user k) up down :: update_ops addr
  | PUpdate addr => update_ops addr
  | PCompleted => complete_ops
  | PPeers | PCounts _ | PReplied _ => []
  end.
Definition finish (p : pc) (w : World) : World := foldl act w (later p w).

Lemma later_checked w : later (checked k) w = checked_ops w.
Proof. unfold checked_ops, checked. by destruct (SplitHostPort _) as [[]|]. Qed.

(** A step does the first of them. *)
Lemma finish_step p w p' w' : call_step c k p w = Some (p', w') → finish p' w' = finish p w.
Proof.
  unfold finish. destruct p; cbn [call_step later]; intros H.
  - destruct (is_blocked _ _ _); [by injection H as <- <-|]. case_bool_decide; injection H as <- <-; [done|by rewrite later_checked].
  - unfold registry_ops. destruct (is_registered _ _ _); cbn [negb] in H; injection H as <- <-; [by rewrite later_checked|done].
  - unfold event_ops, credit_ops. case_bool_decide; [by injection H as <- <-|]. case_bool_decide; [by injection H as <- <-|].
    destruct (GetPeer _ _ _) as [old|]; [|by injection H as <- <-]. injection H as <- <-. unfold delta_of. cbv zeta. by destruct (_ || _).
  - by injection H as <- <-.
  - injection H as <- <-. unfold update_ops. by case_bool_decide.
  - injection H as <- <-. unfold complete_ops. destruct (update_ok _); [done|]. by destruct w.
  - by injection H as <- <-.
  - by injection H as <- <-.
  - done.
Qed.

Lemma finish_alone n : ∀ p w r w', alone c n k p w = Some (r, w') → w' = finish p w.
Proof.
  induction n as [|n IH]; intros p w r w'; (destruct p; [..|by intros [= _ <-]]); cbn [alone]; try done;
    (destruct (call_step _ _ _ _) as [[p1 w1]|] eqn:E; [|done]); intros Ha; apply IH in Ha; rewrite Ha; by eapply finish_step.
Qed.

Lemma finish_executes w : finish PBlocklist w = execute c w k.
Proof.
  pose proof (alone_executes c k w) as H. unfold execute. destruct (executeAnnounce _ _ _ _ _ _) as [r w'].
  symmetry. by apply (finish_alone 9 PBlocklist w r).
Qed.

Definition me : bytes * bytes := (k_hash k, k_peer k).

Lemma later_keys p w o : o ∈ later p w → key o = None ∨ key o = Some me.
Proof.
  assert (H1 : ∀ o, o ∈ complete_ops → key o = None) by (unfold complete_ops; case_match; set_solver).
  assert (H2 : ∀ a o, o ∈ update_ops a → key o = None ∨ key o = Some me).
  { intros a x [->|H]%elem_of_cons; [by right|left]. case_bool_decide; [by apply H1|set_solver]. }
  assert (H3 : ∀ a o, o ∈ event_ops a w → key o = None ∨ key o = Some me).
  { intros a x. unfold event_ops. case_bool_decide; [intros ->%list_elem_of_singleton; by right|]. intros [Ho|Ho]%elem_of_app; [|by eapply H2].
    left. unfold credit_ops, delta_of in Ho. repeat case_match; set_solver. }
  assert (H4 : o ∈ checked_ops w → key o = None ∨ key o = Some me) by (unfold checked_ops; case_match; eauto; set_solver).
  destruct p; cbn [later]; unfold registry_ops; try (repeat case_match; eauto; set_solver).
  intros [->|H]%elem_of_cons; [by left|by eapply H2].
Qed.

Context (Hrun : engine_ok (rows_order (k_run k))).

(** The reads of a call do not see the operations of another peer's. *)
Lemma registered_bump h d : is_registered (k_run k) (bump_completions h d) (k_hash k) = is_registered (k_run k) d (k_hash k).
Proof.
  unfold is_registered, query_registry. destruct (negb _); [done|].
  assert (E : ∀ m, rows_order (k_run k) m = [] ↔ m = ∅).
  { intros m. specialize (Hrun m). split; [|intros ->; apply Permutation_nil; by rewrite <- Hrun].
    intros E. rewrite E in Hrun. apply map_to_list_empty_iff. by apply Permutation_nil. }
  assert (F : lookup_rows (bump_completions h d) (k_hash k) = ∅ ↔ lookup_rows d (k_hash k) = ∅).
  { unfold lookup_rows. rewrite !map_empty. split; intros H x; specialize (H x); rewrite !map_lookup_filter_None in *; rewrite lookup_bump in *.
    - destruct H as [H|H]; [left; by destruct (registry d !! x)|right]. intros r Hr. specialize (H (if decide (matches h (x, r)) then bump r else r)).
      rewrite Hr in H. specialize (H eq_refl). unfold matches in *. by case_decide.
    - destruct H as [->|H]; [by left|right]. intros r Hr. destruct (registry d !! x) as [r0|]; [|done]. cbn in Hr. injection Hr as <-.
      specialize (H r0 eq_refl). unfold matches in *. by case_decide. }
  destruct (rows_order _ (lookup_rows (bump_completions h d) _)) eqn:E1, (rows_order _ (lookup_rows d _)) eqn:E2; try done; exfalso.
  - apply E, F, E in E1. congruence.
  - apply E, F, E in E2. congruence.
Qed.

Lemma later_act p w o : key o ≠ Some me → later p (act w o) = later p w.
Proof.
  intros Ho. assert (Hg : GetPeer (swarm (act w o)) (k_hash k) (k_peer k) = GetPeer (swarm w) (k_hash k) (k_peer k)).
  { destruct o; cbn; [done| | |done]; [rewrite GetPeer_update|rewrite GetPeer_remove]; (rewrite bool_decide_false; [done|]); intros [-> ->]; by apply Ho. }
  assert (Hb : is_blocked (k_run k) (db (act w o)) (k_hash k) = is_blocked (k_run k) (db w) (k_hash k)) by (by destruct o).
  assert (Hr : is_registered (k_run k) (db (act w o)) (k_hash k) = is_registered (k_run k) (db w) (k_hash k)) by (destruct o; try done; apply registered_bump).
  assert (He : ∀ a, event_ops a (act w o) = event_ops a w) by (intros a; unfold event_ops, credit_ops; by rewrite Hg).
  assert (Hc : checked_ops (act w o) = checked_ops w) by (unfold checked_ops; by case_match).
  destruct p; cbn [later]; unfold registry_ops; by rewrite ?Hb, ?Hr, ?Hc, ?He.
Qed.

Lemma later_acts p l : (∀ o, o ∈ l → key o ≠ Some me) → ∀ w, later p (foldl act w l) = later p w.
Proof.
  intros H. induction l as [|o l IH]; intros w; [done|]. cbn [foldl]. rewrite IH by (intros; apply H; by right). apply later_act, H. by left.
Qed.
End later.

(** ** Lemmas: the system *)

Lemma finish_comm c k p k' p' w : me k ≠ me k' → engine_ok (rows_order (k_run k)) → engine_ok (rows_order (k_run k')) →
  finish c k p (finish c k' p' w) = finish c k' p' (finish c k p w).
Proof.
  intros Hne H H'. assert (A : ∀ o, o ∈ later c k p w → key o ≠ Some (me k')) by (intros o [->| ->]%later_keys; congruence).
  assert (A' : ∀ o, o ∈ later c k' p' w → key o ≠ Some (me k)) by (intros o [->| ->]%later_keys; congruence).
  unfold finish. rewrite (later_acts c k H p _ A'), (later_acts c k' H' p' _ A). apply acts_comm. intros o o' Ho Ho' x Hx Hx'.
  apply later_keys in Ho as [E|E]; [congruence|]. apply later_keys in Ho' as [E'|E']; congruence.
Qed.

Section serial.
Context (c : Config).

Definition pending (ts : list thread) (w : World) : World := foldl (λ w t, finish c t.1 t.2 w) w ts.
Definition sound_engines (ts : list thread) : Prop := Forall (λ t, engine_ok (rows_order (k_run t.1))) ts.

Lemma pending_perm ts ts' : ts ≡ₚ ts' → NoDup ((me ∘ fst) <$> ts) → sound_engines ts → ∀ w, pending ts w = pending ts' w.
Proof.
  induction 1 as [|t ts ts' _ IH|t1 t2 ts|ts1 ts2 ts3 P1 IH1 P2 IH2]; intros Hn Hs w; [done| | |].
  - cbn in *. apply NoDup_cons in Hn as [_ Hn]. apply Forall_cons in Hs as [_ Hs]. by apply IH.
  - cbn in *. apply NoDup_cons in Hn as [Hx Hn]. apply Forall_cons in Hs as [H1 Hs]. apply Forall_cons in Hs as [H2 _].
    f_equal. apply finish_comm; [|done|done]. intros E. apply Hx. cbn in *. rewrite <- E. by left.
  - rewrite IH1 by done. apply IH2; [by rewrite <- P1|]. unfold sound_engines. by rewrite <- P1.
Qed.

Lemma step_pending w ts w' ts' : sys_step c (w, ts) (w', ts') → NoDup ((me ∘ fst) <$> ts) → sound_engines ts →
  pending ts' w' = pending ts w ∧ fst <$> ts' = fst <$> ts.
Proof.
  inversion 1 as [i k p p' ? ? ? Hi Hst]; subst. intros Hn Hs.
  assert (Ef : fst <$> <[i:=(k, p')]> ts = fst <$> ts) by (rewrite list_fmap_insert; apply list_insert_id; by rewrite list_lookup_fmap, Hi).
  split; [|done]. assert (P : ts ≡ₚ (k, p) :: take i ts ++ drop (S i) ts) by (rewrite <- (take_drop_middle ts i _ Hi) at 1; symmetry; apply Permutation_middle).
  assert (P' : <[i:=(k, p')]> ts ≡ₚ (k, p') :: take i ts ++ drop (S i) ts).
  { rewrite insert_take_drop by (by eapply lookup_lt_Some). symmetry. apply Permutation_middle. }
  rewrite (pending_perm _ _ P Hn Hs), (pending_perm _ _ P').
  - cbn. by rewrite (finish_step _ _ _ _ _ _ Hst).
  - by rewrite list_fmap_compose, Ef, <- list_fmap_compose.
  - unfold sound_engines in *. rewrite <- (Forall_fmap fst (λ k, engine_ok (rows_order (k_run k)))) in *. by rewrite Ef.
Qed.

Lemma steps_pending s s' : rtc (sys_step c) s s' → NoDup ((me ∘ fst) <$> s.2) → sound_engines s.2 →
  pending s'.2 s'.1 = pending s.2 s.1 ∧ fst <$> s'.2 = fst <$> s.2.
Proof.
  induction 1 as [|[w1 ts1] [w2 ts2] s3 H _ IH]; [done|]. cbn [fst snd] in *. intros Hn Hs. destruct (step_pending _ _ _ _ H Hn Hs) as [E1 E2].
  rewrite <- E1, <- E2. apply IH.
  - by rewrite list_fmap_compose, E2, <- list_fmap_compose.
  - unfold sound_engines in *. rewrite <- (Forall_fmap fst (λ k, engine_ok (rows_order (k_run k)))) in *. by rewrite E2.
Qed.

Lemma pending_starts calls : ∀ w, pending (starts calls) w = sequentially c calls w.
Proof. unfold pending, starts, sequentially. induction calls as [|k calls IH]; intros w; [done|]. cbn [fmap list_fmap foldl fst snd]. by rewrite finish_executes, IH. Qed.

Lemma pending_replied ts : Forall replied ts → ∀ w, pending ts w = w.
Proof. induction 1 as [|[k p] ts Hp _ IH]; intros w; [done|]. cbn. unfold replied in Hp. cbn in Hp. destruct p; try done. apply IH. Qed.

Lemma starts_fst calls : fst <$> starts calls = calls.
Proof. unfold starts. rewrite <- list_fmap_compose. apply list_fmap_id. Qed.
End serial.

(** ** The property *)

(** C14. Announces of different peers are serializable: however the database queries and the operations on the swarm state of
    concurrent announces interleave, when all have been answered the tracker's world (peers, usage, completions) is the one that
    executing them one after the other produces, in any order. *)
Theorem announces_serialize c calls calls' w w' ts :
  Forall (λ k, engine_ok (rows_order (k_run k))) calls → NoDup (me <$> calls) →
  rtc (sys_step c) (w, starts calls) (w', ts) → Forall replied ts → calls' ≡ₚ calls →
  w' = sequentially c calls' w.
Proof.
  intros He Hn Hr Hd P.
  assert (Hs : sound_engines (starts calls)) by (unfold sound_engines; rewrite <- (Forall_fmap fst (λ k, engine_ok (rows_order (k_run k)))), starts_fst; done).
  assert (Hk : NoDup ((me ∘ fst) <$> starts calls)) by (by rewrite list_fmap_compose, starts_fst).
  destruct (steps_pending c _ _ Hr Hk Hs) as [E _]. cbn [fst snd] in E. rewrite pending_replied in E by done. rewrite E, <- pending_starts.
  apply pending_perm; [|done|done]. by apply fmap_Permutation.
Qed.

(** ** Samples *)

Module SampleConcurrent.
(** Which call moves next. *)
Fixpoint run (order : list nat) (s : World * list thread) : option (World * list thread) :=
  match order with
  | [] => Some s
  | i :: order =>
      '(k, p) ← s.2 !! i; '(p', w) ← call_step sample_config k p s.1;
      run order (w, <[i := (k, p')]> s.2)
  end.

Lemma schedule_steps order : ∀ s s', run order s = Some s' → rtc (sys_step sample_config) s s'.
Proof.
  induction order as [|i order IH]; intros [w ts] s'; cbn; [by intros [= <-]|]. destruct (ts !! i) as [[k p]|] eqn:Hi; [|done]. cbn.
  destruct (call_step _ _ _ _) as [[p' w']|] eqn:Hs; [|done]. cbn. intros H. eapply rtc_l; [by econstructor|by apply IH].
Qed.

Definition is_some {A} (x : option A) : bool := match x with Some _ => true | None => false end.
Definition has_replied (t : thread) : bool := match t.2 with PReplied _ => true | _ => false end.
Lemma replied_all ts : forallb has_replied ts = true → Forall replied ts.
Proof. intros H. apply Forall_forall. rewrite forallb_forall in H. intros [k p] Hx. apply list_elem_of_In, H in Hx. unfold replied. by destruct p. Qed.

(** Alice's peer, which has joined before, and a peer of Bob's, behind the same address. *)
Definition alice : Call := mkCall sample_run sample_request sample_user sample_params2.
Definition bob : Call :=
  mkCall sample_run sample_request (str "bob") (mkParams (InfoHash sample_params) 20 (str "-WL0020-bobbobbobbob") 6882 0 0 42 EventStarted (-1) true).
Definition order : list nat := [0; 1; 0; 1; 0; 1; 1; 0; 1; 0; 1; 0; 0; 0]%nat.
Definition finished : World * list thread := default (sample_world2, []) (run order (sample_world2, starts [alice; bob])).
Lemma goes : is_some (run order (sample_world2, starts [alice; bob])) = true.
Proof. vm_compute. reflexivity. Qed.
Lemma interleaved : rtc (sys_step sample_config) (sample_world2, starts [alice; bob]) (finished.1, finished.2).
Proof.
  pose proof goes as H. apply (schedule_steps order). unfold finished. destruct (run _ _) as [[w ts]|]; [done|discriminate H].
Qed.
Lemma all_replied : Forall replied finished.2.
Proof. apply replied_all. vm_compute. reflexivity. Qed.
End SampleConcurrent.

Lemma announces_serialize_witness :
  usage_of Down (Users (swarm SampleConcurrent.finished.1)) sample_user = 42
  ∧ SampleConcurrent.finished.1 = sequentially sample_config [SampleConcurrent.bob; SampleConcurrent.alice] sample_world2.
Proof.
  split; [vm_compute; reflexivity|].
  apply (announces_serialize sample_config [SampleConcurrent.alice; SampleConcurrent.bob] [SampleConcurrent.bob; SampleConcurrent.alice] sample_world2
    SampleConcurrent.finished.1 SampleConcurrent.finished.2).
  - apply Forall_cons. split; [by intros m|]. apply Forall_cons. split; [by intros m|apply Forall_nil_2].
  - decide_now.
  - exact SampleConcurrent.interleaved.
  - exact SampleConcurrent.all_replied.
  - apply perm_swap.
Defined.

Module SampleRace.
Import SampleConcurrent.

(** The same announce twice at once (a client that retries): both read the old counters before either writes the new ones, and the
    42 bytes are credited twice; one after the other they are credited once. *)
Definition twice : list nat := [0; 0; 0; 1; 1; 1; 0; 1; 0; 0; 0; 0; 1; 1; 1; 1]%nat.
Definition credited (x : World * list thread) : Z := usage_of Down (Users (swarm x.1)) sample_user.
Lemma double_credit : ∃ w ts,
  rtc (sys_step sample_config) (sample_world2, starts [alice; alice]) (w, ts) ∧ Forall replied ts
  ∧ usage_of Down (Users (swarm w)) sample_user = 84
  ∧ usage_of Down (Users (swarm (sequentially sample_config [alice; alice] sample_world2))) sample_user = 42.
Proof.
  assert (H : (x ← run twice (sample_world2, starts [alice; alice]); Some (forallb has_replied x.2, credited x)) = Some (true, 84)) by (vm_compute; reflexivity).
  destruct (run twice _) as [[w ts]|] eqn:E; [|done]. cbn in H. injection H as Hr Hc. exists w, ts.
  split; [by apply (schedule_steps twice)|]. split; [by apply replied_all|]. split; [exact Hc|]. vm_compute. reflexivity.
Qed.

(** An announce passes its checks, the torrent is taken down, and the announce goes on: the blocked hash has a swarm again. *)
Definition takedown : ApiRequest := mkApi (str "DELETE") {[str "info_hash" := [sample_hash]]} (str "key") None.
Definition api : ApiRun := mkApiRun true true (λ _, true) (λ _, true) true map_to_list map_to_list map_to_list id id 1001.
Definition rc : RegistryConfig := mkRegistryConfig [] (str "key").
Definition taken (w : World) : World := snd (HandleAPI rc api takedown w).
Definition came_back (w : World) : bool := is_some (blocklist (db w) !! sample_hash) && is_some (GetPeer (swarm w) sample_hash (PeerID sample_params)).
Lemma takedown_race : ∃ w ts,
  rtc (api_step sample_config rc) (sample_world2, starts [alice]) (w, ts) ∧ Forall replied ts
  ∧ is_Some (blocklist (db w) !! sample_hash) ∧ is_Some (GetPeer (swarm w) sample_hash (PeerID sample_params)).
Proof.
  assert (H : (x ← run [0; 0]%nat (sample_world2, starts [alice]); y ← run [0; 0; 0; 0; 0]%nat (taken x.1, x.2);
    Some (forallb has_replied y.2 && came_back y.1)) = Some true) by (vm_compute; reflexivity).
  destruct (run [0; 0]%nat _) as [[w1 ts1]|] eqn:E1; [|done]. cbn [mbind option_bind fst snd] in H.
  destruct (run _ (taken w1, ts1)) as [[w ts]|] eqn:E2; [|done]. cbn [mbind option_bind fst snd] in H. injection H as [Hr Hc]%andb_prop.
  exists w, ts. split.
  - etrans; [|eapply rtc_l; [apply (a_api sample_config rc api takedown)|]].
    + eapply rtc_subrel; [|by apply (schedule_steps [0; 0]%nat)]. intros s t. by constructor.
    + eapply rtc_subrel; [|by apply (schedule_steps [0; 0; 0; 0; 0]%nat)]. intros s t. by constructor.
  - split; [by apply replied_all|]. apply andb_prop in Hc as [H1 H2]. split; [destruct (blocklist _ !! _)|destruct (GetPeer _ _ _)]; try done; by eexists.
Qed.
End SampleRace.
