(* ===== verification/Scrape.v ===== *)
(** * Package [tracker]: the scrape handler

    Models [internal/tracker/scrape.go].  The reply is the map of "files" that is handed to the bencode encoder, keyed by the raw
    info hash; the two queries per hash can fail, each on its own.  The theorem says which of the requested hashes are listed,
    and with which counts. *)

From S2P Require Import Prelude Strconv Hex GoStrings NetAddr Bencode TrackerState UsageSync Recognize Database Announce.
From Stdlib Require Import ZArith Lia.
Local Open Scope Z_scope.

Definition maxScrapeHashes : nat := 100.

(** ["complete"], ["downloaded"], ["incomplete"] *)
Record ScrapeStats := mkStats { complete : Z; downloaded : Z; incomplete : Z }.

(** Which of the queries succeed, by hash, and the engine's order. *)
Record ScrapeRun := mkScrapeRun { completions_ok : bytes → bool; blocked_ok : bytes → bool; scrape_order : engine_order }.

Definition scrape_one (c : Config) (run : ScrapeRun) (w : World) (files : gmap bytes ScrapeStats) (hashRaw : bytes) : gmap bytes ScrapeStats :=
  if negb (length hashRaw =? 20)%nat && negb (length hashRaw =? 32)%nat then files else
  let hash := hex_encode hashRaw in
  let found := query_registry (completions_ok run hash) (scrape_order run) (db w) hash in
  let openTracker := bool_decide (env_OPEN_TRACKER c = str "true") in
  match found, openTracker with
  | Row _, _ | _, true =>
      let downloaded := match found with Row (_, row) => completions row | _ => 0 end in
      match query_blocklist (blocked_ok run hash) (db w) hash with
      | Row _ => files
      | _ => let '(complete, incomplete) := GetCounts (swarm w) hash in <[hashRaw := mkStats complete downloaded incomplete]> files
      end
  | _, false => files
  end.

Definition HandleScrape (c : Config) (run : ScrapeRun) (query : Values) (w : World) : gmap bytes ScrapeStats :=
  let hashesRaw := take maxScrapeHashes (default [] (query !! str "info_hash")) in
  foldl (scrape_one c run w) ∅ hashesRaw.

(** ** Lemmas *)

(** What a hash gets, whatever the others. *)
Definition stats_of (c : Config) (run : ScrapeRun) (w : World) (hashRaw : bytes) : option ScrapeStats :=
  scrape_one c run w ∅ hashRaw !! hashRaw.

Lemma scrape_one_insert c run w files h : scrape_one c run w files h = match stats_of c run w h with Some s => <[h := s]> files | None => files end.
Proof.
  unfold stats_of, scrape_one. destruct (_ && _); [done|]. cbv zeta.
  destruct (query_registry _ _ _ _) as [[k row]| |]; destruct (bool_decide (env_OPEN_TRACKER c = str "true")); try done;
    destruct (query_blocklist _ _ _); try done; destruct (GetCounts _ _); by rewrite lookup_insert_eq.
Qed.

Lemma scrape_fold c run w hs : ∀ files k, foldl (scrape_one c run w) files hs !! k
  = if decide (k ∈ hs) then match stats_of c run w k with Some s => Some s | None => files !! k end else files !! k.
Proof.
  induction hs as [|h hs IH]; intros files k; [done|]. cbn [foldl]. rewrite IH, scrape_one_insert. destruct (decide (k = h)) as [->|Hne].
  - rewrite (decide_True (P := h ∈ h :: hs)) by left. destruct (stats_of c run w h); [|by destruct (decide _)].
    rewrite lookup_insert_eq. by destruct (decide _).
  - assert (E : (match stats_of c run w h with Some s => <[h:=s]> files | None => files end) !! k = files !! k).
    { destruct (stats_of c run w h); [|done]. by rewrite lookup_insert_ne. }
    rewrite E. destruct (decide (k ∈ hs)); [rewrite decide_True by (by right)|rewrite decide_False by set_solver]; done.
Qed.

(** ** The property *)

(** C33. Scraping: among the first hundred hashes of the request, those of 20 or 32 bytes that are not blocked and are registered
    (or any, on an open tracker) are listed, with the seeders and leechers of their swarm and the completions of a
    registry row that has the hash; nothing else is.  The completions and block list queries of the scrape succeed. *)
Theorem scrape_correct c run query w hashRaw :
  engine_ok (scrape_order run) → (∀ h, completions_ok run h = true ∧ blocked_ok run h = true) →
  let hash := hex_encode hashRaw in
  let registered := ∃ k row, registry (db w) !! k = Some row ∧ matches hash (k, row) in
  (is_Some (HandleScrape c run query w !! hashRaw) ↔
     hashRaw ∈ take 100 (default [] (query !! str "info_hash")) ∧ (length hashRaw = 20%nat ∨ length hashRaw = 32%nat)
     ∧ blocklist (db w) !! hash = None ∧ (env_OPEN_TRACKER c = str "true" ∨ registered))
  ∧ ∀ s, HandleScrape c run query w !! hashRaw = Some s →
      (complete s, incomplete s) = GetCounts (swarm w) hash
      ∧ ((¬ registered ∧ downloaded s = 0) ∨ ∃ k row, registry (db w) !! k = Some row ∧ matches hash (k, row) ∧ downloaded s = completions row).
Proof.
  intros Ho Hok hash registered. destruct (Hok hash) as [H1 H2]. unfold HandleScrape. rewrite scrape_fold. change (take maxScrapeHashes) with (@take bytes 100).
  set (hs := take 100 _). assert (Hreg : match query_registry true (scrape_order run) (db w) hash with
    | Row (k, row) => registry (db w) !! k = Some row ∧ matches hash (k, row) | NoRows => ¬ registered | QueryError => False end).
  { destruct (query_registry _ _ _ _) as [[k row]| |] eqn:E; [by apply (query_registry_row _ _ _ _ Ho E)| |].
    - intros (k & row & Hk & Hm). by eapply query_registry_none.
    - unfold query_registry in E. by destruct (scrape_order run _). }
  assert (Hst : stats_of c run w hashRaw = if negb (length hashRaw =? 20)%nat && negb (length hashRaw =? 32)%nat then None else
    match blocklist (db w) !! hash with Some _ => None | None =>
    match query_registry true (scrape_order run) (db w) hash with
    | Row (_, row) => Some (mkStats (fst (GetCounts (swarm w) hash)) (completions row) (snd (GetCounts (swarm w) hash)))
    | _ => if bool_decide (env_OPEN_TRACKER c = str "true") then Some (mkStats (fst (GetCounts (swarm w) hash)) 0 (snd (GetCounts (swarm w) hash))) else None
    end end).
  { unfold stats_of, scrape_one. fold hash. rewrite H1, H2. destruct (_ && _); [done|]. unfold query_blocklist. cbn [negb]. destruct (GetCounts (swarm w) hash) as [a b].
    destruct (query_registry true _ _ _) as [[k row]| |]; destruct (bool_decide (env_OPEN_TRACKER c = str "true")); destruct (blocklist (db w) !! hash); try done;
      by rewrite lookup_insert_eq. }
  assert (Hlen : negb (length hashRaw =? 20)%nat && negb (length hashRaw =? 32)%nat = false ↔ length hashRaw = 20%nat ∨ length hashRaw = 32%nat).
  { destruct (Nat.eqb_spec (length hashRaw) 20), (Nat.eqb_spec (length hashRaw) 32); cbn; split; (tauto || done). }
  rewrite Hst. split.
  - destruct (decide (hashRaw ∈ hs)); [|split; [by intros [? ?]|tauto]].
    destruct (negb _ && _); [split; [by intros [? ?]|intros (_ & Hl & _); by apply Hlen in Hl]|].
    destruct (blocklist (db w) !! hash); [split; [by intros [? ?]|intros (_ & _ & ? & _); done]|].
    destruct (query_registry _ _ _ _) as [[k row]| |]; [|case_bool_decide|done]; (split; [intros Hs; split_and!; try tauto|intros (_ & _ & _ & Hr); eauto]).
    + right. by exists k, row.
    + by destruct Hs.
    + destruct Hr; [done|by destruct Hreg].
  - intros s. destruct (decide _); [|done]. destruct (negb _ && _); [done|]. destruct (blocklist _ !! _); [done|].
    destruct (query_registry _ _ _ _) as [[k row]| |]; [intros [= <-]|case_bool_decide; [intros [= <-]|done]|done]; cbn; (split; [by destruct (GetCounts _ _)|]).
    + right. exists k, row. by destruct Hreg.
    + by left.
Qed.

(** A registered hash, an unregistered one, and one of a wrong length. *)
Definition sample_scrape : Values := {[ str "info_hash" := [str "aaaaaaaaaaaaaaaaaaaa"; str "bbbbbbbbbbbbbbbbbbbb"; str "short"] ]}.
Definition sample_scrape_run : ScrapeRun := mkScrapeRun (λ _, true) (λ _, true) map_to_list.
Definition sample_stats : gmap bytes ScrapeStats := HandleScrape sample_config sample_scrape_run sample_scrape sample_world2.

Lemma scrape_correct_witness :
  sample_stats !! str "aaaaaaaaaaaaaaaaaaaa" = Some (mkStats 0 0 1) ∧ sample_stats !! str "bbbbbbbbbbbbbbbbbbbb" = None
  ∧ (complete (mkStats 0 0 1), incomplete (mkStats 0 0 1)) = GetCounts (swarm sample_world2) (hex_encode (str "aaaaaaaaaaaaaaaaaaaa")).
Proof.
  assert (H : sample_stats !! str "aaaaaaaaaaaaaaaaaaaa" = Some (mkStats 0 0 1)) by (vm_compute; reflexivity).
  split; [exact H|]. split; [vm_compute; reflexivity|].
  refine (proj1 (proj2 (scrape_correct sample_config sample_scrape_run sample_scrape sample_world2 (str "aaaaaaaaaaaaaaaaaaaa") _ _) _ H)).
  - intros m. reflexivity.
  - intros h. split; reflexivity.
Defined.
