(* ===== verification/NetUrl.v ===== *)
(** * URLs: Go's [net/url] as the program uses it

    [url.Parse], [URL.String] and what they call, of the Go release the module names (1.25): schemes, opaque URLs, user
    information, hosts with ports and bracketed IPv6 literals, the decoded path with its encoding hint, queries and fragments.
    The lemmas say what a URL built from unescaped parts parses to and prints as. *)

From S2P Require Import Prelude Hex GoStrings NetAddr Recognize Url.
From Stdlib Require Import ZArith Lia.
Local Open Scope Z_scope.

(** ** Escaping, by the part of the URL *)

Inductive encoding := encodePath | encodeUserPassword | encodeHost | encodeZone | encodeFragment.

#[export] Instance encoding_eq_decision : EqDecision encoding.
Proof. solve_decision. Defined.

Definition alphanum (b : byte) : bool :=
  in_range (chr "a") (chr "z") b || in_range (chr "A") (chr "Z") b || in_range (chr "0") (chr "9") b.
Definition is_one_of (chars : bytes) (b : byte) : bool := bool_decide (b ∈ chars).
Definition quote : byte := zbyte 34.

Definition shouldEscape (mode : encoding) (c : byte) : bool :=
  if alphanum c then false
  else if bool_decide (mode = encodeHost ∨ mode = encodeZone) && is_one_of (quote :: str "!$&'()*+,;=:[]<>") c then false
  else if is_one_of (str "-_.~") c then false
  else
    match mode with
    | encodePath => if is_one_of (str "$&+,/:;=?@") c then bool_decide (c = chr "?") else true
    | encodeUserPassword => if is_one_of (str "$&+,/:;=?@") c then is_one_of (str "@/?:") c else true
    | encodeFragment => if is_one_of (str "$&+,/:;=?@") c then false else negb (is_one_of (str "!()*") c)
    | encodeHost | encodeZone => true
    end.

Definition escape_mode_byte (mode : encoding) (b : byte) : bytes :=
  if shouldEscape mode b then [chr "%"; upperhex (Z.shiftr (bval b) 4); upperhex (Z.land (bval b) 15)] else [b].
Definition escape (mode : encoding) (s : bytes) : bytes := flat_map (escape_mode_byte mode) s.

(** A percent-escape is allowed in the mode. *)
Definition escape_ok (mode : encoding) (a b : byte) (v : byte) : bool :=
  let is25 := bool_decide (a = chr "2" ∧ b = chr "5") in
  match mode with
  | encodeHost => negb ((default 0 (unhex a) <? 8) && negb is25)
  | encodeZone => negb (negb is25 && negb (bool_decide (v = chr " ")) && shouldEscape encodeHost v)
  | _ => true
  end.

(** An unescaped byte is allowed in the mode. *)
Definition plain_ok (mode : encoding) (c : byte) : bool :=
  negb (bool_decide (mode = encodeHost ∨ mode = encodeZone) && (bval c <? 0x80) && shouldEscape mode c).

Fixpoint unescape (mode : encoding) (s : bytes) : option bytes :=
  match s with
  | [] => Some []
  | c :: r =>
      if bool_decide (c = chr "%") then
        match r with
        | a :: b :: r' =>
            v ← unhex2 a b; if escape_ok mode a b v then k ← unescape mode r'; Some (v :: k) else None
        | _ => None
        end
      else if plain_ok mode c then k ← unescape mode r; Some (c :: k) else None
  end.

(** ** URLs *)

Record Userinfo := mkUser { username : bytes; password : option bytes }.

Record URL := mkURL {
  Scheme : bytes;
  Opaque : bytes;
  User : option Userinfo;
  Host : bytes;
  UPath : bytes;
  RawPath : bytes;
  OmitHost : bool;
  ForceQuery : bool;
  RawQuery : bytes;
  Fragment : bytes;
  RawFragment : bytes }.

#[export] Instance userinfo_eq_decision : EqDecision Userinfo.
Proof. solve_decision. Defined.
#[export] Instance url_eq_decision : EqDecision URL.
Proof. solve_decision. Defined.

(** *** Parsing *)

Definition alpha (b : byte) : bool := in_range (chr "a") (chr "z") b || in_range (chr "A") (chr "Z") b.

(** [getScheme]: the scheme and what follows it; the position in the whole is [i]. *)
Fixpoint scheme_loop (first : bool) (acc s : bytes) : option (bytes * option bytes) :=
  match s with
  | [] => Some ([], None)
  | c :: r =>
      if alpha c then scheme_loop false (acc ++ [c]) r
      else if in_range (chr "0") (chr "9") c || is_one_of (str "+-.") c then
        if first then Some ([], None) else scheme_loop false (acc ++ [c]) r
      else if bool_decide (c = chr ":") then if first then None else Some (acc, Some r)
      else Some ([], None)
  end.
Definition getScheme (rawURL : bytes) : option (bytes * bytes) :=
  '(scheme, rest) ← scheme_loop true [] rawURL; Some (scheme, default rawURL rest).

Definition validOptionalPort (port : bytes) : bool :=
  match port with [] => true | c :: r => bool_decide (c = chr ":") && forallb (in_range (chr "0") (chr "9")) r end.

(** [strings.Index(s, "%25")] *)
Fixpoint index_zone (i : nat) (s : bytes) : option nat :=
  if has_prefix s (str "%25") then Some i else match s with [] => None | _ :: r => index_zone (S i) r end.

(** [netip.ParseAddr], for what may stand in brackets: an IPv6 address with an optional zone. *)
Definition ip_literal (s : bytes) : bool :=
  let '(addr, zone) := match index_byte s (chr "%") with Some i => (take i s, Some (drop (S i) s)) | None => (s, None) end in
  match head (filter (λ b, b = chr "." ∨ b = chr ":" ∨ b = chr "%") s) with
  | Some c => bool_decide (c = chr ":") && negb (bool_decide (zone = Some [])) && bool_decide (is_Some (parse_v6 addr))
  | None => false
  end.

Definition parseHost (host : bytes) : option bytes :=
  match last_index_byte host (chr "[") with
  | Some openB =>
      closeB ← last_index_byte host (chr "]");
      let colonPort := drop (S closeB) host in
      if negb (validOptionalPort colonPort) then None else
      port ← unescape encodeHost colonPort;
      let hostname := slice host (S openB) closeB in
      name ← match index_zone 0 hostname with
             | Some z => h ← unescape encodeHost (take z hostname); zone ← unescape encodeZone (drop z hostname); Some (h ++ zone)
             | None => unescape encodeHost hostname
             end;
      if ip_literal name then Some (chr "[" :: name ++ chr "]" :: port) else None
  | None =>
      match last_index_byte host (chr ":") with
      | Some i => if validOptionalPort (drop i host) then unescape encodeHost host else None
      | None => unescape encodeHost host
      end
  end.

Definition validUserinfo (s : bytes) : bool := forallb (λ b, alphanum b || is_one_of (str "-._:~!$&'()*+,;=%@") b) s.

Definition parseAuthority (authority : bytes) : option (option Userinfo * bytes) :=
  match last_index_byte authority (chr "@") with
  | None => host ← parseHost authority; Some (None, host)
  | Some i =>
      host ← parseHost (drop (S i) authority);
      let userinfo := take i authority in
      if negb (validUserinfo userinfo) then None else
      match index_byte userinfo (chr ":") with
      | None => name ← unescape encodeUserPassword userinfo; Some (Some (mkUser name None), host)
      | Some j =>
          name ← unescape encodeUserPassword (take j userinfo);
          pass ← unescape encodeUserPassword (drop (S j) userinfo);
          Some (Some (mkUser name (Some pass)), host)
      end
  end.

(** [setPath]: the decoded path, and the given encoding if it is not the default one. *)
Definition setPath (p : bytes) : option (bytes * bytes) :=
  path ← unescape encodePath p; Some (path, if bool_decide (p = escape encodePath path) then [] else p).
Definition setFragment (f : bytes) : option (bytes * bytes) :=
  frag ← unescape encodeFragment f; Some (frag, if bool_decide (f = escape encodeFragment frag) then [] else f).

Definition ctl_byte (b : byte) : bool := (bval b <? 0x20) || (bval b =? 0x7F).
Definition to_lower (b : byte) : byte := if in_range (chr "A") (chr "Z") b then zbyte (bval b + 32) else b.

(** [strings.Count(s, "?")] *)
Definition count_byte (c : byte) (s : bytes) : nat := length (filter (λ b, b = c) s).

(** [parse], without the fragment. *)
Definition parse_url (rawURL : bytes) : option URL :=
  if existsb ctl_byte rawURL then None else
  if bool_decide (rawURL = str "*") then Some (mkURL [] [] None [] (str "*") [] false false [] [] []) else
  '(scheme, rest) ← getScheme rawURL;
  let scheme := to_lower <$> scheme in
  let force := has_suffix rest (str "?") && (count_byte (chr "?") rest =? 1)%nat in
  let '(rest, query) := if force then (take (length rest - 1) rest, []) else cut (chr "?") rest in
  if negb (has_prefix rest (str "/")) && negb (bool_decide (scheme = [])) then
    Some (mkURL scheme rest None [] [] [] false force query [] [])
  else if negb (has_prefix rest (str "/")) && bool_decide (chr ":" ∈ fst (cut (chr "/") rest)) then None else
  let slashes := has_prefix rest (str "//") in
  let authority_here := (negb (bool_decide (scheme = [])) || negb (has_prefix rest (str "///"))) && slashes in
  '(user, host, rest, omit) ←
    (if authority_here then
       let authority := drop 2 rest in
       let '(authority, rest) := match index_byte authority (chr "/") with Some i => (take i authority, drop i authority) | None => (authority, []) end in
       '(user, host) ← parseAuthority authority; Some (user, host, rest, false)
     else Some (None, [], rest, negb (bool_decide (scheme = [])) && has_prefix rest (str "/")));
  '(path, raw) ← setPath rest;
  Some (mkURL scheme [] user host path raw omit force query [] []).

Definition Parse (rawURL : bytes) : option URL :=
  let '(u, frag) := cut (chr "#") rawURL in
  url ← parse_url u;
  if bool_decide (frag = []) then Some url else
  '(f, raw) ← setFragment frag;
  Some (mkURL (Scheme url) (Opaque url) (User url) (Host url) (UPath url) (RawPath url) (OmitHost url) (ForceQuery url) (RawQuery url) f raw).

(** *** Printing *)

Definition valid_encoded (mode : encoding) (s : bytes) : bool :=
  forallb (λ b, is_one_of (str "!$&'()*+,;=:@[]%") b || negb (shouldEscape mode b)) s.

Definition EscapedPath (u : URL) : bytes :=
  if negb (bool_decide (RawPath u = [])) && valid_encoded encodePath (RawPath u) && bool_decide (unescape encodePath (RawPath u) = Some (UPath u))
  then RawPath u
  else if bool_decide (UPath u = str "*") then str "*" else escape encodePath (UPath u).
Definition EscapedFragment (u : URL) : bytes :=
  if negb (bool_decide (RawFragment u = [])) && valid_encoded encodeFragment (RawFragment u)
     && bool_decide (unescape encodeFragment (RawFragment u) = Some (Fragment u))
  then RawFragment u else escape encodeFragment (Fragment u).

Definition user_string (u : Userinfo) : bytes :=
  if bool_decide (username u = [] ∧ default [] (password u) = []) then [] else
  escape encodeUserPassword (username u) ++
  match password u with Some p => chr ":" :: escape encodeUserPassword p | None => [] end.

Definition url_string (u : URL) : bytes :=
  let scheme := if bool_decide (Scheme u = []) then [] else Scheme u ++ str ":" in
  let body :=
    if negb (bool_decide (Opaque u = [])) then scheme ++ Opaque u else
    let no_host := bool_decide (Host u = []) && bool_decide (User u = None) in
    let authority :=
      if bool_decide (Scheme u = []) && no_host then []
      else if OmitHost u && no_host then []
      else (if bool_decide (UPath u = []) && no_host then [] else str "//")
           ++ match User u with Some ui => user_string ui ++ str "@" | None => [] end ++ escape encodeHost (Host u) in
    let path := EscapedPath u in
    let buf := scheme ++ authority in
    let buf := if negb (bool_decide (path = [])) && negb (has_prefix path (str "/")) && negb (bool_decide (Host u = [])) then buf ++ str "/" else buf in
    let buf := if bool_decide (buf = []) && bool_decide (chr ":" ∈ fst (cut (chr "/") path)) then buf ++ str "./" else buf in
    buf ++ path in
  body ++ (if ForceQuery u || negb (bool_decide (RawQuery u = [])) then chr "?" :: RawQuery u else [])
       ++ (if bool_decide (Fragment u = []) then [] else chr "#" :: EscapedFragment u).

Example parse_full : Parse (str "HTTP://me:p%40ss@[::1]:80/a%2Fb/c?q=1#f%20g") =
  Some (mkURL (str "http") [] (Some (mkUser (str "me") (Some (str "p@ss")))) (str "[::1]:80") (str "/a/b/c") (str "/a%2Fb/c") false false (str "q=1") (str "f g") []).
Proof. vm_compute. reflexivity. Qed.
Example print_full : (url_string <$> Parse (str "http://me:p%40ss@[::1]:80/a%2Fb/c?q=1#f%20g")) = Some (str "http://me:p%40ss@[::1]:80/a%2Fb/c?q=1#f%20g").
Proof. vm_compute. reflexivity. Qed.
Example parse_bad : Parse (str "http://[1.2.3.4]/") = None ∧ Parse (str "a b:c/") = None ∧ Parse (str ":x") = None ∧ Parse (str "http://h:x/") = None
  ∧ Parse (str "http://h%41/") = None ∧ Parse (str "/%zz") = None.
Proof. vm_compute. done. Qed.
Example parse_other : (Opaque <$> Parse (str "mailto:a@b")) = Some (str "a@b") ∧ (url_string <$> Parse (str "a/b?")) = Some (str "a/b?")
  ∧ (url_string <$> Parse (str "file:///x")) = Some (str "file:///x") ∧ (url_string <$> Parse (str "//h/x y")) = Some (str "//h/x%20y").
Proof. vm_compute. done. Qed.

(** ** Lemmas: text that needs no escaping *)

Definition clear (mode : encoding) (b : byte) : bool := negb (shouldEscape mode b) && negb (bool_decide (b = chr "%")).

Lemma clear_spec mode b : clear mode b = true ↔ shouldEscape mode b = false ∧ b ≠ chr "%".
Proof. unfold clear. rewrite andb_true_iff, !negb_true_iff, bool_decide_eq_false. done. Qed.

Lemma escape_clear mode s : Forall (λ b, clear mode b = true) s → escape mode s = s.
Proof.
  induction 1 as [|b s Hb _ IH]; [done|]. apply clear_spec in Hb as [Hb _]. unfold escape in *. cbn [flat_map]. unfold escape_mode_byte at 1.
  by rewrite Hb, IH.
Qed.

Lemma unescape_clear mode s : Forall (λ b, clear mode b = true) s → unescape mode s = Some s.
Proof.
  induction 1 as [|b s Hb _ IH]; [done|]. apply clear_spec in Hb as [Hb Hp]. cbn [unescape]. rewrite bool_decide_false by done.
  unfold plain_ok. by rewrite Hb, andb_false_r, IH.
Qed.

(** ** Lemmas: a URL of plain parts

    [scheme://host/path], with a host that its parser takes as it is, and a path that needs no escape. *)

Record plain_url (scheme host path : bytes) : Prop := {
  pu_scheme : scheme ≠ [] ∧ Forall (λ b, in_range (chr "a") (chr "z") b = true) scheme;
  pu_host : host ≠ [] ∧ parseHost host = Some host ∧ Forall (λ b, clear encodeHost b = true) host;
  pu_slash : path = [] ∨ ∃ p, path = chr "/" :: p;
  pu_path : Forall (λ b, clear encodePath b = true) path }.

Definition plain_text (scheme host path : bytes) : bytes := scheme ++ str "://" ++ host ++ path.

(** The characters that structure a URL are not among those of its parts. *)
Definition separators : bytes := str "?#" ++ map zbyte (127 :: seqZ 0 32).

Lemma clear_host_apart b : clear encodeHost b = true → b ∉ chr "/" :: chr "@" :: separators.
Proof.
  revert b. assert (H : Forall (λ b, clear encodeHost b = false) (chr "/" :: chr "@" :: separators)) by (decide_now).
  intros b Hb Hin. rewrite Forall_forall in H. rewrite (H b Hin) in Hb. done.
Qed.
Lemma clear_path_apart b : clear encodePath b = true → b ∉ separators.
Proof.
  revert b. assert (H : Forall (λ b, clear encodePath b = false) separators) by (decide_now).
  intros b Hb Hin. rewrite Forall_forall in H. rewrite (H b Hin) in Hb. done.
Qed.
Lemma lower_apart b : in_range (chr "a") (chr "z") b = true → b ∉ separators.
Proof.
  revert b. assert (H : Forall (λ b, in_range (chr "a") (chr "z") b = false) separators) by (decide_now).
  intros b Hb Hin. rewrite Forall_forall in H. rewrite (H b Hin) in Hb. done.
Qed.

Lemma ctl_separator b : ctl_byte b = true → b ∈ separators.
Proof. revert b. refine (forall_byte (λ b, ctl_byte b = true → b ∈ separators) _). vm_compute. reflexivity. Qed.

Lemma cut_none c s : c ∉ s → cut c s = (s, []).
Proof. intros Hc. unfold cut. by rewrite (proj2 (index_byte_None s c) Hc). Qed.

Lemma filter_none c (s : bytes) : c ∉ s → filter (λ b, b = c) s = [].
Proof.
  induction s as [|b s IH]; intros Hc; [done|]. apply not_elem_of_cons in Hc as [Hb Hs].
  rewrite filter_cons_False by congruence. by apply IH.
Qed.

Lemma no_ctl s : Forall (λ b, ctl_byte b = false) s → existsb ctl_byte s = false.
Proof. induction 1 as [|b s Hb _ IH]; [done|]. cbn [existsb]. by rewrite Hb, IH. Qed.

Lemma apart_ctl s : Forall (λ b, b ∉ separators) s → Forall (λ b, ctl_byte b = false) s.
Proof. intros H. eapply Forall_impl; [exact H|]. intros b Hb. apply not_true_is_false. intros Hc. by apply Hb, ctl_separator. Qed.

Lemma lower_scheme_byte b : in_range (chr "a") (chr "z") b = true → alpha b = true ∧ to_lower b = b.
Proof.
  revert b. refine (forall_byte (λ b, in_range (chr "a") (chr "z") b = true → alpha b = true ∧ to_lower b = b) _).
  vm_compute. reflexivity.
Qed.

Lemma scheme_loop_app first acc scheme r :
  Forall (λ b, in_range (chr "a") (chr "z") b = true) scheme → first = false ∨ scheme ≠ [] →
  scheme_loop first acc (scheme ++ chr ":" :: r) = Some (acc ++ scheme, Some r).
Proof.
  intros Hs. revert first acc. induction Hs as [|b s Hb _ IH]; intros first acc Hf.
  - destruct Hf as [->|]; [|done]. by rewrite app_nil_r.
  - cbn [app scheme_loop]. apply lower_scheme_byte in Hb as [Hb _]. rewrite Hb, (IH false (acc ++ [b])) by (by left).
    by rewrite <- app_assoc.
Qed.

Lemma to_lower_scheme scheme : Forall (λ b, in_range (chr "a") (chr "z") b = true) scheme → to_lower <$> scheme = scheme.
Proof. induction 1 as [|b s Hb _ IH]; [done|]. apply lower_scheme_byte in Hb as [_ Hb]. csimpl. by rewrite Hb, IH. Qed.

Lemma plain_apart scheme host path : plain_url scheme host path → Forall (λ b, b ∉ separators) (plain_text scheme host path).
Proof.
  intros [[_ Hs] (_ & _ & Hh) _ Hp]. unfold plain_text. rewrite !Forall_app. split_and!.
  - eapply Forall_impl; [exact Hs|]. intros b. apply lower_apart.
  - decide_now.
  - eapply Forall_impl; [exact Hh|]. intros b Hb%clear_host_apart Hin. apply Hb. by do 2 right.
  - eapply Forall_impl; [exact Hp|]. intros b. apply clear_path_apart.
Qed.

Lemma apart_not (s : bytes) c : c ∈ separators → Forall (λ b, b ∉ separators) s → c ∉ s.
Proof. intros Hc Hs Hin. rewrite Forall_forall in Hs. by apply (Hs c). Qed.

Definition plain (scheme host path : bytes) : URL := mkURL scheme [] None host path [] false false [] [] [].

Lemma setPath_plain path : Forall (λ b, clear encodePath b = true) path → setPath path = Some (path, []).
Proof. intros H. unfold setPath. rewrite (unescape_clear _ _ H). cbn. rewrite (escape_clear _ _ H). by rewrite bool_decide_true. Qed.

Lemma host_apart host c : c ∈ str "/@" → Forall (λ b, clear encodeHost b = true) host → c ∉ host.
Proof. intros Hc Hh Hin. rewrite Forall_forall in Hh. apply (clear_host_apart c (Hh c Hin)). cbn in Hc |- *. set_solver. Qed.

Lemma authority_split host path :
  Forall (λ b, clear encodeHost b = true) host → path = [] ∨ (∃ p, path = chr "/" :: p) →
  match index_byte (host ++ path) (chr "/") with Some i => (take i (host ++ path), drop i (host ++ path)) | None => (host ++ path, []) end = (host, path).
Proof.
  intros Hh Hp. assert (Hn : chr "/" ∉ host) by (apply host_apart; [decide_now|done]).
  destruct Hp as [->|[p ->]].
  - rewrite app_nil_r. by rewrite (proj2 (index_byte_None host (chr "/")) Hn).
  - rewrite index_byte_app_r by done. by rewrite take_app_length, drop_app_length.
Qed.

Lemma parseAuthority_plain host :
  parseHost host = Some host → Forall (λ b, clear encodeHost b = true) host → parseAuthority host = Some (None, host).
Proof.
  intros Hp Hh. unfold parseAuthority.
  rewrite (proj2 (last_index_byte_None host (chr "@"))) by (apply host_apart; [decide_now|done]).
  by rewrite Hp.
Qed.

Lemma scheme_not_star scheme x : scheme ≠ [] → scheme ++ chr ":" :: x ≠ str "*".
Proof. intros Hs E. destruct scheme as [|a s]; [done|]. apply (f_equal tail) in E. cbn [app tail] in E. by destruct s. Qed.

Lemma has_suffix_last s b c : has_suffix (s ++ [b]) [c] = bool_decide (b = c).
Proof.
  unfold has_suffix. rewrite length_app. cbn [length]. replace (length s + 1 - 1)%nat with (length s) by lia.
  rewrite drop_app_length, (proj2 (Nat.leb_le _ _)) by lia. cbn [andb]. apply bool_decide_ext. split; congruence.
Qed.

Lemma rest_apart scheme host path : plain_url scheme host path → Forall (λ b, b ∉ separators) (str "//" ++ host ++ path).
Proof.
  intros Hu%plain_apart. apply Forall_app in Hu as [_ Hu]. apply (Forall_app _ [chr ":"]) in Hu as [_ Hu]. exact Hu.
Qed.

Definition with_query (u : URL) (q : bytes) : URL :=
  mkURL (Scheme u) (Opaque u) (User u) (Host u) (UPath u) (RawPath u) (OmitHost u) (ForceQuery u) q (Fragment u) (RawFragment u).

(** What follows the scheme, once the query is cut off it. *)
Lemma parse_url_rest scheme host path rest q :
  plain_url scheme host path → Forall (λ b, ctl_byte b = false) (scheme ++ chr ":" :: rest) →
  has_suffix rest (str "?") && (count_byte (chr "?") rest =? 1)%nat = false → cut (chr "?") rest = (str "//" ++ host ++ path, q) →
  parse_url (scheme ++ chr ":" :: rest) = Some (with_query (plain scheme host path) q).
Proof.
  intros [[Hne Hs] (Hhne & Hph & Hh) Hsl Hp] Hc Hf Hq. unfold parse_url.
  rewrite no_ctl by done. rewrite bool_decide_false by (by apply scheme_not_star).
  unfold getScheme. rewrite scheme_loop_app by eauto. cbn [app mbind option_bind default]. rewrite to_lower_scheme by done.
  cbv zeta. change (id rest) with rest. rewrite Hf, Hq.
  cbv zeta iota beta. rewrite (bool_decide_false (scheme = [])) by done. cbn [negb].
  assert (E1 : has_prefix (str "//" ++ host ++ path) (str "/") = true) by (apply has_prefix_spec; by exists (str "/" ++ host ++ path)).
  assert (E2 : has_prefix (str "//" ++ host ++ path) (str "//") = true) by (apply has_prefix_spec; by exists (host ++ path)).
  rewrite E1, E2. cbn [negb andb orb]. change (drop 2 (str "//" ++ host ++ path)) with (host ++ path).
  rewrite authority_split by done. rewrite parseAuthority_plain by done. cbn [mbind option_bind].
  by rewrite setPath_plain by done.
Qed.

Lemma parse_plain scheme host path : plain_url scheme host path → Parse (plain_text scheme host path) = Some (plain scheme host path).
Proof.
  intros Hu. pose proof (plain_apart _ _ _ Hu) as Ha. pose proof (rest_apart _ _ _ Hu) as Hr.
  assert (Hq : chr "?" ∉ str "//" ++ host ++ path) by (apply apart_not; [decide_now|done]).
  unfold Parse. rewrite cut_none by (apply apart_not; [decide_now|done]).
  unfold plain_text. change (str "://" ++ ?x) with (chr ":" :: str "//" ++ x).
  rewrite (parse_url_rest _ host path _ [] Hu); [done|by apply apart_ctl| |by rewrite cut_none].
  unfold count_byte. by rewrite filter_none, andb_false_r by done.
Qed.

(** With a query, of characters that do not structure the URL. *)
Lemma parse_query_plain scheme host path q :
  plain_url scheme host path → q ≠ [] → Forall (λ b, b ∉ separators) q →
  Parse (plain_text scheme host path ++ chr "?" :: q) = Some (with_query (plain scheme host path) q).
Proof.
  intros Hu Hne Hs. pose proof (plain_apart _ _ _ Hu) as Ha. pose proof (rest_apart _ _ _ Hu) as Hr.
  assert (Hq : chr "?" ∉ str "//" ++ host ++ path) by (apply apart_not; [decide_now|done]).
  unfold Parse. rewrite cut_none.
  2:{ rewrite not_elem_of_app, not_elem_of_cons. split_and!; [apply apart_not; [decide_now|done]|done|apply apart_not; [decide_now|done]]. }
  assert (E : plain_text scheme host path ++ chr "?" :: q = scheme ++ chr ":" :: (str "//" ++ host ++ path) ++ chr "?" :: q)
    by (unfold plain_text; by rewrite <- !app_assoc).
  rewrite E in *. rewrite (parse_url_rest _ host path _ q Hu); [done| | |by apply cut_app].
  - rewrite <- E. apply Forall_app. split; [by apply apart_ctl|]. constructor; [done|by apply apart_ctl].
  - destruct (exists_last Hne) as (r & b & ->). change (chr "?" :: r ++ [b]) with ((chr "?" :: r) ++ [b]). rewrite app_assoc.
    unfold count_byte. change (str "?") with [chr "?"] at 1. rewrite has_suffix_last, bool_decide_false; [done|].
    intros ->. apply Forall_app in Hs as [_ Hs]. inversion Hs as [|? ? Hb]. apply Hb. decide_now.
Qed.

Lemma EscapedPath_plain scheme host path :
  Forall (λ b, clear encodePath b = true) path → EscapedPath (plain scheme host path) = path.
Proof.
  intros Hp. unfold EscapedPath. cbn [plain RawPath UPath]. rewrite (bool_decide_true ([] = [])) by done. cbn [negb andb].
  destruct (bool_decide (path = str "*")) eqn:E; [by apply bool_decide_eq_true in E|]. by apply escape_clear.
Qed.

(** Another query in a URL that has neither query nor fragment. *)
Lemma print_with_query u q : ForceQuery u = false → RawQuery u = [] → Fragment u = [] →
  url_string (with_query u q) = url_string u ++ (if bool_decide (q = []) then [] else chr "?" :: q).
Proof.
  intros Hf Hq Hr. unfold url_string. change (EscapedPath (with_query u q)) with (EscapedPath u).
  cbn [with_query Scheme Opaque User Host UPath OmitHost ForceQuery RawQuery Fragment]. rewrite Hf, Hq, Hr. rewrite !(bool_decide_true ([] = [])) by done.
  cbv zeta. cbn [negb orb]. rewrite !app_nil_r. by destruct (bool_decide (q = [])).
Qed.

Lemma print_plain scheme host path : plain_url scheme host path → url_string (plain scheme host path) = plain_text scheme host path.
Proof.
  intros [[Hne Hs] (Hhne & Hph & Hh) Hsl Hp]. unfold url_string. cbn [plain Scheme Opaque Host User UPath OmitHost ForceQuery RawQuery Fragment].
  rewrite !(bool_decide_false (scheme = [])), !(bool_decide_false (host = [])), !(bool_decide_true ([] = [])) by done.
  rewrite EscapedPath_plain, (escape_clear _ _ Hh) by done. rewrite (andb_false_r (bool_decide (path = []))). cbn [negb andb orb].
  assert (Ep : negb (bool_decide (path = [])) && negb (has_prefix path (str "/")) && true = false).
  { destruct Hsl as [->|[p ->]]; [done|]. rewrite (proj2 (has_prefix_spec (chr "/" :: p) (str "/"))) by (by exists p).
    cbn [negb]. by rewrite andb_false_r. }
  rewrite Ep, app_nil_r, (bool_decide_false (_ ++ _ = [])) by (by destruct scheme). cbn [andb].
  unfold plain_text. by rewrite <- !app_assoc.
Qed.
