(* ===== verification/WlUrl.v ===== *)
(** * Command [wl]: the tracker's addresses

    The part of [cmd/wl/main.go] that builds URLs: the root of a tracker, its announce URL with a signed passkey, the
    registry's addresses, and the environment's defaults.  The theorems compose it with the tracker's own authentication
    and with [net/url]: what the client builds, the tracker accepts, and the root of what it builds is the root it built from. *)

From S2P Require Import Prelude Hex Sha GoStrings NetAddr Recognize Database TrackerState UsageSync Announce Url NetUrl.
From Stdlib Require Import ZArith Lia.
Local Open Scope Z_scope.

(** ** Definitions *)

(** The process environment; [os.Getenv] gives the empty string for an unset variable. *)
Abbreviation Environ := (gmap bytes bytes).
Definition Getenv (env : Environ) (key : bytes) : bytes := default [] (env !! key).

Definition envOr (env : Environ) (key fallback : bytes) : bytes :=
  let v := Getenv env key in if bool_decide (v ≠ []) then v else fallback.

Definition with_path (u : URL) (p : bytes) : URL :=
  mkURL (Scheme u) (Opaque u) (User u) (Host u) p (RawPath u) (OmitHost u) (ForceQuery u) (RawQuery u) (Fragment u) (RawFragment u).
Definition without_query (u : URL) : URL :=
  mkURL (Scheme u) (Opaque u) (User u) (Host u) (UPath u) (RawPath u) (OmitHost u) (ForceQuery u) [] [] (RawFragment u).

(** The loop over the segments; [before] are those already seen. *)
Fixpoint cut_announce (u : URL) (before segments : list bytes) : URL :=
  match segments with
  | [] => u
  | seg :: r => if bool_decide (seg = str "announce") then with_path u (chr "/" :: join (chr "/") before)
                else cut_announce u (before ++ [seg]) r
  end.

Definition trackerRoot (trackerURL : bytes) : bytes :=
  match Parse trackerURL with
  | None => trim_suffix trackerURL (str "/")
  | Some u =>
      let segments := split (chr "/") (trim_prefix (UPath u) (str "/")) in
      trim_suffix (url_string (without_query (cut_announce u [] segments))) (str "/")
  end.

Definition signUserID (userID secret : bytes) : bytes := hex_encode (hmac_sha256 secret userID).

Definition buildAnnounceURL (trackerBase userID secret : bytes) : bytes :=
  let base := trackerRoot trackerBase in
  if bool_decide (userID ≠ [] ∧ secret ≠ []) then
    let passkey := userID ++ str "." ++ signUserID userID secret in
    base ++ str "/announce/" ++ passkey
  else base ++ str "/announce".

Definition registryURL (trackerURL : bytes) : bytes := trackerRoot trackerURL ++ str "/api/registry".

(** The address [fetchTorrent] asks. *)
Definition torrentURL (trackerBase infoHash : bytes) : bytes :=
  trackerRoot trackerBase ++ str "/api/registry/torrent?info_hash=" ++ QueryEscape infoHash.

Example trackerRoot_announce_host :
  trackerRoot (str "https://announce.example.org:443/t/announce/me.0a?x=1#f") = str "https://announce.example.org:443/t"
  ∧ trackerRoot (str "http://h//") = str "http://h/" ∧ trackerRoot (str "http://h/") = str "http://h" ∧ trackerRoot (str "://x/") = str "://x"
  ∧ trackerRoot (str "http://h/announce?") = str "http://h/?".
Proof. vm_compute. done. Qed.

(** ** Lemmas: the root of a plain URL *)

(** A path of non-empty segments. *)
Definition path_of (segs : list bytes) : bytes := flat_map (λ s, chr "/" :: s) segs.

Definition segment (s : bytes) : Prop := s ≠ [] ∧ (chr "/" ∉ s) ∧ Forall (λ b, clear encodePath b = true) s.

Lemma path_of_join segs : segs ≠ [] → path_of segs = chr "/" :: join (chr "/") segs.
Proof.
  induction segs as [|s [|s' r] IH]; intros H; [done| |].
  - unfold path_of. cbn [flat_map join]. by rewrite app_nil_r.
  - change (path_of (s :: s' :: r)) with (chr "/" :: s ++ path_of (s' :: r)). by rewrite IH.
Qed.

Lemma path_of_app a b : path_of (a ++ b) = path_of a ++ path_of b.
Proof. apply flat_map_app. Qed.

Lemma path_of_clear segs : Forall segment segs → Forall (λ b, clear encodePath b = true) (path_of segs).
Proof.
  induction 1 as [|s segs (_ & _ & Hs) _ IH]; [constructor|]. change (path_of (s :: segs)) with (chr "/" :: s ++ path_of segs).
  constructor; [done|]. by apply Forall_app.
Qed.

Lemma path_of_slash segs : path_of segs = [] ∨ ∃ p, path_of segs = chr "/" :: p.
Proof. destruct segs as [|s segs]; [by left|right]. by exists (s ++ path_of segs). Qed.

(** A trailing slash is the only thing [strings.TrimSuffix] may remove. *)
Lemma trim_suffix_app s p : trim_suffix (s ++ p) p = s.
Proof.
  unfold trim_suffix, has_suffix. rewrite length_app. replace (length s + length p - length p)%nat with (length s) by lia.
  rewrite drop_app_length, bool_decide_true by done. rewrite (proj2 (Nat.leb_le _ _)) by lia. by rewrite take_app_length.
Qed.

Lemma trim_suffix_last s b c : b ≠ c → trim_suffix (s ++ [b]) [c] = s ++ [b].
Proof.
  intros H. unfold trim_suffix. by rewrite has_suffix_last, bool_decide_false by done.
Qed.

Lemma path_of_last segs : Forall segment segs → segs ≠ [] → ∃ p b, path_of segs = p ++ [b] ∧ b ≠ chr "/".
Proof.
  intros Hs Hne. destruct (exists_last Hne) as (r & s & ->). apply Forall_app in Hs as [_ [(Hn & Hd & _) _]%Forall_cons].
  destruct (exists_last Hn) as (t & b & ->). exists (path_of r ++ chr "/" :: t), b. split.
  - rewrite path_of_app. unfold path_of at 2. cbn [flat_map]. rewrite app_nil_r, <- app_assoc. done.
  - intros ->. apply Hd. apply elem_of_app. right. by left.
Qed.

Lemma split_path segs x :
  Forall segment segs → ∃ y, path_of segs ++ chr "/" :: x = chr "/" :: y ∧ split (chr "/") y = segs ++ split (chr "/") x.
Proof.
  induction 1 as [|s segs (_ & Hd & _) _ (y & Ey & Es)]; [by exists x|].
  exists (s ++ chr "/" :: y). split.
  - rewrite <- Ey. change (path_of (s :: segs)) with (chr "/" :: s ++ path_of segs). cbn [app]. by rewrite <- app_assoc.
  - by rewrite split_app, Es.
Qed.

Lemma trim_slash y : trim_prefix (chr "/" :: y) (str "/") = y.
Proof. unfold trim_prefix. rewrite (proj2 (has_prefix_spec (chr "/" :: y) (str "/"))) by (by exists y). done. Qed.

Lemma cut_announce_none u before segs : (str "announce" ∉ segs) → cut_announce u before segs = u.
Proof.
  revert before. induction segs as [|s segs IH]; intros before Hn; [done|]. apply not_elem_of_cons in Hn as [H1 H2].
  cbn [cut_announce]. rewrite bool_decide_false by congruence. by apply IH.
Qed.

Lemma cut_announce_found u before segs r :
  (str "announce" ∉ segs) → cut_announce u before (segs ++ str "announce" :: r) = with_path u (chr "/" :: join (chr "/") (before ++ segs)).
Proof.
  revert before. induction segs as [|s segs IH]; intros before Hn; cbn [app cut_announce].
  - rewrite bool_decide_true by done. by rewrite app_nil_r.
  - apply not_elem_of_cons in Hn as [H1 H2]. rewrite bool_decide_false by congruence. rewrite IH by done. by rewrite <- app_assoc.
Qed.

(** What may follow the root: nothing, a slash, or the announce path with anything after it. *)
Inductive root_tail : bytes → Prop :=
  | tail_none : root_tail []
  | tail_slash : root_tail (str "/")
  | tail_announce : root_tail (str "/announce")
  | tail_more x : Forall (λ b, clear encodePath b = true) x → root_tail (str "/announce/" ++ x).

Section root.
Variables (scheme host : bytes) (segs : list bytes).
Hypothesis Hurl : plain_url scheme host [].
Hypothesis Hsegs : Forall segment segs.
Hypothesis Hfree : str "announce" ∉ segs.

Local Abbreviation root := (plain_text scheme host (path_of segs)).

Lemma plain_url_path path : path = [] ∨ (∃ p, path = chr "/" :: p) → Forall (λ b, clear encodePath b = true) path → plain_url scheme host path.
Proof using Hurl. intros H1 H2. destruct Hurl. by constructor. Qed.

Lemma plain_url_segs : plain_url scheme host (path_of segs).
Proof using Hurl Hsegs. apply plain_url_path; [apply path_of_slash|by apply path_of_clear]. Qed.

Lemma root_untrimmed : trim_suffix root (str "/") = root.
Proof using Hurl Hsegs.
  destruct (decide (segs = [])) as [E|Hne].
  - rewrite E. destruct Hurl as [_ (Hne & _ & Hh) _ _]. destruct (exists_last Hne) as (h & b & Eh).
    unfold plain_text. change (path_of []) with (@nil byte). rewrite Eh in Hh |- *. rewrite app_nil_r, !app_assoc.
    apply trim_suffix_last. intros ->. apply Forall_app in Hh as [_ Hh]. inversion Hh as [|? ? Hb]. done.
  - destruct (path_of_last segs Hsegs Hne) as (p & b & E & Hb). unfold plain_text. rewrite E, !app_assoc. by apply trim_suffix_last.
Qed.

Lemma root_slash : plain_text scheme host (path_of segs ++ str "/") = root ++ str "/".
Proof. unfold plain_text. by rewrite <- !app_assoc. Qed.

(** The URL with the cut path prints as the root, up to the slash. *)
Lemma cut_prints : trim_suffix (url_string (plain scheme host (chr "/" :: join (chr "/") segs))) (str "/") = root.
Proof using Hurl Hsegs.
  destruct (decide (segs = [])) as [E|Hne].
  - rewrite E. rewrite print_plain by (apply plain_url_path; [right; by eexists|by repeat constructor]).
    rewrite <- (trim_suffix_app (plain_text scheme host (path_of [])) (str "/")). f_equal. unfold plain_text. by rewrite <- !app_assoc.
  - rewrite <- path_of_join by done. rewrite print_plain by apply plain_url_segs. apply root_untrimmed.
Qed.

Lemma trackerRoot_uncut path :
  path = [] ∨ (∃ p, path = chr "/" :: p) → Forall (λ b, clear encodePath b = true) path →
  str "announce" ∉ split (chr "/") (trim_prefix path (str "/")) →
  trackerRoot (plain_text scheme host path) = trim_suffix (plain_text scheme host path) (str "/").
Proof using Hurl.
  intros H1 H2 Hn. unfold trackerRoot. rewrite parse_plain by (by apply plain_url_path). cbn [UPath plain].
  rewrite cut_announce_none by done. change (without_query (plain scheme host path)) with (plain scheme host path).
  by rewrite print_plain by (by apply plain_url_path).
Qed.

Lemma trackerRoot_cut r :
  Forall (λ b, clear encodePath b = true) (path_of segs ++ chr "/" :: r) → head (split (chr "/") r) = Some (str "announce") →
  trackerRoot (plain_text scheme host (path_of segs ++ chr "/" :: r)) = root.
Proof using Hurl Hsegs Hfree.
  intros Hc Hh. destruct (split_path segs r Hsegs) as (y & Ey & Es). unfold trackerRoot. rewrite Ey in Hc |- *.
  rewrite parse_plain by (apply plain_url_path; [right; by eexists|done]). cbn [UPath plain]. rewrite trim_slash, Es.
  destruct (split (chr "/") r) as [|a k]; [done|]. injection Hh as ->. rewrite cut_announce_found by done.
  apply cut_prints.
Qed.

Lemma no_announce_split : str "announce" ∉ split (chr "/") (trim_prefix (path_of segs) (str "/")).
Proof using Hsegs Hfree.
  destruct (decide (segs = [])) as [E|Hne]; [rewrite E; decide_now|].
  rewrite path_of_join, trim_slash, split_join by (done || (eapply Forall_impl; [exact Hsegs|]; by intros s (_ & ? & _))). done.
Qed.

Lemma no_announce_slash : str "announce" ∉ split (chr "/") (trim_prefix (path_of segs ++ str "/") (str "/")).
Proof using Hsegs Hfree.
  destruct (split_path segs [] Hsegs) as (y & Ey & Es). change (str "/") with [chr "/"] at 1. rewrite Ey, trim_slash, Es.
  rewrite not_elem_of_app. split; [done|]. decide_now.
Qed.

Lemma trackerRoot_tail tail : root_tail tail → trackerRoot (plain_text scheme host (path_of segs ++ tail)) = root.
Proof using Hurl Hsegs Hfree.
  pose proof (path_of_clear segs Hsegs) as Hc. destruct 1 as [| | |x Hx].
  - rewrite app_nil_r, trackerRoot_uncut; [apply root_untrimmed|apply path_of_slash|done|apply no_announce_split].
  - rewrite trackerRoot_uncut; [by rewrite root_slash, trim_suffix_app| |apply Forall_app; by repeat constructor|apply no_announce_slash].
    right. destruct (split_path segs [] Hsegs) as (y & Ey & _). by exists y.
  - apply trackerRoot_cut; [|done]. apply Forall_app. split; [done|]. decide_now.
  - apply trackerRoot_cut.
    + apply Forall_app. split; [done|]. apply (Forall_app _ (str "/announce/")). split; [|done]. decide_now.
    + change (head (split (chr "/") (str "announce" ++ chr "/" :: x)) = Some (str "announce")). rewrite split_app; [done|].
      decide_now.
Qed.
End root.

(** The path of an announce with a passkey. *)
Definition passkey_path (userID secret : bytes) : bytes := path_of [str "announce"; userID ++ str "." ++ signUserID userID secret].

Lemma hex_clear l : Forall (λ b, clear encodePath b = true ∧ b ≠ chr "/") (hex_encode l).
Proof.
  eapply Forall_impl; [apply hex_encode_lower|]. intros b. revert b.
  refine (forall_byte (λ b, is_lower_hex b = true → clear encodePath b = true ∧ b ≠ chr "/") _). vm_compute. reflexivity.
Qed.

Lemma passkey_segment userID secret : segment userID → segment (userID ++ str "." ++ signUserID userID secret).
Proof.
  intros (Hn & Hs & Hc). pose proof (hex_clear (hmac_sha256 secret userID)) as Hh. split_and!.
  - by destruct userID.
  - rewrite !not_elem_of_app. split_and!; [done|decide_now|]. intros Hin. rewrite Forall_forall in Hh. by destruct (Hh _ Hin).
  - rewrite !Forall_app. split_and!; [done|decide_now|]. eapply Forall_impl; [exact Hh|]. by intros b [? _].
Qed.

Lemma announce_segment : segment (str "announce").
Proof. unfold segment. decide_now. Qed.

Lemma buildAnnounceURL_passkey scheme host segs tail userID secret :
  plain_url scheme host [] → Forall segment segs → (str "announce" ∉ segs) → root_tail tail → userID ≠ [] → secret ≠ [] →
  buildAnnounceURL (plain_text scheme host (path_of segs ++ tail)) userID secret = plain_text scheme host (path_of segs ++ passkey_path userID secret).
Proof.
  intros Hu Hs Hf Ht Hi Hk. unfold buildAnnounceURL. rewrite bool_decide_true by done. rewrite trackerRoot_tail by done.
  unfold passkey_path, plain_text. unfold path_of at 3. cbn [flat_map]. rewrite app_nil_r. change (str "/announce/") with (chr "/" :: str "announce" ++ [chr "/"]).
  by rewrite <- !app_assoc.
Qed.

Lemma trim_both s b c d : b ≠ c → d ≠ c → trim (c :: d :: s ++ [b]) c = d :: s ++ [b].
Proof.
  intros H Hd. unfold trim. cbn [trim_left]. rewrite bool_decide_true, bool_decide_false by done.
  change (d :: s ++ [b]) with ((d :: s) ++ [b]). rewrite rev_app_distr. cbn [rev app trim_left]. rewrite bool_decide_false by done.
  cbn [rev]. rewrite rev_app_distr. cbn [rev app]. by rewrite rev_involutive.
Qed.

Lemma signature_last userID secret : ∃ s b, signUserID userID secret = s ++ [b] ∧ b ≠ chr "/".
Proof.
  unfold signUserID. pose proof (hex_clear (hmac_sha256 secret userID)) as Hh.
  assert (Hne : hex_encode (hmac_sha256 secret userID) ≠ []).
  { intros E. apply (f_equal length) in E. rewrite length_hex_encode, length_hmac_sha256 in E. cbn in E. lia. }
  destruct (exists_last Hne) as (s & b & E). exists s, b. split; [done|]. rewrite E in Hh. apply Forall_app in Hh as [_ Hh].
  by inversion Hh as [|? ? [_ ?]].
Qed.

Lemma trim_passkey userID secret :
  trim (passkey_path userID secret) (chr "/") = str "announce" ++ chr "/" :: userID ++ str "." ++ signUserID userID secret.
Proof.
  destruct (signature_last userID secret) as (s & b & E & Hb). unfold passkey_path, path_of. cbn [flat_map]. rewrite app_nil_r, E.
  change (str "announce") with (chr "a" :: str "nnounce"). cbn [app]. rewrite !app_assoc.
  by apply (trim_both (str "nnounce" ++ chr "/" :: (userID ++ str ".") ++ s)).
Qed.

(** The tracker accepts the passkey in the path. *)
Lemma passkey_accepted c userID q addr : getSecret c ≠ [] → segment userID → (chr "." ∉ userID) →
  authenticatePasskey c (mkRequest (passkey_path userID (getSecret c)) q addr) = inl userID.
Proof.
  intros Hk Hi Hd. pose proof (passkey_segment userID (getSecret c) Hi) as Hp. unfold authenticatePasskey. cbn [path]. rewrite trim_passkey.
  rewrite split_app by decide_now. rewrite split_single by (by destruct Hp as (_ & ? & _)). rewrite bool_decide_true by done.
  by rewrite (proj2 (VerifyPasskey_ok c _ userID)) by done.
Qed.

(** The client's credentials: the announce URL that [buildAnnounceURL] makes of a tracker's address, given as its root, with a
    trailing slash or as an announce URL, parses to the tracker's host and the root's path followed by [/announce/] and a passkey;
    a tracker with the same secret accepts the passkey in that path for the same user; and the root of the announce URL, to which the
    registry's addresses are appended, is the root it was made from. *)
Theorem passkey_interop c scheme host segs tail userID :
  plain_url scheme host [] → Forall segment segs → (str "announce" ∉ segs) → root_tail tail →
  getSecret c ≠ [] → segment userID → (chr "." ∉ userID) →
  let base := plain_text scheme host (path_of segs ++ tail) in
  let u := buildAnnounceURL base userID (getSecret c) in
  let p := passkey_path userID (getSecret c) in
  Parse u = Some (plain scheme host (path_of segs ++ p))
  ∧ (∀ q addr, authenticatePasskey c (mkRequest p q addr) = inl userID)
  ∧ trackerRoot base = plain_text scheme host (path_of segs) ∧ trackerRoot u = trackerRoot base.
Proof.
  intros Hu Hs Hf Ht Hk Hi Hd base u p. assert (Eu : u = plain_text scheme host (path_of segs ++ p)) by (apply buildAnnounceURL_passkey; (done || by destruct Hi)).
  pose proof (passkey_segment userID (getSecret c) Hi) as Hp. split_and!.
  - rewrite Eu. apply parse_plain, plain_url_path; [done| |].
    + unfold p, passkey_path. rewrite <- path_of_app. apply path_of_slash.
    + unfold p, passkey_path. rewrite <- path_of_app. apply path_of_clear. rewrite Forall_app. split; [done|].
      apply Forall_cons. split; [apply announce_segment|]. by apply Forall_singleton.
  - intros q addr. by apply passkey_accepted.
  - by apply trackerRoot_tail.
  - rewrite Eu. unfold base. rewrite (trackerRoot_tail _ _ _ Hu Hs Hf tail Ht).
    unfold p, passkey_path, path_of at 2. cbn [flat_map]. rewrite app_nil_r. apply (trackerRoot_tail _ _ _ Hu Hs Hf). apply tail_more.
    by destruct Hp as (_ & _ & ?).
Qed.

(** A tracker behind a prefix, with a port. *)
Module SampleUrl.
Definition config : Config := mkConfig [] (str "s3cret") [] 50.
Definition host : bytes := str "tr.example.org:8080".
Lemma url : plain_url (str "https") host [].
Proof. constructor; [decide_now|decide_now|by left|constructor]. Qed.
Lemma prefix : Forall segment [str "weightless"].
Proof. apply Forall_singleton. unfold segment. decide_now. Qed.
Lemma user : segment (str "alice").
Proof. unfold segment. decide_now. Qed.
End SampleUrl.

Lemma passkey_interop_witness :
  let base := plain_text (str "https") SampleUrl.host (path_of [str "weightless"] ++ str "/announce") in
  let u := buildAnnounceURL base (str "alice") (getSecret SampleUrl.config) in
  let p := passkey_path (str "alice") (getSecret SampleUrl.config) in
  base = str "https://tr.example.org:8080/weightless/announce"
  ∧ Parse u = Some (plain (str "https") SampleUrl.host (path_of [str "weightless"] ++ p))
  ∧ (∀ q addr, authenticatePasskey SampleUrl.config (mkRequest p q addr) = inl (str "alice"))
  ∧ trackerRoot base = plain_text (str "https") SampleUrl.host (path_of [str "weightless"]) ∧ trackerRoot u = trackerRoot base.
Proof.
  split; [vm_compute; reflexivity|].
  apply (passkey_interop SampleUrl.config (str "https") SampleUrl.host [str "weightless"] (str "/announce") (str "alice")).
  - exact SampleUrl.url.
  - exact SampleUrl.prefix.
  - decide_now.
  - constructor.
  - vm_compute. discriminate.
  - exact SampleUrl.user.
  - decide_now.
Defined.
