(* ===== verification/Float64.v ===== *)
(** * Floating point: Go's [float64] as the program uses it

    The operations of binary64 are those of the Standard Library's specification of IEEE 754 ([SpecFloat], 53 bits of precision).
    The lemmas bound them by exact rational arithmetic: the standard model of rounding errors, for numbers that are not negative
    and far from the ends of the exponents' range.  A product is rounded before it is added, as the compiler does on amd64; Go lets
    other targets fuse the two. *)

From S2P Require Import Prelude.
From Stdlib Require Import ZArith Lia QArith Lqa Qpower SpecFloat.
Local Open Scope Z_scope.

(** ** Definitions *)

Abbreviation float64 := spec_float.
Definition fadd : float64 → float64 → float64 := SFadd 53 1024.
Definition fsub : float64 → float64 → float64 := SFsub 53 1024.
Definition fmul : float64 → float64 → float64 := SFmul 53 1024.
Definition fdiv : float64 → float64 → float64 := SFdiv 53 1024.
(** [float64(n)], and the constants [5.0], [10.0], [1] of the source. *)
Definition of_int (n : Z) : float64 := binary_normalize 53 1024 n 0 false.

(** The rational a finite number stands for. *)
Definition val (f : float64) : Q :=
  match f with S754_finite s m e => inject_Z (if s then Zneg m else Zpos m) * 2 ^ e | _ => 0 end%Q.

(** [time.Duration.Seconds] *)
Definition Seconds (d : Z) : float64 := fadd (of_int (Z.quot d 1000000000)) (fdiv (of_int (Z.rem d 1000000000)) (of_int 1000000000)).

(** ** Lemmas: powers of two *)

Lemma pow2_pos e : (0 < 2 ^ e)%Q.
Proof. by apply Qpower_0_lt. Qed.

Lemma pow2_plus a b : (2 ^ (a + b) == 2 ^ a * 2 ^ b)%Q.
Proof. by apply Qpower_plus. Qed.

Lemma pow2_inject n : 0 ≤ n → (inject_Z (2 ^ n) == 2 ^ n)%Q.
Proof. intros. by rewrite Zpower_Qpower. Qed.

Lemma pow2_le a b : a ≤ b → (2 ^ a <= 2 ^ b)%Q.
Proof. intros. by apply Qpower_le_compat_l. Qed.

Lemma pow2_le_inv a b : (2 ^ a <= 2 ^ b)%Q → a ≤ b.
Proof. intros H. by apply (Qpower_le_compat_l_inv 2). Qed.

Lemma pow2_lt_inv a b : (2 ^ a < 2 ^ b)%Q → a < b.
Proof. intros H. by apply (Qpower_lt_compat_l_inv 2). Qed.

Lemma digits_log2 p : Zdigits2 (Zpos p) = Z.log2 (Zpos p) + 1.
Proof.
  unfold Zdigits2. assert (H : ∀ p, Zpos (digits2_pos p) = Z.log2 (Zpos p) + 1); [|apply H]. clear p.
  induction p as [p IH|p IH|]; [| |done]; cbn [digits2_pos]; rewrite Pos2Z.inj_succ, IH.
  - change (Zpos p~1) with (2 * Zpos p + 1). rewrite Z.log2_succ_double by lia. lia.
  - change (Zpos p~0) with (2 * Zpos p). rewrite Z.log2_double by lia. lia.
Qed.

Lemma iter_pos_nat {A} (f : A → A) p x : iter_pos f p x = Nat.iter (Pos.to_nat p) f x.
Proof.
  revert x. induction p as [p IH|p IH|]; intros x; cbn [iter_pos]; [| |done]; rewrite !IH.
  - rewrite Pos2Nat.inj_xI, <- !Nat.iter_add, <- Nat.iter_succ_r. f_equal. lia.
  - rewrite Pos2Nat.inj_xO, <- Nat.iter_add. f_equal. lia.
Qed.

(** ** Lemmas: rounding *)

(** The truncated mantissa and what it stands for. *)
Definition rep (mrs : shr_record) (x : Q) : Prop :=
  0 ≤ shr_m mrs ∧ (inject_Z (shr_m mrs) <= x <= inject_Z (shr_m mrs + 1))%Q
  ∧ (loc_of_shr_record mrs = loc_Exact → (x == inject_Z (shr_m mrs))%Q).

Lemma half_le a b : (inject_Z a <= b)%Q → (inject_Z a * (1 # 2) <= b * (1 # 2))%Q.
Proof. lra. Qed.

Lemma shr_1_m mrs : 0 ≤ shr_m mrs → shr_m (shr_1 mrs) = shr_m mrs / 2.
Proof.
  destruct mrs as [m r s]. cbn [shr_m]. intros Hm. rewrite <- Z.div2_div. destruct m as [|[p|p|]|p]; cbn [shr_1 shr_m]; done || lia.
Qed.

Lemma shr_1_exact mrs : 0 ≤ shr_m mrs → loc_of_shr_record (shr_1 mrs) = loc_Exact → loc_of_shr_record mrs = loc_Exact ∧ shr_m mrs = 2 * (shr_m mrs / 2).
Proof.
  destruct mrs as [m r s]. cbn [shr_m]. intros Hm He. assert (Z.even m = true ∧ r = false ∧ s = false) as (Hev & -> & ->).
  { destruct m as [|[p|p|]|p], r, s; cbn in *; try done; lia. }
  split; [done|]. apply Z.even_spec in Hev as [k ->]. rewrite (Z.mul_comm 2 k), Z.div_mul by lia. lia.
Qed.

Lemma inject_half m : (inject_Z (m / 2) <= inject_Z m * (1 # 2))%Q ∧ (inject_Z (m + 1) * (1 # 2) <= inject_Z (m / 2 + 1))%Q.
Proof.
  pose proof (Z.div_mod m 2 ltac:(lia)) as E. pose proof (Z.mod_pos_bound m 2 ltac:(lia)). set (q := m / 2) in *.
  assert (H1 : (inject_Z (2 * q) <= inject_Z m)%Q) by (rewrite <- Zle_Qle; lia).
  assert (H2 : (inject_Z (m + 1) <= inject_Z (2 * (q + 1)))%Q) by (rewrite <- Zle_Qle; lia).
  rewrite inject_Z_mult in H1, H2. change (inject_Z 2) with 2%Q in *. lra.
Qed.

Lemma rep_shr_1 mrs x : rep mrs x → rep (shr_1 mrs) (x * (1 # 2)).
Proof.
  intros (H0 & H1 & H2). pose proof (shr_1_m mrs H0) as Em. pose proof (inject_half (shr_m mrs)) as [Ha Hb].
  unfold rep. rewrite Em. split_and!.
  - apply Z.div_pos; lia.
  - lra.
  - lra.
  - intros [He Ed]%shr_1_exact; [|done]. rewrite (H2 He). rewrite Ed at 1. rewrite inject_Z_mult. change (inject_Z 2) with 2%Q. lra.
Qed.

Lemma rep_iter n mrs x : rep mrs x → rep (Nat.iter n shr_1 mrs) (x * 2 ^ (- Z.of_nat n)).
Proof.
  intros H. induction n as [|n IH].
  - change (Nat.iter 0 shr_1 mrs) with mrs. destruct H as (H0 & H1 & H2). unfold rep. change (2 ^ (- Z.of_nat 0))%Q with 1%Q.
    split_and!; [done|lra|lra|]. intros He. rewrite (H2 He). lra.
  - apply rep_shr_1 in IH. change (Nat.iter (S n) shr_1 mrs) with (shr_1 (Nat.iter n shr_1 mrs)).
    destruct IH as (H0 & H1 & H2). assert (E : (x * 2 ^ (- Z.of_nat (S n)) == x * 2 ^ (- Z.of_nat n) * (1 # 2))%Q).
    { replace (- Z.of_nat (S n)) with (- Z.of_nat n + (-1)) by lia. rewrite pow2_plus. change (2 ^ (-1))%Q with (1 # 2)%Q. ring. }
    unfold rep. rewrite E. done.
Qed.

Lemma iter_shr_m n mrs : 0 ≤ shr_m mrs → 0 ≤ shr_m (Nat.iter n shr_1 mrs) ∧ shr_m (Nat.iter n shr_1 mrs) = shr_m mrs / 2 ^ Z.of_nat n.
Proof.
  intros H. induction n as [|n [IH1 IH2]]; [split; [done|by rewrite Z.div_1_r]|].
  change (Nat.iter (S n) shr_1 mrs) with (shr_1 (Nat.iter n shr_1 mrs)). rewrite shr_1_m by done. split; [apply Z.div_pos; lia|].
  rewrite IH2, Z.div_div by lia. f_equal. rewrite Nat2Z.inj_succ, Z.pow_succ_r by lia. lia.
Qed.

(** A shift by the excess digits leaves 53 of them. *)
Lemma shr_rep m e l x k :
  0 ≤ k → rep (shr_record_of_loc m l) x →
  let '(mrs, e') := shr (shr_record_of_loc m l) e k in
  e' = e + k ∧ shr_m mrs = m / 2 ^ k ∧ rep mrs (x * 2 ^ (- k)).
Proof.
  intros Hk H. assert (Em : shr_m (shr_record_of_loc m l) = m) by (by destruct l as [|[]]).
  destruct k as [|p|p]; [| |lia]; cbn [shr].
  - split_and!; [lia|by rewrite Em, Z.div_1_r|]. apply (rep_iter 0) in H. exact H.
  - rewrite iter_pos_nat. pose proof (iter_shr_m (Pos.to_nat p) (shr_record_of_loc m l)) as [_ E]; [by destruct H|].
    rewrite Em, positive_nat_Z in E. split_and!; [done|done|]. apply (rep_iter (Pos.to_nat p)) in H. by rewrite positive_nat_Z in H.
Qed.

(** The relative error of a rounding: at most a unit in the last place of 53 bits. *)
Definition ulp : Q := 1 # 4503599627370496.
Definition near (X V : Q) : Prop := (X * (1 - ulp) <= V <= X * (1 + ulp))%Q.

(** A positive number with 53 significant bits. *)
Definition normal (f : float64) : Prop := ∃ m e, f = S754_finite false m e ∧ 2 ^ 52 ≤ Zpos m < 2 ^ 53.

(** Far from underflow and overflow. *)
Definition mid (X : Q) : Prop := (2 ^ (-900) <= X <= 2 ^ 900)%Q.

Lemma fexp_mid d : -1000 ≤ d ≤ 1000 → fexp 53 1024 d = d - 53.
Proof. intros. unfold fexp, emin. lia. Qed.

Lemma mid_digits m e x : 0 < m → (inject_Z m <= x <= inject_Z (m + 1))%Q → mid (x * 2 ^ e) → -950 ≤ Z.log2 m + 1 + e ≤ 950.
Proof.
  intros Hm [Hx1 Hx2] [H1 H2]. pose proof (Z.log2_spec m Hm) as [Ha Hb]. pose proof (pow2_pos e) as Hp. pose proof (Z.log2_nonneg m).
  assert (A : (2 ^ Z.log2 m <= inject_Z m)%Q) by (rewrite <- pow2_inject by done; by rewrite <- Zle_Qle).
  assert (B : (inject_Z (m + 1) <= 2 ^ (Z.succ (Z.log2 m)))%Q) by (rewrite <- pow2_inject by lia; rewrite <- Zle_Qle; lia).
  assert (C : (2 ^ (Z.log2 m + e) <= 2 ^ 900)%Q) by (rewrite pow2_plus; nra).
  assert (D : (2 ^ (-900) <= 2 ^ (Z.succ (Z.log2 m) + e))%Q) by (rewrite pow2_plus; nra).
  apply pow2_le_inv in C, D. lia.
Qed.

Lemma Zdigits2_spec m : 0 < m → Zdigits2 m = Z.log2 m + 1.
Proof. destruct m; [lia|intros _; apply digits_log2|lia]. Qed.

Lemma round_nearest_cases m l : round_nearest_even m l = m ∨ (round_nearest_even m l = m + 1 ∧ l ≠ loc_Exact).
Proof. destruct l as [|[]]; cbn; try (destruct (Z.even m)); auto. Qed.

Lemma log2_div m k : 0 ≤ k ≤ Z.log2 m → 0 < m → 2 ^ (Z.log2 m - k) ≤ m / 2 ^ k < 2 ^ (Z.log2 m - k + 1).
Proof.
  intros Hk Hm. pose proof (Z.log2_spec m Hm) as [Ha Hb]. rewrite Z.pow_sub_r by lia. split.
  - apply Z.div_le_mono; lia.
  - apply Z.div_lt_upper_bound; [lia|]. rewrite <- Z.pow_add_r by lia. replace (k + (Z.log2 m - k + 1)) with (Z.succ (Z.log2 m)) by lia. done.
Qed.

(** The second pass of [binary_round_aux] only renormalizes. *)
Lemma renormalize M e :
  2 ^ 52 ≤ M ≤ 2 ^ 53 → -1010 ≤ e ≤ 900 →
  ∃ m e', shr_fexp 53 1024 M e loc_Exact = ({| shr_m := Zpos m; shr_r := false; shr_s := false |}, e')
    ∧ 2 ^ 52 ≤ Zpos m < 2 ^ 53 ∧ e ≤ e' ≤ e + 1 ∧ (inject_Z (Zpos m) * 2 ^ e' == inject_Z M * 2 ^ e)%Q.
Proof.
  intros HM He. unfold shr_fexp. rewrite Zdigits2_spec by lia. destruct (Z.eq_dec M (2 ^ 53)) as [->|Hne].
  - change (Z.log2 (2 ^ 53)) with 53. rewrite fexp_mid by lia. replace (53 + 1 + e - 53 - e) with 1 by lia.
    exists (2 ^ 52)%positive, (e + 1). split_and!; [done|lia|lia|lia|lia|]. rewrite pow2_plus. change (inject_Z (2 ^ 53)) with (inject_Z (Zpos (2 ^ 52)) * 2)%Q.
    change (2 ^ 1)%Q with 2%Q. ring.
  - assert (El : Z.log2 M = 52) by (apply Z.log2_unique; lia). rewrite El, fexp_mid by lia. replace (52 + 1 + e - 53 - e) with 0 by lia.
    destruct M as [|m|m]; [lia| |lia]. exists m, e. split_and!; (done || lia).
Qed.

Lemma near_scale X V p : (0 < p)%Q → near X V → near (X * p) (V * p).
Proof. unfold near. intros Hp [H1 H2]. nra. Qed.

(** A mantissa of at least [2^52], one off what it stands for at most. *)
Lemma near_round x M M' :
  2 ^ 52 ≤ M → (inject_Z M <= x <= inject_Z (M + 1))%Q → M' = M ∨ M' = M + 1 → near x (inject_Z M').
Proof.
  intros HM [H1 H2] HM'. assert (H : (4503599627370496 <= inject_Z M)%Q) by (change 4503599627370496%Q with (inject_Z (2 ^ 52)); by rewrite <- Zle_Qle).
  unfold near, ulp. destruct HM' as [->| ->]; rewrite inject_Z_plus in *; change (inject_Z 1) with 1%Q in *; lra.
Qed.

Lemma near_compat X V V' : (V == V')%Q → near X V → near X V'.
Proof. unfold near. intros ->. done. Qed.

Lemma pow2_split x e k : (x * 2 ^ e == x * 2 ^ (- k) * 2 ^ (e + k))%Q.
Proof.
  assert (E : (2 ^ e == 2 ^ (- k) * 2 ^ (e + k))%Q) by (rewrite <- pow2_plus; replace (- k + (e + k)) with e by lia; done).
  rewrite E. ring.
Qed.

Lemma round_aux m e l x :
  0 < m → 52 ≤ Z.log2 m → rep (shr_record_of_loc m l) x → mid (x * 2 ^ e) →
  let f := binary_round_aux 53 1024 false m e l in
  normal f ∧ near (x * 2 ^ e) (val f) ∧ (l = loc_Exact → Z.log2 m = 52 → (val f == x * 2 ^ e)%Q).
Proof.
  intros Hm Hd Hr Hmid f. assert (Em : shr_m (shr_record_of_loc m l) = m) by (by destruct l as [|[]]).
  assert (Hx : (inject_Z m <= x <= inject_Z (m + 1))%Q) by (destruct Hr as (_ & Hx & _); by rewrite Em in Hx).
  pose proof (mid_digits m e x Hm Hx Hmid) as HD. set (k := Z.log2 m - 52).
  assert (Ek : fexp 53 1024 (Zdigits2 m + e) - e = k) by (rewrite Zdigits2_spec, fexp_mid by lia; lia).
  pose proof (shr_rep m e l x k ltac:(lia) Hr) as Hs.
  destruct (shr (shr_record_of_loc m l) e k) as [mrs e'] eqn:Es. destruct Hs as (-> & Es2 & Hr').
  pose proof (log2_div m k ltac:(lia) Hm) as HM. rewrite <- Es2 in HM. replace (Z.log2 m - k) with 52 in HM by lia.
  set (M := shr_m mrs) in *. destruct Hr' as (_ & Hb & Hex). fold M in Hb, Hex.
  set (M' := round_nearest_even M (loc_of_shr_record mrs)).
  pose proof (round_nearest_cases M (loc_of_shr_record mrs)) as Hc. fold M' in Hc.
  destruct (renormalize M' (e + k)) as (m2 & e2 & En & Hm2 & He2 & Ev); [destruct Hc as [->|[-> _]]; lia|lia|].
  assert (Ef : f = S754_finite false m2 e2).
  { unfold f, binary_round_aux, shr_fexp at 1. rewrite Ek, Es. fold M M'. rewrite En. cbn [shr_m]. by rewrite (proj2 (Z.leb_le e2 _)) by lia. }
  rewrite Ef. clearbody f M'.
  pose proof (pow2_split x e k) as Eq.
  split_and!.
  - by exists m2, e2.
  - unfold near. rewrite Eq. unfold val. rewrite Ev. apply near_scale; [apply pow2_pos|]. apply (near_round _ M); [lia|done|]. tauto.
  - intros -> Hl. assert (Hk : k = 0) by lia. rewrite Hk in Es. injection Es as Es _. rewrite <- Es in Hc. destruct Hc as [HM'|[_ []]]; [|done].
    assert (Ex : (x == inject_Z m)%Q) by (destruct Hr as (_ & _ & Hr); by apply Hr).
    unfold val. rewrite Ev, HM', Hk, Z.add_0_r. unfold M. rewrite <- Es. cbn [shr_m shr_record_of_loc]. by rewrite Ex.
Qed.

Lemma rep_exact m : 0 ≤ m → rep (shr_record_of_loc m loc_Exact) (inject_Z m).
Proof. intros Hm. unfold rep. cbn. rewrite inject_Z_plus. change (inject_Z 1) with 1%Q. split_and!; [done|lra|lra|done]. Qed.

Lemma iter_xO p d : Zpos (Pos.iter xO p d) = Zpos p * 2 ^ Zpos d.
Proof.
  rewrite Pos2Nat.inj_iter, <- (positive_nat_Z d). induction (Pos.to_nat d) as [|n IH]; [cbn; lia|].
  rewrite Nat2Z.inj_succ, Z.pow_succ_r by lia. cbn [nat_rect]. rewrite Pos2Z.inj_xO, IH. lia.
Qed.

Lemma log2_pow2_mul m d : 0 < m → 0 ≤ d → Z.log2 (m * 2 ^ d) = Z.log2 m + d.
Proof. intros. rewrite Z.log2_mul_pow2 by done. lia. Qed.

(** [binary_round]: exact up to 53 digits. *)
Lemma round_int m e :
  mid (inject_Z (Zpos m) * 2 ^ e) →
  let f := binary_round 53 1024 false m e in
  normal f ∧ near (inject_Z (Zpos m) * 2 ^ e) (val f) ∧ (Z.log2 (Zpos m) ≤ 52 → (val f == inject_Z (Zpos m) * 2 ^ e)%Q).
Proof.
  intros Hmid f. assert (HD : -950 ≤ Z.log2 (Zpos m) + 1 + e ≤ 950).
  { apply (mid_digits (Zpos m) e (inject_Z (Zpos m))); [lia| |done]. rewrite inject_Z_plus. change (inject_Z 1) with 1%Q. lra. }
  unfold f, binary_round. pose proof (digits_log2 m) as Ed. cbn [Zdigits2] in Ed. rewrite Ed, fexp_mid by lia.
  unfold shl_align. destruct (Z.log2 (Zpos m) + 1 + e - 53 - e) as [|d|d] eqn:Ek.
  - pose proof (round_aux (Zpos m) e loc_Exact (inject_Z (Zpos m)) ltac:(lia) ltac:(lia) (rep_exact (Zpos m) ltac:(lia)) Hmid) as (H1 & H2 & H3).
    split_and!; [done|done|]. intros. apply H3; [done|lia].
  - pose proof (round_aux (Zpos m) e loc_Exact (inject_Z (Zpos m)) ltac:(lia) ltac:(lia) (rep_exact (Zpos m) ltac:(lia)) Hmid) as (H1 & H2 & H3).
    split_and!; [done|done|]. intros. lia.
  - set (m' := Pos.iter xO m d). set (e' := Z.log2 (Zpos m) + 1 + e - 53). pose proof (iter_xO m d) as Em. fold m' in Em.
    assert (El : Z.log2 (Zpos m') = 52) by (rewrite Em, log2_pow2_mul by lia; lia).
    assert (Ev : (inject_Z (Zpos m') * 2 ^ e' == inject_Z (Zpos m) * 2 ^ e)%Q).
    { rewrite Em, inject_Z_mult, pow2_inject by lia. rewrite <- Qmult_assoc, <- pow2_plus. replace (Zpos d + e') with e by lia. done. }
    assert (Hmid' : mid (inject_Z (Zpos m') * 2 ^ e')) by (unfold mid; by rewrite Ev).
    pose proof (round_aux (Zpos m') e' loc_Exact (inject_Z (Zpos m')) ltac:(lia) ltac:(lia) (rep_exact (Zpos m') ltac:(lia)) Hmid') as (H1 & H2 & H3).
    split_and!; [done|unfold near in *; by rewrite Ev in H2|]. intros. rewrite (H3 eq_refl El). done.
Qed.

(** ** Lemmas: the operations *)

(** Zero, or a positive number. *)
Definition nonneg (f : float64) : Prop := f = S754_zero false ∨ normal f.

Lemma of_int_val n : 0 ≤ n < 2 ^ 53 → nonneg (of_int n) ∧ (val (of_int n) == inject_Z n)%Q.
Proof.
  intros Hn. unfold of_int, binary_normalize. destruct n as [|m|m]; [split; [by left|done]| |lia].
  assert (Hl : Z.log2 (Zpos m) ≤ 52) by (apply Z.lt_succ_r, Z.log2_lt_pow2; lia).
  assert (Hm : mid (inject_Z (Zpos m) * 2 ^ 0)).
  { unfold mid. change (2 ^ 0)%Q with 1%Q. assert (A : (inject_Z 1 <= inject_Z (Zpos m))%Q) by (rewrite <- Zle_Qle; lia).
    assert (B : (inject_Z (Zpos m) <= inject_Z (2 ^ 53))%Q) by (rewrite <- Zle_Qle; lia).
    pose proof (pow2_le (-900) 0 ltac:(lia)) as C. pose proof (pow2_le 53 900 ltac:(lia)) as D. rewrite <- (pow2_inject 53) in D by lia.
    change (2 ^ 0)%Q with 1%Q in C. change (inject_Z 1) with 1%Q in A. lra. }
  destruct (round_int m 0 Hm) as (H1 & _ & H3). split; [by right|]. rewrite (H3 Hl). change (2 ^ 0)%Q with 1%Q. lra.
Qed.

(** Zero, or a positive number in the middle of the range. *)
Definition sound (f : float64) : Prop := f = S754_zero false ∨ (normal f ∧ (2 ^ (-400) <= val f <= 2 ^ 400)%Q).

Lemma sound_nonneg f : sound f → nonneg f.
Proof. intros [->|[H _]]; [by left|by right]. Qed.

Lemma normal_pos f : normal f → (0 < val f)%Q.
Proof. intros (m & e & -> & _). apply Qmult_lt_0_compat; [done|apply pow2_pos]. Qed.

Lemma sound_intro f : nonneg f → ((0 < val f)%Q → (2 ^ (-400) <= val f <= 2 ^ 400)%Q) → sound f.
Proof.
  intros [->|Hn] Hb; [by left|right]. split; [done|]. by apply Hb, normal_pos.
Qed.

Lemma val_nonneg f : nonneg f → (0 <= val f)%Q.
Proof.
  intros [->|Hn]; [done|]. by apply Qlt_le_weak, normal_pos.
Qed.

Lemma sound_le f : sound f → (0 <= val f <= 2 ^ 400)%Q.
Proof. intros H. split; [by apply val_nonneg, sound_nonneg|]. destruct H as [->|[_ H]]; [|apply H]. change (0 <= 2 ^ 400)%Q. apply Qlt_le_weak, pow2_pos. Qed.

Lemma mid_intro X a b : (2 ^ a <= X <= 2 ^ b)%Q → -900 ≤ a → b ≤ 900 → mid X.
Proof. intros [H1 H2] Ha Hb. pose proof (pow2_le _ _ Ha). pose proof (pow2_le _ _ Hb). unfold mid. lra. Qed.

Lemma near_refl X : (0 <= X)%Q → near X X.
Proof. intros. unfold near, ulp. lra. Qed.

Lemma shl_align_val m e e' : e' ≤ e → (inject_Z (Zpos (fst (shl_align m e e'))) * 2 ^ e' == inject_Z (Zpos m) * 2 ^ e)%Q.
Proof.
  intros He. unfold shl_align. destruct (e' - e) as [|d|d] eqn:E; [|lia|]; cbn [fst].
  - by replace e' with e by lia.
  - rewrite iter_xO, inject_Z_mult, pow2_inject by lia. rewrite <- Qmult_assoc, <- pow2_plus. by replace (Zpos d + e') with e by lia.
Qed.

Lemma normal_log2 m : 2 ^ 52 ≤ Zpos m < 2 ^ 53 → Z.log2 (Zpos m) = 52.
Proof. intros. apply Z.log2_unique; lia. Qed.

Lemma fmul_spec x y : sound x → sound y → nonneg (fmul x y) ∧ near (val x * val y) (val (fmul x y)).
Proof.
  assert (Z0 : near 0 0) by (apply near_refl; lra).
  intros [->|[Hx Vx]] [->|[Hy Vy]].
  - split; [by left|exact Z0].
  - destruct Hy as (m & e & -> & _). split; [by left|]. unfold near. cbn [val fmul SFmul xorb]. lra.
  - destruct Hx as (m & e & -> & _). split; [by left|]. unfold near. cbn [val fmul SFmul xorb]. lra.
  - destruct Hx as (mx & ex & -> & Hmx), Hy as (my & ey & -> & Hmy).
    assert (Ev : (inject_Z (Zpos (mx * my)) * 2 ^ (ex + ey) == val (S754_finite false mx ex) * val (S754_finite false my ey))%Q).
    { unfold val. rewrite Pos2Z.inj_mul, inject_Z_mult, pow2_plus. ring. }
    assert (Hmid : mid (inject_Z (Zpos (mx * my)) * 2 ^ (ex + ey))).
    { apply (mid_intro _ (-400 + -400) (400 + 400)); [|lia|lia]. rewrite Ev, !pow2_plus.
      pose proof (pow2_pos (-400)). pose proof (pow2_pos 400). split; nra. }
    assert (Hl : 52 ≤ Z.log2 (Zpos (mx * my))) by (apply Z.log2_le_pow2; lia).
    destruct (round_aux (Zpos (mx * my)) (ex + ey) loc_Exact _ ltac:(lia) Hl (rep_exact (Zpos (mx * my)) ltac:(lia)) Hmid) as (H1 & H2 & _).
    split; [by right|]. unfold near in *. rewrite Ev in H2. exact H2.
Qed.

Lemma fadd_spec x y : sound x → sound y → nonneg (fadd x y) ∧ near (val x + val y) (val (fadd x y)).
Proof.
  intros [->|[Hx Vx]] [->|[Hy Vy]].
  - split; [by left|]. unfold near. cbn. lra.
  - destruct Hy as (m & e & -> & Hm). split; [right; by exists m, e|]. pose proof (pow2_pos (-400)). unfold near, ulp. cbn [val fadd SFadd] in *. lra.
  - destruct Hx as (m & e & -> & Hm). split; [right; by exists m, e|]. pose proof (pow2_pos (-400)). unfold near, ulp. cbn [val fadd SFadd] in *. lra.
  - destruct Hx as (mx & ex & -> & Hmx), Hy as (my & ey & -> & Hmy). set (ez := Z.min ex ey).
    set (a := fst (shl_align mx ex ez)). set (b := fst (shl_align my ey ez)).
    assert (Ev : (inject_Z (Zpos (a + b)) * 2 ^ ez == val (S754_finite false mx ex) + val (S754_finite false my ey))%Q).
    { unfold val. rewrite <- (shl_align_val mx ex ez), <- (shl_align_val my ey ez) by lia. fold a b. rewrite Pos2Z.inj_add, inject_Z_plus. ring. }
    assert (Hmid : mid (inject_Z (Zpos (a + b)) * 2 ^ ez)).
    { apply (mid_intro _ (-400) (400 + 1)); [|lia|lia]. rewrite Ev, pow2_plus. change (2 ^ 1)%Q with 2%Q.
      pose proof (pow2_pos (-400)). split; lra. }
    destruct (round_int (a + b) ez Hmid) as (H1 & H2 & _). split; [by right|]. unfold near in *. rewrite Ev in H2. exact H2.
Qed.

Definition one : float64 := of_int 1.

Lemma one_normal : one = S754_finite false (2 ^ 52) (-52).
Proof. reflexivity. Qed.

Lemma one_val : (val one == 1)%Q.
Proof. reflexivity. Qed.

(** Subtracting one from a number that has it. *)
Lemma fsub_one_spec x :
  sound x → (1 <= val x)%Q → nonneg (fsub x one) ∧ near (val x - 1) (val (fsub x one)) ∧ (val x - 1 == 0 ∨ 2 ^ (-52) <= val x - 1)%Q.
Proof.
  intros [->|[Hx Vx]] H1; [by cbn in H1|]. destruct Hx as (m & e & -> & Hm).
  assert (He : -52 ≤ e).
  { assert (A : (inject_Z (Zpos m) < inject_Z (2 ^ 53))%Q) by (rewrite <- Zlt_Qlt; lia). rewrite pow2_inject in A by lia. unfold val in H1. pose proof (pow2_pos e).
    assert (B : (2 ^ 0 < 2 ^ (53 + e))%Q) by (rewrite pow2_plus; change (2 ^ 0)%Q with 1%Q; nra). apply pow2_lt_inv in B. lia. }
  rewrite one_normal. unfold fsub, SFsub. replace (Z.min e (-52)) with (-52) by lia.
  set (a := fst (shl_align m e (-52))). change (fst (shl_align (2 ^ 52) (-52) (-52))) with (2 ^ 52)%positive. unfold cond_Zopp.
  assert (Ev : (inject_Z (Zpos a - Zpos (2 ^ 52)) * 2 ^ (-52) == val (S754_finite false m e) - 1)%Q).
  { unfold val. rewrite <- (shl_align_val m e (-52)) by lia. fold a. unfold Z.sub. rewrite inject_Z_plus.
    change (inject_Z (- Zpos (2 ^ 52))) with (- (4503599627370496))%Q. change (2 ^ (-52))%Q with ulp. unfold ulp. lra. }
  destruct (Zpos a - Zpos (2 ^ 52)) as [|k|k] eqn:Ek.
  - split; [by left|]. change (val (binary_normalize 53 1024 0 (-52) false)) with 0%Q.
    assert (E0 : (val (S754_finite false m e) - 1 == 0)%Q) by (rewrite <- Ev; reflexivity). unfold near. rewrite E0. split; [lra|by left].
  - assert (Hlow : (2 ^ (-52) <= val (S754_finite false m e) - 1)%Q).
    { rewrite <- Ev. pose proof (pow2_pos (-52)). assert (A : (inject_Z 1 <= inject_Z (Zpos k))%Q) by (rewrite <- Zle_Qle; lia).
      change (inject_Z 1) with 1%Q in A. nra. }
    assert (Hmid : mid (inject_Z (Zpos k) * 2 ^ (-52))).
    { apply (mid_intro _ (-52) 400); [|lia|lia]. rewrite Ev. split; [done|lra]. }
    destruct (round_int k (-52) Hmid) as (B1 & B2 & _). split_and!; [by right| |by right]. unfold near in *. rewrite Ev in B2. exact B2.
  - exfalso. assert (A : (inject_Z (Zneg k) < 0)%Q) by done. pose proof (pow2_pos (-52)). assert (B : (inject_Z (Zneg k) * 2 ^ (-52) < 0)%Q) by nra. lra.
Qed.

Lemma new_location_exact n k : new_location n k = loc_Exact ↔ k = 0.
Proof.
  unfold new_location, new_location_even, new_location_odd. destruct (Z.even n), (Z.eqb_spec k 0); split; (done || congruence).
Qed.

Lemma quotient_rep a b : 0 < b → 0 ≤ a → rep (shr_record_of_loc (a / b) (new_location b (a mod b))) (inject_Z a / inject_Z b).
Proof.
  intros Hb Ha. pose proof (Z.div_mod a b ltac:(lia)) as E. pose proof (Z.mod_pos_bound a b Hb) as Hr. set (q := a / b) in *. set (r := a mod b) in *.
  assert (Hq : 0 ≤ q) by (apply Z.div_pos; lia). assert (Eb : (0 < inject_Z b)%Q) by (change 0%Q with (inject_Z 0); by rewrite <- Zlt_Qlt).
  assert (Em : shr_m (shr_record_of_loc q (new_location b r)) = q) by (by destruct (new_location b r) as [|[]]).
  unfold rep. rewrite Em. split_and!; [done| | |].
  - apply Qle_shift_div_l; [done|]. rewrite <- inject_Z_mult, <- Zle_Qle. lia.
  - apply Qle_shift_div_r; [done|]. rewrite <- inject_Z_mult, <- Zle_Qle. lia.
  - intros Hl. assert (El : new_location b r = loc_Exact) by (by destruct (new_location b r) as [|[]]). apply new_location_exact in El.
    rewrite E, El, Z.add_0_r, inject_Z_mult. field. intros H. rewrite H in Eb. by apply Qlt_irrefl in Eb.
Qed.

Lemma exponent_range m e :
  2 ^ 52 ≤ Zpos m < 2 ^ 53 → (2 ^ (-400) <= val (S754_finite false m e) <= 2 ^ 400)%Q → -453 ≤ e ≤ 348.
Proof.
  intros Hm [H1 H2]. unfold val in *. pose proof (pow2_pos e).
  assert (A : (inject_Z (2 ^ 52) <= inject_Z (Zpos m))%Q) by (rewrite <- Zle_Qle; lia). rewrite pow2_inject in A by lia.
  assert (B : (inject_Z (Zpos m) <= inject_Z (2 ^ 53))%Q) by (rewrite <- Zle_Qle; lia). rewrite pow2_inject in B by lia.
  assert (C : (2 ^ (52 + e) <= 2 ^ 400)%Q) by (rewrite pow2_plus; nra). assert (D : (2 ^ (-400) <= 2 ^ (53 + e))%Q) by (rewrite pow2_plus; nra).
  apply pow2_le_inv in C, D. lia.
Qed.

Lemma div_eucl_pair a b : Z.div_eucl a b = (a / b, a mod b).
Proof. unfold Z.div, Z.modulo. by destruct (Z.div_eucl a b). Qed.

(** The quotient has 53 digits or more. *)
Lemma quotient_digits mx my : 2 ^ 52 ≤ Zpos mx < 2 ^ 53 → 2 ^ 52 ≤ Zpos my < 2 ^ 53 → 2 ^ 52 ≤ Zpos mx * 2 ^ 53 / Zpos my.
Proof. intros Hx Hy. apply Z.div_le_lower_bound; [lia|]. nia. Qed.

Lemma fdiv_spec x y : sound x → sound y → y ≠ S754_zero false → nonneg (fdiv x y) ∧ near (val x / val y) (val (fdiv x y)).
Proof.
  intros Hx [->|[Hy Vy]] Hne; [done|]. destruct Hy as (my & ey & -> & Hmy). destruct Hx as [->|[Hx Vx]].
  { split; [by left|]. unfold near. cbn [val fdiv SFdiv xorb]. unfold Qdiv. lra. }
  destruct Hx as (mx & ex & -> & Hmx). pose proof (exponent_range _ _ Hmx Vx). pose proof (exponent_range _ _ Hmy Vy).
  set (a := Zpos mx * 2 ^ 53). set (e := ex - ey - 53). set (m := a / Zpos my). set (l := new_location (Zpos my) (a mod Zpos my)).
  assert (Ef : fdiv (S754_finite false mx ex) (S754_finite false my ey) = binary_round_aux 53 1024 false m e l).
  { unfold fdiv, SFdiv, SFdiv_core_binary. rewrite !digits_log2, !normal_log2, fexp_mid by (done || lia).
    replace (Z.min (52 + 1 + ex - (52 + 1 + ey) - 53) (ex - ey)) with e by lia. replace (ex - ey - e) with 53 by lia.
    rewrite Z.shiftl_mul_pow2 by lia. fold a. rewrite div_eucl_pair. done. }
  assert (Ev : (inject_Z a / inject_Z (Zpos my) * 2 ^ e == val (S754_finite false mx ex) / val (S754_finite false my ey))%Q).
  { unfold val, a, e, Z.sub. rewrite inject_Z_mult, pow2_inject, !pow2_plus, !Qpower_opp by lia. change (2 ^ 53)%Q with (9007199254740992)%Q.
    field. split; [intros Hp; pose proof (pow2_pos ey); lra|done]. }
  assert (Hmid : mid (inject_Z a / inject_Z (Zpos my) * 2 ^ e)).
  { apply (mid_intro _ (-400 + -400) (400 + 400)); [|lia|lia]. rewrite Ev, !pow2_plus.
    assert (P : (2 ^ (-400) * 2 ^ 400 == 1)%Q) by (by rewrite <- pow2_plus). pose proof (pow2_pos (-400)). pose proof (pow2_pos 400).
    split; [apply Qle_shift_div_l|apply Qle_shift_div_r]; nra. }
  pose proof (quotient_digits _ _ Hmx Hmy) as Hq. fold a m in Hq.
  destruct (round_aux m e l (inject_Z a / inject_Z (Zpos my)) ltac:(lia)) as (H1 & H2 & _); [apply Z.log2_le_pow2; lia|apply quotient_rep; lia|done|].
  rewrite Ef. split; [by right|]. unfold near in *. rewrite Ev in H2. exact H2.
Qed.

(** ** Lemmas: comparisons *)

Lemma normal_lt m1 e1 m2 e2 :
  2 ^ 52 ≤ Zpos m1 < 2 ^ 53 → 2 ^ 52 ≤ Zpos m2 < 2 ^ 53 → e1 < e2 → (val (S754_finite false m1 e1) < val (S754_finite false m2 e2))%Q.
Proof.
  intros H1 H2 He. unfold val. pose proof (pow2_pos e1). assert (A : (inject_Z (Zpos m1) < inject_Z (2 ^ 53))%Q) by (rewrite <- Zlt_Qlt; lia).
  assert (B : (inject_Z (2 ^ 52) <= inject_Z (Zpos m2))%Q) by (rewrite <- Zle_Qle; lia). rewrite pow2_inject in A, B by lia.
  pose proof (pow2_le (53 + e1) (52 + e2) ltac:(lia)) as C. rewrite !pow2_plus in C. pose proof (pow2_pos e2). nra.
Qed.

Lemma compare_val x y : nonneg x → nonneg y → SFcompare x y = Some (val x ?= val y)%Q.
Proof.
  intros [->|(m1 & e1 & -> & H1)] [->|(m2 & e2 & -> & H2)].
  - done.
  - cbn [SFcompare]. f_equal. symmetry. apply Qlt_alt. apply normal_pos. by exists m2, e2.
  - cbn [SFcompare]. f_equal. symmetry. apply Qgt_alt. apply normal_pos. by exists m1, e1.
  - cbn [SFcompare]. f_equal. symmetry. destruct (Z.compare_spec e1 e2) as [->|He|He].
    + unfold val. pose proof (pow2_pos e2). change (Pos.compare_cont Eq m1 m2) with (Zpos m1 ?= Zpos m2). destruct (Z.compare_spec (Zpos m1) (Zpos m2)) as [->|Hm|Hm].
      * by apply Qeq_alt.
      * apply Qlt_alt. rewrite Zlt_Qlt in Hm. by apply Qmult_lt_compat_r.
      * apply Qgt_alt. rewrite Zlt_Qlt in Hm. by apply Qmult_lt_compat_r.
    + apply Qlt_alt. by apply normal_lt.
    + apply Qgt_alt. by apply normal_lt.
Qed.

Lemma ltb_val x y : nonneg x → nonneg y → SFltb x y = true ↔ (val x < val y)%Q.
Proof.
  intros Hx Hy. unfold SFltb. rewrite (compare_val _ _ Hx Hy), Qlt_alt. by destruct (_ ?= _)%Q.
Qed.

Lemma leb_val x y : nonneg x → nonneg y → SFleb x y = true ↔ (val x <= val y)%Q.
Proof.
  intros Hx Hy. unfold SFleb. rewrite (compare_val _ _ Hx Hy), Qle_alt. by destruct (_ ?= _)%Q.
Qed.

(** ** Lemmas: seconds *)

Lemma of_int_sound n : 0 ≤ n < 2 ^ 53 → sound (of_int n).
Proof.
  intros Hn. destruct (of_int_val n Hn) as [H1 H2]. apply sound_intro; [done|]. intros Hp. rewrite H2 in *.
  assert (A : 0 < n) by (by rewrite Zlt_Qlt). assert (B : (inject_Z 1 <= inject_Z n)%Q) by (rewrite <- Zle_Qle; lia).
  assert (C : (inject_Z n <= inject_Z (2 ^ 53))%Q) by (rewrite <- Zle_Qle; lia). rewrite pow2_inject in C by lia.
  pose proof (pow2_le (-400) 0 ltac:(lia)) as D. pose proof (pow2_le 53 400 ltac:(lia)). change (inject_Z 1) with (2 ^ 0)%Q in B. lra.
Qed.

Lemma sound_between f X : nonneg f → (X * (1 # 2) <= val f <= X * 2)%Q → (X == 0 ∨ 2 ^ (-300) <= X <= 2 ^ 300)%Q → sound f.
Proof.
  intros Hf Hv HX. apply sound_intro; [done|]. intros Hp. destruct HX as [E|HX]; [rewrite E in Hv; lra|].
  pose proof (pow2_le (-400) (-300 + -1) ltac:(lia)) as A. pose proof (pow2_le (300 + 1) 400 ltac:(lia)) as B. rewrite !pow2_plus in A, B.
  change (2 ^ (-1))%Q with (1 # 2)%Q in A. change (2 ^ 1)%Q with 2%Q in B. lra.
Qed.

Lemma small_range n : 0 ≤ n < 2 ^ 63 → let X := (inject_Z n * (1 # 1000000000))%Q in (0 <= X)%Q ∧ (X == 0 ∨ 2 ^ (-300) <= X <= 2 ^ 300)%Q.
Proof.
  intros Hn X. unfold X. destruct (Z.eq_dec n 0) as [->|Hne]; [split; [done|by left]|].
  assert (A : (inject_Z 1 <= inject_Z n)%Q) by (rewrite <- Zle_Qle; lia). assert (B : (inject_Z n <= inject_Z (2 ^ 63))%Q) by (rewrite <- Zle_Qle; lia).
  rewrite pow2_inject in B by lia. pose proof (pow2_le (-300) (-30) ltac:(lia)) as C. pose proof (pow2_le 63 300 ltac:(lia)) as D.
  assert (P : (2 ^ (-30) <= 1 # 1000000000)%Q) by done. change (inject_Z 1) with 1%Q in A. split; [lra|right; lra].
Qed.

(** [d] nanoseconds, up to three units in the last place. *)
Lemma Seconds_spec d :
  0 ≤ d < 2 ^ 63 → sound (Seconds d) ∧ let X := (inject_Z d * (1 # 1000000000))%Q in (X * (1 - 2 * ulp) <= val (Seconds d) <= X * (1 + 3 * ulp))%Q.
Proof.
  intros Hd. unfold Seconds. rewrite Z.quot_div_nonneg, Z.rem_mod_nonneg by lia. pose proof (Z.div_mod d 1000000000 ltac:(lia)) as E.
  pose proof (Z.mod_pos_bound d 1000000000 ltac:(lia)) as Hr. assert (Hq : 0 ≤ d / 1000000000 < 2 ^ 53) by (split; [apply Z.div_pos; lia|apply Z.div_lt_upper_bound; lia]).
  pose proof (small_range d Hd) as [_ HX]. cbv zeta. set (q := d / 1000000000) in *. set (r := d mod 1000000000) in *.
  pose proof (of_int_sound q Hq) as Sq. pose proof (proj2 (of_int_val q Hq)) as Vq.
  pose proof (of_int_sound r ltac:(lia)) as Sr. pose proof (proj2 (of_int_val r ltac:(lia))) as Vr.
  destruct (fdiv_spec (of_int r) (of_int 1000000000) Sr (of_int_sound 1000000000 ltac:(lia)) ltac:(discriminate)) as [NF VF].
  set (F := fdiv _ _) in *. unfold near in VF. rewrite Vr in VF. change (val (of_int 1000000000)) with (val (of_int 1000000000)) in VF.
  rewrite (proj2 (of_int_val 1000000000 ltac:(lia))) in VF. change (inject_Z r / inject_Z 1000000000)%Q with (inject_Z r * (1 # 1000000000))%Q in VF.
  pose proof (small_range r ltac:(lia)) as [R0 HR]. cbv zeta in R0, HR. set (rho := (inject_Z r * (1 # 1000000000))%Q) in *.
  assert (SF : sound F) by (apply (sound_between F rho); [done|unfold ulp in VF; lra|done]).
  destruct (fadd_spec (of_int q) F Sq SF) as [NS VS]. unfold near in VS. rewrite Vq in VS. clearbody F.
  assert (EX : (inject_Z d * (1 # 1000000000) == inject_Z q + rho)%Q).
  { unfold rho. rewrite E, inject_Z_plus, inject_Z_mult. change (inject_Z 1000000000) with 1000000000%Q. field. }
  rewrite EX in HX |- *. assert (Q0 : (0 <= inject_Z q)%Q) by (change 0%Q with (inject_Z 0); rewrite <- Zle_Qle; lia).
  set (S := fadd (of_int q) F) in *. clearbody rho S. unfold ulp in *. split; [|lra]. apply (sound_between S (inject_Z q + rho)); [done|lra|done].
Qed.
