(* ===== verification/RateLimit.v ===== *)
(** * Package [tracker]: the rate limiter

    Models [internal/tracker/ratelimit.go]: the token buckets by address, with the arithmetic of [float64] and the clock as an
    input, and the middleware.  Times are readings of the monotonic clock, in nanoseconds.

    The theorems: in any window, whatever the requests of other addresses, an address is let through at most [burst + rate * time]
    times (and [burst] more for each reset of the table); and an address that keeps the rate is never refused. *)

From S2P Require Import Prelude GoStrings Hex NetAddr Bencode TrackerState UsageSync Recognize Database Announce Float64.
From Stdlib Require Import ZArith Lia QArith Qminmax Lqa SpecFloat.
Local Open Scope Z_scope.

(** ** Definitions *)

Record bucket := mkBucket { tokens : float64; lastSeen : Z }.

Record RateLimiter := mkLimiter { buckets : gmap bytes bucket; rate : float64; burst : float64; maxIPs : Z }.

Definition NewRateLimiter (rate burst : float64) (maxIPs : Z) : RateLimiter := mkLimiter ∅ rate burst maxIPs.

(** [Time.Sub] on monotonic readings: saturating. *)
Definition Sub (t u : Z) : Z := Z.max (- 2 ^ 63) (Z.min (2 ^ 63 - 1) (t - u)).

(** The bucket after the refill at [now]. *)
Definition refill (rl : RateLimiter) (b : bucket) (now : Z) : float64 :=
  let elapsed := Seconds (Sub now (lastSeen b)) in
  let t := fadd (tokens b) (fmul elapsed (rate rl)) in
  if SFltb (burst rl) t then burst rl else t.

Definition evict (rl : RateLimiter) : gmap bytes bucket :=
  if maxIPs rl <=? Z.of_nat (size (buckets rl)) then ∅ else buckets rl.

(** [created] is the clock when a new bucket is made, [now] when the request is counted. *)
Definition Allow (ip : bytes) (created now : Z) (rl : RateLimiter) : bool * RateLimiter :=
  let m := evict rl in
  let b := default (mkBucket (burst rl) created) (m !! ip) in
  let t := refill rl b now in
  let store t := mkLimiter (<[ip := mkBucket t now]> m) (rate rl) (burst rl) (maxIPs rl) in
  if SFleb one t then (true, store (fsub t one)) else (false, store t).

(** What a refused request gets: a bencoded failure, or an HTTP error. *)
Inductive refusal := Bencoded (r : reply) | PlainError (msg : bytes) (code : Z).

Definition refuse (path : bytes) : refusal :=
  if has_prefix path (str "/announce") then Bencoded (TrackerError (str "Rate limit exceeded. Please slow down."))
  else PlainError (str "Too Many Requests") 429.

Definition client_ip (remoteAddr : bytes) : bytes := match SplitHostPort remoteAddr with Some (ip, _) => ip | None => remoteAddr end.

(** The wrapped handler runs on the world only if the limiter lets the request through. *)
Definition LimitMiddleware {W A} (next : Request → W → A * W) (created now : Z) (r : Request) (rl : RateLimiter) (w : W) : (refusal + A) * RateLimiter * W :=
  let '(ok, rl) := Allow (client_ip (RemoteAddr r)) created now rl in
  if negb ok then (inl (refuse (path r)), rl, w) else let '(a, w) := next r w in (inr a, rl, w).

(** [GlobalRateLimiter] *)
Definition GlobalRateLimiter : RateLimiter := NewRateLimiter (of_int 5) (of_int 10) 10000.

(** ** Runs *)

Record call := mkCall { ip : bytes; created : Z; now : Z }.

Definition serve (rl : RateLimiter) (c : call) : bool * RateLimiter := Allow (ip c) (created c) (now c) rl.
Fixpoint serve_all (rl : RateLimiter) (cs : list call) : list bool * RateLimiter :=
  match cs with
  | [] => ([], rl)
  | c :: cs => let '(a, rl) := serve rl c in let '(l, rl) := serve_all rl cs in (a :: l, rl)
  end.

(** The calls come in the order of the clock, from [start] to [finish]. *)
Inductive timed (finish : Z) : Z → list call → Prop :=
  | timed_nil start : start ≤ finish → timed finish start []
  | timed_cons start c cs : start ≤ created c ≤ now c → timed finish (now c) cs → timed finish start (c :: cs).

(** How often the table is reset. *)
Definition full (rl : RateLimiter) : bool := maxIPs rl <=? Z.of_nat (size (buckets rl)).
Fixpoint resets (rl : RateLimiter) (cs : list call) : Z :=
  match cs with [] => 0 | c :: cs => (if full rl then 1 else 0) + resets (snd (serve rl c)) cs end.

(** How often [address] is let through. *)
Fixpoint allowed (address : bytes) (cs : list call) (answers : list bool) : Z :=
  match cs, answers with
  | c :: cs, a :: answers => (if a && bool_decide (ip c = address) then 1 else 0) + allowed address cs answers
  | _, _ => 0
  end.

Example burst_then_refused :
  fst (serve_all GlobalRateLimiter (replicate 12 (mkCall (str "1.1.1.1") 7 7))) = replicate 10 true ++ [false; false].
Proof. vm_compute. reflexivity. Qed.
Example refilled :
  fst (serve_all GlobalRateLimiter (replicate 11 (mkCall (str "1.1.1.1") 7 7) ++ [mkCall (str "1.1.1.1") 7 200000007; mkCall (str "1.1.1.1") 7 200000007]))
  = replicate 10 true ++ [false; true; false].
Proof. vm_compute. reflexivity. Qed.

(** ** The invariant *)

Local Open Scope Q_scope.

(** The configuration: a rate and a burst away from the ends of the range. *)
Record config_ok (rl : RateLimiter) : Prop := {
  co_rate : sound (rate rl) ∧ 2 ^ (-100) <= val (rate rl) <= 2 ^ 100;
  co_burst : sound (burst rl) ∧ 1 <= val (burst rl) <= 2 ^ 50;
  co_max : (1 ≤ maxIPs rl)%Z }.

Definition tokens_ok (B : Q) (t : float64) : Prop := (t = S754_zero false ∨ (normal t ∧ 2 ^ (-160) <= val t)) ∧ val t <= B.

Definition bucket_ok (B : Q) (clock : Z) (b : bucket) : Prop := tokens_ok B (tokens b) ∧ (0 ≤ lastSeen b ≤ clock)%Z.

Record limiter_ok (clock : Z) (rl : RateLimiter) : Prop := {
  lo_config : config_ok rl;
  lo_size : (Z.of_nat (size (buckets rl)) ≤ maxIPs rl)%Z;
  lo_buckets : ∀ a b, buckets rl !! a = Some b → bucket_ok (val (burst rl)) clock b }.

(** *** Lemmas: the refill *)

Lemma Sub_ordered t u : (0 ≤ u ≤ t)%Z → (t < 2 ^ 63)%Z → Sub t u = (t - u)%Z.
Proof. unfold Sub. lia. Qed.

Lemma tokens_sound B t : B <= 2 ^ 50 → tokens_ok B t → sound t.
Proof.
  intros HB [[->|[Hn Hl]] Hu]; [by left|right]. split; [done|]. pose proof (pow2_le (-400) (-160) ltac:(lia)). pose proof (pow2_le 50 400 ltac:(lia)). lra.
Qed.

(** Nanoseconds as seconds. *)
Definition seconds (d : Z) : Q := inject_Z d * (1 # 1000000000).

Lemma seconds_plus a b : seconds (a + b) == seconds a + seconds b.
Proof. unfold seconds. rewrite inject_Z_plus. ring. Qed.

Lemma seconds_nonneg d : (0 ≤ d)%Z → 0 <= seconds d.
Proof. intros H. unfold seconds. assert (0 <= inject_Z d) by (change 0 with (inject_Z 0); by rewrite <- Zle_Qle). lra. Qed.

Lemma fmul_zero x : sound x → fmul (S754_zero false) x = S754_zero false.
Proof. intros [->|[(m & e & -> & _) _]]; done. Qed.

Lemma fadd_zero x : nonneg x → fadd x (S754_zero false) = x.
Proof. intros [->|(m & e & -> & _)]; done. Qed.

Lemma Qmult_le_bounds a b c d : 0 <= a → a <= b → 0 <= c → c <= d → a * c <= b * d.
Proof. intros. apply Qle_trans with (b * c); [by apply Qmult_le_compat_r|]. rewrite !(Qmult_comm b). apply Qmult_le_compat_r; lra. Qed.

(** What the time adds: the rate, up to five units in the last place. *)
Lemma gain_spec rl d :
  config_ok rl → (0 ≤ d < 2 ^ 63)%Z →
  let p := fmul (Seconds d) (rate rl) in
  sound p ∧ (p = S754_zero false ∨ 2 ^ (-150) <= val p)
  ∧ seconds d * val (rate rl) * (1 - 4 * ulp) <= val p <= seconds d * val (rate rl) * (1 + 5 * ulp).
Proof.
  intros Hc Hd p. destruct (co_rate _ Hc) as [Hs [R1 R2]]. destruct (Seconds_spec d Hd) as [HS VS]. cbv zeta in VS. fold (seconds d) in VS.
  destruct (fmul_spec _ _ HS Hs) as [NP VP]. fold p in NP, VP. unfold near in VP. pose proof (pow2_pos (-100)) as P100.
  destruct (Z.eq_dec d 0) as [->|Hne].
  { assert (Ep : p = S754_zero false) by (unfold p; change (Seconds 0) with (S754_zero false); by apply fmul_zero).
    rewrite Ep. assert (E0 : seconds 0 == 0) by done. split_and!; [by left|by left| |]; rewrite E0; cbn [val]; lra. }
  assert (D1 : 2 ^ (-30) <= seconds d).
  { assert (A : inject_Z 1 <= inject_Z d) by (rewrite <- Zle_Qle; lia). change (inject_Z 1) with 1 in A. assert (P : 2 ^ (-30) <= 1 # 1000000000) by done. unfold seconds. lra. }
  assert (D2 : seconds d <= 2 ^ 63).
  { assert (A : inject_Z d <= inject_Z (2 ^ 63)) by (rewrite <- Zle_Qle; lia). rewrite pow2_inject in A by lia. pose proof (pow2_pos 63). unfold seconds. lra. }
  pose proof (pow2_pos (-30)) as P30. set (x := seconds d) in *. set (r := val (rate rl)) in *. set (s := val (Seconds d)) in *.
  assert (B1 : x * (1 - 2 * ulp) * r <= s * r) by (apply Qmult_le_compat_r; [apply VS|lra]).
  assert (B2 : s * r <= x * (1 + 3 * ulp) * r) by (apply Qmult_le_compat_r; [apply VS|lra]).
  assert (X0 : 2 ^ (-30) * 2 ^ (-100) <= x * r) by (apply Qmult_le_bounds; lra).
  assert (X1 : x * r <= 2 ^ 63 * 2 ^ 100) by (apply Qmult_le_bounds; lra).
  rewrite <- pow2_plus in X0, X1. assert (XN : 0 <= x * r) by (pose proof (pow2_pos (-30 + -100)); lra).
  assert (E1 : x * (1 - 2 * ulp) * r == x * r * (1 - 2 * ulp)) by ring. assert (E2 : x * (1 + 3 * ulp) * r == x * r * (1 + 3 * ulp)) by ring.
  rewrite E1 in B1. rewrite E2 in B2. set (X := x * r) in *. set (Y := s * r) in *. unfold ulp in *.
  assert (C : X * (1 - 4 * (1 # 4503599627370496)) <= val p <= X * (1 + 5 * (1 # 4503599627370496))) by (clearbody X Y; lra).
  pose proof (pow2_le (-300) (-30 + -100) ltac:(lia)). pose proof (pow2_le (63 + 100) 300 ltac:(lia)).
  split_and!; [|right|apply C|apply C].
  - apply (sound_between p X); [done|clearbody X; lra|right; lra].
  - pose proof (pow2_le (-150) (-30 + -100 + -1) ltac:(lia)) as L. rewrite (pow2_plus _ (-1)) in L. change (2 ^ (-1)) with (1 # 2) in L. clearbody X. lra.
Qed.

Lemma nonneg_normal f : nonneg f → 0 < val f → normal f.
Proof. intros [->|H] Hp; [by cbn in Hp|done]. Qed.

Definition slack (rl : RateLimiter) : Q := ulp * val (burst rl).

(** The refill: capped, and off the exact sum by little. *)
Lemma refill_spec rl b clock now :
  config_ok rl → bucket_ok (val (burst rl)) clock b → (clock ≤ now < 2 ^ 63)%Z →
  let t := refill rl b now in
  let gain := seconds (now - lastSeen b) * val (rate rl) in
  tokens_ok (val (burst rl)) t
  ∧ val t <= val (tokens b) + gain * (1 + 5 * ulp) + 2 * slack rl
  ∧ (val t == val (burst rl) ∨ (val (tokens b) + gain) * (1 - 5 * ulp) <= val t).
Proof.
  intros Hc [Ht Hl] Hn t gain. destruct (co_burst _ Hc) as [HsB [B1 B2]]. pose proof (tokens_sound _ _ B2 Ht) as Hst.
  unfold t, refill. rewrite Sub_ordered by lia. destruct (gain_spec rl (now - lastSeen b) Hc ltac:(lia)) as (Sp & Hp & Vp). fold gain in Vp.
  set (p := fmul _ (rate rl)) in *. set (B := val (burst rl)) in *. unfold slack. fold B.
  destruct (fadd_spec _ _ Hst Sp) as [Ns Vs]. unfold near in Vs. set (s := fadd (tokens b) p) in *.
  pose proof (proj1 (sound_le _ Hst)) as T0. pose proof (proj1 (sound_le _ Sp)) as P0.
  assert (G0 : 0 <= gain) by (unfold ulp in Vp; lra). pose proof (proj2 Ht) as TB.
  destruct (SFltb (burst rl) s) eqn:E.
  - apply ltb_val in E; [|by apply sound_nonneg|done]. fold B in E |- *. split_and!; [|unfold ulp in *; clearbody s p B; lra|by left].
    split; [|apply Qle_refl]. right. split; [apply nonneg_normal; [by apply sound_nonneg|fold B; lra]|].
    pose proof (pow2_le (-160) 0 ltac:(lia)) as L. change (2 ^ 0) with 1 in L. fold B. lra.
  - assert (Hle : val s <= B).
    { apply Qnot_lt_le. intros Hlt. apply not_true_iff_false in E. apply E. apply ltb_val; [by apply sound_nonneg|done|done]. }
    destruct Hp as [Ep|Hp].
    + assert (Es : s = tokens b) by (unfold s; rewrite Ep; apply fadd_zero; by apply sound_nonneg).
      rewrite Es. rewrite Ep in Vp. cbn [val] in Vp. split_and!; [done|unfold ulp in *; lra|right; unfold ulp in *; lra].
    + pose proof (pow2_pos (-150)). assert (S0 : 0 < val s) by (unfold ulp in Vs; lra). split_and!; [|unfold ulp in *; clearbody s p B; lra|right; unfold ulp in *; clearbody s p B; lra].
      split; [|done]. right. split; [by apply nonneg_normal|].
      pose proof (pow2_le (-160) (-150 + -1) ltac:(lia)) as L. rewrite pow2_plus in L. change (2 ^ (-1)) with (1 # 2) in L. unfold ulp in Vs. lra.
Qed.

Lemma nonneg_one : nonneg one.
Proof. right. exists (2 ^ 52)%positive, (-52)%Z. split; [apply one_normal|lia]. Qed.

(** Taking a token. *)
Lemma take_spec rl t :
  config_ok rl → tokens_ok (val (burst rl)) t → SFleb one t = true →
  tokens_ok (val (burst rl)) (fsub t one) ∧ val (fsub t one) <= val t - 1 + slack rl.
Proof.
  intros Hc Ht E. destruct (co_burst _ Hc) as [HsB [B1 B2]]. pose proof (tokens_sound _ _ B2 Ht) as Hst.
  apply leb_val in E; [|apply nonneg_one|by apply sound_nonneg].
  rewrite one_val in E. destruct (fsub_one_spec t Hst E) as (N & V & X). unfold near, slack in *. pose proof (proj2 Ht) as TB. set (B := val (burst rl)) in *.
  set (f := fsub t one) in *. clearbody f B.
  assert (A : val f <= val t - 1 + ulp * B) by (unfold ulp in *; lra). pose proof (pow2_le 50 52 ltac:(lia)).
  assert (U : ulp * B <= 1) by (assert (E2 : ulp * 2 ^ 52 == 1) by done; rewrite <- E2, !(Qmult_comm ulp); apply Qmult_le_compat_r; [lra|done]).
  split; [|done]. split; [|lra]. destruct X as [X|X].
  - left. destruct N as [|N]; [done|]. apply normal_pos in N. rewrite X in V. lra.
  - right. pose proof (pow2_le (-160) (-52 + -1) ltac:(lia)) as L. rewrite pow2_plus in L. change (2 ^ (-1)) with (1 # 2) in L. pose proof (pow2_pos (-52)).
    assert (P : 2 ^ (-160) <= val f) by (unfold ulp in V; lra). split; [|done]. apply nonneg_normal; [done|]. pose proof (pow2_pos (-160)). lra.
Qed.

(** *** Lemmas: one request *)

Lemma burst_tokens rl : config_ok rl → tokens_ok (val (burst rl)) (burst rl).
Proof.
  intros Hc. destruct (co_burst _ Hc) as [HsB [B1 B2]]. split; [|apply Qle_refl]. right. split; [apply nonneg_normal; [by apply sound_nonneg|lra]|].
  pose proof (pow2_le (-160) 0 ltac:(lia)) as L. change (2 ^ 0) with 1 in L. lra.
Qed.

(** The bucket a request meets: its own, or a full one. *)
Lemma bucket_met rl clock a created :
  limiter_ok clock rl → (0 ≤ clock ≤ created)%Z →
  bucket_ok (val (burst rl)) created (default (mkBucket (burst rl) created) (evict rl !! a)).
Proof.
  intros Hl Hc. destruct (evict rl !! a) as [b|] eqn:E; cbn [from_option id].
  - assert (Hb : buckets rl !! a = Some b) by (unfold evict in E; destruct (_ <=? _)%Z; [by rewrite lookup_empty in E|done]).
    destruct (lo_buckets _ _ Hl _ _ Hb) as [H1 H2]. split; [done|lia].
  - split; [apply burst_tokens, (lo_config _ _ Hl)|]. cbn. lia.
Qed.

(** The tokens the request leaves. *)
Definition left_over (rl : RateLimiter) (b : bucket) (now : Z) : bool * float64 :=
  let t := refill rl b now in if SFleb one t then (true, fsub t one) else (false, t).

Lemma Allow_left a created now rl :
  let b := default (mkBucket (burst rl) created) (evict rl !! a) in
  Allow a created now rl = (fst (left_over rl b now), mkLimiter (<[a := mkBucket (snd (left_over rl b now)) now]> (evict rl)) (rate rl) (burst rl) (maxIPs rl)).
Proof. unfold Allow, left_over. by destruct (SFleb one _). Qed.

Definition one_if (b : bool) : Q := if b then 1 else 0.

Lemma left_over_spec rl b clock now :
  config_ok rl → bucket_ok (val (burst rl)) clock b → (clock ≤ now < 2 ^ 63)%Z →
  let '(ok, t) := left_over rl b now in
  tokens_ok (val (burst rl)) t
  ∧ one_if ok + val t <= val (tokens b) + seconds (now - lastSeen b) * val (rate rl) * (1 + 5 * ulp) + 3 * slack rl
  ∧ one_if ok + val t <= val (burst rl) + 3 * slack rl.
Proof.
  intros Hc Hb Hn. destruct (refill_spec rl b clock now Hc Hb Hn) as (Ht & Hv & _). unfold left_over. set (t := refill rl b now) in *.
  assert (S0 : 0 <= slack rl) by (destruct (co_burst _ Hc) as [_ [B1 _]]; unfold slack, ulp; lra). pose proof (proj2 Ht).
  destruct (SFleb one t) eqn:E; cbn [one_if].
  - destruct (take_spec rl t Hc Ht E) as [H1 H2]. split_and!; [done|lra|lra].
  - split_and!; [done|lra|lra].
Qed.

Lemma evict_size rl : config_ok rl → (Z.of_nat (size (buckets rl)) ≤ maxIPs rl)%Z → (Z.of_nat (size (evict rl)) < maxIPs rl)%Z.
Proof.
  intros Hc Hs. unfold evict. destruct (Z.leb_spec (maxIPs rl) (Z.of_nat (size (buckets rl)))); [|done].
  rewrite map_size_empty. pose proof (co_max _ Hc). lia.
Qed.

Lemma Allow_ok a created now clock rl :
  limiter_ok clock rl → (0 ≤ clock ≤ created)%Z → (created ≤ now < 2 ^ 63)%Z → limiter_ok now (snd (Allow a created now rl)).
Proof.
  intros Hl H1 H2. rewrite Allow_left. set (b := default _ _). pose proof (lo_config _ _ Hl) as Hc.
  pose proof (bucket_met rl clock a created Hl H1) as Hb. fold b in Hb.
  pose proof (left_over_spec rl b created now Hc Hb H2) as Hleft. destruct (left_over rl b now) as [ok t]. destruct Hleft as (Ht & _ & _).
  cbn [fst snd]. constructor; cbn [burst buckets maxIPs rate].
  - destruct Hc. by constructor.
  - pose proof (evict_size rl Hc (lo_size _ _ Hl)). rewrite map_size_insert. destruct (evict rl !! a); cbn [id]; lia.
  - intros a' b' [[<- <-]|[_ E]]%lookup_insert_Some; [split; [done|cbn [lastSeen]; lia]|].
    assert (E' : buckets rl !! a' = Some b') by (unfold evict in E; destruct (_ <=? _)%Z; [by rewrite lookup_empty in E|done]).
    destruct (lo_buckets _ _ Hl _ _ E') as [B1 B2]. split; [done|lia].
Qed.

(** ** The budget of an address

    What it may still take at once: its tokens with what the time since has added, up to the burst; or the burst, if it has no bucket. *)
Definition gain_rate (rl : RateLimiter) : Q := val (rate rl) * (1 + 5 * ulp).

Definition budget (rl : RateLimiter) (a : bytes) (clock : Z) : Q :=
  match buckets rl !! a with
  | Some b => Qmin (val (burst rl)) (val (tokens b) + gain_rate rl * seconds (clock - lastSeen b))
  | None => val (burst rl)
  end.

Lemma gain_rate_nonneg rl : config_ok rl → 0 <= gain_rate rl.
Proof. intros Hc. destruct (co_rate _ Hc) as [_ [R1 _]]. pose proof (pow2_pos (-100)). unfold gain_rate, ulp. lra. Qed.

Lemma budget_nonneg rl a clock : limiter_ok clock rl → 0 <= budget rl a clock.
Proof.
  intros Hl. pose proof (lo_config _ _ Hl) as Hc. destruct (co_burst _ Hc) as [_ [B1 B2]]. unfold budget. destruct (buckets rl !! a) as [b|] eqn:E; [|lra].
  destruct (lo_buckets _ _ Hl _ _ E) as [Ht Hs]. apply Q.min_glb; [lra|].
  pose proof (proj1 (sound_le _ (tokens_sound _ _ B2 Ht))). pose proof (Qmult_le_0_compat _ _ (gain_rate_nonneg rl Hc) (seconds_nonneg (clock - lastSeen b) ltac:(lia))). lra.
Qed.

Lemma budget_le rl a clock : config_ok rl → budget rl a clock <= val (burst rl).
Proof. intros Hc. unfold budget. destruct (_ !! _); [apply Q.le_min_l|apply Qle_refl]. Qed.

Lemma seconds_le a b : (a ≤ b)%Z → seconds a <= seconds b.
Proof. intros H. unfold seconds. apply Qmult_le_compat_r; [by rewrite <- Zle_Qle|done]. Qed.

(** Time gives at most the rate. *)
Lemma budget_time rl a t1 t2 :
  config_ok rl → (t1 ≤ t2)%Z → budget rl a t2 <= budget rl a t1 + gain_rate rl * seconds (t2 - t1).
Proof.
  intros Hc Ht. pose proof (Qmult_le_0_compat _ _ (gain_rate_nonneg rl Hc) (seconds_nonneg (t2 - t1) ltac:(lia))) as H0.
  unfold budget. destruct (buckets rl !! a) as [b|]; [|lra].
  assert (E : gain_rate rl * seconds (t2 - lastSeen b) == gain_rate rl * seconds (t1 - lastSeen b) + gain_rate rl * seconds (t2 - t1)).
  { replace (t2 - lastSeen b)%Z with ((t1 - lastSeen b) + (t2 - t1))%Z by lia. rewrite seconds_plus. ring. }
  rewrite E. set (g := gain_rate rl * seconds (t2 - t1)) in *. apply Q.min_case_strong; [by intros x y -> | |]; intros H; apply Q.min_case_strong; try (by intros x y ->); intros; lra.
Qed.

Lemma fresh_budget rl a clock : buckets rl !! a = None → budget rl a clock = val (burst rl).
Proof. unfold budget. by intros ->. Qed.

Lemma evict_spec rl a : evict rl !! a = if full rl then None else buckets rl !! a.
Proof. unfold evict, full. by destruct (_ <=? _)%Z. Qed.

Lemma Qmin_le_r x y z : y <= z → Qmin x y <= z.
Proof. intros H. eapply Qle_trans; [apply Q.le_min_r|done]. Qed.

(** What a request of the address takes, with what it leaves, was in its budget. *)
Lemma own_budget rl clock c :
  limiter_ok clock rl → (0 ≤ clock ≤ created c)%Z → (created c ≤ now c < 2 ^ 63)%Z →
  one_if (fst (serve rl c)) + budget (snd (serve rl c)) (ip c) (now c)
    <= budget rl (ip c) clock + gain_rate rl * seconds (now c - clock) + 3 * slack rl + one_if (full rl) * val (burst rl).
Proof.
  intros Hl H1 H2. pose proof (lo_config _ _ Hl) as Hc. unfold serve. rewrite Allow_left. set (b := default _ _).
  pose proof (bucket_met rl clock (ip c) (created c) Hl H1) as Hb. fold b in Hb.
  pose proof (left_over_spec rl b _ (now c) Hc Hb H2) as Hleft. destruct (left_over rl b (now c)) as [ok t]. destruct Hleft as (_ & L1 & L2).
  cbn [fst snd]. unfold budget at 1. cbn [buckets burst]. rewrite lookup_insert_eq. cbn [tokens lastSeen]. rewrite Z.sub_diag.
  pose proof (budget_nonneg rl (ip c) clock Hl) as N0. pose proof (budget_time rl (ip c) clock (now c) Hc ltac:(lia)) as T0.
  pose proof (Qmult_le_0_compat _ _ (gain_rate_nonneg rl Hc) (seconds_nonneg (now c - clock) ltac:(lia))) as G0.
  set (rl' := mkLimiter _ _ _ _). assert (Et : Qmin (val (burst rl)) (val t + gain_rate rl' * seconds 0) <= val t).
  { apply Qmin_le_r. assert (E0 : seconds 0 == 0) by done. rewrite E0. lra. }
  destruct (full rl) eqn:Ef; cbn [one_if]; [lra|]. destruct (buckets rl !! ip c) as [b'|] eqn:E.
  2:{ rewrite (fresh_budget rl (ip c) clock E) in *. lra. }
  assert (Eb : b = b') by (unfold b; by rewrite evict_spec, Ef, E). rewrite Eb in *. clearbody b.
  assert (E1 : budget rl (ip c) (now c) = Qmin (val (burst rl)) (val (tokens b') + gain_rate rl * seconds (now c - lastSeen b'))) by (unfold budget; by rewrite E).
  assert (M : one_if ok + val t <= Qmin (val (burst rl)) (val (tokens b') + gain_rate rl * seconds (now c - lastSeen b')) + 3 * slack rl).
  { assert (Eg : seconds (now c - lastSeen b') * val (rate rl) * (1 + 5 * ulp) == gain_rate rl * seconds (now c - lastSeen b')) by (unfold gain_rate; ring).
    rewrite Eg in L1. apply Q.min_case_strong; intros; lra. }
  rewrite <- E1 in M. lra.
Qed.

(** The other addresses lose nothing, unless the table is reset, which fills their buckets. *)
Lemma other_budget rl clock c a :
  limiter_ok clock rl → (0 ≤ clock ≤ created c)%Z → (created c ≤ now c < 2 ^ 63)%Z → ip c ≠ a →
  budget (snd (serve rl c)) a (now c) <= budget rl a clock + gain_rate rl * seconds (now c - clock) + one_if (full rl) * val (burst rl).
Proof.
  intros Hl H1 H2 Hne. pose proof (lo_config _ _ Hl) as Hc. unfold serve. rewrite Allow_left. cbn [snd]. set (rl' := mkLimiter _ _ _ _).
  pose proof (budget_nonneg rl a clock Hl) as N0. pose proof (budget_time rl a clock (now c) Hc ltac:(lia)) as T0.
  pose proof (Qmult_le_0_compat _ _ (gain_rate_nonneg rl Hc) (seconds_nonneg (now c - clock) ltac:(lia))) as G0.
  assert (El : buckets rl' !! a = if full rl then None else buckets rl !! a) by (cbn; by rewrite lookup_insert_ne, evict_spec by done).
  destruct (full rl) eqn:Ef; cbn [one_if].
  - rewrite fresh_budget by done. change (val (burst rl')) with (val (burst rl)). lra.
  - assert (E : budget rl' a (now c) = budget rl a (now c)) by (unfold budget; by rewrite El). rewrite E. lra.
Qed.

Lemma serve_budget rl clock c a :
  limiter_ok clock rl → (0 ≤ clock ≤ created c)%Z → (created c ≤ now c < 2 ^ 63)%Z →
  one_if (fst (serve rl c) && bool_decide (ip c = a)) + budget (snd (serve rl c)) a (now c)
    <= budget rl a clock + gain_rate rl * seconds (now c - clock) + one_if (bool_decide (ip c = a)) * (3 * slack rl) + one_if (full rl) * val (burst rl).
Proof.
  intros Hl H1 H2. destruct (decide (ip c = a)) as [<-|Hne].
  - rewrite bool_decide_true, andb_true_r by done. pose proof (own_budget rl clock c Hl H1 H2). change (one_if true) with 1. lra.
  - rewrite bool_decide_false, andb_false_r by done. pose proof (other_budget rl clock c a Hl H1 H2 Hne). change (one_if false) with 0. lra.
Qed.

(** *** Lemmas: runs *)

Definition calls_of (a : bytes) (cs : list call) : Z := zlen (filter (λ c, ip c = a) cs).

Lemma serve_keeps rl c : burst (snd (serve rl c)) = burst rl ∧ rate (snd (serve rl c)) = rate rl.
Proof. unfold serve. by rewrite Allow_left. Qed.

Lemma inject_one_if (b : bool) z : inject_Z ((if b then 1 else 0) + z) == one_if b + inject_Z z.
Proof. rewrite inject_Z_plus. by destruct b. Qed.

Lemma serve_all_cons rl c cs :
  serve_all rl (c :: cs) = (fst (serve rl c) :: fst (serve_all (snd (serve rl c)) cs), snd (serve_all (snd (serve rl c)) cs)).
Proof. cbn [serve_all]. destruct (serve rl c) as [ok rl']. cbn [fst snd]. by destruct (serve_all rl' cs). Qed.

Lemma timed_le finish start cs : timed finish start cs → (start ≤ finish)%Z.
Proof. induction 1; lia. Qed.

Lemma serve_all_ok rl start finish cs :
  limiter_ok start rl → (0 ≤ start)%Z → (finish < 2 ^ 63)%Z → timed finish start cs → ∃ clock, limiter_ok clock (snd (serve_all rl cs)) ∧ (start ≤ clock ≤ finish)%Z.
Proof.
  intros Hl H0 Hf Ht. revert rl Hl H0. induction Ht as [start Hs|start c cs Hs Ht IH]; intros rl Hl H0; [by exists start|].
  pose proof (timed_le _ _ _ Ht) as Hn.
  rewrite serve_all_cons. cbn [snd]. destruct (IH (snd (serve rl c))) as (k & Hk & ?); [apply (Allow_ok _ _ _ start); (done || lia)|lia|]. exists k. split; [done|lia].
Qed.

Lemma run_budget rl start finish cs a :
  limiter_ok start rl → (0 ≤ start)%Z → (finish < 2 ^ 63)%Z → timed finish start cs →
  inject_Z (allowed a cs (fst (serve_all rl cs)))
    <= budget rl a start + gain_rate rl * seconds (finish - start) + inject_Z (calls_of a cs) * (3 * slack rl) + inject_Z (resets rl cs) * val (burst rl).
Proof.
  intros Hl H0 Hf Ht. revert rl Hl H0. induction Ht as [start Hs|start c cs Hs Ht IH]; intros rl Hl H0.
  - pose proof (budget_nonneg rl a start Hl) as N0. pose proof (lo_config _ _ Hl) as Hc.
    pose proof (Qmult_le_0_compat _ _ (gain_rate_nonneg rl Hc) (seconds_nonneg (finish - start) ltac:(lia))). cbn [allowed resets]. change (calls_of a []) with 0%Z.
    change (inject_Z 0) with 0. lra.
  - pose proof (timed_le _ _ _ Ht) as Hle. rewrite serve_all_cons. cbn [fst allowed resets].
    specialize (IH (snd (serve rl c)) (Allow_ok (ip c) (created c) (now c) start rl Hl ltac:(lia) ltac:(lia)) ltac:(lia)).
    pose proof (serve_budget rl start c a Hl ltac:(lia) ltac:(lia)) as Hstep. destruct (serve_keeps rl c) as [Eb Er].
    assert (Eg : gain_rate (snd (serve rl c)) = gain_rate rl) by (unfold gain_rate; by rewrite Er).
    assert (El : slack (snd (serve rl c)) = slack rl) by (unfold slack; by rewrite Eb). rewrite Eb, Eg, El in IH.
    rewrite !inject_one_if. assert (Ec : calls_of a (c :: cs) = ((if bool_decide (ip c = a) then 1 else 0) + calls_of a cs)%Z).
    { unfold calls_of, zlen. destruct (decide (ip c = a)) as [E|E]; [rewrite filter_cons_True, bool_decide_true by done; cbn [length]; lia|
        rewrite filter_cons_False, bool_decide_false by done; lia]. }
    rewrite Ec, inject_one_if. replace (finish - start)%Z with ((finish - now c) + (now c - start))%Z by lia. rewrite seconds_plus.
    set (rl' := snd (serve rl c)) in *. set (ans := fst (serve_all rl' cs)) in *. clearbody rl' ans.
    set (x1 := one_if _) in *. set (x2 := one_if (bool_decide _)) in *. set (x3 := one_if (full rl)) in *. 
    set (g := gain_rate rl) in *. set (s := slack rl) in *. set (B := val (burst rl)) in *. lra.
Qed.

(** ** Properties *)

(** C24. The limit holds: from any state of the limiter, over any run of requests from any addresses between two readings of the
    clock, the number of requests of one address that are let through is at most the burst, plus the rate times the
    seconds between (up to five units in the last place of a [float64]), plus another burst for each time the table
    was reset, plus [3 * 2^-52] bursts of rounding for each request of the address. *)
Theorem rate_bound rl start finish cs address :
  limiter_ok start rl → (0 ≤ start)%Z → (finish < 2 ^ 63)%Z → timed finish start cs →
  let answers := fst (serve_all rl cs) in
  let n := inject_Z (calls_of address cs) in
  let r := inject_Z (resets rl cs) in
  inject_Z (allowed address cs answers)
    <= (1 + r) * val (burst rl) + val (rate rl) * (1 + 5 * ulp) * seconds (finish - start) + n * (3 * ulp * val (burst rl)).
Proof.
  intros Hl H0 Hf Ht answers n r. pose proof (run_budget rl start finish cs address Hl H0 Hf Ht) as H.
  pose proof (budget_le rl address start (lo_config _ _ Hl)) as Hb. fold answers n r in H. unfold gain_rate, slack in H. clearbody answers n r.
  set (g := val (rate rl) * (1 + 5 * ulp) * seconds (finish - start)) in *. set (B := val (burst rl)) in *. clearbody g B. unfold ulp in *. lra.
Qed.

(** The limit does not bite below the rate: whatever the other addresses do, a request of an address that has no bucket (with a
    burst of two or more), or whose tokens with what the rate gives since its last request make one token (up to five
    units in the last place), is let through. *)
Theorem rate_available rl clock address created now :
  limiter_ok clock rl → (0 ≤ clock ≤ created)%Z → (created ≤ now < 2 ^ 63)%Z → 2 <= val (burst rl) →
  (∀ b, buckets rl !! address = Some b → 1 <= (val (tokens b) + seconds (now - lastSeen b) * val (rate rl)) * (1 - 5 * ulp)) →
  fst (Allow address created now rl) = true.
Proof.
  intros Hl H1 H2 HB Hb. pose proof (lo_config _ _ Hl) as Hc. rewrite Allow_left. cbn [fst]. unfold left_over. set (b := default _ _).
  pose proof (bucket_met rl clock address created Hl H1) as Ho. fold b in Ho. destruct (refill_spec rl b _ now Hc Ho H2) as (Ht & _ & Hv).
  destruct (co_burst _ Hc) as [_ [_ B2]]. assert (E : SFleb one (refill rl b now) = true); [|by rewrite E].
  apply leb_val; [apply nonneg_one|apply sound_nonneg; by eapply tokens_sound|]. rewrite one_val.
  destruct Hv as [Hv|Hv]; [rewrite Hv; lra|]. eapply Qle_trans; [|exact Hv]. destruct (evict rl !! address) as [b'|] eqn:E; subst b; cbn [from_option id].
  - apply Hb. rewrite evict_spec in E. by destruct (full rl).
  - cbn [tokens lastSeen]. destruct (co_rate _ Hc) as [_ [R1 _]]. pose proof (pow2_pos (-100)).
    pose proof (Qmult_le_0_compat _ _ (seconds_nonneg (now - created) ltac:(lia)) (Qlt_le_weak _ _ (Qlt_le_trans _ _ _ (pow2_pos (-100)) R1))) as G0.
    set (g := seconds _ * _) in *. clearbody g. unfold ulp. lra.
Qed.

(** ** The tracker's limiter *)

Lemma global_config : config_ok GlobalRateLimiter.
Proof.
  assert (L : 2 ^ (-100) <= 5 <= 2 ^ 100) by done. assert (M : 1 <= 10 <= 2 ^ 50) by done.
  constructor; cbn [GlobalRateLimiter NewRateLimiter rate burst maxIPs]; [split; [apply of_int_sound; lia|]|split; [apply of_int_sound; lia|]|lia].
  - rewrite (proj2 (of_int_val 5 ltac:(lia))). exact L.
  - rewrite (proj2 (of_int_val 10 ltac:(lia))). exact M.
Qed.

Lemma global_ok : limiter_ok 0 GlobalRateLimiter.
Proof. constructor; [apply global_config|done|]. intros a b H. pose proof (lookup_empty (M := gmap bytes) (A := bucket) a) as H'. change (buckets GlobalRateLimiter) with (∅ : gmap bytes bucket) in H. congruence. Qed.

(** Fourteen requests of one address and one of another, the last after two fifths of a second: twelve of the address are let through. *)
Definition sample_calls : list call :=
  mkCall (str "a") 1 2 :: mkCall (str "b") 2 2 :: replicate 11 (mkCall (str "a") 3 3) ++ replicate 2 (mkCall (str "a") 400000004 400000004).

Lemma sample_timed : timed 400000004 0 sample_calls.
Proof. repeat (apply timed_cons; [cbn; lia|]). apply timed_nil. cbn. lia. Qed.

Lemma rate_bound_witness :
  allowed (str "a") sample_calls (fst (serve_all GlobalRateLimiter sample_calls)) = 12%Z
  ∧ inject_Z (allowed (str "a") sample_calls (fst (serve_all GlobalRateLimiter sample_calls)))
    <= (1 + inject_Z (resets GlobalRateLimiter sample_calls)) * val (burst GlobalRateLimiter)
       + val (rate GlobalRateLimiter) * (1 + 5 * ulp) * seconds (400000004 - 0)
       + inject_Z (calls_of (str "a") sample_calls) * (3 * ulp * val (burst GlobalRateLimiter))
  ∧ (1 + inject_Z (resets GlobalRateLimiter sample_calls)) * val (burst GlobalRateLimiter)
       + val (rate GlobalRateLimiter) * (1 + 5 * ulp) * seconds (400000004 - 0)
       + inject_Z (calls_of (str "a") sample_calls) * (3 * ulp * val (burst GlobalRateLimiter)) < 13.
Proof.
  split; [vm_compute; reflexivity|]. split; [|vm_compute; reflexivity].
  apply (rate_bound GlobalRateLimiter 0 400000004 sample_calls (str "a") global_ok); [lia|lia|exact sample_timed].
Defined.

Definition drained : RateLimiter := snd (serve_all GlobalRateLimiter (replicate 11 (mkCall (str "a") 0 0))).

Lemma drained_ok : limiter_ok 0 drained.
Proof.
  assert (T : timed 0 0 (replicate 11 (mkCall (str "a") 0 0))) by (repeat (apply timed_cons; [cbn; lia|]); by apply timed_nil).
  destruct (serve_all_ok GlobalRateLimiter 0 0 _ global_ok ltac:(lia) ltac:(lia) T) as (k & Hk & ?). by replace k with 0%Z in Hk by lia.
Qed.

Lemma rate_available_witness :
  fst (Allow (str "a") 0 0 drained) = false ∧ fst (Allow (str "a") 200000001 200000001 drained) = true.
Proof.
  split; [vm_compute; reflexivity|]. apply (rate_available drained 0 (str "a") 200000001 200000001 drained_ok).
  - lia.
  - lia.
  - vm_compute. discriminate.
  - intros b Hb. assert (E : buckets drained !! str "a" = Some (mkBucket (S754_zero false) 0)) by (vm_compute; reflexivity).
    rewrite E in Hb. injection Hb as <-. vm_compute. discriminate.
Defined.
