(* ===== verification/WlGet.v ===== *)
(** * Command [wl get]

    Models [runGet] of [cmd/wl/main.go] and what it calls there: the metadata from the tracker's registry or from the peers, the
    name of the torrent file, and the download.  The tracker's HTTP interface, the connections to the peers, the file system and
    the scheduler are parameters; the result is what [runGet] returns, the announces it made, in order, and what it left
    on disk.

    The theorems: whichever way the metadata came, it is what the magnet link names; a nil result means that the
    content of that torrent is on disk; and no display name of a magnet makes it write a torrent file outside the
    output directory. *)

From S2P Require Import Prelude Strconv Hex Sha GoStrings NetAddr Bencode Recognize Url NetUrl Database TrackerState UsageSync Announce Codec ClientTracker Wire Peer Metadata Downloader Handshake Interop Paths Magnet Metainfo Merkle Create Storage Swarm SwarmInv SwarmRun Download WlUrl.
From Stdlib Require Import ZArith Lia.
Local Open Scope Z_scope.

(** ** Names *)

(** A bare file name, or the fallback. *)
Definition sanitizeFilename (name fallback : bytes) : bytes :=
  if bool_decide (name = [] ∨ name = str "." ∨ name = str "..") || contains_any name (str "/\" ++ [zbyte 0]) then fallback else name.

(** ** The command *)

Record getOpts := mkGet { magnetURI : bytes; trackerURL : bytes; outputDir : bytes; userID : bytes; secret : bytes }.

Inductive gerr :=
| GMagnet (e : merr) | GNoV1Hash | GBadV1Hash | GAnnounce (e : cerr) | GNoPeers | GNoPeerServed | GParse (e : terr) | GRebuild
| GOutputDir (e : oserr) | GTorrentFile (e : oserr) | GDownload (e : derr).

(** A call whose error the caller drops. *)
Definition attempt {E A} (r : result E A) : result gerr (option A) :=
  match r with Ok a => Ok (Some a) | Err _ => Ok None | Panic => Panic | NoFuel => NoFuel end.

Section get.
Context {B : Bencoder} (order : list (bytes * tree) → list (bytes * tree)).
(** A GET: a transport error, or a status and the body, or the failure to read it. *)
Context (http_get : bytes → option (Z * option bytes)).
Context (announce : bytes → AnnounceOptions → result cerr (list bytes)).
(** [Connect]: a connection that has just been made. *)
Context (dial : bytes → option PeerConn).

(** [None] for any error. *)
Definition fetchTorrent (trackerBase infoHash : bytes) : option bytes :=
  match http_get (torrentURL trackerBase infoHash) with
  | Some (status, body) => if bool_decide (status = 404) then None else if bool_decide (status ≠ 200) then None else body
  | None => None
  end.

Fixpoint fetchMetadataFromPeers (addrs : list bytes) (v1Hash peerID : bytes) : result gerr bytes :=
  match addrs with
  | [] => Err GNoPeerServed
  | addr :: rest =>
      match dial addr with
      | None => fetchMetadataFromPeers rest v1Hash peerID
      | Some p =>
          match Handshake v1Hash peerID p with
          | (Ok _, p) =>
              if MetadataSize p <=? 0 then fetchMetadataFromPeers rest v1Hash peerID else
              match FetchMetadata v1Hash p with
              | (Ok data, _) => Ok data
              | (Err _, _) => fetchMetadataFromPeers rest v1Hash peerID
              | (Panic, _) => Panic
              | (NoFuel, _) => NoFuel
              end
          | (Err _, _) => fetchMetadataFromPeers rest v1Hash peerID
          | (Panic, _) => Panic
          | (NoFuel, _) => NoFuel
          end
      end
  end.

(** The registry's answer, if it is a torrent file with the magnet's hashes that parses. *)
Definition registry_metadata (trackerBase : bytes) (mag : Magnet) : result gerr (option (bytes * TorrentMeta)) :=
  match fetchTorrent trackerBase (BestHash mag) with
  | None => Ok None
  | Some tb =>
      match attempt (ExtractInfoBytes tb) with
      | Ok (Some infoBytes) =>
          if is_ok (VerifyInfoHash infoBytes mag) then fmap (M := option) (pair tb) <$> attempt (ParseInfo order infoBytes) else Ok None
      | Ok None => Ok None
      | Err e => Err e
      | Panic => Panic
      | NoFuel => NoFuel
      end
  end.

(** The registry first, then the peers; the announces it made. *)
Definition acquireMetadata (trackerBase announceURL : bytes) (mag : Magnet) (rand : option bytes)
    : result gerr (bytes * TorrentMeta) * list AnnounceOptions :=
  match registry_metadata trackerBase mag with
  | Err e => (Err e, [])
  | Panic => (Panic, [])
  | NoFuel => (NoFuel, [])
  | Ok (Some r) => (Ok r, [])
  | Ok None =>
      if bool_decide (InfoHashV1 mag = []) then (Err GNoV1Hash, []) else
      match hex_decode (InfoHashV1 mag) with
      | None => (Err GBadV1Hash, [])
      | Some v1Hash =>
          if negb (length v1Hash =? 20)%nat then (Err GBadV1Hash, []) else
          let peerID := GeneratePeerID rand in
          let base event := mkOptions v1Hash peerID 6881 0 0 0 event in
          match announce announceURL (base EStarted) with
          | Err e => (Err (GAnnounce e), [base EStarted])
          | Panic => (Panic, [base EStarted])
          | NoFuel => (NoFuel, [base EStarted])
          | Ok addrs =>
              let log := [base EStarted; base EStopped] in
              if bool_decide (addrs = []) then (Err GNoPeers, log) else
              (infoBytes ← fetchMetadataFromPeers addrs v1Hash peerID;
               meta ← map_err GParse (ParseInfo order infoBytes);
               tb ← of_option GRebuild (BuildMetainfo infoBytes announceURL);
               Ok (tb, meta), log)
          end
      end
  end.

(** The tracker's base URL and the URL of the announces. *)
Definition tracker_base (o : getOpts) (mag : Magnet) : bytes :=
  match Trackers mag with tr :: _ => trackerRoot tr | [] => trackerURL o end.
Definition get_announce_url (o : getOpts) (mag : Magnet) : bytes :=
  let base := tracker_base o mag in
  if bool_decide (userID o ≠ [] ∧ secret o ≠ []) then buildAnnounceURL base (userID o) (secret o) else
  match Trackers mag with
  | tr :: _ => if bool_decide (tr ≠ []) then tr else buildAnnounceURL base [] []
  | [] => buildAnnounceURL base [] []
  end.

(** [OpenFile] with [O_WRONLY|O_CREATE|O_TRUNC], [Write] and [Close]. *)
Definition write_torrent_file (p data : bytes) (fs : FS) : result oserr unit * FS :=
  match OpenFile true p fs with
  | (Ok _, fs) =>
      match WriteAt p data 0 (set_file p [] fs) with
      | (Ok _, fs) => match syscall fs with (Some _, fs) => (Err EIO, fs) | (None, fs) => (Ok tt, fs) end
      | r => r
      end
  | r => r
  end.

(** What [runGet] does, and leaves: its result, its announces, the output directory after the torrent file, the swarm. *)
Record outcome := mkGot { returned : result gerr unit; announces : list AnnounceOptions; saved : option FS; swarm_left : option Swarm }.

Context (run : Swarm → Swarm).

(** [opened]: the output directory, made and opened; [reopened]: the same for the storage, after the torrent file. *)
Definition runGet (o : getOpts) (rand1 rand2 : option bytes) (opened : result oserr FS) (reopened : FS → result oserr FS) : outcome :=
  match ParseMagnet (magnetURI o) with
  | Err e => mkGot (Err (GMagnet e)) [] None None
  | Panic => mkGot Panic [] None None
  | NoFuel => mkGot NoFuel [] None None
  | Ok mag =>
      let hash := BestHash mag in
      if (length hash <? 16)%nat then mkGot Panic [] None None else
      let name := if bool_decide (DisplayName mag = []) then take 16 hash else DisplayName mag in
      let announceURL := get_announce_url o mag in
      match acquireMetadata (tracker_base o mag) announceURL mag rand1 with
      | (Err e, log) => mkGot (Err e) log None None
      | (Panic, log) => mkGot Panic log None None
      | (NoFuel, log) => mkGot NoFuel log None None
      | (Ok (torrentBytes, meta), log) =>
          let safeName := sanitizeFilename name (take 16 hash) in
          match opened with
          | Ok fs =>
              match write_torrent_file (safeName ++ str ".torrent") torrentBytes fs with
              | (Ok _, fs) =>
                  match hex_decode (InfoHashV1 mag) with
                  | None => mkGot (Err GBadV1Hash) log (Some fs) None
                  | Some v1Hash =>
                      let '(r, log2, s) := DownloadMVP announce run (mkDownload meta v1Hash announceURL 0) (reopened fs) rand2 in
                      mkGot (map_err GDownload r) (log ++ log2) (Some fs) s
                  end
              | (Err e, fs) => mkGot (Err (GTorrentFile e)) log (Some fs) None
              | (Panic, fs) => mkGot Panic log (Some fs) None
              | (NoFuel, fs) => mkGot NoFuel log (Some fs) None
              end
          | Err e => mkGot (Err (GOutputDir e)) log None None
          | Panic => mkGot Panic log None None
          | NoFuel => mkGot NoFuel log None None
          end
      end
  end.
End get.

(** ** Lemmas: names *)

(** A name of a file in a directory. *)
Definition bare (name : bytes) : Prop := name ≠ [] ∧ name ≠ str "." ∧ name ≠ str ".." ∧ (chr "/" ∉ name) ∧ (zbyte 0 ∉ name).

Lemma contains_any_none s chars c : contains_any s chars = false → c ∈ chars → c ∉ s.
Proof. intros H Hc Hin. rewrite contains_any_false in H. by apply (H c Hin). Qed.

Lemma sanitize_bare name fallback : bare fallback → bare (sanitizeFilename name fallback).
Proof.
  intros Hf. unfold sanitizeFilename. case_bool_decide as Hn; [done|]. cbn [orb]. destruct (contains_any _ _) eqn:E; [done|].
  split_and!; try tauto; (eapply contains_any_none; [exact E|]); decide_now.
Qed.

Lemma bare_torrent name : bare name → bare (name ++ str ".torrent").
Proof.
  intros (Hn & _ & _ & Hs & Hz). split_and!; try (intros E; apply (f_equal length) in E; rewrite length_app in E; cbn in E; lia);
    rewrite not_elem_of_app; (split; [done|decide_now]).
Qed.

Lemma hex_bare h n : isHex h n = true → (16 ≤ n)%nat → bare (take 16 h).
Proof.
  unfold isHex. intros [Hl Hh]%andb_true_iff Hn. apply Nat.eqb_eq in Hl.
  assert (L : length (take 16 h) = 16%nat) by (rewrite length_take; lia). rewrite forallb_forall in Hh.
  assert (D : ∀ c, c ∈ take 16 h → is_lower_hex c = true) by (intros c Hc; apply Hh, list_elem_of_In; rewrite <- (take_drop 16 h), elem_of_app; by left).
  split_and!; try (intros E; rewrite E in L; by vm_compute in L); by intros ?%D.
Qed.

(** ** Lemmas: the metadata *)

(** The info dictionary is the one the link names: by its v1 hash if there is one, else by its v2 hash. *)
Definition authentic (mag : Magnet) (info : bytes) : Prop :=
  if bool_decide (InfoHashV1 mag ≠ []) then hex_encode (sha1 info) = InfoHashV1 mag else hex_encode (sha256 info) = InfoHashV2 mag.

Lemma VerifyInfoHash_authentic mag info :
  InfoHashV1 mag ≠ [] ∨ InfoHashV2 mag ≠ [] → VerifyInfoHash info mag = Ok tt → authentic mag info.
Proof.
  unfold VerifyInfoHash, authentic. intros Hm H. destruct (decide (InfoHashV1 mag = [])) as [E|E].
  - rewrite (bool_decide_false (InfoHashV1 mag ≠ [])) in * by tauto. cbn [andb] in H. destruct Hm as [|Hm]; [done|].
    rewrite bool_decide_true in H by done. cbn [andb] in H. by case_bool_decide.
  - rewrite (bool_decide_true (InfoHashV1 mag ≠ [])) in * by done. cbn [andb] in H. by case_bool_decide.
Qed.

Section lemmas.
Context {B : Bencoder} (order : list (bytes * tree) → list (bytes * tree)) (http_get : bytes → option (Z * option bytes))
  (announce : bytes → AnnounceOptions → result cerr (list bytes)) (dial : bytes → option PeerConn).

Lemma fetchMetadataFromPeers_hash addrs v1Hash peerID data : fetchMetadataFromPeers dial addrs v1Hash peerID = Ok data → sha1 data = v1Hash.
Proof.
  induction addrs as [|a addrs IH]; [done|]. cbn [fetchMetadataFromPeers]. destruct (dial a) as [p|]; [|done].
  destruct (Handshake v1Hash peerID p) as [[[]|e| |] p1]; try done. destruct (MetadataSize p1 <=? 0); [done|].
  destruct (FetchMetadata v1Hash p1) as [[d|e| |] p2] eqn:E; try done. intros [= <-]. by apply FetchMetadata_ok in E as [? _].
Qed.

Lemma registry_metadata_ok base mag tb meta :
  InfoHashV1 mag ≠ [] ∨ InfoHashV2 mag ≠ [] → registry_metadata order http_get base mag = Ok (Some (tb, meta)) →
  ∃ info, fetchTorrent http_get base (BestHash mag) = Some tb ∧ ExtractInfoBytes tb = Ok info ∧ ParseInfo order info = Ok meta ∧ authentic mag info.
Proof.
  unfold registry_metadata. intros Hm. destruct (fetchTorrent _ _ _) as [tb'|] eqn:Ef; [|done].
  destruct (ExtractInfoBytes tb') as [info| | |] eqn:Ex; cbn [attempt]; try done. destruct (VerifyInfoHash info mag) as [[]| | |] eqn:Ev; cbn [is_ok]; try done.
  destruct (ParseInfo order info) as [meta'| | |] eqn:Ep; cbn [attempt]; try done. cbn [fmap result_fmap option_fmap option_map]. intros [= <- <-].
  exists info. split_and!; try done. by apply VerifyInfoHash_authentic.
Qed.

(** Whichever way the metadata came, it is what the magnet names. *)
Lemma acquireMetadata_ok base url mag rand tb meta log :
  isHex (InfoHashV1 mag) 40 = true ∨ InfoHashV1 mag = [] ∧ InfoHashV2 mag ≠ [] →
  acquireMetadata order http_get announce dial base url mag rand = (Ok (tb, meta), log) →
  ∃ info, ParseInfo order info = Ok meta ∧ authentic mag info ∧ (log = [] ∨ events log = [EStarted; EStopped]).
Proof.
  intros Hm. assert (Hne : InfoHashV1 mag ≠ [] ∨ InfoHashV2 mag ≠ []) by (destruct Hm as [Hm|[_ ?]]; [left; intros E; by rewrite E in Hm|by right]).
  unfold acquireMetadata. destruct (registry_metadata _ _ _ _) as [[[tb' meta']|]| | |] eqn:E; try done.
  - intros [= -> -> <-]. destruct (registry_metadata_ok _ _ _ _ Hne E) as (info & _ & _ & ? & ?). exists info. split_and!; [done|done|by left].
  - case_bool_decide as H1; [done|]. destruct Hm as [Hm|[? _]]; [|done].
    destruct (hex_decode (InfoHashV1 mag)) as [v1|] eqn:Ed; [|done]. destruct (length v1 =? 20)%nat; [|done]. cbn [negb].
    destruct (announce _ _) as [addrs|e| |]; try done. case_bool_decide; [done|].
    destruct (fetchMetadataFromPeers _ _ _ _) as [info| | |] eqn:Ef; simpl_res; try done.
    destruct (ParseInfo order info) as [meta'| | |] eqn:Ep; simpl_res; try done.
    destruct (BuildMetainfo info url) as [tb'|]; simpl_res; try done. intros [= <- <- <-]. exists info. split_and!; [done| |by right].
    unfold authentic. rewrite bool_decide_true by done. rewrite (fetchMetadataFromPeers_hash _ _ _ _ Ef). apply hex_encode_decode; [|done].
    by apply andb_true_iff in Hm as [_ ?].
Qed.
End lemmas.

(** ** Lemmas: the torrent file *)

Lemma write_at_new data : write_at [] 0 data = data.
Proof. destruct data as [|b d]; [done|]. unfold write_at. cbn [resize]. by rewrite drop_nil, app_nil_r. Qed.

Lemma syscall_same fs : fs_files (snd (syscall fs)) = fs_files fs ∧ fs_dirs (snd (syscall fs)) = fs_dirs fs.
Proof. unfold syscall. by destruct (fs_faults fs). Qed.

Lemma OpenFile_frame p fs : fs_dirs (snd (OpenFile true p fs)) = fs_dirs fs ∧ ∀ q, q ≠ p → fs_files (snd (OpenFile true p fs)) !! q = fs_files fs !! q.
Proof.
  unfold OpenFile. pose proof (syscall_same fs) as [H1 H2]. destruct (syscall fs) as [[n|] fs0]; cbn [snd] in *; [by rewrite H1, H2|].
  rewrite <- H1, <- H2. case_bool_decide; [done|]. destruct (fs_files fs0 !! p); [done|]. destruct (_ && _); [|done].
  split; [done|]. intros q Hq. cbn. by rewrite lookup_insert_ne.
Qed.

Lemma WriteAt_frame p data fs : fs_dirs (snd (WriteAt p data 0 fs)) = fs_dirs fs ∧ ∀ q, q ≠ p → fs_files (snd (WriteAt p data 0 fs)) !! q = fs_files fs !! q.
Proof.
  unfold WriteAt. cbn [Z.ltb Z.compare]. pose proof (syscall_same fs) as [H1 H2].
  destruct (syscall fs) as [[n|] fs0]; cbn [snd set_file fs_dirs fs_files] in *; rewrite H1, H2; (split; [done|]; intros q Hq; by rewrite lookup_insert_ne).
Qed.

Lemma WriteAt_all p data fs fs' : fs_files fs !! p = Some [] → WriteAt p data 0 fs = (Ok tt, fs') → fs_files fs' !! p = Some data.
Proof.
  intros Hp. unfold WriteAt. cbn [Z.ltb Z.compare]. pose proof (syscall_same fs) as [H1 _]. rewrite Hp.
  destruct (syscall fs) as [[n|] fs0]; [done|]. intros [= <-]. cbn [set_file fs_files]. rewrite lookup_insert_eq. cbn [from_option id]. by rewrite write_at_new.
Qed.

(** Nothing else is touched, and a nil error means the file has its contents. *)
Lemma write_torrent_file_spec p data fs r fs' : write_torrent_file p data fs = (r, fs') →
  fs_dirs fs' = fs_dirs fs ∧ (∀ q, q ≠ p → fs_files fs' !! q = fs_files fs !! q) ∧ (r = Ok tt → fs_files fs' !! p = Some data).
Proof.
  unfold write_torrent_file. pose proof (OpenFile_frame p fs) as [O1 O2].
  destruct (OpenFile true p fs) as [[[]|e| |] fs1]; cbn [snd] in O1, O2; [|intros [= <- <-]; by split_and!..].
  pose proof (WriteAt_frame p data (set_file p [] fs1)) as [W1 W2]. cbn [set_file fs_dirs fs_files] in W1, W2.
  assert (W3 : ∀ q, q ≠ p → fs_files (snd (WriteAt p data 0 (set_file p [] fs1))) !! q = fs_files fs !! q) by (intros q Hq; rewrite W2, lookup_insert_ne by done; by apply O2).
  pose proof (λ fs2, WriteAt_all p data (set_file p [] fs1) fs2 (lookup_insert_eq _ _ _)) as W4.
  destruct (WriteAt p data 0 _) as [[[]|e| |] fs2]; cbn [snd] in W1, W3; [|intros [= <- <-]; (split_and!; [congruence|done|done])..].
  pose proof (syscall_same fs2) as [S1 S2]. specialize (W4 fs2 eq_refl).
  destruct (syscall fs2) as [[n|] fs3]; cbn [snd] in S1, S2; intros [= <- <-]; rewrite S1, S2; (split_and!; [congruence|done|done]).
Qed.

(** ** Properties *)

(** Every file is laid out with its length, every piece of their concatenation has its hash, and they are the whole content. *)
Definition holds_content (meta : TorrentMeta) (paths : list bytes) (s : Swarm) : Prop :=
  laid (Files meta) paths (root (store s))
  ∧ (∀ i, (i < pieceCount meta)%nat →
       sha1 (piece (stream paths (root (store s))) (Z.to_nat (PieceLength meta)) i) = slice (pieceHashes meta) (i * 20) ((i + 1) * 20))
  ∧ zlen (stream paths (root (store s))) = TotalSize meta.

(** C9. What [wl get] downloads: when it returns nil, the magnet link parsed, metadata was acquired, and it is what the parser reads in an info dictionary
    with the hash that the link names (its SHA-1, or its SHA-256 for a link without a v1 hash), whichever of the registry and the peers it came
    from; the swarm ran for that metadata with the v1 hash of the link, and whatever its threads and the peers did, if the file paths are distinct,
    every file is in the output directory with its length, and every piece of the content has its hash. *)
Theorem get_verified `{B : Bencoder} order http_get announce dial run o rand1 rand2 opened reopened :
  let g := runGet order http_get announce dial run o rand1 rand2 opened reopened in
  returned g = Ok tt →
  ∃ mag tb info meta log v1 s, ParseMagnet (magnetURI o) = Ok mag
  ∧ acquireMetadata order http_get announce dial (tracker_base o mag) (get_announce_url o mag) mag rand1 = (Ok (tb, meta), log)
  ∧ authentic mag info ∧ ParseInfo order info = Ok meta ∧ hex_decode (InfoHashV1 mag) = Some v1 ∧ swarm_left g = Some s
  ∧ ∀ paths, Files meta ≠ [] → Forall2 (λ fe p, resolve (Path fe) = Ok p) (Files meta) paths → NoDup paths →
      total (Files meta) < 2 ^ 62 → PieceLength meta < 2 ^ 62 → runs_swarm (mkDownload meta v1 (get_announce_url o mag) 0) rand2 run →
      holds_content meta paths s.
Proof.
  intros g. unfold g, runGet. pose proof (ParseMagnet_hashes (magnetURI o)) as Hm. destruct (ParseMagnet (magnetURI o)) as [mag| | |]; [|done..].
  destruct (_ <? 16)%nat; [done|]. destruct (acquireMetadata _ _ _ _ _ _ _ _) as [[[tb meta]|e| |] log] eqn:Ea; [|done..].
  destruct opened as [fs|e| |]; [|done..]. destruct (write_torrent_file _ _ _) as [[[]|e| |] fs1]; [|done..].
  destruct (hex_decode (InfoHashV1 mag)) as [v1|] eqn:Ev; [|done]. set (d := mkDownload meta v1 (get_announce_url o mag) 0).
  destruct (DownloadMVP announce run d (reopened fs1) rand2) as [[r log2] s] eqn:Ed. cbn [returned swarm_left]. destruct r as [[]| | |]; [|done..]. intros _.
  assert (Hcond : isHex (InfoHashV1 mag) 40 = true ∨ InfoHashV1 mag = [] ∧ InfoHashV2 mag ≠ []).
  { destruct Hm as ([E|?] & _ & Hb); [right|by left]. split; [done|]. unfold BestHash in Hb. intros E2. rewrite E, E2 in Hb. by destruct Hb. }
  destruct (acquireMetadata_ok order http_get announce dial _ _ mag rand1 tb meta log Hcond Ea) as (info & Hp & Hau & _).
  destruct s as [s|]. 2:{ exfalso. unfold DownloadMVP in Ed. repeat (case_match; try done). }
  exists mag, tb, info, meta, log, v1, s. split_and!; try done. intros paths Hne Hpaths Hnd Ht Hpl Hrun.
  assert (Hi : ∃ i, parseInfoMap order i = Ok meta).
  { unfold ParseInfo in Hp. destruct (map_err TInvalid _); simpl_res; try done. destruct (of_option TDecode _) as [i| | |]; simpl_res; try done. by exists i. }
  destruct Hi as [i Hi]. destruct (download_ok order i announce run d (reopened fs1) rand2 paths log2 s Hi Hne Hpaths Hnd Ht Hpl ltac:(cbn; lia) Hrun Ed) as (R1 & R2 & R3 & _).
  done.
Qed.

(** Where [wl get] writes the torrent file: whatever the display name of the magnet link, the file is directly in the output
    directory, under a bare name (no separator, no NUL, not "." or ".."), with the metadata it acquired; until the download
    starts no other file of the directory has changed. *)
Theorem get_torrent_file `{B : Bencoder} order http_get announce dial run o rand1 rand2 opened reopened fs :
  let g := runGet order http_get announce dial run o rand1 rand2 opened reopened in
  saved g = Some fs →
  ∃ fs0 mag tb meta log name, opened = Ok fs0 ∧ ParseMagnet (magnetURI o) = Ok mag
  ∧ acquireMetadata order http_get announce dial (tracker_base o mag) (get_announce_url o mag) mag rand1 = (Ok (tb, meta), log)
  ∧ bare name ∧ (name = DisplayName mag ++ str ".torrent" ∨ name = take 16 (BestHash mag) ++ str ".torrent")
  ∧ fs_dirs fs = fs_dirs fs0 ∧ (∀ q, q ≠ name → fs_files fs !! q = fs_files fs0 !! q)
  ∧ (returned g = Ok tt → fs_files fs !! name = Some tb).
Proof.
  intros g. unfold g, runGet. pose proof (ParseMagnet_hashes (magnetURI o)) as Hm. destruct (ParseMagnet (magnetURI o)) as [mag| | |]; [|done..].
  destruct (_ <? 16)%nat; [done|]. destruct (acquireMetadata _ _ _ _ _ _ _ _) as [[[tb meta]|e| |] log] eqn:Ea; [|done..].
  destruct opened as [fs0|e| |]; [|done..]. set (fallback := take 16 (BestHash mag)). set (nm := if bool_decide (DisplayName mag = []) then fallback else DisplayName mag).
  set (name := sanitizeFilename nm fallback ++ str ".torrent").
  assert (Hb : bare name).
  { apply bare_torrent, sanitize_bare. destruct Hm as (_ & _ & [Hh|Hh]); (eapply hex_bare; [exact Hh|lia]). }
  assert (Hc : name = DisplayName mag ++ str ".torrent" ∨ name = fallback ++ str ".torrent").
  { unfold name, sanitizeFilename, nm. repeat case_match; tauto. }
  destruct (write_torrent_file name tb fs0) as [r fs1] eqn:Ew. destruct (write_torrent_file_spec _ _ _ _ _ Ew) as (W1 & W2 & W3). intros Hs.
  assert (Hfs : fs1 = fs).
  { destruct r as [[]|e| |]; [|cbn in Hs; congruence..]. destruct (hex_decode _); [|cbn in Hs; congruence]. destruct (DownloadMVP _ _ _ _ _) as [[? ?] ?]. cbn in Hs. congruence. }
  subst fs1. exists fs0, mag, tb, meta, log, name. split_and!; try done. intros Hr. apply W3. by destruct r as [[]|e| |].
Qed.

Lemma Ok_inj {E A} (a b : A) : (Ok a : result E A) = Ok b → a = b.
Proof. by intros [= ->]. Qed.

(** ** Samples *)

(** The registry of a tracker has the torrent; the first peer cannot be reached, the second serves it. *)
Module SampleGet.
Definition info : bytes := encode (BDict SampleDownloadMVP.info).
Definition torrent : bytes := encode (BDict [(str "announce", BStr (str "http://t/announce")); (str "info", BDict SampleDownloadMVP.info)]).
Definition v1 : bytes := sha1 info.
(** A display name that would leave the directory. *)
Definition options : getOpts :=
  mkGet (str "magnet:?xt=urn:btih:" ++ hex_encode v1 ++ str "&dn=..%2Fup&tr=http%3A%2F%2Ft%2Fannounce") (str "http://localhost:8080") [] [] [].
Definition registry (u : bytes) : option (Z * option bytes) :=
  if bool_decide (u = str "http://t/api/registry/torrent?info_hash=" ++ hex_encode v1) then Some (200, Some torrent) else None.
Definition tracker (url : bytes) (a : AnnounceOptions) : result cerr (list bytes) := Ok [str "10.0.0.1:1"; str "10.0.0.2:2"].
Definition peer : bytes := handshake_bytes (zeros 8) v1 (str "-XX0001-111111111111")
  ++ flat_map frame (Some (mkMsg MsgUnchoke []) :: serve 0 (str "abcd") 0 [[]] ++ serve 1 (str "efg") 0 [[]]).
Definition actions : list action :=
  [ATake 0; ACount 0; APoll; ADial 0 None; ATake 0; ACount 0; ADial 0 (Some (peer, 8, 8)%nat);
   AWork 0; ADownload 0; AAdd 0; ASend 0; ACollect; AWork 0; APoll; APoll; ADownload 0; AAdd 0; ASend 0; ACollect;
   AQuit 0; AQuit 1; AQuit 2; AQuit 3; AQuit 4; AClose; ASupervisorDone].
Definition run (s : Swarm) : Swarm :=
  default s (@run_actions ref_codec SampleDownloadMVP.meta v1 (GeneratePeerID None) actions s).
Definition got := @runGet ref_codec id registry tracker (λ _, None) run options None None (Ok SampleDownloadMVP.empty) Ok.
Lemma got_it : returned got = Ok tt.
Proof. vm_compute. reflexivity. Qed.
Definition left : Swarm := default (NewSwarm SampleDownloadMVP.meta {| root := SampleDownloadMVP.empty; files := [] |}) (swarm_left got).
Definition directory : FS := default SampleDownloadMVP.empty (saved got).
Lemma saved_it : saved got = Some directory.
Proof. vm_compute. reflexivity. Qed.
Definition file : bytes := take 16 (hex_encode v1) ++ str ".torrent".
Definition mag : Magnet := match ParseMagnet (magnetURI options) with Ok m => m | _ => mkMagnet [] [] [] [] end.
Lemma parsed_link : ParseMagnet (magnetURI options) = Ok mag.
Proof. vm_compute. reflexivity. Qed.
Lemma link_hash : hex_decode (InfoHashV1 mag) = Some v1.
Proof. vm_compute. reflexivity. Qed.
Lemma acquired : ∃ tb log, @acquireMetadata ref_codec id registry tracker (λ _, None) (tracker_base options mag) (get_announce_url options mag) mag None
  = (Ok (tb, SampleDownloadMVP.meta), log).
Proof. eexists _, _. vm_compute. reflexivity. Qed.
Lemma link_runs url : @runs_swarm ref_codec (mkDownload SampleDownloadMVP.meta v1 url 0) None run.
Proof.
  intros s. unfold run. destruct (run_actions _ _ _ _ s) as [s'|] eqn:E; [|done]. cbn [default from_option id].
  apply own_steps, (run_steps _ _ _ actions); [by repeat constructor|exact E].
Qed.
End SampleGet.

Lemma get_verified_witness :
  stream sample_paths (root (store SampleGet.left)) = str "abcdefg" ∧ holds_content SampleDownloadMVP.meta sample_paths SampleGet.left.
Proof.
  split; [vm_compute; reflexivity|].
  destruct (@get_verified ref_codec id SampleGet.registry SampleGet.tracker (λ _, None) SampleGet.run SampleGet.options None None (Ok SampleDownloadMVP.empty) Ok
    SampleGet.got_it) as (mag & tb & info & meta & log & v1 & s & Hm & Ha & _ & _ & Hv & Hs & H).
  assert (mag = SampleGet.mag) as -> by exact (Ok_inj _ _ (eq_trans (eq_sym Hm) SampleGet.parsed_link)).
  assert (Ev : v1 = SampleGet.v1) by exact (inj Some _ _ (eq_trans (eq_sym Hv) SampleGet.link_hash)).
  assert (Em : meta = SampleDownloadMVP.meta) by (destruct SampleGet.acquired as (tb' & log' & E); rewrite Ha in E; injection E as _ E _; exact E).
  assert (Es : s = SampleGet.left) by (unfold SampleGet.left, SampleGet.got; by rewrite Hs).
  subst v1 meta s. apply H; [discriminate|exact SampleDownloadMVP.resolved|exact SampleDownloadMVP.distinct|reflexivity|reflexivity|].
  exact (SampleGet.link_runs _).
Defined.

Lemma get_torrent_file_witness :
  fs_files SampleGet.directory !! SampleGet.file = Some SampleGet.torrent
  ∧ ∃ fs0 mag tb meta log name, (Ok SampleDownloadMVP.empty : result oserr FS) = Ok fs0 ∧ ParseMagnet (magnetURI SampleGet.options) = Ok mag
  ∧ @acquireMetadata ref_codec id SampleGet.registry SampleGet.tracker (λ _, None) (tracker_base SampleGet.options mag) (get_announce_url SampleGet.options mag) mag None = (Ok (tb, meta), log)
  ∧ bare name ∧ (name = DisplayName mag ++ str ".torrent" ∨ name = take 16 (BestHash mag) ++ str ".torrent")
  ∧ fs_dirs SampleGet.directory = fs_dirs fs0 ∧ (∀ q, q ≠ name → fs_files SampleGet.directory !! q = fs_files fs0 !! q)
  ∧ (returned SampleGet.got = Ok tt → fs_files SampleGet.directory !! name = Some tb).
Proof.
  split; [vm_compute; reflexivity|].
  apply (@get_torrent_file ref_codec id SampleGet.registry SampleGet.tracker (λ _, None) SampleGet.run SampleGet.options None None (Ok SampleDownloadMVP.empty) Ok).
  exact SampleGet.saved_it.
Defined.
