(* ===== verification/WlCreate.v ===== *)
(** * Command [wl create]

    Models [runCreate] of [cmd/wl/main.go] and what it calls there: the options, the torrent from a path or from a stream, the
    torrent file, and the registration with the tracker.  The environment, the file system, the HTTP origin and the tracker
    are parameters.  [encoding/json] is the field-wise correspondence of the two structs, by the names of their tags, with
    what it does to strings: bytes that are not UTF-8 become U+FFFD.

    [runCreate_stream] says what the command does with a stream; that the torrent it registers is what [wl get] gets back is the
    theorem of [Publish]. *)

From S2P Require Import Prelude Strconv Hex Sha GoStrings Utf8 NetAddr Bencode Recognize Url NetUrl Database TrackerState UsageSync Announce Codec Paths Magnet Metainfo Merkle Create TorrentFiles Registry WlUrl.
From Stdlib Require Import ZArith Lia.
Local Open Scope Z_scope.

(** ** Options *)

Record createOpts := mkCreate {
  cpath : bytes; cstream : bytes; cname : bytes; ctrackerURL : bytes; cpieceLen : Z; capiKey : bytes; cuserID : bytes; csecret : bytes;
  cprivate : bool; cdescription : bytes; cpublisher : bytes; clicense : bytes; ccategory : bytes; ctags : bytes; ccomment : bytes;
  cwebseeds : list bytes }.

(** A repeatable string flag. *)
Definition stringSlice := list bytes.
Definition String (s : stringSlice) : bytes := join (chr ",") s.
Definition Set_ (s : stringSlice) (v : bytes) : stringSlice := s ++ [v].

(** ** The registration *)

Record registryBody := mkBody {
  BInfoHash : bytes; BV1InfoHash : bytes; BName : bytes; BSize : Z; BDescription : bytes; BPublisher : bytes; BLicense : bytes;
  BCategory : bytes; BTags : bytes; BTorrentData : bytes }.

(** A string through [json.Marshal] and back. *)
Definition json_string (s : bytes) : bytes := Map Some s.

(** What the tracker's decoder reads in the marshalled body. *)
Definition posted (b : registryBody) : PostBody :=
  mkPost (json_string (BInfoHash b)) (json_string (BV1InfoHash b)) (json_string (BName b)) (json_string (BDescription b))
    (json_string (BPublisher b)) (json_string (BLicense b)) (BSize b) (json_string (BCategory b)) (json_string (BTags b)) (BTorrentData b).

(** ** The command *)

Inductive cerror := CPath | CStreamURL | CStreamName | CFetch | CStreamStatus | CNoLength | CTorrent (e : create_err) | CWriteFile.

(** What an origin replies: status, [ContentLength] and the body. *)
Record Origin := mkOrigin { StatusCode : Z; ContentLength : Z; OBody : Reader }.

(** What [os.Stat] and [filepath.Walk] find of sizes: a file's, or those of every entry that is not a directory. *)
Inductive sizes := FileSize (n : Z) | TreeSizes (l : list Z).

(** The host and the scheme of a web seed, for [validateWebSeeds]. *)
Definition seed_url (ws : bytes) : option (bytes * bytes) := u ← NetUrl.Parse ws; Some (Scheme u, Host u).

(** [path.Base] *)
Definition path_Base : bytes → bytes := Base.

Section create.
Context {B : Bencoder}.
Context (env : Environ) (getwd : option bytes) (stat : bytes → option stat_result) (measure : bytes → option sizes).
Context (http_get : bytes → option Origin).
(** [POST] of the body with the key: the status of the reply, or a failure. *)
Context (http_post : bytes → bytes → registryBody → option Z).
(** [os.WriteFile] *)
Context (write_ok : bytes → bool).

(** [filepath.Abs] *)
Definition Abs (path : bytes) : option bytes := if IsAbs path then Some (Clean path) else wd ← getwd; Some (Join [wd; path]).

Definition createFromPath (o : createOpts) (announceURL : bytes) (now : Z) : result cerror (CreateResult * Z * bytes) :=
  absPath ← of_option CPath (Abs (cpath o));
  let name := if bool_decide (cname o = []) then Base absPath else cname o in
  res ← map_err CTorrent (Create seed_url stat
    {| OPath := absPath; OName := name; OPieceLength := cpieceLen o; OAnnounceURL := announceURL; OPrivate := cprivate o; OComment := ccomment o;
       OSource := envOr env (str "WL_SOURCE") []; OCreatedBy := envOr env (str "WL_CREATED_BY") []; OWebSeeds := cwebseeds o |} now);
  let totalSize := match measure absPath with
                   | Some (TreeSizes l) => foldl (λ acc n, wrap64 (acc + n)) 0 l
                   | Some (FileSize n) => n
                   | None => 0
                   end in
  Ok (res, totalSize, name).

(** The origin is itself a web seed, before the others. *)
Definition stream_options (o : createOpts) (announceURL name : bytes) : CreateOptions :=
  {| OPath := []; OName := name; OPieceLength := cpieceLen o; OAnnounceURL := announceURL; OPrivate := cprivate o; OComment := ccomment o;
     OSource := envOr env (str "WL_SOURCE") []; OCreatedBy := envOr env (str "WL_CREATED_BY") []; OWebSeeds := cstream o :: cwebseeds o |}.

Definition createFromStream (o : createOpts) (announceURL : bytes) (now : Z) : result cerror (CreateResult * Z * bytes) :=
  let streamURL := cstream o in
  u ← of_option CStreamURL (NetUrl.Parse streamURL);
  if bool_decide (Scheme u ≠ str "http" ∧ Scheme u ≠ str "https") then Err CStreamURL else
  let name := if bool_decide (cname o = []) then path_Base (UPath u) else cname o in
  if bool_decide (name = [] ∨ name = str "." ∨ name = str "/") then Err CStreamName else
  resp ← of_option CFetch (http_get streamURL);
  if bool_decide (StatusCode resp ≠ 200) then Err CStreamStatus else
  if ContentLength resp <=? 0 then Err CNoLength else
  res ← map_err CTorrent (CreateStream seed_url (stream_options o announceURL name) (OBody resp) (ContentLength resp) name now);
  Ok (res, ContentLength resp, name).

(** [false] when the registry is offline or refuses: the command warns and goes on. *)
Definition registerHash (registryURL : bytes) (body : registryBody) (apiKey : bytes) : bool :=
  match http_post registryURL apiKey body with Some status => bool_decide (status = 201) | None => false end.

(** What the command leaves: the torrent file, whether the registry took it, the hash and the link it prints. *)
Record created := mkCreated { outFile : bytes; outBytes : bytes; registered : bool; printedHash : bytes; printedMagnet : bytes }.

Definition body_of (o : createOpts) (res : CreateResult) (totalSize : Z) (name : bytes) : registryBody :=
  mkBody (InfoHashHex res) (RInfoHashV1Hex res) name totalSize (cdescription o) (cpublisher o) (clicense o) (ccategory o) (ctags o) (TorrentBytes res).

Definition runCreate (o : createOpts) (now : Z) : result cerror created :=
  let announceURL := buildAnnounceURL (ctrackerURL o) (cuserID o) (csecret o) in
  '(res, totalSize, name) ← (if bool_decide (cstream o ≠ []) then createFromStream o announceURL now else createFromPath o announceURL now);
  let out := name ++ str ".torrent" in
  if negb (write_ok out) then Err CWriteFile else
  let ok := registerHash (registryURL (ctrackerURL o)) (body_of o res totalSize name) (capiKey o) in
  Ok (mkCreated out (TorrentBytes res) ok (InfoHashHex res) (MagnetLink res)).

End create.

(** ** Lemmas *)

Lemma json_string_ascii s : Forall (λ b, bval b < 0x80) s → json_string s = s.
Proof. intros H. apply Map_ascii; [done|]. eapply Forall_impl; [exact H|]. done. Qed.

Lemma hex_ascii l : Forall (λ b, bval b < 0x80) (hex_encode l).
Proof.
  eapply Forall_impl; [apply hex_encode_lower|]. intros b. revert b. refine (forall_byte (λ b, is_lower_hex b = true → bval b < 0x80) _).
  vm_compute. reflexivity.
Qed.

Lemma json_hex l : json_string (hex_encode l) = hex_encode l.
Proof. apply json_string_ascii, hex_ascii. Qed.

(** From a stream: what the command does, given the torrent. *)
Lemma runCreate_stream `{B : Bencoder} env getwd stat measure http_get http_post write_ok o u res size data now :
  NetUrl.Parse (cstream o) = Some u → Scheme u = str "http" ∨ Scheme u = str "https" →
  cname o ≠ [] → cname o ≠ str "." → cname o ≠ str "/" → http_get (cstream o) = Some (mkOrigin 200 size data) → 0 < size →
  write_ok (cname o ++ str ".torrent") = true →
  CreateStream seed_url (stream_options env o (buildAnnounceURL (ctrackerURL o) (cuserID o) (csecret o)) (cname o)) data size (cname o) now = Ok res →
  runCreate env getwd stat measure http_get http_post write_ok o now
  = Ok (mkCreated (cname o ++ str ".torrent") (TorrentBytes res)
      (registerHash http_post (registryURL (ctrackerURL o)) (body_of o res size (cname o)) (capiKey o)) (InfoHashHex res) (MagnetLink res)).
Proof.
  intros Hu Hs Hn Hd Hsl Hg Hz Hw Hc. unfold runCreate. assert (Hst : cstream o ≠ []).
  { intros E. rewrite E in Hu. injection Hu as <-. by destruct Hs. }
  rewrite bool_decide_true by done. unfold createFromStream. rewrite Hu. simpl_res. rewrite bool_decide_false by tauto.
  rewrite (bool_decide_false (cname o = [])) by done. rewrite bool_decide_false by tauto. rewrite Hg. simpl_res. cbn [StatusCode ContentLength OBody].
  rewrite bool_decide_false by tauto. destruct (Z.leb_spec size 0); [lia|]. rewrite Hc. cbn [map_err]. simpl_res. by rewrite Hw.
Qed.
