(* ===== verification/Register.v ===== *)
(** * The body of a registration

    [registerHash] of [cmd/wl/main.go] marshals a [registryBody]; the POST of [HandleAPI] ([registry.go]) decodes at most 100 MB into a struct of its own.
    Both sides go through [Json] and [Base64].

    The theorem: what is decoded is what was marshalled, the strings made valid UTF-8 ([WlCreate.posted]). *)

From S2P Require Import Prelude Strconv Hex GoStrings Utf8 Bencode TrackerState UsageSync Recognize Database Announce Url NetUrl Codec Paths Magnet Metainfo Merkle Create TorrentFiles Registry WlUrl WlCreate Base64 Json.
From Stdlib Require Import ZArith Lia.
Local Open Scope Z_scope.

(** ** The client *)

(** The values of the fields: a string, an [int64], a [[]byte]. *)
Inductive scalar := SString (s : bytes) | SInt (z : Z) | SData (s : bytes).

Definition scalar_text (x : scalar) : bytes :=
  match x with
  | SString s => json_quote s
  | SInt z => itoa z
  | SData s => quote_byte :: base64_encode s ++ [quote_byte]
  end.
(** The empty values, which [omitempty] leaves out. *)
Definition is_empty (x : scalar) : bool :=
  match x with SString s | SData s => bool_decide (s = []) | SInt z => z =? 0 end.

(** The fields of [registryBody] in their order, and whether they are [omitempty]. *)
Definition body_fields (b : registryBody) : list (bytes * bool * scalar) :=
  [(str "info_hash", false, SString (BInfoHash b)); (str "v1_info_hash", true, SString (BV1InfoHash b)); (str "name", false, SString (BName b));
   (str "size", true, SInt (BSize b)); (str "description", true, SString (BDescription b)); (str "publisher", true, SString (BPublisher b));
   (str "license", true, SString (BLicense b)); (str "category", true, SString (BCategory b)); (str "tags", true, SString (BTags b));
   (str "torrent_data", true, SData (BTorrentData b))].

Definition written_fields (l : list (bytes * bool * scalar)) : list (bytes * scalar) :=
  (λ f, (f.1.1, f.2)) <$> filter (λ f, f.1.2 && is_empty f.2 = false) l.
Definition member_text (m : bytes * scalar) : bytes := json_quote m.1 ++ chr ":" :: scalar_text m.2.
Definition object_text (l : list (bytes * scalar)) : bytes := chr "{" :: join (chr ",") (member_text <$> l) ++ [chr "}"].

(** [json.Marshal(body)] *)
Definition MarshalBody (b : registryBody) : bytes := object_text (written_fields (body_fields b)).

(** ** The tracker *)

Inductive field := FInfoHash | FV1InfoHash | FName | FDescription | FPublisher | FLicense | FSize | FCategory | FTags | FTorrentData.
Definition field_names : list (bytes * field) :=
  [(str "info_hash", FInfoHash); (str "v1_info_hash", FV1InfoHash); (str "name", FName); (str "description", FDescription); (str "publisher", FPublisher);
   (str "license", FLicense); (str "size", FSize); (str "category", FCategory); (str "tags", FTags); (str "torrent_data", FTorrentData)].

(** [foldName]: upper case; of the other runes only two fold to ASCII. *)
Definition fold_rune (c : Z) : Z :=
  if Utf8.between 97 122 c then c - 32 else if c =? 0x17F then 83 else if c =? 0x212A then 75 else c.
Definition fold_name (s : bytes) : bytes := flat_map (λ c, EncodeRune (fold_rune c)) (runes s).

(** The field of a key: of that name, or else of that name in any case. *)
Definition find_field (key : bytes) : option field :=
  match find (λ f, bool_decide (f.1 = key)) field_names with
  | Some f => Some f.2
  | None => snd <$> find (λ f, bool_decide (fold_name f.1 = fold_name key)) field_names
  end.

(** A value into a field with the value [old]; [None] for a value of another type. *)
Definition string_field (old : bytes) (v : json) : option bytes := match v with JStr s => Some s | JNull => Some old | _ => None end.
Definition int_field (old : Z) (v : json) : option Z := match v with JNum t => parse_int 64 t | JNull => Some old | _ => None end.
(** An array of numbers; [null] leaves the byte that was there. *)
Fixpoint byte_elements (old : bytes) (l : list json) : option bytes :=
  match l with
  | [] => Some []
  | v :: l =>
      b ← match v with
          | JNum t => n ← parse_uint 64 t; if n <? 256 then Some (zbyte n) else None
          | JNull => Some (default (zbyte 0) (head old))
          | _ => None
          end;
      r ← byte_elements (tail old) l; Some (b :: r)
  end.
Definition data_field (old : bytes) (v : json) : option bytes :=
  match v with JStr s => base64_decode s | JNull => Some [] | JArr l => byte_elements old l | _ => None end.

Definition store (b : PostBody) (kv : bytes * json) : option PostBody :=
  let '(mkPost h v1 n d p l s c t td) := b in
  match find_field kv.1 with
  | None => Some b
  | Some FInfoHash => (λ x, mkPost x v1 n d p l s c t td) <$> string_field h kv.2
  | Some FV1InfoHash => (λ x, mkPost h x n d p l s c t td) <$> string_field v1 kv.2
  | Some FName => (λ x, mkPost h v1 x d p l s c t td) <$> string_field n kv.2
  | Some FDescription => (λ x, mkPost h v1 n x p l s c t td) <$> string_field d kv.2
  | Some FPublisher => (λ x, mkPost h v1 n d x l s c t td) <$> string_field p kv.2
  | Some FLicense => (λ x, mkPost h v1 n d p x s c t td) <$> string_field l kv.2
  | Some FSize => (λ x, mkPost h v1 n d p l x c t td) <$> int_field s kv.2
  | Some FCategory => (λ x, mkPost h v1 n d p l s x t td) <$> string_field c kv.2
  | Some FTags => (λ x, mkPost h v1 n d p l s c x td) <$> string_field t kv.2
  | Some FTorrentData => (λ x, mkPost h v1 n d p l s c t x) <$> data_field td kv.2
  end.

Definition no_body : PostBody := mkPost [] [] [] [] [] [] 0 [] [] [].
Definition store_all (b : PostBody) (l : list (bytes * json)) : option PostBody := foldl (λ b kv, b ← b; store b kv) (Some b) l.

(** [http.MaxBytesReader] *)
Definition MaxBody : Z := 100 * 2 ^ 20.
Definition limited_body (s : bytes) : bytes := if zlen s <=? MaxBody then s else take (Z.to_nat MaxBody) s.

(** [json.NewDecoder(r.Body).Decode(&body)]; [None] for an error. *)
Definition DecodeBody (s : bytes) : option PostBody :=
  v ← read_value (limited_body s);
  match v with JObj l => store_all no_body l | JNull => Some no_body | _ => None end.

(** ** Samples *)

Module SampleRegister.
Definition body : registryBody := mkBody (str "ab12") [] (str "a<b" ++ quote_byte :: [zbyte 0xFF]) (-5) (str "two" ++ zbyte 10 :: str "lines") [] [] [] [] (str "Ma").
Example marshalled : MarshalBody body
  = str "{" ++ flat_map (λ b, if bool_decide (b = chr "'") then [quote_byte] else [b])
      (str "'info_hash':'ab12','name':'a\u003cb\" ++ quote_byte :: str "\ufffd','size':-5,'description':'two\nlines','torrent_data':'TWE='}").
Proof. vm_compute. reflexivity. Qed.
Example decoded : DecodeBody (MarshalBody body) = Some (posted body).
Proof. vm_compute. reflexivity. Qed.
(** Keys in any case, the last of two values, [null]; a value of the wrong type. *)
Definition quoted (s : bytes) : bytes := flat_map (λ b, if bool_decide (b = chr "'") then [quote_byte] else [b]) s.
Example other_bodies :
  DecodeBody (quoted (str "{'Name':'x', 'NAME':'y','name':null,'other':[{}],'torrent_data':[1,255]} trailing"))
    = Some (mkPost [] [] (str "y") [] [] [] 0 [] [] [zbyte 1; zbyte 255])
  ∧ DecodeBody (quoted (str "{'size':'5'}")) = None ∧ DecodeBody (quoted (str "{'size':1.5}")) = None ∧ DecodeBody (str "null") = Some no_body.
Proof. vm_compute. split_and!; reflexivity. Qed.
End SampleRegister.

(** ** Lemmas: numbers *)

(** What may follow a value in an object. *)
Definition closes (s : bytes) : Prop := match s with b :: _ => b = chr "," ∨ b = chr "}" | [] => False end.

Lemma span_digits_all ds t : Forall (λ b, is_digit b = true) ds → closes t → span_digits (ds ++ t) = (ds, t).
Proof.
  intros H Ht. induction H as [|b ds Hb _ IH]; cbn; [|by rewrite Hb, IH]. destruct t as [|b t]; [done|]. by destruct Ht as [-> | ->].
Qed.

Lemma number_itoa z t : closes t → number (itoa z ++ t) = Some (itoa z, t).
Proof.
  intros Ht. assert (Hn : ∀ n, 0 ≤ n → integer_part (dec n ++ t) = Some (dec n, t)).
  { intros n Hn. pose proof (dec_digits n Hn) as Hd. pose proof (dec_nonempty n Hn) as Hne. pose proof (dec_canonical n Hn) as Hc. destruct (dec n) as [|b ds] eqn:E; [done|].
    cbn [app integer_part]. case_bool_decide as Eb.
    - subst b. destruct (decide (n = 0)) as [->|Hz]; [vm_compute in E; by simplify_eq|]. pose proof (dec_not_zero n ltac:(lia)) as Hz'. by rewrite E in Hz'.
    - rewrite (Forall_inv Hd). change (b :: ds ++ t) with ((b :: ds) ++ t). by rewrite span_digits_all. }
  assert (Hr : fraction_part t = Some ([], t) ∧ exponent_part t = Some ([], t)) by (destruct t as [|b t]; [done|]; by destruct Ht as [-> | ->]).
  destruct Hr as [Hf He]. unfold number, itoa. destruct (Z.ltb_spec z 0) as [Hz|Hz].
  - cbn [app]. rewrite bool_decide_true, Hn by (done || lia). cbn [mbind option_bind]. rewrite Hf. cbn [mbind option_bind]. rewrite He. cbn [mbind option_bind]. by rewrite app_nil_r.
  - pose proof (dec_digits z Hz) as Hd. pose proof (dec_nonempty z Hz) as Hne. specialize (Hn z Hz). destruct (dec z) as [|b ds] eqn:E; [done|]. cbn [app] in *.
    rewrite bool_decide_false by (intros ->; by apply Forall_inv in Hd). rewrite Hn. cbn [mbind option_bind]. rewrite Hf. cbn [mbind option_bind]. rewrite He.
    cbn [mbind option_bind]. by rewrite app_nil_r.
Qed.

Lemma parse_int_itoa z : in_int64 z → parse_int 64 (itoa z) = Some z.
Proof.
  intros Hz. unfold in_int64 in Hz. destruct (Z.ltb_spec z 0) as [Hn|Hn].
  - rewrite <- (Z.opp_involutive z), itoa_neg by lia. unfold parse_int. rewrite bool_decide_false, bool_decide_true by done. cbn [orb].
    rewrite parse_uint_dec by lia. cbn [negb andb]. destruct (Z.ltb_spec (2 ^ (64 - 1)) (- z)); [lia|]. done.
  - rewrite itoa_nonneg by done. apply parse_int_dec. lia.
Qed.

(** ** Lemmas: values and objects *)

Definition json_of (x : scalar) : json :=
  match x with SString s => JStr (valid_utf8 s) | SInt z => JNum (itoa z) | SData s => JStr (base64_encode s) end.
Definition json_member (m : bytes * scalar) : bytes * json := (valid_utf8 m.1, json_of m.2).

Lemma base64_clean s : Forall (λ b, clean b = true) (base64_encode s).
Proof. apply encode_Forall; [apply _|decide_now]. Qed.

Lemma data_text s : scalar_text (SData s) = json_quote (base64_encode s).
Proof. cbn. unfold json_quote. by rewrite escaped_clean by apply base64_clean. Qed.

(** The next byte, which is no space, is looked at. *)
Ltac token b := change (skip_space (b :: ?r)) with (b :: r); cbv beta iota.

Lemma value_quoted n d s t : value (S n) d (json_quote s ++ t) = Some (JStr (valid_utf8 s), t).
Proof.
  unfold json_quote. cbn [app]. rewrite <- app_assoc. cbn [value app]. token quote_byte. rewrite bool_decide_true by done. by rewrite json_string_read.
Qed.

Lemma value_scalar n d x t : closes t → value (S n) d (scalar_text x ++ t) = Some (json_of x, t).
Proof.
  intros Ht. destruct x as [s|z|s]; [apply value_quoted| |].
  - cbn [scalar_text json_of]. pose proof (number_itoa z t Ht) as Hnum.
    assert (Hh : ∃ b r, itoa z ++ t = b :: r ∧ (b = chr "-" ∨ is_digit b = true)).
    { unfold itoa. destruct (Z.ltb_spec z 0) as [Hz|Hz]; [by eexists _, _; split; [done|left]|].
      pose proof (dec_digits z Hz) as Hd. pose proof (dec_nonempty z Hz) as Hne. destruct (dec z) as [|b ds]; [done|]. eexists _, _. split; [done|]. right. by apply Forall_inv in Hd. }
    destruct Hh as (b & r & E & Hb). rewrite E in *. cbn [value].
    assert (Hplain : is_space b = false ∧ b ≠ quote_byte ∧ b ≠ chr "{" ∧ b ≠ chr "[" ∧ bool_decide (b = chr "-") || is_digit b = true).
    { destruct Hb as [-> | Hb]; [decide_now|]. revert b Hb E Hnum. intros b Hb _ _. revert Hb. destruct b; intros Hb; first [decide_now|by vm_compute in Hb]. }
    destruct Hplain as (P1 & P2 & P3 & P4 & P5). cbn [skip_space]. rewrite P1, !bool_decide_false by done. by rewrite P5, Hnum.
  - rewrite data_text, value_quoted. cbn [json_of]. unfold valid_utf8. by rewrite valid_clean by apply base64_clean.
Qed.

Lemma members_object d l t : l ≠ [] → ∀ n, (length l < n)%nat →
  members n d (join (chr ",") (member_text <$> l) ++ chr "}" :: t) = Some (json_member <$> l, t).
Proof.
  intros Hl. induction l as [|[k x] l IH]; [done|]. intros [|[|n]] Hn; cbn [length] in Hn; [lia..|].
  assert (Hm : ∀ rest, members (S (S n)) d (member_text (k, x) ++ rest) =
    '(v, r) ← value (S n) d (scalar_text x ++ rest); match skip_space r with
      | e :: r => if bool_decide (e = chr "}") then Some ([(valid_utf8 k, v)], r)
                  else if bool_decide (e = chr ",") then '(l, r) ← members (S n) d r; Some ((valid_utf8 k, v) :: l, r) else None
      | [] => None end).
  { intros rest. unfold member_text. cbn [fst snd]. rewrite <- app_assoc. unfold json_quote. cbn [app]. rewrite <- app_assoc. remember (S n) as m. cbn [members app].
    token quote_byte. rewrite bool_decide_true, json_string_read by done. cbn [mbind option_bind].
    token (chr ":"). by rewrite bool_decide_true. }
  cbn [fmap list_fmap join]. destruct l as [|y l].
  - cbn [fmap list_fmap]. rewrite Hm, value_scalar by (by right). cbn [mbind option_bind]. token (chr "}"). by rewrite bool_decide_true.
  - cbn [fmap list_fmap]. rewrite <- app_assoc, Hm. cbn [app]. rewrite value_scalar by (by left). cbn [mbind option_bind].
    token (chr ","). rewrite bool_decide_false, bool_decide_true by done.
    specialize (IH ltac:(done) (S n) ltac:(cbn [length] in *; lia)). cbn [fmap list_fmap] in IH. rewrite IH. done.
Qed.

Lemma read_object l : l ≠ [] → read_value (object_text l) = Some (JObj (json_member <$> l)).
Proof.
  intros Hl. set (text := object_text l). assert (Hj : (length l ≤ length (join (chr ",") (member_text <$> l)))%nat).
  { clear. induction l as [|m [|m' l] IH]; [done| |]; cbn [fmap list_fmap join length] in *.
    - unfold member_text, json_quote. cbn [app length]. lia.
    - rewrite length_app. cbn [length]. lia. }
  rewrite (read_value_fuel (S (S (2 * length text + length l)))) by lia. unfold text, object_text. remember (2 * _ + _)%nat as n eqn:En.
  remember (S n) as m eqn:Em. cbn [value]. token (chr "{"). rewrite bool_decide_false, bool_decide_true by done. change (maxNestingDepth <=? 0) with false. cbv iota.
  assert (Hh : ∃ r, join (chr ",") (member_text <$> l) ++ [chr "}"] = quote_byte :: r).
  { clear -Hl. destruct l as [|x [|y l]]; [done|..]; eexists; reflexivity. }
  destruct Hh as [r Hr]. pose proof (members_object (0 + 1) l [] Hl m ltac:(lia)) as Hm. rewrite Hr in Hm |- *.
  token quote_byte. rewrite bool_decide_false by done. by rewrite Hm.
Qed.

(** ** Lemmas: the fields *)

Lemma string_through s : valid_utf8 s = json_string s.
Proof. done. Qed.

Lemma store_all_cons b b' kv l : store b kv = Some b' → store_all b (kv :: l) = store_all b' l.
Proof. intros H. unfold store_all. cbn [foldl mbind option_bind]. by rewrite H. Qed.

(** One field: it is stored, or it is left out and has its value already. *)
Lemma store_field b b' name opt x l : (opt && is_empty x = true → b' = b) → store b (json_member (name, x)) = Some b' →
  store_all b (json_member <$> written_fields ((name, opt, x) :: l)) = store_all b' (json_member <$> written_fields l).
Proof.
  intros He Hs. unfold written_fields. rewrite filter_cons. cbn [fst snd]. destruct (opt && is_empty x) eqn:E.
  - rewrite decide_False by done. by rewrite He.
  - rewrite decide_True by done. cbn [fmap list_fmap]. by apply store_all_cons.
Qed.

Lemma store_body b : in_int64 (BSize b) → store_all no_body (json_member <$> written_fields (body_fields b)) = Some (posted b).
Proof.
  intros Hz. destruct b as [h v1 n z d p l c t td]. cbn [BSize] in Hz. unfold body_fields, no_body. cbn [BInfoHash BV1InfoHash BName BSize BDescription BPublisher BLicense BCategory BTags BTorrentData].
  assert (He : ∀ opt s, opt && is_empty (SString s) = true → json_string s = [])
    by (intros opt s [_ ->%bool_decide_eq_true]%andb_prop; done).
  rewrite (store_field _ (mkPost (json_string h) [] [] [] [] [] 0 [] [] [])); [|done|done].
  rewrite (store_field _ (mkPost (json_string h) (json_string v1) [] [] [] [] 0 [] [] [])); [|by intros ->%He|done].
  rewrite (store_field _ (mkPost (json_string h) (json_string v1) (json_string n) [] [] [] 0 [] [] [])); [|done|done].
  rewrite (store_field _ (mkPost (json_string h) (json_string v1) (json_string n) [] [] [] z [] [] [])); [|by intros ->%Z.eqb_eq| ].
  2: { cbn [json_member json_of fst snd store]. change (find_field (valid_utf8 (str "size"))) with (Some FSize). cbn [int_field]. by rewrite parse_int_itoa. }
  rewrite (store_field _ (mkPost (json_string h) (json_string v1) (json_string n) (json_string d) [] [] z [] [] [])); [|by intros ->%He|done].
  rewrite (store_field _ (mkPost (json_string h) (json_string v1) (json_string n) (json_string d) (json_string p) [] z [] [] [])); [|by intros ->%He|done].
  rewrite (store_field _ (mkPost (json_string h) (json_string v1) (json_string n) (json_string d) (json_string p) (json_string l) z [] [] [])); [|by intros ->%He|done].
  rewrite (store_field _ (mkPost (json_string h) (json_string v1) (json_string n) (json_string d) (json_string p) (json_string l) z (json_string c) [] [])); [|by intros ->%He|done].
  rewrite (store_field _ (mkPost (json_string h) (json_string v1) (json_string n) (json_string d) (json_string p) (json_string l) z (json_string c) (json_string t) [])); [|by intros ->%He|done].
  rewrite (store_field _ (mkPost (json_string h) (json_string v1) (json_string n) (json_string d) (json_string p) (json_string l) z (json_string c) (json_string t) td)); [done|by intros ->%bool_decide_eq_true|].
  cbn [json_member json_of fst snd store]. change (find_field (valid_utf8 (str "torrent_data"))) with (Some FTorrentData). cbn [data_field]. by rewrite base64_decode_encode.
Qed.

(** ** Lemmas: the size of the body *)

(** The bytes of the strings of a body. *)
Definition text_size (b : registryBody) : Z :=
  zlen (BInfoHash b) + zlen (BV1InfoHash b) + zlen (BName b) + zlen (BDescription b) + zlen (BPublisher b) + zlen (BLicense b) + zlen (BCategory b) + zlen (BTags b).

Definition sizes (l : list bytes) : Z := foldr (λ s acc, zlen s + 1 + acc) 0 l.

Lemma join_size sep l : zlen (join sep l) ≤ sizes l.
Proof.
  induction l as [|s [|s' l] IH]; [done| |]; cbn [join sizes foldr] in *; [unfold zlen; lia|]. rewrite zlen_app, zlen_cons. unfold sizes in IH. cbn [foldr] in IH. lia.
Qed.

Lemma sizes_nonneg l : 0 ≤ sizes l.
Proof. induction l as [|s l IH]; cbn; [done|]. pose proof (zlen_nonneg s). unfold sizes in IH. lia. Qed.

Definition all_members (l : list (bytes * bool * scalar)) : list bytes := (λ f, member_text (f.1.1, f.2)) <$> l.

Lemma written_size l : sizes (member_text <$> written_fields l) ≤ sizes (all_members l).
Proof.
  unfold written_fields, all_members. induction l as [|[[name opt] x] l IH]; [done|]. rewrite filter_cons. cbn [fst snd]. case_decide; cbn [fmap list_fmap sizes foldr fst snd].
  - unfold sizes in IH. lia.
  - pose proof (zlen_nonneg (member_text (name, x))). unfold sizes in IH |- *. lia.
Qed.

Lemma itoa_size z : in_int64 z → zlen (itoa z) ≤ 65.
Proof.
  intros Hz. unfold in_int64 in Hz. destruct (decide (z = - 2 ^ 63)) as [->|]; [vm_compute; congruence|]. unfold itoa. destruct (Z.ltb_spec z 0).
  - rewrite zlen_cons. pose proof (length_dec (- z) ltac:(lia)). lia.
  - pose proof (length_dec z ltac:(lia)). lia.
Qed.

Definition scalar_size (x : scalar) : Z := match x with SString s => 6 * zlen s + 2 | SInt _ => 65 | SData s => 2 * zlen s + 5 end.

Lemma member_size k x : match x with SInt z => in_int64 z | _ => True end → zlen (member_text (k, x)) ≤ 6 * zlen k + 3 + scalar_size x.
Proof.
  intros Hx. unfold member_text. cbn [fst snd]. rewrite zlen_app, zlen_cons. pose proof (json_quote_bound k).
  assert (zlen (scalar_text x) ≤ scalar_size x); [|lia]. destruct x as [s|z|s]; cbn [scalar_text scalar_size]; [apply json_quote_bound|by apply itoa_size|].
  rewrite zlen_cons, zlen_app. pose proof (length_encode s). change (zlen [quote_byte]) with 1. lia.
Qed.

Lemma MarshalBody_size b : in_int64 (BSize b) → zlen (MarshalBody b) ≤ 6 * text_size b + 2 * zlen (BTorrentData b) + 1000.
Proof.
  intros Hz. unfold MarshalBody, object_text. rewrite zlen_cons, zlen_app. change (zlen [chr "}"]) with 1.
  pose proof (join_size (chr ",") (member_text <$> written_fields (body_fields b))) as H1. pose proof (written_size (body_fields b)) as H2.
  assert (H3 : sizes (all_members (body_fields b)) ≤ 6 * text_size b + 2 * zlen (BTorrentData b) + 990); [|lia].
  unfold all_members, body_fields, sizes, text_size. cbn [fmap list_fmap foldr fst snd].
  repeat match goal with |- context [zlen (member_text (?k, ?x))] =>
    let H := fresh in pose proof (member_size k x) as H; cbn [scalar_size] in H; generalize dependent (zlen (member_text (k, x))); intros end.
  repeat match goal with H : _ → _ |- _ => specialize (H ltac:(done)) end.
  repeat match goal with H : context [zlen (str ?k)] |- _ => let n := eval vm_compute in (zlen (str k)) in change (zlen (str k)) with n in H end. lia.
Qed.

Lemma decode_marshalled b : in_int64 (BSize b) → 6 * text_size b + 2 * zlen (BTorrentData b) + 1000 ≤ MaxBody → DecodeBody (MarshalBody b) = Some (posted b).
Proof.
  intros Hz Hs. pose proof (MarshalBody_size b Hz). unfold DecodeBody, limited_body. rewrite (proj2 (Z.leb_le _ _)) by lia.
  unfold MarshalBody. rewrite read_object; [|by destruct b]. cbn [mbind option_bind]. by apply store_body.
Qed.

(** ** The property *)

(** C36. A registration arrives as it was sent: the JSON that [wl create] posts, which leaves out empty fields, escapes the strings and encodes the torrent in base64,
    is read by the tracker's decoder, with its limit of 100 MB on the body, as the same fields, each byte of a string that is not UTF-8 replaced by U+FFFD. *)
Theorem registration_roundtrip b : in_int64 (BSize b) → 6 * text_size b + 2 * zlen (BTorrentData b) + 1000 ≤ MaxBody →
  DecodeBody (MarshalBody b) = Some (posted b).
Proof. apply decode_marshalled. Qed.

Lemma registration_roundtrip_witness :
  BName SampleRegister.body = str "a<b" ++ quote_byte :: [zbyte 0xFF] ∧ DecodeBody (MarshalBody SampleRegister.body) = Some (posted SampleRegister.body).
Proof. split; [reflexivity|]. apply registration_roundtrip; [vm_compute; split; congruence|vm_compute; congruence]. Defined.
