(* ===== verification/WlMain.v ===== *)
(** * The command line of [wl]

    [main] of [cmd/wl/main.go]: the subcommand, its flags with their defaults from the environment, the options it passes to [runCreate]
    or [runGet], the exit status; and what [runGet] prints about a torrent.  The flags are parsed by [Flag].

    The theorem: which command lines run which command with which options. *)

From S2P Require Import Prelude Strconv GoStrings Flag Bencode Url NetUrl Codec Paths Magnet Metainfo Merkle Create WlUrl WlGet WlCreate.
From Stdlib Require Import ZArith Lia.
Local Open Scope Z_scope.

(** ** The flags *)

(** The variables the flags of a command write. *)
Record vars := mkVars { strings : gmap bytes bytes; pieceLen : Z; private : bool; webseeds : stringSlice }.

Definition var (v : vars) (name : bytes) : bytes := default [] (strings v !! name).
Definition string_flag (name : bytes) : Flag vars :=
  mkFlag false (λ x v, Some (mkVars (<[name := x]> (strings v)) (pieceLen v) (private v) (webseeds v))).
Definition int_flag : Flag vars := mkFlag false (λ x v, n ← ParseInt0 x; Some (mkVars (strings v) n (private v) (webseeds v))).
Definition bool_flag : Flag vars := mkFlag true (λ x v, b ← ParseBool x; Some (mkVars (strings v) (pieceLen v) b (webseeds v))).
Definition webseed_flag : Flag vars := mkFlag false (λ x v, Some (mkVars (strings v) (pieceLen v) (private v) (Set_ (webseeds v) x))).

Definition create_strings : list bytes :=
  [str "name"; str "tracker"; str "api-key"; str "user-id"; str "secret"; str "description"; str "publisher"; str "license"; str "category"; str "tags";
   str "comment"; str "stream"].
Definition create_flags (name : bytes) : option (Flag vars) :=
  if bool_decide (name ∈ create_strings) then Some (string_flag name)
  else if bool_decide (name = str "piece-length") then Some int_flag
  else if bool_decide (name = str "private") then Some bool_flag
  else if bool_decide (name = str "webseed") then Some webseed_flag else None.

Definition get_strings : list bytes := [str "tracker"; str "output"; str "user-id"; str "secret"].
Definition get_flags (name : bytes) : option (Flag vars) := if bool_decide (name ∈ get_strings) then Some (string_flag name) else None.

(** The defaults that are not empty. *)
Definition defaults (env : Environ) : vars :=
  mkVars (<[str "tracker" := envOr env (str "WL_TRACKER") (str "http://localhost:8080")]>
          (<[str "user-id" := envOr env (str "WL_USER_ID") []]> {[str "secret" := envOr env (str "TRACKER_SECRET") []]}))
         DefaultPieceLength false [].

(** [FlagSet.Arg(0)] *)
Definition arg0 (args : list bytes) : bytes := default [] (head args).

Definition create_options (v : vars) (srcPath : bytes) : createOpts :=
  mkCreate srcPath (var v (str "stream")) (var v (str "name")) (var v (str "tracker")) (pieceLen v) (var v (str "api-key")) (var v (str "user-id"))
    (var v (str "secret")) (private v) (var v (str "description")) (var v (str "publisher")) (var v (str "license")) (var v (str "category"))
    (var v (str "tags")) (var v (str "comment")) (webseeds v).
Definition get_options (v : vars) (magnetURI : bytes) : getOpts :=
  mkGet magnetURI (var v (str "tracker")) (var v (str "output")) (var v (str "user-id")) (var v (str "secret")).

(** ** [main] *)

Inductive invocation :=
| Usage                       (* no command: the usage, and exit status 1 *)
| Version                     (* the version is printed *)
| RunCreate (o : createOpts)
| RunGet (o : getOpts)
| Fatal                       (* log.Fatal: exit status 1 *)
| Unknown                     (* an unknown command: exit status 1 *)
| FlagHelp                    (* flag: exit status 0 *)
| FlagError.                  (* flag: exit status 2 *)

(** [args] is [os.Args]. *)
Definition invoke (env : Environ) (args : list bytes) : invocation :=
  match args with
  | _ :: cmd :: rest =>
      if bool_decide (cmd = str "version") then Version else
      if bool_decide (cmd = str "create") then
        match Flag.Parse create_flags (defaults env) rest with
        | ParsedHelp => FlagHelp
        | ParseFailed => FlagError
        | Parsed v args =>
            let srcPath := arg0 args in
            if bool_decide (srcPath = [] ∧ var v (str "stream") = []) then Fatal else
            if bool_decide (srcPath ≠ [] ∧ var v (str "stream") ≠ []) then Fatal else RunCreate (create_options v srcPath)
        end
      else if bool_decide (cmd = str "get") then
        match Flag.Parse get_flags (defaults env) rest with
        | ParsedHelp => FlagHelp
        | ParseFailed => FlagError
        | Parsed v args => if bool_decide (arg0 args = []) then Fatal else RunGet (get_options v (arg0 args))
        end
      else Unknown
  | _ => Usage
  end.

(** The exit status; [created], [got]: whether the command returned nil. *)
Definition main (env : Environ) (args : list bytes) (created : createOpts → bool) (got : getOpts → bool) : Z :=
  match invoke env args with
  | Version | FlagHelp => 0
  | RunCreate o => if created o then 0 else 1
  | RunGet o => if got o then 0 else 1
  | Usage | Fatal | Unknown => 1
  | FlagError => 2
  end.

(** ** What [wl get] prints about a torrent *)

(** [n / d] to the nearest integer, to the even one of two. *)
Definition half_even (n d : Z) : Z :=
  let q := n / d in let r := n mod d in
  if 2 * r <? d then q else if d <? 2 * r then q + 1 else if Z.even q then q else q + 1.
(** [float64(b)] of a positive [int64]: 53 significant bits. *)
Definition float64_of (b : Z) : Z :=
  let e := Z.log2 b - 52 in if e <=? 0 then b else half_even b (2 ^ e) * 2 ^ e.
(** ["%.1f"] of [x / 2^k]. *)
Definition one_decimal (x k : Z) : bytes := let t := half_even (10 * x) (2 ^ k) in itoa (t / 10) ++ chr "." :: itoa (t mod 10).

Definition formatBytes (b : Z) : bytes :=
  if 2 ^ 30 <=? b then one_decimal (float64_of b) 30 ++ str " GB"
  else if 2 ^ 20 <=? b then one_decimal (float64_of b) 20 ++ str " MB"
  else if 2 ^ 10 <=? b then one_decimal (float64_of b) 10 ++ str " KB"
  else itoa b ++ str " B".

(** The lines of the file listing. *)
Definition get_listing (torrentFile : bytes) (meta : TorrentMeta) : list bytes :=
  [[]; str "Torrent: " ++ torrentFile; str "Pieces:  " ++ itoa (PieceCount meta) ++ str " x " ++ formatBytes (PieceLength meta);
   str "Total:   " ++ formatBytes (TotalSize meta)]
  ++ match Files meta with
     | [f] => [str "File:    " ++ Path f]
     | fs => (str "Files:   " ++ itoa (zlen fs)) :: map (λ f, str "  " ++ formatBytes (Length f) ++ str "  " ++ Path f) fs
     end.

(** ** Samples *)

Example create_sample :
  invoke ∅ [str "wl"; str "create"; str "-name"; str "a"; str "--private"; str "-webseed=u"; str "-piece-length"; str "0x8000"; str "--webseed"; str "w"; str "-name=b"; str "dir"]
  = RunCreate (mkCreate (str "dir") [] (str "b") (str "http://localhost:8080") 32768 [] [] [] true [] [] [] [] [] [] [str "u"; str "w"]).
Proof. vm_compute. reflexivity. Qed.

(** A path and a stream are refused; so is an unknown flag. *)
Example refused_samples :
  (λ args, main ∅ (str "wl" :: args) (λ _, true) (λ _, true)) <$>
    [[str "create"; str "-stream=u"; str "dir"]; [str "get"]; [str "create"; str "-x"]; [str "get"; str "-h"]; [str "help"]; [str "version"]]
  = [1; 1; 2; 0; 1; 0].
Proof. vm_compute. reflexivity. Qed.

Example formatBytes_samples :
  map formatBytes [0; 1023; 1024; 1536; 1048575; 2621440; 2 ^ 63 - 1] = [str "0 B"; str "1023 B"; str "1.0 KB"; str "1.5 KB"; str "1024.0 KB"; str "2.5 MB"; str "8589934592.0 GB"].
Proof. vm_compute. reflexivity. Qed.

(** ** Lemmas: what the assignments leave *)

Definition assigned_name (x : spelling) : bytes := match x with Joined _ n _ | Flag.Apart _ n _ | Bare _ n => n end.
Definition assigned_value (x : spelling) : bytes := match x with Joined _ _ v | Flag.Apart _ _ v => v | Bare _ _ => str "true" end.

(** The values a flag is given, in order. *)
Definition values_of (name : bytes) (xs : list spelling) : list bytes := assigned_value <$> filter (λ x, assigned_name x = name) xs.

Lemma values_cons name x xs :
  values_of name (x :: xs) = if bool_decide (assigned_name x = name) then assigned_value x :: values_of name xs else values_of name xs.
Proof. unfold values_of. rewrite filter_cons. case_decide; [by rewrite bool_decide_true|by rewrite bool_decide_false]. Qed.

(** The value of [f] after assignments that each set it to [g] of the text, or leave it. *)
Lemma assigns_last {S A} (formal : bytes → option (Flag S)) (name : bytes) (f : S → A) (g : bytes → A) :
  (∀ x s s', assigns formal x s s' → f s' = if bool_decide (assigned_name x = name) then g (assigned_value x) else f s) →
  ∀ xs s s', assigns_all formal xs s s' → f s' = default (f s) (g <$> last (values_of name xs)).
Proof.
  intros H xs s s'. induction 1 as [s|x xs s s' s'' Hx Hxs IH]; [done|]. rewrite IH, values_cons, (H _ _ _ Hx).
  case_bool_decide; [|done]. rewrite last_cons. by destruct (last (values_of name xs)).
Qed.

Lemma assigns_set {S} (formal : bytes → option (Flag S)) x s s' : assigns formal x s s' →
  ∃ f, formal (assigned_name x) = Some f ∧ SetValue f (assigned_value x) s = Some s'.
Proof. destruct 1; eauto. Qed.

Lemma name_in_strings n : n ∈ create_strings → n ≠ str "piece-length" ∧ n ≠ str "private" ∧ n ≠ str "webseed".
Proof. intros H. split_and!; intros ->; revert H; decide_now. Qed.

Lemma string_set n v v' n' x : SetValue (string_flag n) x v = Some v' → var v' n' = if bool_decide (n = n') then x else var v n'.
Proof.
  intros [= <-]. unfold var. cbn. case_bool_decide as E; [subst; by rewrite lookup_insert_eq|by rewrite lookup_insert_ne].
Qed.

(** What each flag of [create] is set to. *)
Lemma create_flag_set x v v' : assigns create_flags x v v' →
  (∀ n, n ∈ create_strings → var v' n = if bool_decide (assigned_name x = n) then assigned_value x else var v n)
  ∧ pieceLen v' = (if bool_decide (assigned_name x = str "piece-length") then default 0 (ParseInt0 (assigned_value x)) else pieceLen v)
  ∧ private v' = (if bool_decide (assigned_name x = str "private") then default false (ParseBool (assigned_value x)) else private v)
  ∧ webseeds v' = webseeds v ++ (if bool_decide (assigned_name x = str "webseed") then [assigned_value x] else []).
Proof.
  intros (f & Hf & Hs)%assigns_set. unfold create_flags in Hf. case_bool_decide as H1.
  { injection Hf as <-. destruct (name_in_strings _ H1) as (N1 & N2 & N3). rewrite !(bool_decide_false (assigned_name x = str _)) by done.
    split; [intros n _; by apply string_set|]. injection Hs as <-. cbn. by rewrite app_nil_r. }
  assert (Hn : ∀ n, n ∈ create_strings → assigned_name x ≠ n) by (intros n Hn E; by rewrite <- E in Hn).
  case_bool_decide as H2; [|case_bool_decide as H3; [|case_bool_decide as H4; [|done]]]; injection Hf as <-; unfold int_flag, bool_flag, webseed_flag in Hs; cbn [SetValue] in Hs.
  - destruct (ParseInt0 _) as [z|] eqn:E; [|done]. injection Hs as <-. cbn [pieceLen private webseeds]. rewrite H2.
    split_and!; [intros n ?; rewrite bool_decide_false by (rewrite <- H2; auto); done|done..|by rewrite app_nil_r].
  - destruct (ParseBool _) as [z|] eqn:E; [|done]. injection Hs as <-. cbn [pieceLen private webseeds]. rewrite H3.
    split_and!; [intros n ?; rewrite bool_decide_false by (rewrite <- H3; auto); done|done..|by rewrite app_nil_r].
  - injection Hs as <-. rewrite H4. split_and!; [intros n ?; rewrite bool_decide_false by (rewrite <- H4; auto); done|done..].
Qed.

Lemma get_flag_set x v v' : assigns get_flags x v v' →
  ∀ n, var v' n = if bool_decide (assigned_name x = n) then assigned_value x else var v n.
Proof.
  intros (f & Hf & Hs)%assigns_set n. unfold get_flags in Hf. case_bool_decide; [|done]. injection Hf as <-. by apply string_set.
Qed.

(** ** The property *)

(** The value of a string flag: the last one it is given, or its default. *)
Definition setting (env : Environ) (xs : list spelling) (name : bytes) : bytes := default (var (defaults env) name) (last (values_of name xs)).

Definition create_settings (env : Environ) (xs : list spelling) (srcPath : bytes) : createOpts :=
  let s := setting env xs in
  mkCreate srcPath (s (str "stream")) (s (str "name")) (s (str "tracker"))
    (default DefaultPieceLength ((λ t, default 0 (ParseInt0 t)) <$> last (values_of (str "piece-length") xs)))
    (s (str "api-key")) (s (str "user-id")) (s (str "secret"))
    (default false ((λ t, default false (ParseBool t)) <$> last (values_of (str "private") xs)))
    (s (str "description")) (s (str "publisher")) (s (str "license")) (s (str "category")) (s (str "tags")) (s (str "comment"))
    (values_of (str "webseed") xs).
Definition get_settings (env : Environ) (xs : list spelling) (magnetURI : bytes) : getOpts :=
  let s := setting env xs in mkGet magnetURI (s (str "tracker")) (s (str "output")) (s (str "user-id")) (s (str "secret")).

Lemma create_all env xs v : assigns_all create_flags xs (defaults env) v → ∀ p, create_options v p = create_settings env xs p.
Proof.
  intros H p. assert (Hs : ∀ n, n ∈ create_strings → var v n = setting env xs n).
  { intros n Hn. rewrite (assigns_last create_flags n (λ v, var v n) id) with (xs := xs) (s := defaults env); [by rewrite option_fmap_id| |done].
    intros x s s' Hx. by apply create_flag_set. }
  assert (Hp : pieceLen v = default DefaultPieceLength ((λ t, default 0 (ParseInt0 t)) <$> last (values_of (str "piece-length") xs))).
  { apply (assigns_last create_flags (str "piece-length") pieceLen (λ t, default 0 (ParseInt0 t))) with (s := defaults env); [|done]. intros x s s' Hx. by apply create_flag_set. }
  assert (Hb : private v = default false ((λ t, default false (ParseBool t)) <$> last (values_of (str "private") xs))).
  { apply (assigns_last create_flags (str "private") private (λ t, default false (ParseBool t))) with (s := defaults env); [|done]. intros x s s' Hx. by apply create_flag_set. }
  assert (Hw : ∀ s, assigns_all create_flags xs s v → webseeds v = webseeds s ++ values_of (str "webseed") xs).
  { clear. intros s. induction 1 as [s|x xs s s' s'' Hx _ IH]; [by rewrite app_nil_r|]. rewrite IH, values_cons.
    destruct (create_flag_set _ _ _ Hx) as (_ & _ & _ & ->). rewrite <- app_assoc. by case_bool_decide. }
  unfold create_options, create_settings. rewrite Hp, Hb, (Hw _ H), !Hs by decide_now. done.
Qed.

Lemma get_all env xs v : assigns_all get_flags xs (defaults env) v → ∀ m, get_options v m = get_settings env xs m.
Proof.
  intros H m. assert (Hs : ∀ n, var v n = setting env xs n).
  { intros n. rewrite (assigns_last get_flags n (λ v, var v n) id) with (xs := xs) (s := defaults env); [by rewrite option_fmap_id| |done].
    intros x s s' Hx. by apply get_flag_set. }
  unfold get_options, get_settings. by rewrite !Hs.
Qed.

Lemma invoke_create env prog rest o : invoke env (prog :: str "create" :: rest) = RunCreate o ↔
  ∃ v args, Flag.Parse create_flags (defaults env) rest = Parsed v args ∧ o = create_options v (arg0 args) ∧ (cpath o = [] ↔ cstream o ≠ []).
Proof.
  cbn [invoke]. rewrite (bool_decide_false (str "create" = str "version")), (bool_decide_true (str "create" = str "create")) by decide_now.
  split.
  - intros H. destruct (Flag.Parse _ _ rest) as [v args| |] eqn:E; [|done..]. case_bool_decide as H1; [done|]. case_bool_decide as H2; [done|]. injection H as <-.
    do 2 eexists. split; [done|]. split; [done|]. unfold create_options. cbn [cpath cstream]. destruct (arg0 _), (var _ _); naive_solver.
  - intros (v & args & -> & -> & Ho). unfold create_options in Ho. cbn [cpath cstream] in Ho.
    rewrite bool_decide_false by tauto. rewrite bool_decide_false by tauto. done.
Qed.

Lemma invoke_get env prog rest o : invoke env (prog :: str "get" :: rest) = RunGet o ↔
  ∃ v args, Flag.Parse get_flags (defaults env) rest = Parsed v args ∧ o = get_options v (arg0 args) ∧ magnetURI o ≠ [].
Proof.
  cbn [invoke]. rewrite (bool_decide_false (str "get" = str "version")), (bool_decide_false (str "get" = str "create")), (bool_decide_true (str "get" = str "get")) by decide_now.
  split.
  - intros H. destruct (Flag.Parse _ _ rest) as [v args| |] eqn:E; [|done..]. case_bool_decide as H1; [done|]. injection H as <-. do 2 eexists. by split_and!.
  - intros (v & args & -> & -> & Ho). unfold get_options in Ho. cbn [magnetURI] in Ho. by rewrite bool_decide_false.
Qed.

(** Which command a command line can run. *)
Lemma invoke_command env args : match invoke env args with
  | RunCreate _ => ∃ prog rest, args = prog :: str "create" :: rest
  | RunGet _ => ∃ prog rest, args = prog :: str "get" :: rest
  | _ => True
  end.
Proof.
  destruct args as [|prog [|cmd rest]]; [done..|]. cbn [invoke]. case_bool_decide; [done|]. case_bool_decide as Ec; [subst; repeat case_match; naive_solver|].
  case_bool_decide as Eg; [subst; repeat case_match; naive_solver|done].
Qed.

(** C39. The command line.  [wl] runs [create] with the options [o] exactly when its arguments after [create] are assignments to the flags of that command,
    each in one of the spellings of package flag, followed by the operands, and [o] has for each flag the last value given to it, or its default (which for the
    tracker, the user id and the secret comes from the environment), all the web seeds in order, and the first operand as its path; and exactly one of a path and a
    stream is given.  Likewise for [get], which needs a magnet link. *)
Theorem command_line env args :
  (∀ o, invoke env args = RunCreate o ↔
     ∃ prog xs rest operands v, args = prog :: str "create" :: (xs ≫= spell) ++ rest ∧ tail_of operands rest ∧ assigns_all create_flags xs (defaults env) v
     ∧ o = create_settings env xs (arg0 operands) ∧ (cpath o = [] ↔ cstream o ≠ []))
  ∧ (∀ o, invoke env args = RunGet o ↔
     ∃ prog xs rest operands v, args = prog :: str "get" :: (xs ≫= spell) ++ rest ∧ tail_of operands rest ∧ assigns_all get_flags xs (defaults env) v
     ∧ o = get_settings env xs (arg0 operands) ∧ magnetURI o ≠ []).
Proof.
  split; intros o; (split; [intros H; pose proof (invoke_command env args) as Hc; rewrite H in Hc; destruct Hc as (prog & rest & ->)|]).
  - apply invoke_create in H as (v & ops & (xs & r & -> & Hx & Ht)%Parse_spelled & -> & Ho). rewrite (create_all env xs v Hx) in Ho |- *.
    by exists prog, xs, r, ops, v.
  - intros (prog & xs & r & ops & v & -> & Ht & Hx & -> & Ho). apply invoke_create. exists v, ops. rewrite (create_all env xs v Hx).
    split_and!; [|done..]. apply Parse_spelled. by exists xs, r.
  - apply invoke_get in H as (v & ops & (xs & r & -> & Hx & Ht)%Parse_spelled & -> & Ho). rewrite (get_all env xs v Hx) in Ho |- *.
    by exists prog, xs, r, ops, v.
  - intros (prog & xs & r & ops & v & -> & Ht & Hx & -> & Ho). apply invoke_get. exists v, ops. rewrite (get_all env xs v Hx).
    split_and!; [|done..]. apply Parse_spelled. by exists xs, r.
Qed.
