(* ===== verification/Server.v ===== *)
(** * The tracker's HTTP server

    Models the routes of [cmd/tracker/main.go] and the two small handlers of [internal/tracker/tracker.go]: a request goes through
    [http.ServeMux], the rate limiter and its handler.  The metrics page is a constant.  What runs between requests, and requests that
    run at the same time, are in [Concurrent], [Takedown] and [Process].

    The theorem: what a request must have passed before it can change anything. *)

From S2P Require Import Prelude Strconv Hex GoStrings NetAddr Bencode TrackerState UsageSync Recognize Database Announce Url NetUrl Codec Paths Metainfo Registry Scrape RateLimit.
From Stdlib Require Import ZArith Lia.
Local Open Scope Z_scope.

(** ** Requests and replies *)

Record HttpRequest := mkHttp { HMethod : bytes; HURL : URL; HRemoteAddr : bytes; HKey : bytes; HBody : option PostBody }.

(** What one request meets: the runs of the handlers, the two readings of the clock in the limiter, the database's ping. *)
Record Env := mkEnv { announce_run : Run; api_run : ApiRun; scrape_run : ScrapeRun; created_at : Z; allowed_at : Z; ping_ok : bool }.

Record ServerConfig := mkServer { tracker_config : Config; registry_config : RegistryConfig; Version : bytes }.

Inductive Reply :=
| Refused (r : refusal)
| Bencode (r : reply)
| Scraped (files : gmap bytes ScrapeStats)
| Api (r : response)
| Text (body : bytes) (code : Z)
| Moved (path query : bytes)
| Metrics.

(** ** Routes *)

Inductive pattern := PAnnounce | PScrape | PRegistry | PSearch | PMeta | PTorrent | PHealth | PMetrics | PIndex.

(** The literal segments of a registered pattern, and whether it ends in a slash. *)
Definition routes : list (list bytes * bool * pattern) :=
  [ ([str "announce"], false, PAnnounce); ([str "scrape"], false, PScrape); ([str "api"; str "registry"], false, PRegistry);
    ([str "api"; str "registry"; str "search"], false, PSearch); ([str "api"; str "registry"; str "meta"], false, PMeta);
    ([str "api"; str "registry"; str "torrent"], false, PTorrent); ([str "health"], false, PHealth); ([str "metrics"], false, PMetrics);
    ([str "announce"], true, PAnnounce); ([], true, PIndex) ].

Fixpoint strip_prefix (l segs : list bytes) : option (list bytes) :=
  match l, segs with
  | [], _ => Some segs
  | a :: l, s :: segs => if bool_decide (a = s) then strip_prefix l segs else None
  | _ :: _, [] => None
  end.

(** A pattern that ends in a slash has the paths below it, the others their own path. *)
Definition route_matches (segs : list bytes) (r : list bytes * bool * pattern) : bool :=
  let '(lits, multi, _) := r in
  match strip_prefix lits segs with Some rest => if multi then bool_decide (rest ≠ []) else bool_decide (rest = []) | None => false end.

(** The first in order of precedence: the literal patterns, then the longest subtree. *)
Definition find_route (segs : list bytes) : option pattern := snd <$> find (route_matches segs) routes.

(** [cleanPath] *)
Definition cleanPath (p : bytes) : bytes :=
  let p := match p with [] => str "/" | c :: _ => if bool_decide (c = chr "/") then p else chr "/" :: p end in
  let np := Clean p in
  if has_suffix p (str "/") && bool_decide (np ≠ str "/") then np ++ str "/" else np.

(** A segment, unescaped where it can be; that of a final slash is ["/"]. *)
Definition pathUnescape (s : bytes) : bytes := default s (unescape encodePath s).
Fixpoint final_slash (segs : list bytes) : list bytes :=
  match segs with
  | [] => []
  | [s] => [if bool_decide (s = []) then str "/" else pathUnescape s]
  | s :: segs => pathUnescape s :: final_slash segs
  end.
Definition path_segments (escaped : bytes) : list bytes := match escaped with [] => [] | _ :: rest => final_slash (split (chr "/") rest) end.

Inductive dispatch := Found (p : pattern) | ToClean (path : bytes) | Unmatched.

(** [ServeMux.findHandler]: the path is cleaned by a redirect, but for CONNECT. *)
Definition findHandler (method : bytes) (u : URL) : dispatch :=
  let escapedPath := EscapedPath u in
  if bool_decide (method = str "CONNECT") then
    if bool_decide (escapedPath = []) then ToClean (str "//") else
    match find_route (path_segments escapedPath) with Some p => Found p | None => Unmatched end
  else
    let path := cleanPath escapedPath in
    if bool_decide (path ≠ escapedPath) then ToClean path else
    match find_route (path_segments path) with Some p => Found p | None => Unmatched end.

Example routes_ex :
  findHandler (str "GET") (NetUrl.plain (str "http") (str "h") (str "/announce/al.ff")) = Found PAnnounce
  ∧ findHandler (str "GET") (NetUrl.plain (str "http") (str "h") (str "/announce")) = Found PAnnounce
  ∧ findHandler (str "GET") (NetUrl.plain (str "http") (str "h") (str "/announcex")) = Found PIndex
  ∧ findHandler (str "GET") (NetUrl.plain (str "http") (str "h") (str "/api//registry")) = ToClean (str "/api/registry")
  ∧ findHandler (str "GET") (NetUrl.plain (str "http") (str "h") (str "/api/registry/torrent")) = Found PTorrent
  ∧ findHandler (str "GET") (NetUrl.plain (str "http") (str "h") (str "/api/registry/")) = Found PIndex
  ∧ findHandler (str "GET") (NetUrl.plain (str "http") (str "h") []) = ToClean (str "/")
  ∧ findHandler (str "GET") (NetUrl.plain (str "http") (str "h") (str "/")) = Found PIndex.
Proof. vm_compute. done. Qed.

(** ** Handlers *)

Definition IndexHandler (version : bytes) (u : URL) : Reply :=
  if bool_decide (UPath u ≠ str "/") then Text (str "404 page not found") 404 else Text (str "Weightless Tracker " ++ version) 200.

Definition HealthHandler (ok : bool) : Reply := if ok then Text (str "OK") 200 else Text (str "Database unreachable") 503.

Definition request_of (h : HttpRequest) : Request := mkRequest (UPath (HURL h)) (Query (RawQuery (HURL h))) (HRemoteAddr h).
Definition api_request (h : HttpRequest) : ApiRequest := mkApi (HMethod h) (Query (RawQuery (HURL h))) (HKey h) (HBody h).

Section server.
Context {B : Bencoder} (order : list (bytes * tree) → list (bytes * tree)) (like : bytes → bytes → bool) (msg : aerr → bytes).
Context (c : ServerConfig).

(** The handler of a route behind the limiter; [None] for those that are not. *)
Definition limited (p : pattern) (e : Env) (h : HttpRequest) : option (Request → World → Reply * World) :=
  match p with
  | PAnnounce => Some (λ r w, let '(a, w) := HandleAnnounce msg (tracker_config c) (announce_run e) r w in (Bencode a, w))
  | PScrape => Some (λ r w, (Scraped (HandleScrape (tracker_config c) (scrape_run e) (query r) w), w))
  | PRegistry => Some (λ _ w, let '(a, w) := HandleAPI (registry_config c) (api_run e) (api_request h) w in (Api a, w))
  | PSearch => Some (λ _ w, (Api (HandleSearch like (api_run e) (api_request h) w), w))
  | PMeta => Some (λ _ w, (Api (HandleMetadata order (api_run e) (api_request h) w), w))
  | PTorrent => Some (λ _ w, (Api (HandleTorrentDownload (api_run e) (api_request h) w), w))
  | PHealth | PMetrics | PIndex => None
  end.

Definition ServeHTTP (e : Env) (h : HttpRequest) (rl : RateLimiter) (w : World) : Reply * RateLimiter * World :=
  if bool_decide (UPath (HURL h) = str "*") then (Text [] (if bool_decide (HMethod h = str "OPTIONS") then 200 else 400), rl, w) else
  match findHandler (HMethod h) (HURL h) with
  | ToClean path => (Moved path (RawQuery (HURL h)), rl, w)
  | Unmatched => (Text (str "404 page not found") 404, rl, w)
  | Found p =>
      match limited p e h with
      | Some next =>
          let '(a, rl, w) := LimitMiddleware next (created_at e) (allowed_at e) (request_of h) rl w in
          (match a with inl refused => Refused refused | inr a => a end, rl, w)
      | None => (match p with PHealth => HealthHandler (ping_ok e) | PMetrics => Metrics | _ => IndexHandler (Version c) (HURL h) end, rl, w)
      end
  end.

(** ** The tracker *)

Record Tracker := mkTracker { limiter : RateLimiter; world : World }.

End server.

(** A tracker that has just been installed. *)
Definition new_tracker : Tracker := mkTracker GlobalRateLimiter (mkWorld emptyState (mkDB ∅ ∅ ∅)).

(** ** Lemmas: the server *)

Section lemmas.
Context {B : Bencoder} (order : list (bytes * tree) → list (bytes * tree)) (like : bytes → bytes → bool) (msg : aerr → bytes).
Context (c : ServerConfig).

(** Only two routes reach the world, behind the limiter. *)
Lemma ServeHTTP_world e h rl w a rl' w' : ServeHTTP order like msg c e h rl w = (a, rl', w') →
  w' = w
  ∨ fst (Allow (client_ip (HRemoteAddr h)) (created_at e) (allowed_at e) rl) = true
    ∧ (findHandler (HMethod h) (HURL h) = Found PAnnounce ∧ w' = snd (HandleAnnounce msg (tracker_config c) (announce_run e) (request_of h) w)
       ∨ findHandler (HMethod h) (HURL h) = Found PRegistry ∧ w' = snd (HandleAPI (registry_config c) (api_run e) (api_request h) w)).
Proof.
  unfold ServeHTTP. case_bool_decide; [intros [= _ _ <-]; by left|]. destruct (findHandler _ _) as [p| |]; try (intros [= _ _ <-]; by left).
  destruct p; cbn [limited]; try (intros [= _ _ <-]; by left); unfold LimitMiddleware; change (RemoteAddr (request_of h)) with (HRemoteAddr h);
    destruct (Allow _ _ _ rl) as [[] rl0]; cbn [negb fst]; try (intros [= _ _ <-]; by left).
  - destruct (HandleAnnounce _ _ _ _ _) as [a0 w0]. intros [= _ _ <-]. right. auto.
  - destruct (HandleAPI _ _ _ _) as [a0 w0]. intros [= _ _ <-]. right. auto.
Qed.

Lemma HandleAnnounce_world run r w : 
  snd (HandleAnnounce msg (tracker_config c) run r w) = w
  ∨ ∃ userID p, authenticatePasskey (tracker_config c) r = inl userID ∧ RecognizeAnnounce (query r) = Ok p
    ∧ snd (HandleAnnounce msg (tracker_config c) run r w) = snd (executeAnnounce (tracker_config c) run r userID p w).
Proof.
  unfold HandleAnnounce. destruct (authenticatePasskey _ _) as [u|]; [|by left]. destruct (RecognizeAnnounce _) as [p| | |]; try by left.
  right. by exists u, p.
Qed.

End lemmas.

(** ** Properties *)

(** An announce that was accepted: its passkey, its parameters, its torrent, and its effect. *)
Definition announce_passed (c : ServerConfig) (e : Env) (h : HttpRequest) (w w' : World) : Prop :=
  findHandler (HMethod h) (HURL h) = Found PAnnounce
  ∧ ∃ userID p ip pt, authenticatePasskey (tracker_config c) (request_of h) = inl userID ∧ RecognizeAnnounce (query (request_of h)) = Ok p
    ∧ admitted (tracker_config c) (announce_run e) (request_of h) p w ∧ SplitHostPort (HRemoteAddr h) = Some (ip, pt)
    ∧ w' = apply_announce (announce_run e) userID (InfoHashHex p) (PeerIDString p) (JoinHostPort ip (itoa (Port p))) p w.

(** A write to the registry that was authorized. *)
Definition write_passed (c : ServerConfig) (h : HttpRequest) : Prop :=
  findHandler (HMethod h) (HURL h) = Found PRegistry ∧ (HMethod h = str "POST" ∨ HMethod h = str "DELETE")
  ∧ (registryKey (registry_config c) = [] ∨ HKey h = registryKey (registry_config c)).

(** C13. What a request must have passed to change anything: the rate limiter let its address through, and it is either an announce whose
    passkey was accepted, whose parameters were recognized and whose torrent is neither blocked nor (on a registry-only
    tracker) unknown, and then the change is that of the announce; or a POST or DELETE on [/api/registry] with the registry key.
    Every other request leaves the tracker as it was. *)
Theorem server_guarded `{B : Bencoder} order like msg c e h rl w :
  let w' := snd (ServeHTTP order like msg c e h rl w) in
  w' ≠ w →
  fst (Allow (client_ip (HRemoteAddr h)) (created_at e) (allowed_at e) rl) = true ∧ (announce_passed c e h w w' ∨ write_passed c h).
Proof.
  destruct (ServeHTTP _ _ _ _ _ _ _ _) as [[a rl'] w'] eqn:E. cbn [snd]. intros Hne. apply ServeHTTP_world in E as [->|[Ha H]]; [done|]. split; [done|].
  destruct H as [[Hf ->]|[Hf ->]]; [left|right]; (split; [done|]).
  - destruct (HandleAnnounce_world msg c (announce_run e) (request_of h) w) as [E|(u & p & Hu & Hp & E)]; [congruence|].
    destruct (executeAnnounce_cases (tracker_config c) (announce_run e) (request_of h) u p w) as [(_ & why & E2)|(ip & pt & Had & Hip & E2)].
    { rewrite E, E2 in Hne. done. }
    exists u, p, ip, pt. split_and!; try done. by rewrite E, E2.
  - by apply HandleAPI_authorized in Hne.
Qed.

(** ** Samples *)

(** A torrent is registered, a peer joins, it is taken down. *)
Module SampleServer.
Definition config : ServerConfig := mkServer sample_config SampleRegistry.config (str "1.0").
Definition env : Env := mkEnv sample_run SampleRegistry.run sample_scrape_run 0 0 true.
Definition url (path query : bytes) : URL := with_query (NetUrl.plain (str "http") (str "tr.example.org") path) query.
Definition request (method path query : bytes) (body : option PostBody) : HttpRequest :=
  mkHttp method (url path query) (str "10.0.0.7:51000") (str "key") body.
Definition post : HttpRequest := request (str "POST") (str "/api/registry") [] (Some SampleRegistry.body).
Definition announce : HttpRequest :=
  request (str "GET") (str "/announce/" ++ sample_user ++ chr "." :: SignUserID sample_config sample_user) (Encode sample_query) None.
Definition delete : HttpRequest := request (str "DELETE") (str "/api/registry") (str "info_hash=v2v2") None.
Definition serve `{B : Bencoder} (h : HttpRequest) (σ : Tracker) : Tracker :=
  let '(_, rl, w) := ServeHTTP id SampleRegistry.like (λ _, []) config env h (limiter σ) (world σ) in mkTracker rl w.
Definition joined : Tracker := @serve ref_codec announce (@serve ref_codec post new_tracker).
Definition taken : Tracker := @serve ref_codec delete joined.
Definition flush : TxOutcome := mkTx true true true (λ _ _, true) true.
End SampleServer.

Definition before_announce : World := world (@SampleServer.serve ref_codec SampleServer.post new_tracker).
Definition after_announce : World :=
  snd (@ServeHTTP ref_codec id SampleRegistry.like (λ _, []) SampleServer.config SampleServer.env SampleServer.announce GlobalRateLimiter before_announce).

Lemma server_guarded_witness :
  after_announce ≠ before_announce
  ∧ fst (Allow (client_ip (HRemoteAddr SampleServer.announce)) 0 0 GlobalRateLimiter) = true
  ∧ (announce_passed SampleServer.config SampleServer.env SampleServer.announce before_announce after_announce
     ∨ write_passed SampleServer.config SampleServer.announce).
Proof.
  assert (H : after_announce ≠ before_announce).
  { intros E. apply (f_equal (λ w, size (Peers (swarm w)))) in E. vm_compute in E. discriminate E. }
  split; [exact H|].
  exact (@server_guarded ref_codec id SampleRegistry.like (λ _, []) SampleServer.config SampleServer.env SampleServer.announce GlobalRateLimiter before_announce H).
Defined.

(** Without the block list the announce handler serves a hash that was taken down, once it is registered again. *)
Lemma blocklist_error_fails_open :
  let w := world (@SampleServer.serve ref_codec SampleServer.post SampleServer.taken) in
  let failing := mkRun false true true map_to_list default_order 1000 in
  let w' := snd (executeAnnounce sample_config failing (request_of SampleServer.announce) sample_user sample_params w) in
  is_Some (blocklist (db w) !! sample_hash) ∧ Peers (swarm w) !! sample_hash = None
  ∧ is_Some (blocklist (db w') !! sample_hash) ∧ is_Some (Peers (swarm w') !! sample_hash).
Proof. intros w failing w'. split_and!; decide_now. Qed.
