(* ===== verification/Takedown.v ===== *)
(** * Takedowns among requests that run at the same time

    The DELETE of [HandleAPI] ([registry.go]) is a sequence of SQL statements and one operation under the lock of the state; announces, other
    takedowns, registrations, flushes and the pruning run in between.  Here the takedown is cut at these points ([takedown_step]), [FlushToDB]
    at its two (the snapshot and the transaction), and [lstep] interleaves them with the announces of [Concurrent].

    The takedown removes the swarm before it blocks the hash, and announces check the block list before they add their peer, so peers of a hash
    can come back during a takedown ([SampleTakedown]).  The theorem says that this heals: what is left after the takedown only ages, and the next
    pruning and flush after an hour remove it.  An announce whose block list query fails is let through, as the code does; the ghost list [lblind] holds
    these, and the theorem says that they are the only way a peer of the hash can come back. *)

From S2P Require Import Prelude Strconv Hex Sha GoStrings NetAddr Bencode TrackerState UsageSync Recognize Database Announce Url Codec Registry Scrape NetUrl RateLimit Server Concurrent.
From Stdlib Require Import ZArith Lia.
Local Open Scope Z_scope.

(** ** A takedown in progress *)

Record TCall := mkTCall { t_run : ApiRun; t_request : ApiRequest }.

(** What a takedown does next; [rest]: the hashes that follow, [blocked]: those it is done with. *)
Inductive tpc :=
| TLookup                                          (* SELECT ... FROM registry *)
| TRegistry (hashes : list bytes)                  (* DELETE FROM registry *)
| TRows (h : bytes) (rest blocked : list bytes)    (* DELETE FROM peers *)
| TSwarm (h : bytes) (rest blocked : list bytes)   (* delete(State.Peers, h) *)
| TBlock (h : bytes) (rest blocked : list bytes)   (* INSERT INTO blocklist *)
| TReplied (r : response) (blocked : list bytes).

Definition named (t : TCall) : bytes := Get (ApiQuery (t_request t)) (str "info_hash").
Definition deleted : response := StatusReply (str "deleted") 200.
Definition internal_error : response := HttpError (str "Internal error") 500.

(** The loop over the hashes. *)
Definition next_hash (rest blocked : list bytes) : tpc :=
  match rest with [] => TReplied deleted blocked | h :: rest => TRows h rest blocked end.

Definition takedown_step (rc : RegistryConfig) (t : TCall) (p : tpc) (w : World) : option (tpc * World) :=
  let run := t_run t in
  match p with
  | TLookup =>
      if negb (registryAuthorized rc (t_request t)) then Some (TReplied (HttpError (str "Unauthorized") 401) [], w) else
      if bool_decide (named t = []) then Some (TReplied (HttpError (str "Missing info_hash") 400) [], w) else
      let found := query_registry (lookup_ok run) (api_rows run) (db w) (named t) in
      if query_failed found then Some (TReplied internal_error [], w) else
      Some (TRegistry (takedown_hashes (named t) (fst (row_hashes found)) (snd (row_hashes found))), w)
  | TRegistry hashes =>
      if negb (exec_ok run) then Some (TReplied internal_error [], w) else
      Some (next_hash hashes [], mkWorld (swarm w) (with_registry (db w) (filter (λ kv, ¬ matches (named t) kv) (registry (db w)))))
  | TRows h rest blocked =>
      if negb (purge_ok run h) then Some (TReplied internal_error blocked, w) else
      Some (TSwarm h rest blocked, mkWorld (swarm w) (delete_peer_rows h (db w)))
  | TSwarm h rest blocked => Some (TBlock h rest blocked, mkWorld (delete_swarm h (swarm w)) (db w))
  | TBlock h rest blocked =>
      if negb (insert_ok run h) then Some (TReplied internal_error blocked, w) else
      Some (next_hash rest (blocked ++ [h]),
            mkWorld (swarm w) (insert_block h (mkBlock (Get (ApiQuery (t_request t)) (str "reason")) (unix_now run)) (db w)))
  | TReplied _ _ => None
  end.

(** A takedown by itself, to its reply. *)
Fixpoint takedown_alone (n : nat) (rc : RegistryConfig) (t : TCall) (p : tpc) (w : World) : option (response * World) :=
  match p, n with
  | TReplied r _, _ => Some (r, w)
  | _, O => None
  | _, S n => '(p, w) ← takedown_step rc t p w; takedown_alone n rc t p w
  end.

(** ** The tracker *)

(** The world, the announces and the takedowns in progress, and the snapshot of a flush that has not been written. *)
Record Live := mkLive { lworld : World; lcalls : list thread; ltakedowns : list (TCall * tpc); lsnapshot : option SwarmState;
  lblind : list Call (* ghost: the announces let through because the block list could not be read *) }.

Definition with_peers (d : Database) (t : peer_table) : Database := mkDB (registry d) (blocklist d) t.

(** The rows [LoadFromDB] reads: rows of the table, some of which may not scan. *)
Definition rows_of (t : peer_table) (rows : list (option (bytes * bytes * Peer))) : Prop :=
  ∀ hash id p, Some (hash, id, p) ∈ rows → t !! (hash, id) = Some p.

Section live.
Context (c : Config) (rc : RegistryConfig).

(** An announce whose query of the block list fails goes on as if the hash were not blocked. *)
Definition let_through (k : Call) (p : pc) (b : list Call) : list Call :=
  match p with PBlocklist => if block_ok (k_run k) then b else k :: b | _ => b end.

(** A flush begins when no other is in progress, as [main] arranges. *)
Inductive lstep : Live → Live → Prop :=
| l_announce k w cs ts f b :
    lstep (mkLive w cs ts f b) (mkLive w (cs ++ [(k, PBlocklist)]) ts f b)
| l_call i k p p' w w' cs ts f b :
    cs !! i = Some (k, p) → call_step c k p w = Some (p', w') → lstep (mkLive w cs ts f b) (mkLive w' (<[i := (k, p')]> cs) ts f (let_through k p b))
| l_delete t w cs ts f b :
    Method (t_request t) = str "DELETE" → lstep (mkLive w cs ts f b) (mkLive w cs (ts ++ [(t, TLookup)]) f b)
| l_takedown i t p p' w w' cs ts f b :
    ts !! i = Some (t, p) → takedown_step rc t p w = Some (p', w') → lstep (mkLive w cs ts f b) (mkLive w' cs (<[i := (t, p')]> ts) f b)
| l_api run r w cs ts f b :
    Method r ≠ str "DELETE" → lstep (mkLive w cs ts f b) (mkLive (snd (HandleAPI rc run r w)) cs ts f b)
| l_snapshot w cs ts b : lstep (mkLive w cs ts None b) (mkLive w cs ts (Some (swarm w)) b)
| l_write tx s w cs ts b :
    lstep (mkLive w cs ts (Some s) b) (mkLive (mkWorld (swarm w) (with_peers (db w) (FlushToDB tx s (peers (db w))))) cs ts None b)
| l_usage users w cs ts f b :               (* the usage sync: see [UsageSync] *)
    lstep (mkLive w cs ts f b) (mkLive (mkWorld (mkState (Peers (swarm w)) users) (db w)) cs ts f b)
| l_prune now w cs ts f b : lstep (mkLive w cs ts f b) (mkLive (mkWorld (PruneMemory now (swarm w)) (db w)) cs ts f b)
| l_restart rows s w cs ts f b :            (* what was in progress is lost *)
    rows_of (peers (db w)) rows → LoadFromDB (Some (rows, true)) emptyState = (true, s) →
    lstep (mkLive w cs ts f b) (mkLive (mkWorld s (db w)) [] [] None b).
End live.

Definition new_live : Live := mkLive (mkWorld emptyState (mkDB ∅ ∅ ∅)) [] [] None [].

(** The pruning at [now], and a flush. *)
Definition healed (now : Z) (tx : TxOutcome) (σ : Live) : Live :=
  let s := PruneMemory now (swarm (lworld σ)) in
  mkLive (mkWorld s (with_peers (db (lworld σ)) (FlushToDB tx s (peers (db (lworld σ)))))) (lcalls σ) (ltakedowns σ) None (lblind σ).

(** ** What the tracker remembers of a hash *)

(** Past the block list, and before the peer is added. *)
Definition admitted (p : pc) : Prop := match p with PRegistry | PEvent _ | PTrack _ _ _ | PUpdate _ => True | _ => False end.

(** Every peer of [h] that is in memory, in the database or in the snapshot of a flush, or that an announce in progress may add, is a [P]. *)
Record remembered (h : bytes) (P : Peer → Prop) (σ : Live) : Prop := {
  in_memory : ∀ id p, GetPeer (swarm (lworld σ)) h id = Some p → P p;
  in_rows : ∀ id p, peers (db (lworld σ)) !! (h, id) = Some p → P p;
  in_snapshot : ∀ s id p, lsnapshot σ = Some s → GetPeer s h id = Some p → P p;
  in_flight : ∀ k p addr, (k, p) ∈ lcalls σ → k_hash k = h → admitted p → P (new_peer k addr) }.

Definition seen_by (T : Z) (p : Peer) : Prop := UpdatedAt p ≤ T.
Definition forgotten (h : bytes) : Live → Prop := remembered h (λ _, False).

(** A peer of [h] that one of these announces adds. *)
Definition readded (h : bytes) (calls : list Call) (p : Peer) : Prop := ∃ k addr, k ∈ calls ∧ k_hash k = h ∧ p = new_peer k addr.

(** ** Lemmas: a takedown by itself *)

Lemma takedown_next n rc t p w : (∀ r l, p ≠ TReplied r l) →
  takedown_alone (S n) rc t p w = ('(p, w) ← takedown_step rc t p w; takedown_alone n rc t p w).
Proof. intros H. destruct p; try done. by destruct (H r blocked). Qed.

Lemma replied_alone n rc t r l w : takedown_alone n rc t (TReplied r l) w = Some (r, w).
Proof. by destruct n. Qed.

Lemma hashes_alone n rc t rest : ∀ blocked w, takedown_alone (3 * length rest + n) rc t (next_hash rest blocked) w =
  Some (match takedown_loop (t_run t) (Get (ApiQuery (t_request t)) (str "reason")) rest w with (true, w) => (deleted, w) | (false, w) => (internal_error, w) end).
Proof.
  induction rest as [|h rest IH]; intros blocked w; [by apply replied_alone|]. cbn [next_hash length takedown_loop].
  replace (3 * S (length rest) + n)%nat with (S (S (S (3 * length rest + n)))) by lia. rewrite takedown_next by done. cbn [takedown_step].
  destruct (purge_ok (t_run t) h); cbn [negb mbind option_bind]; [|apply replied_alone].
  rewrite takedown_next by done. cbn [takedown_step mbind option_bind swarm db]. rewrite takedown_next by done. cbn [takedown_step].
  destruct (insert_ok (t_run t) h); cbn [negb mbind option_bind]; [|apply replied_alone]. apply IH.
Qed.

Lemma add_hash_length hs h : (length (add_hash hs h) ≤ S (length hs))%nat.
Proof. unfold add_hash. case_bool_decide; rewrite ?length_app; cbn; lia. Qed.

Lemma takedown_hashes_length hash v2 v1 : (length (takedown_hashes hash v2 v1) ≤ 3)%nat.
Proof.
  unfold takedown_hashes. cbn [foldl]. pose proof (add_hash_length (add_hash (add_hash [] hash) v2) v1). pose proof (add_hash_length (add_hash [] hash) v2).
  pose proof (add_hash_length [] hash). cbn [length] in *. lia.
Qed.

(** Run without interruption, the steps of a takedown are [api_delete]. *)
Lemma takedown_executes rc t w : takedown_alone 11 rc t TLookup w = Some (api_delete rc (t_run t) (t_request t) w).
Proof.
  rewrite (takedown_next 10) by done. cbn [takedown_step]. unfold api_delete, named. destruct (registryAuthorized _ _); cbn [negb mbind option_bind]; [|apply replied_alone].
  case_bool_decide; cbn [mbind option_bind]; [apply replied_alone|]. cbv zeta. destruct (query_failed _); cbn [mbind option_bind]; [apply replied_alone|].
  rewrite (takedown_next 9) by done. cbn [takedown_step]. destruct (exec_ok _); cbn [negb mbind option_bind]; [|apply replied_alone].
  set (hs := takedown_hashes _ _ _). pose proof (takedown_hashes_length _ _ _ : (length hs ≤ 3)%nat).
  replace 9%nat with (3 * length hs + (9 - 3 * length hs))%nat by lia. apply hashes_alone.
Qed.

(** ** Lemmas: the block list only grows *)

Definition blocks_kept (w w' : World) : Prop := ∀ h, is_Some (blocklist (db w) !! h) → is_Some (blocklist (db w') !! h).

Lemma call_blocks c k p p' w w' : call_step c k p w = Some (p', w') → blocklist (db w') = blocklist (db w) ∧ peers (db w') = peers (db w).
Proof.
  destruct p; cbn [call_step]; intros H; repeat case_match; simplify_eq/=; done.
Qed.

Lemma insert_blocks h row d k : is_Some (blocklist (insert_block h row d) !! k) ↔ is_Some (blocklist d !! k) ∨ k = h.
Proof.
  cbn. destruct (blocklist d !! h) as [b|] eqn:E; [split; [tauto|intros [?| ->]; eauto]|]. rewrite lookup_insert_is_Some'. naive_solver.
Qed.

Lemma takedown_blocks rc t p p' w w' : takedown_step rc t p w = Some (p', w') → blocks_kept w w'.
Proof.
  intros H h Hh. destruct p; cbn [takedown_step] in H; repeat case_match; simplify_eq/=; try done.
  apply (insert_blocks _ _ (db w)). by left.
Qed.

(** A request other than a DELETE leaves the swarm, the peers table and the block list. *)
Lemma api_frame rc run r w : Method r ≠ str "DELETE" → let w' := snd (HandleAPI rc run r w) in
  swarm w' = swarm w ∧ peers (db w') = peers (db w) ∧ blocklist (db w') = blocklist (db w).
Proof.
  intros Hr. unfold HandleAPI. case_bool_decide; [done|]. rewrite (bool_decide_false (_ = str "DELETE")) by done.
  case_bool_decide; [|done]. unfold api_post. by repeat case_match.
Qed.

Lemma lstep_blocks c rc σ σ' : lstep c rc σ σ' → blocks_kept (lworld σ) (lworld σ').
Proof.
  destruct 1; cbn [lworld]; intros h Hh; try done.
  - by rewrite (proj1 (call_blocks _ _ _ _ _ _ H0)).
  - by eapply takedown_blocks.
  - by destruct (api_frame rc run r w H) as (_ & _ & ->).
Qed.

(** ** Lemmas: nothing new of a blocked hash *)

Lemma call_peers c k p p' w w' h id q : call_step c k p w = Some (p', w') → GetPeer (swarm w') h id = Some q →
  GetPeer (swarm w) h id = Some q ∨ k_hash k = h ∧ ∃ addr, p = PUpdate addr ∧ q = new_peer k addr.
Proof.
  intros H Hq. destruct p; cbn [call_step] in H; repeat case_match; simplify_eq; try (by left); cbn [swarm] in Hq.
  - rewrite GetPeer_remove in Hq. case_bool_decide; [done|by left].
  - rewrite GetPeer_update in Hq. case_bool_decide as E; [|by left]. injection Hq as <-. right. split; [tauto|]. by eexists.
  - rewrite GetPeer_update in Hq. case_bool_decide as E; [|by left]. injection Hq as <-. right. split; [tauto|]. by eexists.
Qed.

Lemma call_admitted c k p p' w w' : call_step c k p w = Some (p', w') → admitted p' →
  admitted p ∨ p = PBlocklist ∧ is_blocked (k_run k) (db w) (k_hash k) = false.
Proof.
  intros H Ha. destruct p; cbn [call_step] in H; try (by left).
  - destruct (is_blocked _ _ _); [by simplify_eq|]. by right.
  - by repeat case_match; simplify_eq.
  - by simplify_eq.
  - by simplify_eq.
Qed.

Lemma takedown_peers rc t p p' w w' h id q : takedown_step rc t p w = Some (p', w') →
  (GetPeer (swarm w') h id = Some q → GetPeer (swarm w) h id = Some q) ∧ (peers (db w') !! (h, id) = Some q → peers (db w) !! (h, id) = Some q).
Proof.
  intros H. destruct p; cbn [takedown_step] in H; repeat case_match; simplify_eq; cbn; try done.
  - split; [done|]. by intros [? _]%map_lookup_filter_Some.
  - split; [|done]. unfold GetPeer. cbn. rewrite lookup_delete. by case_decide.
Qed.

Lemma elem_of_changed {A} (i : nat) (x y : A) (l : list A) : y ∈ <[i := x]> l → y = x ∨ y ∈ l.
Proof. intros [j [(_ & -> & _)|[_ Hj]]%list_lookup_insert_Some]%list_elem_of_lookup; [by left|right]. by eapply list_elem_of_lookup_2. Qed.

Lemma load_peers rows h id p : ∀ s, GetPeer (foldl load_row s rows) h id = Some p → GetPeer s h id = Some p ∨ Some (h, id, p) ∈ rows.
Proof.
  induction rows as [|[[[k i] q]|] rows IH]; intros s; [by left| |]; (cbn [foldl]; intros [H|H]%IH; [|right; by right]); [|by left].
  change (load_row s _) with (UpdatePeer k i q s) in H. rewrite GetPeer_update in H. case_bool_decide as E; [|by left].
  destruct E as [-> ->]. injection H as ->. right. left.
Qed.

Section hash.
Context (c : Config) (rc : RegistryConfig) (h : bytes) (P : Peer → Prop).

(** A step neither adds to the snapshot nor to the announces in progress; what it does to the world is left to show. *)
Lemma remembered_world σ w' : remembered h P σ →
  (∀ id p, GetPeer (swarm w') h id = Some p → GetPeer (swarm (lworld σ)) h id = Some p ∨ P p) →
  (∀ id p, peers (db w') !! (h, id) = Some p → peers (db (lworld σ)) !! (h, id) = Some p) →
  ∀ ts b, remembered h P (mkLive w' (lcalls σ) ts (lsnapshot σ) b).
Proof.
  intros [M R S F] Hm Hr ts b. split; cbn; [|by eauto..]. intros id p [Hp|Hp]%Hm; [by eapply M|done].
Qed.

Lemma lstep_remembered σ σ' : lstep c rc σ σ' → is_Some (blocklist (db (lworld σ)) !! h) → remembered h P σ →
  (∀ k addr, lblind σ' = k :: lblind σ → k_hash k = h → P (new_peer k addr)) → remembered h P σ'.
Proof.
  intros Hst Hb Hrem Hbl. pose proof Hrem as [M R S F]. destruct Hst; cbn [lworld lcalls ltakedowns lsnapshot lblind] in *.
  - split; cbn; try done. intros k' q addr [Hin|[= -> ->]%list_elem_of_singleton]%elem_of_app Hk Ha; [by eapply F|done].
  - assert (Hin : (k, p) ∈ cs) by by eapply list_elem_of_lookup_2. split; cbn; [| |done|].
    + intros id q Hq. destruct (call_peers _ _ _ _ _ _ _ _ _ H0 Hq) as [?|(Hk & addr & -> & ->)]; [by eapply M|]. by eapply F.
    + intros id q Hq. rewrite (proj2 (call_blocks _ _ _ _ _ _ H0)) in Hq. by eapply R.
    + intros k' q addr [[= -> ->]|Hin']%elem_of_changed Hk Ha; [|by eapply F].
      destruct (call_admitted _ _ _ _ _ _ H0 Ha) as [Ha'|[-> Hnb]]; [by eapply F|]. subst h.
      unfold is_blocked, query_blocklist in Hnb. destruct (block_ok (k_run k)) eqn:Eb.
      * cbn [negb] in Hnb. by destruct Hb as [row Hb]; rewrite Hb in Hnb.
      * apply Hbl; [|done]. unfold let_through. by rewrite Eb.
  - by apply (remembered_world _ w Hrem); [left| |..].
  - apply (remembered_world _ w' Hrem); cbn.
    + intros id q Hq. left. by eapply takedown_peers.
    + intros id q. by eapply takedown_peers.
  - destruct (api_frame rc run r w H) as (E1 & E2 & _). apply (remembered_world _ _ Hrem); cbn; intros id q; rewrite ?E1, ?E2; [by left|done].
  - split; cbn; try done. intros s id p [= <-]. apply M.
  - split; cbn; try done. intros id p. destruct (flush_cases tx s (peers (db w))) as [->| ->]; [by apply R|]. rewrite lookup_view. by apply S.
  - by apply (remembered_world _ (mkWorld (mkState (Peers (swarm w)) users) (db w)) Hrem); [left| |..].
  - apply (remembered_world _ _ Hrem); cbn; [|done]. intros id p. rewrite GetPeer_prune. intros (q & Hq & E)%bind_Some. left. case_bool_decide; [|done]. by simplify_eq.
  - injection H0 as <-. split; cbn; [|done..|by intros ? ? ? ?%elem_of_nil].
    intros id p [Hp|Hin]%load_peers; [done|]. eapply R. by apply H.
Qed.

End hash.

Lemma remembered_mono h (P Q : Peer → Prop) σ : (∀ p, P p → Q p) → remembered h P σ → remembered h Q σ.
Proof. intros H [M R S F]. split; eauto. Qed.

Lemma lstep_blind c rc σ σ' : lstep c rc σ σ' → lblind σ' = lblind σ ∨ ∃ k, lblind σ' = k :: lblind σ.
Proof. destruct 1; cbn [lblind]; auto. unfold let_through. destruct p; auto. destruct (block_ok _); eauto. Qed.

(** What is remembered later was remembered before or comes from an announce that was let through. *)
Lemma lsteps_remembered c rc h σ σ' : rtc (lstep c rc) σ σ' → is_Some (blocklist (db (lworld σ)) !! h) →
  is_Some (blocklist (db (lworld σ')) !! h) ∧ ∃ new, lblind σ' = new ++ lblind σ
    ∧ ∀ P, remembered h P σ → remembered h (λ p, P p ∨ readded h new p) σ'.
Proof.
  induction 1 as [σ|σ σ1 σ' H _ IH]; intros Hb.
  - split; [done|]. exists []. split; [done|]. intros P. apply remembered_mono. by left.
  - destruct IH as (Hb' & new & E & K); [by eapply lstep_blocks|]. split; [done|].
    assert (∃ one, lblind σ1 = one ++ lblind σ) as [one E1] by (destruct (lstep_blind _ _ _ _ H) as [E1|[k E1]]; [by exists []|by exists [k]]).
    exists (new ++ one). split; [by rewrite E, E1, app_assoc|]. intros P HP.
    eapply remembered_mono; [|apply (K (λ p, P p ∨ readded h one p))].
    + intros p [[?|(k & addr & ? & ?)]|(k & addr & ? & ?)]; [by left|right; exists k, addr; rewrite elem_of_app; tauto..].
    + eapply lstep_remembered; [done|done|eapply remembered_mono; [|done]; by left|].
      intros k addr Ek Hk. right. exists k, addr. split; [|done]. rewrite E1 in Ek. change (k :: lblind σ) with ([k] ++ lblind σ) in Ek.
      apply app_inv_tail in Ek as ->. left.
Qed.

(** ** Lemmas: what a takedown has blocked *)

(** The hash that was named is done with or to come; those that are done with are blocked. *)
Definition takedown_inv (w : World) (tp : TCall * tpc) : Prop :=
  let all_blocked l := Forall (λ h, is_Some (blocklist (db w) !! h)) l in
  match tp.2 with
  | TLookup => True
  | TRegistry hashes => named tp.1 ∈ hashes
  | TRows h rest l | TSwarm h rest l | TBlock h rest l => all_blocked l ∧ named tp.1 ∈ l ++ h :: rest
  | TReplied r l => all_blocked l ∧ (r = deleted → named tp.1 ∈ l)
  end.

Lemma takedown_inv_kept w w' tp : blocks_kept w w' → takedown_inv w tp → takedown_inv w' tp.
Proof.
  intros K. assert (L : ∀ l, Forall (λ h, is_Some (blocklist (db w) !! h)) l → Forall (λ h, is_Some (blocklist (db w') !! h)) l)
    by (intros l Hl; eapply Forall_impl; [done|]; intros h; apply K).
  destruct tp as [t []]; cbn; naive_solver.
Qed.

Lemma next_inv w t rest l : Forall (λ h, is_Some (blocklist (db w) !! h)) l → named t ∈ l ++ rest → takedown_inv w (t, next_hash rest l).
Proof. intros Hl Hn. destruct rest; cbn; [rewrite app_nil_r in Hn|]; auto. Qed.

Lemma takedown_step_inv rc t p p' w w' : takedown_step rc t p w = Some (p', w') → takedown_inv w (t, p) → takedown_inv w' (t, p').
Proof.
  intros H Hi. pose proof (takedown_inv_kept _ _ _ (takedown_blocks _ _ _ _ _ _ H) Hi) as Hk.
  destruct p; cbn [takedown_step] in H; repeat case_match; simplify_eq; try (apply next_inv); try (by split); try done.
  all: cbn in Hi, Hk |- *; try (by apply takedown_hashes_spec; auto); try (split; [tauto|done]).
  - apply takedown_hashes_spec. rewrite bool_decide_eq_false in *. auto.
  - apply Forall_app. split; [tauto|]. apply Forall_singleton. apply (insert_blocks _ _ (db w)). by right.
  - rewrite <- app_assoc. tauto.
Qed.

Lemma lstep_takedowns c rc σ σ' : lstep c rc σ σ' → Forall (takedown_inv (lworld σ)) (ltakedowns σ) → Forall (takedown_inv (lworld σ')) (ltakedowns σ').
Proof.
  intros H Hi. assert (Hk : Forall (takedown_inv (lworld σ')) (ltakedowns σ)).
  { eapply Forall_impl; [done|]. intros tp. apply takedown_inv_kept. by eapply lstep_blocks. }
  destruct H; cbn [lworld ltakedowns] in *; try done.
  - apply Forall_app. split; [done|]. by apply Forall_singleton.
  - apply Forall_insert; [done|]. eapply takedown_step_inv; [done|]. by eapply (Forall_lookup_1 _ _ _ _ Hi).
Qed.

Lemma lsteps_takedowns c rc σ σ' : rtc (lstep c rc) σ σ' → Forall (takedown_inv (lworld σ)) (ltakedowns σ) → Forall (takedown_inv (lworld σ')) (ltakedowns σ').
Proof. induction 1 as [|σ σ1 σ' H _ IH]; [done|]. intros Hi. by eapply IH, lstep_takedowns. Qed.

(** ** Lemmas: the pruning and the flush *)

Lemma heal_steps c rc now tx σ : lsnapshot σ = None → rtc (lstep c rc) σ (healed now tx σ).
Proof.
  destruct σ as [w cs ts f b]. cbn. intros ->. eapply rtc_l; [apply (l_prune _ _ now)|]. eapply rtc_l; [apply l_snapshot|]. apply rtc_once, (l_write _ _ tx).
Qed.

Lemma heal_forgets h T now tx σ : T + 3600 < now → tx_ok tx → remembered h (seen_by T) σ →
  (∀ k p, (k, p) ∈ lcalls σ → k_hash k = h → ¬ admitted p) → forgotten h (healed now tx σ).
Proof.
  intros Ht Hx [M _ _ _] Hf. assert (Hp : ∀ id, GetPeer (PruneMemory now (swarm (lworld σ))) h id = None).
  { intros id. rewrite GetPeer_prune. destruct (GetPeer _ h id) as [p|] eqn:E; [|done]. apply M in E. unfold seen_by in E. cbn.
    by rewrite bool_decide_false by lia. }
  split; cbn.
  - intros id p. by rewrite Hp.
  - intros id p. rewrite flush_ok, lookup_view by done. by rewrite Hp.
  - done.
  - intros k p _. by apply Hf.
Qed.

Lemma started_well c rc σ : rtc (lstep c rc) new_live σ → Forall (takedown_inv (lworld σ)) (ltakedowns σ).
Proof.
  intros H. apply (lsteps_takedowns _ _ _ _ H). constructor.
Qed.

(** ** The property *)

(** C5. Whatever runs while a torrent is taken down, the takedown heals.  Once a DELETE has replied that the torrent is deleted, among any announces, flushes,
    registrations and takedowns in progress, the hash that was named and the others it lists are blocked for good, restarts included: an announce whose query of the
    block list succeeds is refused, whatever interleaves.  An announce whose query fails is let through (the code ignores the error): [new] are these, and they are all
    that can add a peer of such a hash but the announces that had passed the block list by the reply: everything the tracker remembers of it later, in memory, in the
    database and in a flush that is under way, it remembered at the reply (so nothing, if that was nothing) or comes from [new].  And when no announce
    of the hash is still in progress past the block list, the first pruning an hour after the last such peer was seen and the flush that follows leave nothing of it, for
    ever but for announces that are let through after that. *)
Theorem takedown_heals c rc σ σ' t l h :
  rtc (lstep c rc) new_live σ → (t, TReplied deleted l) ∈ ltakedowns σ → h ∈ l → rtc (lstep c rc) σ σ' →
  named t ∈ l
  ∧ is_Some (blocklist (db (lworld σ')) !! h)
  ∧ (∀ k, k_hash k = h → block_ok (k_run k) = true →
       call_step c k PBlocklist (lworld σ') = Some (PReplied (TrackerError (str "info_hash is blocked")), lworld σ'))
  ∧ (∃ new, lblind σ' = new ++ lblind σ ∧ ∀ P, remembered h P σ → remembered h (λ p, P p ∨ readded h new p) σ')
  ∧ (∀ T now tx, remembered h (seen_by T) σ' → T + 3600 < now → tx_ok tx → lsnapshot σ' = None →
       (∀ k p, (k, p) ∈ lcalls σ' → k_hash k = h → ¬ admitted p) →
       rtc (lstep c rc) σ' (healed now tx σ') ∧ ∀ σ2, rtc (lstep c rc) (healed now tx σ') σ2 →
         ∃ new, lblind σ2 = new ++ lblind σ' ∧ remembered h (readded h new) σ2).
Proof.
  intros H0 Ht Hh H. pose proof (started_well c rc σ H0) as Hi.
  pose proof (proj1 (Forall_forall _ _) Hi _ Ht) as [Hl Hn]. pose proof (proj1 (Forall_forall _ _) Hl h Hh) as Hb.
  destruct (lsteps_remembered c rc h σ σ' H Hb) as (Hb' & Hm). split_and!; [by apply Hn|done| |done|].
  - intros k <- Hk. cbn [call_step]. unfold is_blocked, query_blocklist. rewrite Hk. by destruct Hb' as [b ->].
  - intros T now tx Hm' HT Hx Hs Hf. pose proof (heal_steps c rc now tx σ' Hs) as Hst. split; [done|]. intros σ2 H2.
    destruct (lsteps_remembered c rc h _ _ H2) as (_ & new & E & K).
    { by destruct (lsteps_remembered c rc h _ _ Hst Hb') as [? _]. }
    exists new. split; [done|]. eapply remembered_mono; [|apply (K (λ _, False)); by eapply heal_forgets]. naive_solver.
Qed.

(** ** Samples *)

Module SampleTakedown.
Import SampleConcurrent.

(** The moves of a run; what each does, if it can. *)
Inductive move := Announces (k : Call) | Calls (i : nat) | Deletes (t : TCall) | Takes (i : nat) | Registers (run : ApiRun) (r : ApiRequest)
  | Snapshots | Writes (tx : TxOutcome).

Definition go1 (c : Config) (m : move) (σ : Live) : option Live :=
  let '(mkLive w cs ts f b) := σ in
  match m with
  | Announces k => Some (mkLive w (cs ++ [(k, PBlocklist)]) ts f b)
  | Calls i => '(k, p) ← cs !! i; '(p', w') ← call_step c k p w; Some (mkLive w' (<[i := (k, p')]> cs) ts f (let_through k p b))
  | Deletes t => if bool_decide (Method (t_request t) = str "DELETE") then Some (mkLive w cs (ts ++ [(t, TLookup)]) f b) else None
  | Takes i => '(t, p) ← ts !! i; '(p', w') ← takedown_step SampleRegistry.config t p w; Some (mkLive w' cs (<[i := (t, p')]> ts) f b)
  | Registers run r => if bool_decide (Method r = str "DELETE") then None else Some (mkLive (snd (HandleAPI SampleRegistry.config run r w)) cs ts f b)
  | Snapshots => match f with None => Some (mkLive w cs ts (Some (swarm w)) b) | Some _ => None end
  | Writes tx => s ← f; Some (mkLive (mkWorld (swarm w) (with_peers (db w) (FlushToDB tx s (peers (db w))))) cs ts None b)
  end.
Fixpoint go (c : Config) (ms : list move) (σ : Live) : option Live := match ms with [] => Some σ | m :: ms => σ ← go1 c m σ; go c ms σ end.

Lemma go1_step c m σ σ' : go1 c m σ = Some σ' → lstep c SampleRegistry.config σ σ'.
Proof.
  destruct σ as [w cs ts f b]. destruct m; cbn [go1]; intros H.
  - simplify_eq. by constructor.
  - apply bind_Some in H as ([k p] & H1 & ([p' w'] & H2 & H3)%bind_Some). simplify_eq. by econstructor.
  - case_bool_decide; simplify_eq. by constructor.
  - apply bind_Some in H as ([k p] & H1 & ([p' w'] & H2 & H3)%bind_Some). simplify_eq. by econstructor.
  - case_bool_decide; simplify_eq. by constructor.
  - destruct f; simplify_eq. constructor.
  - apply bind_Some in H as (s & -> & H). simplify_eq. constructor.
Qed.

Lemma go_steps c ms : ∀ σ σ', go c ms σ = Some σ' → rtc (lstep c SampleRegistry.config) σ σ'.
Proof.
  induction ms as [|m ms IH]; intros σ σ'; [by intros [= <-]|]. intros (σ1 & H1%go1_step & H2)%bind_Some. eapply rtc_l; [done|by apply IH].
Qed.

(** What is left of the sample hash: in memory, and in the database. *)
Definition in_swarm (σ : Live) : bool := is_some (GetPeer (swarm (lworld σ)) sample_hash (PeerID sample_params)).
Definition in_table (σ : Live) : bool := is_some (peers (db (lworld σ)) !! (sample_hash, PeerID sample_params)).
Definition replied_deleted (σ : Live) : bool :=
  match ltakedowns σ with [(_, TReplied (StatusReply s 200) l)] => bool_decide (s = str "deleted" ∧ l = [sample_hash]) | _ => false end.

Definition registered : PostBody := mkPost sample_hash [] (str "t") [] [] [] 11 [] [] [].
Definition post : move := Registers SampleRegistry.run (mkApi (str "POST") ∅ (str "key") (Some registered)).
Definition takedown : TCall := mkTCall SampleRegistry.run (mkApi (str "DELETE") {[str "info_hash" := [sample_hash]]} (str "key") None).
Definition joins (n i : nat) : list move := Announces (mkCall sample_run sample_request sample_user sample_params) :: replicate n (Calls i).

Definition open_config : Config := mkConfig [] (str "secret") (str "true") 50.

(** The swarm is purged before its hash is blocked: on an open tracker an announce that begins and ends in between is left in memory. *)
Definition late : list move := post :: joins 5 0 ++ Deletes takedown :: replicate 4 (Takes 0) ++ joins 5 1 ++ [Takes 0].
(** A flush that took its snapshot before the takedown writes the peer back. *)
Definition flush_late : list move := post :: joins 6 0 ++ Snapshots :: Deletes takedown :: replicate 5 (Takes 0) ++ [Writes SampleServer.flush].

(** Once the torrent has been taken down, an announce whose query of the block list fails. *)
Definition unread : Run := mkRun false true true map_to_list default_order 1000.
Definition blind : list move :=
  post :: Deletes takedown :: replicate 5 (Takes 0) ++ Announces (mkCall unread sample_request sample_user sample_params) :: replicate 5 (Calls 0).

Definition outcome (c : Config) (ms : list move) : option (bool * bool * bool) := (λ σ, (replied_deleted σ, in_swarm σ, in_table σ)) <$> go c ms new_live.

Lemma purged_before_blocked : outcome open_config late = Some (true, true, false).
Proof. vm_compute. reflexivity. Qed.
Lemma flushed_after_takedown : outcome sample_config flush_late = Some (true, false, true).
Proof. vm_compute. reflexivity. Qed.

Lemma failed_query_admits : outcome open_config blind = Some (true, true, false).
Proof. vm_compute. reflexivity. Qed.

(** A test for [remembered] in a state without a flush or an admitted announce. *)
Definition quiet_test (h : bytes) (T : Z) (σ : Live) : bool :=
  bool_decide (map_Forall (λ _ p, UpdatedAt p ≤ T) (swarm_of (swarm (lworld σ)) h))
  && bool_decide (map_Forall (λ kv p, kv.1 = h → UpdatedAt p ≤ T) (peers (db (lworld σ))))
  && match lsnapshot σ with None => true | Some _ => false end && forallb has_replied (lcalls σ).

Lemma quiet_remembered h T σ : quiet_test h T σ = true →
  remembered h (seen_by T) σ ∧ lsnapshot σ = None ∧ ∀ k p, (k, p) ∈ lcalls σ → k_hash k = h → ¬ admitted p.
Proof.
  unfold quiet_test. rewrite !andb_true_iff, !bool_decide_eq_true. intros (((H1 & H2) & H3) & H4%replied_all).
  assert (Hf : ∀ k p, (k, p) ∈ lcalls σ → ¬ admitted p) by (intros k p Hin; apply (proj1 (Forall_forall _ _) H4) in Hin; unfold replied in Hin; cbn in Hin; destruct p; cbn; tauto).
  destruct (lsnapshot σ) eqn:Es; [done|]. split_and!; [split|done|by eauto].
  - intros id p. rewrite <- lookup_swarm_of. apply H1.
  - intros id p Hp. by apply (H2 _ _ Hp).
  - by rewrite Es.
  - intros k p addr Hin _ Ha. by destruct (Hf _ _ Hin).
Qed.

Lemma deleted_replied σ : replied_deleted σ = true → ∃ t, (t, TReplied deleted [sample_hash]) ∈ ltakedowns σ.
Proof.
  unfold replied_deleted. intros H. repeat case_match; try done. apply bool_decide_eq_true in H as [-> ->]. eexists. left.
Qed.

Definition after_late : Live := default new_live (go open_config late new_live).
Lemma late_goes : is_some (go open_config late new_live) = true.
Proof. vm_compute. reflexivity. Qed.
Lemma late_steps : rtc (lstep open_config SampleRegistry.config) new_live after_late.
Proof. pose proof late_goes as H. apply (go_steps open_config late). unfold after_late. destruct (go _ _ _); [done|discriminate H]. Qed.
Lemma late_deleted : ∃ t, (t, TReplied deleted [sample_hash]) ∈ ltakedowns after_late.
Proof.
  apply deleted_replied. vm_compute. reflexivity.
Qed.
End SampleTakedown.

Lemma takedown_heals_witness :
  SampleTakedown.in_swarm SampleTakedown.after_late = true
  ∧ (∀ k, k_hash k = sample_hash → block_ok (k_run k) = true →
       call_step SampleTakedown.open_config k PBlocklist (lworld SampleTakedown.after_late)
       = Some (PReplied (TrackerError (str "info_hash is blocked")), lworld SampleTakedown.after_late))
  ∧ ∀ σ, rtc (lstep SampleTakedown.open_config SampleRegistry.config) (healed 4601 SampleServer.flush SampleTakedown.after_late) σ →
      ∃ new, lblind σ = new ++ lblind SampleTakedown.after_late ∧ remembered sample_hash (readded sample_hash new) σ.
Proof.
  split; [vm_compute; reflexivity|]. destruct SampleTakedown.late_deleted as [t Ht].
  destruct (SampleTakedown.quiet_remembered sample_hash 1000 SampleTakedown.after_late) as (Hm & Hs & Hf); [vm_compute; reflexivity|].
  destruct (takedown_heals SampleTakedown.open_config SampleRegistry.config SampleTakedown.after_late SampleTakedown.after_late t [sample_hash] sample_hash
    SampleTakedown.late_steps Ht ltac:(left) ltac:(done)) as (_ & _ & Hr & _ & H).
  split; [exact Hr|]. apply (H 1000 4601 SampleServer.flush); [exact Hm|lia| |done|done]. by split_and!.
Defined.
