(* ===== verification/Publish.v ===== *)
(** * Publishing a torrent and getting it back

    The two commands against one tracker: [wl create] posts to the address it derives from its tracker URL, [wl get] asks the address it
    derives from the magnet link, and the server of [Server] answers both.  [http.Client] is one exchange with the
    tracker's host, the body of a registration its JSON text ([Register]); a redirect is left to a parameter.

    The theorem: what the first command publishes from a stream, the second acquires, byte for byte. *)

From S2P Require Import Prelude Strconv Hex Sha GoStrings Utf8 NetAddr Bencode TrackerState UsageSync Recognize Database Announce Url NetUrl Codec ClientTracker Peer Paths Magnet Metainfo Merkle Create TorrentFiles Registry Scrape RateLimit WlUrl WlGet WlCreate Base64 Json Register Server.
From Stdlib Require Import ZArith Lia.
Local Open Scope Z_scope.

(** ** HTTP *)

Section http.
Context {B : Bencoder} (order : list (bytes * tree) → list (bytes * tree)) (like : bytes → bytes → bool) (msg : aerr → bytes) (c : ServerConfig).
Context (scheme host : bytes) (render : Reply → bytes) (follow : bytes → option (Z * option bytes)).

Definition status (a : Reply) : Z :=
  match a with
  | Refused (PlainError _ code) | Api (HttpError _ code) | Api (StatusReply _ code) | Text _ code => code
  | Moved _ _ => 301
  | _ => 200
  end.

(** The body of a reply; encoders are the parameter. *)
Definition body_bytes (a : Reply) : bytes := match a with Api (TorrentFile _ data) => data | Text body _ => body | a => render a end.

(** The URL of the request line: path and query only. *)
Definition served_url (u : URL) : option URL :=
  '(p, raw) ← setPath (match EscapedPath u with [] => str "/" | p => p end);
  Some (mkURL [] [] None [] p raw false (ForceQuery u) (RawQuery u) [] []).

Definition exchange (e : Env) (remote method url key : bytes) (body : option PostBody) (σ : Tracker) : option (Reply * Tracker) :=
  u ← NetUrl.Parse url;
  if bool_decide (Scheme u = scheme ∧ Host u = host) then
    su ← served_url u;
    let '(a, rl, w) := ServeHTTP order like msg c e (mkHttp method su remote key body) (limiter σ) (world σ) in
    Some (a, mkTracker rl w)
  else None.

(** [client.Get] and [client.Do] of a POST, at a state of the tracker. *)
Definition client_get (e : Env) (remote : bytes) (σ : Tracker) (url : bytes) : option (Z * option bytes) :=
  match exchange e remote (str "GET") url [] None σ with
  | Some (Moved p _, _) => follow p
  | Some (a, _) => Some (status a, Some (body_bytes a))
  | None => None
  end.
Definition client_post (e : Env) (remote : bytes) (σ : Tracker) (url key : bytes) (body : registryBody) : option Z :=
  match exchange e remote (str "POST") url key (DecodeBody (MarshalBody body)) σ with
  | Some (Moved p _, _) => fst <$> follow p
  | Some (a, _) => Some (status a)
  | None => None
  end.
End http.

(** ** Lemmas: addresses *)

Definition line_url (path q : bytes) : URL := mkURL [] [] None [] path [] false false q [] [].

Lemma served_plain scheme host path q : path ≠ [] → Forall (λ b, clear encodePath b = true) path →
  served_url (with_query (NetUrl.plain scheme host path) q) = Some (line_url path q).
Proof.
  intros Hne Hc. unfold served_url. change (EscapedPath (with_query (NetUrl.plain scheme host path) q)) with (EscapedPath (NetUrl.plain scheme host path)).
  rewrite EscapedPath_plain by done. destruct path as [|b p]; [done|]. by rewrite setPath_plain.
Qed.

Lemma escape_byte_apart b : Forall (λ x, x ∉ separators) (escape_byte b).
Proof. revert b. refine (forall_byte _ _). vm_compute. reflexivity. Qed.

Lemma QueryEscape_apart s : Forall (λ x, x ∉ separators) (QueryEscape s).
Proof. unfold QueryEscape. induction s as [|b s IH]; [constructor|]. cbn [flat_map]. apply Forall_app. split; [apply escape_byte_apart|done]. Qed.

(** The query of a download. *)
Lemma info_hash_query h : Get (Query (str "info_hash=" ++ QueryEscape h)) (str "info_hash") = h.
Proof.
  assert (E : str "info_hash=" ++ QueryEscape h = encode_pair (str "info_hash") h) by reflexivity. rewrite E.
  unfold Query, parse_query. rewrite bool_decide_false by done. rewrite split_single by apply encode_pair_no_amp.
  cbn [foldl]. rewrite parse_encoded_pair. cbn [fst]. unfold append_value, Get. by rewrite lookup_insert_eq.
Qed.

Lemma Map_some_nonempty s : s ≠ [] → Map Some s ≠ [].
Proof.
  intros Hs. unfold Map. rewrite runes_cons by done. cbn [flat_map]. unfold EncodeRune. by repeat case_match.
Qed.

(** ** Lemmas: the two exchanges *)

Section exchanges.
Context {B : Bencoder} (order : list (bytes * tree) → list (bytes * tree)) (like : bytes → bytes → bool) (msg : aerr → bytes) (c : ServerConfig).
Context (scheme host : bytes).
Hypothesis Haddr : plain_url scheme host [].

Lemma plain_path path : (∃ p, path = chr "/" :: p) → Forall (λ b, clear encodePath b = true) path → plain_url scheme host path.
Proof using Haddr. intros H1 H2. destruct Haddr. constructor; [done|done|by right|done]. Qed.

Lemma exchange_plain e remote method path q key body σ :
  (∃ p, path = chr "/" :: p) → Forall (λ b, clear encodePath b = true) path → Forall (λ b, b ∉ separators) q →
  exchange order like msg c scheme host e remote method (plain_text scheme host path ++ (if bool_decide (q = []) then [] else chr "?" :: q)) key body σ
  = let '(a, rl, w) := ServeHTTP order like msg c e (mkHttp method (line_url path q) remote key body) (limiter σ) (world σ) in Some (a, mkTracker rl w).
Proof using Haddr.
  intros Hs Hc Hq. assert (Hp : NetUrl.Parse (plain_text scheme host path ++ (if bool_decide (q = []) then [] else chr "?" :: q))
    = Some (with_query (NetUrl.plain scheme host path) q)).
  { case_bool_decide as E; [subst q; rewrite app_nil_r; apply parse_plain|apply parse_query_plain; try done]; by apply plain_path. }
  unfold exchange. rewrite Hp. cbn [mbind option_bind]. rewrite bool_decide_true by done.
  rewrite served_plain; [done| |done]. by destruct Hs as [p ->].
Qed.

Definition registered_world (e : Env) (b : PostBody) (w : World) : World :=
  mkWorld (swarm w) (with_registry (db w) (<[PInfoHash b := upsert b (unix_now (api_run e)) (registry (db w) !! PInfoHash b)]> (registry (db w)))).

Lemma post_registers e remote key b σ :
  fst (Allow (client_ip remote) (created_at e) (allowed_at e) (limiter σ)) = true →
  registryKey (registry_config c) = [] ∨ key = registryKey (registry_config c) →
  exec_ok (api_run e) = true → PInfoHash b ≠ [] → PName b ≠ [] →
  ∃ rl, exchange order like msg c scheme host e remote (str "POST") (plain_text scheme host (str "/api/registry")) key (Some b) σ
    = Some (Api (StatusReply (str "created") 201), mkTracker rl (registered_world e b (world σ))).
Proof using Haddr.
  intros Ha Hk He Hh Hn. pose proof (exchange_plain e remote (str "POST") (str "/api/registry") [] key (Some b) σ) as E.
  rewrite bool_decide_true, app_nil_r in E by done. rewrite E; [|by eexists|decide_now|constructor]. clear E.
  unfold ServeHTTP. rewrite bool_decide_false by done. change (findHandler _ _) with (Found PRegistry). cbn [limited]. unfold LimitMiddleware.
  cbn [request_of RemoteAddr HRemoteAddr]. destruct (Allow _ _ _ _) as [ok rl]. cbn [fst] in Ha. subst ok. cbn [negb]. exists rl.
  assert (Hauth : registryAuthorized (registry_config c) (api_request (mkHttp (str "POST") (line_url (str "/api/registry") []) remote key (Some b))) = true).
  { unfold registryAuthorized. cbv zeta. case_bool_decide; [done|]. apply bool_decide_eq_true. cbn. tauto. }
  unfold HandleAPI, api_post. rewrite Hauth. cbn [Method api_request HMethod Body HBody]. rewrite bool_decide_false, bool_decide_true by done.
  rewrite He. cbn [negb]. by rewrite bool_decide_false by tauto.
Qed.

Lemma get_downloads render follow e remote h k row σ :
  fst (Allow (client_ip remote) (created_at e) (allowed_at e) (limiter σ)) = true →
  engine_ok (api_rows (api_run e)) → lookup_ok (api_run e) = true → h ≠ [] →
  lookup_rows (db (world σ)) h = {[ k := row ]} → torrent_data row ≠ [] →
  client_get order like msg c scheme host render follow e remote σ (plain_text scheme host (str "/api/registry/torrent?info_hash=" ++ QueryEscape h))
  = Some (200, Some (torrent_data row)).
Proof using Haddr.
  intros Ha Ho Hl Hh Hr Hd. set (q := str "info_hash=" ++ QueryEscape h).
  pose proof (exchange_plain e remote (str "GET") (str "/api/registry/torrent") q [] None σ) as E. rewrite bool_decide_false in E by done.
  unfold client_get. assert (Et : plain_text scheme host (str "/api/registry/torrent?info_hash=" ++ QueryEscape h) = plain_text scheme host (str "/api/registry/torrent") ++ chr "?" :: q).
  { unfold plain_text, q. by rewrite <- !app_assoc. }
  rewrite Et, E; [|by eexists|decide_now|apply Forall_app; split; [decide_now|apply QueryEscape_apart]]. clear E Et.
  unfold ServeHTTP. rewrite bool_decide_false by done. change (findHandler _ _) with (Found PTorrent). cbn [limited]. unfold LimitMiddleware.
  cbn [request_of RemoteAddr HRemoteAddr]. destruct (Allow _ _ _ _) as [ok rl]. cbn [fst] in Ha. subst ok. cbn [negb].
  unfold HandleTorrentDownload. change (ApiQuery (api_request _)) with (Query q).
  assert (Hq : Get (Query q) (str "info_hash") = h) by apply info_hash_query. rewrite Hq, bool_decide_false by done.
  rewrite (only_row _ _ _ k row) by done. by rewrite bool_decide_false by done.
Qed.
End exchanges.

(** ** Lemmas: the tracker's addresses *)

Section root.
Context (scheme host : bytes).
Hypothesis Haddr : plain_url scheme host [].
Local Abbreviation base := (plain_text scheme host []).

Lemma root_of tail : root_tail tail → trackerRoot (plain_text scheme host tail) = base.
Proof using Haddr. intros Ht. apply (trackerRoot_tail scheme host [] Haddr ltac:(constructor) ltac:(by apply not_elem_of_nil) tail Ht). Qed.

(** The announce URL keeps the root. *)
Lemma root_of_announce tail userID secret : root_tail tail → userID = [] ∨ secret = [] ∨ segment userID →
  trackerRoot (buildAnnounceURL (plain_text scheme host tail) userID secret) = base ∧ buildAnnounceURL (plain_text scheme host tail) userID secret ≠ [].
Proof using Haddr.
  intros Ht Hu. unfold buildAnnounceURL. rewrite root_of by done. case_bool_decide as Hb.
  - destruct Hu as [|[|Hu]]; [tauto..|]. set (x := userID ++ str "." ++ signUserID userID secret).
    assert (E : base ++ str "/announce/" ++ x = plain_text scheme host (str "/announce/" ++ x)) by (unfold plain_text; by rewrite app_nil_r, <- !app_assoc).
    cbv zeta. rewrite E. split; [|by destruct scheme]. apply root_of, tail_more.
    pose proof (passkey_segment userID secret Hu) as (_ & _ & H). done.
  - assert (E : base ++ str "/announce" = plain_text scheme host (str "/announce")) by (unfold plain_text; by rewrite app_nil_r, <- !app_assoc).
    rewrite E. split; [|by destruct scheme]. apply root_of, tail_announce.
Qed.

Lemma base_url path : base ++ path = plain_text scheme host path.
Proof. unfold plain_text. by rewrite app_nil_r, <- !app_assoc. Qed.
End root.

(** ** The round trip *)

(** A command line for a stream of [data], in pieces of [2^k] blocks, whose tracker is [scheme://host]. *)
Record good_create (scheme host : bytes) (o : createOpts) (k : nat) (data : bytes) : Prop := {
  gc_tracker : ∃ tail, root_tail tail ∧ ctrackerURL o = plain_text scheme host tail;
  gc_user : cuserID o = [] ∨ csecret o = [] ∨ segment (cuserID o);
  gc_stream : ∃ u, NetUrl.Parse (cstream o) = Some u ∧ (Scheme u = str "http" ∨ Scheme u = str "https") ∧ Host u ≠ [];
  gc_seeds : validateWebSeeds seed_url (cwebseeds o) = true ∧ zlen (cwebseeds o) < 2 ^ 17;
  gc_name : safe_name (cname o);
  gc_piece : cpieceLen o = Z.of_nat (piece_bytes k) ∧ zlen data + Z.of_nat (piece_bytes k) < 2 ^ 62;
  gc_data : data ≠ [];
  gc_texts : zlen (cname o) + zlen (cdescription o) + zlen (cpublisher o) + zlen (clicense o) + zlen (ccategory o) + zlen (ctags o) ≤ 2 ^ 23 }.

(** The tracker lets the address through, and its database answers. *)
Definition serves (e : Env) (remote : bytes) (σ : Tracker) : Prop :=
  fst (Allow (client_ip remote) (created_at e) (allowed_at e) (limiter σ)) = true
  ∧ exec_ok (api_run e) = true ∧ lookup_ok (api_run e) = true ∧ engine_ok (api_rows (api_run e)).

Section publish.
Context {B : Bencoder} (order : list (bytes * tree) → list (bytes * tree)) (like : bytes → bytes → bool) (msg : aerr → bytes) (c : ServerConfig).
Context (scheme host : bytes) (render : Reply → bytes) (follow : bytes → option (Z * option bytes)).
Hypothesis Haddr : plain_url scheme host [].

(** [fetchTorrent] at any later state whose registry still has the row. *)
Lemma fetch_published base e remote h k row σ : trackerRoot base = plain_text scheme host [] → serves e remote σ → h ≠ [] →
  lookup_rows (db (world σ)) h = {[ k := row ]} → torrent_data row ≠ [] →
  fetchTorrent (client_get order like msg c scheme host render follow e remote σ) base h = Some (torrent_data row).
Proof using Haddr.
  intros Hb (Ha & _ & Hl & Ho) Hh Hr Hd. unfold fetchTorrent, torrentURL. rewrite Hb, base_url.
  by rewrite (get_downloads order like msg c scheme host Haddr render follow e remote h k row σ).
Qed.

Lemma created_options env o k data url : good_create scheme host o k data →
  safe_name (cname o) ∧ data ≠ [] ∧ zlen data + Z.of_nat (piece_bytes k) < 2 ^ 62 ∧ OPieceLength (stream_options env o url (cname o)) = Z.of_nat (piece_bytes k)
  ∧ validateWebSeeds seed_url (OWebSeeds (stream_options env o url (cname o))) = true ∧ zlen (OWebSeeds (stream_options env o url (cname o))) ≤ 2 ^ 17.
Proof.
  intros [_ _ (u & Hu & Hs & Hh) [Hw Hn] Hname [Hp Hb] Hd]. split_and!; try done; cbn [stream_options OWebSeeds].
  - unfold validateWebSeeds. cbn [forallb]. fold (validateWebSeeds seed_url (cwebseeds o)). rewrite Hw. unfold seed_url at 1. rewrite Hu. cbn [mbind option_bind].
    by rewrite !bool_decide_true by done.
  - unfold zlen in *. cbn [length]. lia.
Qed.

(** The published torrent, as [wl get] sees it: the link names it, and its tracker is the one it was published to. *)
Lemma acquire_published base e remote url mag rand announce dial row σ info meta :
  trackerRoot base = plain_text scheme host [] → serves e remote σ → BestHash mag ≠ [] →
  lookup_rows (db (world σ)) (BestHash mag) = {[ BestHash mag := row ]} → torrent_data row ≠ [] →
  ExtractInfoBytes (torrent_data row) = Ok info → VerifyInfoHash info mag = Ok tt → ParseInfo order info = Ok meta →
  acquireMetadata order (client_get order like msg c scheme host render follow e remote σ) announce dial base url mag rand = (Ok (torrent_data row, meta), []).
Proof using Haddr.
  intros Hb Hs Hh Hr Hd Hx Hv Hp. unfold acquireMetadata, registry_metadata. rewrite (fetch_published base e remote _ (BestHash mag) row σ) by done.
  rewrite Hx. cbn [attempt]. rewrite Hv. cbn [is_ok]. by rewrite Hp.
Qed.
End publish.

(** The command on such a stream: it posts the registration of the torrent it has built, whatever the tracker replies. *)
Lemma created_from_stream `{B : Bencoder} env origin scheme host o k data now url res : good_create scheme host o k data →
  origin (cstream o) = Some (mkOrigin 200 (zlen data) {| content := data; fails := false |}) →
  CreateStream seed_url (stream_options env o url (cname o)) {| content := data; fails := false |} (zlen data) (cname o) now = Ok res →
  createFromStream env origin o url now = Ok (res, zlen data, cname o)
  ∧ (url = buildAnnounceURL (ctrackerURL o) (cuserID o) (csecret o) → ∀ getwd stat measure write_ok post, write_ok (cname o ++ str ".torrent") = true →
       runCreate env getwd stat measure origin post write_ok o now
       = Ok (mkCreated (cname o ++ str ".torrent") (TorrentBytes res)
           (bool_decide (post (registryURL (ctrackerURL o)) (capiKey o) (body_of o res (zlen data) (cname o)) = Some 201)) (InfoHashHex res) (MagnetLink res))).
Proof.
  intros Hgc Ho Ec. destruct (gc_stream _ _ _ _ _ Hgc) as (u & Hu & Hs & _). pose proof (gc_name _ _ _ _ _ Hgc) as ((Nn & Nd & _ & Ns) & _).
  assert (Hsl : cname o ≠ str "/") by (intros E; apply Ns; rewrite E; left). pose proof (gc_data _ _ _ _ _ Hgc) as Hd.
  assert (Hz : 0 < zlen data) by (destruct data; unfold zlen; cbn; [done|lia]). split.
  - unfold createFromStream. rewrite Hu. simpl_res. rewrite bool_decide_false by tauto. rewrite (bool_decide_false (cname o = [])) by done.
    rewrite bool_decide_false by tauto. rewrite Ho. simpl_res. cbn [StatusCode ContentLength OBody]. rewrite bool_decide_false by tauto.
    destruct (Z.leb_spec (zlen data) 0); [lia|]. by rewrite Ec.
  - intros -> getwd stat measure write_ok post Hw. rewrite (runCreate_stream env getwd stat measure origin post write_ok o u res (zlen data) _ now Hu Hs Nn Nd Hsl Ho Hz Hw Ec).
    do 2 f_equal. unfold registerHash. destruct (post _ _ _) as [status|]; [|done]. apply bool_decide_ext. split; [by intros ->|by intros [= ->]].
Qed.

(** The registration of such a torrent arrives. *)
Lemma body_decoded o res n info :
  zlen (cname o) + zlen (cdescription o) + zlen (cpublisher o) + zlen (clicense o) + zlen (ccategory o) + zlen (ctags o) ≤ 2 ^ 23 →
  InfoHashHex res = hex_encode (sha256 info) → RInfoHashV1Hex res = hex_encode (sha1 info) → 0 ≤ n < 2 ^ 62 → small (TorrentBytes res) →
  DecodeBody (MarshalBody (body_of o res n (cname o))) = Some (posted (body_of o res n (cname o))).
Proof.
  intros Ht H2 H1 Hn Hs. apply decode_marshalled; [unfold in_int64; cbn; lia|]. unfold text_size, small, MaxBody in *. cbn [body_of BInfoHash BV1InfoHash BName BDescription BPublisher BLicense BCategory BTags BTorrentData].
  assert (zlen (InfoHashHex res) = 64 ∧ zlen (RInfoHashV1Hex res) = 40) as [-> ->]; [|lia].
  unfold zlen. by rewrite H2, H1, !length_hex_encode, length_sha256, length_sha1.
Qed.

(** ** The property *)

(** C6. What [wl create] publishes, [wl get] gets: for a stream that delivers its content, a safe name and a valid piece length, whatever
    form of the tracker's URL is given (bare, with a slash, an announce URL with or without a passkey), the command builds a torrent [res], writes it, and
    posts the registration [body_of] of it to the tracker's registry, reporting success exactly when the reply is 201; the tracker, given the JSON text of that
    registration, replies 201, and at every later state whose registry is the one that leaves, if no other row has the hash for its v1 hash, acquiring the metadata of
    the printed magnet link from the tracker gives exactly the bytes of the torrent file, without an announce, and what it describes is the content: its piece hashes,
    its size and the name, which for a stream is [--name] (for a torrent file of at most 8 MiB, so that the registration, which goes to the tracker as JSON text,
    is within its limit). *)
Theorem publish_then_get `{B : Bencoder} order like msg c scheme host render follow env getwd stat measure origin write_ok o k data now e remote σ :
  BencoderLaws B → plain_url scheme host [] → good_create scheme host o k data → origin (cstream o) = Some (mkOrigin 200 (zlen data) {| content := data; fails := false |}) →
  write_ok (cname o ++ str ".torrent") = true → in_int64 now → serves e remote σ →
  registryKey (registry_config c) = [] ∨ capiKey o = registryKey (registry_config c) →
  ∃ res, createFromStream env origin o (buildAnnounceURL (ctrackerURL o) (cuserID o) (csecret o)) now = Ok (res, zlen data, cname o)
  ∧ (let body := body_of o res (zlen data) (cname o) in
     (∀ post, runCreate env getwd stat measure origin post write_ok o now
        = Ok (mkCreated (cname o ++ str ".torrent") (TorrentBytes res) (bool_decide (post (registryURL (ctrackerURL o)) (capiKey o) body = Some 201))
            (InfoHashHex res) (MagnetLink res)))
     ∧ (small (TorrentBytes res) → ∃ σ1,
          exchange order like msg c scheme host e remote (str "POST") (registryURL (ctrackerURL o)) (capiKey o) (DecodeBody (MarshalBody body)) σ
          = Some (Api (StatusReply (str "created") 201), σ1)
        ∧ client_post order like msg c scheme host follow e remote σ (registryURL (ctrackerURL o)) (capiKey o) body = Some 201
        ∧ ((∀ k r, registry (db (world σ)) !! k = Some r → k ≠ InfoHashHex res → v1_info_hash r ≠ InfoHashHex res) →
           ∃ mag, ParseMagnet (MagnetLink res) = Ok mag ∧
           ∀ σ2 e2 remote2 opts announce dial rand, registry (db (world σ2)) = registry (db (world σ1)) → serves e2 remote2 σ2 →
             acquireMetadata order (client_get order like msg c scheme host render follow e2 remote2 σ2) announce dial (tracker_base opts mag) (get_announce_url opts mag) mag rand
             = (Ok (TorrentBytes res, single_meta k (cname o) data), [])))).
Proof.
  intros HB Haddr Hgc Ho Hw Hnow (Ha & He & Hl & Hro) Hk. destruct (gc_tracker _ _ _ _ _ Hgc) as (tail & Ht & Etr).
  destruct (root_of_announce scheme host Haddr tail (cuserID o) (csecret o) Ht (gc_user _ _ _ _ _ Hgc)) as [Hroot Hane].
  set (url := buildAnnounceURL (ctrackerURL o) (cuserID o) (csecret o)). rewrite <- Etr in Hroot, Hane. fold url in Hroot, Hane.
  destruct (created_options scheme host env o k data url Hgc) as (Hn & Hd & Hb & Hpl & Hvs & Hzs).
  destruct (create_stream_ok seed_url order (stream_options env o url (cname o)) k data (cname o) now HB Hn Hd Hb Hpl Hane Hvs Hzs Hnow)
    as (res & info & Ec & Eh & Eh1 & Em & Hne & Hback).
  destruct (created_from_stream env origin scheme host o k data now url res Hgc Ho Ec) as [Hfs Hrun].
  exists res. split; [exact Hfs|]. intros body. split; [by intros post; apply Hrun|]. intros Hsm.
  assert (Hdec : DecodeBody (MarshalBody body) = Some (posted body)).
  { apply (body_decoded o res (zlen data) info); [by eapply gc_texts|done|done| |done]. pose proof (zlen_nonneg data). lia. }
  assert (Hh : InfoHashHex res ≠ []) by (rewrite Eh; intros E; apply (f_equal length) in E; by rewrite length_hex_encode, length_sha256 in E).
  assert (B1 : PInfoHash (posted body) = InfoHashHex res) by (change (json_string (InfoHashHex res) = InfoHashHex res); by rewrite Eh, json_hex).
  assert (B2 : PName (posted body) ≠ []) by (pose proof Hn as ((Nn & _) & _); by apply Map_some_nonempty).
  assert (Hreg : registryURL (ctrackerURL o) = plain_text scheme host (str "/api/registry")) by (unfold registryURL; by rewrite Etr, (root_of scheme host Haddr tail Ht), base_url).
  destruct (post_registers order like msg c scheme host Haddr e remote (capiKey o) (posted body) σ Ha Hk He) as [rl Hpost]; [by rewrite B1|done|]. rewrite <- Hreg, <- Hdec in Hpost.
  eexists. split; [exact Hpost|]. split; [unfold client_post; by rewrite Hpost|]. intros Huniq.
  destruct (Hback Hsm) as (_ & Hx & Hp). destruct (VerifyInfoHash_link info (cname o) url) as (mag & P1 & P2 & P3 & P4).
  assert (Hmag : BestHash mag = InfoHashHex res).
  { rewrite ParseMagnet_link in P1; [|by apply (isHex_encode _ 20), length_sha1|by apply (isHex_encode _ 32), length_sha256]. injection P1 as <-.
    unfold BestHash. cbn. rewrite bool_decide_true; [done|]. by rewrite <- Eh. }
  exists mag. split; [by rewrite Em|]. intros σ2 e2 remote2 opts announce dial rand Hsame Hs2.
  set (row := upsert (posted body) (unix_now (api_run e)) (registry (db (world σ)) !! PInfoHash (posted body))).
  assert (Hrow : torrent_data row = TorrentBytes res) by (unfold row, upsert; by destruct (registry (db (world σ)) !! PInfoHash (posted body))).
  rewrite <- Hrow. apply acquire_published with info; try done; rewrite ?Hmag, ?Hrow; try done.
  - unfold tracker_base. rewrite P3, Hroot. apply (root_of scheme host Haddr []), tail_none.
  - apply (inserted_row (db (world σ))); [exact Huniq|]. rewrite Hsame, <- B1. done.
Qed.

(** ** Sample *)

Module SamplePublish.
Definition host : bytes := str "tr.example.org:8080".
Definition data : bytes := str "the content of a small file".
Definition options : createOpts :=
  mkCreate [] (str "https://origin.example.org/f.bin") (str "f.bin") (str "http://tr.example.org:8080/announce") 16384 (str "key") (str "alice") (str "s3cret")
    false [] [] [] [] [] [] [].
Definition origin (u : bytes) : option Origin := Some (mkOrigin 200 (zlen data) {| content := data; fails := false |}).
Definition remote : bytes := str "10.0.0.7:51000".

Lemma address : plain_url (str "http") host [].
Proof. constructor; [decide_now|decide_now|by left|constructor]. Qed.

Lemma good : good_create (str "http") host options 0 data.
Proof.
  constructor; [| |eexists; split_and!|split; [reflexivity|decide_now]| |split; [reflexivity|vm_compute; reflexivity]|done|vm_compute; congruence].
  - exists (str "/announce"). split; [constructor|reflexivity].
  - right. right. decide_now.
  - vm_compute. reflexivity.
  - by right.
  - done.
  - apply check_component_ok. reflexivity.
Qed.

Lemma serves_new : serves SampleServer.env remote new_tracker.
Proof. split_and!; [vm_compute; reflexivity|done|done|apply SampleRegistry.run_is_ok]. Qed.
End SamplePublish.

Definition small_created : bool :=
  match @createFromStream ref_codec ∅ SamplePublish.origin SamplePublish.options
      (buildAnnounceURL (ctrackerURL SamplePublish.options) (cuserID SamplePublish.options) (csecret SamplePublish.options)) 1700000000
  with Ok (res, _, _) => bool_decide (small (TorrentBytes res)) | _ => false end.

Lemma publish_then_get_witness :
  let server := SampleServer.config in let http := str "http" in let e := SampleServer.env in let o := SamplePublish.options in
  ∃ res mag w, @createFromStream ref_codec ∅ SamplePublish.origin o (buildAnnounceURL (ctrackerURL o) (cuserID o) (csecret o)) 1700000000
      = Ok (res, zlen SamplePublish.data, cname o)
  ∧ (∃ rl, @exchange ref_codec id SampleRegistry.like (λ _, []) server http SamplePublish.host e SamplePublish.remote (str "POST") (registryURL (ctrackerURL o)) (capiKey o)
        (DecodeBody (MarshalBody (body_of o res (zlen SamplePublish.data) (cname o)))) new_tracker = Some (Api (StatusReply (str "created") 201), mkTracker rl w))
  ∧ ParseMagnet (MagnetLink res) = Ok mag
  ∧ ∀ opts announce dial rand, @acquireMetadata ref_codec id
      (@client_get ref_codec id SampleRegistry.like (λ _, []) server http SamplePublish.host (λ _, []) (λ _, None) e SamplePublish.remote (mkTracker GlobalRateLimiter w))
      announce dial (tracker_base opts mag) (get_announce_url opts mag) mag rand
    = (Ok (TorrentBytes res, single_meta 0 (cname o) SamplePublish.data), []).
Proof.
  intros server http e o.
  destruct (@publish_then_get ref_codec id SampleRegistry.like (λ _, []) server http SamplePublish.host (λ _, []) (λ _, None) ∅ None (λ _, None) (λ _, None)
    SamplePublish.origin (λ _, true) o 0 SamplePublish.data 1700000000 e SamplePublish.remote new_tracker) as (res & Ec & _ & H).
  - exact ref_codec_laws.
  - exact SamplePublish.address.
  - exact SamplePublish.good.
  - reflexivity.
  - reflexivity.
  - vm_compute. split; done.
  - exact SamplePublish.serves_new.
  - by right.
  - assert (Hs : small (TorrentBytes res)).
    { assert (T : small_created = true) by (vm_compute; reflexivity). unfold small_created in T. fold o in T. rewrite Ec in T. by apply bool_decide_eq_true in T. }
    destruct (H Hs) as ([rl w] & Hp & _ & Hg). destruct Hg as (mag & Hm & Hg); [by intros k r E|].
    exists res, mag, w. split; [exact Ec|]. split; [by exists rl|]. split; [exact Hm|]. intros opts announce dial rand.
    apply Hg; [reflexivity|exact SamplePublish.serves_new].
Defined.
