(* ===== verification/AnnounceHttp.v ===== *)
(** * An announce from end to end

    The client's [Announce] with the address that [buildAnnounceURL] makes, over HTTP, against the server of [Server]: the URL is parsed
    and printed by the client and parsed again by the server, which routes it, asks the limiter, checks the passkey,
    recognizes the parameters and executes the announce; the client reads the reply.

    The theorem: the client gets exactly the addresses the tracker selected, and the tracker's world changes as the announce says. *)

From S2P Require Import Prelude Strconv Hex Sha GoStrings NetAddr Bencode TrackerState UsageSync Recognize Database Announce Url NetUrl Codec ClientTracker Interop Paths Metainfo Registry Scrape RateLimit WlUrl WlGet Server Publish.
From Stdlib Require Import ZArith Lia.
Local Open Scope Z_scope.

(** ** The client's GET *)

(** [url.Parse(trackerURL)]: the URL, and its query. *)
Definition announce_target (trackerURL : bytes) : option (URL * bytes) := u ← NetUrl.Parse trackerURL; Some (u, RawQuery u).

Section http.
Context {B : Bencoder} (order : list (bytes * tree) → list (bytes * tree)) (like : bytes → bytes → bool) (msg : aerr → bytes) (c : ServerConfig).
Context (scheme host : bytes) (render : Reply → bytes) (follow : bytes → http_result).

(** A bencoded reply is written by the encoder. *)
Definition reply_body (a : Reply) : option bytes :=
  match a with Bencode r | Refused (Bencoded r) => EncodeBytes (map_tree r) | a => Some (body_bytes render a) end.

(** [u.RawQuery = q] and [http.DefaultClient.Do] of the request for [u.String()], at a state of the tracker. *)
Definition announce_get (e : Env) (remote : bytes) (σ : Tracker) (u : URL) (q : bytes) : http_result :=
  match exchange order like msg c scheme host e remote (str "GET") (url_string (with_query u q)) [] None σ with
  | Some (Moved p _, _) => follow p
  | Some (a, _) => HttpReply (status a) (reply_body a)
  | None => ClientTracker.HttpError
  end.
End http.

(** ** Lemmas: the request *)

Lemma join_apart ps : Forall (Forall (λ x, x ∉ separators)) ps → Forall (λ x, x ∉ separators) (join (chr "&") ps).
Proof.
  induction 1 as [|p ps Hp Hps IH]; [constructor|]. destruct ps as [|q ps]; [done|]. cbn [join]. apply Forall_app. split; [done|].
  constructor; [decide_now|done].
Qed.

Lemma Encode_apart q : Forall (λ x, x ∉ separators) (Encode q).
Proof.
  rewrite Encode_pairs. apply join_apart, Forall_fmap, Forall_forall. intros [k v] _. cbn. unfold encode_pair. apply Forall_app.
  split; [apply QueryEscape_apart|]. constructor; [decide_now|apply QueryEscape_apart].
Qed.

Lemma Query_announce o : Query (Encode (announce_query o (Query []))) = announce_query o (Query []).
Proof. apply Query_Encode, announce_query_nonempty, Query_nonempty. Qed.

Lemma Encode_announce_nonempty o : OInfoHash o ≠ [] → Encode (announce_query o (Query [])) ≠ [].
Proof.
  intros Hh E. pose proof (Query_announce o) as Q. rewrite E in Q. apply (f_equal (λ q, Get q (str "info_hash"))) in Q.
  rewrite announce_query_Get in Q. cbn in Q. by destruct o.
Qed.

(** ** Lemmas: the path *)

(** A segment of a path is an ordinary file name, unless it is a dot or two. *)
Lemma segment_plain s : segment s → s ≠ dot → s ≠ dotdot → Paths.plain s.
Proof. intros (H1 & H2 & _) H3 H4. by repeat split. Qed.

Lemma passkey_long userID secret : (64 < length (userID ++ str "." ++ signUserID userID secret))%nat.
Proof. rewrite !length_app. unfold signUserID. rewrite length_hex_encode, length_hmac_sha256. cbn. lia. Qed.

Lemma passkey_plain userID secret : segment userID → Forall Paths.plain [str "announce"; userID ++ str "." ++ signUserID userID secret].
Proof.
  intros Hu. pose proof (passkey_long userID secret) as Hl. constructor; [apply segment_plain; [apply announce_segment|done|done]|]. apply Forall_singleton.
  apply segment_plain; [by apply passkey_segment| |]; intros E; rewrite E in Hl; cbn in Hl; lia.
Qed.

Lemma passkey_path_eq userID secret :
  passkey_path userID secret = slash :: join slash [str "announce"; userID ++ str "." ++ signUserID userID secret].
Proof. apply path_of_join. done. Qed.

Lemma passkey_path_clear userID secret : segment userID → Forall (λ b, clear encodePath b = true) (passkey_path userID secret).
Proof. intros Hu. apply path_of_clear. repeat constructor; try apply announce_segment; by apply passkey_segment. Qed.

(** Its route. *)
Lemma passkey_route method userID secret q : method ≠ str "CONNECT" → segment userID →
  findHandler method (line_url (passkey_path userID secret) q) = Found PAnnounce.
Proof.
  intros Hm Hu. pose proof (passkey_path_clear userID secret Hu) as Hc. pose proof (passkey_plain userID secret Hu) as Hp.
  pose proof (passkey_segment userID secret Hu) as (Hn & Hs & Hcl). set (x := userID ++ str "." ++ signUserID userID secret) in *.
  unfold findHandler. rewrite (bool_decide_false (method = _)) by done.
  assert (E : EscapedPath (line_url (passkey_path userID secret) q) = passkey_path userID secret).
  { change (EscapedPath (line_url (passkey_path userID secret) q)) with (EscapedPath (NetUrl.plain [] [] (passkey_path userID secret))). by apply EscapedPath_plain. }
  rewrite E. assert (Ec : cleanPath (passkey_path userID secret) = passkey_path userID secret).
  { rewrite passkey_path_eq. fold x. unfold cleanPath. rewrite bool_decide_true by done. rewrite Clean_abs by done.
    destruct (signature_last userID secret) as (s & b & Es & Hb).
    assert (Ex : slash :: join slash [str "announce"; x] = (slash :: str "announce" ++ slash :: userID ++ str "." ++ s) ++ [b]).
    { cbn [join]. unfold x. by rewrite Es, <- app_comm_cons, <- app_assoc, <- app_comm_cons, <- !app_assoc. }
    rewrite Ex. change (str "/") with [chr "/"] at 1. rewrite has_suffix_last, bool_decide_false by done. done. }
  cbv zeta. rewrite Ec, bool_decide_false by tauto.
  assert (Eseg : path_segments (passkey_path userID secret) = [str "announce"; x]).
  { rewrite passkey_path_eq. fold x. unfold path_segments. rewrite split_join by (done || by apply plain_no_slash).
    cbn [final_slash]. rewrite bool_decide_false by done. unfold pathUnescape. rewrite (unescape_clear encodePath x) by done. reflexivity. }
  rewrite Eseg. unfold find_route, routes. cbn [find]. unfold route_matches, strip_prefix.
  by repeat (first [rewrite bool_decide_true by done | rewrite bool_decide_false by done]; cbv iota).
Qed.

(** ** Lemmas: the exchange *)

(** The client's address of the announces of a user. *)
Lemma passkey_target scheme host tail userID secret : plain_url scheme host [] → root_tail tail → segment userID → secret ≠ [] →
  plain_url scheme host (passkey_path userID secret)
  ∧ announce_target (buildAnnounceURL (plain_text scheme host tail) userID secret) = Some (NetUrl.plain scheme host (passkey_path userID secret), []).
Proof.
  intros Haddr Ht Hu Hs. pose proof Hu as (Hne & _).
  assert (E : buildAnnounceURL (plain_text scheme host tail) userID secret = plain_text scheme host (passkey_path userID secret)).
  { apply (buildAnnounceURL_passkey scheme host [] tail userID secret); first [done | by constructor | apply not_elem_of_nil]. }
  assert (Hp : plain_url scheme host (passkey_path userID secret)).
  { apply plain_url_path; [done|right; rewrite passkey_path_eq; by eexists|by apply passkey_path_clear]. }
  split; [done|]. rewrite E. unfold announce_target. by rewrite parse_plain.
Qed.

Section exchange.
Context {B : Bencoder} (order : list (bytes * tree) → list (bytes * tree)) (like : bytes → bytes → bool) (msg : aerr → bytes) (c : ServerConfig).
Context (scheme host : bytes).
Hypothesis Haddr : plain_url scheme host [].

(** What the server does with the request. *)
Lemma announce_served e remote userID o σ : segment userID → (chr "." ∉ userID) → getSecret (tracker_config c) ≠ [] → sane_options o →
  fst (Allow (client_ip remote) (created_at e) (allowed_at e) (limiter σ)) = true →
  let p := passkey_path userID (getSecret (tracker_config c)) in
  let a := executeAnnounce (tracker_config c) (announce_run e) (mkRequest p (announce_query o (Query [])) remote) userID (expected_params o) (world σ) in
  ∃ rl, exchange order like msg c scheme host e remote (str "GET") (plain_text scheme host p ++ chr "?" :: Encode (announce_query o (Query []))) [] None σ
    = Some (Bencode (fst a), mkTracker rl (snd a)).
Proof using Haddr.
  intros Hu Hd Hk So Ha p a. assert (Hne : Encode (announce_query o (Query [])) ≠ []).
  { apply Encode_announce_nonempty. intros E. pose proof (so_hash _ So) as L. by rewrite E in L. }
  pose proof (exchange_plain order like msg c scheme host Haddr e remote (str "GET") p (Encode (announce_query o (Query []))) [] None σ) as E.
  rewrite bool_decide_false in E by done. rewrite E; [|unfold p; rewrite passkey_path_eq; by eexists|by apply passkey_path_clear|apply Encode_apart]. clear E.
  unfold ServeHTTP. cbn [HURL HMethod]. assert (Hstar : UPath (line_url p (Encode (announce_query o (Query [])))) ≠ str "*").
  { unfold p. cbn [line_url UPath]. rewrite passkey_path_eq. done. }
  rewrite (bool_decide_false (UPath _ = str "*")) by done. unfold p at 1. rewrite passkey_route by done. cbn [limited]. unfold LimitMiddleware.
  cbn [request_of RemoteAddr HRemoteAddr]. destruct (Allow _ _ _ _) as [ok rl]. cbn [fst] in Ha. subst ok. cbn [negb]. exists rl.
  assert (Er : request_of (mkHttp (str "GET") (line_url p (Encode (announce_query o (Query [])))) remote [] None) = mkRequest p (announce_query o (Query [])) remote).
  { unfold request_of. cbn [HURL HRemoteAddr line_url UPath RawQuery]. by rewrite Query_announce. }
  rewrite Er. unfold HandleAnnounce. unfold p at 1. rewrite passkey_accepted by done. cbn [query].
  rewrite (recognize_complete _ (expected_params o)) by (apply announce_query_grammar; done || by vm_compute). fold a. by destruct a.
Qed.
End exchange.

(** ** The property *)

(** C7. An announce from end to end: a client with a user id and the tracker's secret, given any form of the tracker's address, whose request the
    limiter lets through and the tracker admits, gets exactly the addresses that the tracker selected for it, in order, when the other
    members of the swarm have IPv4 addresses; and the tracker's world changes exactly as that announce of that user
    says.  On the way the URL is built, parsed and printed by the client, the query escaped, the path routed, the passkey
    checked, the parameters recognized, and the reply encoded, validated and decoded. *)
Theorem announce_end_to_end `{B : Bencoder} order like msg c scheme host render follow e remote tail userID o σ :
  BencoderLaws B → plain_url scheme host [] → root_tail tail → segment userID → (chr "." ∉ userID) → getSecret (tracker_config c) ≠ [] → sane_options o →
  fst (Allow (client_ip remote) (created_at e) (allowed_at e) (limiter σ)) = true →
  let cfg := tracker_config c in
  let p := passkey_path userID (getSecret cfg) in
  let r := mkRequest p (announce_query o (Query [])) remote in
  let a := executeAnnounce cfg (announce_run e) r userID (expected_params o) (world σ) in
  let s' := swarm (snd a) in
  let hash := InfoHashHex (expected_params o) in
  admitted cfg (announce_run e) r (expected_params o) (world σ) → 0 ≤ MaxPeers cfg ≤ 100000 → iteration_of s' (peers_order (announce_run e) s') →
  Z.of_nat (size (swarm_of s' hash)) < 2 ^ 63 →
  (∀ id q, id ≠ OPeerID o → GetPeer s' hash id = Some q → ∃ x, endpoint x ∧ Addr q = uncurry addr_text x) →
  Announce (announce_get order like msg c scheme host render follow e remote σ) (announce_target (buildAnnounceURL (plain_text scheme host tail) userID (getSecret cfg))) o
  = Ok (GetPeers s' (peers_order (announce_run e) s') hash (OPeerID o) (MaxPeers cfg))
  ∧ ∃ rl, exchange order like msg c scheme host e remote (str "GET") (plain_text scheme host p ++ chr "?" :: Encode (announce_query o (Query []))) [] None σ
      = Some (Bencode (fst a), mkTracker rl (snd a)).
Proof.
  intros HB Haddr Ht Hu Hd Hk So Ha cfg p r a s' hash Had HM Hit Hsz Hend. pose proof Hk as Hd0.
  destruct (announce_served order like msg c scheme host Haddr e remote userID o σ Hu Hd Hk So Ha) as [rl Hx]. fold cfg p r a in Hx.
  split; [|by exists rl]. unfold cfg. destruct (passkey_target scheme host tail userID (getSecret (tracker_config c)) Haddr Ht Hu Hd0) as [Hp ->].
  apply Announce_reads with (r := r) (userID := userID) (w := world σ); try done.
  unfold announce_get. rewrite print_with_query, print_plain, bool_decide_false by done || (apply Encode_announce_nonempty; intros E; pose proof (so_hash _ So) as L; by rewrite E in L).
  fold cfg p. by rewrite Hx.
Qed.

(** ** Sample *)

(** Bob's client announces to the server at which Alice's peer has joined. *)
Module SampleAnnounce.
Definition σ : Tracker := mkTracker GlobalRateLimiter sample_world2.
Definition host : bytes := str "tr.example.org".
Definition request : Request := mkRequest (passkey_path Sample.bob (getSecret sample_config)) (announce_query Sample.options (Query [])) Sample.remote.
Definition after : SwarmState := swarm (snd (executeAnnounce sample_config sample_run request Sample.bob (expected_params Sample.options) sample_world2)).
Lemma addr : plain_url (str "http") host [].
Proof. constructor; [decide_now|decide_now|by left|constructor]. Qed.
Lemma members_v4 id q : id ≠ Sample.bob_id → GetPeer after Sample.hash id = Some q → ∃ e, endpoint e ∧ Addr q = uncurry addr_text e.
Proof.
  intros Hid Hq. rewrite <- lookup_swarm_of in Hq.
  assert (H : map_Forall (λ i x, i = Sample.bob_id ∨ Addr x = str "10.0.0.7:6881") (swarm_of after Sample.hash)) by decide_now.
  destruct (map_Forall_lookup_1 _ _ _ _ H Hq) as [E|Ea]; [destruct (Hid E)|]. exists (zbyte <$> [10; 0; 0; 7], 6881). split.
  - split; [done|]. cbn [snd]. lia.
  - rewrite Ea. vm_compute. reflexivity.
Qed.
End SampleAnnounce.

Lemma announce_end_to_end_witness :
  let server := mkServer sample_config (mkRegistryConfig [] []) (str "1.0") in
  let http := @announce_get ref_codec id (λ _ _, true) (λ _, []) server (str "http") SampleAnnounce.host (λ _, []) (λ _, ClientTracker.HttpError) SampleServer.env
    Sample.remote SampleAnnounce.σ in
  let target := announce_target (buildAnnounceURL (plain_text (str "http") SampleAnnounce.host (str "/announce")) Sample.bob (getSecret sample_config)) in
  @Announce ref_codec _ http target Sample.options = Ok [str "10.0.0.7:6881"]
  ∧ @Announce ref_codec _ http target Sample.options
    = Ok (GetPeers SampleAnnounce.after (default_order SampleAnnounce.after) Sample.hash Sample.bob_id (MaxPeers sample_config))
  ∧ ∃ rl, @exchange ref_codec id (λ _ _, true) (λ _, []) server (str "http") SampleAnnounce.host SampleServer.env Sample.remote (str "GET")
      (plain_text (str "http") SampleAnnounce.host (passkey_path Sample.bob (getSecret sample_config)) ++ chr "?" :: Encode (announce_query Sample.options (Query []))) []
      None SampleAnnounce.σ
      = Some (Bencode (fst (executeAnnounce sample_config sample_run SampleAnnounce.request Sample.bob (expected_params Sample.options) sample_world2)),
              mkTracker rl (snd (executeAnnounce sample_config sample_run SampleAnnounce.request Sample.bob (expected_params Sample.options) sample_world2))).
Proof.
  intros server http target.
  assert (H := @announce_end_to_end ref_codec id (λ _ _, true) (λ _, []) server (str "http") SampleAnnounce.host (λ _, []) (λ _, ClientTracker.HttpError) SampleServer.env
    Sample.remote (str "/announce") Sample.bob Sample.options SampleAnnounce.σ ref_codec_laws SampleAnnounce.addr tail_announce).
  split; [vm_compute; reflexivity|]. apply H; clear H.
  - decide_now.
  - decide_now.
  - done.
  - exact Sample.options_sane.
  - vm_compute. reflexivity.
  - split; [vm_compute; reflexivity|]. split; [right; vm_compute; reflexivity|]. vm_compute. eauto.
  - vm_compute. split; congruence.
  - apply default_order_ok.
  - vm_compute. reflexivity.
  - exact SampleAnnounce.members_v4.
Defined.
