(* ===== verification/WlPeers.v ===== *)
(** * Metadata from a peer

    The fallback of [acquireMetadata] ([cmd/wl/main.go]) when the registry does not have the torrent: announce, connect to the peers in
    turn, shake hands, fetch the info dictionary, and build a torrent around it.

    The theorem: one peer that serves the info dictionary is enough, whatever the peers before it do short of making the program
    panic, and the torrent that [wl get] saves is read back as that info dictionary. *)

From S2P Require Import Prelude Strconv Hex Sha GoStrings Bencode Url Codec ClientTracker Wire Peer Metadata Handshake Paths Magnet Metainfo Create TorrentFiles Download WlGet.
From Stdlib Require Import ZArith Lia.
Local Open Scope Z_scope.

(** ** Lemmas: the torrent around an info dictionary *)

Definition peer_entries (announce : bytes) (info : tree) : list (bytes * tree) :=
  set (set_if (bool_decide (announce ≠ [])) [] (str "announce") (BStr announce)) (str "info") info.

Lemma peer_entries_NoDup announce info : NoDup (peer_entries announce info).*1.
Proof. unfold peer_entries. auto with weightless. Qed.

Lemma peer_entries_info announce info : field (str "info") (peer_entries announce info) = Some info.
Proof. unfold peer_entries. rewrite field_set by auto with weightless. done. Qed.

Lemma BuildMetainfo_run `{B : Bencoder} announce info : BencoderLaws B →
  BuildMetainfo (encode info) announce = Some (encode (BDict (sort_entries (peer_entries announce info)))).
Proof.
  intros HB. unfold BuildMetainfo, newOrderedDict. apply encode_ordered; [done| |apply peer_entries_NoDup].
  unfold peer_entries. apply represents_set; [|done]. apply represents_set_if; [constructor|]. intros _. cbn. apply EncodeBytes_ok.
Qed.

Lemma peer_entries_size announce info : zlen (encode info) + zlen announce ≤ 2 ^ 23 - 256 →
  small (encode (BDict (sort_entries (peer_entries announce info)))).
Proof.
  intros Hz. pose proof (zlen_nonneg announce). pose proof (zlen_nonneg (encode info)). pose proof (zlen_enc_str announce ltac:(lia)).
  unfold small. change (encode (BDict ?l)) with (chr "d" :: enc_dict l ++ [chr "e"]).
  rewrite zlen_cons, zlen_app, (enc_dict_perm _ _ (sort_entries_perm _ (peer_entries_NoDup announce info))).
  unfold peer_entries. case_bool_decide; cbn [set_if set]; rewrite ?bool_decide_false by done;
    unfold enc_dict; cbn [flat_map fst snd encode]; rewrite !zlen_cons, !zlen_app; change (zlen (enc_str (str "announce"))) with 10;
    change (zlen (enc_str (str "info"))) with 6; change (zlen [chr "e"]) with 1; change (zlen (@nil byte)) with 0; lia.
Qed.

(** Reading it back. *)
Lemma peer_torrent `{B : Bencoder} order announce l meta : BencoderLaws B →
  shape TorrentLimits 1 (BDict l) = true → plain_tree (BDict l) = true → zlen (encode (BDict l)) + zlen announce ≤ 2 ^ 23 - 256 →
  ParseInfo order (encode (BDict l)) = Ok meta →
  ∃ tb, BuildMetainfo (encode (BDict l)) announce = Some tb ∧ Parse order tb = Ok meta ∧ ExtractInfoBytes tb = Ok (encode (BDict l)).
Proof.
  intros HB Hsh Hpl Hz Hp. eexists. split; [by apply BuildMetainfo_run|].
  assert (Hp' : parseInfoMap order l = Ok meta).
  { unfold ParseInfo in Hp. destruct (map_err TInvalid _) as [[]| | |]; simpl_res; try done. by rewrite decode_value_ok in Hp. }
  destruct (read_entries HB order (peer_entries announce (BDict l)) l meta) as (H1 & H2 & _); try done.
  - apply peer_entries_NoDup.
  - unfold peer_entries. apply set_Forall; [auto with weightless|apply set_if_Forall; [auto with weightless|constructor|done]|done].
  - unfold peer_entries, zlen. pose proof (set_le (set_if (bool_decide (announce ≠ [])) [] (str "announce") (BStr announce)) (str "info") (BDict l) 1
      ltac:(by apply (set_if_le _ _ _ _ 0))). lia.
  - apply peer_entries_info.
  - by apply peer_entries_size.
Qed.

(** ** Lemmas: a peer that serves *)

(** The bytes of a peer that has the info dictionary: its handshake with the extension bit, an extended handshake [ext] after up
    to 15 other messages, and the replies, each after up to 63 other messages. *)
Definition metadata_stream (info reserved id : bytes) (early_msgs : list (option Message)) (ext : list (bytes * tree)) (noise : list (list (option Message))) (rest : bytes) : bytes :=
  handshake_bytes reserved (sha1 info) id ++ flat_map frame early_msgs ++ frame (Some (mkMsg MsgExtended (zbyte 0 :: encode (BDict ext))))
  ++ flat_map frame (serve_metadata info 0 noise) ++ rest.

Record metadata_peer (info : bytes) (p : PeerConn) : Prop := {
  mp_state : state p = stateInit;
  mp_size : 0 < zlen info ≤ 16 * 1024 * 1024;
  mp_stream : ∃ reserved id early_msgs ext noise rest exts e, rx p = metadata_stream info reserved id early_msgs ext noise rest
    ∧ length reserved = 8%nat ∧ supports_ext reserved = true ∧ length id = 20%nat
    ∧ Forall early early_msgs ∧ (length early_msgs < 16)%nat
    ∧ NoDup ext.*1 ∧ ext_of ext = Some (exts, zlen info) ∧ exts !! ExtMetadata = Some e
    ∧ Validate (encode (BDict ext)) PeerMessageLimits = Ok tt ∧ readable (Some (mkMsg MsgExtended (zbyte 0 :: encode (BDict ext))))
    ∧ Forall (λ ns, Forall other_message ns ∧ (length ns < 64)%nat) noise ∧ pieces_of (zlen info) (length noise)
    ∧ (length noise ≤ ctx p)%nat ∧ (2 + length noise ≤ writes p)%nat }.

Section peers.
Context {B : Bencoder} (laws : BencoderLaws B) (dial : bytes → option PeerConn).

Lemma metadata_peer_run info peerID p : metadata_peer info p → length peerID = 20%nat →
  ∃ p1 p2, Handshake (sha1 info) peerID p = (Ok tt, p1) ∧ MetadataSize p1 = zlen info ∧ FetchMetadata (sha1 info) p1 = (Ok info, p2).
Proof.
  intros [Hs Hz (reserved & id & ms & ext & noise & rest & exts & e & Hrx & Hr & Hx & Hid & Hms & Hn & Hnd & Hext & He & Hv & Hrd & Hnoise & Hpc & Hc & Hw)] Hp.
  destruct (writes p) as [|[|w]] eqn:Ew; [lia..|].
  rewrite (Handshake_run (sha1 info) peerID p (S w) reserved id _ Hs (length_sha1 info) Hp Ew Hr Hid Hrx), Hx.
  rewrite run_bind, (sendExtendedHandshake_run _ w) by done. rewrite run_bind. unfold readExtendedHandshake.
  rewrite (readExtendedHandshake_run ms (encode (BDict ext)) exts (zlen info) Hms) with (rest := flat_map frame (serve_metadata info 0 noise) ++ rest); try done.
  2:{ apply encode_pos. }
  2:{ by apply decode_ext_ok. }
  match goal with |- context [modify ?f ?x] => set (p1 := f x); exists p1; change (modify f x) with (@Ok perr unit tt, p1) end.
  destruct (FetchMetadata_served info e noise rest p1) as (p2 & E & _); try done; [cbn; lia|]. by exists p2.
Qed.

(** Peers that fail are skipped. *)
Lemma fetch_skips v1Hash peerID bad rest :
  Forall (λ a, fetchMetadataFromPeers dial [a] v1Hash peerID = Err GNoPeerServed) bad →
  fetchMetadataFromPeers dial (bad ++ rest) v1Hash peerID = fetchMetadataFromPeers dial rest v1Hash peerID.
Proof.
  induction 1 as [|a bad Ha Hbad IH]; [done|]. cbn [app fetchMetadataFromPeers] in *. rewrite IH. by repeat case_match.
Qed.
End peers.

Lemma length_GeneratePeerID rand : default 12%nat (length <$> rand) = 12%nat → length (GeneratePeerID rand) = 20%nat.
Proof. destruct rand as [b|]; [|done]. cbn. intros Hb. by rewrite length_map, Hb. Qed.

(** ** The property *)

(** C27. One peer that serves the metadata is enough for [wl get]: when the registry does not have the torrent, the announce returns
    addresses, and one of them is a peer that advertises and serves the info dictionary the magnet link names (with unrelated messages in
    between), while every peer before it cannot be reached or fails, [acquireMetadata] returns the dictionary's metadata; the torrent file
    it builds parses to the same metadata and contains exactly that info dictionary; and it announced that it came and that it left. *)
Theorem metadata_from_peers `{B : Bencoder} order http_get announce dial base url mag rand l meta bad addr others p :
  let info := encode (BDict l) in
  let peerID := GeneratePeerID rand in
  let base_options event := mkOptions (sha1 info) peerID 6881 0 0 0 event in
  BencoderLaws B → default 12%nat (length <$> rand) = 12%nat →
  InfoHashV1 mag = hex_encode (sha1 info) → shape TorrentLimits 1 (BDict l) = true → plain_tree (BDict l) = true →
  zlen info + zlen url ≤ 2 ^ 23 - 256 → ParseInfo order info = Ok meta →
  registry_metadata order http_get base mag = Ok None →
  announce url (base_options EStarted) = Ok (bad ++ addr :: others) →
  Forall (λ a, fetchMetadataFromPeers dial [a] (sha1 info) peerID = Err GNoPeerServed) bad →
  dial addr = Some p → metadata_peer info p →
  ∃ tb, acquireMetadata order http_get announce dial base url mag rand = (Ok (tb, meta), [base_options EStarted; base_options EStopped])
    ∧ Parse order tb = Ok meta ∧ ExtractInfoBytes tb = Ok info.
Proof.
  intros info peerID base_options HB Hrand Hv1 Hsh Hpl Hz Hp Hreg Hann Hbad Hdial Hpeer.
  destruct (peer_torrent order url l meta HB Hsh Hpl Hz Hp) as (tb & Hb & Ht & Hx). fold info in Hb, Hx.
  exists tb. split; [|done]. unfold acquireMetadata. rewrite Hreg, Hv1, bool_decide_false.
  2:{ intros E. apply (f_equal length) in E. rewrite length_hex_encode, length_sha1 in E. done. }
  rewrite hex_decode_encode, length_sha1. cbn [Nat.eqb negb]. fold peerID. cbv zeta. unfold base_options in Hann at 1. rewrite Hann.
  rewrite bool_decide_false by (by destruct bad). rewrite fetch_skips by done. cbn [fetchMetadataFromPeers]. rewrite Hdial.
  destruct (metadata_peer_run HB info peerID p Hpeer (length_GeneratePeerID rand Hrand)) as (p1 & p2 & H1 & H2 & H3).
  rewrite H1, H2. destruct Hpeer as [_ Hsz _]. rewrite (proj2 (Z.leb_gt _ _)) by lia. rewrite H3. simpl_res. rewrite Hp. cbn [map_err]. simpl_res. by rewrite Hb.
Qed.

(** ** Sample *)

(** The registry answers 404; the first address cannot be reached, the second peer has another torrent, the third serves after some
    unrelated messages. *)
Module SamplePeers.
Definition entries : list (bytes * tree) := SampleDownloadMVP.info.
Definition info : bytes := encode (BDict entries).
Definition url : bytes := str "http://t/announce".
Definition mag : Magnet := mkMagnet (hex_encode (sha1 info)) [] [] [url].
Definition registry (u : bytes) : option (Z * option bytes) := Some (404, Some (str "torrent not found")).
Definition tracker (u : bytes) (a : AnnounceOptions) : result cerr (list bytes) := Ok [str "10.0.0.1:1"; str "10.0.0.2:2"; str "10.0.0.3:3"; str "10.0.0.4:4"].
Definition reserved : bytes := [zbyte 0; zbyte 0; zbyte 0; zbyte 0; zbyte 0; zbyte 16; zbyte 0; zbyte 0].
Definition early_msgs : list (option Message) := [Some (mkMsg MsgBitfield [Byte.xc0]); None].
Definition ext : list (bytes * tree) := [(str "m", BDict [(str "ut_metadata", BInt 7)]); (str "metadata_size", BInt (zlen info))].
Definition noise : list (list (option Message)) := [[Some (mkMsg MsgUnchoke [])]].
Definition good : PeerConn := Connect (metadata_stream info reserved (str "-XX0001-111111111111") early_msgs ext noise (str "more")) 5 5.
Definition other : PeerConn := Connect (handshake_bytes reserved (zeros 20) (str "-XX0001-222222222222")) 5 5.
Definition dial (a : bytes) : option PeerConn :=
  if bool_decide (a = str "10.0.0.2:2") then Some other else if bool_decide (a = str "10.0.0.3:3") then Some good else None.
Definition meta : TorrentMeta :=
  match @ParseInfo ref_codec id info with Ok m => m | _ => SampleDownloadMVP.meta end.

Lemma sent_early : Forall early early_msgs.
Proof.
  unfold early_msgs. repeat (apply Forall_cons; split); try apply Forall_nil_2;
    (split; [first [exact I|vm_compute; congruence]|]; intros x E; first [discriminate E|injection E as <-; discriminate]).
Qed.
Lemma sent_between : Forall (λ ns, Forall other_message ns ∧ (length ns < 64)%nat) noise.
Proof.
  repeat constructor; [vm_compute; congruence|]. intros x E. injection E as <-. discriminate.
Qed.

Lemma good_serves : metadata_peer info good.
Proof.
  split; [reflexivity|vm_compute; split; congruence|].
  exists reserved, (str "-XX0001-111111111111"), early_msgs, ext, noise, (str "more"), {[str "ut_metadata" := 7]}, 7.
  split; [reflexivity|]. split; [reflexivity|]. split; [vm_compute; reflexivity|]. split; [reflexivity|]. split; [exact sent_early|].
  split; [cbn; lia|]. split; [decide_now|]. split; [reflexivity|]. split; [reflexivity|]. split; [vm_compute; reflexivity|].
  split; [vm_compute; congruence|]. split; [exact sent_between|]. split; [split; vm_compute; congruence|]. split; cbn; lia.
Qed.
End SamplePeers.

Lemma metadata_from_peers_witness :
  let peerID := GeneratePeerID None in
  let base_options event := mkOptions (sha1 SamplePeers.info) peerID 6881 0 0 0 event in
  PieceCount SamplePeers.meta = 2
  ∧ ∃ tb, @acquireMetadata ref_codec id SamplePeers.registry SamplePeers.tracker SamplePeers.dial (str "http://t") SamplePeers.url SamplePeers.mag None
      = (Ok (tb, SamplePeers.meta), [base_options EStarted; base_options EStopped])
    ∧ @Parse ref_codec id tb = Ok SamplePeers.meta ∧ @ExtractInfoBytes ref_codec tb = Ok SamplePeers.info.
Proof.
  intros peerID base_options. split; [vm_compute; reflexivity|].
  apply (@metadata_from_peers ref_codec id SamplePeers.registry SamplePeers.tracker SamplePeers.dial (str "http://t") SamplePeers.url SamplePeers.mag None
    SamplePeers.entries SamplePeers.meta [str "10.0.0.1:1"; str "10.0.0.2:2"] (str "10.0.0.3:3") [str "10.0.0.4:4"] SamplePeers.good).
  - exact ref_codec_laws.
  - reflexivity.
  - reflexivity.
  - vm_compute. reflexivity.
  - vm_compute. reflexivity.
  - vm_compute. congruence.
  - vm_compute. reflexivity.
  - vm_compute. reflexivity.
  - reflexivity.
  - repeat constructor; vm_compute; reflexivity.
  - reflexivity.
  - exact SamplePeers.good_serves.
Defined.
