(* ===== verification/Process.v ===== *)
(** * The tracker's process

    Models [main] of [cmd/tracker/main.go]: the goroutine of the tickers, the one of the shutdown signal and [main] itself, over the state the
    handlers share.  A step is what one of them does between two points where another may run: [FlushToDB] is its snapshot
    and its transaction, [FlushUsers] and [DrainBacklog] are the steps of [UsageSync], which each of the two goroutines can take.

    The theorems: the two never flush at the same time, so that the process is a run of [UsageSync] and accounts for its usage as
    that does; what is still in memory when it ends is lost, and that is nothing after a graceful shutdown whose last batch was
    acknowledged or backed up; and when it has ended after a graceful shutdown whose transaction succeeded, the database has exactly
    the peers that were in memory. *)

From S2P Require Import Prelude Bencode TrackerState UsageSync.
From Stdlib Require Import ZArith Lia.
Local Open Scope Z_scope.

(** ** State *)

(** The three calls of a flush, in order; a call of the usage sync that has posted is [true]. *)
Inductive stage := Snapshot | WriteDB (snap : SwarmState) | UsersCall (posted : bool) | DrainCall (posted : bool).

Inductive Ticker := TWait | TFlush (g : stage) | TStopped.
(** The signal goroutine: waiting, joining the ticker, closing listeners, waiting for the handlers, flushing, done. *)
Inductive Signal := SWait | SJoin | SClose | SDrain | SFlush (g : stage) | SDone.
Inductive Main := MServe | MJoin | MExit | MFatal.

Record Process := mkProc {
  shared : SwarmState; backlog_of : list BacklogRow; tracked_of : list (bytes * UserUsage); acked_of : list batch;
  repeats_of : list (bytes * UserUsage);
  disk : peer_table;
  ticker : Ticker; tpc : Pc;
  signal : Signal; spc : Pc;
  main : Main;
  accepting : bool; handlers : nat;
  graceful : bool;                      (* ghost: [srv.Shutdown] returned nil *)
  saved : option TxOutcome;             (* ghost: how the transaction of the final flush went *)
  usage_settled : bool }.               (* ghost: the final [FlushUsers] had its batch acknowledged or backed up, or nothing to send *)

Definition start : Process := mkProc emptyState [] [] [] [] ∅ TWait Idle SWait Idle MServe true 0 false None false.

(** What the goroutines of a flush see of the state. *)
Definition sys_of (p : Pc) (σ : Process) : Sys := mkSys (shared σ) (backlog_of σ) p (tracked_of σ) (acked_of σ) (repeats_of σ).
Definition with_sys (s : Sys) (σ : Process) : Process :=
  mkProc (st s) (backlog s) (tracked s) (acked s) (repeats s) (disk σ) (ticker σ) (tpc σ) (signal σ) (spc σ) (main σ) (accepting σ) (handlers σ) (graceful σ) (saved σ) (usage_settled σ).
Definition with_ticker (g : Ticker) (p : Pc) (σ : Process) : Process :=
  mkProc (shared σ) (backlog_of σ) (tracked_of σ) (acked_of σ) (repeats_of σ) (disk σ) g p (signal σ) (spc σ) (main σ) (accepting σ) (handlers σ) (graceful σ) (saved σ) (usage_settled σ).
Definition with_signal (g : Signal) (p : Pc) (σ : Process) : Process :=
  mkProc (shared σ) (backlog_of σ) (tracked_of σ) (acked_of σ) (repeats_of σ) (disk σ) (ticker σ) (tpc σ) g p (main σ) (accepting σ) (handlers σ) (graceful σ) (saved σ) (usage_settled σ).
Definition with_main (m : Main) (σ : Process) : Process :=
  mkProc (shared σ) (backlog_of σ) (tracked_of σ) (acked_of σ) (repeats_of σ) (disk σ) (ticker σ) (tpc σ) (signal σ) (spc σ) m (accepting σ) (handlers σ) (graceful σ) (saved σ) (usage_settled σ).
Definition with_disk (t : peer_table) (σ : Process) : Process :=
  mkProc (shared σ) (backlog_of σ) (tracked_of σ) (acked_of σ) (repeats_of σ) t (ticker σ) (tpc σ) (signal σ) (spc σ) (main σ) (accepting σ) (handlers σ) (graceful σ) (saved σ) (usage_settled σ).
Definition with_server (acc : bool) (n : nat) (σ : Process) : Process :=
  mkProc (shared σ) (backlog_of σ) (tracked_of σ) (acked_of σ) (repeats_of σ) (disk σ) (ticker σ) (tpc σ) (signal σ) (spc σ) (main σ) acc n (graceful σ) (saved σ) (usage_settled σ).
Definition with_ghosts (g : bool) (s : option TxOutcome) (u : bool) (σ : Process) : Process :=
  mkProc (shared σ) (backlog_of σ) (tracked_of σ) (acked_of σ) (repeats_of σ) (disk σ) (ticker σ) (tpc σ) (signal σ) (spc σ) (main σ) (accepting σ) (handlers σ) g s u.

(** ** Steps *)

Section steps.
Context (hubURL : bytes).

(** [FlushToDB(); FlushUsers(); DrainBacklog()]: one step of the goroutine that runs them, at its stage and program counter;
    [None] when it is through, and the transaction if it was one.  The calls that post nothing return at once. *)
Inductive flush_step (σ : Process) : stage → Pc → option stage → Pc → option TxOutcome → Process → Prop :=
| f_snapshot : flush_step σ Snapshot Idle (Some (WriteDB (shared σ))) Idle None σ
| f_write snap tx : flush_step σ (WriteDB snap) Idle (Some (UsersCall false)) Idle (Some tx) (with_disk (FlushToDB tx snap (disk σ)) σ)
| f_users_none : flush_snapshot hubURL (shared σ) = None → flush_step σ (UsersCall false) Idle (Some (DrainCall false)) Idle None σ
| f_users_post sent s : s = sys_of (FlushPosted sent) σ → step hubURL (sys_of Idle σ) s →
    flush_step σ (UsersCall false) Idle (Some (UsersCall true)) (FlushPosted sent) None σ
| f_users_step p s : p ≠ Idle → pc s ≠ p → step hubURL (sys_of p σ) s → flush_step σ (UsersCall true) p (Some (UsersCall true)) (pc s) None (with_sys s σ)
| f_users_done : flush_step σ (UsersCall true) Idle (Some (DrainCall false)) Idle None σ
| f_drain_none : flush_step σ (DrainCall false) Idle None Idle None σ     (* no Hub, no rows, or no database *)
| f_drain_post recs s : s = sys_of (DrainPosted recs) σ → step hubURL (sys_of Idle σ) s →
    flush_step σ (DrainCall false) Idle (Some (DrainCall true)) (DrainPosted recs) None σ
| f_drain_step p s : p ≠ Idle → pc s ≠ p → step hubURL (sys_of p σ) s → flush_step σ (DrainCall true) p (Some (DrainCall true)) (pc s) None (with_sys s σ)
| f_drain_done : flush_step σ (DrainCall true) Idle None Idle None σ.

(** A final [FlushUsers] settles the usage when it comes to subtract its batch, or finds no users. *)
Definition settles (σ : Process) (g : stage) (p : Pc) : bool :=
  match g, p with
  | UsersCall false, _ => bool_decide (Users (shared σ) = ∅)
  | UsersCall true, FlushSettled _ => true
  | _, _ => false
  end.

Definition alive (σ : Process) : Prop := main σ = MServe ∨ main σ = MJoin.

(** [done] is closed when the signal goroutine joins the ticker. *)
Inductive pstep : Process → Process → Prop :=
| p_accept σ : alive σ → accepting σ = true → pstep σ (with_server true (S (handlers σ)) σ)
| p_track n user up down σ : alive σ → handlers σ = S n →
    pstep σ (with_sys (mkSys (TrackUsage user up down (shared σ)) (backlog_of σ) Idle ((user, mkUsage up down) :: tracked_of σ) (acked_of σ) (repeats_of σ)) σ)
| p_peers n s σ : alive σ → handlers σ = S n → Users s = Users (shared σ) →
    pstep σ (with_sys (mkSys s (backlog_of σ) Idle (tracked_of σ) (acked_of σ) (repeats_of σ)) σ)
| p_takedown n hash σ : alive σ → handlers σ = S n → pstep σ (with_disk (filter (λ kv, kv.1.1 ≠ hash) (disk σ)) σ)
| p_reply n σ : alive σ → handlers σ = S n → pstep σ (with_server (accepting σ) n σ)
| p_tick σ : alive σ → ticker σ = TWait → pstep σ (with_ticker (TFlush Snapshot) Idle σ)
| p_prune now σ : alive σ → ticker σ = TWait →
    pstep σ (with_sys (mkSys (PruneMemory now (shared σ)) (backlog_of σ) Idle (tracked_of σ) (acked_of σ) (repeats_of σ)) σ)
| p_ticker g g' p tx σ σ' : alive σ → ticker σ = TFlush g → flush_step σ g (tpc σ) g' p tx σ' →
    pstep σ (with_ticker (match g' with Some g' => TFlush g' | None => TWait end) p σ')
| p_stop σ : alive σ → ticker σ = TWait → signal σ = SJoin → pstep σ (with_ticker TStopped Idle σ)
| p_signal σ : alive σ → signal σ = SWait → pstep σ (with_signal SJoin Idle σ)
| p_joined σ : alive σ → signal σ = SJoin → ticker σ = TStopped → pstep σ (with_signal SClose Idle σ)
| p_close σ : alive σ → signal σ = SClose → pstep σ (with_signal SDrain Idle (with_server false (handlers σ) σ))
| p_idle σ : alive σ → signal σ = SDrain → handlers σ = O → pstep σ (with_signal (SFlush Snapshot) Idle (with_ghosts true None false σ))
| p_timeout σ : alive σ → signal σ = SDrain → pstep σ (with_signal (SFlush Snapshot) Idle (with_ghosts false None false σ))
| p_final g g' p tx σ σ' : alive σ → signal σ = SFlush g → flush_step σ g (spc σ) g' p tx σ' →
    pstep σ (with_signal (match g' with Some g' => SFlush g' | None => SDone end) p
      (with_ghosts (graceful σ') (match tx with Some _ => tx | None => saved σ' end) (usage_settled σ' || settles σ g (spc σ)) σ'))
| p_closed σ : main σ = MServe → accepting σ = false → pstep σ (with_main MJoin σ)
| p_fatal σ : main σ = MServe → accepting σ = true → pstep σ (with_main MFatal σ)
| p_exit σ : main σ = MJoin → signal σ = SDone → pstep σ (with_main MExit σ).

End steps.

(** ** Lemmas: who flushes *)

(** The program counter of the goroutine that may flush. *)
Definition active (σ : Process) : Pc := match signal σ with SFlush _ => spc σ | _ => tpc σ end.

Definition flushing (g : Signal) : bool := match g with SWait | SJoin => false | _ => true end.

Record exclusive (σ : Process) : Prop := {
  x_ticker : (∀ g, ticker σ ≠ TFlush g) → tpc σ = Idle;
  x_signal : (∀ g, signal σ ≠ SFlush g) → spc σ = Idle;
  x_joined : flushing (signal σ) = true → ticker σ = TStopped }.

(** Everything but the shared state. *)
Definition same_control (σ σ' : Process) : Prop :=
  ticker σ' = ticker σ ∧ tpc σ' = tpc σ ∧ signal σ' = signal σ ∧ spc σ' = spc σ ∧ main σ' = main σ ∧ accepting σ' = accepting σ
  ∧ handlers σ' = handlers σ ∧ graceful σ' = graceful σ ∧ saved σ' = saved σ ∧ usage_settled σ' = usage_settled σ.

Section lemmas.
Context (hubURL : bytes).

(** The steps of a flush do not touch the peers. *)
Lemma step_peers s s' : step hubURL s s' → pc s' ≠ pc s → Peers (st s') = Peers (st s).
Proof. destruct 1; cbn; done. Qed.

Lemma flush_step_sys σ g p g' p' tx σ' : flush_step hubURL σ g p g' p' tx σ' →
  rtc (step hubURL) (sys_of p σ) (sys_of p' σ') ∧ same_control σ σ' ∧ Peers (shared σ') = Peers (shared σ) ∧ (g' = None → p' = Idle).
Proof.
  assert (K : ∀ s, sys_of (pc s) (with_sys s σ) = s) by (by intros []).
  destruct 1 as [| |Hn|sent s -> Hs|p s Hp Hne Hs| | |recs s -> Hs|p s Hp Hne Hs|]; (split_and!; [|done|try done|done]); try done; rewrite ?K;
    first [by apply rtc_once | by apply (step_peers _ _ Hs)].
Qed.

Lemma flush_step_control σ g p g' p' tx σ' : flush_step hubURL σ g p g' p' tx σ' → same_control σ σ'.
Proof. intros H. by apply flush_step_sys in H as (_ & ? & _). Qed.

Lemma pstep_exclusive σ σ' : pstep hubURL σ σ' → exclusive σ → exclusive σ'.
Proof.
  intros H [X1 X2 X3].
  destruct H as [σ Ha Hac|n user up down σ Ha Hh|n s σ Ha Hh Hu|n hash σ Ha Hh|n σ Ha Hh|σ Ha Ht|now σ Ha Ht|g g' p tx σ σ' Ha Ht Hf|σ Ha Ht Hs|σ Ha Hs|σ Ha Hs Ht
    |σ Ha Hs|σ Ha Hs Hh|σ Ha Hs|g g' p tx σ σ' Ha Hs Hf|σ Hm Hac|σ Hm Hac|σ Hm Hs]; try (by constructor).
  - constructor; cbn; [intros Hn; by destruct (Hn Snapshot)|done|]. intros F. by rewrite (X3 F) in Ht.
  - pose proof (flush_step_sys _ _ _ _ _ _ _ Hf) as (_ & (C1 & C2 & C3 & C4 & _) & _ & Hd). constructor; cbn.
    + destruct g'; [intros Hn; by destruct (Hn s)|by intros _; apply Hd].
    + by rewrite C3, C4.
    + rewrite C3. intros F. by rewrite (X3 F) in Ht.
  - constructor; cbn; [done|done|]. intros _. apply X3. by rewrite Hs.
  - constructor; cbn; [done|intros Hn; by destruct (Hn Snapshot)|]. intros _. apply X3. by rewrite Hs.
  - constructor; cbn; [done|intros Hn; by destruct (Hn Snapshot)|]. intros _. apply X3. by rewrite Hs.
  - pose proof (flush_step_sys _ _ _ _ _ _ _ Hf) as (_ & (C1 & C2 & C3 & C4 & _) & _ & Hd).
    assert (Htk : ticker σ = TStopped) by (apply X3; by rewrite Hs).
    constructor; cbn; destruct tx; cbn; rewrite ?C1, ?C2; try done; (destruct g'; [intros Hn; by destruct (Hn s)|by intros _; apply Hd]).
Qed.

(** [main] returns only after the signal goroutine has ended. *)
Lemma exited σ : rtc (pstep hubURL) start σ → main σ = MExit → signal σ = SDone.
Proof.
  intros H. apply (rtc_ind_r (R := pstep hubURL) (λ σ, main σ = MExit → signal σ = SDone) start); [done| |exact H].
  intros σ1 σ2 _ Hs _. assert (K : ∀ τ, alive τ → main τ = MExit → False) by (intros τ [E|E]; by rewrite E).
  destruct Hs; cbn; try done; try (intros E; match goal with A : alive ?τ |- _ => by destruct (K τ A E) end).
  all: match goal with F : flush_step _ _ _ _ _ _ _ _ |- _ => apply flush_step_control in F as (_ & _ & _ & _ & C & _) end;
    rewrite C; intros E; match goal with A : alive ?τ |- _ => by destruct (K τ A E) end.
Qed.

(** ** Lemmas: the process refines the usage sync *)

Definition abs (σ : Process) : Sys := sys_of (active σ) σ.

Lemma other_step p s σ : Users s = Users (shared σ) →
  rtc (step hubURL) (sys_of p σ) (mkSys s (backlog_of σ) p (tracked_of σ) (acked_of σ) (repeats_of σ)).
Proof. intros Hu. apply rtc_once. by apply (step_other hubURL s (sys_of p σ)). Qed.

Lemma pstep_refines σ σ' : pstep hubURL σ σ' → exclusive σ → rtc (step hubURL) (abs σ) (abs σ').
Proof.
  intros H [X1 X2 X3]. unfold abs, active.
  destruct H as [σ Ha Hac|n user up down σ Ha Hh|n s σ Ha Hh Hu|n hash σ Ha Hh|n σ Ha Hh|σ Ha Ht|now σ Ha Ht|g g' p tx σ σ' Ha Ht Hf|σ Ha Ht Hs|σ Ha Hs|σ Ha Hs Ht
    |σ Ha Hs|σ Ha Hs Hh|σ Ha Hs|g g' p tx σ σ' Ha Hs Hf|σ Hm Hac|σ Hm Hac|σ Hm Hs]; try done;
    try (cbn [signal with_signal with_sys with_ticker with_server with_ghosts tpc spc sys_of shared backlog_of tracked_of acked_of] in * ).
  - apply rtc_once. apply (step_track hubURL user up down (sys_of _ σ)).
  - exact (other_step _ s σ Hu).
  - rewrite X1 by (intros g; by rewrite Ht). destruct (signal σ) eqn:Es; try done; by rewrite Ht in X3; specialize (X3 eq_refl).
  - exact (other_step _ (PruneMemory now (shared σ)) σ eq_refl).
  - pose proof (flush_step_sys _ _ _ _ _ _ _ Hf) as (Hr & (C1 & C2 & C3 & C4 & _) & _ & Hd). rewrite C3.
    destruct (signal σ) eqn:Es; try (exfalso; specialize (X3 eq_refl); congruence); exact Hr.
  - rewrite X1 by (intros g; by rewrite Ht). by rewrite Hs.
  - by rewrite Hs.
  - by rewrite Hs.
  - by rewrite Hs.
  - rewrite Hs. rewrite X1; [done|]. intros g E. rewrite Hs in X3. by rewrite X3 in E.
  - rewrite Hs. rewrite X1; [done|]. intros g E. rewrite Hs in X3. by rewrite X3 in E.
  - pose proof (flush_step_sys _ _ _ _ _ _ _ Hf) as (Hr & (C1 & C2 & C3 & C4 & _) & _ & Hd). rewrite Hs.
    assert (Hid : tpc σ' = Idle). { rewrite C2. apply X1. intros g0 E. rewrite Hs in X3. by rewrite X3 in E. }
    destruct g' as [g'|]; [by destruct tx|]. rewrite (Hd eq_refl) in Hr. destruct tx; cbn; by rewrite Hid.
Qed.

Lemma reachable_process σ : rtc (pstep hubURL) start σ → exclusive σ ∧ reachable hubURL (abs σ).
Proof.
  assert (G : ∀ σ0 σ1, rtc (pstep hubURL) σ0 σ1 → exclusive σ0 → exclusive σ1 ∧ rtc (step hubURL) (abs σ0) (abs σ1)).
  { induction 1 as [|σ0 σ1 σ2 H _ IH]; intros X; [done|]. destruct (IH (pstep_exclusive _ _ H X)) as [X2 R]. split; [done|].
    etrans; [by apply pstep_refines|done]. }
  intros H. apply (G start σ H). by constructor.
Qed.

(** ** Lemmas: the last flush *)

Definition closed (g : Signal) : bool := match g with SDrain | SFlush _ | SDone => true | _ => false end.

(** After a graceful shutdown nothing changes the peers any more; after its transaction, they are on disk. *)
Record quiet (σ : Process) : Prop := {
  q_closed : closed (signal σ) = true → accepting σ = false;
  q_graceful : graceful σ = true → handlers σ = 0%nat ∧ closed (signal σ) = true ∧ signal σ ≠ SDrain;
  q_snap : ∀ snap, graceful σ = true → signal σ = SFlush (WriteDB snap) → Peers snap = Peers (shared σ);
  q_saved : ∀ tx, graceful σ = true → saved σ = Some tx → tx_ok tx → disk σ = view (shared σ);
  q_sent : graceful σ = true → signal σ = SFlush (UsersCall true) →
    match spc σ with FlushPosted sent | FlushSettled sent => Users (shared σ) = sent | _ => True end;
  q_settled : graceful σ = true → usage_settled σ = true → Users (shared σ) = ∅ }.


(** Before the listeners are closed, or with a handler running, the shutdown has not been graceful yet. *)
Lemma not_graceful σ : quiet σ → closed (signal σ) = false ∨ accepting σ = true ∨ handlers σ ≠ 0%nat → graceful σ = false.
Proof.
  intros [Q1 Q2 _ _ _ _] H. destruct (graceful σ); [|done]. destruct (Q2 eq_refl) as (H1 & H2 & _). rewrite H2 in H, Q1. specialize (Q1 eq_refl).
  destruct H as [|[|]]; congruence.
Qed.

Lemma quiet_ungraceful σ : graceful σ = false → (closed (signal σ) = true → accepting σ = false) → quiet σ.
Proof. intros Hg Hc. constructor; [done|..]; intros; congruence. Qed.

Lemma view_peers s s' : Peers s = Peers s' → view s = view s'.
Proof. unfold view. by intros ->. Qed.

Lemma flush_step_disk σ g p g' p' tx σ' : flush_step hubURL σ g p g' p' tx σ' →
  (tx = None ∧ disk σ' = disk σ ∧ ∀ snap, g' = Some (WriteDB snap) → Peers snap = Peers (shared σ'))
  ∨ ∃ snap tx0, tx = Some tx0 ∧ g = WriteDB snap ∧ g' = Some (UsersCall false) ∧ disk σ' = FlushToDB tx0 snap (disk σ).
Proof. destruct 1; [left|right; eauto 10|left..]; (split_and!; [done|done|]); intros snap E; by inversion E. Qed.

(** The batch in flight is what is in memory, as no announce runs any more. *)
Definition batch_is_all (σ : Process) (g : stage) (p : Pc) : Prop :=
  g = UsersCall true → match p with FlushPosted sent | FlushSettled sent => Users (shared σ) = sent | _ => True end.

Lemma flush_step_users σ g p g' p' tx σ' : flush_step hubURL σ g p g' p' tx σ' → batch_is_all σ g p →
  (∀ g1, g' = Some g1 → batch_is_all σ' g1 p') ∧ (settles σ g p = true → Users (shared σ') = ∅) ∧ (Users (shared σ) = ∅ → Users (shared σ') = ∅).
Proof.
  intros H B. unfold batch_is_all in *.
  destruct H as [| |Hn|sent s -> Hs|p s Hp Hne Hs| | |recs s -> Hs|p s Hp Hne Hs|];
    try (split_and!; [by intros ? [= <-]|cbn; try done; by intros ?%bool_decide_eq_true|done]); try done.
  - inversion Hs as [| |sent' s t tr ac rp Hf| | | | | | | | |]; subst. unfold flush_snapshot in Hf. repeat case_bool_decide; simplify_eq.
    split_and!; [by intros ? [= <-]|cbn; by intros ?%bool_decide_eq_true|done].
  - specialize (B eq_refl). inversion Hs; subst; try done; cbn in *.
    all: try (split_and!; [by intros ? [= <-]|done|done]).
    split_and!; [by intros ? [= <-]|intros _|]; [apply subtract_all; by rewrite B|apply subtract_empty].
  - inversion Hs; subst; try done; cbn in *; (split_and!; [by intros ? [= <-]|done|try done]). apply subtract_empty.
Qed.

Lemma final_quiet σ g g' p tx σ' : quiet σ → signal σ = SFlush g → flush_step hubURL σ g (spc σ) g' p tx σ' →
  quiet (with_signal (match g' with Some g' => SFlush g' | None => SDone end) p
    (with_ghosts (graceful σ') (match tx with Some _ => tx | None => saved σ' end) (usage_settled σ' || settles σ g (spc σ)) σ')).
Proof.
  intros [Q1 Q2 Q3 Q4 Q5 Q6] Hs Hf. pose proof (flush_step_sys _ _ _ _ _ _ _ Hf) as (_ & (_ & _ & _ & _ & _ & C6 & C7 & C8 & C9 & C10) & Hp & _).
  pose proof (flush_step_disk _ _ _ _ _ _ _ Hf) as Hd. rewrite Hs in Q1, Q2.
  pose proof (flush_step_users _ _ _ _ _ _ _ Hf) as Hu.
  constructor; cbn; rewrite ?C6, ?C7, ?C8, ?C9, ?C10.
  - intros _. by apply Q1.
  - intros G. destruct (Q2 G) as (H1 & _). split_and!; [done|by destruct g'|by destruct g'].
  - intros snap Hg E. destruct Hd as [(-> & _ & Hsn)|(s0 & t0 & -> & _ & -> & _)]; [|done]. cbn. apply Hsn. destruct g'; [by injection E as ->|done].
  - intros t Hg E Hok. destruct Hd as [(-> & Hdk & _)|(s0 & t0 & -> & -> & _ & Hdk)]; cbn in *; rewrite Hdk.
    + rewrite (view_peers _ _ Hp). by apply (Q4 t).
    + injection E as ->. rewrite flush_ok by done. apply view_peers. rewrite Hp. by apply Q3.
  - intros Hg E. destruct Hu as (U1 & _); [intros ->; by apply Q5|]. destruct g' as [g1|]; [|done]. injection E as ->. exact (U1 _ eq_refl eq_refl).
  - intros Hg. destruct Hu as (_ & U2 & U3); [intros ->; by apply Q5|]. intros [E|E]%orb_true_iff; [by apply U3, Q6|by apply U2].
Qed.

Lemma pstep_quiet σ σ' : pstep hubURL σ σ' → exclusive σ → quiet σ → quiet σ'.
Proof.
  intros H X Q. pose proof Q as [Q1 Q2 Q3 Q4 Q5 Q6]. pose proof (not_graceful σ Q) as NG.
  destruct H as [σ Ha Hac|n user up down σ Ha Hh|n s σ Ha Hh Hu|n hash σ Ha Hh|n σ Ha Hh|σ Ha Ht|now σ Ha Ht|g g' p tx σ σ' Ha Ht Hf|σ Ha Ht Hs|σ Ha Hs|σ Ha Hs Ht
    |σ Ha Hs|σ Ha Hs Hh|σ Ha Hs|g g' p tx σ σ' Ha Hs Hf|σ Hm Hac|σ Hm Hac|σ Hm Hs].
  1-5: apply quiet_ungraceful; cbn; [apply NG; rewrite ?Hh; auto|try done; intros Hc; rewrite (Q1 Hc) in *; done].
  1-4: assert (Hnc : closed (signal σ) = false) by
    (destruct (signal σ) eqn:Es; try done; exfalso; assert (F : ticker σ = TStopped) by (apply (x_joined _ X); by rewrite Es); congruence).
  1-2, 4: apply quiet_ungraceful; cbn; [apply NG; auto|done].
  - pose proof (flush_step_control _ _ _ _ _ _ _ Hf) as (_ & _ & C3 & _ & _ & C6 & _ & C8 & _).
    apply quiet_ungraceful; cbn; rewrite ?C3, ?C6, ?C8; [apply NG; auto|done].
  - apply quiet_ungraceful; cbn; [apply NG; rewrite Hs; auto|done].
  - apply quiet_ungraceful; cbn; [apply NG; rewrite Hs; auto|done].
  - apply quiet_ungraceful; cbn; [apply NG; rewrite Hs; auto|done].
  - constructor; cbn; try done. intros _. apply Q1. by rewrite Hs.
  - apply quiet_ungraceful; cbn; [done|]. intros _. apply Q1. by rewrite Hs.
  - by eapply final_quiet.
  - by constructor.
  - by constructor.
  - by constructor.
Qed.

Lemma reachable_quiet σ : rtc (pstep hubURL) start σ → quiet σ.
Proof.
  assert (G : ∀ σ0 σ1, rtc (pstep hubURL) σ0 σ1 → exclusive σ0 → quiet σ0 → quiet σ1).
  { induction 1 as [|σ0 σ1 σ2 H _ IH]; intros X Q; [done|]. apply IH; [by eapply pstep_exclusive|by eapply pstep_quiet]. }
  intros H. apply (G start σ H); by constructor.
Qed.
End lemmas.

(** ** Properties *)

(** C3. The flushes of the process never overlap: the shutdown's runs only once the ticker's goroutine has ended, so that the process, with
    its two flushing goroutines, its handlers and its pruning in any interleaving, refines the usage sync of one flusher; in
    every state it reaches what is in memory, in the backlog and at the Hub is the usage tracked, with the batch being settled and
    what a lost reply or a failed deletion leaves to be reported again.  Once [main] has returned, what is durable, the backlog and the Hub, is
    that less what was still in memory, which is lost with the process; after a graceful shutdown whose final [FlushUsers] had its batch
    acknowledged or backed up nothing was still in memory, and no usage is lost. *)
Theorem process_exact hub σ : rtc (pstep hub) start σ →
  (∀ g g', ¬ (ticker σ = TFlush g ∧ signal σ = SFlush g'))
  ∧ reachable hub (abs σ) ∧ conserved (abs σ)
  ∧ (main σ = MExit → ∀ c user,
       backlog_total c user (backlog_of σ) + acked_total c user (acked_of σ)
       ≡₆₄ sum_for c user (tracked_of σ) + sum_for c user (repeats_of σ) - usage_of c (Users (shared σ)) user)
  ∧ (main σ = MExit → graceful σ = true → usage_settled σ = true → Users (shared σ) = ∅ ∧ ∀ c user,
       backlog_total c user (backlog_of σ) + acked_total c user (acked_of σ)
       ≡₆₄ sum_for c user (tracked_of σ) + sum_for c user (repeats_of σ)).
Proof.
  intros H. destruct (reachable_process hub σ H) as [X R]. pose proof (inv_reachable hub (abs σ) R) as (_ & _ & C).
  assert (D : main σ = MExit → ∀ c user, backlog_total c user (backlog_of σ) + acked_total c user (acked_of σ)
    ≡₆₄ sum_for c user (tracked_of σ) + sum_for c user (repeats_of σ) - usage_of c (Users (shared σ)) user).
  { intros Hm c user. pose proof (exited hub σ H Hm) as Hs. specialize (C c user). unfold abs, active in C. rewrite Hs in C.
    rewrite (x_ticker _ X) in C; [apply (eqm_by _ _ _ _ C); cbn [sys_of st backlog pc tracked acked repeats in_transit]; lia|]. intros g E. pose proof (x_joined _ X) as J. rewrite Hs in J. specialize (J eq_refl). congruence. }
  split_and!; [|done|done|done|].
  - intros g g' [Ht Hs]. pose proof (x_joined _ X) as J. rewrite Hs in J. specialize (J eq_refl). congruence.
  - intros Hm Hg Hu. pose proof (q_settled _ (reachable_quiet hub σ H) Hg Hu) as E. split; [done|]. intros c user.
    apply (eqm_by _ _ _ _ (D Hm c user)). rewrite E. change (usage_of c ∅ user) with 0. lia.
Qed.

(** C25. A graceful shutdown saves the swarm: when [srv.Shutdown] returned without an error and the transaction of the final flush succeeded,
    the peers table has, once the flush is written and until the process has ended, exactly the peers in memory: every
    announce that was answered, and nothing else, whatever the handlers and the ticker were doing when the signal came. *)
Theorem shutdown_saves hub σ tx : rtc (pstep hub) start σ → graceful σ = true → saved σ = Some tx → tx_ok tx →
  disk σ = view (shared σ) ∧ handlers σ = 0%nat ∧ accepting σ = false.
Proof.
  intros H Hg Hs Ht. pose proof (reachable_quiet hub σ H) as [Q1 Q2 _ Q4 _ _]. destruct (Q2 Hg) as (H1 & H2 & _). split_and!; [by apply (Q4 tx)|done|by apply Q1].
Qed.

(** ** Sample *)

(** A peer joins and uploads; the signal comes while the ticker flushes; the Hub cannot be reached, or rejects the last batch. *)
Module SampleProcess.
Definition hub : bytes := str "http://hub".
Definition tx : TxOutcome := mkTx true true true (λ _ _, true) true.
Definition alice : bytes := str "alice".
Definition used : SwarmState := TrackUsage alice 10 0 emptyState.
Definition joined : SwarmState := UpdatePeer (str "h") (str "p") (mkPeer (str "a:1") 0 0 10 0) used.
Definition no_backup : BackupOutcome := mkBackup false true (λ _, true) true.
Definition backup : BackupOutcome := mkBackup true true (λ _, true) true.
Definition sent : list (bytes * UserUsage) := [(alice, mkUsage 10 0)].
Definition rows : list BacklogRow := [mkRow 1 alice (mkUsage 10 0) 0].

(** Each step's state is written out as a record. *)
Ltac norm := lazymatch goal with |- rtc _ ?x _ =>
  let y := eval cbv [start sys_of with_sys with_ticker with_signal with_main with_disk with_server with_ghosts shared backlog_of tracked_of acked_of disk
    ticker tpc signal spc main accepting handlers graceful saved st backlog pc tracked acked repeats repeats_of hub_log repeat_log
    usage_settled] in x in change x with y end.
Ltac alive_now := first [by left | by right].
Ltac took c := eapply rtc_l; [eapply c; [alive_now|reflexivity..]|]; norm.
Ltac took_flush c f := eapply rtc_l; [eapply c; [alive_now|reflexivity|eapply f]|]; norm.
Ltac posted c :=
  took_flush c f_snapshot;
  eapply rtc_l; [eapply c; [alive_now|reflexivity|eapply (f_write hub _ _ tx)]|]; norm;
  eapply rtc_l; [eapply c; [alive_now|reflexivity|eapply f_users_post; [reflexivity|apply step_flush_post; reflexivity]]|]; norm.
Ltac usage_step c t := eapply rtc_l; [eapply c; [alive_now|reflexivity|eapply f_users_step; [| |eapply t; reflexivity]; done]|]; norm.
Ltac hub_down c :=
  posted c; usage_step c (step_flush_hold hub HubErr false no_backup 0); took_flush c f_users_done; took_flush c f_drain_none.
Ltac hub_rejects c :=
  posted c; usage_step c (step_flush_settle hub (HubStatus 500) false backup 0 sent rows); usage_step c (step_flush_subtract hub sent);
  took_flush c f_users_done; took_flush c f_drain_none.
Ltac shut_down final :=
  eexists; split;
  [took p_accept; took (p_track hub 0 alice 10 0);
   eapply rtc_l; [apply (p_peers hub 0 joined); [by left|reflexivity|reflexivity]|]; norm;
   took p_tick; took p_signal; hub_down p_ticker; took p_reply; took p_stop; took p_joined; took p_close;
   eapply rtc_l; [apply p_closed; reflexivity|]; norm;
   took p_idle; final p_final; eapply rtc_l; [apply p_exit; reflexivity|]; apply rtc_refl
  |split_and!; reflexivity].

(** Usage is lost at exit when the final flush can neither report nor back it up. *)
Lemma unsent_usage_lost : ∃ σ, rtc (pstep hub) start σ ∧ main σ = MExit ∧ graceful σ = true ∧ saved σ = Some tx
  ∧ shared σ = joined ∧ acked_of σ = [] ∧ backlog_of σ = [].
Proof. shut_down hub_down. Qed.

Lemma rejected_usage_saved : ∃ σ, rtc (pstep hub) start σ ∧ main σ = MExit ∧ graceful σ = true ∧ usage_settled σ = true
  ∧ acked_of σ = [] ∧ repeats_of σ = [] ∧ backlog_of σ = rows.
Proof. shut_down hub_rejects. Qed.
End SampleProcess.

Lemma process_exact_witness :
  (∃ σ, main σ = MExit ∧ shared σ = SampleProcess.joined ∧ ∀ c user,
     backlog_total c user (backlog_of σ) + acked_total c user (acked_of σ)
     ≡₆₄ sum_for c user (tracked_of σ) + sum_for c user (repeats_of σ) - usage_of c (Users (shared σ)) user)
  ∧ ∃ σ, main σ = MExit ∧ backlog_of σ = SampleProcess.rows ∧ conserved (abs σ) ∧ ∀ c user,
     backlog_total c user (backlog_of σ) + acked_total c user (acked_of σ) ≡₆₄ sum_for c user (tracked_of σ) + sum_for c user (repeats_of σ).
Proof.
  split.
  - destruct SampleProcess.unsent_usage_lost as (σ & H & Hm & _ & _ & Hs & _). exists σ. split; [exact Hm|]. split; [exact Hs|].
    exact (proj1 (proj2 (proj2 (proj2 (process_exact SampleProcess.hub σ H)))) Hm).
  - destruct SampleProcess.rejected_usage_saved as (σ & H & Hm & Hg & Hu & _ & _ & Hb). exists σ. split; [exact Hm|]. split; [exact Hb|].
    split; [exact (proj1 (proj2 (proj2 (process_exact SampleProcess.hub σ H))))|].
    exact (proj2 (proj2 (proj2 (proj2 (proj2 (process_exact SampleProcess.hub σ H)))) Hm Hg Hu)).
Defined.

Lemma shutdown_saves_witness : ∃ σ, main σ = MExit ∧ is_Some (GetPeer (shared σ) (str "h") (str "p"))
  ∧ disk σ = view (shared σ) ∧ handlers σ = 0%nat ∧ accepting σ = false.
Proof.
  destruct SampleProcess.unsent_usage_lost as (σ & H & Hm & Hg & Ht & Hs & _). exists σ. split; [exact Hm|]. split; [rewrite Hs; decide_now|].
  refine (shutdown_saves SampleProcess.hub σ SampleProcess.tx H Hg Ht _). by repeat split.
Defined.
