(* ===== verification/Config.v ===== *)
(** * Configuration of the tracker

    Models [loadEnv] and [InitConfig] of [internal/tracker/tracker.go], with the [bufio.Scanner] and the [strings.TrimSpace] they use.  The two
    files are a parameter.

    The lemmas: a variable that is set already is never overridden, an unset one gets its first nonempty assignment, and the peer
    limit is always positive. *)

From S2P Require Import Prelude Strconv GoStrings Utf8 NetAddr Bencode TrackerState UsageSync Recognize Database Announce NetUrl WlUrl.
From Stdlib Require Import ZArith Lia.
Local Open Scope Z_scope.

(** ** [strings.TrimSpace] *)

(** [unicode.IsSpace] *)
Definition IsSpace (r : Z) : bool :=
  Utf8.between 9 13 r || bool_decide (r ∈ [0x20; 0x85; 0xA0; 0x1680; 0x2028; 0x2029; 0x202F; 0x205F; 0x3000]) || Utf8.between 0x2000 0x200A r.

(** The start of the rune that ends at the end of the string: at most three bytes back. *)
Definition RuneStart (b : byte) : bool := negb (Z.land (bval b) 0xC0 =? 0x80).
Fixpoint rune_start (n : nat) (s : bytes) (start : nat) : nat :=
  match n, start with
  | S n, S start' => match s !! start' with Some b => if RuneStart b then start' else rune_start n s start' | None => start' end
  | _, _ => start
  end.
Definition DecodeLastRune (s : bytes) : Z * nat :=
  match last s with
  | None => (RuneError, 0%nat)
  | Some b =>
      if bval b <? 0x80 then (bval b, 1%nat) else
      let start := rune_start 3 s (length s - 1) in
      let '(r, size) := DecodeRune (drop start s) in
      if (start + size =? length s)%nat then (r, size) else (RuneError, 1%nat)
  end.

Fixpoint trim_left (fuel : nat) (s : bytes) : bytes :=
  match fuel, s with
  | S fuel, _ :: _ => let '(r, width) := DecodeRune s in if IsSpace r then trim_left fuel (drop width s) else s
  | _, _ => s
  end.
Fixpoint trim_right (fuel : nat) (s : bytes) : bytes :=
  match fuel, s with
  | S fuel, _ :: _ => let '(r, width) := DecodeLastRune s in if IsSpace r then trim_right fuel (take (length s - width) s) else s
  | _, _ => s
  end.
Definition TrimSpace (s : bytes) : bytes := let s := trim_left (length s) s in trim_right (length s) s.

Example TrimSpace_ex : TrimSpace (zbyte 9 :: str " a b " ++ [zbyte 0xC2; zbyte 0xA0; zbyte 13]) = str "a b" ∧ TrimSpace (str "  ") = []
  ∧ TrimSpace (str "x" ++ [zbyte 0xA0]) = str "x" ++ [zbyte 0xA0].
Proof. vm_compute. done. Qed.

(** ** Lines *)

Definition maxLine : nat := Z.to_nat 65535.
Definition newline : byte := zbyte 10.
Definition drop_cr (s : bytes) : bytes := trim_suffix s [zbyte 13].

(** The tokens of [bufio.ScanLines], up to one that does not fit the scanner's buffer. *)
Fixpoint fitting (pieces : list bytes) : list bytes :=
  match pieces with [] => [] | p :: ps => if (length p <=? maxLine)%nat then drop_cr p :: fitting ps else [] end.
Definition scan_lines (data : bytes) : list bytes :=
  let pieces := split newline data in
  fitting (match last pieces with Some [] => take (length pieces - 1) pieces | _ => pieces end).

(** ** The environment *)

(** [os.Setenv]; its error is dropped. *)
Definition Setenv (env : Environ) (key val : bytes) : Environ :=
  if bool_decide (key = [] ∨ chr "=" ∈ key ∨ zbyte 0 ∈ key ∨ zbyte 0 ∈ val) then env else <[key := val]> env.

(** The key and the value of a line, [None] for a blank line, a comment, or one without [=]. *)
Definition assignment (line : bytes) : option (bytes * bytes) :=
  let line := TrimSpace line in
  if bool_decide (line = []) || has_prefix line (str "#") then None else
  match index_byte line (chr "=") with
  | None => None
  | Some i => Some (TrimSpace (take i line), TrimSpace (drop (S i) line))
  end.

Definition load_line (env : Environ) (line : bytes) : Environ :=
  match assignment line with
  | None => env
  | Some (key, val) => if bool_decide (Getenv env key = []) then Setenv env key val else env
  end.

Definition env_paths : list bytes := [str ".env.local"; str "/usr/local/bin/.env.local"].

(** [open]: the content of a file that opens, as far as it can be read. *)
Fixpoint open_first (open : bytes → option bytes) (paths : list bytes) : option bytes :=
  match paths with [] => None | p :: ps => match open p with Some data => Some data | None => open_first open ps end end.

Definition loadEnv (open : bytes → option bytes) (env : Environ) : Environ :=
  match open_first open env_paths with None => env | Some data => foldl load_line env (scan_lines data) end.

(** The environment and [MaxPeers] after [InitConfig], from a [MaxPeers] of 50. *)
Definition InitConfig (open : bytes → option bytes) (env : Environ) : Environ * Z :=
  let env := loadEnv open env in
  let mp := Getenv env (str "MAX_PEERS") in
  (env, if bool_decide (mp ≠ []) then match atoi mp with Some n => if 0 <? n then n else 50 | None => 50 end else 50).

(** The configuration of the announce handler. *)
Definition announce_config (open : bytes → option bytes) (env : Environ) : Config :=
  let '(env, maxPeers) := InitConfig open env in mkConfig [] (Getenv env (str "TRACKER_SECRET")) (Getenv env (str "OPEN_TRACKER")) maxPeers.

Definition sample_env : bytes := join newline [str "# tracker"; str "MAX_PEERS = 30"; str "OPEN_TRACKER=true" ++ [zbyte 13]; str "MAX_PEERS=7"; str "novalue"; str "A=b=c"].

Example config_ex : let open := (λ p, if bool_decide (p = str ".env.local") then Some sample_env else None) in
  announce_config open {[ str "OPEN_TRACKER" := str "false" ]} = mkConfig [] [] (str "false") 30
  ∧ Getenv (loadEnv open ∅) (str "OPEN_TRACKER") = str "true" ∧ Getenv (loadEnv open ∅) (str "A") = str "b=c".
Proof. vm_compute. done. Qed.

(** ** Lemmas *)

Lemma Getenv_set env key val k : Getenv (Setenv env key val) k = Getenv env k ∨ k = key ∧ Getenv (Setenv env key val) k = val.
Proof.
  unfold Setenv. case_bool_decide; [by left|]. unfold Getenv. destruct (decide (k = key)) as [->|Hk].
  - right. by rewrite lookup_insert_eq.
  - left. by rewrite lookup_insert_ne.
Qed.

(** The first value a list of lines gives to a variable. *)
Definition usable (key val : bytes) : Prop := key ≠ [] ∧ (chr "=" ∉ key) ∧ (zbyte 0 ∉ key) ∧ (zbyte 0 ∉ val) ∧ val ≠ [].
#[export] Instance usable_dec key val : Decision (usable key val).
Proof. unfold usable. apply _. Defined.

Fixpoint first_value (k : bytes) (lines : list bytes) : bytes :=
  match lines with
  | [] => []
  | line :: lines => match assignment line with
                     | Some (key, val) => if bool_decide (key = k ∧ usable key val) then val else first_value k lines
                     | None => first_value k lines
                     end
  end.

Lemma load_line_get env line k : Getenv (load_line env line) k =
  if bool_decide (Getenv env k = []) then match assignment line with Some (key, val) => if bool_decide (key = k ∧ usable key val) then val else [] | None => [] end
  else Getenv env k.
Proof.
  unfold load_line. destruct (assignment line) as [[key val]|]; [|by case_bool_decide]. destruct (decide (Getenv env k = [])) as [E|E].
  - rewrite (bool_decide_true (Getenv env k = [])) by done. destruct (decide (key = k ∧ usable key val)) as [H|H];
      [rewrite (bool_decide_true (key = k ∧ usable key val)) by done|rewrite (bool_decide_false (key = k ∧ usable key val)) by done].
    + destruct H as [<- (H1 & H2 & H3 & H4 & _)]. rewrite bool_decide_true by done. unfold Setenv. rewrite bool_decide_false by tauto.
      unfold Getenv. by rewrite lookup_insert_eq.
    + case_bool_decide; [|done]. destruct (decide (val = [])) as [->|Hv]; [by destruct (Getenv_set env key [] k) as [->|[_ ->]]|].
      unfold Setenv. case_bool_decide; [done|]. unfold Getenv. rewrite lookup_insert_ne; [done|]. intros ->. apply H. unfold usable. tauto.
  - rewrite (bool_decide_false (Getenv env k = [])) by done. case_bool_decide; [|done]. unfold Setenv. case_bool_decide; [done|].
    unfold Getenv. rewrite lookup_insert_ne; [done|]. by intros ->.
Qed.

(** What [loadEnv] leaves in the environment: what was set stays, the rest gets its first nonempty assignment. *)
Lemma loadEnv_get open env k : Getenv (loadEnv open env) k =
  if bool_decide (Getenv env k = []) then match open_first open env_paths with Some data => first_value k (scan_lines data) | None => [] end else Getenv env k.
Proof.
  unfold loadEnv. destruct (open_first open env_paths) as [data|]; [|by case_bool_decide]. generalize (scan_lines data). intros lines. revert env.
  induction lines as [|l lines IH]; intros env; cbn [foldl first_value]; [by case_bool_decide|]. rewrite IH, load_line_get.
  destruct (decide (Getenv env k = [])) as [E|E]; [rewrite !(bool_decide_true (Getenv env k = [])) by done|by rewrite !(bool_decide_false (Getenv env k = [])) by done].
  destruct (assignment l) as [[key val]|]; [|by rewrite bool_decide_true]. destruct (decide (key = k ∧ usable key val)) as [H|H].
  - rewrite (bool_decide_true (key = k ∧ usable key val)) by done. rewrite bool_decide_false; [done|]. by destruct H as (_ & _ & _ & _ & _ & ?).
  - by rewrite (bool_decide_false (key = k ∧ usable key val)), bool_decide_true by done.
Qed.

Lemma InitConfig_positive open env : 0 < snd (InitConfig open env).
Proof. unfold InitConfig. cbn [snd]. case_bool_decide; [|lia]. destruct (atoi _) as [n|]; [|lia]. destruct (Z.ltb_spec 0 n); lia. Qed.
